(* ===== verification/_CoqProject ===== *)
-Q . S2P
Prelude.v
GoJson.v
EventSrc.v
Registry.v
Outbox.v
Lifecycle.v
Cqrs.v
Product.v
Sql.v
Pgx.v
PgStores.v
Commands.v
Loads.v
Sourcing.v
Relay.v
ReadModel.v
Nats.v
System.v
Main.v
Live.v
PgRef.v
RefNats.v
Scenario.v
Shared.v
Steps.v
Concurrent.v
Sessions.v
Once.v
Instances.v
TestUtil.v
SharedNats.v
RefShared.v
Witnesses.v
RegistryWitnesses.v
SharedWitnesses.v
OnceWitnesses.v
LiveWitnesses.v
TestSuites.v
