(* ===== verification/Prelude.v ===== *)
(** * Eventus: a verification development of the CQRS / event-sourcing framework

    The repository is a Go framework for event sourcing over PostgreSQL and NATS and a
    sample application that manages products with it.  This library models the
    program's own code as executable definitions and proves what makes it correct,
    from one aggregate up to the running application.

    ** The program

    A command handler (sample/command) opens a transaction, builds or loads an
    aggregate (eventsrc, sample/domain), tracks one event on it and saves it: the
    event store (infra/postgres) writes the event, the same event to the outbox table,
    and now and then a snapshot.  A relay (outbox) polls the outbox, publishes to a
    broker (infra/nats) and marks the rows.  A subscriber fetches messages and hands
    each to a projection (cqrs), which checks idempotency and order and runs a handler
    (sample/query) that writes a view; a query reads the view.  sample/main.go wires
    these parts together.

    ** The files

    - Prelude: errors, results, the state monad [M] with its rules [wp], integers.
    - GoJson: uuid, time, float64, UTF-8 and encoding/json, as far as structs go.
    - EventSrc (eventsrc/): [Event], [BaseEvent], the registry, [AggregateRoot],
      [TrackChange], [LoadFromHistory], [Repository_Load], [Repository_Save].  A
      pointer to an aggregate is a state passed through; the closures of the root are
      the class [Embeds].
    - Registry (eventsrc/event_registry.go): the registry's two functions under their
      [sync.RWMutex], step by step, for any number of goroutines; everywhere else they are
      the atomic functions of EventSrc.
    - Outbox (msgbus/broker.go, outbox/relay.go): the interfaces, [processBatch], and
      the goroutine of [Start] as [relay_loop] over what each select receives.
    - Lifecycle (outbox/relay.go): [Start] and [Stop] of a relay with its wait group, its
      quit channel and its goroutines, as interleaved steps.
    - Cqrs (cqrs/projection.go): the interfaces, backoff.Retry as a class with its
      documented runs [retry_run], [Projection_Handle].
    - Product (sample/domain): product, events with their JSON, aggregate, snapshots.
    - Sql (infra/postgres/schema.sql and every SQL text): the tables, [sql_exec] for
      commands, [answers] for queries.
    - Pgx (infra/postgres/db.go): the driver as the class [Pgx], its documented
      behaviour as [PgxSpec], a server on which nothing fails as [PgxReliable], and
      [WithTransaction].
    - PgStores (infra/postgres): idempotency store, outbox store, event store.
    - Commands (sample/command): both handlers, over the interfaces and then over the
      PostgreSQL store.
    - Loads: what the product repository reads back from that store, and its
      equivalence with a full replay.
    - Sourcing (eventsrc/ over infra/postgres): the same repository for an arbitrary
      aggregate; what an aggregate owes is the predicate [sourced] of its state and its
      events and the faithfulness of its snapshots.
    - Relay: the relay over the outbox store and any broker that is a [BrokerSpec].
    - ReadModel (sample/query): view repository, projection handler, query.
    - Nats (infra/nats/broker.go): [NATSBroker] over the class [JetStream]; it is
      proved to be a [BrokerSpec], and a [BrokerReliable] when JetStream works.
    - System (sample/main.go): the goroutines as one step relation, and the story the
      simulation goroutine plays.
    - Main (sample/main.go, [NewDB], [NewNATSBroker]): how the application starts and
      ends, which goroutines it starts and what it leaves open.
    - Live: infinite fair runs of the application.
    - PgRef, RefNats: a server, a broker and a retry function one can run, with
      injected faults; they satisfy every assumption made of the outside.
    - Shared: what the driver's calls and the broker promise to one of several
      sessions that use them at the same time ([SharedPgx], [BrokerShared]); which
      outbox rows the others hold locked is [others_hold].
    - Steps: an abstract specification: the atomic steps commands, relays and the
      projection are meant to consist of, and the invariant they keep.
    - Concurrent: the operations of PgStores, Commands, Relay and ReadModel, unchanged,
      among other sessions: each is proved to be a few of those steps.
    - Sessions: any sequence of those operations, among other sessions: the abstract
      specification holds of the code, and with it the invariant.
    - Once: a projection whose handler works in the transaction it is given
      ([TxHandler]): what each delivery commits ([delivered]), among whatever others do.
    - Instances: the steps of Steps and those of any number of further instances of the
      projection.
    - TestUtil (testutil/): the versioned store of the tests, their event, the suite's
      container and pool, the emptying of tables.
    - SharedNats: [NATSBroker] is a [BrokerShared].  RefShared: the server of PgRef and
      the broker of RefNats with a script of what other sessions do between the calls.
    - Scenario, Witnesses, RegistryWitnesses, SharedWitnesses, OnceWitnesses,
      LiveWitnesses: the story of main.go as a run, and each theorem at a concrete input.
    - TestSuites (cqrs/projection_test.go, outbox/relay_test.go): the tests of the
      repository as runs on the server of PgRef; what they assert is computed.

    ** The outside

    pgx, PostgreSQL, NATS and the backoff library are parameters: classes of calls
    ([Pgx], [PgCodec], [JetStream], [Backoff]) and classes of their documented
    behaviour ([PgxSpec], [PgCodecSpec], [JetStreamSpec], [BackoffSpec]).  Any call may
    fail at any time, an error of a commit, an execution on the pool or a publication
    may be reported although the work was done, and while a projection waits for its
    next attempt other steps may happen.  The classes ending in Reliable add that
    nothing fails from outside; liveness and exact outcomes are stated under them.
    Safety theorems never are.

    Two views of the database are used.  Under [PgxSpec] nobody else changes it between
    two calls of one operation; this is where exact outcomes, convergence and liveness
    are proved.  Under [SharedPgx] other sessions may commit before every call: a
    statement sees what is committed when it is executed (READ COMMITTED), locked rows
    stay as they are, and a transaction takes effect on the tables as they are at its
    commit.  What others do there is steps of the same program, which is what each
    session is proved to do itself; Once leaves it open.

    ** The theorems

    - The whole application: C1, an invariant of every reachable state, which includes
      that no message is acknowledged before its event is marked as processed; C11,
      every stored event is seen by queries in the end; C40 start and end of main.
    - Interleavings: C12 a command has one linearization point, C13 relays never publish
      what another has marked, and a poll that succeeds has relayed the batch its query
      returned, C14 the projection among commands and relays, C16 whole sessions of these
      operations and queries, which do nothing but the steps of Steps and so keep their
      invariant, C15 what of it survives several instances of the projection.
    - Exactly once: C4 however often events are delivered and retried, and whatever others
      do, each delivery makes at most one commit, of what the handler queued and the mark,
      no event is marked by two of them, and an acknowledged event is marked; with nobody
      else about, the tables are these commits one after the other; C17 one call of [Handle] commits one effect
      or none; C18 without faults it commits it.  This is for handlers that write in the
      transaction of their context.
    - The event store: C2 atomic saves, C3 optimistic concurrency exactly, C32 loads,
      C37 and C38 the schema's constraints and column types, and append-only tables.
    - The repository of any aggregate: C7 what [Save] wrote is what the next [Load]
      reads, with or without snapshots; C33 [TrackChange] and replay.
    - The registry: C30 its functions are linearizable under the mutex and free of data
      races, C31 their calls return.
    - The relay: C5 nothing is marked that was not published, and nothing else changes in
      any table, C6 the outbox is drained, C26 order, C28 and C29 [Stop] waits for the goroutines and returns.
    - The read model: C8 convergence, C9 refinement of [deliver], C23 a late view
      write, C24 a lost one, C25 a duplicate mark, C27 the guards of [Handle], C39
      queries; without a number, safety under faults ([projection_safe]).
    - Commands: C10 at most one event each and the stream invariant, C19 the outcome of
      each, C20 and C21 the consequence of what snapshots lose, C22 the equivalence of
      the product's loads with a full replay.
    - Messages: C34 and C35 JSON round trips, C36 the outcome of [Publish].

    The theorems show, besides what the code means to do, some things it does not: a
    product with a snapshot of its latest version refuses every further command (C20,
    C21: its snapshots are not faithful in the sense of C7), a view whose write fails is
    lost for good (C24), so are the versions that a late write of a second projection
    takes back (C23), a mark that is already there aborts its transaction (C25).

    ** Bounds and termination

    Every definition is structurally recursive: loops run over the list they range
    over, and the two goroutines that never end over the list of what their select
    finds, of any length.  Runs that never end are functions from [nat] (C11, C29), with
    what they assume of schedulers, clocks and redelivery as hypotheses.  The retry
    loop is the library's: its runs are an inductive relation, so partial correctness
    is all that is said of it when attempts keep failing, and on a reliable server one
    attempt is enough.  Go's int wraps at 64 bits ([int_add]); PostgreSQL's INT is 32
    bits and refuses.

    ** Not modelled

    Logging; the arguments of formatted error messages; timers (a ticker may always be
    ready) and the text of connection options.  JSON is a tree
    with typed leaves, not bytes.  In Lifecycle and System a poll is one step; its calls
    are interleaved with others in Concurrent.  C14 and C16 have one projection per
    subscriber, since C23 shows what two of the sample do to each other's views; what
    holds with several is C15.  Of testutil, the path of schema.sql is an argument and the
    container is left to testcontainers, and with it what the suites assert of real time.
    Constructors that only store their arguments ([NewRepository], [NewOutboxStore] and
    the like) have no definition: what they store is an instance or a parameter here. *)

From Stdlib Require Import Sorted.
From Stdlib Require Export ZArith Lia ZifyN ZifyBool.
From stdpp Require Export base tactics strings option gmap sets decidable.
From stdpp Require Export list.

#[global] Set Default Goal Selector "!".

(** ** Results and errors

    Go functions that return [(T, error)] return a [res T]; functions that
    return only [error] return an [option error], [None] being [nil]. *)

(** The sentinel errors the program compares with [errors.Is] or [==]. *)
Inductive sentinel :=
  | ErrOutOfOrderEvent
  | ErrorProductNotFound
  | ErrNoRows
  | ErrTxCommitRollback
  | ContextCanceled
  | ErrStreamNotFound
  | ErrTimeout.

#[export] Instance sentinel_eq_dec : EqDecision sentinel.
Proof. solve_decision. Defined.

(** A Go error: its dynamic type and what [Unwrap] yields.  The formatted
    arguments of a message are dropped, its constant text is kept. *)
Inductive error :=
  | ErrorString (msg : string)
  | Wrapf (msg : string) (err : error)
  | ErrConcurrency (msg : string)
  | PgError (code : string)
  | PermanentError (err : error)
  | Sentinel (s : sentinel).

#[export] Instance error_eq_dec : EqDecision error.
Proof. solve_decision. Defined.

(** [errors.Is(err, target)] for a sentinel target. *)
Fixpoint errors_is (err : error) (target : sentinel) : bool :=
  match err with
  | Wrapf _ e | PermanentError e => errors_is e target
  | Sentinel s => bool_decide (s = target)
  | _ => false
  end.

(** [errors.As(err, &pgErr)], returning [pgErr.Code]. *)
Fixpoint errors_as_pg (err : error) : option string :=
  match err with
  | Wrapf _ e | PermanentError e => errors_as_pg e
  | PgError code => Some code
  | _ => None
  end.

(** [errors.As(err, &permanent)], returning [permanent.Err]. *)
Fixpoint errors_as_permanent (err : error) : option error :=
  match err with
  | Wrapf _ e => errors_as_permanent e
  | PermanentError e => Some e
  | _ => None
  end.

(** [errors.As(err, &concurrency)] for the type [eventsrc.ErrConcurrency]. *)
Fixpoint errors_as_concurrency (err : error) : bool :=
  match err with
  | Wrapf _ e | PermanentError e => errors_as_concurrency e
  | ErrConcurrency _ => true
  | _ => false
  end.

Inductive res (A : Type) :=
  | Ok (a : A)
  | Err (e : error).
Arguments Ok {A} _.
Arguments Err {A} _.

Definition is_Ok {A} (r : res A) : Prop := ∃ a, r = Ok a.

(** ** The effect monad

    Stateful code threads a world [W] (database, broker, driver state)
    explicitly. *)

Definition M (W A : Type) : Type := W → W * A.

#[export] Instance M_ret W : MRet (M W) := λ A a w, (w, a).
#[export] Instance M_bind W : MBind (M W) :=
  λ A B f m w, let '(w', a) := m w in f a w'.

(** [wp m Q w]: running [m] from [w] ends in a world and a value that satisfy [Q]. *)
Definition wp {W A} (m : M W A) (Q : A → W → Prop) (w : W) : Prop :=
  Q (m w).2 (m w).1.

Section wp_rules.
Context {W A B : Type}.
Implicit Types (w : W).

Lemma wp_run (m : M W A) Q w w' a : m w = (w', a) → wp m Q w → Q a w'.
Proof. unfold wp. by intros ->. Qed.

Lemma wp_intro (m : M W A) (Q : A → W → Prop) w :
  (∀ w' a, m w = (w', a) → Q a w') → wp m Q w.
Proof. unfold wp. destruct (m w) eqn:E; eauto. Qed.

Lemma wp_ret (a : A) (Q : A → W → Prop) w : Q a w → wp (mret a) Q w.
Proof. done. Qed.

Lemma wp_bind (m : M W A) (f : A → M W B) Q w :
  wp m (λ a w', wp (f a) Q w') w → wp (m ≫= f) Q w.
Proof. unfold wp, mbind, M_bind. by destruct (m w). Qed.

Lemma wp_mono (m : M W A) (P Q : A → W → Prop) w :
  wp m P w → (∀ a w', P a w' → Q a w') → wp m Q w.
Proof. unfold wp. eauto. Qed.
End wp_rules.

(** Turns a goal about the result of the run [H] into a [wp] goal. *)
Ltac wp_start H :=
  lazymatch type of H with
  | ?m ?w = (?w', ?r) =>
      pattern r, w';
      lazymatch goal with |- ?Q r w' => apply (wp_run m Q w w' r H) end
  end; clear H; cbv beta.

(** ** Lists *)

Section list_lemmas.
Context {A B : Type}.
Implicit Types (l : list A).

Lemma filter_all (P : A → Prop) `{∀ x, Decision (P x)} l : Forall P l → filter P l = l.
Proof. induction 1; [done|]. rewrite filter_cons_True by done. by f_equal. Qed.

Lemma filter_none (P : A → Prop) `{∀ x, Decision (P x)} l : Forall (λ x, ¬ P x) l → filter P l = [].
Proof. induction 1; [done|]. by rewrite filter_cons_False. Qed.

Lemma List_filter_eq (f : A → bool) l : List.filter f l = filter (λ x, f x = true) l.
Proof.
  induction l as [|x l IH]; [done|]. rewrite filter_cons. simpl.
  destruct (f x); simpl; by rewrite IH.
Qed.

Lemma filter_ext_in (P Q : A → Prop) `{∀ x, Decision (P x), ∀ x, Decision (Q x)} l :
  Forall (λ x, P x ↔ Q x) l → filter P l = filter Q l.
Proof.
  induction 1 as [|x l Hx _ IH]; [done|]. rewrite !filter_cons, IH.
  by destruct (decide (P x)), (decide (Q x)); [|tauto..|].
Qed.

Lemma sublist_filter_mono (P : A → Prop) `{∀ x, Decision (P x)} l l' :
  l `sublist_of` l' → filter P l `sublist_of` filter P l'.
Proof.
  induction 1 as [|x l l' _ IH|x l l' _ IH]; [done|..]; rewrite !filter_cons; case_decide; try done.
  - by apply sublist_skip.
  - by apply sublist_cons.
Qed.

Lemma filter_and_fmap (f : A → B) (P : A → Prop) (Q : B → Prop)
    `{∀ x, Decision (P x), ∀ y, Decision (Q y)} l :
  f <$> filter (λ x, P x ∧ Q (f x)) l = filter Q (f <$> filter P l).
Proof.
  induction l as [|x l IH]; [done|]. rewrite !filter_cons.
  destruct (decide (P x)) as [HP|HP].
  - rewrite fmap_cons, filter_cons. destruct (decide (Q (f x))) as [HQ|HQ].
    + rewrite decide_True by done. by rewrite fmap_cons, IH.
    + rewrite decide_False by tauto. done.
  - rewrite decide_False by tauto. done.
Qed.

Lemma NoDup_fmap_filter (f : A → B) (P : A → Prop) `{∀ x, Decision (P x)} l :
  NoDup (f <$> l) → NoDup (f <$> filter P l).
Proof.
  induction l as [|x l IH]; [done|]. rewrite filter_cons.
  intros [Hx Hl]%NoDup_cons. case_decide; [|auto]. rewrite fmap_cons. apply NoDup_cons.
  split; [|auto]. intros (y & Hy & [_ Hin]%list_elem_of_filter)%list_elem_of_fmap.
  apply Hx. rewrite Hy. by apply list_elem_of_fmap_2.
Qed.

Lemma elem_of_seqZ_map (f : A → Z) l a :
  f <$> l = seqZ a (Z.of_nat (length l)) → ∀ x, x ∈ l → (a ≤ f x)%Z.
Proof.
  intros Hl x Hx. apply (list_elem_of_fmap_2 f) in Hx. rewrite Hl in Hx.
  apply elem_of_seqZ in Hx. lia.
Qed.

Lemma seqZ_map_sorted (f : A → Z) l a :
  f <$> l = seqZ a (Z.of_nat (length l)) → StronglySorted (λ x y, (f x ≤ f y)%Z) l.
Proof.
  revert a. induction l as [|x l IH]; intros a Hl; [constructor|].
  assert (f x = a ∧ f <$> l = seqZ (Z.succ a) (Z.of_nat (length l))) as [Hx Hl'].
  { simpl length in Hl. rewrite fmap_cons, seqZ_cons in Hl by lia. injection Hl as -> Hl.
    split; [done|]. rewrite Hl. f_equal. lia. }
  constructor; [by eapply IH|]. apply Forall_forall. intros y Hy.
  pose proof (elem_of_seqZ_map f l _ Hl' y Hy). lia.
Qed.
End list_lemmas.

(** ** Machine integers *)

(** Go's [int] is 64 bits wide and wraps around. *)
Definition int_wrap (z : Z) : Z := ((z + 2 ^ 63) `mod` 2 ^ 64 - 2 ^ 63)%Z.
Definition int_range (z : Z) : Prop := (- 2 ^ 63 ≤ z < 2 ^ 63)%Z.
Definition int_add (a b : Z) : Z := int_wrap (a + b).

Lemma int_wrap_id z : int_range z → int_wrap z = z.
Proof. unfold int_range, int_wrap. intros. rewrite Z.mod_small; lia. Qed.

Lemma int_wrap_range z : int_range (int_wrap z).
Proof.
  unfold int_range, int_wrap.
  pose proof (Z.mod_pos_bound (z + 2 ^ 63) (2 ^ 64) ltac:(lia)). lia.
Qed.

(** PostgreSQL's [INT] is 32 bits wide and does not wrap. *)
Definition int4_ok (z : Z) : bool := ((- 2 ^ 31 <=? z) && (z <? 2 ^ 31))%Z.

Lemma int4_ok_range z : int4_ok z = true ↔ (- 2 ^ 31 ≤ z < 2 ^ 31)%Z.
Proof. unfold int4_ok. rewrite andb_true_iff, Z.leb_le, Z.ltb_lt. done. Qed.

Lemma int4_ok_succ z : int4_ok z = true → int_add z 1 = (z + 1)%Z.
Proof.
  rewrite int4_ok_range. intros. apply int_wrap_id. unfold int_range. lia.
Qed.
