(* ===== verification/GoJson.v ===== *)
(** * GoJson: Go values and their JSON form

    Strings, [float64], [uuid.UUID] and [time.Time] as the program uses them,
    and [encoding/json] on the structs it marshals.  A JSON document is kept as
    a tree whose leaves remember the Go type that wrote them: byte-level quoting
    and number formatting are not modelled, what they preserve is.  In
    particular [json.Marshal] replaces every invalid UTF-8 byte of a string by
    U+FFFD and refuses NaN, infinities and years outside 0..9999. *)
From Stdlib Require Import SpecFloat Ascii.
From S2P Require Import Prelude.

(** ** Scalars *)

(** [uuid.UUID]: 16 bytes, kept as a number; [uuid.Nil] is 0. *)
Inductive uuid := UUID (n : N).
Definition uuid_Nil : uuid := UUID 0.

#[export] Instance uuid_eq_dec : EqDecision uuid.
Proof. solve_decision. Defined.
#[export] Instance uuid_countable : Countable uuid.
Proof.
  exact (inj_countable' (λ '(UUID n), n) UUID (λ '(UUID n), eq_refl)).
Defined.

(** [time.Time] in UTC, as nanoseconds since the Unix epoch.  The zero value is
    January 1, year 1. *)
Inductive time := Unix (ns : Z).
Definition unix_ns (t : time) : Z := let 'Unix ns := t in ns.
Definition time_zero : time := Unix (-62135596800 * 10 ^ 9).

#[export] Instance time_eq_dec : EqDecision time.
Proof. solve_decision. Defined.

(** [float64]: IEEE 754 binary64. *)
Definition float64 : Type := spec_float.
Definition float_zero : float64 := S754_zero false.
#[export] Instance float64_eq_dec : EqDecision float64.
Proof. unfold EqDecision, float64. solve_decision. Defined.

(** [f <= 0] as Go evaluates it; false on NaN. *)
Definition float_le_zero (f : float64) : bool := SFleb f float_zero.

Definition float_finite (f : float64) : bool :=
  match f with S754_zero _ | S754_finite _ _ _ => true | _ => false end.

(** The nearest [float64] of an integer. *)
Definition float_of_Z (z : Z) : float64 := binary_normalize 53 1024 z 0 false.

(** The integer a finite float denotes, if it denotes one. *)
Definition float_integral (f : float64) : option Z :=
  match f with
  | S754_zero _ => Some 0%Z
  | S754_finite s m e =>
      let n := if (0 <=? e)%Z then Some (Z.pos m * 2 ^ e)%Z
               else if (Z.pos m mod 2 ^ (- e) =? 0)%Z
                    then Some (Z.pos m / 2 ^ (- e))%Z else None in
      (λ z, if s then (- z)%Z else z) <$> n
  | _ => None
  end.

(** ** UTF-8 (package [unicode/utf8]) *)

Definition byte_in (lo hi : N) (c : ascii) : bool :=
  ((lo <=? N_of_ascii c) && (N_of_ascii c <=? hi))%N.
Definition utf8_cont (c : ascii) : bool := byte_in 128 191 c.
Definition utf8_one (a : ascii) : bool := byte_in 0 127 a.
Definition utf8_two (a b : ascii) : bool := byte_in 194 223 a && utf8_cont b.

(** Lead byte and second byte of a three-byte and of a four-byte rune. *)
Definition utf8_three (a b : ascii) : bool :=
  (byte_in 224 224 a && byte_in 160 191 b)
  || (byte_in 225 236 a && utf8_cont b)
  || (byte_in 237 237 a && byte_in 128 159 b)
  || (byte_in 238 239 a && utf8_cont b).
Definition utf8_four (a b : ascii) : bool :=
  (byte_in 240 240 a && byte_in 144 191 b)
  || (byte_in 241 243 a && utf8_cont b)
  || (byte_in 244 244 a && byte_in 128 143 b).

(** U+FFFD in UTF-8. *)
Definition rune_error (rest : string) : string :=
  String "239"%char (String "191"%char (String "189"%char rest)).

(** What a string becomes when [json.Marshal] writes it and [json.Unmarshal]
    reads it back: every byte that starts no valid rune becomes U+FFFD. *)
Fixpoint to_valid_utf8 (s : string) : string :=
  match s with
  | EmptyString => EmptyString
  | String a s1 =>
      if utf8_one a then String a (to_valid_utf8 s1)
      else match s1 with
      | EmptyString => rune_error EmptyString
      | String b s2 =>
          if utf8_two a b then String a (String b (to_valid_utf8 s2))
          else match s2 with
          | EmptyString => rune_error (to_valid_utf8 s1)
          | String c s3 =>
              if utf8_three a b && utf8_cont c
              then String a (String b (String c (to_valid_utf8 s3)))
              else match s3 with
              | EmptyString => rune_error (to_valid_utf8 s1)
              | String d s4 =>
                  if utf8_four a b && utf8_cont c && utf8_cont d
                  then String a (String b (String c (String d (to_valid_utf8 s4))))
                  else rune_error (to_valid_utf8 s1)
              end
          end
      end
  end.

Definition valid_utf8 (s : string) : bool := bool_decide (to_valid_utf8 s = s).

(** ** JSON trees and the encoders of the scalar types *)

#[warnings="-register-all"]
Inductive json :=
  | JString (s : string)
  | JInt (z : Z)
  | JFloat (f : float64)
  | JUuid (u : uuid)
  | JTime (t : time)
  | JObject (fields : list (string * json)).

(** How [encoding/json] treats a Go type: what it writes, and what reading a
    document into a variable of the type stores.  [enc] fails on values JSON
    cannot hold. *)
Class JsonField (A : Type) := {
  enc : A → res json;
  dec : json → option A;
}.

Definition year_ok (t : time) : bool :=
  ((-62167219200 * 10 ^ 9 <=? unix_ns t) && (unix_ns t <? 253402300800 * 10 ^ 9))%Z.

#[export] Instance json_string : JsonField string := {|
  enc s := Ok (JString (to_valid_utf8 s));
  dec j := match j with JString s => Some s | _ => None end;
|}.

Definition int_in_range (z : Z) : bool := ((- 2 ^ 63 <=? z) && (z <? 2 ^ 63))%Z.

#[export] Instance json_int : JsonField Z := {|
  enc z := Ok (JInt z);
  dec j := match j with
           | JInt z => if int_in_range z then Some z else None
           | JFloat f => match float_integral f with
                         | Some z => if int_in_range z then Some z else None
                         | None => None
                         end
           | _ => None
           end;
|}.

#[export] Instance json_float : JsonField float64 := {|
  enc f := if float_finite f then Ok (JFloat f)
           else Err (ErrorString "json: unsupported value");
  dec j := match j with
           | JFloat f => Some f
           | JInt z => Some (float_of_Z z)
           | _ => None
           end;
|}.

#[export] Instance json_uuid : JsonField uuid := {|
  enc u := Ok (JUuid u);
  dec j := match j with JUuid u => Some u | _ => None end;
|}.

#[export] Instance json_time : JsonField time := {|
  enc t := if year_ok t then Ok (JTime t)
           else Err (ErrorString "Time.MarshalJSON: year outside of range [0,9999]");
  dec j := match j with JTime t => Some t | _ => None end;
|}.

(** [json.RawMessage] is copied through. *)
#[export] Instance json_raw : JsonField json := {|
  enc j := Ok j;
  dec j := Some j;
|}.

(** ** Structs *)

(** The fields of a struct are written in order; the first failure is returned. *)
Fixpoint enc_fields (fs : list (string * res json)) : res (list (string * json)) :=
  match fs with
  | [] => Ok []
  | (k, Err e) :: _ => Err e
  | (k, Ok j) :: rest =>
      match enc_fields rest with Ok js => Ok ((k, j) :: js) | Err e => Err e end
  end.

Definition enc_object (fs : list (string * res json)) : res json :=
  match enc_fields fs with Ok js => Ok (JObject js) | Err e => Err e end.

Fixpoint field (k : string) (fs : list (string * json)) : option json :=
  match fs with
  | [] => None
  | (k', j) :: rest => if String.eqb k k' then Some j else field k rest
  end.

(** Reading field [k] of an object into a variable holding [old]: a missing
    key leaves it, a value of the wrong type is an error. *)
Definition dec_field `{JsonField A} (k : string) (old : A) (fs : list (string * json)) : res A :=
  match field k fs with
  | None => Ok old
  | Some j => match dec j with
              | Some a => Ok a
              | None => Err (ErrorString "json: cannot unmarshal value")
              end
  end.

(** ** Theorems *)

(** What reading back a written value gives: [canon a], for the values [enc_ok]. *)
Class JsonFieldLaws (A : Type) `{JsonField A} := {
  enc_ok : A → Prop;
  canon : A → A;
  dec_enc a j : enc_ok a → enc a = Ok j → dec j = Some (canon a);
}.

#[export] Program Instance json_string_laws : JsonFieldLaws string := {|
  enc_ok _ := True; canon := to_valid_utf8;
|}.
Next Obligation. intros a j _. simpl. by intros [= <-]. Qed.

Lemma int_in_range_spec z : int_in_range z = true ↔ int_range z.
Proof.
  unfold int_in_range, int_range. rewrite andb_true_iff, Z.leb_le, Z.ltb_lt. done.
Qed.

#[export] Program Instance json_int_laws : JsonFieldLaws Z := {|
  enc_ok z := int_in_range z = true; canon z := z;
|}.
Next Obligation. intros a j Ha. simpl. intros [= <-]. by rewrite Ha. Qed.

#[export] Program Instance json_float_laws : JsonFieldLaws float64 := {|
  enc_ok _ := True; canon f := f;
|}.
Next Obligation. intros a j _. simpl. case_match; [|done]. by intros [= <-]. Qed.

#[export] Program Instance json_uuid_laws : JsonFieldLaws uuid := {|
  enc_ok _ := True; canon u := u;
|}.
Next Obligation. intros a j _. simpl. by intros [= <-]. Qed.

#[export] Program Instance json_time_laws : JsonFieldLaws time := {|
  enc_ok _ := True; canon t := t;
|}.
Next Obligation. intros a j _. simpl. case_match; [|done]. by intros [= <-]. Qed.

#[export] Program Instance json_raw_laws : JsonFieldLaws json := {|
  enc_ok _ := True; canon j := j;
|}.
Next Obligation. intros a j _. simpl. by intros [= <-]. Qed.

Lemma dec_field_enc `{JsonFieldLaws A} k (old a : A) j fs :
  field k fs = Some j → enc_ok a → enc a = Ok j → dec_field k old fs = Ok (canon a).
Proof. intros Hk Ha Hj. unfold dec_field. by rewrite Hk, (dec_enc a j). Qed.

Lemma enc_object_ok fs j :
  enc_object fs = Ok j → ∃ js, j = JObject js ∧ enc_fields fs = Ok js.
Proof. unfold enc_object. destruct (enc_fields fs) eqn:E; naive_solver. Qed.

Lemma enc_fields_cons k r fs js :
  enc_fields ((k, r) :: fs) = Ok js →
  ∃ j js', r = Ok j ∧ enc_fields fs = Ok js' ∧ js = (k, j) :: js'.
Proof. simpl. destruct r; [destruct (enc_fields fs)|]; naive_solver. Qed.

(** Reading back what [enc_object] wrote, field by field. *)
Ltac enc_inv :=
  repeat match goal with
  | H : enc_object _ = Ok _ |- _ => apply enc_object_ok in H as (? & -> & H)
  | H : enc_fields ((_, _) :: _) = Ok _ |- _ =>
      apply enc_fields_cons in H as (? & ? & ? & H & ->)
  | H : enc_fields [] = Ok _ |- _ => injection H as <-
  end.

Ltac dec_enc :=
  repeat (erewrite dec_field_enc; [ | reflexivity | | eassumption ]; [ | by eauto ..]).

(** Well-formed UTF-8, rune by rune: what [to_valid_utf8] produces and keeps. *)
Inductive Utf8 : string → Prop :=
  | Utf8_nil : Utf8 EmptyString
  | Utf8_one a s : utf8_one a = true → Utf8 s → Utf8 (String a s)
  | Utf8_two a b s : utf8_two a b = true → Utf8 s → Utf8 (String a (String b s))
  | Utf8_three a b c s :
      utf8_three a b = true → utf8_cont c = true → Utf8 s →
      Utf8 (String a (String b (String c s)))
  | Utf8_four a b c d s :
      utf8_four a b = true → utf8_cont c = true → utf8_cont d = true → Utf8 s →
      Utf8 (String a (String b (String c (String d s)))).

Lemma Utf8_rune_error s : Utf8 s → Utf8 (rune_error s).
Proof. intros. by apply Utf8_three. Qed.

Create HintDb utf8.
#[export] Hint Resolve Utf8_nil Utf8_one Utf8_two Utf8_three Utf8_four Utf8_rune_error : utf8.

Lemma to_valid_utf8_valid s : Utf8 (to_valid_utf8 s).
Proof.
  remember (String.length s) as n eqn:Hn. revert s Hn.
  induction n as [n IH] using lt_wf_ind. intros s ->.
  assert (∀ t, String.length t < String.length s → Utf8 (to_valid_utf8 t)) as IH'.
  { intros t Ht. by eapply IH. }
  clear IH. destruct s as [|a s1]; [constructor|]. cbn [to_valid_utf8].
  destruct (utf8_one a) eqn:?; [eauto with utf8|].
  destruct s1 as [|b s2]; [by auto with utf8|].
  destruct (utf8_two a b) eqn:?; [apply Utf8_two; [done|apply IH'; simpl; lia]|].
  destruct s2 as [|c s3]; [by auto with utf8|].
  destruct (utf8_three a b && utf8_cont c) eqn:H3.
  { apply andb_true_iff in H3 as [??].
    apply Utf8_three; [done|done|apply IH'; simpl; lia]. }
  destruct s3 as [|d s4]; [by auto with utf8|].
  destruct (utf8_four a b && utf8_cont c && utf8_cont d) eqn:H4; [|by auto with utf8].
  apply andb_true_iff in H4 as [[??]%andb_true_iff ?].
  apply Utf8_four; [done..|apply IH'; simpl; lia].
Qed.

Ltac bytes_lia :=
  unfold utf8_one, utf8_two, utf8_three, utf8_four, utf8_cont, byte_in in *;
  repeat match goal with
  | H : context [N_of_ascii ?c] |- _ =>
      generalize dependent (N_of_ascii c); intros
  | |- context [N_of_ascii ?c] => generalize (N_of_ascii c); intros
  end; lia.

Lemma utf8_two_lead a b : utf8_two a b = true → utf8_one a = false.
Proof. intros; bytes_lia. Qed.
Lemma utf8_three_lead a b :
  utf8_three a b = true → utf8_one a = false ∧ utf8_two a b = false.
Proof. intros; split; bytes_lia. Qed.
Lemma utf8_four_lead a b :
  utf8_four a b = true →
  utf8_one a = false ∧ utf8_two a b = false ∧ utf8_three a b = false.
Proof. intros; repeat split; bytes_lia. Qed.

Lemma Utf8_to_valid s : Utf8 s → to_valid_utf8 s = s.
Proof.
  induction 1 as [|a s Ha _ IH|a b s Hab _ IH|a b c s Hab Hc _ IH|a b c d s Hab Hc Hd _ IH];
    cbn [to_valid_utf8].
  - done.
  - by rewrite Ha, IH.
  - by rewrite (utf8_two_lead _ _ Hab), Hab, IH.
  - destruct (utf8_three_lead _ _ Hab) as [-> ->]. by rewrite Hab, Hc, IH.
  - destruct (utf8_four_lead _ _ Hab) as (-> & -> & ->). by rewrite Hab, Hc, Hd, IH.
Qed.

(** [to_valid_utf8] is idempotent: a string that went through JSON once is
    unchanged by going through it again. *)
Lemma to_valid_utf8_idemp s : to_valid_utf8 (to_valid_utf8 s) = to_valid_utf8 s.
Proof. apply Utf8_to_valid, to_valid_utf8_valid. Qed.
