(* ===== verification/EventSrc.v ===== *)
(** * EventSrc: package [eventsrc]

    The [Event] interface and [BaseEvent], the global event registry, the
    [AggregateRoot] base type, and the generic [Repository] written against the
    [Store] interface. *)
From S2P Require Import Prelude GoJson.

(** ** eventsrc/event.go *)

(** The [Event] interface, with the two things [encoding/json] does with a value
    of it: [json.Marshal(evt)] and [json.Unmarshal(payload, evt)]. *)
Class Event (E : Type) := {
  EventID : E → uuid;
  AggregateID : E → uuid;
  AggregateType : E → string;
  EventType : E → string;
  Version : E → Z;
  Timestamp : E → time;
  event_Marshal : E → res json;
  event_Unmarshal : json → E → res E;
}.

Record BaseEvent := {
  ID : uuid;
  AggID : uuid;
  AggType : string;
  Ver : Z;
  Ts : time;
}.

Definition BaseEvent_zero : BaseEvent :=
  {| ID := uuid_Nil; AggID := uuid_Nil; AggType := ""; Ver := 0; Ts := time_zero |}.

(** The promoted fields of an embedded [BaseEvent], under their JSON tags. *)
Definition BaseEvent_fields (b : BaseEvent) : list (string * res json) :=
  [("id", enc (ID b)); ("aggregate_id", enc (AggID b));
   ("aggregate_type", enc (AggType b)); ("version", enc (Ver b)); ("ts", enc (Ts b))].

Definition BaseEvent_read (fs : list (string * json)) (b : BaseEvent) : res BaseEvent :=
  match dec_field "id" (ID b) fs, dec_field "aggregate_id" (AggID b) fs,
        dec_field "aggregate_type" (AggType b) fs, dec_field "version" (Ver b) fs,
        dec_field "ts" (Ts b) fs with
  | Ok i, Ok a, Ok ty, Ok v, Ok t =>
      Ok {| ID := i; AggID := a; AggType := ty; Ver := v; Ts := t |}
  | Err e, _, _, _, _ | _, Err e, _, _, _ | _, _, Err e, _, _
  | _, _, _, Err e, _ | _, _, _, _, Err e => Err e
  end.

(** [eventsrc.OutboxEvent]. *)
Record OutboxEvent := {
  oe_EventID : uuid;
  oe_AggregateID : uuid;
  oe_AggregateType : string;
  oe_EventType : string;
  oe_Payload : json;
  oe_Version : Z;
  oe_Ts : time;
}.

(** ** eventsrc/event_registry.go

    As functions that take effect at once; Registry shows that under their mutex they
    are. *)

(** A Go call that may panic. *)
Inductive outcome (A : Type) :=
  | Returned (a : A)
  | Panicked (msg : string).
Arguments Returned {A} _.
Arguments Panicked {A} _.

Definition EventFactory (E : Type) : Type := unit → E.

Definition RegisterEvent {E} (eventType : string) (factory : EventFactory E) :
    M (gmap string (EventFactory E)) (outcome unit) := λ eventRegistry,
  match eventRegistry !! eventType with
  | Some _ => (eventRegistry, Panicked "event type is already registered")
  | None => (<[eventType := factory]> eventRegistry, Returned tt)
  end.

Definition CreateEvent {E} (eventRegistry : gmap string (EventFactory E))
    (eventType : string) : res E :=
  match eventRegistry !! eventType with
  | None => Err (ErrorString "event type is not registered")
  | Some factory => Ok (factory tt)
  end.

(** ** eventsrc/aggregate.go *)

(** The data fields of [AggregateRoot]. *)
Record AggregateRoot (E : Type) := {
  id : uuid;
  aggType : string;
  version : Z;
  events : list E;
}.
Arguments id {E} _.
Arguments aggType {E} _.
Arguments version {E} _.
Arguments events {E} _.

Definition NewAggregateRoot {E} (aggType : string) : AggregateRoot E :=
  {| id := uuid_Nil; aggType := aggType; version := 0; events := [] |}.

Definition SetID {E} (i : uuid) (a : AggregateRoot E) : AggregateRoot E :=
  {| id := i; aggType := aggType a; version := version a; events := events a |}.
Definition SetVersion {E} (v : Z) (a : AggregateRoot E) : AggregateRoot E :=
  {| id := id a; aggType := aggType a; version := v; events := events a |}.
Definition set_events {E} (evs : list E) (a : AggregateRoot E) : AggregateRoot E :=
  {| id := id a; aggType := aggType a; version := version a; events := evs |}.

(** A concrete aggregate [T] embeds an [AggregateRoot] and hands it the two
    closures [applyMethod] and [validateState], which read and write [T]. *)
Class Embeds (E T : Type) := {
  root : T → AggregateRoot E;
  with_root : (AggregateRoot E → AggregateRoot E) → T → T;
  applyMethod : E → M T (option error);
  validateState : T → option error;
}.

Section aggregate_root.
Context {E T : Type} `{Embeds E T}.

Definition AggregateRoot_ID (a : T) : uuid := id (root a).
Definition AggregateRoot_AggregateType (a : T) : string := aggType (root a).
Definition AggregateRoot_Version (a : T) : Z := version (root a).
Definition GetUncommittedEvents (a : T) : list E := events (root a).
Definition ClearUncommittedEvents (a : T) : T := with_root (set_events []) a.

Definition TrackChange (evt : E) : M T (option error) := λ a,
  match applyMethod evt a with
  | (a, Some err) => (a, Some (Wrapf "apply event when tracking change failed" err))
  | (a, None) =>
      match validateState a with
      | Some err => (a, Some (Wrapf "state validation failed after applying event" err))
      | None => (with_root (set_events (events (root a) ++ [evt])) a, None)
      end
  end.

Fixpoint LoadFromHistory (history : list E) : M T (option error) := λ a,
  match history with
  | [] => (a, None)
  | evt :: history =>
      match applyMethod evt a with
      | (a, Some err) => (a, Some (Wrapf "apply event from history failed" err))
      | (a, None) => LoadFromHistory history a
      end
  end.

Definition AggregateRoot_Apply (evt : E) : M T (option error) := applyMethod evt.
Definition AggregateRoot_Validate (a : T) : option error := validateState a.
End aggregate_root.

(** The [Aggregate] interface: the promoted methods of [AggregateRoot] and the
    concrete type's [json.Marshaler] / [json.Unmarshaler]. *)
Class Aggregate (E T : Type) `{Embeds E T} := {
  MarshalJSON : T → res json;
  UnmarshalJSON : json → M T (option error);
}.

(** ** eventsrc/event_store.go *)

(** The [Store] interface; [C] is the type of contexts. *)
Class Store (W C E T : Type) := {
  Store_Save : C → T → M W (option error);
  Store_Load : C → uuid → M W (res (option json * Z * list E));
}.

(** ** eventsrc/aggregate_repository.go *)

Section repository.
Context {W C E T : Type} `{Aggregate E T} `{Store W C E T}.
Variable newEmptyAggregate : T.

(** [LoadFromHistory]'s error is discarded, as in the code. *)
Definition Repository_Load (ctx : C) (i : uuid) : M W (res T) :=
  r ← Store_Load ctx i;
  match r with
  | Err err => mret (Err (Wrapf "failed to load aggregate from store" err))
  | Ok (snapshotPayload, _, history) =>
      match (match snapshotPayload with
             | None => (newEmptyAggregate, None)
             | Some payload => UnmarshalJSON payload newEmptyAggregate
             end) with
      | (_, Some err) => mret (Err (Wrapf "failed to unmarshal snapshot for aggregate" err))
      | (aggregate, None) => mret (Ok (LoadFromHistory history aggregate).1)
      end
  end.

(** The aggregate is a pointer: the second component is its state afterwards. *)
Definition Repository_Save (ctx : C) (aggregate : T) : M W (option error * T) :=
  match GetUncommittedEvents aggregate with
  | [] => mret (None, aggregate)
  | _ =>
      r ← Store_Save ctx aggregate;
      match r with
      | Some err => mret (Some (Wrapf "failed to save aggregate" err), aggregate)
      | None => mret (None, ClearUncommittedEvents aggregate)
      end
  end.
End repository.

(** ** Theorems *)

(** What the framework relies on in a concrete aggregate: the embedded root
    behaves as a field, and the closures neither read nor write the list of
    uncommitted events. *)
Class EmbedsLaws (E T : Type) `{Embeds E T} : Prop := {
  root_with_root f a : root (with_root f a) = f (root a);
  with_root_with_root f g a : with_root f (with_root g a) = with_root (f ∘ g) a;
  with_root_ext f g a : f (root a) = g (root a) → with_root f a = with_root g a;
  with_root_id a : with_root (λ r, r) a = a;
  apply_frame evt evs a :
    applyMethod evt (with_root (set_events evs) a) =
    (with_root (set_events evs) (applyMethod evt a).1, (applyMethod evt a).2);
  validate_frame evs a : validateState (with_root (set_events evs) a) = validateState a;
}.

Section registry_theorems.
Context {E : Type}.
Implicit Types (reg : gmap string (EventFactory E)).

(** The registry.  Registering a type that has no factory makes [CreateEvent]
    return what its factory makes, and changes nothing for other types; registering a
    type again panics and leaves the registry as it was. *)
Theorem RegisterEvent_cases reg reg' t f r :
  RegisterEvent t f reg = (reg', r) →
  match r with
  | Returned _ => (∃ e, CreateEvent reg t = Err e) ∧ CreateEvent reg' t = Ok (f tt) ∧
      ∀ t', t' ≠ t → CreateEvent reg' t' = CreateEvent reg t'
  | Panicked _ => (∃ e, CreateEvent reg t = Ok e) ∧ reg' = reg
  end.
Proof.
  unfold RegisterEvent, CreateEvent. destruct (reg !! t) as [g|] eqn:Ht; intros [= <- <-].
  - split; [by eexists|done].
  - split_and!; [by eexists|by rewrite lookup_insert_eq|].
    intros t' Hne. by rewrite lookup_insert_ne by congruence.
Qed.
End registry_theorems.

Section aggregate_theorems.
Context {E T : Type} `{EmbedsLaws E T}.
Implicit Types (a : T) (evt : E) (evs : list E).

Lemma with_own_events a : with_root (set_events (events (root a))) a = a.
Proof.
  rewrite <- (with_root_id a) at 3. apply with_root_ext. by destruct (root a).
Qed.

Lemma apply_events evt a : events (root (applyMethod evt a).1) = events (root a).
Proof.
  pose proof (apply_frame evt (events (root a)) a) as Hf.
  rewrite with_own_events in Hf. rewrite Hf. simpl. by rewrite root_with_root.
Qed.

Lemma set_events_twice evs evs' a :
  with_root (set_events evs) (with_root (set_events evs') a) = with_root (set_events evs) a.
Proof. rewrite with_root_with_root. by apply with_root_ext. Qed.

Lemma LoadFromHistory_app h1 h2 a :
  LoadFromHistory (h1 ++ h2) a =
  match LoadFromHistory h1 a with
  | (a', None) => LoadFromHistory h2 a'
  | r => r
  end.
Proof.
  revert a. induction h1 as [|evt h1 IH]; intros a; [done|]. simpl.
  destruct (applyMethod evt a) as [a' [e|]]; [done|]. apply IH.
Qed.

Lemma LoadFromHistory_frame evs h a :
  LoadFromHistory h (with_root (set_events evs) a) =
  (with_root (set_events evs) (LoadFromHistory h a).1, (LoadFromHistory h a).2).
Proof.
  revert a. induction h as [|evt h IH]; intros a; [done|]. simpl.
  rewrite apply_frame. destruct (applyMethod evt a) as [a' [e|]]; [done|]. apply IH.
Qed.

Lemma LoadFromHistory_events h a :
  events (root (LoadFromHistory h a).1) = events (root a).
Proof.
  pose proof (LoadFromHistory_frame (events (root a)) h a) as Hf.
  rewrite with_own_events in Hf. rewrite Hf. simpl. by rewrite root_with_root.
Qed.

(** Rehydration stops at the first event the aggregate refuses: what it leaves
    is the replay of the events before it, and the error wraps that event's. *)
Lemma LoadFromHistory_error h a a' e :
  LoadFromHistory h a = (a', Some e) →
  ∃ h1 evt h2 e' a1, h = h1 ++ evt :: h2 ∧ LoadFromHistory h1 a = (a1, None) ∧
    applyMethod evt a1 = (a', Some e') ∧ e = Wrapf "apply event from history failed" e'.
Proof.
  revert a. induction h as [|evt h IH]; intros a; simpl; [done|].
  destruct (applyMethod evt a) as [a1 [e1|]] eqn:E1.
  - intros [= <- <-]. by exists [], evt, h, e1, a.
  - intros (h1 & evt' & h2 & e' & a2 & -> & Hl & Ha & He)%IH.
    exists (evt :: h1), evt', h2, e', a2. simpl. by rewrite E1.
Qed.

(** The outcomes of [TrackChange]: the event is recorded exactly when it
    applies and the resulting state is valid. *)
Lemma TrackChange_None evt a a' :
  TrackChange evt a = (a', None) →
  ∃ a1, applyMethod evt a = (a1, None) ∧ validateState a1 = None ∧
    a' = with_root (set_events (events (root a) ++ [evt])) a1.
Proof.
  unfold TrackChange. pose proof (apply_events evt a) as He.
  destruct (applyMethod evt a) as [a1 [e|]]; [done|]. simpl in He.
  destruct (validateState a1) eqn:?; [done|]. intros [= <-]. rewrite He. eauto.
Qed.

Lemma TrackChange_Some evt a a' e :
  TrackChange evt a = (a', Some e) →
  GetUncommittedEvents a' = GetUncommittedEvents a ∧ a' = (applyMethod evt a).1.
Proof.
  unfold TrackChange, GetUncommittedEvents. pose proof (apply_events evt a) as He.
  destruct (applyMethod evt a) as [a1 [e1|]]; simpl in He; [by intros [= <- <-]|].
  destruct (validateState a1); by intros [= <- <-].
Qed.
End aggregate_theorems.

(** Tracking several changes in a row, stopping at the first failure. *)
Fixpoint TrackChanges {E T} `{Embeds E T} (evs : list E) : M T (option error) := λ a,
  match evs with
  | [] => (a, None)
  | evt :: evs =>
      match TrackChange evt a with
      | (a, Some err) => (a, Some err)
      | (a, None) => TrackChanges evs a
      end
  end.

Section event_sourcing.
Context {E T : Type} `{EmbedsLaws E T}.

Lemma TrackChanges_replay (evs : list E) (a a' : T) :
  TrackChanges evs a = (a', None) →
  GetUncommittedEvents a' = GetUncommittedEvents a ++ evs ∧
  LoadFromHistory evs (ClearUncommittedEvents a) = (ClearUncommittedEvents a', None).
Proof.
  revert a. induction evs as [|evt evs IH]; intros a; simpl.
  - intros [= <-]. by rewrite app_nil_r.
  - destruct (TrackChange evt a) as [a1 [e|]] eqn:Ht; [done|].
    apply TrackChange_None in Ht as (a2 & Ha & Hv & ->).
    intros [He Hl]%IH. unfold GetUncommittedEvents, ClearUncommittedEvents in *.
    rewrite root_with_root in He. rewrite set_events_twice in Hl.
    split; [rewrite He; simpl; by rewrite <- app_assoc|].
    by rewrite apply_frame, Ha.
Qed.

(** C33: event sourcing.  The state a sequence of tracked changes reaches is,
    apart from the list of uncommitted events, the state [LoadFromHistory]
    rebuilds from exactly the events that were recorded. *)
Theorem tracked_changes_replay (evs : list E) (a a' : T) :
  TrackChanges evs a = (a', None) →
  GetUncommittedEvents a' = GetUncommittedEvents a ++ evs ∧
  LoadFromHistory evs (ClearUncommittedEvents a) = (ClearUncommittedEvents a', None).
Proof. apply TrackChanges_replay. Qed.

(** A rejected change.  When [TrackChange] fails, the event is not recorded
    and the aggregate is the one the event was applied to; when it succeeds the
    recorded state has passed validation. *)
Theorem TrackChange_cases (evt : E) (a a' : T) (r : option error) :
  TrackChange evt a = (a', r) →
  match r with
  | None => (AggregateRoot_Apply evt a).2 = None ∧ AggregateRoot_Validate a' = None ∧
            GetUncommittedEvents a' = GetUncommittedEvents a ++ [evt]
  | Some _ => GetUncommittedEvents a' = GetUncommittedEvents a ∧
              a' = (AggregateRoot_Apply evt a).1 ∧
              ((AggregateRoot_Apply evt a).2 = None → AggregateRoot_Validate a' ≠ None)
  end.
Proof.
  unfold AggregateRoot_Apply, AggregateRoot_Validate. destruct r as [e|]; intros Ht.
  - destruct (TrackChange_Some _ _ _ _ Ht) as [? ->]. split_and!; [done..|].
    unfold TrackChange in Ht. destruct (applyMethod evt a) as [a1 [|]]; [done|].
    simpl. by destruct (validateState a1).
  - apply TrackChange_None in Ht as (a1 & -> & Hv & ->). split_and!; [done|..].
    + by rewrite validate_frame.
    + unfold GetUncommittedEvents. by rewrite root_with_root.
Qed.
End event_sourcing.

Section repository_theorems.
Context {W C E T : Type} `{Aggregate E T} `{!EmbedsLaws E T} `{Store W C E T}.

(** [Repository.Save].  An aggregate with no uncommitted events is not sent
    to the store; otherwise the store is called once, and the aggregate forgets
    its events exactly when the store accepted them. *)
Theorem Repository_Save_cases (ctx : C) (a a' : T) (w w' : W) (r : option error) :
  Repository_Save ctx a w = (w', (r, a')) →
  (GetUncommittedEvents a = [] ∧ w' = w ∧ r = None ∧ a' = a) ∨
  (GetUncommittedEvents a ≠ [] ∧ ∃ rs, Store_Save ctx a w = (w', rs) ∧
     match rs with
     | None => r = None ∧ GetUncommittedEvents a' = [] ∧
               a' = with_root (set_events []) a
     | Some e => r = Some (Wrapf "failed to save aggregate" e) ∧ a' = a
     end).
Proof.
  unfold Repository_Save, mret, M_ret, mbind, M_bind.
  destruct (GetUncommittedEvents a) as [|e0 es] eqn:He; [naive_solver|].
  destruct (Store_Save ctx a w) as [w1 [e|]]; intros [= <- <- <-]; right;
    (split; [done|]); eexists; (split; [done|]); [done|].
  unfold GetUncommittedEvents, ClearUncommittedEvents. by rewrite root_with_root.
Qed.
End repository_theorems.
