(* ===== verification/Registry.v ===== *)
(** * Registry: the event registry and its mutex

    eventsrc/event_registry.go line by line, for any number of goroutines: the two
    functions as the steps between which others may run, the [sync.RWMutex] with its
    waiting writers, the map.  It is proved that the functions are as good as the atomic
    ones of EventSrc, which the rest of the development uses. *)
From S2P Require Import Prelude GoJson EventSrc.

(** ** [sync.RWMutex] *)

(** Held by a writer, the number of writers that wait for it, the number of readers. *)
Record RWMutex := {
  held : bool;
  waiting : nat;
  readers : nat;
}.

(** [Lock] announces itself and blocks until nobody has the lock.  Which of the waiting
    goroutines comes next is open; [deferring] below says what is promised. *)
Definition announce (m : RWMutex) : RWMutex :=
  {| held := held m; waiting := S (waiting m); readers := readers m |}.
Definition Lock (m : RWMutex) : option RWMutex :=
  if held m || negb (readers m =? 0) then None
  else Some {| held := true; waiting := pred (waiting m); readers := 0 |}.
Definition RLock (m : RWMutex) : option RWMutex :=
  if held m then None
  else Some {| held := false; waiting := waiting m; readers := S (readers m) |}.

(** Releasing a lock that is not held is a fatal error of the runtime, here [None]. *)
Definition Unlock (m : RWMutex) : option RWMutex :=
  if held m then Some {| held := false; waiting := waiting m; readers := readers m |} else None.
Definition RUnlock (m : RWMutex) : option RWMutex :=
  match readers m with
  | O => None
  | S k => Some {| held := held m; waiting := waiting m; readers := k |}
  end.

(** ** The two functions *)

Section registry.
Context {E : Type}.

(** The package's variables. *)
Record globals := {
  eventRegistry : gmap string (EventFactory E);
  mu : RWMutex;
}.

Definition with_mu (m : RWMutex) (g : globals) : globals :=
  {| eventRegistry := eventRegistry g; mu := m |}.
Definition with_registry (r : gmap string (EventFactory E)) (g : globals) : globals :=
  {| eventRegistry := r; mu := mu g |}.

(** Where a goroutine is: outside, or before the next thing it does in [RegisterEvent]
    or [CreateEvent].  Both defer their unlock, so a panic passes there as well. *)
Inductive pc :=
  | Outside
  | RegEnter (eventType : string) (factory : EventFactory E)
  | RegLock (eventType : string) (factory : EventFactory E)
  | RegLookup (eventType : string) (factory : EventFactory E)
  | RegStore (eventType : string) (factory : EventFactory E)
  | RegUnlock (o : outcome unit)
  | RegReturn (o : outcome unit)
  | CreateLock (eventType : string)
  | CreateLookup (eventType : string)
  | CreateCall (factory : EventFactory E)
  | CreateUnlock (r : res E)
  | CreateReturn (r : res E).

Inductive turn_result :=
  | Blocked
  | Fatal
  | Next (g : globals) (p : pc).

Definition or_blocked (o : option RWMutex) (g : globals) (p : pc) : turn_result :=
  match o with Some m => Next (with_mu m g) p | None => Blocked end.
Definition or_fatal (o : option RWMutex) (g : globals) (p : pc) : turn_result :=
  match o with Some m => Next (with_mu m g) p | None => Fatal end.

(** What a goroutine does next. *)
Definition turn (g : globals) (p : pc) : turn_result :=
  match p with
  | RegEnter t f => Next (with_mu (announce (mu g)) g) (RegLock t f)
  | RegLock t f => or_blocked (Lock (mu g)) g (RegLookup t f)
  | RegLookup t f =>
      match eventRegistry g !! t with
      | Some _ => Next g (RegUnlock (Panicked "event type is already registered"))
      | None => Next g (RegStore t f)
      end
  | RegStore t f =>
      Next (with_registry (<[t := f]> (eventRegistry g)) g) (RegUnlock (Returned tt))
  | RegUnlock o => or_fatal (Unlock (mu g)) g (RegReturn o)
  | CreateLock t => or_blocked (RLock (mu g)) g (CreateLookup t)
  | CreateLookup t =>
      match eventRegistry g !! t with
      | None => Next g (CreateUnlock (Err (ErrorString "event type is not registered")))
      | Some f => Next g (CreateCall f)
      end
  | CreateCall f => Next g (CreateUnlock (Ok (f tt)))
  | CreateUnlock r => or_fatal (RUnlock (mu g)) g (CreateReturn r)
  | Outside | RegReturn _ | CreateReturn _ => Blocked
  end.

(** ** Goroutines *)

Inductive call :=
  | CallRegister (eventType : string) (factory : EventFactory E)
  | CallCreate (eventType : string).

Inductive result :=
  | RegisterResult (o : outcome unit)
  | CreateResult (r : res E).

(** What can be seen from outside: a goroutine calls, or its call returns or panics. *)
Inductive event :=
  | Called (c : call)
  | Came (r : result).

Definition enter (c : call) : pc :=
  match c with CallRegister t f => RegEnter t f | CallCreate t => CreateLock t end.

Definition result_of (p : pc) : option result :=
  match p with
  | RegReturn o => Some (RegisterResult o)
  | CreateReturn r => Some (CreateResult r)
  | _ => None
  end.

Inductive registry_step : globals * list pc → list (nat * event) → globals * list pc → Prop :=
  | step_call g ps i c :
      ps !! i = Some Outside →
      registry_step (g, ps) [(i, Called c)] (g, <[i := enter c]> ps)
  | step_turn g g' ps i p p' :
      ps !! i = Some p → turn g p = Next g' p' →
      registry_step (g, ps) [] (g', <[i := p']> ps)
  | step_return g ps i p r :
      ps !! i = Some p → result_of p = Some r →
      registry_step (g, ps) [(i, Came r)] (g, <[i := Outside]> ps).

(** ** The specification: calls that take effect at once *)

Definition atomic_call (c : call) : M (gmap string (EventFactory E)) result :=
  match c with
  | CallRegister t f => o ← RegisterEvent t f; mret (RegisterResult o)
  | CallCreate t => λ reg, (reg, CreateResult (CreateEvent reg t))
  end.

(** Outside, in a call that has had no effect yet, or in one that has had it. *)
Inductive caller :=
  | Away
  | Before (c : call)
  | After (r : result).

Inductive atomic_step :
    gmap string (EventFactory E) * list caller → list (nat * event) →
    gmap string (EventFactory E) * list caller → Prop :=
  | atomic_called reg cs i c :
      cs !! i = Some Away → atomic_step (reg, cs) [(i, Called c)] (reg, <[i := Before c]> cs)
  | atomic_effect reg reg' cs i c r :
      cs !! i = Some (Before c) → atomic_call c reg = (reg', r) →
      atomic_step (reg, cs) [] (reg', <[i := After r]> cs)
  | atomic_came reg cs i r :
      cs !! i = Some (After r) → atomic_step (reg, cs) [(i, Came r)] (reg, <[i := Away]> cs).
End registry.
Arguments globals E : clear implicits.
Arguments pc E : clear implicits.
Arguments call E : clear implicits.
Arguments result E : clear implicits.
Arguments event E : clear implicits.
Arguments caller E : clear implicits.

(** Runs of labelled steps, with what is seen of them. *)
Inductive run {S L} (step : S → list L → S → Prop) : S → list L → S → Prop :=
  | run_nil s : run step s [] s
  | run_cons s1 s2 s3 l ls : step s1 l s2 → run step s2 ls s3 → run step s1 (l ++ ls) s3.

Lemma run_app {S L} (step : S → list L → S → Prop) s1 s2 s3 l1 l2 :
  run step s1 l1 s2 → run step s2 l2 s3 → run step s1 (l1 ++ l2) s3.
Proof.
  induction 1 as [|s1 s2 s2' l ls Hs _ IH]; [done|]. intros Hr. rewrite <- app_assoc.
  eapply run_cons; [done|by apply IH].
Qed.

(** ** Counting goroutines *)

Section counting.
Context {A : Type}.
Implicit Types (f : A → bool) (l : list A).

Definition count f l : nat := length (List.filter f l).

Lemma count_insert f l i x y :
  l !! i = Some x →
  count f (<[i := y]> l) + Nat.b2n (f x) = count f l + Nat.b2n (f y).
Proof.
  unfold count. revert i. induction l as [|z l IH]; intros [|i] Hi; simplify_eq/=.
  - destruct (f x), (f y); simpl; lia.
  - specialize (IH i Hi). destruct (f z); simpl; lia.
Qed.

Lemma count_lookup f l i x : l !! i = Some x → f x = true → 1 ≤ count f l.
Proof.
  unfold count. revert i. induction l as [|z l IH]; intros [|i] Hi Hf; simplify_eq/=.
  - rewrite Hf. simpl. lia.
  - specialize (IH i Hi Hf). destruct (f z); simpl; lia.
Qed.

Lemma count_pos f l : 1 ≤ count f l → ∃ i x, l !! i = Some x ∧ f x = true.
Proof.
  unfold count. induction l as [|z l IH]; simpl; [lia|]. destruct (f z) eqn:Hf.
  - intros _. by exists 0, z.
  - intros (i & x & Hi & Hx)%IH. by exists (S i), x.
Qed.

(** Two places at which [f] holds count twice. *)
Lemma count_two f l i j x y :
  i ≠ j → l !! i = Some x → l !! j = Some y → f x = true → f y = true → 2 ≤ count f l.
Proof.
  unfold count. revert i j. induction l as [|z l IH]; intros [|i] [|j] Hij Hi Hj Hx Hy; simplify_eq/=.
  - rewrite Hx. simpl. pose proof (count_lookup f l j y Hj Hy). unfold count in *. lia.
  - rewrite Hy. simpl. pose proof (count_lookup f l i x Hi Hx). unfold count in *. lia.
  - assert (i ≠ j) as Hij' by congruence. specialize (IH i j Hij' Hi Hj Hx Hy).
    destruct (f z); simpl; lia.
Qed.
End counting.

(** ** The mutex counts the goroutines *)

Section registry_theorems.
Context {E : Type}.
Implicit Types (g : globals E) (p : pc E) (ps : list (pc E)) (reg : gmap string (EventFactory E)).

Definition waits p : bool := match p with RegLock _ _ => true | _ => false end.
Definition has_lock p : bool :=
  match p with RegLookup _ _ | RegStore _ _ | RegUnlock _ => true | _ => false end.
Definition has_rlock p : bool :=
  match p with CreateLookup _ | CreateCall _ | CreateUnlock _ => true | _ => false end.

Record lock_inv g ps : Prop := {
  inv_waiting : waiting (mu g) = count waits ps;
  inv_held : Nat.b2n (held (mu g)) = count has_lock ps;
  inv_readers : readers (mu g) = count has_rlock ps;
  inv_excl : held (mu g) = true → readers (mu g) = 0;
}.

Lemma lock_inv_start reg n :
  lock_inv {| eventRegistry := reg; mu := {| held := false; waiting := 0; readers := 0 |} |}
    (replicate n Outside).
Proof.
  assert (∀ f : pc E → bool, f Outside = false → count f (replicate n Outside) = 0) as Hc.
  { intros f Hf. unfold count. induction n as [|n IH]; simpl; [done|]. by rewrite Hf. }
  split; simpl; rewrite ?Hc; done.
Qed.

(** What a goroutine does to the counters, in one place. *)
Lemma lock_inv_step g g' ps i p p' :
  ps !! i = Some p → lock_inv g ps →
  waiting (mu g') + Nat.b2n (waits p) = waiting (mu g) + Nat.b2n (waits p') →
  Nat.b2n (held (mu g')) + Nat.b2n (has_lock p) = Nat.b2n (held (mu g)) + Nat.b2n (has_lock p') →
  readers (mu g') + Nat.b2n (has_rlock p) = readers (mu g) + Nat.b2n (has_rlock p') →
  (held (mu g') = true → readers (mu g') = 0) →
  lock_inv g' (<[i := p']> ps).
Proof.
  intros Hi [Hw Hh Hr _] Ew Eh Er Hx.
  pose proof (count_insert waits ps i p p' Hi). pose proof (count_insert has_lock ps i p p' Hi).
  pose proof (count_insert has_rlock ps i p p' Hi). split; [lia..|done].
Qed.

Lemma lock_inv_turn g g' ps i p p' :
  ps !! i = Some p → turn g p = Next g' p' → lock_inv g ps → lock_inv g' (<[i := p']> ps).
Proof.
  intros Hi Ht Hinv. pose proof Hinv as [Hw _ _ Hx].
  assert (waits p = true → 1 ≤ waiting (mu g)) as Hwait.
  { intros Hp. rewrite Hw. by eapply count_lookup. }
  eapply lock_inv_step; [done|done|..];
    destruct p; simpl in *; unfold or_blocked, or_fatal, Lock, RLock, Unlock, RUnlock in Ht;
    repeat case_match; simplify_eq/=; try lia; try done; auto.
Qed.

Lemma lock_inv_pcs g ps i p p' :
  ps !! i = Some p → lock_inv g ps →
  waits p = waits p' → has_lock p = has_lock p' → has_rlock p = has_rlock p' →
  lock_inv g (<[i := p']> ps).
Proof.
  intros Hi Hinv Ew Eh Er. pose proof (inv_excl _ _ Hinv).
  eapply lock_inv_step; [done|done|..]; rewrite ?Ew, ?Eh, ?Er; done.
Qed.

Lemma lock_inv_step_all g ps tr g' ps' :
  registry_step (g, ps) tr (g', ps') → lock_inv g ps → lock_inv g' ps'.
Proof.
  intros Hs Hinv. inversion Hs as [????? Hi|?????? Hi Ht|????? Hi Hr]; subst.
  - eapply lock_inv_pcs; [done|done|..]; by destruct c.
  - by eapply lock_inv_turn.
  - eapply lock_inv_pcs; [done|done|..]; by destruct p.
Qed.

(** ** Mutual exclusion *)

(** Who reads or writes the map at its next turn. *)
Definition reads p : bool := match p with RegLookup _ _ | CreateLookup _ => true | _ => false end.
Definition writes p : bool := match p with RegStore _ _ => true | _ => false end.

(** One goroutine is about to write the map while another is about to read or write it:
    Go makes no promise for such a program, and its maps stop it. *)
Definition data_race ps : Prop :=
  ∃ i j p q, i ≠ j ∧ ps !! i = Some p ∧ ps !! j = Some q ∧
    writes p = true ∧ (reads q || writes q) = true.

(** The holder of the lock is alone with it. *)
Lemma lock_alone g ps i j p q :
  lock_inv g ps → ps !! i = Some p → ps !! j = Some q → i ≠ j →
  has_lock p = true → has_lock q = false ∧ has_rlock q = false.
Proof.
  intros [_ Hh Hr Hx] Hi Hj Hij Hp.
  pose proof (count_lookup has_lock ps i p Hi Hp) as H1.
  assert (held (mu g) = true) as Hheld by (destruct (held (mu g)); simpl in *; [done|lia]).
  rewrite Hheld in Hh. simpl in Hh. rewrite Hx in Hr by done. split.
  - destruct (has_lock q) eqn:Hq; [|done]. pose proof (count_two has_lock ps i j p q Hij Hi Hj Hp Hq). lia.
  - destruct (has_rlock q) eqn:Hq; [|done]. pose proof (count_lookup has_rlock ps j q Hj Hq). lia.
Qed.

Lemma no_data_race g ps : lock_inv g ps → ¬ data_race ps.
Proof.
  intros Hinv (i & j & p & q & Hij & Hi & Hj & Hp & Hq).
  assert (has_lock p = true) as Hl by (by destruct p).
  destruct (lock_alone _ _ _ _ _ _ Hinv Hi Hj Hij Hl) as [H1 H2]. by destruct q.
Qed.

Lemma no_fatal g ps i p : lock_inv g ps → ps !! i = Some p → turn g p ≠ Fatal.
Proof.
  intros [_ Hh Hr _] Hi.
  assert (has_lock p = true → held (mu g) = true) as Hheld.
  { intros Hp. pose proof (count_lookup has_lock ps i p Hi Hp).
    destruct (held (mu g)); simpl in *; [done|lia]. }
  assert (has_rlock p = true → readers (mu g) ≠ 0) as Hread.
  { intros Hp. pose proof (count_lookup has_rlock ps i p Hi Hp). lia. }
  destruct p; simpl in *; unfold or_blocked, or_fatal, Lock, RLock, Unlock, RUnlock;
    repeat case_match; try done; by try (specialize (Hheld eq_refl); congruence);
    try (by destruct (Hread eq_refl)).
Qed.

(** ** Simulation *)

(** Where a goroutine is, seen as a caller of atomic functions: a registration has its
    effect when the map is written or found to have the type, a creation when the map
    is read. *)
Definition agrees reg p (c : caller E) : Prop :=
  match p with
  | Outside => c = Away
  | RegEnter t f | RegLock t f | RegLookup t f => c = Before (CallRegister t f)
  | RegStore t f => c = Before (CallRegister t f) ∧ reg !! t = None
  | RegUnlock o | RegReturn o => c = After (RegisterResult o)
  | CreateLock t | CreateLookup t => c = Before (CallCreate t)
  | CreateCall f => c = After (CreateResult (Ok (f tt)))
  | CreateUnlock r | CreateReturn r => c = After (CreateResult r)
  end.

Lemma agrees_insert reg ps cs i p c :
  Forall2 (agrees reg) ps cs → agrees reg p c → Forall2 (agrees reg) (<[i := p]> ps) (<[i := c]> cs).
Proof. intros. by apply Forall2_insert. Qed.

(** The map only changes while nobody is between looking up and storing. *)
Lemma agrees_store g ps cs i p t f :
  lock_inv g ps → ps !! i = Some p → has_lock p = true →
  Forall2 (agrees (eventRegistry g)) ps cs →
  ∀ p' c, agrees (<[t := f]> (eventRegistry g)) p' c →
  Forall2 (agrees (<[t := f]> (eventRegistry g))) (<[i := p']> ps) (<[i := c]> cs).
Proof.
  intros Hinv Hi Hp Hall p' c Hp'. apply Forall2_same_length_lookup_2.
  { rewrite !length_insert. by eapply Forall2_length. }
  intros j q d Hq Hd. destruct (decide (i = j)) as [->|Hij].
  - rewrite list_lookup_insert_eq in Hq by (by eapply lookup_lt_Some).
    rewrite list_lookup_insert_eq in Hd by (rewrite <- (Forall2_length _ _ _ Hall); by eapply lookup_lt_Some).
    by simplify_eq.
  - rewrite list_lookup_insert_ne in Hq by done. rewrite list_lookup_insert_ne in Hd by done.
    pose proof (Forall2_lookup_lr _ _ _ _ _ _ Hall Hq Hd) as Hag.
    destruct (lock_alone _ _ _ _ _ _ Hinv Hi Hq Hij Hp) as [Hl _]. by destruct q.
Qed.

(** A turn is an effect of the atomic call, or none. *)
Lemma turn_simulated g g' ps cs i p p' :
  ps !! i = Some p → turn g p = Next g' p' → lock_inv g ps →
  Forall2 (agrees (eventRegistry g)) ps cs →
  ∃ cs', Forall2 (agrees (eventRegistry g')) (<[i := p']> ps) cs' ∧
    ((eventRegistry g' = eventRegistry g ∧ cs' = cs) ∨
     atomic_step (eventRegistry g, cs) [] (eventRegistry g', cs')).
Proof.
  intros Hi Ht Hinv Hall. destruct (Forall2_lookup_l _ _ _ _ _ Hall Hi) as (c & Hc & Hag).
  assert (∀ q, agrees (eventRegistry g) q c →
    Forall2 (agrees (eventRegistry g)) (<[i := q]> ps) cs) as Hsame.
  { intros q Hq. rewrite <- (list_insert_id cs i c Hc). by apply agrees_insert. }
  assert (∀ q d r, agrees (eventRegistry g) q (After r) → c = Before d →
    atomic_call d (eventRegistry g) = (eventRegistry g, r) →
    ∃ cs', Forall2 (agrees (eventRegistry g)) (<[i := q]> ps) cs' ∧
      (eventRegistry g = eventRegistry g ∧ cs' = cs ∨
       atomic_step (eventRegistry g, cs) [] (eventRegistry g, cs'))) as Heffect.
  { intros q d r Hq -> Hd. exists (<[i := After r]> cs). split; [by apply agrees_insert|].
    right. by eapply atomic_effect. }
  destruct p as [| |t f|t f|t f|o| |t|t|f|r|]; simpl in *; try done.
  - injection Ht as <- <-. exists cs. split; [by apply Hsame|by left].
  - unfold or_blocked in Ht. case_match; simplify_eq/=. exists cs. split; [by apply Hsame|by left].
  - destruct (eventRegistry g !! t) eqn:Hl; injection Ht as <- <-.
    + eapply Heffect; [done|done|]. simpl. unfold RegisterEvent, mbind, M_bind, mret, M_ret.
      by rewrite Hl.
    + exists cs. split; [by apply Hsame|by left].
  - destruct Hag as [-> Hl]. injection Ht as <- <-. simpl.
    exists (<[i := After (RegisterResult (Returned tt))]> cs). split.
    + by eapply agrees_store.
    + right. eapply atomic_effect; [done|]. simpl. unfold RegisterEvent, mbind, M_bind, mret, M_ret.
      by rewrite Hl.
  - unfold or_fatal in Ht. case_match; simplify_eq/=. exists cs. split; [by apply Hsame|by left].
  - unfold or_blocked in Ht. case_match; simplify_eq/=. exists cs. split; [by apply Hsame|by left].
  - destruct (eventRegistry g !! t) eqn:Hl; injection Ht as <- <-; (eapply Heffect; [done|done|]);
      simpl; unfold CreateEvent, EventFactory in *; by rewrite Hl.
  - injection Ht as <- <-. exists cs. split; [by apply Hsame|by left].
  - unfold or_fatal in Ht. case_match; simplify_eq/=. exists cs. split; [by apply Hsame|by left].
Qed.

Lemma step_simulated g ps tr g' ps' cs :
  registry_step (g, ps) tr (g', ps') → lock_inv g ps →
  Forall2 (agrees (eventRegistry g)) ps cs →
  ∃ cs', run atomic_step (eventRegistry g, cs) tr (eventRegistry g', cs') ∧
    Forall2 (agrees (eventRegistry g')) ps' cs'.
Proof.
  assert (∀ reg cs1 l reg' cs2, atomic_step (E:=E) (reg, cs1) l (reg', cs2) →
    run atomic_step (reg, cs1) l (reg', cs2)) as Hone.
  { intros. rewrite <- (app_nil_r l). eapply run_cons; [done|constructor]. }
  intros Hs Hinv Hall.
  inversion Hs as [?? i c Hi|??? i p p' Hi Ht|?? i p r Hi Hr]; subst.
  - destruct (Forall2_lookup_l _ _ _ _ _ Hall Hi) as (d & Hd & Hag). simpl in Hag. subst d.
    exists (<[i := Before c]> cs). split; [by apply Hone, atomic_called|].
    apply agrees_insert; [done|by destruct c].
  - destruct (turn_simulated _ _ _ _ _ _ _ Hi Ht Hinv Hall) as (cs' & Hall' & [[Hr ->]|Hr]).
    + exists cs. rewrite Hr in *. split; [constructor|done].
    + exists cs'. split; [by apply Hone|done].
  - destruct (Forall2_lookup_l _ _ _ _ _ Hall Hi) as (d & Hd & Hag).
    exists (<[i := Away]> cs). split; [|by apply agrees_insert].
    apply Hone, atomic_came. rewrite Hd. destruct p; simplify_eq/=; done.
Qed.

Definition start reg n : globals E * list (pc E) :=
  ({| eventRegistry := reg; mu := {| held := false; waiting := 0; readers := 0 |} |},
   replicate n Outside).

Lemma run_invariant s tr s' :
  run registry_step s tr s' → lock_inv s.1 s.2 → lock_inv s'.1 s'.2.
Proof.
  induction 1 as [|[g1 ps1] [g2 ps2] s3 l ls Hs _ IH]; [done|]. intros Hinv.
  by eapply IH, lock_inv_step_all.
Qed.

Lemma run_simulated s tr s' cs :
  run registry_step s tr s' → lock_inv s.1 s.2 → Forall2 (agrees (eventRegistry s.1)) s.2 cs →
  ∃ cs', run atomic_step (eventRegistry s.1, cs) tr (eventRegistry s'.1, cs') ∧
    Forall2 (agrees (eventRegistry s'.1)) s'.2 cs'.
Proof.
  intros Hr. revert cs. induction Hr as [s|[g1 ps1] [g2 ps2] s3 l ls Hs _ IH]; intros cs Hinv Hall.
  - exists cs. split; [constructor|done].
  - destruct (step_simulated _ _ _ _ _ _ Hs Hinv Hall) as (cs2 & Hr2 & Hall2).
    destruct (IH cs2) as (cs3 & Hr3 & Hall3); [by eapply lock_inv_step_all|done|].
    exists cs3. split; [by eapply run_app|done].
Qed.

Lemma agrees_start reg n : Forall2 (agrees reg) (replicate n Outside) (replicate n Away).
Proof. induction n; simpl; by constructor. Qed.

(** ** Progress and termination *)

(** A goroutine that is sure to go on: it can, and it is not a reader who may be kept
    away because a writer waits. *)
Definition deferring g p : Prop :=
  match p with CreateLock _ => waiting (mu g) ≠ 0 | _ => False end.
Definition goes_on g p : Prop :=
  ¬ deferring g p ∧ (is_Some (result_of p) ∨ ∃ g' p', turn g p = Next g' p').

(** The turns a call has left. *)
Definition rank p : nat :=
  match p with
  | Outside => 0
  | RegReturn _ | CreateReturn _ => 1
  | RegUnlock _ | CreateUnlock _ => 2
  | RegStore _ _ | CreateCall _ => 3
  | RegLookup _ _ | CreateLookup _ => 4
  | RegLock _ _ | CreateLock _ => 5
  | RegEnter _ _ => 6
  end.
Definition work ps : nat := sum_list (rank <$> ps).

(** A step that is no new call. *)
Definition own_step (s s' : globals E * list (pc E)) : Prop :=
  ∃ tr, registry_step s tr s' ∧ ∀ i c, (i, Called c) ∉ tr.

Lemma work_insert ps i p p' :
  ps !! i = Some p → work (<[i := p']> ps) + rank p = work ps + rank p'.
Proof.
  unfold work. revert i. induction ps as [|q ps IH]; intros [|i] Hi; simplify_eq/=; [lia|].
  specialize (IH i Hi). lia.
Qed.

Lemma turn_rank g p g' p' : turn g p = Next g' p' → rank p' < rank p.
Proof.
  destruct p; simpl; unfold or_blocked, or_fatal; intros; repeat case_match; simplify_eq/=; lia.
Qed.

Lemma own_step_work s s' : own_step s s' → work s'.2 < work s.2.
Proof.
  intros (tr & Hs & Hno). destruct Hs as [g ps i c Hi|g g' ps i p p' Hi Ht|g ps i p r Hi Hr]; simpl.
  - destruct (Hno i c). by apply list_elem_of_singleton.
  - pose proof (work_insert ps i p p' Hi). pose proof (turn_rank _ _ _ _ Ht). lia.
  - pose proof (work_insert ps i p Outside Hi). by destruct p; simplify_eq/=; lia.
Qed.

Lemma own_steps_work k s s' : nsteps own_step k s s' → k + work s'.2 ≤ work s.2.
Proof. induction 1 as [|k s1 s2 s3 Hs _ IH]; [done|]. apply own_step_work in Hs. lia. Qed.

Lemma goes_on_free g p :
  p ≠ Outside →
  (waits p = true → held (mu g) = false ∧ readers (mu g) = 0) →
  (has_lock p = true → held (mu g) = true) →
  (has_rlock p = true → readers (mu g) ≠ 0) →
  (∀ t, p = CreateLock t → held (mu g) = false ∧ waiting (mu g) = 0) →
  goes_on g p.
Proof.
  intros Hp Hw Hl Hr Hc. split.
  - destruct p; simpl; try tauto. destruct (Hc _ eq_refl). tauto.
  - destruct p; simpl in *; unfold or_blocked, or_fatal, Lock, RLock, Unlock, RUnlock; try done;
      try (by left; eexists); right.
    + by do 2 eexists.
    + destruct (Hw eq_refl) as [-> ->]. by do 2 eexists.
    + case_match; by do 2 eexists.
    + by do 2 eexists.
    + rewrite (Hl eq_refl). by do 2 eexists.
    + destruct (Hc _ eq_refl) as [-> _]. by do 2 eexists.
    + case_match; by do 2 eexists.
    + by do 2 eexists.
    + specialize (Hr eq_refl). destruct (readers (mu g)); [done|]. by do 2 eexists.
Qed.

(** Whoever has the lock, or waits for it as a writer when nobody has it, goes on; when
    there is no such goroutine, all others do. *)
Lemma somebody_goes_on g ps i p :
  lock_inv g ps → ps !! i = Some p → p ≠ Outside → ∃ j q, ps !! j = Some q ∧ goes_on g q.
Proof.
  intros [Hw Hh Hr Hx] Hi Hp. destruct (held (mu g)) eqn:Hheld.
  { destruct (count_pos has_lock ps) as (j & q & Hj & Hq); [simpl in *; lia|].
    exists j, q. split; [done|]. apply goes_on_free; by destruct q. }
  destruct (readers (mu g)) as [|k] eqn:Hread.
  2: { destruct (count_pos has_rlock ps) as (j & q & Hj & Hq); [lia|].
       exists j, q. split; [done|]. apply goes_on_free; destruct q; try done; by rewrite Hread. }
  destruct (waiting (mu g)) as [|k] eqn:Hwait.
  2: { destruct (count_pos waits ps) as (j & q & Hj & Hq); [lia|].
       exists j, q. split; [done|]. apply goes_on_free; by destruct q. }
  exists i, p. split; [done|]. apply goes_on_free; [done|done|..].
  - intros Hl. pose proof (count_lookup has_lock ps i p Hi Hl). simpl in *. lia.
  - intros Hl. pose proof (count_lookup has_rlock ps i p Hi Hl). lia.
  - done.
Qed.

(** C30: the registry and its mutex.  Any number of goroutines may call [RegisterEvent]
    and [CreateEvent] at the same time: what is seen of their calls and what they return
    (or panic with) is what calls that take effect at once, one after the other, can
    show, and they leave the same map; the map is never written by one goroutine while
    another reads or writes it; and no lock is released that is not held. *)
Theorem registry_linearizable reg n tr g ps :
  run registry_step (start reg n) tr (g, ps) →
  (∃ cs, run atomic_step (reg, replicate n Away) tr (eventRegistry g, cs)) ∧
  ¬ data_race ps ∧ ∀ i p, ps !! i = Some p → turn g p ≠ Fatal.
Proof.
  intros Hr. pose proof (lock_inv_start reg n) as H0.
  pose proof (run_invariant _ _ _ Hr H0) as Hinv.
  destruct (run_simulated _ _ _ _ Hr H0 (agrees_start reg n)) as (cs & Hcs & _). split_and!.
  - by exists cs.
  - by eapply no_data_race.
  - intros i p Hi. by eapply no_fatal.
Qed.

(** C31: the calls return, the panic of a repeated registration included.  Whatever the
    goroutines were doing, without new calls they take boundedly many steps; and as
    long as one of them is in a call, one of them is sure to go on, even if readers are
    kept away while a writer waits. *)
Theorem registry_calls_return reg n tr g ps :
  run registry_step (start reg n) tr (g, ps) →
  (∀ k s, nsteps own_step k (g, ps) s → k ≤ work ps) ∧
  ∀ i p, ps !! i = Some p → p ≠ Outside → ∃ j q, ps !! j = Some q ∧ goes_on g q.
Proof.
  intros Hr. pose proof (run_invariant _ _ _ Hr (lock_inv_start reg n)) as Hinv. split.
  - intros k s Hk. pose proof (own_steps_work _ _ _ Hk). simpl in *. lia.
  - intros i p Hi Hp. by eapply somebody_goes_on.
Qed.
End registry_theorems.
