(* ===== verification/Outbox.v ===== *)
(** * Outbox: packages [msgbus] and [outbox]

    The [Broker] and [Store] interfaces and the relay: the function that
    publishes a fetched batch, one poll of the outbox, and the polling loop. *)
From S2P Require Import Prelude GoJson EventSrc.

(** msgbus/broker.go, as far as the relay uses it; [C] is the type of contexts. *)
Class Broker (W C : Type) := {
  Publish : C → string → OutboxEvent → M W (option error);
}.

(** outbox.Store. *)
Class BatchStore (W C : Type) := {
  Store_ProcessOutboxBatch :
    C → Z → (C → list OutboxEvent → M W (option error)) → M W (option error);
}.

(** ** outbox/relay.go *)

Section relay.
Context {W C : Type} `{Broker W C} `{BatchStore W C}.

(** The loop over the fetched events. *)
Fixpoint publish_events (ctx : C) (events : list OutboxEvent) : M W (option error) :=
  match events with
  | [] => mret None
  | evt :: events =>
      let topic := oe_AggregateType evt in
      if String.eqb topic "" then publish_events ctx events
      else
        e ← Publish ctx topic evt;
        match e with
        | Some err => mret (Some (Wrapf "failed to publish event to topic" err))
        | None => publish_events ctx events
        end
  end.

Definition processor (ctx : C) (events : list OutboxEvent) : M W (option error) :=
  match events with
  | [] => mret None
  | _ => publish_events ctx events
  end.

Definition processBatch (batchSize : Z) (ctx : C) : M W (option error) :=
  Store_ProcessOutboxBatch ctx batchSize processor.

(** What an iteration of the select finds ready: the ticker, the quit channel, or
    the context; and how the goroutine is left. *)
Inductive wakeup := Tick | QuitClosed | CtxDone.
Inductive relay_exit := StillPolling | ShutDown | Cancelled.

(** The goroutine of [Relay.Start] over the wake-ups it receives; a failed batch is
    logged and the loop goes on. *)
Fixpoint relay_loop (batchSize : Z) (ctx : C) (ready : list wakeup) : M W relay_exit :=
  match ready with
  | [] => mret StillPolling
  | Tick :: ready => _ ← processBatch batchSize ctx; relay_loop batchSize ctx ready
  | QuitClosed :: _ => mret ShutDown
  | CtxDone :: _ => mret Cancelled
  end.
End relay.
