(* ===== verification/Lifecycle.v ===== *)
(** * Lifecycle: starting and stopping a relay

    outbox/relay.go around the loop: the [Relay] with its wait group and its quit
    channel, [Start], the goroutines it starts, which take one ready case of their
    select at a time, and [Stop].  The steps of the owner, of the workers and of the
    rest of the program are interleaved freely. *)
From stdpp Require Import relations.
From S2P Require Import Prelude GoJson EventSrc Outbox.

(** ** The relay and its goroutines *)

(** The fields of a [Relay] that change or matter here: the counter of the wait group,
    and whether the quit channel is closed. *)
Record Relay := {
  batchSize : Z;
  wg : nat;
  quit : bool;
}.

Definition NewRelay (n : Z) : Relay := {| batchSize := n; wg := 0; quit := false |}.

(** A goroutine of [Start]: at its select, or returned. *)
Inductive worker := Selecting | Returned (x : relay_exit).

(** Who owns the relay: free to call, inside [wg.Wait], or dead from closing the quit
    channel twice. *)
Inductive owner := Free | Waiting | Panicked.

Record process := {
  relay : Relay;
  workers : list worker;
  relay_owner : owner;
  ctx_done : bool;
}.

Definition new_process (n : Z) : process :=
  {| relay := NewRelay n; workers := []; relay_owner := Free; ctx_done := false |}.

(** [r.wg.Add(1)], then the goroutine. *)
Definition Start (p : process) : process :=
  {| relay := {| batchSize := batchSize (relay p); wg := S (wg (relay p)); quit := quit (relay p) |};
     workers := workers p ++ [Selecting]; relay_owner := relay_owner p; ctx_done := ctx_done p |}.

(** [close(r.quit)] panics if the channel is closed; then [r.wg.Wait()]. *)
Definition Stop (p : process) : process :=
  if quit (relay p) then
    {| relay := relay p; workers := workers p; relay_owner := Panicked; ctx_done := ctx_done p |}
  else
    {| relay := {| batchSize := batchSize (relay p); wg := wg (relay p); quit := true |};
       workers := workers p; relay_owner := Waiting; ctx_done := ctx_done p |}.

(** [Wait] returns, and [Stop] with it. *)
Definition stopped (p : process) : process :=
  {| relay := relay p; workers := workers p; relay_owner := Free; ctx_done := ctx_done p |}.

Definition cancel (p : process) : process :=
  {| relay := relay p; workers := workers p; relay_owner := relay_owner p; ctx_done := true |}.

(** The i-th goroutine returns: its deferred [r.wg.Done()]. *)
Definition leave (i : nat) (x : relay_exit) (p : process) : process :=
  {| relay := {| batchSize := batchSize (relay p); wg := pred (wg (relay p)); quit := quit (relay p) |};
     workers := <[i := Returned x]> (workers p); relay_owner := relay_owner p; ctx_done := ctx_done p |}.

(** The cases of the select that are ready; the ticker may always be. *)
Definition ready (p : process) (k : wakeup) : bool :=
  match k with
  | Tick => true
  | QuitClosed => quit (relay p)
  | CtxDone => ctx_done p
  end.

Section lifecycle.
Context {W C : Type} `{Broker W C} `{BatchStore W C}.

(** One iteration of the loop, once the select has chosen. *)
Definition worker_turn (n : Z) (ctx : C) (k : wakeup) : M W (option relay_exit) :=
  match k with
  | Tick => _ ← processBatch n ctx; mret None
  | QuitClosed => mret (Some ShutDown)
  | CtxDone => mret (Some Cancelled)
  end.

(** [relay_loop] is these turns, one after the other until one returns. *)
Lemma relay_loop_turns n ctx ks w :
  relay_loop n ctx ks w =
  match ks with
  | [] => (w, StillPolling)
  | k :: ks =>
      match worker_turn n ctx k w with
      | (w', Some x) => (w', x)
      | (w', None) => relay_loop n ctx ks w'
      end
  end.
Proof.
  destruct ks as [|[| |] ks]; try done. cbn [relay_loop worker_turn]. unfold mbind, M_bind.
  by destruct (processBatch n ctx w).
Qed.

(** What the other goroutines do to the world. *)
Variable elsewhere : W → W → Prop.

Inductive life_step (ctx : C) : process * W → process * W → Prop :=
  | life_start p w :
      relay_owner p = Free → life_step ctx (p, w) (Start p, w)
  | life_turn i k p w w' x :
      workers p !! i = Some Selecting → ready p k = true →
      worker_turn (batchSize (relay p)) ctx k w = (w', x) →
      life_step ctx (p, w) (match x with Some x => leave i x p | None => p end, w')
  | life_cancel p w : life_step ctx (p, w) (cancel p, w)
  | life_stop p w :
      relay_owner p = Free → life_step ctx (p, w) (Stop p, w)
  | life_stopped p w :
      relay_owner p = Waiting → wg (relay p) = 0 → life_step ctx (p, w) (stopped p, w)
  | life_elsewhere p w w' :
      elsewhere w w' → life_step ctx (p, w) (p, w').
End lifecycle.

(** ** The wait group counts the workers that have not returned *)

#[export] Instance relay_exit_eq_dec : EqDecision relay_exit.
Proof. solve_decision. Defined.
#[export] Instance worker_eq_dec : EqDecision worker.
Proof. solve_decision. Defined.

Definition selecting (ws : list worker) : nat := length (filter (λ x, x = Selecting) ws).

Definition all_returned (p : process) : Prop := ∀ i, workers p !! i ≠ Some Selecting.

Record counted (p : process) : Prop := {
  counted_wg : wg (relay p) = selecting (workers p);
  counted_quit : relay_owner p = Waiting → quit (relay p) = true;
}.

Lemma selecting_insert ws i x :
  ws !! i = Some Selecting → selecting (<[i := Returned x]> ws) = pred (selecting ws).
Proof.
  intros Hi. unfold selecting. rewrite insert_take_drop by (by eapply lookup_lt_Some).
  rewrite <- (take_drop_middle ws i Selecting Hi) at 3.
  rewrite !filter_app, !filter_cons, decide_False, decide_True, !length_app by done. simpl. lia.
Qed.

Lemma selecting_0 p : selecting (workers p) = 0 ↔ all_returned p.
Proof.
  unfold selecting, all_returned. split.
  - intros Hn%nil_length_inv i Hi%list_elem_of_lookup_2.
    by apply (filter_nil_not_elem_of _ _ _ Hn eq_refl) in Hi.
  - intros Hall. rewrite filter_none; [done|]. apply Forall_forall.
    intros x [i Hi]%list_elem_of_lookup ->. by apply (Hall i).
Qed.

Section lifecycle_theorems.
Context {W C : Type} `{Broker W C} `{BatchStore W C}.
Variables (elsewhere : W → W → Prop) (ctx : C).
Implicit Types (p q : process) (w : W).
#[local] Abbreviation step := (life_step elsewhere ctx).

(** What a step does to the goroutines. *)
Lemma step_workers p w q w' :
  step (p, w) (q, w') →
  length (workers p) ≤ length (workers q) ∧
  ∀ i x, workers p !! i = Some (Returned x) → workers q !! i = Some (Returned x).
Proof.
  intros Hs. inversion Hs as [| ? ? ? ? ? x Hi | | | |]; subst; try done.
  - simpl. rewrite length_app. split; [lia|]. intros j y. by apply lookup_app_l_Some.
  - destruct x as [x|]; [|done]. simpl. rewrite length_insert. split; [done|]. intros j y Hj.
    rewrite list_lookup_insert_ne; [done|]. intros ->. by rewrite Hi in Hj.
  - unfold Stop. by destruct (quit (relay p)).
Qed.

Lemma step_counted p w q w' : step (p, w) (q, w') → counted p → counted q.
Proof.
  intros Hs [Hw Hq]. inversion Hs as [| ? ? ? ? ? x Hi | | | |]; subst; try by split.
  - split; simpl; [|done]. unfold selecting in *. rewrite filter_app, length_app, Hw. simpl. lia.
  - destruct x as [x|]; [|by split]. split; simpl; [|done]. by rewrite selecting_insert, Hw.
  - unfold Stop. destruct (quit (relay p)); by split.
Qed.

Lemma steps_counted n w0 s : rtc step (new_process n, w0) s → counted s.1.
Proof.
  intros Hs. assert (counted (new_process n, w0).1) as Hc by by split.
  revert Hs Hc. generalize (new_process n, w0).
  induction 1 as [|[p w] [q w'] s Hs _ IH]; [done|]. intros Hc. apply IH. by eapply step_counted.
Qed.

(** Without a new [Start], a relay all of whose workers have returned does nothing. *)
Lemma step_all_returned p w q w' :
  step (p, w) (q, w') → length (workers q) = length (workers p) → all_returned p →
  all_returned q ∧ (w' = w ∨ elsewhere w w').
Proof.
  intros Hs Hlen Hall. inversion Hs as [| i ? ? ? ? x Hi | | | |]; subst; auto.
  - simpl in Hlen. rewrite length_app in Hlen. simpl in Hlen. lia.
  - by destruct (Hall i).
  - unfold Stop. destruct (quit (relay p)); auto.
Qed.

Lemma steps_workers s s' : rtc step s s' → length (workers s.1) ≤ length (workers s'.1).
Proof.
  induction 1 as [|[p w] [q v] s' Hs _ IH]; [done|].
  destruct (step_workers _ _ _ _ Hs) as [Hle _]. simpl in *. lia.
Qed.

Lemma steps_all_returned s s' :
  rtc step s s' → length (workers s'.1) = length (workers s.1) → all_returned s.1 →
  all_returned s'.1 ∧ rtc elsewhere s.2 s'.2.
Proof.
  induction 1 as [|[p w] [q v] s' Hs Hrest IH]; [done|]. intros Hlen Hall. simpl in *.
  destruct (step_workers _ _ _ _ Hs) as [Hle _].
  pose proof (steps_workers _ _ Hrest) as Hle2. simpl in Hle2.
  destruct (step_all_returned _ _ _ _ Hs) as [Hq Hv]; [lia|done|].
  destruct IH as [Hall' Hr]; [lia|done|]. split; [done|].
  destruct Hv as [->|Hv]; [done|]. by eapply rtc_l.
Qed.

(** C28: [Stop] waits.  When a call of [Stop] returns, every goroutine the relay has
    started has returned, whatever the order in which polls, starts, cancellations
    and the rest of the program were interleaved before; and from then on, as long as
    the relay is not started again, only the rest of the program changes anything. *)
Theorem stop_waits n w0 p w p' w' :
  rtc step (new_process n, w0) (p, w) →
  step (p, w) (p', w') → relay_owner p = Waiting → relay_owner p' = Free →
  all_returned p' ∧
  ∀ p'' w'', rtc step (p', w') (p'', w'') → length (workers p'') = length (workers p') →
    all_returned p'' ∧ rtc elsewhere w' w''.
Proof.
  intros Hreach Hs Hwait Hfree. pose proof (steps_counted _ _ _ Hreach) as [Hw _]. simpl in Hw.
  assert (all_returned p') as Hall.
  { inversion Hs as [| ? ? ? ? ? x | | | |]; subst; try congruence.
    - by destruct x; simpl in Hfree; rewrite Hwait in Hfree.
    - simpl in Hfree. by rewrite Hwait in Hfree.
    - simpl. apply selecting_0. simpl. congruence. }
  split; [done|]. intros p'' w'' Hrest Hlen. by apply (steps_all_returned _ _ Hrest).
Qed.

(** ** Termination *)

(** An infinite run; it may pause. *)
Variables (n : Z) (ps : nat → process * W).
Hypothesis run_starts : (ps 0).1 = new_process n.
Hypothesis run_steps : ∀ i, step (ps i) (ps (S i)) ∨ ps (S i) = ps i.

(** Step [m] is the i-th worker's turn, and it is not the ticker that is chosen. *)
Definition takes_exit (i m : nat) : Prop :=
  ∃ k x w', k ≠ Tick ∧ worker_turn (batchSize (relay (ps m).1)) ctx k (ps m).2 = (w', Some x) ∧
    ps (S m) = (leave i x (ps m).1, w').

(** A select does not choose the ticker forever while the quit channel is closed, and
    [Wait] notices when the counter is zero. *)
Hypothesis fair_select : ∀ i m, ∃ m', m ≤ m' ∧
  (workers (ps m').1 !! i = Some Selecting → quit (relay (ps m').1) = true → takes_exit i m').
Hypothesis fair_wait : ∀ m, ∃ m', m ≤ m' ∧
  (relay_owner (ps m').1 = Waiting → wg (relay (ps m').1) = 0 →
   ps (S m') = (stopped (ps m').1, (ps m').2)).

Lemma run_counted m : counted (ps m).1.
Proof.
  induction m as [|m IH]; [by rewrite run_starts|].
  destruct (run_steps m) as [Hs| ->]; [|done]. destruct (ps m), (ps (S m)). by eapply step_counted.
Qed.

(** [Stop] has returned. *)
Definition finished (p : process) : Prop := relay_owner p = Free ∧ all_returned p.

(** Until it does no worker is started, and those that have returned stay so. *)
Definition stopping (c : nat) (p : process) : Prop :=
  relay_owner p = Waiting ∧ length (workers p) = c.

Lemma waiting_step p w q w' :
  step (p, w) (q, w') → counted p → relay_owner p = Waiting →
  finished q ∨ stopping (length (workers p)) q.
Proof.
  intros Hs [Hwg _] Hw. inversion Hs as [| ? ? ? ? ? x | | | |]; subst; try congruence.
  - right. destruct x; [|done]. split; [done|]. simpl. by rewrite length_insert.
  - by right.
  - left. split; [done|]. apply (selecting_0 p). congruence.
  - by right.
Qed.

Lemma waiting_run c m k :
  stopping c (ps m).1 →
  (∃ j, m ≤ j ∧ finished (ps j).1) ∨
  (stopping c (ps (m + k)).1 ∧
   ∀ i x, workers (ps m).1 !! i = Some (Returned x) → workers (ps (m + k)).1 !! i = Some (Returned x)).
Proof.
  intros Hm. induction k as [|k [IH|[[Hw Hc] Hr]]]; [right; by rewrite Nat.add_0_r|by left|].
  rewrite Nat.add_succ_r. destruct (run_steps (m + k)) as [Hs| ->]; [|by right].
  pose proof (run_counted (m + k)) as Hct.
  destruct (ps (m + k)) as [p w] eqn:Hp, (ps (S (m + k))) as [q w'] eqn:Hq. simpl in *.
  destruct (waiting_step _ _ _ _ Hs Hct Hw) as [Hf|Hst].
  - left. exists (S (m + k)). rewrite Hq. split; [lia|done].
  - right. rewrite <- Hc. split; [done|]. intros i x Hi. by eapply (step_workers _ _ _ _ Hs), Hr.
Qed.

(** The first [k] workers return. *)
Lemma workers_leave c m k :
  stopping c (ps m).1 → k ≤ c →
  (∃ j, m ≤ j ∧ finished (ps j).1) ∨
  (∃ j, m ≤ j ∧ stopping c (ps j).1 ∧ ∀ i, i < k → workers (ps j).1 !! i ≠ Some Selecting).
Proof.
  intros Hm. induction k as [|k IH]; intros Hk; [right; exists m; split_and!; [done|done|lia]|].
  destruct IH as [?|(j & Hj & Hst & Hret)]; [lia|by left|].
  destruct (fair_select k j) as (m' & Hm' & Hfair).
  assert (∀ j', j ≤ j' → (∃ j, m ≤ j ∧ finished (ps j).1) ∨
    (stopping c (ps j').1 ∧ ∀ i, i < k → workers (ps j').1 !! i ≠ Some Selecting)) as Hlater.
  { intros j' Hj'. destruct (waiting_run c j (j' - j) Hst) as [(j2 & ? & ?)|[Hst' Hr]].
    { left. exists j2. split; [lia|done]. }
    replace (j + (j' - j)) with j' in * by lia. right. split; [done|]. intros i Hi Hs.
    destruct (lookup_lt_is_Some_2 (workers (ps j).1) i) as [[|x] Hx]; [destruct Hst; lia|by destruct (Hret i Hi)|].
    rewrite (Hr i x Hx) in Hs. done. }
  destruct (Hlater m' Hm') as [?|[Hst' Hret']]; [by left|].
  destruct (decide (workers (ps m').1 !! k = Some Selecting)) as [Hsel|Hsel].
  - destruct (Hfair Hsel) as (kk & x & w' & _ & _ & Hps).
    { apply counted_quit; [apply run_counted|apply Hst']. }
    destruct (Hlater (S m')) as [?|[Hst2 Hret2]]; [lia|by left|]. right. exists (S m').
    split; [lia|]. split; [done|]. intros i Hi. destruct (decide (i = k)) as [->|]; [|apply Hret2; lia].
    rewrite Hps. simpl. rewrite list_lookup_insert_eq; [done|]. by eapply lookup_lt_Some.
  - right. exists m'. split; [lia|]. split; [done|]. intros i Hi.
    destruct (decide (i = k)) as [->|]; [done|]. apply Hret'. lia.
Qed.

(** C29: [Stop] returns.  In every run in which the select of a goroutine does not
    choose the ticker forever and [Wait] is woken up when its counter is zero, a call
    of [Stop] that has closed the quit channel returns, all of them having returned,
    whatever the workers are doing and however many there are. *)
Theorem stop_returns m :
  relay_owner (ps m).1 = Waiting → ∃ j, m ≤ j ∧ finished (ps j).1.
Proof.
  intros Hw. set (c := length (workers (ps m).1)).
  destruct (workers_leave c m c) as [?|(j & Hj & Hst & Hret)]; [by split|done|done|].
  destruct (fair_wait j) as (j' & Hj' & Hfair).
  destruct (waiting_run c j (j' - j) Hst) as [(j2 & ? & ?)|[[Hw' Hc'] Hr]]; [exists j2; split; [lia|done]|].
  replace (j + (j' - j)) with j' in * by lia. exists (S j'). split; [lia|].
  assert (all_returned (ps j').1) as Hall.
  2:{ rewrite Hfair; [by split|done|]. rewrite (counted_wg _ (run_counted j')). by apply selecting_0. }
  intros i Hi. assert (i < c) as Hlt by (rewrite <- Hc'; by eapply lookup_lt_Some).
  destruct (lookup_lt_is_Some_2 (workers (ps j).1) i) as [[|x] Hx]; [destruct Hst; lia|by destruct (Hret i Hlt)|].
  rewrite (Hr i x Hx) in Hi. done.
Qed.
End lifecycle_theorems.
