(* ===== verification/Cqrs.v ===== *)
(** * Cqrs: package [cqrs]

    The interfaces a projection is built from, the retry function of the backoff
    library as an interface with its documented behaviour, and [Projection] with
    its [Handle]: idempotency check, then, under retry, the ordering check by
    version and the transactional execution of the handler. *)
From S2P Require Import Prelude GoJson EventSrc.

(** ** Interfaces; [C] is the type of contexts *)

Class IdempotencyStore (W C : Type) := {
  idemp_IsProcessed : C → uuid → string → M W (res bool);
  idemp_MarkAsProcessed : C → uuid → string → M W (option error);
}.

Class VersionedStore (W C : Type) := {
  GetVersion : C → uuid → M W (res Z);
}.

Class Transactor (W C : Type) := {
  Transactor_WithTransaction : C → (C → M W (option error)) → M W (option error);
}.

(** github.com/cenkalti/backoff: [Permanent] and [Retry] with a maximal elapsed
    time.  The operation's result value is always nil in this program. *)
Class Backoff (W : Type) := {
  Permanent : option error → option error;
  Retry : Z → M W (option error) → M W (option error);
}.

(** The runs of [Retry]: the operation is executed at least once; success ends it;
    an error wrapped by [Permanent] ends it and is returned, wrapped or not; after
    any other error it either gives up with an error or, after a pause, starts
    over.  [pause] is what may happen to the world while it sleeps. *)
Inductive retry_run {W} (pause : W → W → Prop) (op : M W (option error)) :
    W → W → option error → Prop :=
  | run_success w w' :
      op w = (w', None) → retry_run pause op w w' None
  | run_permanent w w' e inner e' :
      op w = (w', Some e) → errors_as_permanent e = Some inner →
      e' = e ∨ e' = inner → retry_run pause op w w' (Some e')
  | run_give_up w w' e e' :
      op w = (w', Some e) → errors_as_permanent e = None →
      retry_run pause op w w' (Some e')
  | run_again w w1 w2 w' e r :
      op w = (w1, Some e) → errors_as_permanent e = None →
      pause w1 w2 → retry_run pause op w2 w' r → retry_run pause op w w' r.

Class BackoffSpec (W : Type) (pause : W → W → Prop) `{Backoff W} : Prop := {
  Permanent_nil : Permanent None = None;
  Permanent_error e : Permanent (Some e) = Some (PermanentError e);
  Retry_spec maxElapsedTime op w w' r :
    Retry maxElapsedTime op w = (w', r) → retry_run pause op w w' r;
}.

(** ** cqrs/projection.go *)

Section projection.
Context {W C : Type} `{IdempotencyStore W C} `{VersionedStore W C} `{Transactor W C} `{Backoff W}.

(** The fields that are not stores; durations are in nanoseconds. *)
Record Projection := {
  subscriberID : string;
  handler : C → OutboxEvent → M W (option error);
  maxElapsedTime : Z;
}.

Definition ProjectionOption : Type := Projection → Projection.

Definition WithMaxElapsedTime (d : Z) : ProjectionOption := λ h,
  {| subscriberID := subscriberID h; handler := handler h; maxElapsedTime := d |}.

Definition NewProjection (subscriberID : string)
    (handler : C → OutboxEvent → M W (option error)) (opts : list ProjectionOption) :
    Projection :=
  let h := {| subscriberID := subscriberID; handler := handler;
              maxElapsedTime := 60 * 10 ^ 9 |} in
  foldl (λ h opt, opt h) h opts.

(** The closure given to [WithTransaction] for an event whose turn it is. *)
Definition execute (h : Projection) (evt : OutboxEvent) (txCtx : C) : M W (option error) :=
  e ← handler h txCtx evt;
  match e with
  | Some err => mret (Some (Wrapf "handler business logic failed" err))
  | None =>
      e ← idemp_MarkAsProcessed txCtx (oe_EventID evt) (subscriberID h);
      match e with
      | Some err => mret (Some (Wrapf "failed to mark event as processed" err))
      | None => mret None
      end
  end.

(** The retried operation. *)
Definition operation (h : Projection) (ctx : C) (evt : OutboxEvent) : M W (option error) :=
  r ← GetVersion ctx (oe_AggregateID evt);
  match r with
  | Err err => mret (Some (Wrapf "failed to get current view version" err))
  | Ok currentVersion =>
      if (oe_Version evt <=? currentVersion)%Z then
        e ← Transactor_WithTransaction ctx
              (λ txCtx, idemp_MarkAsProcessed txCtx (oe_EventID evt) (subscriberID h));
        mret (Permanent e)
      else if negb (oe_Version evt =? int_add currentVersion 1)%Z then
        mret (Permanent (Some (Sentinel ErrOutOfOrderEvent)))
      else
        txErr ← Transactor_WithTransaction ctx (execute h evt);
        match txErr with
        | Some err => if errors_is err ContextCanceled then mret (Permanent txErr) else mret txErr
        | None => mret None
        end
  end.

Definition Projection_Handle (h : Projection) (ctx : C) (evt : OutboxEvent) : M W (option error) :=
  r ← idemp_IsProcessed ctx (oe_EventID evt) (subscriberID h);
  match r with
  | Err err => mret (Some (Wrapf "failed to check for event idempotency" err))
  | Ok true => mret None
  | Ok false =>
      err ← Retry (maxElapsedTime h) (operation h ctx evt);
      match err with
      | Some err => mret (Some err)
      | None => mret None
      end
  end.
End projection.
Arguments Projection W C : clear implicits.

(** ** Theorems *)

(** A rule for [Retry]: [I] holds whenever the operation is about to run. *)
Lemma wp_Retry {W} {pause : W → W → Prop} `{BackoffSpec W pause} (I : W → Prop) maxElapsedTime
    (op : M W (option error)) (Q : option error → W → Prop) w :
  I w →
  (∀ w, I w → wp op (λ r w',
     match r with
     | None => Q None w'
     | Some e =>
         match errors_as_permanent e with
         | Some inner => Q (Some e) w' ∧ Q (Some inner) w'
         | None => (∀ e', Q (Some e') w') ∧ ∀ w2, pause w' w2 → I w2
         end
     end) w) →
  wp (Retry maxElapsedTime op) Q w.
Proof.
  intros Hw Hop. apply wp_intro. intros w' r Hrun%(Retry_spec (pause := pause)).
  induction Hrun as [w w' Hx|w w' e inner e' Hx Hp He|w w' e e' Hx Hp|w w1 w2 w' e r Hx Hp Hs _ IH];
    pose proof (wp_run _ _ _ _ _ Hx (Hop w Hw)) as Ho; cbv beta iota in Ho; [done|..];
    rewrite Hp in Ho; [|by apply Ho|].
  - destruct He as [->| ->]; apply Ho.
  - apply IH, Ho, Hs.
Qed.

(** The first attempt decides when its error is permanent. *)
Lemma Retry_permanent {W} {pause : W → W → Prop} `{BackoffSpec W pause} maxElapsedTime op
    (w w1 w' : W) e inner r :
  op w = (w1, Some e) → errors_as_permanent e = Some inner →
  Retry maxElapsedTime op w = (w', r) → w' = w1 ∧ (r = Some e ∨ r = Some inner).
Proof.
  intros Hx Hp Hrun%(Retry_spec (pause := pause)).
  inversion Hrun; subst; try congruence. split; [congruence|].
  match goal with Hor : _ ∨ _ |- _ => destruct Hor as [-> | ->] end; [left|right]; congruence.
Qed.

Lemma Retry_success {W} {pause : W → W → Prop} `{BackoffSpec W pause} maxElapsedTime op
    (w w1 w' : W) r :
  op w = (w1, None) → Retry maxElapsedTime op w = (w', r) → w' = w1 ∧ r = None.
Proof. intros Hx Hrun%(Retry_spec (pause := pause)). inversion Hrun; subst; try congruence.
  split; congruence.
Qed.

Section projection_theorems.
Context {W C : Type} `{IdempotencyStore W C} `{VersionedStore W C} `{Transactor W C}.
Context {pause : W → W → Prop} `{BackoffSpec W pause}.
Implicit Types (w : W) (h : Projection W C).

(** Marking the event in a transaction of its own. *)
Definition mark_only h (ctx : C) (evt : OutboxEvent) : M W (option error) :=
  Transactor_WithTransaction ctx
    (λ txCtx, idemp_MarkAsProcessed txCtx (oe_EventID evt) (subscriberID h)).

(** C27: idempotency and ordering.  An event already processed is acknowledged with
    nothing else done.  For another event the version read at the first attempt
    decides: an old or repeated version only marks the event, once, without running
    the handler, and nil is returned exactly if that worked; a version that leaves a
    gap changes nothing and returns an error that is [ErrOutOfOrderEvent]; neither
    is retried. *)
Theorem Projection_Handle_guards h ctx evt w w1 w' r processed :
  idemp_IsProcessed ctx (oe_EventID evt) (subscriberID h) w = (w1, Ok processed) →
  Projection_Handle h ctx evt w = (w', r) →
  if processed then w' = w1 ∧ r = None
  else ∀ w2 v, GetVersion ctx (oe_AggregateID evt) w1 = (w2, Ok v) →
    ((oe_Version evt ≤ v)%Z →
       ∃ rm, mark_only h ctx evt w2 = (w', rm) ∧ (r = None ↔ rm = None)) ∧
    ((v < oe_Version evt)%Z → oe_Version evt ≠ int_add v 1 →
       w' = w2 ∧ ∃ e, r = Some e ∧ errors_is e ErrOutOfOrderEvent = true).
Proof.
  intros Hi. unfold Projection_Handle, mbind, M_bind. rewrite Hi.
  destruct processed; [by intros [= <- <-]|]. intros Hrun w2 v Hv.
  destruct (Retry (maxElapsedTime h) (operation h ctx evt) w1) as [w3 r3] eqn:Hr.
  assert (w' = w3 ∧ r = r3) as [-> ->] by (destruct r3; by injection Hrun as <- <-).
  split.
  - intros Hle. destruct (mark_only h ctx evt w2) as [w4 rm] eqn:Hm. exists rm.
    assert (operation h ctx evt w1 = (w4, Permanent rm)) as Hop.
    { unfold operation, mbind, M_bind. rewrite Hv.
      replace (_ <=? _)%Z with true by (symmetry; by apply Z.leb_le).
      unfold mark_only in Hm. by rewrite Hm. }
    destruct rm as [e|].
    + rewrite (Permanent_error (pause := pause)) in Hop.
      destruct (Retry_permanent _ _ _ _ _ _ _ _ Hop eq_refl Hr) as [-> [-> | ->]]; done.
    + rewrite (Permanent_nil (pause := pause)) in Hop.
      by destruct (Retry_success _ _ _ _ _ _ Hop Hr) as [-> ->].
  - intros Hlt Hne.
    assert (operation h ctx evt w1 = (w2, Permanent (Some (Sentinel ErrOutOfOrderEvent)))) as Hop.
    { unfold operation, mbind, M_bind. rewrite Hv.
      replace (_ <=? _)%Z with false by (symmetry; by apply Z.leb_gt).
      by apply Z.eqb_neq in Hne as ->. }
    rewrite (Permanent_error (pause := pause)) in Hop.
    destruct (Retry_permanent _ _ _ _ _ _ _ _ Hop eq_refl Hr) as [-> [-> | ->]]; eauto.
Qed.

(** Nil means the event is marked.  If [Handle] returns nil, either the event had
    been processed, or the last thing done was a transaction that returned nil and
    marks it: the marking alone for a version not above the one read just before, or
    the handler followed by the marking for the version right after it. *)
Theorem Projection_Handle_nil h ctx evt w w' :
  Projection_Handle h ctx evt w = (w', None) →
  idemp_IsProcessed ctx (oe_EventID evt) (subscriberID h) w = (w', Ok true) ∨
  ∃ w1 w2 v, GetVersion ctx (oe_AggregateID evt) w1 = (w2, Ok v) ∧
    (((oe_Version evt ≤ v)%Z ∧ mark_only h ctx evt w2 = (w', None)) ∨
     ((v < oe_Version evt)%Z ∧ oe_Version evt = int_add v 1 ∧
      Transactor_WithTransaction ctx (execute h evt) w2 = (w', None))).
Proof.
  unfold Projection_Handle, mbind, M_bind, mret, M_ret. intros Hrun.
  destruct (idemp_IsProcessed _ _ _ w) as [w1 [[|]|e]]; simplify_eq/=; [by left|].
  right. destruct (Retry _ _ w1) as [w2 r] eqn:Hr.
  destruct r as [e|]; simplify_eq/=. revert Hr.
  assert (wp (Retry (maxElapsedTime h) (operation h ctx evt)) (λ r w', r = None →
    ∃ w1 w2 v, GetVersion ctx (oe_AggregateID evt) w1 = (w2, Ok v) ∧
    (((oe_Version evt ≤ v)%Z ∧ mark_only h ctx evt w2 = (w', None)) ∨
     ((v < oe_Version evt)%Z ∧ oe_Version evt = int_add v 1 ∧
      Transactor_WithTransaction ctx (execute h evt) w2 = (w', None)))) w1) as Hwp.
  { apply (wp_Retry (λ _, True)); [done|]. intros wa _. apply wp_intro.
    intros wb [e|] Hop; [by destruct (errors_as_permanent e)|]. intros _.
    unfold operation, mbind, M_bind, mret, M_ret in Hop.
    destruct (GetVersion _ _ wa) as [wc [v|e]] eqn:Hv; [|done].
    exists wa, wc, v. split; [done|].
    destruct (oe_Version evt <=? v)%Z eqn:Hle.
    - left. split; [by apply Z.leb_le|]. unfold mark_only.
      destruct (Transactor_WithTransaction _ _ wc) as [wd [e|]]; [|by injection Hop as -> _].
      by rewrite (Permanent_error (pause := pause)) in Hop.
    - destruct (oe_Version evt =? int_add v 1)%Z eqn:Heq; simpl in Hop.
      + right. split; [by apply Z.leb_gt|]. split; [by apply Z.eqb_eq|].
        destruct (Transactor_WithTransaction _ _ wc) as [wd [e|]]; [|by simplify_eq/=].
        destruct (errors_is e ContextCanceled); [|done].
        by rewrite (Permanent_error (pause := pause)) in Hop.
      + by rewrite (Permanent_error (pause := pause)) in Hop. }
  intros Hr. by apply (wp_run _ _ _ _ _ Hr Hwp).
Qed.
End projection_theorems.
