(* ===== verification/Product.v ===== *)
(** * Product: sample/domain

    The [Product] value and its validation, the two product events with their
    JSON form and registration, the [ProductAggregate] with its snapshot format
    and event handlers, and the product repository. *)
From Stdlib Require Import SpecFloat.
From S2P Require Import Prelude GoJson EventSrc.

(** ** sample/domain/domain/product.go *)

Record Product := {
  prod_ID : uuid;
  prod_Name : string;
  prod_Price : float64;
}.

Definition Product_zero : Product :=
  {| prod_ID := uuid_Nil; prod_Name := ""; prod_Price := float_zero |}.

Definition Product_Validate (p : Product) : option error :=
  if String.eqb (prod_Name p) "" then Some (ErrorString "product name cannot be empty")
  else if float_le_zero (prod_Price p)
       then Some (ErrorString "product price must be positive")
       else None.

Definition Product_Marshal (p : Product) : res json :=
  enc_object [("id", enc (prod_ID p)); ("name", enc (prod_Name p)); ("price", enc (prod_Price p))].

Definition Product_read (fs : list (string * json)) (p : Product) : res Product :=
  match dec_field "id" (prod_ID p) fs, dec_field "name" (prod_Name p) fs,
        dec_field "price" (prod_Price p) fs with
  | Ok i, Ok n, Ok pr => Ok {| prod_ID := i; prod_Name := n; prod_Price := pr |}
  | Err e, _, _ | _, Err e, _ | _, _, Err e => Err e
  end.

Definition json_type_error : error := ErrorString "json: cannot unmarshal value".

(** ** sample/domain/event *)

Definition ProductCreatedEventType : string := "ProductCreated".
Definition ProductUpdatedEventType : string := "ProductUpdated".

Record ProductCreated := {
  pc_BaseEvent : BaseEvent;
  pc_Name : string;
  pc_Price : float64;
}.

Record ProductUpdated := {
  pu_BaseEvent : BaseEvent;
  pu_Name : string;
  pu_Price : float64;
}.

(** A value of the [Event] interface as far as the product code tells types
    apart: a [*ProductCreated], a [*ProductUpdated], or any other type, of which
    only its name and its [BaseEvent] matter. *)
Inductive domain_event :=
  | EvProductCreated (e : ProductCreated)
  | EvProductUpdated (e : ProductUpdated)
  | EvOther (ty : string) (b : BaseEvent).

Definition event_base (e : domain_event) : BaseEvent :=
  match e with
  | EvProductCreated e => pc_BaseEvent e
  | EvProductUpdated e => pu_BaseEvent e
  | EvOther _ b => b
  end.

Definition domain_EventType (e : domain_event) : string :=
  match e with
  | EvProductCreated _ => ProductCreatedEventType
  | EvProductUpdated _ => ProductUpdatedEventType
  | EvOther ty _ => ty
  end.

Definition product_fields (b : BaseEvent) (name : string) (price : float64) :
    list (string * res json) :=
  BaseEvent_fields b ++ [("name", enc name); ("price", enc price)].

Definition domain_Marshal (e : domain_event) : res json :=
  match e with
  | EvProductCreated e => enc_object (product_fields (pc_BaseEvent e) (pc_Name e) (pc_Price e))
  | EvProductUpdated e => enc_object (product_fields (pu_BaseEvent e) (pu_Name e) (pu_Price e))
  | EvOther _ b => enc_object (BaseEvent_fields b)
  end.

Definition product_read (fs : list (string * json)) (b : BaseEvent) (name : string)
    (price : float64) : res (BaseEvent * string * float64) :=
  match BaseEvent_read fs b, dec_field "name" name fs, dec_field "price" price fs with
  | Ok b, Ok n, Ok p => Ok (b, n, p)
  | Err e, _, _ | _, Err e, _ | _, _, Err e => Err e
  end.

Definition domain_Unmarshal (j : json) (e : domain_event) : res domain_event :=
  match j with
  | JObject fs =>
      match e with
      | EvProductCreated e =>
          match product_read fs (pc_BaseEvent e) (pc_Name e) (pc_Price e) with
          | Ok (b, n, p) =>
              Ok (EvProductCreated {| pc_BaseEvent := b; pc_Name := n; pc_Price := p |})
          | Err err => Err err
          end
      | EvProductUpdated e =>
          match product_read fs (pu_BaseEvent e) (pu_Name e) (pu_Price e) with
          | Ok (b, n, p) =>
              Ok (EvProductUpdated {| pu_BaseEvent := b; pu_Name := n; pu_Price := p |})
          | Err err => Err err
          end
      | EvOther ty b =>
          match BaseEvent_read fs b with Ok b => Ok (EvOther ty b) | Err err => Err err end
      end
  | _ => Err json_type_error
  end.

#[export] Instance domain_event_Event : Event domain_event := {|
  EventID e := ID (event_base e);
  AggregateID e := AggID (event_base e);
  AggregateType e := AggType (event_base e);
  EventType := domain_EventType;
  Version e := Ver (event_base e);
  Timestamp e := Ts (event_base e);
  event_Marshal := domain_Marshal;
  event_Unmarshal := domain_Unmarshal;
|}.

Definition ProductCreated_zero : domain_event :=
  EvProductCreated {| pc_BaseEvent := BaseEvent_zero; pc_Name := ""; pc_Price := float_zero |}.
Definition ProductUpdated_zero : domain_event :=
  EvProductUpdated {| pu_BaseEvent := BaseEvent_zero; pu_Name := ""; pu_Price := float_zero |}.

(** The two [init] functions, in the order of their files. *)
Definition init_ProductCreated : M (gmap string (EventFactory domain_event)) (outcome unit) :=
  RegisterEvent ProductCreatedEventType (λ _, ProductCreated_zero).
Definition init_ProductUpdated : M (gmap string (EventFactory domain_event)) (outcome unit) :=
  RegisterEvent ProductUpdatedEventType (λ _, ProductUpdated_zero).

Definition eventRegistry : gmap string (EventFactory domain_event) :=
  (init_ProductUpdated (init_ProductCreated ∅).1).1.

(** ** sample/domain/aggregate/product_aggregate.go *)

Definition ProductAggregateType : string := "products".

Record ProductAggregate := {
  pa_AggregateRoot : AggregateRoot domain_event;
  pa_Product : Product;
}.

Definition NewProductAggregateEmpty : ProductAggregate :=
  {| pa_AggregateRoot := NewAggregateRoot ProductAggregateType; pa_Product := Product_zero |}.

(** sample/domain/repository/repository.go: the factory given to the repository. *)
Definition newEmptyProduct : ProductAggregate :=
  {| pa_AggregateRoot := NewAggregateRoot ProductAggregateType; pa_Product := Product_zero |}.

Definition pa_with_root (f : AggregateRoot domain_event → AggregateRoot domain_event)
    (p : ProductAggregate) : ProductAggregate :=
  {| pa_AggregateRoot := f (pa_AggregateRoot p); pa_Product := pa_Product p |}.

Definition pa_set_details (name : string) (price : float64) (p : ProductAggregate) :
    ProductAggregate :=
  {| pa_AggregateRoot := pa_AggregateRoot p;
     pa_Product := {| prod_ID := prod_ID (pa_Product p); prod_Name := name; prod_Price := price |} |}.

Definition onProductCreated (evt : ProductCreated) : M ProductAggregate (option error) := λ p,
  let p := pa_with_root (SetID (AggID (pc_BaseEvent evt))) p in
  (pa_set_details (pc_Name evt) (pc_Price evt) p, None).

Definition onProductUpdated (evt : ProductUpdated) : M ProductAggregate (option error) := λ p,
  (pa_set_details (pu_Name evt) (pu_Price evt) p, None).

Definition ProductAggregate_Apply (evt : domain_event) : M ProductAggregate (option error) := λ p,
  let '(p, err) :=
    match evt with
    | EvProductCreated e => onProductCreated e p
    | EvProductUpdated e => onProductUpdated e p
    | EvOther _ _ => (p, Some (ErrorString "unknown event type"))
    end in
  match err with
  | Some err => (p, Some err)
  | None => (pa_with_root (SetVersion (Version evt)) p, None)
  end.

Definition ProductAggregate_Validate (p : ProductAggregate) : option error :=
  match Product_Validate (pa_Product p) with
  | Some err => Some err
  | None => None
  end.

#[export] Instance ProductAggregate_Embeds : Embeds domain_event ProductAggregate := {|
  root := pa_AggregateRoot;
  with_root := pa_with_root;
  applyMethod := ProductAggregate_Apply;
  validateState := ProductAggregate_Validate;
|}.

(** Through [*alias], [encoding/json] sees the exported fields only:
    [AggregateRoot] has none, so a snapshot is the [Product] alone.  (When decoding fails
    half-way, [json.Unmarshal] may already have set some fields of the product, while
    here it stays as it was; [Repository_Load] returns the error and drops the value.) *)
Definition ProductAggregate_MarshalJSON (p : ProductAggregate) : res json :=
  enc_object [("Product", Product_Marshal (pa_Product p))].

Definition ProductAggregate_UnmarshalJSON (data : json) : M ProductAggregate (option error) := λ p,
  let p := {| pa_AggregateRoot := NewAggregateRoot ProductAggregateType;
              pa_Product := pa_Product p |} in
  match data with
  | JObject fs =>
      match field "Product" fs with
      | None => (p, None)
      | Some (JObject pfs) =>
          match Product_read pfs (pa_Product p) with
          | Ok pr => ({| pa_AggregateRoot := pa_AggregateRoot p; pa_Product := pr |}, None)
          | Err err => (p, Some err)
          end
      | Some _ => (p, Some json_type_error)
      end
  | _ => (p, Some json_type_error)
  end.

#[export] Instance ProductAggregate_Aggregate : Aggregate domain_event ProductAggregate := {|
  MarshalJSON := ProductAggregate_MarshalJSON;
  UnmarshalJSON := ProductAggregate_UnmarshalJSON;
|}.

(** ** Theorems *)

#[export] Instance ProductAggregate_EmbedsLaws : EmbedsLaws domain_event ProductAggregate.
Proof.
  split; intros; try done.
  - destruct a; unfold with_root, root in *; simpl in *; unfold pa_with_root; simpl. by f_equal.
  - by destruct a.
  - destruct evt; done.
Qed.

Definition BaseEvent_canon (b : BaseEvent) : BaseEvent :=
  {| ID := ID b; AggID := AggID b; AggType := to_valid_utf8 (AggType b);
     Ver := Ver b; Ts := Ts b |}.

(** The event a stored event is read back as: its strings are valid UTF-8. *)
Definition event_canon (e : domain_event) : domain_event :=
  match e with
  | EvProductCreated e =>
      EvProductCreated {| pc_BaseEvent := BaseEvent_canon (pc_BaseEvent e);
                          pc_Name := to_valid_utf8 (pc_Name e); pc_Price := pc_Price e |}
  | EvProductUpdated e =>
      EvProductUpdated {| pu_BaseEvent := BaseEvent_canon (pu_BaseEvent e);
                          pu_Name := to_valid_utf8 (pu_Name e); pu_Price := pu_Price e |}
  | EvOther ty b => EvOther ty (BaseEvent_canon b)
  end.

Definition event_name (e : domain_event) : string :=
  match e with
  | EvProductCreated e => pc_Name e | EvProductUpdated e => pu_Name e | EvOther _ _ => ""
  end.
Definition event_price (e : domain_event) : float64 :=
  match e with
  | EvProductCreated e => pc_Price e | EvProductUpdated e => pu_Price e
  | EvOther _ _ => float_zero
  end.
Definition is_product_event (e : domain_event) : bool :=
  match e with EvOther _ _ => false | _ => true end.

Lemma product_read_enc b name price fs b0 n0 p0 :
  int_range (Ver b) →
  enc_fields (product_fields b name price) = Ok fs →
  product_read fs b0 n0 p0 = Ok (BaseEvent_canon b, to_valid_utf8 name, price).
Proof.
  intros Hv%int_in_range_spec Hf. unfold product_fields, BaseEvent_fields in Hf. cbn [app] in Hf.
  enc_inv. unfold product_read, BaseEvent_read. by dec_enc.
Qed.

Lemma CreateEvent_product e :
  is_product_event e = true →
  CreateEvent eventRegistry (EventType e) =
  Ok (match e with EvProductCreated _ => ProductCreated_zero | _ => ProductUpdated_zero end).
Proof. by destruct e. Qed.

Lemma product_event_decode (e z : domain_event) (j : json) :
  is_product_event e = true → int_range (Version e) →
  event_Marshal e = Ok j → CreateEvent eventRegistry (EventType e) = Ok z →
  event_Unmarshal j z = Ok (event_canon e).
Proof.
  intros Hp Hv Hm. rewrite (CreateEvent_product e Hp). intros [= <-].
  destruct e as [[b n p]|[b n p]|]; [..|done]; simpl in *;
    apply enc_object_ok in Hm as (fs & -> & Hf); simpl;
    by rewrite (product_read_enc b n p fs).
Qed.

(** C34: storing and reading back an event.  A product event that marshals is read
    back, through the factory registered for its type, as the same event with
    every string made valid UTF-8; so an event whose strings are valid UTF-8 is
    read back unchanged. *)
Theorem product_event_roundtrip (e z : domain_event) (j : json) :
  is_product_event e = true → int_range (Version e) →
  event_Marshal e = Ok j →
  CreateEvent eventRegistry (EventType e) = Ok z →
  event_Unmarshal j z = Ok (event_canon e) ∧
  (to_valid_utf8 (AggregateType e) = AggregateType e →
   to_valid_utf8 (event_name e) = event_name e → event_canon e = e).
Proof.
  intros Hp Hv Hm Hz. split; [by eapply product_event_decode|].
  destruct e as [[b n p]|[b n p]|]; [..|done]; simpl;
    unfold event_canon, BaseEvent_canon; simpl; intros -> ->; by destruct b.
Qed.

(** Which events can be stored.  [json.Marshal] refuses a product event
    exactly when its price is not finite or its timestamp's year is out of range;
    validation lets both NaN and +Inf prices through, so such a command passes
    the aggregate and fails only when its event is saved. *)
Theorem product_event_marshal_fails (e : domain_event) :
  is_product_event e = true →
  ((∃ err, event_Marshal e = Err err) ↔
   float_finite (event_price e) = false ∨ year_ok (Timestamp e) = false) ∧
  (∀ p, prod_Name p ≠ "" → prod_Price p = S754_nan ∨ prod_Price p = S754_infinity false →
        Product_Validate p = None).
Proof.
  intros Hp. split.
  - destruct e as [[b n p]|[b n p]|]; [..|done]; simpl;
      unfold enc_object; simpl; destruct (float_finite p), (year_ok (Ts b)); simpl;
      (split; [intros [? [=]]; auto|intros [[=]|[=]]; eauto]).
  - intros p Hn Hpr. unfold Product_Validate.
    apply String.eqb_neq in Hn as ->. by destruct Hpr as [-> | ->].
Qed.

(** What [UnmarshalJSON] leaves of the aggregate root, and what it restores. *)
Lemma UnmarshalJSON_root (p p' : ProductAggregate) j r :
  UnmarshalJSON j p = (p', r) → root p' = NewAggregateRoot ProductAggregateType.
Proof.
  simpl. unfold ProductAggregate_UnmarshalJSON.
  destruct j as [| | | | |fs]; try by intros [= <- _].
  destruct (field "Product" fs) as [[| | | | |pfs]|]; try by intros [= <- _].
  destruct (Product_read pfs _); by intros [= <- _].
Qed.

Lemma UnmarshalJSON_MarshalJSON (p q : ProductAggregate) (j : json) :
  MarshalJSON p = Ok j →
  ∃ p', UnmarshalJSON j q = (p', None) ∧
    pa_Product p' = {| prod_ID := prod_ID (pa_Product p);
                       prod_Name := to_valid_utf8 (prod_Name (pa_Product p));
                       prod_Price := prod_Price (pa_Product p) |}.
Proof.
  simpl. unfold ProductAggregate_MarshalJSON, Product_Marshal. intros Hm.
  enc_inv. eexists. unfold ProductAggregate_UnmarshalJSON. simpl field. cbv iota beta.
  unfold Product_read. dec_enc. done.
Qed.

(** C35: snapshots lose the aggregate's version.  Restoring any snapshot, into any
    aggregate, brings back the product (its id, its name as valid UTF-8, its price), but
    the root of the restored aggregate has version 0, the nil id and no uncommitted
    events, whatever the aggregate that was saved had. *)
Theorem snapshot_roundtrip (p q : ProductAggregate) (j : json) :
  MarshalJSON p = Ok j →
  ∃ p', UnmarshalJSON j q = (p', None) ∧
    pa_Product p' = {| prod_ID := prod_ID (pa_Product p);
                       prod_Name := to_valid_utf8 (prod_Name (pa_Product p));
                       prod_Price := prod_Price (pa_Product p) |} ∧
    version (root p') = 0%Z ∧ id (root p') = uuid_Nil ∧ GetUncommittedEvents p' = [].
Proof.
  intros (p' & Hu & Hp)%(UnmarshalJSON_MarshalJSON _ q). exists p'.
  unfold GetUncommittedEvents. by rewrite (UnmarshalJSON_root _ _ _ _ Hu).
Qed.

Lemma Product_Validate_None p :
  Product_Validate p = None ↔ prod_Name p ≠ "" ∧ float_le_zero (prod_Price p) = false.
Proof.
  unfold Product_Validate. rewrite <- String.eqb_neq.
  destruct (String.eqb _ _), (float_le_zero _); split; try done; by intros [??].
Qed.

(** The id a history gives an aggregate: that of its last [ProductCreated]. *)
Fixpoint history_id (h : list domain_event) (i : uuid) : uuid :=
  match h with
  | [] => i
  | EvProductCreated e :: h => history_id h (AggID (pc_BaseEvent e))
  | _ :: h => history_id h i
  end.

Lemma apply_product e (p : ProductAggregate) :
  is_product_event e = true →
  ∃ p', applyMethod e p = (p', None) ∧ version (root p') = Version e ∧
    prod_Name (pa_Product p') = event_name e ∧ prod_Price (pa_Product p') = event_price e ∧
    prod_ID (pa_Product p') = prod_ID (pa_Product p) ∧
    id (root p') = history_id [e] (id (root p)) ∧ aggType (root p') = aggType (root p).
Proof. destruct e; [by eexists..|done]. Qed.

Lemma LoadFromHistory_last (h : list domain_event) (e : domain_event) (p : ProductAggregate) :
  Forall (λ e, is_product_event e = true) (h ++ [e]) →
  ∃ p', LoadFromHistory (h ++ [e]) p = (p', None) ∧
    version (root p') = Version e ∧
    prod_Name (pa_Product p') = event_name e ∧ prod_Price (pa_Product p') = event_price e ∧
    id (root p') = history_id (h ++ [e]) (id (root p)) ∧
    prod_ID (pa_Product p') = prod_ID (pa_Product p) ∧ aggType (root p') = aggType (root p).
Proof.
  revert p. induction h as [|e0 h IH]; intros p; simpl;
    intros [H0 Hall]%Forall_cons.
  - destruct (apply_product e p H0) as (p' & Ha & ? & ? & ? & ? & ? & ?).
    exists p'. simpl in Ha. rewrite Ha. by destruct e.
  - destruct (apply_product e0 p H0) as (p1 & Ha & _ & _ & _ & Hpi & Hid & Hty).
    destruct (IH p1 Hall) as (p' & Hl & ? & ? & ? & Hid' & ? & Hty').
    exists p'. simpl in Ha. rewrite Ha. split_and!; [done..| |congruence|exact (eq_trans Hty' Hty)].
    etrans; [exact Hid'|]. rewrite Hid. by destruct e0.
Qed.

(** Rehydration.  Replaying a history of product events never fails, and the
    aggregate it gives is determined by the last event: its version, name and
    price; the id comes from the last [ProductCreated], and [Product.ID] is never
    set. *)
Theorem product_rehydration (h : list domain_event) (e : domain_event) (p : ProductAggregate) :
  Forall (λ e, is_product_event e = true) (h ++ [e]) →
  ∃ p', LoadFromHistory (h ++ [e]) p = (p', None) ∧
    version (root p') = Version e ∧
    prod_Name (pa_Product p') = event_name e ∧ prod_Price (pa_Product p') = event_price e ∧
    id (root p') = history_id (h ++ [e]) (id (root p)) ∧
    prod_ID (pa_Product p') = prod_ID (pa_Product p) ∧
    GetUncommittedEvents p' = GetUncommittedEvents p.
Proof.
  intros (p' & Hl & ? & ? & ? & ? & ? & _)%(LoadFromHistory_last _ _ p).
  exists p'. split_and!; [done..|].
  unfold GetUncommittedEvents. by rewrite <- (LoadFromHistory_events (h ++ [e]) p), Hl.
Qed.
