(* ===== verification/Sql.v ===== *)
(** * Sql: the schema and the SQL statements of the program

    The tables of infra/postgres/schema.sql and of [ProductViewSchema] as data
    with their constraints, and the meaning of every SQL statement the Go code
    sends: a command maps tables to tables or fails, a query relates tables to
    the rows it may answer (SQL leaves the order of equal sort keys open). *)
From Stdlib Require Import Ascii Sorted.
From S2P Require Import Prelude GoJson EventSrc.

(** How pgx binds a [float64] to an [INT] parameter and scans an [INT] column
    into a [float64], and the precision PostgreSQL keeps of a [TIMESTAMPTZ]:
    code outside the repository. *)
Class PgCodec := {
  encode_int4_float : float64 → option Z;
  scan_float_int4 : Z → float64;
  encode_timestamptz : time → time;
}.

Class PgCodecSpec `{PgCodec} : Prop := {
  encode_int4_float_range f z : encode_int4_float f = Some z → int4_ok z = true;
  scan_float_int4_integral z : int4_ok z = true → float_integral (scan_float_int4 z) = Some z;
  encode_timestamptz_year t : year_ok t = true → year_ok (encode_timestamptz t) = true;
}.

(** ** Tables *)

Record event_row := {
  er_event_id : uuid;
  er_aggregate_id : uuid;
  er_aggregate_type : string;
  er_event_type : string;
  er_payload : json;
  er_version : Z;
  er_ts : time;
}.

Record snapshot_row := {
  sr_aggregate_id : uuid;
  sr_aggregate_type : string;
  sr_aggregate_version : Z;
  sr_payload : json;
}.

Record outbox_row := {
  or_event : event_row;
  or_published : bool;
}.

Record view_row := {
  vr_name : string;
  vr_price : Z;
  vr_version : Z;
  vr_created_at : time;
  vr_updated_at : time;
}.

(** [processed_events] and [product_views] are keyed by their primary keys. *)
Record tables := {
  event_store : list event_row;
  snapshots : list snapshot_row;
  outbox : list outbox_row;
  processed_events : gset (uuid * string);
  product_views : gmap uuid view_row;
}.

Definition empty_tables : tables :=
  {| event_store := []; snapshots := []; outbox := []; processed_events := ∅;
     product_views := ∅ |}.

Definition set_event_store x t :=
  {| event_store := x; snapshots := snapshots t; outbox := outbox t;
     processed_events := processed_events t; product_views := product_views t |}.
Definition set_snapshots x t :=
  {| event_store := event_store t; snapshots := x; outbox := outbox t;
     processed_events := processed_events t; product_views := product_views t |}.
Definition set_outbox x t :=
  {| event_store := event_store t; snapshots := snapshots t; outbox := x;
     processed_events := processed_events t; product_views := product_views t |}.
Definition set_processed_events x t :=
  {| event_store := event_store t; snapshots := snapshots t; outbox := outbox t;
     processed_events := x; product_views := product_views t |}.
Definition set_product_views x t :=
  {| event_store := event_store t; snapshots := snapshots t; outbox := outbox t;
     processed_events := processed_events t; product_views := x |}.

(** ** Column types *)

Definition unique_violation : string := "23505".
Definition string_data_right_truncation : string := "22001".
Definition character_not_in_repertoire : string := "22021".
Definition untranslatable_character : string := "22P05".
Definition bad_parameter : error := ErrorString "failed to encode args".

Fixpoint has_nul (s : string) : bool :=
  match s with
  | EmptyString => false
  | String c s => Ascii.eqb c "000"%char || has_nul s
  end.

(** Text a PostgreSQL database in UTF-8 accepts. *)
Definition text_ok (s : string) : bool := valid_utf8 s && negb (has_nul s).

(** The first [n] characters and the rest; continuation bytes belong to the
    character before them. *)
Fixpoint split_chars (n : nat) (s : string) : string * string :=
  match s with
  | EmptyString => (EmptyString, EmptyString)
  | String c s' =>
      if utf8_cont c then let '(p, r) := split_chars n s' in (String c p, r)
      else match n with
           | O => (EmptyString, s)
           | S n' => let '(p, r) := split_chars n' s' in (String c p, r)
           end
  end.

Fixpoint all_spaces (s : string) : bool :=
  match s with
  | EmptyString => true
  | String c s => Ascii.eqb c " "%char && all_spaces s
  end.

(** Assigning to a [VARCHAR(n)] column: excess spaces are cut, excess text fails. *)
Definition varchar (n : nat) (s : string) : res string :=
  if text_ok s then
    let '(p, r) := split_chars n s in
    if all_spaces r then Ok p else Err (PgError string_data_right_truncation)
  else Err (PgError character_not_in_repertoire).

(** [JSONB] refuses the escape \u0000. *)
Fixpoint jsonb_ok (j : json) : bool :=
  match j with
  | JString s => negb (has_nul s)
  | JObject fs => forallb (λ '(_, j), jsonb_ok j) fs
  | _ => true
  end.

Section sql.
Context `{PgCodec}.

(** The values the columns of [event_store] and [outbox] take. *)
Definition event_columns (r : event_row) : res event_row :=
  match varchar 255 (er_aggregate_type r), varchar 255 (er_event_type r) with
  | Ok aty, Ok ety =>
      if int4_ok (er_version r) then
        if jsonb_ok (er_payload r) then
          Ok {| er_event_id := er_event_id r; er_aggregate_id := er_aggregate_id r;
                er_aggregate_type := aty; er_event_type := ety;
                er_payload := er_payload r; er_version := er_version r;
                er_ts := encode_timestamptz (er_ts r) |}
        else Err (PgError untranslatable_character)
      else Err bad_parameter
  | Err e, _ | _, Err e => Err e
  end.

Definition snapshot_columns (r : snapshot_row) : res snapshot_row :=
  match varchar 255 (sr_aggregate_type r) with
  | Ok aty =>
      if int4_ok (sr_aggregate_version r) then
        if jsonb_ok (sr_payload r) then
          Ok {| sr_aggregate_id := sr_aggregate_id r; sr_aggregate_type := aty;
                sr_aggregate_version := sr_aggregate_version r; sr_payload := sr_payload r |}
        else Err (PgError untranslatable_character)
      else Err bad_parameter
  | Err e => Err e
  end.

(** ** Commands *)

(** The parameters of the two statements on [product_views]. *)
Record view_params := {
  vp_id : uuid;
  vp_name : string;
  vp_price : float64;
  vp_version : Z;
  vp_created_at : time;
  vp_updated_at : time;
}.

Inductive stmt :=
  | InsertEvent (r : event_row)
  | InsertOutbox (r : event_row)
  | InsertSnapshot (r : snapshot_row)
  | InsertProcessed (event_id : uuid) (subscriber_id : string)
  | UpdatePublished (event_ids : list uuid)
  | UpsertView (v : view_params)
  | UpdateView (v : view_params).

(** PRIMARY KEY (event_id) and uq_aggregate_version. *)
Definition event_conflict (r r' : event_row) : bool :=
  bool_decide (er_event_id r = er_event_id r') ||
  bool_decide ((er_aggregate_id r, er_version r) = (er_aggregate_id r', er_version r')).

Definition insert_event (r : event_row) (t : tables) : res (tables * Z) :=
  match event_columns r with
  | Err e => Err e
  | Ok r =>
      if existsb (event_conflict r) (event_store t) then Err (PgError unique_violation)
      else Ok (set_event_store (event_store t ++ [r]) t, 1%Z)
  end.

Definition insert_outbox (r : event_row) (t : tables) : res (tables * Z) :=
  match event_columns r with
  | Err e => Err e
  | Ok r =>
      if existsb (λ o, bool_decide (er_event_id r = er_event_id (or_event o))) (outbox t)
      then Err (PgError unique_violation)
      else Ok (set_outbox (outbox t ++ [{| or_event := r; or_published := false |}]) t, 1%Z)
  end.

(** ON CONFLICT (aggregate_id, aggregate_version) DO NOTHING. *)
Definition snapshot_conflict (r r' : snapshot_row) : bool :=
  bool_decide ((sr_aggregate_id r, sr_aggregate_version r) =
               (sr_aggregate_id r', sr_aggregate_version r')).

Definition insert_snapshot (r : snapshot_row) (t : tables) : res (tables * Z) :=
  match snapshot_columns r with
  | Err e => Err e
  | Ok r =>
      if existsb (snapshot_conflict r) (snapshots t) then Ok (t, 0%Z)
      else Ok (set_snapshots (snapshots t ++ [r]) t, 1%Z)
  end.

Definition insert_processed (eid : uuid) (sub : string) (t : tables) : res (tables * Z) :=
  match varchar 255 sub with
  | Err e => Err e
  | Ok sub =>
      if decide ((eid, sub) ∈ processed_events t) then Err (PgError unique_violation)
      else Ok (set_processed_events ({[(eid, sub)]} ∪ processed_events t) t, 1%Z)
  end.

Definition marked (ids : list uuid) (o : outbox_row) : bool :=
  bool_decide (er_event_id (or_event o) ∈ ids).

Definition update_published (ids : list uuid) (t : tables) : res (tables * Z) :=
  Ok (set_outbox
        ((λ o, if marked ids o then {| or_event := or_event o; or_published := true |} else o)
           <$> outbox t) t,
      Z.of_nat (length (List.filter (marked ids) (outbox t)))).

Definition view_columns (v : view_params) (created : time) : res view_row :=
  match varchar 255 (vp_name v), encode_int4_float (vp_price v) with
  | Ok name, Some price =>
      if int4_ok (vp_version v) then
        Ok {| vr_name := name; vr_price := price; vr_version := vp_version v;
              vr_created_at := encode_timestamptz created;
              vr_updated_at := encode_timestamptz (vp_updated_at v) |}
      else Err bad_parameter
  | Err e, _ => Err e
  | _, None => Err bad_parameter
  end.

(** ON CONFLICT (id) DO UPDATE: every column but [created_at] is overwritten. *)
Definition upsert_view (v : view_params) (t : tables) : res (tables * Z) :=
  match view_columns v (vp_created_at v) with
  | Err e => Err e
  | Ok row =>
      let row := match product_views t !! vp_id v with
                 | None => row
                 | Some old =>
                     {| vr_name := vr_name row; vr_price := vr_price row;
                        vr_version := vr_version row; vr_created_at := vr_created_at old;
                        vr_updated_at := vr_updated_at row |}
                 end in
      Ok (set_product_views (<[vp_id v := row]> (product_views t)) t, 1%Z)
  end.

(** UPDATE ... WHERE id = $1: the parameters are bound whether or not a row
    matches; the length of the name matters only to a matching row. *)
Definition update_view (v : view_params) (t : tables) : res (tables * Z) :=
  if text_ok (vp_name v) && int4_ok (vp_version v) &&
     bool_decide (is_Some (encode_int4_float (vp_price v)))
  then
    match product_views t !! vp_id v with
    | None => Ok (t, 0%Z)
    | Some old =>
        match view_columns v (vp_updated_at v) with
        | Err e => Err e
        | Ok row =>
            Ok (set_product_views
                  (<[vp_id v := {| vr_name := vr_name row; vr_price := vr_price row;
                                   vr_version := vr_version row;
                                   vr_created_at := vr_created_at old;
                                   vr_updated_at := vr_updated_at row |}]>
                     (product_views t)) t, 1%Z)
        end
    end
  else Err bad_parameter.

Definition sql_exec (s : stmt) (t : tables) : res (tables * Z) :=
  match s with
  | InsertEvent r => insert_event r t
  | InsertOutbox r => insert_outbox r t
  | InsertSnapshot r => insert_snapshot r t
  | InsertProcessed eid sub => insert_processed eid sub t
  | UpdatePublished ids => update_published ids t
  | UpsertView v => upsert_view v t
  | UpdateView v => update_view v t
  end.

(** Statements in sequence, as a transaction accumulates them. *)
Fixpoint replay (ss : list stmt) (t : tables) : res tables :=
  match ss with
  | [] => Ok t
  | s :: ss =>
      match sql_exec s t with
      | Ok (t, _) => replay ss t
      | Err e => Err e
      end
  end.
End sql.

(** ** Queries *)

(** [A] is the type of a row. *)
Inductive query : Type → Type :=
  | SelectProcessed (event_id : uuid) (subscriber_id : string) : query bool
  | SelectSnapshot (aggregate_id : uuid) : query (Z * json)
  | SelectEvents (aggregate_id : uuid) (from_version : Z) : query (string * json)
  | SelectUnpublished (limit : Z) : query event_row
  | SelectViewVersion (id : uuid) : query Z
  | SelectView (id : uuid) : query view_row.

Definition events_after (aid : uuid) (v : Z) (r : event_row) : Prop :=
  er_aggregate_id r = aid ∧ (v < er_version r)%Z.
#[export] Instance events_after_dec aid v r : Decision (events_after aid v r).
Proof. unfold events_after. apply _. Defined.

Definition unpublished (skip : list uuid) (o : outbox_row) : Prop :=
  or_published o = false ∧ er_event_id (or_event o) ∉ skip.
#[export] Instance unpublished_dec skip o : Decision (unpublished skip o).
Proof. unfold unpublished. apply _. Defined.

Definition version_le (r r' : event_row) : Prop := (er_version r ≤ er_version r')%Z.
Definition ts_le (r r' : event_row) : Prop := (unix_ns (er_ts r) ≤ unix_ns (er_ts r'))%Z.
#[export] Instance ts_le_dec : RelDecision ts_le.
Proof. intros r r'. unfold ts_le. apply _. Defined.

(** [answers q skip t rows]: [rows] is an answer to [q] on [t]; [skip] are the
    outbox rows other transactions hold locked. *)
Definition answers {A} (q : query A) (skip : list uuid) (t : tables) : list A → Prop :=
  match q in query A return list A → Prop with
  | SelectProcessed eid sub => λ rows, rows = [bool_decide ((eid, sub) ∈ processed_events t)]
  | SelectSnapshot aid => λ rows,
      (rows = [] ∧ Forall (λ r, sr_aggregate_id r ≠ aid) (snapshots t)) ∨
      (∃ r, r ∈ snapshots t ∧ sr_aggregate_id r = aid ∧
         rows = [(sr_aggregate_version r, sr_payload r)] ∧
         ∀ r', r' ∈ snapshots t → sr_aggregate_id r' = aid →
               (sr_aggregate_version r' ≤ sr_aggregate_version r)%Z)
  | SelectEvents aid v => λ rows,
      ∃ rs, rs ≡ₚ filter (events_after aid v) (event_store t) ∧ StronglySorted version_le rs ∧
        rows = (λ r, (er_event_type r, er_payload r)) <$> rs
  | SelectUnpublished limit => λ rows,
      (0 ≤ limit)%Z ∧
      ∃ rest, rows ++ rest ≡ₚ or_event <$> filter (unpublished skip) (outbox t) ∧
        StronglySorted ts_le rows ∧ Forall (λ r, Forall (ts_le r) rest) rows ∧
        (Z.of_nat (length rows) ≤ limit)%Z ∧
        (rest ≠ [] → Z.of_nat (length rows) = limit)
  | SelectViewVersion id => λ rows,
      rows = match product_views t !! id with None => [] | Some v => [vr_version v] end
  | SelectView id => λ rows,
      rows = match product_views t !! id with None => [] | Some v => [v] end
  end.

(** ** Theorems *)

(** What the constraints of the schema keep true of the tables. *)
Record tables_wf (t : tables) : Prop := {
  wf_event_ids : NoDup (er_event_id <$> event_store t);
  wf_versions : NoDup ((λ r, (er_aggregate_id r, er_version r)) <$> event_store t);
  wf_outbox_ids : NoDup ((λ o, er_event_id (or_event o)) <$> outbox t);
  wf_snapshots : NoDup ((λ r, (sr_aggregate_id r, sr_aggregate_version r)) <$> snapshots t);
  wf_event_versions : Forall (λ r, int4_ok (er_version r) = true) (event_store t);
  wf_views : map_Forall (λ _ v, int4_ok (vr_price v) = true ∧ int4_ok (vr_version v) = true)
               (product_views t);
}.

(** The number of characters of a text in UTF-8. *)
Fixpoint char_length (s : string) : nat :=
  match s with
  | EmptyString => 0
  | String c s => if utf8_cont c then char_length s else S (char_length s)
  end.

(** What a [VARCHAR(255)] column holds. *)
Definition varchar_ok (s : string) : Prop := char_length s ≤ 255 ∧ has_nul s = false.

Definition event_typed (r : event_row) : Prop :=
  varchar_ok (er_aggregate_type r) ∧ varchar_ok (er_event_type r) ∧
  int4_ok (er_version r) = true ∧ jsonb_ok (er_payload r) = true.
Definition snapshot_typed (r : snapshot_row) : Prop :=
  varchar_ok (sr_aggregate_type r) ∧
  int4_ok (sr_aggregate_version r) = true ∧ jsonb_ok (sr_payload r) = true.
Definition view_typed (v : view_row) : Prop :=
  varchar_ok (vr_name v) ∧ int4_ok (vr_price v) = true ∧ int4_ok (vr_version v) = true.

(** What the types of the columns keep true of them. *)
Record columns_wf (t : tables) : Prop := {
  col_events : Forall event_typed (event_store t);
  col_outbox : Forall (λ o, event_typed (or_event o)) (outbox t);
  col_snapshots : Forall snapshot_typed (snapshots t);
  col_processed k : k ∈ processed_events t → varchar_ok k.2;
  col_views : map_Forall (λ _ v, view_typed v) (product_views t);
}.

(** What a statement adds to and never takes away. *)
Record grows (t t' : tables) : Prop := {
  grows_store : event_store t `prefix_of` event_store t';
  grows_outbox : (or_event <$> outbox t) `prefix_of` (or_event <$> outbox t');
  grows_marks : processed_events t ⊆ processed_events t';
  grows_published i o : outbox t !! i = Some o →
    ∃ o', outbox t' !! i = Some o' ∧ (or_published o = true → or_published o' = true);
}.

#[export] Instance grows_preorder : PreOrder grows.
Proof.
  split.
  - intros t. split; eauto.
  - intros t1 t2 t3 [H1 H2 H3 H4] [K1 K2 K3 K4]. split; [by etrans|by etrans|set_solver|].
    intros i o (o2 & Ho2 & Hp2)%H4. destruct (K4 i o2 Ho2) as (o3 & Ho3 & Hp3). eauto.
Qed.

Section sql_theorems.
Context `{PgCodecSpec}.
Implicit Types (t : tables).

Lemma event_columns_Ok (r r' : event_row) :
  event_columns r = Ok r' →
  er_event_id r' = er_event_id r ∧ er_aggregate_id r' = er_aggregate_id r ∧
  er_version r' = er_version r ∧ er_payload r' = er_payload r ∧
  int4_ok (er_version r') = true.
Proof.
  unfold event_columns. destruct (varchar 255 (er_aggregate_type r)); [|done].
  destruct (varchar 255 (er_event_type r)); [|done].
  destruct (int4_ok (er_version r)) eqn:?; [|done].
  by destruct (jsonb_ok _); [intros [= <-]|].
Qed.

Lemma split_chars_ok n s : char_length (split_chars n s).1 ≤ n.
Proof.
  revert n. induction s as [|c s IH]; intros n; simpl; [lia|]. destruct (utf8_cont c) eqn:Hc.
  - specialize (IH n). destruct (split_chars n s) as [p q]. simpl in *. by rewrite Hc.
  - destruct n as [|n]; simpl; [lia|]. specialize (IH n).
    destruct (split_chars n s) as [p q]. simpl in *. rewrite Hc. lia.
Qed.

Lemma split_chars_nul n s : has_nul s = false → has_nul (split_chars n s).1 = false.
Proof.
  revert n. induction s as [|c s IH]; intros n; simpl; [done|].
  intros [Hc Hs]%orb_false_iff. destruct (utf8_cont c).
  - specialize (IH n Hs). destruct (split_chars n s) as [p q]. simpl in *. by rewrite Hc.
  - destruct n as [|n]; [done|]. specialize (IH n Hs).
    destruct (split_chars n s) as [p q]. simpl in *. by rewrite Hc.
Qed.

Lemma varchar_Ok s p : varchar 255 s = Ok p → varchar_ok p.
Proof.
  unfold varchar, text_ok. destruct (valid_utf8 s); [|done]. simpl.
  destruct (has_nul s) eqn:Hn; [done|]. simpl.
  pose proof (split_chars_ok 255 s). pose proof (split_chars_nul 255 s Hn).
  destruct (split_chars 255 s) as [p' q]. destruct (all_spaces q); [|done]. by intros [= <-].
Qed.

Lemma event_columns_typed (r r' : event_row) : event_columns r = Ok r' → event_typed r'.
Proof.
  unfold event_columns, event_typed.
  destruct (varchar 255 (er_aggregate_type r)) eqn:Ha; [|done].
  destruct (varchar 255 (er_event_type r)) eqn:He; [|done].
  destruct (int4_ok (er_version r)) eqn:?; [|done]. destruct (jsonb_ok _) eqn:?; [|done].
  intros [= <-]. simpl. split_and!; eauto using varchar_Ok.
Qed.

Lemma snapshot_columns_typed (r r' : snapshot_row) : snapshot_columns r = Ok r' → snapshot_typed r'.
Proof.
  unfold snapshot_columns, snapshot_typed.
  destruct (varchar 255 (sr_aggregate_type r)) eqn:Ha; [|done].
  destruct (int4_ok _) eqn:?; [|done]. destruct (jsonb_ok _) eqn:?; [|done].
  intros [= <-]. simpl. split_and!; eauto using varchar_Ok.
Qed.

Lemma existsb_false {A} (f : A → bool) l : existsb f l = false ↔ Forall (λ x, f x = false) l.
Proof.
  induction l as [|x l IH]; simpl; [done|].
  by rewrite orb_false_iff, IH, Forall_cons.
Qed.

Lemma NoDup_fmap_snoc {A B} (f : A → B) l x :
  NoDup (f <$> l) → Forall (λ y, f x ≠ f y) l → NoDup (f <$> l ++ [x]).
Proof.
  intros Hl Hx. rewrite fmap_app. apply NoDup_app. split_and!; [done| |apply NoDup_singleton].
  intros b (y & -> & Hy)%list_elem_of_fmap. rewrite Forall_forall in Hx.
  simpl. intros Hin%list_elem_of_singleton. by apply (Hx y).
Qed.

Lemma insert_event_Ok (r : event_row) t t' n :
  insert_event r t = Ok (t', n) →
  ∃ r', event_columns r = Ok r' ∧ n = 1%Z ∧ t' = set_event_store (event_store t ++ [r']) t ∧
    Forall (λ x, er_event_id r' ≠ er_event_id x ∧
                 (er_aggregate_id r', er_version r') ≠ (er_aggregate_id x, er_version x))
      (event_store t).
Proof.
  unfold insert_event. destruct (event_columns r) as [r'|]; [|done].
  destruct (existsb _ _) eqn:Hx; [done|]. intros [= <- <-]. eexists; split_and!; [done..|].
  apply existsb_false in Hx. eapply Forall_impl; [done|]. intros x.
  unfold event_conflict. by rewrite orb_false_iff, !bool_decide_eq_false.
Qed.

Lemma insert_outbox_Ok (r : event_row) t t' n :
  insert_outbox r t = Ok (t', n) →
  ∃ r', event_columns r = Ok r' ∧ n = 1%Z ∧
    t' = set_outbox (outbox t ++ [{| or_event := r'; or_published := false |}]) t ∧
    Forall (λ x, er_event_id r' ≠ er_event_id (or_event x)) (outbox t).
Proof.
  unfold insert_outbox. destruct (event_columns r) as [r'|]; [|done].
  destruct (existsb _ _) eqn:Hx; [done|]. intros [= <- <-]. eexists; split_and!; [done..|].
  apply existsb_false in Hx. eapply Forall_impl; [done|]. intros x.
  by rewrite bool_decide_eq_false.
Qed.

Lemma insert_snapshot_Ok (r : snapshot_row) t t' n :
  insert_snapshot r t = Ok (t', n) →
  ∃ r', snapshot_columns r = Ok r' ∧
    ((n = 0%Z ∧ t' = t) ∨
     (n = 1%Z ∧ t' = set_snapshots (snapshots t ++ [r']) t ∧
      Forall (λ x, (sr_aggregate_id r', sr_aggregate_version r') ≠
                   (sr_aggregate_id x, sr_aggregate_version x)) (snapshots t))).
Proof.
  unfold insert_snapshot. destruct (snapshot_columns r) as [r'|]; [|done].
  destruct (existsb _ _) eqn:Hx; intros [= <- <-]; eexists; (split; [done|]); [by left|right].
  split_and!; [done..|]. apply existsb_false in Hx. eapply Forall_impl; [done|].
  intros x. unfold snapshot_conflict. by rewrite bool_decide_eq_false.
Qed.

Lemma insert_processed_Ok eid sub t t' n :
  insert_processed eid sub t = Ok (t', n) →
  ∃ sub', varchar 255 sub = Ok sub' ∧ ((eid, sub') ∉ processed_events t) ∧
    t' = set_processed_events ({[(eid, sub')]} ∪ processed_events t) t.
Proof.
  unfold insert_processed. destruct (varchar 255 sub) as [s|]; [|done].
  case_decide; [done|]. intros [= <- <-]. eauto.
Qed.

Lemma update_published_ids ids t t' n :
  update_published ids t = Ok (t', n) →
  ((λ o, er_event_id (or_event o)) <$> outbox t') =
    ((λ o, er_event_id (or_event o)) <$> outbox t) ∧
  (or_event <$> outbox t') = (or_event <$> outbox t).
Proof.
  intros [= <- _]. simpl. rewrite <- !list_fmap_compose.
  split; apply list_fmap_ext; intros ???; simpl; by case_match.
Qed.

Lemma view_columns_Ok v c row :
  view_columns v c = Ok row →
  varchar 255 (vp_name v) = Ok (vr_name row) ∧ encode_int4_float (vp_price v) = Some (vr_price row) ∧
  vr_version row = vp_version v ∧ int4_ok (vr_price row) = true ∧ int4_ok (vr_version row) = true ∧
  vr_created_at row = encode_timestamptz c ∧
  vr_updated_at row = encode_timestamptz (vp_updated_at v).
Proof.
  unfold view_columns. destruct (varchar 255 (vp_name v)); [|done].
  destruct (encode_int4_float (vp_price v)) as [z|] eqn:Hz; [|done].
  destruct (int4_ok (vp_version v)) eqn:?; [|done]. intros [= <-].
  split_and!; eauto using encode_int4_float_range.
Qed.

Lemma upsert_view_Ok v t t' n :
  upsert_view v t = Ok (t', n) →
  ∃ row row', view_columns v (vp_created_at v) = Ok row ∧
    t' = set_product_views (<[vp_id v := row']> (product_views t)) t ∧
    vr_name row' = vr_name row ∧ vr_price row' = vr_price row ∧
    vr_version row' = vr_version row ∧ vr_updated_at row' = vr_updated_at row ∧
    vr_created_at row' = default (vr_created_at row) (vr_created_at <$> product_views t !! vp_id v).
Proof.
  unfold upsert_view. destruct (view_columns _ _) as [row|]; [|done].
  intros [= <- <-]. exists row. destruct (product_views t !! vp_id v); eexists; split_and!; done.
Qed.

Lemma update_view_Ok v t t' n :
  update_view v t = Ok (t', n) →
  (product_views t !! vp_id v = None ∧ t' = t ∧ n = 0%Z) ∨
  ∃ old row row', product_views t !! vp_id v = Some old ∧ n = 1%Z ∧
    view_columns v (vp_updated_at v) = Ok row ∧
    t' = set_product_views (<[vp_id v := row']> (product_views t)) t ∧
    vr_name row' = vr_name row ∧ vr_price row' = vr_price row ∧
    vr_version row' = vr_version row ∧ vr_updated_at row' = vr_updated_at row ∧
    vr_created_at row' = vr_created_at old.
Proof.
  unfold update_view. destruct (_ && _); [|done].
  destruct (product_views t !! vp_id v) as [old|] eqn:?; [|intros [= <- <-]; by left].
  destruct (view_columns _ _) as [row|]; [|done].
  intros [= <- <-]. right. exists old, row. eexists; split_and!; done.
Qed.

Lemma sql_exec_keeps_wf (s : stmt) (t t' : tables) (n : Z) :
  sql_exec s t = Ok (t', n) → tables_wf t → tables_wf t'.
Proof.
  intros Hs [H1 H2 H3 H4 H5 H6]. destruct s; simpl in Hs.
  - apply insert_event_Ok in Hs as (r' & (_ & _ & _ & _ & Hv)%event_columns_Ok & _ & -> & Hx).
    split; simpl; try done.
    + apply NoDup_fmap_snoc; [done|]. eapply Forall_impl; [exact Hx|]. intros ? [??]; assumption.
    + apply NoDup_fmap_snoc; [done|]. eapply Forall_impl; [exact Hx|]. intros ? [??]; assumption.
    + apply Forall_app_2; [done|]. by apply Forall_singleton.
  - apply insert_outbox_Ok in Hs as (r' & _ & _ & -> & Hx). split; simpl; try done.
    by apply NoDup_fmap_snoc, Hx.
  - apply insert_snapshot_Ok in Hs as (r' & _ & [[_ ->]|(_ & -> & Hx)]); [done|].
    split; simpl; try done. by apply NoDup_fmap_snoc.
  - apply insert_processed_Ok in Hs as (? & _ & _ & ->). by split.
  - pose proof (update_published_ids _ _ _ _ Hs) as [Hi _]. injection Hs as <- _.
    split; simpl; try done. simpl in Hi. by rewrite Hi.
  - apply upsert_view_Ok in Hs as (row & row' & (_ & _ & _ & ? & ? & _)%view_columns_Ok & ->
      & _ & Hp & Hv & _). split; simpl; try done.
    apply map_Forall_insert_2; [|done]. by rewrite Hp, Hv.
  - apply update_view_Ok in Hs as [(_ & -> & _)|(old & row & row' & _ & _ &
      (_ & _ & _ & ? & ? & _)%view_columns_Ok & -> & _ & Hp & Hv & _)]; [done|].
    split; simpl; try done. apply map_Forall_insert_2; [|done]. by rewrite Hp, Hv.
Qed.

Lemma view_columns_typed v c row : view_columns v c = Ok row → view_typed row.
Proof. intros (Hn%varchar_Ok & _ & _ & Hp & Hv & _)%view_columns_Ok. by split_and!. Qed.

Lemma sql_exec_keeps_columns (s : stmt) (t t' : tables) (n : Z) :
  sql_exec s t = Ok (t', n) → columns_wf t → columns_wf t'.
Proof.
  intros Hs [H1 H2 H3 H4 H5]. destruct s; simpl in Hs.
  - apply insert_event_Ok in Hs as (r' & Hr%event_columns_typed & _ & -> & _).
    split; simpl; try done. apply Forall_app_2; [done|]. by apply Forall_singleton.
  - apply insert_outbox_Ok in Hs as (r' & Hr%event_columns_typed & _ & -> & _).
    split; simpl; try done. apply Forall_app_2; [done|]. by apply Forall_singleton.
  - apply insert_snapshot_Ok in Hs as (r' & Hr%snapshot_columns_typed & [[_ ->]|(_ & -> & _)]); [done|].
    split; simpl; try done. apply Forall_app_2; [done|]. by apply Forall_singleton.
  - apply insert_processed_Ok in Hs as (sub & Hsub%varchar_Ok & _ & ->). split; simpl; try done.
    intros k [->%elem_of_singleton|Hk]%elem_of_union; [done|by apply H4].
  - injection Hs as <- _. split; simpl; try done. apply Forall_fmap. eapply Forall_impl; [exact H2|].
    intros o Ho. simpl. by destruct (marked _ o).
  - apply upsert_view_Ok in Hs as (row & row' & (Hn & Hp & Hv)%view_columns_typed & -> & En & Ep & Ev & _).
    split; simpl; try done. apply map_Forall_insert_2; [|done]. unfold view_typed. by rewrite En, Ep, Ev.
  - apply update_view_Ok in Hs as [(_ & -> & _)|(old & row & row' & _ & _ &
      (Hn & Hp & Hv)%view_columns_typed & -> & En & Ep & Ev & _)]; [done|].
    split; simpl; try done. apply map_Forall_insert_2; [|done]. unfold view_typed. by rewrite En, Ep, Ev.
Qed.

Lemma sql_exec_grows (s : stmt) (t t' : tables) (n : Z) :
  sql_exec s t = Ok (t', n) → grows t t'.
Proof.
  intros Hs. destruct s; simpl in Hs.
  - apply insert_event_Ok in Hs as (r' & _ & _ & -> & _). simpl.
    split; [by eexists|done|done|eauto].
  - apply insert_outbox_Ok in Hs as (r' & _ & _ & -> & _). simpl.
    split; simpl; [done| |done|].
    + rewrite fmap_app. by eexists.
    + intros i o Ho. exists o. split; [|done]. by apply lookup_app_l_Some.
  - apply insert_snapshot_Ok in Hs as (r' & _ & [[_ ->]|(_ & -> & _)]); simpl;
      split; simpl; eauto.
  - apply insert_processed_Ok in Hs as (? & _ & _ & ->). simpl.
    split; simpl; [done|done|set_solver|eauto].
  - pose proof (update_published_ids _ _ _ _ Hs) as [_ Hi]. injection Hs as <- _.
    simpl in *. split; simpl; [done|by rewrite Hi|done|]. intros i o Ho.
    rewrite list_lookup_fmap, Ho. simpl. eexists; split; [done|]. by case_match.
  - apply upsert_view_Ok in Hs as (row & row' & _ & -> & _). simpl. split; simpl; eauto.
  - apply update_view_Ok in Hs as [(_ & -> & _)|(? & ? & ? & _ & _ & _ & -> & _)]; simpl;
      split; simpl; eauto.
Qed.

Lemma replay_app ss1 ss2 t :
  replay (ss1 ++ ss2) t =
  match replay ss1 t with Ok t' => replay ss2 t' | Err e => Err e end.
Proof.
  revert t. induction ss1 as [|s ss1 IH]; intros t; simpl; [done|].
  destruct (sql_exec s t) as [[t1 n]|]; [apply IH|done].
Qed.

Lemma replay_snoc ss s t t1 t2 n :
  replay ss t = Ok t1 → sql_exec s t1 = Ok (t2, n) → replay (ss ++ [s]) t = Ok t2.
Proof. intros H1 H2. rewrite replay_app, H1. simpl. by rewrite H2. Qed.

Lemma replay_wf ss t t' : replay ss t = Ok t' → tables_wf t → tables_wf t'.
Proof.
  revert t. induction ss as [|s ss IH]; intros t; simpl; [by intros [= ->]|].
  destruct (sql_exec s t) as [[t1 n]|] eqn:Hs; [|done].
  intros Hr Hwf. eapply IH; [done|]. eapply sql_exec_keeps_wf; eauto.
Qed.

Lemma replay_columns ss t t' : replay ss t = Ok t' → columns_wf t → columns_wf t'.
Proof.
  revert t. induction ss as [|s ss IH]; intros t; simpl; [by intros [= ->]|].
  destruct (sql_exec s t) as [[t1 n]|] eqn:Hs; [|done].
  intros Hr Hwf. eapply IH; [done|]. by eapply sql_exec_keeps_columns.
Qed.

Lemma replay_grows ss t t' : replay ss t = Ok t' → grows t t'.
Proof.
  revert t. induction ss as [|s ss IH]; intros t; simpl; [by intros [= ->]|].
  destruct (sql_exec s t) as [[t1 n]|] eqn:Hs; [|done]. intros Hr%IH.
  etrans; [by eapply sql_exec_grows|done].
Qed.

(** C37: the schema is an invariant.  Every sequence of statements of the program that
    succeeds keeps its constraints (event ids, (aggregate, version) pairs, outbox ids and
    snapshot versions are unique), and the types of its columns: in all five tables the
    VARCHAR(255) columns hold at most 255 characters and no NUL, the INT columns are in
    the range of 32 bits, and the JSONB columns hold no NUL. *)
Theorem schema_invariant (ss : list stmt) (t t' : tables) :
  replay ss t = Ok t' →
  (tables_wf t → tables_wf t') ∧ (columns_wf t → columns_wf t').
Proof. intros Hr. split; [by eapply replay_wf|by eapply replay_columns]. Qed.

(** C38: the event store is append-only ("events are appended here and are never
    changed"): every sequence of statements of the program that succeeds keeps the rows
    of [event_store] and the event columns of [outbox] as a prefix, never deletes a
    processed mark, and never turns [published] back off. *)
Theorem sql_exec_append_only (ss : list stmt) (t t' : tables) :
  replay ss t = Ok t' →
  event_store t `prefix_of` event_store t' ∧
  (or_event <$> outbox t) `prefix_of` (or_event <$> outbox t') ∧
  processed_events t ⊆ processed_events t' ∧
  (∀ i o, outbox t !! i = Some o →
     ∃ o', outbox t' !! i = Some o' ∧ (or_published o = true → or_published o' = true)).
Proof. by intros [? ? ? ?]%replay_grows. Qed.
End sql_theorems.

Lemma empty_tables_wf : tables_wf empty_tables.
Proof. split; simpl; (apply NoDup_nil_2 || apply Forall_nil_2 || apply map_Forall_empty). Qed.

Lemma empty_columns_wf : columns_wf empty_tables.
Proof. split; simpl; [constructor..|by intros k ?%elem_of_empty|apply map_Forall_empty]. Qed.
