(* ===== verification/Pgx.v ===== *)
(** * Pgx: the database driver as an interface, and [postgres.DB]

    pgx and PostgreSQL are outside the repository.  [Pgx] lists the driver calls
    the code makes; [PgxSpec] states what is documented about them and the code
    relies on, for a server no other session changes between two calls:
    statements of a transaction take effect together at a successful commit, an
    error from the server aborts the transaction, a transaction that failed
    cannot be committed, and a call whose connection breaks may report an error
    although the server did the work.  [PgxReliable] adds that nothing fails for
    reasons outside the program. *)
From S2P Require Import Prelude GoJson Sql.

(** What successive [br.Exec()] calls return, and what [br.Close()] returns. *)
Record batch_results := {
  br_results : list (res Z);
  br_close : option error;
}.

Class Pgx (W : Type) := {
  Tx : Type;
  Pool_Begin : M W (res Tx);
  Tx_Commit : Tx → M W (option error);
  Tx_Rollback : Tx → M W (option error);
  Tx_Exec : Tx → stmt → M W (res Z);
  Tx_SendBatch : Tx → list stmt → M W batch_results;
  Tx_Query : Tx → ∀ {A}, query A → M W (res (list A * option error));
  Pool_Exec : stmt → M W (res Z);
  Pool_Query : ∀ {A}, query A → M W (res (list A * option error));
  Pool_QueryRow : ∀ {A}, query A → M W (res A);
}.

(** The context: the value stored under [txKey{}], if any. *)
Record context `{Pgx W} := { ctx_tx : option Tx }.
Arguments context W {_}.

Definition context_Background `{Pgx W} : context W := {| ctx_tx := None |}.
Definition context_WithTx `{Pgx W} (ctx : context W) (tx : Tx) : context W :=
  {| ctx_tx := Some tx |}.

(** A transaction as the server sees it: the statements executed so far, to be
    applied at commit; or failed; or over. *)
Inductive txstate :=
  | TxActive (log : list stmt)
  | TxAborted
  | TxDone.

(** ** infra/postgres/db.go *)

Section db.
Context `{Pgx W}.

(** [DB.WithTransaction].  The deferred [tx.Rollback] runs last in every case. *)
Definition WithTransaction (ctx : context W) (fn : context W → M W (option error)) :
    M W (option error) :=
  r ← Pool_Begin;
  match r with
  | Err err => mret (Some (Wrapf "failed to begin transaction" err))
  | Ok tx =>
      let txCtx := context_WithTx ctx tx in
      err ← fn txCtx;
      err ← match err with
            | Some err => mret (Some err)
            | None => Tx_Commit tx
            end;
      _ ← Tx_Rollback tx;
      mret err
  end.
End db.

(** ** The loop over a batch's results, as both stores write it *)

(** Reading [n] results of a batch, then closing it; [on_error] is what the loop
    returns for a failed statement. *)
Fixpoint batch_exec (on_error : error → error) (n : nat) (rs : list (res Z))
    (close : option error) : option error :=
  match n with
  | O => close
  | S n =>
      match rs with
      | Ok _ :: rs => batch_exec on_error n rs close
      | Err err :: _ => Some (on_error err)
      | [] => Some (on_error (ErrorString "no result"))
      end
  end.

(** ** What the program relies on *)

Class PgxSpec (W R : Type) `{PgCodec} `{Pgx W} := {
  (** The committed tables; the state of each transaction; the outbox rows that
      are locked against it; and the part of the world that is not the database. *)
  committed : W → tables;
  tx_state : W → Tx → txstate;
  locked : W → Tx → list uuid;
  rest : W → R;

  Pool_Begin_spec w w' r :
    Pool_Begin w = (w', r) →
    committed w' = committed w ∧ rest w' = rest w ∧
    ∀ tx, r = Ok tx → tx_state w' tx = TxActive [];
  Tx_Commit_spec tx w w' r :
    Tx_Commit tx w = (w', r) →
    rest w' = rest w ∧
    match r with
    | None => ∃ log, tx_state w tx = TxActive log ∧ replay log (committed w) = Ok (committed w')
    | Some e =>
        committed w' = committed w ∨
        (errors_is e ErrTxCommitRollback = false ∧
         ∃ log, tx_state w tx = TxActive log ∧ replay log (committed w) = Ok (committed w'))
    end;
  Tx_Rollback_spec tx w w' r :
    Tx_Rollback tx w = (w', r) → committed w' = committed w ∧ rest w' = rest w;
  Tx_Exec_spec tx s w w' r :
    Tx_Exec tx s w = (w', r) →
    committed w' = committed w ∧ rest w' = rest w ∧
    match r with
    | Ok n => ∃ log t t', tx_state w tx = TxActive log ∧ replay log (committed w) = Ok t ∧
                sql_exec s t = Ok (t', n) ∧ tx_state w' tx = TxActive (log ++ [s])
    | Err e =>
        (tx_state w' tx = TxAborted ∨ tx_state w' tx = tx_state w tx) ∧
        (errors_as_pg e = Some unique_violation →
         tx_state w' tx = TxAborted ∧
         ∃ log t, tx_state w tx = TxActive log ∧ replay log (committed w) = Ok t ∧
                  sql_exec s t = Err (PgError unique_violation))
    end;
  Tx_SendBatch_spec tx ss w w' br :
    Tx_SendBatch tx ss w = (w', br) →
    committed w' = committed w ∧ rest w' = rest w ∧
    (ss ≠ [] →
     (∃ log t ns, tx_state w tx = TxActive log ∧ replay (log ++ ss) (committed w) = Ok t ∧
        br_results br = Ok <$> ns ∧ length ns = length ss ∧
        (tx_state w' tx = TxActive (log ++ ss) ∨
         (br_close br ≠ None ∧ tx_state w' tx = TxAborted))) ∨
     (∃ k e, k < length ss ∧ br_results br !! k = Some (Err e) ∧
        (∀ i, i < k → ∃ n, br_results br !! i = Some (Ok n)) ∧
        (tx_state w' tx = TxAborted ∨ tx_state w' tx = tx_state w tx) ∧
        (errors_as_pg e = Some unique_violation →
         ∃ log t s, tx_state w tx = TxActive log ∧
           replay (log ++ take k ss) (committed w) = Ok t ∧ ss !! k = Some s ∧
           sql_exec s t = Err (PgError unique_violation))));
  Tx_Query_spec tx {A} (q : query A) w w' r :
    Tx_Query tx q w = (w', r) →
    committed w' = committed w ∧ rest w' = rest w ∧
    match r with
    | Ok (rows, None) => ∃ log t, tx_state w tx = TxActive log ∧ replay log (committed w) = Ok t ∧
                   answers q (locked w tx) t rows ∧ tx_state w' tx = tx_state w tx
    | Ok (_, Some _) | Err _ =>
        tx_state w' tx = TxAborted ∨ tx_state w' tx = tx_state w tx
    end;
  Pool_Exec_spec s w w' r :
    Pool_Exec s w = (w', r) →
    rest w' = rest w ∧ (∀ tx, tx_state w' tx = tx_state w tx) ∧
    match r with
    | Ok n => sql_exec s (committed w) = Ok (committed w', n)
    | Err e => committed w' = committed w ∨
               (errors_as_pg e = None ∧ ∃ n, sql_exec s (committed w) = Ok (committed w', n))
    end;
  Pool_Query_spec {A} (q : query A) w w' r :
    Pool_Query q w = (w', r) →
    committed w' = committed w ∧ rest w' = rest w ∧ (∀ tx, tx_state w' tx = tx_state w tx) ∧
    ∀ rows, r = Ok (rows, None) → answers q [] (committed w) rows;
  Pool_QueryRow_spec {A} (q : query A) w w' r :
    Pool_QueryRow q w = (w', r) →
    committed w' = committed w ∧ rest w' = rest w ∧ (∀ tx, tx_state w' tx = tx_state w tx) ∧
    match r with
    | Ok a => ∃ rows, answers q [] (committed w) (a :: rows)
    | Err e => errors_is e ErrNoRows = true → answers q [] (committed w) []
    end;
}.

(** A query PostgreSQL evaluates: LIMIT must not be negative. *)
Definition query_ok {A} (q : query A) : bool :=
  match q with SelectUnpublished limit => (0 <=? limit)%Z | _ => true end.

(** No failure comes from outside: a call fails only as the statement itself does. *)
Class PgxReliable (W R : Type) `{PgxSpec W R} : Prop := {
  Pool_Begin_ok w : ∃ w' tx, Pool_Begin w = (w', Ok tx);
  Tx_Commit_ok tx log t w :
    tx_state w tx = TxActive log → replay log (committed w) = Ok t →
    ∃ w', Tx_Commit tx w = (w', None);
  Tx_Exec_ok tx s log t w :
    tx_state w tx = TxActive log → replay log (committed w) = Ok t →
    ∃ w' r, Tx_Exec tx s w = (w', r) ∧
      match sql_exec s t with
      | Ok (_, n) => r = Ok n
      | Err e => r = Err e
      end;
  Tx_SendBatch_ok tx ss log t t' w :
    tx_state w tx = TxActive log → replay log (committed w) = Ok t → replay ss t = Ok t' →
    ∃ w' ns, Tx_SendBatch tx ss w = (w', {| br_results := Ok <$> ns; br_close := None |});
  Tx_SendBatch_fails tx ss log t e w :
    tx_state w tx = TxActive log → replay log (committed w) = Ok t → replay ss t = Err e →
    ∃ w' br k, Tx_SendBatch tx ss w = (w', br) ∧ br_results br !! k = Some (Err e) ∧
      ∀ i, i < k → ∃ n, br_results br !! i = Some (Ok n);
  Tx_Query_ok tx {A} (q : query A) log t w :
    query_ok q = true → tx_state w tx = TxActive log → replay log (committed w) = Ok t →
    ∃ w' rows, Tx_Query tx q w = (w', Ok (rows, None));
  Pool_Exec_ok s w :
    ∃ w' r, Pool_Exec s w = (w', r) ∧
      match sql_exec s (committed w) with
      | Ok (_, n) => r = Ok n
      | Err e => r = Err e
      end;
  Pool_Query_ok {A} (q : query A) w : query_ok q = true → ∃ w' rows, Pool_Query q w = (w', Ok (rows, None));
  Pool_QueryRow_ok {A} (q : query A) w :
    query_ok q = true →
    ∃ w' r, Pool_QueryRow q w = (w', r) ∧
      match r with Ok _ => True | Err e => e = Sentinel ErrNoRows end;
}.

(** ** Rules *)

(** [active w tx t]: the transaction runs and its own statements have led to [t]. *)
Definition active `{PgxSpec W R} (w : W) (tx : Tx) (t : tables) : Prop :=
  ∃ log, tx_state w tx = TxActive log ∧ replay log (committed w) = Ok t.

(** [still w w']: the database's committed state and the rest of the world are as
    they were. *)
Definition still `{PgxSpec W R} (w w' : W) : Prop :=
  committed w' = committed w ∧ rest w' = rest w.

Section pgx_rules.
Context `{PgxSpec W R}.
Implicit Types (w : W).

#[export] Instance still_equivalence : Equivalence still.
Proof.
  split; unfold still; [done|by intros ?? [-> ->]|]. intros ??? [-> ->] [-> ->]. done.
Qed.

#[export] Instance committed_proper : Proper (still ==> eq) committed.
Proof. by intros ?? []. Qed.
#[export] Instance rest_proper : Proper (still ==> eq) rest.
Proof. by intros ?? []. Qed.

Lemma still_committed w w' : still w w' → committed w' = committed w.
Proof. by intros []. Qed.

Lemma still_rest w w' : still w w' → rest w' = rest w.
Proof. by intros []. Qed.

(** How a transaction ends: everything it did is visible, or nothing is. *)
Definition committed_or_not (w : W) (t : tables) (w' : W) : Prop :=
  rest w' = rest w ∧ (committed w' = committed w ∨ committed w' = t).

Lemma wp_Begin (Q : res Tx → W → Prop) w :
  (∀ w' e, still w w' → Q (Err e) w') →
  (∀ w' tx, still w w' → active w' tx (committed w) → tx_state w' tx = TxActive [] →
            Q (Ok tx) w') →
  wp Pool_Begin Q w.
Proof.
  intros He Ho. apply wp_intro. intros w' r (Hc & Hr & Ht)%Pool_Begin_spec.
  destruct r as [tx|e]; [|by apply He].
  apply Ho; [done| |by apply Ht].
  exists []. split; [by apply Ht|]. by rewrite Hc.
Qed.

(** [WithTransaction], from what the function does in the context it is given:
    on an error nothing more becomes visible; otherwise the commit makes the
    transaction's statements visible, or reports an error after doing so, or
    fails; the last is the only possibility for a transaction that has failed. *)
Lemma wp_WithTransaction ctx fn (Q : option error → W → Prop) w :
  (∀ w1 e, still w w1 → Q (Some e) w1) →
  (∀ w1 tx, still w w1 → active w1 tx (committed w) → tx_state w1 tx = TxActive [] →
    wp (fn (context_WithTx ctx tx)) (λ r w2,
      match r with
      | Some e => ∀ w3, still w2 w3 → Q (Some e) w3
      | None =>
          (∀ w3 t, active w2 tx t → committed w3 = t → rest w3 = rest w2 →
                   Q None w3 ∧ ∀ e, Q (Some e) w3) ∧
          (∀ w3 e, still w2 w3 → Q (Some e) w3)
      end) w1) →
  wp (WithTransaction ctx fn) Q w.
Proof.
  intros He Hf. unfold WithTransaction. apply wp_bind, wp_Begin; [intros w1 e Hs; by apply He|].
  intros w1 tx Hs Ha Hn. apply wp_bind. eapply wp_mono; [by apply Hf|].
  intros [e|] w2 Hq; apply wp_bind.
  - apply wp_ret, wp_bind, wp_intro. intros w3 ? Hrb%Tx_Rollback_spec. by apply wp_ret, Hq.
  - apply wp_intro. intros w3 r [Hr Hc]%Tx_Commit_spec. destruct Hq as [Hq1 Hq2].
    apply wp_bind, wp_intro. intros w4 ? [Hc4 Hr4]%Tx_Rollback_spec. apply wp_ret.
    destruct r as [e|].
    + destruct Hc as [Hc|(_ & log & Hl & Ht)].
      * apply Hq2. split; congruence.
      * eapply Hq1; [by eexists|done|congruence].
    + destruct Hc as (log & Hl & Ht). eapply Hq1; [by eexists|done|congruence].
Qed.

Lemma wp_Exec tx s (Q : res Z → W → Prop) w :
  (∀ w' n t t', still w w' → active w tx t → sql_exec s t = Ok (t', n) → active w' tx t' →
    Q (Ok n) w') →
  (∀ w' e, still w w' →
    (errors_as_pg e = Some unique_violation →
      (∀ t, ¬ active w' tx t) ∧ ∃ t, active w tx t ∧ sql_exec s t = Err (PgError unique_violation)) →
    (∀ t, active w' tx t → active w tx t) →
    Q (Err e) w') →
  wp (Tx_Exec tx s) Q w.
Proof.
  intros Ho He. apply wp_intro. intros w' r (Hc & Hr & Hx)%Tx_Exec_spec.
  destruct r as [n|e].
  - destruct Hx as (log & t & t' & Hl & Ht & Hs & Hl'). eapply Ho; [done|by exists log|done|].
    exists (log ++ [s]). split; [done|]. rewrite Hc. by eapply replay_snoc.
  - destruct Hx as [Hst Hu]. apply He; [done| |].
    + intros (Ha & log & t & Hl & Ht & Hs)%Hu. split; [|by eexists; split; [exists log|]].
      intros t' (log' & Hl' & _). congruence.
    + intros t (log & Hl & Ht). destruct Hst as [?|Hst]; [congruence|].
      exists log. by rewrite <- Hst, <- Hc.
Qed.

Lemma wp_Pool_Exec s (Q : res Z → W → Prop) w :
  (∀ w' n, rest w' = rest w → (∀ tx, tx_state w' tx = tx_state w tx) →
    sql_exec s (committed w) = Ok (committed w', n) → Q (Ok n) w') →
  (∀ w' e, rest w' = rest w → (∀ tx, tx_state w' tx = tx_state w tx) →
    (committed w' = committed w ∨ ∃ n, sql_exec s (committed w) = Ok (committed w', n)) →
    Q (Err e) w') →
  wp (Pool_Exec s) Q w.
Proof.
  intros Ho He. apply wp_intro. intros w' r (Hr & Ht & Hx)%Pool_Exec_spec.
  destruct r as [n|e]; [by eapply Ho|]. apply He; [done..|].
  destruct Hx as [?|[_ ?]]; auto.
Qed.

Lemma wp_Pool_QueryRow {A} (q : query A) (Q : res A → W → Prop) w :
  (∀ w' a rows, still w w' → (∀ tx, tx_state w' tx = tx_state w tx) →
     answers q [] (committed w) (a :: rows) → Q (Ok a) w') →
  (∀ w' e, still w w' → (∀ tx, tx_state w' tx = tx_state w tx) →
     (errors_is e ErrNoRows = true → answers q [] (committed w) []) → Q (Err e) w') →
  wp (Pool_QueryRow q) Q w.
Proof.
  intros Ho He. apply wp_intro. intros w' r (Hc & Hr & Ht & Hx)%Pool_QueryRow_spec.
  destruct r as [a|e]; [destruct Hx as [rows Hx]; by eapply Ho|by apply He].
Qed.

Lemma wp_Pool_Query {A} (q : query A) (Q : res (list A * option error) → W → Prop) w :
  (∀ w' rows, still w w' → (∀ tx, tx_state w' tx = tx_state w tx) →
     answers q [] (committed w) rows → Q (Ok (rows, None)) w') →
  (∀ w' r, still w w' → (∀ tx, tx_state w' tx = tx_state w tx) →
     (∀ rows, r ≠ Ok (rows, None)) → Q r w') →
  wp (Pool_Query q) Q w.
Proof.
  intros Ho He. apply wp_intro. intros w' r (Hc & Hr & Ht & Hx)%Pool_Query_spec.
  destruct r as [[rows [e|]]|e].
  - by apply He.
  - apply Ho; [done..|]. by apply Hx.
  - by apply He.
Qed.

Lemma wp_Rollback tx (Q : option error → W → Prop) w :
  (∀ w' r, still w w' → Q r w') → wp (Tx_Rollback tx) Q w.
Proof. intros HQ. apply wp_intro. intros w' r Hs%Tx_Rollback_spec. by apply HQ. Qed.

Lemma wp_Tx_Query tx {A} (q : query A) (Q : res (list A * option error) → W → Prop) w :
  (∀ w' rows t, still w w' → active w tx t → answers q (locked w tx) t rows → active w' tx t →
     Q (Ok (rows, None)) w') →
  (∀ w' rows e, still w w' → Q (Ok (rows, Some e)) w') →
  (∀ w' e, still w w' → Q (Err e) w') →
  wp (Tx_Query tx q) Q w.
Proof.
  intros Ho Hre He. apply wp_intro. intros w' r (Hc & Hr & Hx)%Tx_Query_spec.
  destruct r as [[rows [e|]]|e]; [by apply Hre| |by apply He]. destruct Hx as (log & t & Hl & Ht & Ha & Hl').
  apply (Ho w' rows t); [done|by exists log|done|]. exists log. by rewrite Hl', Hc.
Qed.

Lemma active_fun w tx t t' : active w tx t → active w tx t' → t = t'.
Proof. intros (l & Hl & Ht) (l' & Hl' & Ht'). congruence. Qed.

(** Committing a running transaction: its tables become visible, whatever is
    returned, or an error is returned and nothing does. *)
Lemma wp_Commit tx t (Q : option error → W → Prop) w :
  active w tx t →
  (∀ w' r, rest w' = rest w → committed w' = t → Q r w') →
  (∀ w' e, still w w' → Q (Some e) w') →
  wp (Tx_Commit tx) Q w.
Proof.
  intros Ha Ho He. apply wp_intro. intros w' r [Hr Hc]%Tx_Commit_spec.
  assert (∀ log, tx_state w tx = TxActive log → replay log (committed w) = Ok (committed w') →
    committed w' = t) as Hdone.
  { intros log Hl Ht. eapply active_fun; [|exact Ha]. by exists log. }
  destruct r as [e|].
  - destruct Hc as [Hc|(_ & log & Hl & Ht)]; [by apply He|]. apply Ho; [done|eauto].
  - destruct Hc as (log & Hl & Ht). apply Ho; [done|eauto].
Qed.

Lemma active_still w w' tx t :
  committed w' = committed w → tx_state w' tx = tx_state w tx → active w tx t → active w' tx t.
Proof. intros Hc Ht (l & Hl & Hr). exists l. by rewrite Ht, Hc. Qed.

(** Reading a batch's results as the stores do: no error means that every
    statement took effect; a unique violation is reported only for a statement
    that has one. *)
Lemma batch_exec_all on_error n (ns : list Z) close :
  length ns = n → batch_exec on_error n (Ok <$> ns) close = close.
Proof. revert n. by induction ns; intros [|n] [=]; simpl; auto. Qed.

Lemma batch_exec_fails on_error n k e (rs : list (res Z)) close :
  k < n → rs !! k = Some (Err e) → (∀ i, i < k → ∃ z, rs !! i = Some (Ok z)) →
  batch_exec on_error n rs close = Some (on_error e).
Proof.
  revert n rs. induction k as [|k IH]; intros [|n] rs Hk He Hi; try lia.
  - destruct rs; simplify_eq/=. done.
  - destruct (Hi 0 ltac:(lia)) as [z Hz]. destruct rs as [|r rs]; simplify_eq/=.
    apply IH; [lia|done|]. intros i ?. apply (Hi (S i)). lia.
Qed.

Lemma wp_batch tx ss on_error (Q : option error → W → Prop) w :
  ss ≠ [] →
  (∀ w' t t', still w w' → active w tx t → replay ss t = Ok t' → active w' tx t' → Q None w') →
  (∀ w' e, still w w' → Q (Some e) w') →
  (∀ w' e, still w w' →
     (errors_as_pg e = Some unique_violation →
      ∃ t k t1 s, active w tx t ∧ replay (take k ss) t = Ok t1 ∧ ss !! k = Some s ∧
        sql_exec s t1 = Err (PgError unique_violation)) →
     Q (Some (on_error e)) w') →
  wp (br ← Tx_SendBatch tx ss;
      mret (batch_exec on_error (length ss) (br_results br) (br_close br))) Q w.
Proof.
  intros Hne Ho Hc He. apply wp_bind, wp_intro.
  intros w' br (Hcm & Hr & Hb)%Tx_SendBatch_spec. apply wp_ret.
  destruct (Hb Hne) as [(log & t & ns & Hl & Ht & -> & Hn & Hl')|
                        (k & e & Hk & Hrs & Hi & _ & Hu)].
  - rewrite (batch_exec_all _ _ _ _ Hn). destruct (br_close br) as [e|]; [by apply Hc|].
    destruct Hl' as [Hl'|[? _]]; [|done].
    pose proof Ht as Ht'. rewrite replay_app in Ht.
    destruct (replay log (committed w)) as [t0|] eqn:Ht0; [|done].
    apply (Ho w' t0 t); [done|by exists log|done|]. exists (log ++ ss). by rewrite Hcm.
  - rewrite (batch_exec_fails _ _ _ _ _ _ Hk Hrs Hi). apply He; [done|].
    intros (log & t1 & s & Hl & Ht & Hs & Hx)%Hu. rewrite replay_app in Ht.
    destruct (replay log (committed w)) as [t0|] eqn:Ht0; [|done].
    exists t0, k, t1, s. split_and!; [by exists log|done..].
Qed.
End pgx_rules.

(** ** Rules without outside failures *)

Section reliable_rules.
Context `{PgxReliable W R}.
Implicit Types (w : W).

Lemma wp_Exec_reliable tx s t (Q : res Z → W → Prop) w :
  active w tx t →
  (∀ w', still w w' →
     match sql_exec s t with
     | Ok (t', n) => active w' tx t' → Q (Ok n) w'
     | Err e => Q (Err e) w'
     end) →
  wp (Tx_Exec tx s) Q w.
Proof.
  intros (log & Hl & Ht) HQ. destruct (Tx_Exec_ok tx s log t w Hl Ht) as (w' & r & Hx & Hr).
  apply wp_intro. intros w1 r1 Hx1. rewrite Hx in Hx1. injection Hx1 as <- <-.
  apply Tx_Exec_spec in Hx as (Hc & Hrest & Hx). specialize (HQ w' (conj Hc Hrest)).
  destruct (sql_exec s t) as [[t' n]|e] eqn:Hs in HQ, Hr; subst r; [|done].
  destruct Hx as (log' & t1 & t2 & Hl' & Ht' & Hs' & Hl2). apply HQ.
  assert (log' = log) as -> by congruence. assert (t1 = t) as -> by congruence.
  assert (t2 = t') as -> by congruence.
  exists (log ++ [s]). split; [done|]. rewrite Hc. by eapply replay_snoc.
Qed.

Lemma wp_batch_reliable tx ss on_error t (Q : option error → W → Prop) w :
  ss ≠ [] → active w tx t →
  (∀ w', still w w' →
     match replay ss t with
     | Ok t' => active w' tx t' → Q None w'
     | Err e => Q (Some (on_error e)) w'
     end) →
  wp (br ← Tx_SendBatch tx ss;
      mret (batch_exec on_error (length ss) (br_results br) (br_close br))) Q w.
Proof.
  intros Hne (log & Hl & Ht) HQ. apply wp_bind, wp_intro. intros w' br Hx.
  pose proof Hx as (Hc & Hr & Hb)%Tx_SendBatch_spec. specialize (HQ w' (conj Hc Hr)).
  apply wp_ret. destruct (replay ss t) as [t'|e] eqn:Hs in HQ.
  - destruct (Tx_SendBatch_ok tx ss log t t' w Hl Ht Hs) as (w1 & ns & Hx1).
    rewrite Hx in Hx1. simplify_eq.
    destruct (Hb Hne) as [(log' & t1 & ns' & Hl' & Ht' & Hns & Hn & Hl2)|(k & e & Hk & Hrs & _)].
    + simpl in *. rewrite Hns, (batch_exec_all _ _ _ _ Hn). apply HQ.
      destruct Hl2 as [Hl2|[[] _]]; [|done].
      assert (log' = log) as -> by congruence. exists (log ++ ss).
      split; [done|]. by rewrite Hc, replay_app, Ht.
    + simpl in Hrs. rewrite list_lookup_fmap in Hrs. by destruct (ns !! k).
  - destruct (Tx_SendBatch_fails tx ss log t e w Hl Ht Hs) as (w1 & br1 & k & Hx1 & Hk & Hi).
    rewrite Hx in Hx1. simplify_eq.
    destruct (Hb Hne) as [(log' & t1 & ns' & Hl' & Ht' & Hns & Hn & Hl2)|(k' & e' & Hk' & Hrs & Hi' & _)].
    + rewrite Hns, list_lookup_fmap in Hk. by destruct (ns' !! k).
    + assert (k = k') as ->.
      { destruct (Nat.lt_total k k') as [Hlt|[->|Hlt]]; [|done|].
        - destruct (Hi' _ Hlt). congruence.
        - destruct (Hi _ Hlt). congruence. }
      by rewrite (batch_exec_fails _ _ _ _ _ _ Hk' Hk Hi).
Qed.

Lemma wp_Begin_reliable (Q : res Tx → W → Prop) w :
  (∀ w' tx, still w w' → active w' tx (committed w) → tx_state w' tx = TxActive [] →
     Q (Ok tx) w') → wp Pool_Begin Q w.
Proof.
  intros HQ. destruct (Pool_Begin_ok w) as (w' & tx & Hb). apply wp_intro.
  intros w1 r Hb1. rewrite Hb in Hb1. simplify_eq.
  apply Pool_Begin_spec in Hb as (Hc & Hr & Ht). apply HQ; [done| |by apply Ht].
  exists []. split; [by apply Ht|]. by rewrite Hc.
Qed.

Lemma wp_Tx_Query_reliable tx {A} (q : query A) t (Q : res (list A * option error) → W → Prop) w :
  query_ok q = true → active w tx t →
  (∀ w' rows, still w w' → answers q (locked w tx) t rows → active w' tx t →
     Q (Ok (rows, None)) w') →
  wp (Tx_Query tx q) Q w.
Proof.
  intros Hq Ha HQ. destruct Ha as (log & Hl & Ht) eqn:HA.
  destruct (Tx_Query_ok tx q log t w Hq Hl Ht) as (w1 & rows & Hx).
  apply wp_intro. intros w2 r Hx2. rewrite Hx in Hx2. simplify_eq.
  apply Tx_Query_spec in Hx as (Hc & Hr & log' & t' & Hl' & Ht' & Hans & Hs).
  assert (t' = t) as -> by congruence. apply HQ; [done..|]. exists log. by rewrite Hs, Hc.
Qed.

Lemma wp_Commit_reliable tx t (Q : option error → W → Prop) w :
  active w tx t → (∀ w', rest w' = rest w → committed w' = t → Q None w') →
  wp (Tx_Commit tx) Q w.
Proof.
  intros (log & Hl & Ht) HQ. destruct (Tx_Commit_ok tx log t w Hl Ht) as [w1 Hx].
  apply wp_intro. intros w2 r Hx2. rewrite Hx in Hx2. simplify_eq.
  apply Tx_Commit_spec in Hx as (Hr & log' & Hl' & Ht'). apply HQ; congruence.
Qed.

Lemma wp_WithTransaction_reliable ctx fn (Q : option error → W → Prop) w :
  (∀ w1 tx, still w w1 → active w1 tx (committed w) → tx_state w1 tx = TxActive [] →
    wp (fn (context_WithTx ctx tx)) (λ r w2,
      match r with
      | Some e => ∀ w3, still w2 w3 → Q (Some e) w3
      | None => ∃ t, active w2 tx t ∧
                  ∀ w3, committed w3 = t → rest w3 = rest w2 → Q None w3
      end) w1) →
  wp (WithTransaction ctx fn) Q w.
Proof.
  intros Hf. unfold WithTransaction. apply wp_bind, wp_Begin_reliable.
  intros w1 tx Hs1 Ha1 Hn1. apply wp_bind. eapply wp_mono; [by apply Hf|].
  intros [e|] w2 Hq; apply wp_bind.
  - apply wp_ret, wp_bind, wp_Rollback. intros w3 ? Hs3. by apply wp_ret, Hq.
  - destruct Hq as (t & Ha & Hq). eapply wp_Commit_reliable; [done|]. intros w3 Hr3 Hc3.
    apply wp_bind, wp_Rollback. intros w4 ? [Hc4 Hr4]. apply wp_ret, Hq; congruence.
Qed.

Lemma wp_Pool_QueryRow_reliable {A} (q : query A) (Q : res A → W → Prop) w :
  query_ok q = true →
  (∀ w' a rows, still w w' → (∀ tx, tx_state w' tx = tx_state w tx) →
     answers q [] (committed w) (a :: rows) → Q (Ok a) w') →
  (∀ w', still w w' → (∀ tx, tx_state w' tx = tx_state w tx) →
     answers q [] (committed w) [] → Q (Err (Sentinel ErrNoRows)) w') →
  wp (Pool_QueryRow q) Q w.
Proof.
  intros Hq Ho He. apply wp_intro. intros w' r Hx.
  destruct (Pool_QueryRow_ok q w Hq) as (w1 & r1 & Hx1 & Hr1). rewrite Hx in Hx1. simplify_eq.
  apply Pool_QueryRow_spec in Hx as (Hc & Hr & Ht & Hx).
  destruct r1 as [a|e]; [destruct Hx as [rows Hx]; by eapply Ho|subst e; by apply He, Hx].
Qed.

Lemma wp_Pool_Query_reliable {A} (q : query A) (Q : res (list A * option error) → W → Prop) w :
  query_ok q = true →
  (∀ w' rows, still w w' → (∀ tx, tx_state w' tx = tx_state w tx) →
     answers q [] (committed w) rows → Q (Ok (rows, None)) w') →
  wp (Pool_Query q) Q w.
Proof.
  intros Hq Ho. apply wp_intro. intros w' r Hx.
  destruct (Pool_Query_ok q w Hq) as (w1 & rows & Hx1). rewrite Hx in Hx1. simplify_eq.
  apply Pool_Query_spec in Hx as (Hc & Hr & Ht & Hx). apply Ho; [done..|]. by apply Hx.
Qed.

Lemma wp_Pool_Exec_reliable s (Q : res Z → W → Prop) w :
  (∀ w', rest w' = rest w → (∀ tx, tx_state w' tx = tx_state w tx) →
     match sql_exec s (committed w) with
     | Ok (t, n) => committed w' = t → Q (Ok n) w'
     | Err e => committed w' = committed w → Q (Err e) w'
     end) →
  wp (Pool_Exec s) Q w.
Proof.
  intros HQ. apply wp_intro. intros w' r Hx.
  destruct (Pool_Exec_ok s w) as (w1 & r1 & Hx1 & Hr1). rewrite Hx in Hx1. simplify_eq.
  apply Pool_Exec_spec in Hx as (Hr & Ht & Hx). specialize (HQ w1 Hr Ht).
  destruct (sql_exec s (committed w)) as [[t n]|e] eqn:Hs in HQ, Hr1; subst r1.
  - apply HQ. congruence.
  - destruct Hx as [Hx|(_ & n & Hx)]; [by apply HQ|congruence].
Qed.
End reliable_rules.
