(* ===== verification/PgStores.v ===== *)
(** * PgStores: infra/postgres

    The idempotency store, the outbox store and the event store over the driver
    interface of [Pgx], with what each guarantees about the committed tables. *)
From Stdlib Require Import Sorted.
From stdpp Require Import sorting.
From S2P Require Import Prelude GoJson EventSrc Sql Pgx.

(** ** infra/postgres/idempotency.go *)

Section idempotency.
Context `{Pgx W}.

Definition IsProcessed (ctx : context W) (eventID : uuid) (subscriberID : string) :
    M W (res bool) :=
  r ← Pool_QueryRow (SelectProcessed eventID subscriberID);
  match r with
  | Err err => mret (Err (Wrapf "failed to check for processed event" err))
  | Ok exists_ => mret (Ok exists_)
  end.

Definition MarkAsProcessed (ctx : context W) (eventID : uuid) (subscriberID : string) :
    M W (option error) :=
  match ctx_tx ctx with
  | None => mret (Some (ErrorString "MarkAsProcessed must be called within a transaction"))
  | Some tx =>
      r ← Tx_Exec tx (InsertProcessed eventID subscriberID);
      match r with
      | Err err =>
          if decide (errors_as_pg err = Some "23505") then mret None
          else mret (Some (Wrapf "failed to mark event as processed" err))
      | Ok _ => mret None
      end
  end.
End idempotency.

(** ** Batches *)

(** The parameters queued for an event: [json.Marshal] first, then the columns. *)
Definition event_params {E} `{Event E} (evt : E) : res event_row :=
  match event_Marshal evt with
  | Err err => Err err
  | Ok payload =>
      Ok {| er_event_id := EventID evt; er_aggregate_id := AggregateID evt;
            er_aggregate_type := AggregateType evt; er_event_type := EventType evt;
            er_payload := payload; er_version := Version evt; er_ts := Timestamp evt |}
  end.

Fixpoint queue_events {E} `{Event E} (ins : event_row → stmt) (events : list E) :
    res (list stmt) :=
  match events with
  | [] => Ok []
  | evt :: events =>
      match event_params evt with
      | Err err => Err err
      | Ok r => match queue_events ins events with
                | Err err => Err err
                | Ok b => Ok (ins r :: b)
                end
      end
  end.

(** ** infra/postgres/outbox.go *)

(** [pgx.RowToStructByPos[eventsrc.OutboxEvent]]; [pgx.CollectRows] returns the error of
    the rows if there is one. *)
Definition RowToOutboxEvent (r : event_row) : OutboxEvent :=
  {| oe_EventID := er_event_id r; oe_AggregateID := er_aggregate_id r;
     oe_AggregateType := er_aggregate_type r; oe_EventType := er_event_type r;
     oe_Payload := er_payload r; oe_Version := er_version r; oe_Ts := er_ts r |}.

Section outbox.
Context `{Pgx W}.

Definition fetchAndLockUnpublishedInTx (tx : Tx) (batchSize : Z) :
    M W (res (list OutboxEvent)) :=
  r ← Tx_Query tx (SelectUnpublished batchSize);
  match r with
  | Err err => mret (Err (Wrapf "failed to query outbox" err))
  | Ok (_, Some err) => mret (Err err)
  | Ok (rows, None) => mret (Ok (RowToOutboxEvent <$> rows))
  end.

Definition markAsPublishedInTx (tx : Tx) (events : list OutboxEvent) : M W (option error) :=
  let eventIDs := oe_EventID <$> events in
  r ← Tx_Exec tx (UpdatePublished eventIDs);
  match r with
  | Err err =>
      mret (Some (Wrapf "failed to execute update for marking events as published" err))
  | Ok affected =>
      if decide (affected = Z.of_nat (length eventIDs)) then mret None
      else mret (Some (ErrorString "consistency error"))
  end.

Definition ProcessOutboxBatch (ctx : context W) (batchSize : Z)
    (processFunc : context W → list OutboxEvent → M W (option error)) : M W (option error) :=
  r ← Pool_Begin;
  match r with
  | Err err =>
      mret (Some (Wrapf "failed to begin transaction for processing outbox batch" err))
  | Ok tx =>
      err ←
        (r ← fetchAndLockUnpublishedInTx tx batchSize;
         match r with
         | Err err => mret (Some (Wrapf "failed to fetch and lock events" err))
         | Ok [] => mret None
         | Ok events =>
             e ← processFunc ctx events;
             match e with
             | Some err => mret (Some (Wrapf "event processing function failed" err))
             | None =>
                 e ← markAsPublishedInTx tx events;
                 match e with
                 | Some err => mret (Some (Wrapf "failed to mark events as published" err))
                 | None => Tx_Commit tx
                 end
             end
         end);
      _ ← Tx_Rollback tx;
      mret err
  end.

Definition OutboxStore_SaveEvents {E} `{Event E} (ctx : context W) (events : list E) :
    M W (option error) :=
  match ctx_tx ctx with
  | None => mret (Some (ErrorString "SaveEvents must be called within a transaction"))
  | Some tx =>
      match queue_events InsertOutbox events with
      | Err err => mret (Some (Wrapf "failed to marshal event payload for event" err))
      | Ok b =>
          br ← Tx_SendBatch tx b;
          mret (batch_exec (Wrapf "failed to insert event into outbox batch")
                  (length events) (br_results br) (br_close br))
      end
  end.
End outbox.

(** ** infra/postgres/event_store.go *)

Section event_store.
Context `{Pgx W} {E T : Type} `{Event E} `{Aggregate E T}.
Variable eventRegistry : gmap string (EventFactory E).
Variable snapshotFrequency : Z.

Definition save_error (err : error) : error :=
  if decide (errors_as_pg err = Some "23505") then ErrConcurrency "concurrency error"
  else Wrapf "failed to insert event into batch" err.

Definition saveEventsInTx (ctx : context W) (tx : Tx) (events : list E) : M W (option error) :=
  match queue_events InsertEvent events with
  | Err err => mret (Some (Wrapf "failed to marshal event payload" err))
  | Ok b =>
      br ← Tx_SendBatch tx b;
      mret (batch_exec save_error (length events) (br_results br) (br_close br))
  end.

Definition shouldSnapshot (aggregate : T) : bool :=
  if (snapshotFrequency <=? 0)%Z then false
  else (Z.rem (AggregateRoot_Version aggregate) snapshotFrequency =? 0)%Z.

Definition saveSnapshotInTx (ctx : context W) (tx : Tx) (aggregate : T) : M W (option error) :=
  match MarshalJSON aggregate with
  | Err err => mret (Some (Wrapf "failed to marshal aggregate for snapshot" err))
  | Ok payload =>
      r ← Tx_Exec tx (InsertSnapshot
            {| sr_aggregate_id := AggregateRoot_ID aggregate;
               sr_aggregate_type := AggregateRoot_AggregateType aggregate;
               sr_aggregate_version := AggregateRoot_Version aggregate; sr_payload := payload |});
      match r with
      | Err err => mret (Some (Wrapf "failed to save snapshot" err))
      | Ok _ => mret None
      end
  end.

(** A failure to save the snapshot is logged and ignored. *)
Definition EventStore_Save (ctx : context W) (aggregate : T) : M W (option error) :=
  let events := GetUncommittedEvents aggregate in
  match events with
  | [] => mret None
  | _ =>
      match ctx_tx ctx with
      | None => mret (Some (ErrorString "Save must be called within a transaction"))
      | Some tx =>
          e ← saveEventsInTx ctx tx events;
          match e with
          | Some err => mret (Some err)
          | None =>
              e ← OutboxStore_SaveEvents ctx events;
              match e with
              | Some err => mret (Some err)
              | None =>
                  if shouldSnapshot aggregate then
                    _ ← saveSnapshotInTx ctx tx aggregate;
                    mret None
                  else mret None
              end
          end
      end
  end.

Definition loadSnapshot (ctx : context W) (aggID : uuid) : M W (res (option json * Z)) :=
  r ← Pool_QueryRow (SelectSnapshot aggID);
  match r with
  | Err err =>
      if errors_is err ErrNoRows then mret (Ok (None, 0%Z))
      else mret (Err (Wrapf "failed to load snapshot" err))
  | Ok (version, payload) => mret (Ok (Some payload, version))
  end.

(** The loop over the rows: a factory instance per row, filled from the payload. *)
Fixpoint decode_events (rows : list (string * json)) : res (list E) :=
  match rows with
  | [] => Ok []
  | (eventType, payload) :: rows =>
      match CreateEvent eventRegistry eventType with
      | Err err => Err err
      | Ok evtData =>
          match event_Unmarshal payload evtData with
          | Err err => Err (Wrapf "failed to unmarshal event payload" err)
          | Ok evtData => match decode_events rows with
                          | Err err => Err err
                          | Ok events => Ok (evtData :: events)
                          end
          end
      end
  end.

Definition loadEvents (ctx : context W) (aggID : uuid) (fromVersion : Z) : M W (res (list E)) :=
  r ← Pool_Query (SelectEvents aggID fromVersion);
  match r with
  | Err err => mret (Err (Wrapf "failed to query events" err))
  | Ok (rows, rows_Err) =>
      match decode_events rows, rows_Err with
      | Err err, _ => mret (Err err)
      | Ok _, Some err => mret (Err err)
      | Ok events, None => mret (Ok events)
      end
  end.

Definition EventStore_Load (ctx : context W) (aggID : uuid) :
    M W (res (option json * Z * list E)) :=
  r ← loadSnapshot ctx aggID;
  match r with
  | Err err => mret (Err (Wrapf "failed to load snapshot" err))
  | Ok (snapshot, version) =>
      r ← loadEvents ctx aggID version;
      match r with
      | Err err => mret (Err (Wrapf "failed to load events" err))
      | Ok events => mret (Ok (snapshot, version, events))
      end
  end.
End event_store.

(** ** Theorems: idempotency *)

Section idempotency_theorems.
Context `{PgxSpec W R} `{!PgCodecSpec}.
Implicit Types (w : W).

Lemma wp_IsProcessed ctx eid sub (Q : res bool → W → Prop) w :
  (∀ w', still w w' → (∀ tx, tx_state w' tx = tx_state w tx) →
    Q (Ok (bool_decide ((eid, sub) ∈ processed_events (committed w)))) w') →
  (∀ w' e, still w w' → (∀ tx, tx_state w' tx = tx_state w tx) →
    Q (Err (Wrapf "failed to check for processed event" e)) w') →
  wp (IsProcessed ctx eid sub) Q w.
Proof.
  intros Ho He. apply wp_bind, wp_Pool_QueryRow.
  - intros w' a rows Hs Ht Ha. simpl in Ha. injection Ha as -> ->. by apply wp_ret, Ho.
  - intros w' e Hs Ht _. by apply wp_ret, He.
Qed.

(** [MarkAsProcessed] in a running transaction.  The third case is the swallowed
    unique violation: nil is returned although the transaction has failed. *)
Lemma wp_MarkAsProcessed ctx tx eid sub (Q : option error → W → Prop) w :
  ctx_tx ctx = Some tx →
  (∀ w' n t t', still w w' → active w tx t → insert_processed eid sub t = Ok (t', n) →
    active w' tx t' → Q None w') →
  (∀ w' e, still w w' → (∀ t, active w' tx t → active w tx t) → Q (Some e) w') →
  (∀ w' t, still w w' → active w tx t →
    insert_processed eid sub t = Err (PgError unique_violation) →
    (∀ t, ¬ active w' tx t) → Q None w') →
  wp (MarkAsProcessed ctx eid sub) Q w.
Proof.
  intros Hctx Ho He Hu. unfold MarkAsProcessed. rewrite Hctx. apply wp_bind, wp_Exec.
  - intros w' n t t' Hs Ha Hx Ha'. apply wp_ret. by eapply Ho.
  - intros w' e Hs Hv Hold. case_decide as Hd; apply wp_ret; [|by apply He].
    destruct (Hv Hd) as (Hno & t & Ha & Hx). by eapply Hu.
Qed.

(** C25: a mark that is already there.  A transaction that marks an event already marked
    never commits, whatever else was done in it before, and [WithTransaction] returns an
    error: PostgreSQL aborts the transaction at the unique violation. *)
Theorem MarkAsProcessed_duplicate_rolls_back ctx eid sub before w w' r :
  varchar 255 sub = Ok sub →
  (eid, sub) ∈ processed_events (committed w) →
  (∀ txCtx w1 w2 e, before txCtx w1 = (w2, e) → committed w2 = committed w1) →
  WithTransaction ctx
    (λ txCtx, e ← before txCtx;
              match e with
              | Some err => mret (Some err)
              | None => MarkAsProcessed txCtx eid sub
              end) w = (w', r) →
  r ≠ None ∧ committed w' = committed w.
Proof.
  intros Hsub Hin Hb Hrun. wp_start Hrun.
  apply wp_WithTransaction; [intros w1 e [-> _]; done|].
  intros w1 tx [Hc1 _] _ _. apply wp_bind, wp_intro. intros w2 [e|] Hbe.
  - apply Hb in Hbe as Hc2. apply wp_ret. intros w3 [Hc3 _]. split; [done|congruence].
  - apply Hb in Hbe as Hc2. eapply wp_MarkAsProcessed; [done|..].
    + intros w3 n t t' _ (log & _ & Ht%replay_grows) Hx _. exfalso. unfold insert_processed in Hx.
      rewrite Hsub, decide_True in Hx; [done|]. apply (grows_marks _ _ Ht). congruence.
    + intros w3 e [Hc3 _] _ w4 [Hc4 _]. split; [done|congruence].
    + intros w3 t [Hc3 _] _ _ Hno. split; [by intros ? ? ?%Hno|].
      intros w4 e [Hc4 _]. split; [done|congruence].
Qed.
End idempotency_theorems.

(** ** Theorems: what a save adds *)

(** The rows the events of a save become. *)
Definition stored_as `{PgCodec} {E} `{Event E} (evt : E) (r : event_row) : Prop :=
  ∃ p, event_params evt = Ok p ∧ event_columns p = Ok r.

Definition outbox_of (rs : list event_row) : list outbox_row :=
  (λ r, {| or_event := r; or_published := false |}) <$> rs.

Definition save_tables (rs : list event_row) (sn : list snapshot_row) (t : tables) : tables :=
  {| event_store := event_store t ++ rs; snapshots := snapshots t ++ sn;
     outbox := outbox t ++ outbox_of rs; processed_events := processed_events t;
     product_views := product_views t |}.

(** A row collides with none of the rows it is inserted next to. *)
Definition fresh_in (rows : list event_row) (r : event_row) : Prop :=
  Forall (λ x, er_event_id r ≠ er_event_id x ∧
               (er_aggregate_id r, er_version r) ≠ (er_aggregate_id x, er_version x)) rows.

Fixpoint all_fresh (rows rs : list event_row) : Prop :=
  match rs with
  | [] => True
  | r :: rs => fresh_in rows r ∧ all_fresh (rows ++ [r]) rs
  end.

(** The transactional outbox: the outbox holds every stored event, in order. *)
Definition mirrored (t : tables) : Prop := (or_event <$> outbox t) = event_store t.

Section save_lemmas.
Context `{PgCodec} {E : Type} `{Event E}.
Implicit Types (t : tables) (evts : list E).

Lemma queue_events_length ins evts b : queue_events ins evts = Ok b → length b = length evts.
Proof.
  revert b. induction evts as [|evt evts IH]; intros b; simpl; [by intros [= <-]|].
  destruct (event_params evt); [|done]. destruct (queue_events ins evts); [|done].
  intros [= <-]. simpl. by rewrite (IH _ eq_refl).
Qed.

Lemma fresh_in_conflict rows r :
  fresh_in rows r ↔ existsb (event_conflict r) rows = false.
Proof.
  rewrite existsb_false. unfold fresh_in. apply Forall_iff. intros x.
  unfold event_conflict. by rewrite orb_false_iff, !bool_decide_eq_false.
Qed.

Lemma queue_events_stored ins evts rs :
  Forall2 stored_as evts rs → ∃ b, queue_events ins evts = Ok b ∧ length b = length evts.
Proof.
  induction 1 as [|evt r evts rs (p & Hp & _) _ (b & Hb & Hn)]; simpl; [by exists []|].
  rewrite Hp, Hb. eexists. split; [done|]. simpl. by rewrite Hn.
Qed.

(** A batch of event inserts, statement by statement. *)
Lemma replay_insert_events evts b t t' :
  queue_events InsertEvent evts = Ok b → replay b t = Ok t' →
  ∃ rs, Forall2 stored_as evts rs ∧ t' = set_event_store (event_store t ++ rs) t ∧
    all_fresh (event_store t) rs.
Proof.
  revert b t. induction evts as [|evt evts IH]; intros b t; simpl.
  - intros [= <-] [= <-]. exists []. rewrite app_nil_r. split_and!; [constructor|by destruct t|done].
  - destruct (event_params evt) as [p|] eqn:Hp; [|done].
    destruct (queue_events InsertEvent evts) as [b'|] eqn:Hq; [|done].
    intros [= <-]. simpl. destruct (insert_event p t) as [[t1 n]|] eqn:Hx; [|done].
    destruct (insert_event_Ok _ _ _ _ Hx) as (r & Hc & _ & -> & Hf). intros Hr.
    destruct (IH _ _ eq_refl Hr) as (rs & Hrs & -> & Hfr). exists (r :: rs). simpl in *.
    split_and!; [constructor; [by exists p|done]|by rewrite <- app_assoc|done|done].
Qed.

Lemma replay_insert_events_total evts rs b t :
  Forall2 stored_as evts rs → queue_events InsertEvent evts = Ok b →
  (all_fresh (event_store t) rs ∧ replay b t = Ok (set_event_store (event_store t ++ rs) t)) ∨
  (¬ all_fresh (event_store t) rs ∧ replay b t = Err (PgError unique_violation)).
Proof.
  intros Hrs. revert b t. induction Hrs as [|evt r evts rs (p & Hp & Hc) _ IH]; intros b t; simpl.
  - intros [= <-]. left. split; [done|]. simpl. rewrite app_nil_r. by destruct t.
  - rewrite Hp. destruct (queue_events InsertEvent evts) as [b'|] eqn:Hq; [|done].
    intros [= <-]. simpl. unfold insert_event. rewrite Hc.
    destruct (existsb (event_conflict r) (event_store t)) eqn:Hx.
    + right. split; [|done]. rewrite fresh_in_conflict. intros [? _]. congruence.
    + destruct (IH _ (set_event_store (event_store t ++ [r]) t) eq_refl) as [[Hf Hr]|[Hf Hr]];
        simpl in *; [left|right].
      * rewrite fresh_in_conflict, Hr. by rewrite <- app_assoc.
      * by rewrite Hr, fresh_in_conflict; split; [intros []|].
Qed.

Lemma replay_insert_outbox evts b t t' :
  queue_events InsertOutbox evts = Ok b → replay b t = Ok t' →
  ∃ rs, Forall2 stored_as evts rs ∧ t' = set_outbox (outbox t ++ outbox_of rs) t.
Proof.
  revert b t. induction evts as [|evt evts IH]; intros b t; simpl.
  - intros [= <-] [= <-]. exists []. rewrite app_nil_r. split; [constructor|by destruct t].
  - destruct (event_params evt) as [p|] eqn:Hp; [|done].
    destruct (queue_events InsertOutbox evts) as [b'|] eqn:Hq; [|done].
    intros [= <-]. simpl. destruct (insert_outbox p t) as [[t1 n]|] eqn:Hx; [|done].
    destruct (insert_outbox_Ok _ _ _ _ Hx) as (r & Hc & _ & -> & Hf). intros Hr.
    destruct (IH _ _ eq_refl Hr) as (rs & Hrs & ->). exists (r :: rs). simpl in *.
    split; [constructor; [by exists p|done]|by rewrite <- app_assoc].
Qed.

(** Rows that are new to the event store are new to an outbox that mirrors what
    the event store was. *)
Lemma replay_insert_outbox_total evts rs b t :
  Forall2 stored_as evts rs → queue_events InsertOutbox evts = Ok b →
  all_fresh (or_event <$> outbox t) rs →
  replay b t = Ok (set_outbox (outbox t ++ outbox_of rs) t).
Proof.
  intros Hrs. revert b t. induction Hrs as [|evt r evts rs (p & Hp & Hc) _ IH]; intros b t; simpl.
  - intros [= <-] _. simpl. rewrite app_nil_r. by destruct t.
  - rewrite Hp. destruct (queue_events InsertOutbox evts) as [b'|] eqn:Hq; [|done].
    intros [= <-] [Hf Hfs]. simpl. unfold insert_outbox. rewrite Hc.
    replace (existsb _ (outbox t)) with false.
    + rewrite (IH _ (set_outbox (outbox t ++ [{| or_event := r; or_published := false |}]) t) eq_refl).
      { simpl. by rewrite <- app_assoc. }
      simpl. by rewrite fmap_app.
    + symmetry. apply existsb_false. unfold fresh_in in Hf. rewrite Forall_fmap in Hf.
      eapply Forall_impl; [done|]. intros x [Hx _]. by rewrite bool_decide_eq_false.
Qed.

Lemma stored_as_fun evts rs rs' :
  Forall2 stored_as evts rs → Forall2 stored_as evts rs' → rs = rs'.
Proof.
  intros Hrs. revert rs'. induction Hrs as [|evt r evts rs (p & Hp & Hc) _ IH];
    intros rs' Hrs'; inversion Hrs' as [|? r' ? ? (p' & Hp' & Hc')]; subst; [done|].
  f_equal; [congruence|auto].
Qed.
End save_lemmas.

Section save_theorems.
Context `{PgxSpec W R} {E T : Type} `{Event E} `{Aggregate E T}.
Variable snapshotFrequency : Z.
Implicit Types (w : W) (t : tables) (aggregate : T).

(** The snapshot a save may add. *)
Definition snapshot_params (aggregate : T) (payload : json) : snapshot_row :=
  {| sr_aggregate_id := AggregateRoot_ID aggregate;
     sr_aggregate_type := AggregateRoot_AggregateType aggregate;
     sr_aggregate_version := AggregateRoot_Version aggregate; sr_payload := payload |}.

Definition snapshot_of (aggregate : T) (sn : list snapshot_row) : Prop :=
  sn = [] ∨
  (shouldSnapshot snapshotFrequency aggregate = true ∧
   ∃ p s, MarshalJSON aggregate = Ok p ∧ snapshot_columns (snapshot_params aggregate p) = Ok s ∧
          sn = [s]).

(** What a successful save does to the tables. *)
Definition saved (aggregate : T) (t t' : tables) : Prop :=
  ∃ rs sn, Forall2 stored_as (GetUncommittedEvents aggregate) rs ∧
    all_fresh (event_store t) rs ∧ snapshot_of aggregate sn ∧ t' = save_tables rs sn t.

Lemma queue_events_nonempty ins (evts : list E) b :
  evts ≠ [] → queue_events ins evts = Ok b → b ≠ [] ∧ length evts = length b.
Proof.
  intros Hne Hq. pose proof (queue_events_length _ _ _ Hq) as Hl. split; [|done].
  destruct b, evts; done.
Qed.

Lemma wp_saveEventsInTx ctx tx (evts : list E) (Q : option error → W → Prop) w :
  evts ≠ [] →
  (∀ w' t rs, still w w' → active w tx t → Forall2 stored_as evts rs →
     all_fresh (event_store t) rs →
     active w' tx (set_event_store (event_store t ++ rs) t) → Q None w') →
  (∀ w' e, still w w' → Q (Some e) w') →
  wp (saveEventsInTx ctx tx evts) Q w.
Proof.
  intros Hne Ho He. unfold saveEventsInTx.
  destruct (queue_events InsertEvent evts) as [b|e] eqn:Hq; [|by apply wp_ret, He].
  destruct (queue_events_nonempty _ _ _ Hne Hq) as [Hb Hl]. rewrite Hl.
  apply wp_batch; [done| |eauto..].
  intros w' t t' Hs Ha Hr Ha'.
  destruct (replay_insert_events _ _ _ _ Hq Hr) as (rs & Hrs & -> & Hf). by eapply Ho.
Qed.

Lemma wp_OutboxStore_SaveEvents ctx tx (evts : list E) (Q : option error → W → Prop) w :
  ctx_tx ctx = Some tx → evts ≠ [] →
  (∀ w' t rs, still w w' → active w tx t → Forall2 stored_as evts rs →
     active w' tx (set_outbox (outbox t ++ outbox_of rs) t) → Q None w') →
  (∀ w' e, still w w' → Q (Some e) w') →
  wp (OutboxStore_SaveEvents ctx evts) Q w.
Proof.
  intros Hctx Hne Ho He. unfold OutboxStore_SaveEvents. rewrite Hctx.
  destruct (queue_events InsertOutbox evts) as [b|e] eqn:Hq; [|by apply wp_ret, He].
  destruct (queue_events_nonempty _ _ _ Hne Hq) as [Hb Hl]. rewrite Hl.
  apply wp_batch; [done| |eauto..].
  intros w' t t' Hs Ha Hr Ha'.
  destruct (replay_insert_outbox _ _ _ _ Hq Hr) as (rs & Hrs & ->). by eapply Ho.
Qed.

Lemma wp_saveSnapshotInTx ctx tx aggregate (Q : option error → W → Prop) w :
  shouldSnapshot snapshotFrequency aggregate = true →
  (∀ w' r, still w w' →
     (∀ t', active w' tx t' → ∃ t sn, active w tx t ∧ snapshot_of aggregate sn ∧
        t' = set_snapshots (snapshots t ++ sn) t) → Q r w') →
  wp (saveSnapshotInTx ctx tx aggregate) Q w.
Proof.
  intros Hsh HQ. unfold saveSnapshotInTx.
  assert (∀ t, set_snapshots (snapshots t ++ []) t = t) as Hnil.
  { intros t. rewrite app_nil_r. by destruct t. }
  destruct (MarshalJSON aggregate) as [p|e] eqn:Hm.
  - apply wp_bind, wp_Exec.
    + intros w' n t t' Hs Ha Hx Ha'. apply wp_ret, HQ; [done|].
      intros t2 Ha2. rewrite (active_fun _ _ _ _ Ha2 Ha'). exists t.
      destruct (insert_snapshot_Ok _ _ _ _ Hx) as (s & Hc & [[_ ->]|(_ & -> & _)]).
      * exists []. rewrite Hnil. split_and!; [done|by left|done].
      * exists [s]. split_and!; [done| |done]. right. split; [done|]. by exists p, s.
    + intros w' e Hs _ Hold. apply wp_ret, HQ; [done|]. intros t Ha. exists t, [].
      rewrite Hnil. split_and!; [by apply Hold|by left|done].
  - apply wp_ret, HQ; [done|]. intros t Ha. exists t, []. rewrite Hnil.
    split_and!; [done|by left|done].
Qed.

Lemma wp_EventStore_Save ctx tx aggregate (Q : option error → W → Prop) w :
  ctx_tx ctx = Some tx → GetUncommittedEvents aggregate ≠ [] →
  (∀ w', still w w' →
     (∀ t', active w' tx t' → ∃ t, active w tx t ∧ saved aggregate t t') → Q None w') →
  (∀ w' e, still w w' → Q (Some e) w') →
  wp (EventStore_Save snapshotFrequency ctx aggregate) Q w.
Proof.
  intros Hctx Hne Ho He. unfold EventStore_Save. rewrite Hctx.
  destruct (GetUncommittedEvents aggregate) as [|e0 es] eqn:Hev; [done|].
  apply wp_bind, wp_saveEventsInTx; [done| |intros w1 e ?; by apply wp_ret, He].
  intros w1 t rs Hs1 Ha Hrs Hf Ha1.
  apply wp_bind. eapply wp_OutboxStore_SaveEvents; [done|done| |].
  - intros w2 t1 rs2 Hs2 Ha1' Hrs2 Ha2.
    rewrite (active_fun _ _ _ _ Ha1' Ha1) in Ha2.
    rewrite (stored_as_fun _ _ _ Hrs2 Hrs) in Ha2. simpl in Ha2.
    assert (∀ sn, snapshot_of aggregate sn →
      saved aggregate t (save_tables rs sn t)) as Hsv.
    { intros sn Hsn. exists rs, sn. rewrite Hev. done. }
    destruct (shouldSnapshot snapshotFrequency aggregate) eqn:Hsh.
    + apply wp_bind, wp_saveSnapshotInTx; [done|]. intros w3 r Hs3 Hsn. apply wp_ret, Ho.
      * by rewrite Hs1, Hs2.
      * intros t' (t2 & sn & Ha2' & Hsn' & ->)%Hsn. exists t. split; [done|].
        rewrite (active_fun _ _ _ _ Ha2' Ha2). by apply Hsv.
    + apply wp_ret, Ho; [by rewrite Hs1|]. intros t' Ha'. exists t. split; [done|].
      rewrite (active_fun _ _ _ _ Ha' Ha2).
      replace (set_outbox _ _) with (save_tables rs [] t); [apply Hsv; by left|].
      unfold save_tables. rewrite app_nil_r. done.
  - intros w2 e Hs2. apply wp_ret, He. by rewrite Hs1.
Qed.
End save_theorems.

Section save_properties.
Context `{PgxSpec W R} {E T : Type} `{Event E} `{Aggregate E T}.
Variable snapshotFrequency : Z.

(** C2: the transactional outbox.  Saving an aggregate in a transaction either
    leaves every table as it was or adds its events, under the same rows, to
    [event_store] and, unpublished, to [outbox] (and at most a snapshot); nil means
    the latter.  This holds whatever the server and the connection do. *)
Theorem EventStore_Save_atomic ctx (aggregate : T) w w' r :
  GetUncommittedEvents aggregate ≠ [] →
  WithTransaction ctx (λ txCtx, EventStore_Save snapshotFrequency txCtx aggregate) w = (w', r) →
  rest w' = rest w ∧
  match r with
  | None => saved snapshotFrequency aggregate (committed w) (committed w')
  | Some _ => committed w' = committed w ∨
              saved snapshotFrequency aggregate (committed w) (committed w')
  end.
Proof.
  intros Hne Hrun. wp_start Hrun.
  apply wp_WithTransaction; [by intros w1 e [-> ->]; auto|].
  intros w1 tx Hs1 Ha1 _. apply (wp_EventStore_Save _ _ tx); [done|done| |].
  - intros w2 Hs2 Hsv. split.
    + intros w3 t Ha2 Hc3 Hr3. destruct (Hsv t Ha2) as (t0 & Ha0 & Hsd).
      rewrite (active_fun _ _ _ _ Ha0 Ha1) in Hsd. rewrite Hc3, Hr3.
      destruct Hs1 as [_ Hr1], Hs2 as [_ Hr2]. rewrite Hr2, Hr1. auto.
    + intros w3 e Hs3. destruct Hs1, Hs2, Hs3. split; [congruence|]. left. congruence.
  - intros w2 e Hs2 w3 Hs3. destruct Hs1, Hs2, Hs3. split; [congruence|]. left. congruence.
Qed.

(** A snapshot the store can write, when one is due. *)
Definition snapshot_storable (aggregate : T) : Prop :=
  shouldSnapshot snapshotFrequency aggregate = true →
  ∀ p, MarshalJSON aggregate = Ok p → ∃ s, snapshot_columns (snapshot_params aggregate p) = Ok s.

(** The snapshot that is due is there. *)
Definition snapshot_present (aggregate : T) (t : tables) : Prop :=
  shouldSnapshot snapshotFrequency aggregate = true →
  ∀ p, MarshalJSON aggregate = Ok p →
  ∃ s, s ∈ snapshots t ∧ sr_aggregate_id s = id (root aggregate) ∧
    sr_aggregate_version s = version (root aggregate).

Lemma snapshot_columns_Ok s s' :
  snapshot_columns s = Ok s' →
  sr_aggregate_id s' = sr_aggregate_id s ∧
  sr_aggregate_version s' = sr_aggregate_version s ∧ sr_payload s' = sr_payload s.
Proof.
  unfold snapshot_columns. destruct (varchar 255 _); [|done]. destruct (int4_ok _); [|done].
  destruct (jsonb_ok _); [|done]. by intros [= <-].
Qed.
End save_properties.

Section save_reliable.
Context `{PgxReliable W R} {E T : Type} `{Event E} `{Aggregate E T}.
Variable snapshotFrequency : Z.

Lemma wp_EventStore_Save_reliable ctx tx (aggregate : T) rs t (Q : option error → W → Prop) w :
  ctx_tx ctx = Some tx → GetUncommittedEvents aggregate ≠ [] →
  Forall2 stored_as (GetUncommittedEvents aggregate) rs → mirrored t →
  snapshot_storable snapshotFrequency aggregate → active w tx t →
  (∀ w', still w w' → all_fresh (event_store t) rs →
     (∃ t', active w' tx t' ∧ saved snapshotFrequency aggregate t t' ∧
            snapshot_present snapshotFrequency aggregate t') → Q None w') →
  (∀ w', still w w' → ¬ all_fresh (event_store t) rs →
     Q (Some (ErrConcurrency "concurrency error")) w') →
  wp (EventStore_Save snapshotFrequency ctx aggregate) Q w.
Proof.
  intros Hctx Hne Hrs Hmir Hsn Ha Ho He. unfold EventStore_Save. rewrite Hctx.
  assert (∀ sn, all_fresh (event_store t) rs → snapshot_of snapshotFrequency aggregate sn →
    saved snapshotFrequency aggregate t (save_tables rs sn t)) as Hsv by (intros sn; by exists rs, sn).
  destruct (GetUncommittedEvents aggregate) as [|e0 es] eqn:Hev; [done|].
  apply wp_bind. unfold saveEventsInTx.
  destruct (queue_events_stored InsertEvent _ _ Hrs) as (b & Hq & Hl). rewrite Hq, <- Hl.
  apply (wp_batch_reliable tx b _ t); [by destruct b|done|]. intros w1 Hs1.
  destruct (replay_insert_events_total _ _ _ t Hrs Hq) as [[Hf Hr]|[Hf Hr]]; rewrite Hr;
    [|apply wp_ret, He; done].
  intros Ha1. apply wp_bind. unfold OutboxStore_SaveEvents. rewrite Hctx.
  destruct (queue_events_stored InsertOutbox _ _ Hrs) as (b2 & Hq2 & Hl2). rewrite Hq2, <- Hl2.
  eapply wp_batch_reliable; [by destruct b2|done|]. intros w2 Hs2.
  rewrite (replay_insert_outbox_total _ _ _ _ Hrs Hq2) by (simpl; by rewrite Hmir).
  assert (∀ t, set_outbox (outbox t ++ outbox_of rs) (set_event_store (event_store t ++ rs) t) =
    save_tables rs [] t) as Hnil by (intros t0; unfold save_tables; by rewrite app_nil_r).
  simpl. rewrite Hnil. intros Ha2.
  destruct (shouldSnapshot snapshotFrequency aggregate) eqn:Hsh.
  - apply wp_bind. unfold saveSnapshotInTx.
    destruct (MarshalJSON aggregate) as [p|] eqn:Hm.
    + destruct (Hsn Hsh p Hm) as [s Hc].
      destruct (snapshot_columns_Ok _ _ Hc) as (Hci & Hcv & _).
      apply wp_bind. eapply wp_Exec_reliable; [done|]. intros w3 Hs3.
      unfold sql_exec, insert_snapshot. fold (snapshot_params aggregate p). rewrite Hc.
      destruct (existsb _ _) eqn:Hx; intros Ha3; apply wp_ret, wp_ret, Ho;
        [by rewrite Hs1, Hs2|done| |by rewrite Hs1, Hs2|done|];
        eexists; (split; [done|split]).
      * apply Hsv; [done|by left].
      * intros _ q _. apply existsb_exists in Hx as (s' & Hs' & Hcf%bool_decide_eq_true).
        injection Hcf as Hi Hv. exists s'. rewrite list_elem_of_In, <- Hi, <- Hv. done.
      * replace (set_snapshots _ _) with (save_tables rs [s] t)
          by (unfold save_tables; simpl; by rewrite app_nil_r).
        apply Hsv; [done|]. right. split; [done|]. by exists p, s.
      * intros _ q _. exists s. split; [|done]. simpl. apply elem_of_app. right.
        by apply list_elem_of_singleton.
    + apply wp_ret, wp_ret, Ho; [by rewrite Hs1|done|]. eexists; split; [done|split].
      * apply Hsv; [done|by left].
      * intros _ q. by rewrite Hm.
  - apply wp_ret, Ho; [by rewrite Hs1|done|]. eexists; split; [done|split].
    + apply Hsv; [done|by left].
    + intros Hx. by rewrite Hsh in Hx.
Qed.

(** C3: optimistic concurrency.  When nothing outside fails, the outbox mirrors the
    event store, and the events and the snapshot can be stored, a save succeeds exactly when none of its rows collides with a stored
    event id or (aggregate, version) pair; on a collision it returns
    [ErrConcurrency] and changes nothing. *)
Theorem EventStore_Save_concurrency ctx (aggregate : T) rs w w' r :
  GetUncommittedEvents aggregate ≠ [] →
  Forall2 stored_as (GetUncommittedEvents aggregate) rs →
  mirrored (committed w) → snapshot_storable snapshotFrequency aggregate →
  WithTransaction ctx (λ txCtx, EventStore_Save snapshotFrequency txCtx aggregate) w = (w', r) →
  (all_fresh (event_store (committed w)) rs ∧ r = None ∧
   saved snapshotFrequency aggregate (committed w) (committed w')) ∨
  (¬ all_fresh (event_store (committed w)) rs ∧
   r = Some (ErrConcurrency "concurrency error") ∧ committed w' = committed w).
Proof.
  intros Hne Hrs Hmir Hsn Hrun. wp_start Hrun.
  apply wp_WithTransaction_reliable. intros w1 tx Hs1 Ha1 _.
  eapply (wp_EventStore_Save_reliable _ tx aggregate rs); [done..| |].
  - intros w2 Hs2 Hf (t' & Ha' & Hsd & _). exists t'. split; [done|].
    intros w3 Hc3 Hr3. left. by rewrite Hc3.
  - intros w2 Hs2 Hf w3 Hs3. right. split_and!; [done..|].
    destruct Hs1, Hs2, Hs3. congruence.
Qed.
End save_reliable.

(** ** Theorems: what a load reads *)

(** The latest snapshot of an aggregate, with its version; version 0 if none. *)
Definition latest_snapshot (t : tables) (aid : uuid) (snap : option json) (v : Z) : Prop :=
  (snap = None ∧ v = 0%Z ∧ Forall (λ s, sr_aggregate_id s ≠ aid) (snapshots t)) ∨
  (∃ s, s ∈ snapshots t ∧ sr_aggregate_id s = aid ∧ snap = Some (sr_payload s) ∧
     v = sr_aggregate_version s ∧
     ∀ s', s' ∈ snapshots t → sr_aggregate_id s' = aid →
           (sr_aggregate_version s' ≤ sr_aggregate_version s)%Z).

(** The rows of an aggregate after a version, in version order. *)
Definition stream (t : tables) (aid : uuid) (v : Z) (rs : list event_row) : Prop :=
  rs ≡ₚ filter (events_after aid v) (event_store t) ∧ StronglySorted version_le rs.

Definition row_data (r : event_row) : string * json := (er_event_type r, er_payload r).

Lemma elem_of_stream t aid v rs r :
  stream t aid v rs →
  (r ∈ rs ↔ r ∈ event_store t ∧ er_aggregate_id r = aid ∧ (v < er_version r)%Z).
Proof.
  intros [Hp _]. rewrite Hp, list_elem_of_filter. unfold events_after. tauto.
Qed.

Lemma wf_same_version t r r' :
  tables_wf t → r ∈ event_store t → r' ∈ event_store t →
  er_aggregate_id r = er_aggregate_id r' → er_version r = er_version r' → r = r'.
Proof.
  intros [_ Hnd _ _ _ _] [i Hi]%list_elem_of_lookup [j Hj]%list_elem_of_lookup Ha Hv.
  assert (i = j) as ->; [|congruence].
  eapply NoDup_lookup; [done|rewrite list_lookup_fmap, Hi; done|].
  rewrite list_lookup_fmap, Hj. simpl. by rewrite Ha, Hv.
Qed.

(** Under the schema's constraints there is one stream. *)
Lemma stream_unique t aid v rs rs' :
  tables_wf t → stream t aid v rs → stream t aid v rs' → rs = rs'.
Proof.
  intros Hwf Hs Hs'. pose proof Hs as [Hp Hss]. pose proof Hs' as [Hp' Hss'].
  eapply (StronglySorted_unique_strong version_le); [|done|done|by rewrite Hp, Hp'].
  intros r r' (Hr & Ha & _)%(elem_of_stream _ _ _ _ _ Hs)
    (Hr' & Ha' & _)%(elem_of_stream _ _ _ _ _ Hs') H1 H2.
  eapply wf_same_version; [done..|congruence|]. unfold version_le in *. lia.
Qed.

Section load_theorems.
Context `{PgxSpec W R} {E T : Type} `{Event E} `{Aggregate E T}.
Variable eventRegistry : gmap string (EventFactory E).
Implicit Types (w : W).

Lemma wp_loadSnapshot ctx aid (Q : res (option json * Z) → W → Prop) w :
  (∀ w' snap v, still w w' → (∀ tx, tx_state w' tx = tx_state w tx) →
     latest_snapshot (committed w) aid snap v → Q (Ok (snap, v)) w') →
  (∀ w' e, still w w' → (∀ tx, tx_state w' tx = tx_state w tx) → Q (Err e) w') →
  wp (loadSnapshot ctx aid) Q w.
Proof.
  intros Ho He. apply wp_bind, wp_Pool_QueryRow.
  - intros w' [v p] rows Hs Ht [[? _]|(s & Hin & Ha & Hr & Hmax)]; [done|].
    simplify_eq. apply wp_ret, Ho; [done..|]. right. by exists s.
  - intros w' e Hs Ht Hn. destruct (errors_is e ErrNoRows); apply wp_ret; [|by apply He].
    apply Ho; [done..|]. left. destruct (Hn eq_refl) as [[_ Hf]|(? & _ & _ & ? & _)]; done.
Qed.

Lemma wp_loadEvents ctx aid v (Q : res (list E) → W → Prop) w :
  (∀ w' rs evs, still w w' → (∀ tx, tx_state w' tx = tx_state w tx) →
     stream (committed w) aid v rs → decode_events eventRegistry (row_data <$> rs) = Ok evs →
     Q (Ok evs) w') →
  (∀ w' e, still w w' → (∀ tx, tx_state w' tx = tx_state w tx) → Q (Err e) w') →
  wp (loadEvents eventRegistry ctx aid v) Q w.
Proof.
  intros Ho He. apply wp_bind, wp_Pool_Query.
  - intros w' rows Hs Ht (rs & Hp & Hss & ->).
    fold row_data. destruct (decode_events eventRegistry _) as [evs|e] eqn:Hd; apply wp_ret.
    + by apply (Ho w' rs).
    + by apply He.
  - intros w' r Hs Ht Hn. destruct r as [[rows [e|]]|e].
    + destruct (decode_events _ rows); by apply wp_ret, He.
    + by destruct (Hn rows).
    + by apply wp_ret, He.
Qed.

Lemma wp_EventStore_Load ctx aid (Q : res (option json * Z * list E) → W → Prop) w :
  (∀ w' snap v rs evs, still w w' → (∀ tx, tx_state w' tx = tx_state w tx) →
     latest_snapshot (committed w) aid snap v → stream (committed w) aid v rs →
     decode_events eventRegistry (row_data <$> rs) = Ok evs → Q (Ok (snap, v, evs)) w') →
  (∀ w' e, still w w' → (∀ tx, tx_state w' tx = tx_state w tx) → Q (Err e) w') →
  wp (EventStore_Load eventRegistry ctx aid) Q w.
Proof.
  intros Ho He. apply wp_bind, wp_loadSnapshot; [|intros; by apply wp_ret, He].
  intros w1 snap v Hs1 Ht1 Hsn. apply wp_bind, wp_loadEvents.
  - intros w2 rs evs Hs2 Ht2 Hst Hd. apply wp_ret. rewrite (still_committed _ _ Hs1) in Hst.
    eapply Ho; [by rewrite Hs1|intros; by rewrite Ht2|done..].
  - intros w2 e Hs2 Ht2. apply wp_ret, He; [by rewrite Hs1|intros; by rewrite Ht2].
Qed.

(** C32: a load changes nothing and, when it succeeds, returns the latest snapshot
    of the aggregate and the decoded events stored after that snapshot's version,
    all of them and in version order; under the schema's constraints that list of
    rows is the only one. *)
Theorem EventStore_Load_reads ctx aid w w' r :
  EventStore_Load eventRegistry ctx aid w = (w', r) →
  still w w' ∧
  ∀ snap v evs, r = Ok (snap, v, evs) →
    latest_snapshot (committed w) aid snap v ∧
    ∃ rs, stream (committed w) aid v rs ∧
          decode_events eventRegistry (row_data <$> rs) = Ok evs ∧
          (tables_wf (committed w) → ∀ rs', stream (committed w) aid v rs' → rs' = rs).
Proof.
  intros Hrun. wp_start Hrun. apply wp_EventStore_Load; [|by intros].
  intros w1 snap v rs evs Hs _ Hsn Hst Hd. split; [done|]. intros ??? [= <- <- <-].
  split; [done|]. exists rs. split_and!; [done..|]. intros Hwf rs' Hst'.
  by apply (stream_unique _ _ _ _ _ Hwf Hst').
Qed.
End load_theorems.

Section load_reliable.
Context `{PgxReliable W R} {E T : Type} `{Event E} `{Aggregate E T}.
Variable eventRegistry : gmap string (EventFactory E).
Implicit Types (w : W).

Lemma wp_EventStore_Load_reliable ctx aid (Q : res (option json * Z * list E) → W → Prop) w :
  (∀ w' snap v rs, still w w' → (∀ tx, tx_state w' tx = tx_state w tx) →
     latest_snapshot (committed w) aid snap v → stream (committed w) aid v rs →
     match decode_events eventRegistry (row_data <$> rs) with
     | Ok evs => Q (Ok (snap, v, evs)) w'
     | Err e => Q (Err (Wrapf "failed to load events" e)) w'
     end) →
  wp (EventStore_Load eventRegistry ctx aid) Q w.
Proof.
  intros HQ. apply wp_bind. unfold loadSnapshot. apply wp_bind.
  assert (∀ w1 snap v, still w w1 → (∀ tx, tx_state w1 tx = tx_state w tx) →
    latest_snapshot (committed w) aid snap v →
    wp (r ← loadEvents eventRegistry ctx aid v;
        match r with
        | Err err => mret (Err (Wrapf "failed to load events" err))
        | Ok events => mret (Ok (snap, v, events))
        end) Q w1) as Hrest.
  { intros w1 snap v Hs1 Ht1 Hsn. apply wp_bind. unfold loadEvents.
    apply wp_bind, wp_Pool_Query_reliable; [done|].
    intros w2 rows Hs2 Ht2 (rs & Hp & Hss & ->). fold row_data.
    rewrite (still_committed _ _ Hs1) in Hp.
    specialize (HQ w2 snap v rs (transitivity Hs1 Hs2) ltac:(intros; by rewrite Ht2) Hsn
      (conj Hp Hss)).
    destruct (decode_events eventRegistry (row_data <$> rs)) as [evs|e]; apply wp_ret, wp_ret, HQ. }
  apply wp_Pool_QueryRow_reliable; [done|..].
  - intros w1 [v p] rows Hs1 Ht1 [[? _]|(s & Hin & Ha & Hr & Hmax)]; [done|]. simplify_eq.
    apply wp_ret, Hrest; [done..|]. right. by exists s.
  - intros w1 Hs1 Ht1 [[_ Hf]|(? & _ & _ & ? & _)]; [|done].
    apply wp_ret, Hrest; [done..|]. by left.
Qed.
End load_reliable.
