(* ===== verification/Commands.v ===== *)
(** * Commands: sample/command

    The handlers of [CreateProductCommand] and [UpdateProduct], written against
    the [Transactor] and [Store] interfaces as in the code, and what they do over
    the PostgreSQL event store: which commands succeed, what they append, and the
    invariant of the product streams they maintain. *)
From Stdlib Require Import Sorted.
From stdpp Require Import sorting.
From S2P Require Import Prelude GoJson EventSrc Cqrs Product Sql Pgx PgStores.

(** ** sample/command/create_product.go, update_product.go *)

Record CreateProductCommand := {
  cp_ID : uuid;
  cp_Name : string;
  cp_Price : float64;
}.

Record UpdateProduct := {
  up_ID : uuid;
  up_Name : string;
  up_Price : float64;
}.

(** The events the handlers track; [newID] and [now] are the results of
    [uuid.New()] and [time.Now().UTC()], [ver] is [p.Version() + 1]. *)
Definition create_event (newID : uuid) (now : time) (cmd : CreateProductCommand) (ver : Z) :
    domain_event :=
  EvProductCreated
    {| pc_BaseEvent := {| ID := newID; AggID := cp_ID cmd; AggType := ProductAggregateType;
                          Ver := ver; Ts := now |};
       pc_Name := cp_Name cmd; pc_Price := cp_Price cmd |}.

Definition update_event (newID : uuid) (now : time) (cmd : UpdateProduct) (ver : Z) :
    domain_event :=
  EvProductUpdated
    {| pu_BaseEvent := {| ID := newID; AggID := up_ID cmd; AggType := ProductAggregateType;
                          Ver := ver; Ts := now |};
       pu_Name := up_Name cmd; pu_Price := up_Price cmd |}.

Section handlers.
Context {W C : Type} `{Transactor W C} `{Store W C domain_event ProductAggregate}.

Definition CreateProductHandler_Handle (newID : uuid) (now : time) (ctx : C)
    (cmd : CreateProductCommand) : M W (option error) :=
  err ← Transactor_WithTransaction ctx (λ txCtx,
    let p := NewProductAggregateEmpty in
    match TrackChange (create_event newID now cmd (int_add (version (root p)) 1)) p with
    | (_, Some err) => mret (Some (Wrapf "trace create product failed" err))
    | (p, None) =>
        r ← Repository_Save txCtx p;
        match r with
        | (Some err, _) => mret (Some (Wrapf "failed to save new product" err))
        | (None, _) => mret None
        end
    end);
  match err with
  | Some err => mret (Some err)
  | None => mret None
  end.

Definition UpdateProductHandler_Handle (newID : uuid) (now : time) (ctx : C)
    (cmd : UpdateProduct) : M W (option error) :=
  Transactor_WithTransaction ctx (λ txCtx,
    r ← Repository_Load newEmptyProduct txCtx (up_ID cmd);
    match r with
    | Err err => mret (Some err)
    | Ok p =>
        match TrackChange (update_event newID now cmd (int_add (version (root p)) 1)) p with
        | (_, Some err) => mret (Some (Wrapf "track update product failed" err))
        | (p, None) =>
            r ← Repository_Save txCtx p;
            mret r.1
        end
    end).
End handlers.

(** ** sample/main.go: the handlers' dependencies *)

#[export] Instance DB_Transactor `{Pgx W} : Transactor W (context W) := {|
  Transactor_WithTransaction := WithTransaction;
|}.

(** The snapshot frequency as an instance argument, so that the store is found. *)
Class SnapshotFrequency := snapshotFrequency : Z.

#[export] Instance product_EventStore `{Pgx W} `{SnapshotFrequency} :
    Store W (context W) domain_event ProductAggregate := {|
  Store_Save := EventStore_Save snapshotFrequency;
  Store_Load := EventStore_Load eventRegistry;
|}.

(** ** The streams in the tables *)

Definition rows_of (t : tables) (aid : uuid) : list event_row :=
  filter (λ r, er_aggregate_id r = aid) (event_store t).

(** The rows of an aggregate carry the versions 1, 2, ... in the order in which
    they were inserted. *)
Definition contiguous (t : tables) : Prop :=
  ∀ aid, er_version <$> rows_of t aid = seqZ 1 (Z.of_nat (length (rows_of t aid))).

Definition decode_row (r : event_row) : res domain_event :=
  match CreateEvent eventRegistry (er_event_type r) with
  | Err err => Err err
  | Ok z => event_Unmarshal (er_payload r) z
  end.

(** A row written for a product event: its payload reads back as an event that
    agrees with the row's columns. *)
Definition product_row (r : event_row) : Prop :=
  ∃ e, decode_row r = Ok e ∧ is_product_event e = true ∧ EventType e = er_event_type r ∧
    EventID e = er_event_id r ∧ AggregateID e = er_aggregate_id r ∧ Version e = er_version r ∧
    AggregateType e = ProductAggregateType ∧ er_aggregate_type r = ProductAggregateType ∧
    year_ok (er_ts r) = true.

(** A snapshot holds the name and the price of the event of its version, under the id
    of that event's aggregate or under the nil id (the id of an aggregate that was not
    restored from its [ProductCreated]). *)
Definition snapshot_shows (t : tables) (s : snapshot_row) : Prop :=
  ∃ r e q, r ∈ event_store t ∧ decode_row r = Ok e ∧
    ProductAggregate_MarshalJSON q = Ok (sr_payload s) ∧
    to_valid_utf8 (prod_Name (pa_Product q)) = event_name e ∧
    prod_Price (pa_Product q) = event_price e ∧ sr_aggregate_version s = er_version r ∧
    (sr_aggregate_id s = er_aggregate_id r ∨ sr_aggregate_id s = uuid_Nil).

Record products_inv (t : tables) : Prop := {
  inv_wf : tables_wf t;
  inv_mirrored : mirrored t;
  inv_rows : Forall product_row (event_store t);
  inv_contiguous : contiguous t;
  inv_snapshots : Forall (snapshot_shows t) (snapshots t);
}.

(** An aggregate that has just applied an event of its own. *)
Definition carries (evt : domain_event) (p : ProductAggregate) : Prop :=
  version (root p) = Version evt ∧ aggType (root p) = ProductAggregateType ∧
  prod_Name (pa_Product p) = event_name evt ∧ prod_Price (pa_Product p) = event_price evt ∧
  (id (root p) = AggregateID evt ∨ id (root p) = uuid_Nil).

Lemma snapshot_shows_grows t t' s :
  event_store t `prefix_of` event_store t' → snapshot_shows t s → snapshot_shows t' s.
Proof.
  intros Hp (r & e & q & Hr & Hs). exists r, e, q. split; [by eapply elem_of_prefix|done].
Qed.

(** ** Lemmas on the streams *)

Section stream_lemmas.
Context `{PgCodecSpec}.
Implicit Types (t : tables) (r : event_row).

Lemma rows_of_save t r sn aid :
  rows_of (save_tables [r] sn t) aid =
  rows_of t aid ++ (if decide (er_aggregate_id r = aid) then [r] else []).
Proof.
  unfold rows_of, save_tables. simpl. by rewrite filter_app.
Qed.

Lemma stored_as_product evt r :
  is_product_event evt = true → AggregateType evt = ProductAggregateType →
  stored_as evt r →
  er_event_id r = EventID evt ∧ er_aggregate_id r = AggregateID evt ∧
  er_version r = Version evt ∧ er_event_type r = EventType evt ∧
  er_aggregate_type r = ProductAggregateType ∧ event_Marshal evt = Ok (er_payload r) ∧
  int4_ok (er_version r) = true ∧ er_ts r = encode_timestamptz (Timestamp evt).
Proof.
  intros Hp Hty (q & Hq & Hc). unfold event_params in Hq.
  destruct (event_Marshal evt) as [pl|] eqn:Hm; [|done]. injection Hq as <-.
  unfold event_columns in Hc. simpl in Hty, Hm, Hc |- *. rewrite Hty in Hc.
  assert (varchar 255 ProductAggregateType = Ok ProductAggregateType) as Hv by done.
  assert (varchar 255 (domain_EventType evt) = Ok (domain_EventType evt)) as Hv' by (by destruct evt).
  rewrite Hv, Hv' in Hc. destruct (int4_ok _) eqn:Hi; [|done]. destruct (jsonb_ok pl); [|done].
  injection Hc as <-. done.
Qed.

Lemma int4_int_range z : int4_ok z = true → int_range z.
Proof. rewrite int4_ok_range. unfold int_range. lia. Qed.

Lemma event_Marshal_year evt j :
  is_product_event evt = true → event_Marshal evt = Ok j → year_ok (Timestamp evt) = true.
Proof.
  destruct evt as [[b n p]|[b n p]|]; [..|done]; intros _; simpl; unfold enc_object; simpl;
    by destruct (year_ok (Ts b)).
Qed.

Lemma stored_decode evt r :
  is_product_event evt = true → AggregateType evt = ProductAggregateType →
  stored_as evt r → decode_row r = Ok (event_canon evt).
Proof.
  intros Hp Hty Hst.
  destruct (stored_as_product _ _ Hp Hty Hst) as (_ & _ & Hv & He & _ & Hm & Hok & _).
  unfold decode_row. rewrite He, (CreateEvent_product evt Hp).
  apply int4_int_range in Hok. rewrite Hv in Hok.
  eapply product_event_decode; [done..|by apply CreateEvent_product].
Qed.

Lemma stored_product_row evt r :
  is_product_event evt = true → AggregateType evt = ProductAggregateType →
  stored_as evt r → product_row r.
Proof.
  intros Hp Hty Hst.
  destruct (stored_as_product _ _ Hp Hty Hst) as (Hi & Ha & Hv & He & Hat & Hm & Hok & Hts).
  assert (year_ok (er_ts r) = true) as Hy.
  { rewrite Hts. apply encode_timestamptz_year. by eapply event_Marshal_year. }
  exists (event_canon evt). split; [by apply stored_decode|]. rewrite Hi, Ha, Hv, He, Hat.
  destruct evt; [..|done]; simpl in *; rewrite Hty; split_and!; done.
Qed.

Lemma elem_of_rows_of t aid r :
  r ∈ rows_of t aid ↔ er_aggregate_id r = aid ∧ r ∈ event_store t.
Proof. unfold rows_of. by rewrite list_elem_of_filter. Qed.

(** The versions of a contiguous stream are 1 up to its length. *)
Lemma contiguous_versions t aid v :
  contiguous t →
  (∃ r, r ∈ rows_of t aid ∧ er_version r = v) ↔ (1 ≤ v ≤ Z.of_nat (length (rows_of t aid)))%Z.
Proof.
  intros Hc. transitivity (v ∈ er_version <$> rows_of t aid).
  - rewrite list_elem_of_fmap. split; intros (r & H1 & H2); exists r; done.
  - rewrite Hc, elem_of_seqZ. lia.
Qed.

Lemma contiguous_last t aid r :
  contiguous t → last (rows_of t aid) = Some r →
  er_version r = Z.of_nat (length (rows_of t aid)).
Proof.
  intros Hc Hl. rewrite last_lookup in Hl. pose proof (lookup_lt_Some _ _ _ Hl).
  assert ((er_version <$> rows_of t aid) !! pred (length (rows_of t aid)) = Some (er_version r))
    as Hv by (by rewrite list_lookup_fmap, Hl).
  rewrite Hc, lookup_seqZ in Hv. lia.
Qed.

Lemma fresh_version_one t r :
  contiguous t → fresh_in (event_store t) r → er_version r = 1%Z →
  rows_of t (er_aggregate_id r) = [].
Proof.
  intros Hc Hf Hv. destruct (rows_of t (er_aggregate_id r)) as [|x l] eqn:Hr; [done|].
  destruct (proj2 (contiguous_versions t (er_aggregate_id r) 1 Hc)) as (y & Hy & Hyv).
  { rewrite Hr. simpl. lia. }
  apply elem_of_rows_of in Hy as [Ha Hy]. unfold fresh_in in Hf. rewrite Forall_forall in Hf.
  destruct (Hf y Hy) as [_ []]. congruence.
Qed.

Lemma contiguous_save t r sn :
  contiguous t →
  er_version r = (Z.of_nat (length (rows_of t (er_aggregate_id r))) + 1)%Z →
  contiguous (save_tables [r] sn t).
Proof.
  intros Hc Hv aid. rewrite rows_of_save. case_decide as Ha; [|by rewrite app_nil_r].
  rewrite fmap_app, length_app, Nat2Z.inj_add, seqZ_app by lia. rewrite <- Hc, <- Ha. f_equal.
  simpl. rewrite Hv. unfold seqZ. simpl. f_equal. lia.
Qed.

Lemma products_inv_append freq (p : ProductAggregate) evt r sn t :
  products_inv t → is_product_event evt = true → AggregateType evt = ProductAggregateType →
  stored_as evt r → snapshot_of freq p sn → carries evt p → tables_wf (save_tables [r] sn t) →
  Version evt = (Z.of_nat (length (rows_of t (AggregateID evt))) + 1)%Z →
  products_inv (save_tables [r] sn t).
Proof.
  intros [Hwf Hm Hr Hc Hs] Hp Hty Hst Hsn (Hpv & _ & Hpn & Hpp & Hpi) Hwf' Hv.
  pose proof (stored_as_product _ _ Hp Hty Hst) as (_ & Ha & Hrv & _).
  split; [done|..].
  - unfold mirrored in *. simpl. by rewrite fmap_app, Hm.
  - simpl. apply Forall_app_2; [done|]. apply Forall_singleton. by eapply stored_product_row.
  - apply contiguous_save; [done|]. by rewrite Ha, Hrv.
  - simpl. apply Forall_app_2.
    { eapply Forall_impl; [done|]. intros s. apply snapshot_shows_grows. by eexists. }
    destruct Hsn as [->|(_ & q & s & Hq & (Hsa & Hsv & Hpl)%snapshot_columns_Ok & ->)]; [done|].
    apply Forall_singleton. exists r, (event_canon evt), p. simpl in Hsa, Hsv, Hpl.
    rewrite Hsa, Hsv, Hpl, Hrv, Ha. split_and!; [|by apply stored_decode|done| | |done|done].
    + apply elem_of_app. right. by apply list_elem_of_singleton.
    + rewrite Hpn. by destruct evt.
    + rewrite Hpp. by destruct evt.
Qed.

(** Decoding the rows of product events never fails. *)
Lemma decode_product_rows rs :
  Forall product_row rs →
  ∃ evs, decode_events eventRegistry (row_data <$> rs) = Ok evs ∧
    Forall2 (λ r e, Version e = er_version r ∧ EventType e = er_event_type r ∧
                    AggregateID e = er_aggregate_id r ∧ decode_row r = Ok e) rs evs ∧
    Forall (λ e, is_product_event e = true) evs.
Proof.
  induction 1 as [|r rs (e & Hd & Hp & Hty & _ & Ha & Hv & _) _ (evs & Hev & H2 & Hall)]; simpl.
  - exists []. split_and!; constructor.
  - pose proof Hd as Hd'. unfold decode_row in Hd. destruct (CreateEvent _ _) as [z|]; [|done].
    simpl in Hd, Hev. rewrite Hd.
    change (list_fmap _ _ row_data rs) with (row_data <$> rs). rewrite Hev. exists (e :: evs).
    split_and!; by repeat constructor.
Qed.
End stream_lemmas.

(** ** Loading and tracking *)

(** The version [Repository.Load] gives a product whose latest snapshot has version
    [v]: that of the last event, if one was stored after the snapshot, else 0. *)
Definition loaded_version (t : tables) (aid : uuid) (v : Z) : Z :=
  let n := Z.of_nat (length (rows_of t aid)) in if (v <? n)%Z then n else 0%Z.

Lemma stream_after t aid v rs :
  contiguous t → stream t aid v rs →
  let n := Z.of_nat (length (rows_of t aid)) in
  rs = [] ∧ (n ≤ v ∨ n = 0)%Z ∨ (v < n)%Z ∧ ∃ h l, rs = h ++ [l] ∧ er_version l = n.
Proof.
  intros Hc Hst n. pose proof Hst as [_ Hss].
  assert (∀ r, r ∈ rs → (v < er_version r)%Z ∧ (1 ≤ er_version r ≤ n)%Z) as Hle.
  { intros r (Hr & Ha & Hv)%(elem_of_stream _ _ _ _ _ Hst). split; [done|].
    apply (contiguous_versions t aid (er_version r) Hc). exists r. by rewrite elem_of_rows_of. }
  assert (∀ m, (v < m)%Z → (1 ≤ m ≤ n)%Z → ∃ r, r ∈ rs ∧ er_version r = m) as Hin.
  { intros m Hm (r & [Ha Hr]%elem_of_rows_of & Hv)%(contiguous_versions t aid m Hc).
    exists r. split; [|done]. apply (elem_of_stream _ _ _ _ _ Hst). split_and!; [done..|lia]. }
  destruct rs as [|l h _] using rev_ind.
  - left. split; [done|]. destruct (decide (n ≤ v ∨ n = 0)%Z) as [?|Hn]; [done|].
    destruct (Hin n) as (r & Hr & _); [lia..|]. by apply not_elem_of_nil in Hr.
  - assert (l ∈ h ++ [l]) as Hl by (apply elem_of_app; right; by apply list_elem_of_singleton).
    right. destruct (Hle l Hl). split; [lia|]. exists h, l. split; [done|].
    destruct (Hin n) as (r & [Hr| ->%list_elem_of_singleton]%elem_of_app & Hv); [lia..| |done].
    eapply StronglySorted_app_1_elem_of in Hss; [|done|by apply list_elem_of_singleton].
    unfold version_le in Hss. lia.
Qed.

(** What the aggregate a load returns looks like to the handlers. *)
Definition fresh_copy (aid : uuid) (p : ProductAggregate) (ver : Z) : Prop :=
  version (root p) = ver ∧ GetUncommittedEvents p = [] ∧
  aggType (root p) = ProductAggregateType ∧ (id (root p) = aid ∨ id (root p) = uuid_Nil).

Lemma stream_rows t aid v rs :
  products_inv t → stream t aid v rs → Forall product_row rs.
Proof.
  intros [_ _ Hall _ _] Hst. rewrite Forall_forall in Hall |- *.
  intros r (Hr & _)%(elem_of_stream _ _ _ _ _ Hst). by apply Hall.
Qed.

(** The stream was started by a [ProductCreated]. *)
Definition created_stream (t : tables) (aid : uuid) : Prop :=
  ∃ r l, rows_of t aid = r :: l ∧ er_event_type r = ProductCreatedEventType.

Lemma history_id_created aid (evs : list domain_event) i :
  Forall (λ e, AggregateID e = aid) evs →
  Exists (λ e, EventType e = ProductCreatedEventType) evs ∨ i = aid →
  Forall (λ e, is_product_event e = true) evs → history_id evs i = aid.
Proof.
  intros Ha Hex Hp. revert i Hex. induction evs as [|e evs IH]; intros i Hex.
  - by destruct Hex as [?%Exists_nil|].
  - apply Forall_cons in Ha as [Ha Has]. apply Forall_cons in Hp as [Hp Hps].
    destruct e as [e|e|]; simpl; [apply IH; auto| |done]. apply IH; [done..|].
    destruct Hex as [[?|?]%Exists_cons|?]; [done|by left|by right].
Qed.

Lemma history_id_in aid (evs : list domain_event) i :
  Forall (λ e, AggregateID e = aid) evs → history_id evs i = aid ∨ history_id evs i = i.
Proof.
  intros Ha. revert i. induction Ha as [|e evs He _ IH]; intros i; [by right|].
  destruct e as [e|e|]; simpl; [|apply IH..]. simpl in He. rewrite He.
  destruct (IH aid) as [-> | ->]; by left.
Qed.

(** The id of a product restored from its whole history. *)
Definition copy_id (t : tables) (aid : uuid) (v : Z) (p : ProductAggregate) : Prop :=
  (v ≤ 0)%Z → created_stream t aid → id (root p) = aid.

Lemma rehydrated t aid v rs evs (q : ProductAggregate) :
  products_inv t → stream t aid v rs →
  decode_events eventRegistry (row_data <$> rs) = Ok evs →
  root q = NewAggregateRoot ProductAggregateType →
  fresh_copy aid (LoadFromHistory evs q).1 (loaded_version t aid v) ∧
  copy_id t aid v (LoadFromHistory evs q).1.
Proof.
  intros Hinv Hst Hd Hq.
  pose proof (stream_rows _ _ _ _ Hinv Hst) as Hrows.
  destruct (decode_product_rows rs Hrows) as (evs' & Hd' & H2 & Hp).
  rewrite Hd in Hd'. injection Hd' as <-. unfold fresh_copy, copy_id, GetUncommittedEvents.
  rewrite LoadFromHistory_events. unfold loaded_version.
  pose proof (inv_contiguous _ Hinv) as Hc.
  destruct (stream_after t aid v rs Hc Hst) as [[-> Hn]|(Hn & h & l & -> & Hl)].
  - inversion H2; subst. simpl. unfold root in *. simpl in *. rewrite Hq. split.
    + split_and!; try done; [case_match; simpl; lia|by right].
    + intros Hv (r & l & Hr & _). rewrite Hr in Hn. simpl in Hn. lia.
  - assert (Forall (λ e, AggregateID e = aid) evs) as Haid.
    { apply Forall_forall. intros e He. apply list_elem_of_lookup in He as [i Hi].
      destruct (Forall2_lookup_r _ _ _ _ _ H2 Hi) as (r & Hr & _ & _ & -> & _).
      by eapply (elem_of_stream _ _ _ _ _ Hst), list_elem_of_lookup_2. }
    assert ((v ≤ 0)%Z → created_stream t aid →
      Exists (λ e, EventType e = ProductCreatedEventType) evs) as Hcr.
    { intros Hv (r & l' & Hr & Hty).
      assert (r ∈ rows_of t aid) as Hin by (rewrite Hr; by constructor).
      assert (1 ≤ er_version r)%Z by (apply (contiguous_versions t aid _ Hc); eauto).
      apply elem_of_rows_of in Hin as [Ha Hin].
      destruct (proj1 (list_elem_of_lookup (h ++ [l]) r)) as [i Hi].
      { apply (elem_of_stream _ _ _ _ _ Hst). split_and!; [done..|lia]. }
      destruct (Forall2_lookup_l _ _ _ _ _ H2 Hi) as (e & He & _ & Hety & _).
      apply Exists_exists. exists e. split; [by eapply list_elem_of_lookup_2|congruence]. }
    pose proof (history_id_created aid evs (id (root q)) Haid) as Hid.
    apply Forall2_app_inv_l in H2 as (h' & l' & Hh & H2 & ->).
    inversion H2 as [|? e ? ? (He & _) Hnil]; subst. inversion Hnil; subst.
    destruct (LoadFromHistory_last h' e q Hp) as (p & -> & Hv & _ & _ & Hpid & _ & Hty).
    simpl fst. rewrite Hv, Hty, Hq, He, Hl, Hpid. split.
    + split_and!; try done; [case_match; lia|]. rewrite Hq in Hid |- *. by apply history_id_in.
    + intros Hv0 Hcs. apply Hid; [|done]. left. by apply Hcr.
Qed.

Section loading.
Context `{PgxSpec W R} `{SnapshotFrequency}.
Implicit Types (w : W).

Lemma wp_Repository_Load ctx aid (Q : res ProductAggregate → W → Prop) w :
  products_inv (committed w) →
  (∀ w' snap v p, still w w' → (∀ tx, tx_state w' tx = tx_state w tx) →
     latest_snapshot (committed w) aid snap v →
     fresh_copy aid p (loaded_version (committed w) aid v) → Q (Ok p) w') →
  (∀ w' e, still w w' → (∀ tx, tx_state w' tx = tx_state w tx) → Q (Err e) w') →
  wp (Repository_Load newEmptyProduct ctx aid) Q w.
Proof.
  intros Hinv Ho He. apply wp_bind, wp_EventStore_Load; [|intros; by apply wp_ret, He].
  intros w1 snap v rs evs Hs Ht Hsn Hst Hd.
  destruct snap as [pl|].
  - destruct (UnmarshalJSON pl newEmptyProduct) as [q [e|]] eqn:Hu; apply wp_ret; [by apply He|].
    eapply Ho; [done..|]. eapply rehydrated; [done..|]. by eapply UnmarshalJSON_root.
  - apply wp_ret. eapply Ho; [done..|]. by eapply rehydrated.
Qed.
End loading.

Section loading_reliable.
Context `{PgxReliable W R} `{SnapshotFrequency}.
Implicit Types (w : W).

Lemma wp_Repository_Load_reliable ctx aid (Q : res ProductAggregate → W → Prop) w :
  products_inv (committed w) →
  (∀ w' snap v p, still w w' → (∀ tx, tx_state w' tx = tx_state w tx) →
     latest_snapshot (committed w) aid snap v →
     fresh_copy aid p (loaded_version (committed w) aid v) → copy_id (committed w) aid v p →
     Q (Ok p) w') →
  wp (Repository_Load newEmptyProduct ctx aid) Q w.
Proof.
  intros Hinv Ho. apply wp_bind, wp_EventStore_Load_reliable.
  intros w1 snap v rs Hs Ht Hsn Hst.
  pose proof (stream_rows _ _ _ _ Hinv Hst) as Hrows.
  destruct (decode_product_rows rs Hrows) as (evs & Hd & _). rewrite Hd.
  destruct snap as [pl|].
  - assert (∃ q, MarshalJSON q = Ok pl) as [p Hm].
    { destruct Hsn as [[? _]|(s & Hin & _ & [= ->] & _)]; [done|].
      pose proof (inv_snapshots _ Hinv) as Hall. rewrite Forall_forall in Hall.
      destruct (Hall _ Hin) as (? & ? & q & _ & _ & Hq & _). by exists q. }
    destruct (UnmarshalJSON_MarshalJSON p newEmptyProduct pl Hm) as (q & Hu & _).
    rewrite Hu. apply wp_ret. apply UnmarshalJSON_root in Hu.
    by eapply Ho; [done..| |]; eapply rehydrated.
  - apply wp_ret. by eapply Ho; [done..| |]; eapply rehydrated.
Qed.
End loading_reliable.

(** Tracking a product event on any aggregate. *)
Definition event_product (evt : domain_event) (p : ProductAggregate) : Product :=
  {| prod_ID := prod_ID (pa_Product p); prod_Name := event_name evt; prod_Price := event_price evt |}.

Lemma TrackChange_product evt (p : ProductAggregate) :
  is_product_event evt = true →
  ∃ p', TrackChange evt p =
      (p', Wrapf "state validation failed after applying event" <$>
             Product_Validate (event_product evt p)) ∧
    (Product_Validate (event_product evt p) = None →
     GetUncommittedEvents p' = GetUncommittedEvents p ++ [evt] ∧
     version (root p') = Version evt ∧ aggType (root p') = aggType (root p) ∧
     pa_Product p' = event_product evt p ∧ id (root p') = history_id [evt] (id (root p))).
Proof.
  intros Hp. unfold TrackChange. destruct evt as [[b n pr]|[b n pr]|]; [..|done]; simpl;
    unfold ProductAggregate_Validate, event_product; simpl; (destruct (Product_Validate _); eexists; (split; [done|]); done).
Qed.

Lemma TrackChange_carries evt (p : ProductAggregate) pv :
  is_product_event evt = true → fresh_copy (AggregateID evt) p pv →
  ∃ p', TrackChange evt p =
      (p', Wrapf "state validation failed after applying event" <$>
             Product_Validate (event_product evt p)) ∧
    (Product_Validate (event_product evt p) = None →
     GetUncommittedEvents p' = [evt] ∧ carries evt p' ∧
     id (root p') = history_id [evt] (id (root p))).
Proof.
  intros Hp (_ & He & Hty & Hi). destruct (TrackChange_product evt p Hp) as (p' & -> & Hok).
  exists p'. split; [done|]. intros (He' & Hv & Hty' & Hpr & Hid)%Hok.
  rewrite He in He'. split_and!; [done| |done]. unfold carries. rewrite Hv, Hty', Hpr, Hid.
  split_and!; [done..|]. destruct evt; [by left|done|done].
Qed.

Lemma fresh_copy_empty aid : fresh_copy aid NewProductAggregateEmpty 0.
Proof. split_and!; [done..|by right]. Qed.

Lemma Product_Validate_ext p q :
  prod_Name p = prod_Name q → prod_Price p = prod_Price q → Product_Validate p = Product_Validate q.
Proof. unfold Product_Validate. by intros -> ->. Qed.

(** ** Commands in general *)

Inductive command :=
  | CreateCommand (cmd : CreateProductCommand)
  | UpdateCommand (cmd : UpdateProduct).

Definition command_id (c : command) : uuid :=
  match c with CreateCommand c => cp_ID c | UpdateCommand c => up_ID c end.

(** The product value the command asks for. *)
Definition command_product (c : command) : Product :=
  match c with
  | CreateCommand c => {| prod_ID := uuid_Nil; prod_Name := cp_Name c; prod_Price := cp_Price c |}
  | UpdateCommand c => {| prod_ID := uuid_Nil; prod_Name := up_Name c; prod_Price := up_Price c |}
  end.

Definition command_event (newID : uuid) (now : time) (c : command) (ver : Z) : domain_event :=
  match c with
  | CreateCommand c => create_event newID now c ver
  | UpdateCommand c => update_event newID now c ver
  end.

Definition command_Handle {W C} `{Transactor W C} `{Store W C domain_event ProductAggregate}
    (newID : uuid) (now : time) (ctx : C) (c : command) : M W (option error) :=
  match c with
  | CreateCommand c => CreateProductHandler_Handle newID now ctx c
  | UpdateCommand c => UpdateProductHandler_Handle newID now ctx c
  end.

Lemma command_event_product newID now c ver :
  is_product_event (command_event newID now c ver) = true ∧
  AggregateType (command_event newID now c ver) = ProductAggregateType ∧
  AggregateID (command_event newID now c ver) = command_id c ∧
  EventID (command_event newID now c ver) = newID ∧
  Version (command_event newID now c ver) = ver ∧
  Timestamp (command_event newID now c ver) = now.
Proof. by destruct c. Qed.

Lemma command_event_Validate newID now c ver p :
  Product_Validate (event_product (command_event newID now c ver) p) =
  Product_Validate (command_product c).
Proof. destruct c; by apply Product_Validate_ext. Qed.

(** The effect of a successful command: its event, with the next version of its
    stream, is appended to both tables, with at most a snapshot of an aggregate [p]
    of that version. *)
Definition appended `{PgCodec} (freq : Z) (evt : domain_event) (p : ProductAggregate)
    (t t' : tables) : Prop :=
  ∃ r sn, stored_as evt r ∧ fresh_in (event_store t) r ∧ snapshot_of freq p sn ∧
    carries evt p ∧
    Version evt = (Z.of_nat (length (rows_of t (AggregateID evt))) + 1)%Z ∧
    t' = save_tables [r] sn t.

Section command_lemmas.
Context `{PgxSpec W R} `{!PgCodecSpec} `{SnapshotFrequency}.
Implicit Types (w : W) (t : tables).

Lemma active_wf w tx t : active w tx t → tables_wf (committed w) → tables_wf t.
Proof. intros (log & _ & Hr). by eapply replay_wf. Qed.

Lemma appended_inv evt p t t' :
  is_product_event evt = true → AggregateType evt = ProductAggregateType →
  products_inv t → tables_wf t' → appended snapshotFrequency evt p t t' → products_inv t'.
Proof.
  intros Hp Hty Hinv Hwf (r & sn & Hst & _ & Hsn & Hca & Hv & ->).
  by eapply products_inv_append.
Qed.

(** The next version: 1 for a creation, one more than the loaded one for an update. *)
Definition next_version (t : tables) (c : command) (ver : Z) : Prop :=
  match c with
  | CreateCommand _ => ver = 1%Z
  | UpdateCommand c => ∃ snap v, latest_snapshot t (up_ID c) snap v ∧
      ver = int_add (loaded_version t (up_ID c) v) 1
  end.

(** A row that is fresh and has such a version continues its stream. *)
Lemma next_version_fresh newID now t c ver r :
  products_inv t → next_version t c ver → stored_as (command_event newID now c ver) r →
  fresh_in (event_store t) r →
  ver = (Z.of_nat (length (rows_of t (command_id c))) + 1)%Z.
Proof.
  intros Hinv Hn Hst Hf. pose proof (inv_contiguous _ Hinv) as Hc.
  destruct (command_event_product newID now c ver) as (Hp & Hty & Ha & _ & Hv & _).
  pose proof (stored_as_product _ _ Hp Hty Hst) as (_ & Hra & Hrv & _ & _ & _ & Hok & _).
  rewrite Ha in Hra. rewrite Hv in Hrv.
  assert (ver = 1%Z → ver = (Z.of_nat (length (rows_of t (command_id c))) + 1)%Z) as Hone.
  { intros ->. rewrite <- Hra, (fresh_version_one t r) by done. done. }
  destruct c as [c|c]; simpl in *; [by apply Hone|].
  destruct Hn as (snap & v & _ & ->). unfold loaded_version in *.
  destruct (v <? _)%Z; [|by apply Hone].
  assert (0 ≤ Z.of_nat (length (rows_of t (up_ID c))))%Z by lia.
  set (n := Z.of_nat (length (rows_of t (up_ID c)))) in *.
  destruct (decide (n = 0)%Z) as [Hn0|Hn0]; [rewrite Hn0 in *; by apply Hone|].
  destruct (proj2 (contiguous_versions t (up_ID c) n Hc)) as (x & [Hxa Hx]%elem_of_rows_of & Hxv);
    [unfold n; lia|].
  apply int4_ok_succ. rewrite <- Hxv. pose proof (wf_event_versions _ (inv_wf _ Hinv)) as Hall.
  rewrite Forall_forall in Hall. by apply Hall.
Qed.

(** Saving an aggregate that has tracked the command's event. *)
Lemma wp_Repository_Save_one ctx tx evt p t (Q : option error * ProductAggregate → W → Prop) w :
  ctx_tx ctx = Some tx → active w tx t → GetUncommittedEvents p = [evt] →
  (∀ w' a, still w w' →
     (∀ t', active w' tx t' → ∃ r sn, stored_as evt r ∧ fresh_in (event_store t) r ∧
        snapshot_of snapshotFrequency p sn ∧ t' = save_tables [r] sn t) →
     Q (None, a) w') →
  (∀ w' e a, still w w' → Q (Some (Wrapf "failed to save aggregate" e), a) w') →
  wp (Repository_Save ctx p) Q w.
Proof.
  intros Hctx Ha Hev Ho He. unfold Repository_Save. rewrite Hev.
  apply wp_bind, (wp_EventStore_Save _ _ tx); [done|by rewrite Hev| |].
  - intros w' Hs Hsv. apply wp_ret, Ho; [done|]. intros t' (t0 & Ha0 & Hsd)%Hsv.
    rewrite (active_fun _ _ _ _ Ha0 Ha) in Hsd.
    destruct Hsd as (rs & sn & Hrs & Hf & Hsn & ->). rewrite Hev in Hrs.
    inversion Hrs as [|? r ? ? Hst Hnil]; subst. inversion Hnil; subst.
    destruct Hf as [Hf _]. by exists r, sn.
  - intros w' e Hs. by apply wp_ret, He.
Qed.

(** What a command may leave behind. *)
Definition command_post (newID : uuid) (now : time) (c : command) (w : W)
    (r : option error) (w' : W) : Prop :=
  rest w' = rest w ∧
  ((committed w' = committed w ∧ r ≠ None) ∨
   (Product_Validate (command_product c) = None ∧ products_inv (committed w') ∧
    ∃ ver p, next_version (committed w) c ver ∧
      appended snapshotFrequency (command_event newID now c ver) p (committed w) (committed w'))).

(** The rest of a handler's transaction once the event is tracked. *)
Lemma wp_track_and_save newID now c ctx tx ver pv (p : ProductAggregate) w w1
    (fin : error → error) (onerr : error → M W (option error))
    (f : option error * ProductAggregate → M W (option error)) :
  products_inv (committed w) → still w w1 → active w1 tx (committed w) →
  ctx_tx ctx = Some tx → fresh_copy (command_id c) p pv → next_version (committed w) c ver →
  (∀ e, onerr e = mret (Some (fin e))) →
  (∀ e a w', wp (f (Some e, a)) (λ r w2, ∃ e', r = Some e' ∧ w2 = w') w') →
  (∀ a w', f (None, a) w' = (w', None)) →
  wp (match TrackChange (command_event newID now c ver) p with
      | (_, Some err) => onerr err
      | (p, None) => r ← Repository_Save ctx p; f r
      end) (λ r w2,
      match r with
      | Some e => ∀ w3, still w2 w3 → command_post newID now c w (Some e) w3
      | None =>
          (∀ w3 t, active w2 tx t → committed w3 = t → rest w3 = rest w2 →
             command_post newID now c w None w3 ∧ ∀ e, command_post newID now c w (Some e) w3) ∧
          (∀ w3 e, still w2 w3 → command_post newID now c w (Some e) w3)
      end) w1.
Proof.
  intros Hinv Hs1 Ha1 Hctx Hfc Hn Hon Hf Hf'.
  destruct (command_event_product newID now c ver) as (Hp & Hty & Hai & _ & Hv & _).
  assert (∀ w2 w3 e, still w1 w2 → still w2 w3 → command_post newID now c w (Some e) w3) as Hsame.
  { intros w2 w3 e Hs2 Hs3. split; [by rewrite Hs1, Hs2, Hs3|].
    left. split; [by rewrite Hs1, Hs2, Hs3|done]. }
  rewrite <- Hai in Hfc. destruct (TrackChange_carries _ _ _ Hp Hfc) as (p' & -> & Hok).
  rewrite command_event_Validate in Hok |- *.
  destruct (Product_Validate (command_product c)) as [e|] eqn:Hval; simpl.
  - rewrite Hon. apply wp_ret. intros w3 Hs3. by apply (Hsame w1).
  - destruct (Hok eq_refl) as (He' & Hca & _).
    apply wp_bind. eapply wp_Repository_Save_one; [done..| |].
    + intros w2 a Hs2 Hsv. unfold wp. rewrite Hf'. simpl. split.
      * intros w3 t Ha2 <- Hr3. destruct (Hsv _ Ha2) as (r & sn & Hst & Hfr & Hsn & Ht).
        assert (appended snapshotFrequency (command_event newID now c ver) p'
                  (committed w) (committed w3)) as Hap.
        { exists r, sn. split_and!; [done..| |done].
          rewrite Hv, Hai. by eapply next_version_fresh. }
        assert (products_inv (committed w3)) as Hinv3.
        { eapply appended_inv; [done..| |done]. eapply active_wf; [done|].
          rewrite <- Hs2, <- Hs1. apply Hinv. }
        assert (∀ r, command_post newID now c w r w3) as Hpost.
        { intros r0. split; [by rewrite Hr3, Hs1, Hs2|]. right. split_and!; [done..|]. eauto. }
        auto.
      * intros w3 e Hs3. by apply (Hsame w2).
    + intros w2 e a Hs2. eapply wp_mono; [apply Hf|]. intros r w2' (e' & -> & ->) w3 Hs3.
      by apply (Hsame w2).
Qed.

Lemma command_Handle_post newID now ctx c w w' r :
  products_inv (committed w) → command_Handle newID now ctx c w = (w', r) →
  command_post newID now c w r w'.
Proof.
  intros Hinv Hrun.
  assert (∀ w1 e, still w w1 → command_post newID now c w (Some e) w1) as Hsame.
  { intros w1 e Hs. split; [by rewrite Hs|]. left. by rewrite Hs. }
  wp_start Hrun. destruct c as [c|c]; unfold command_Handle.
  - apply wp_bind, wp_mono with (P := λ r w', command_post newID now (CreateCommand c) w r w');
      [|by intros [e|]].
    apply wp_WithTransaction; [done|]. intros w1 tx Hs1 Ha1 _.
    apply (wp_track_and_save newID now (CreateCommand c) _ tx 1 0
             NewProductAggregateEmpty w w1 (Wrapf "trace create product failed")); try done; [apply fresh_copy_empty|].
    intros e a w2. unfold wp. simpl. eauto.
  - apply wp_WithTransaction; [done|]. intros w1 tx Hs1 Ha1 _.
    apply wp_bind, wp_Repository_Load; [by rewrite <- Hs1| |].
    + intros w2 snap v p Hs2 Ht2 Hsn Hfc. rewrite (still_committed _ _ Hs1) in Hsn, Hfc.
      eapply (wp_track_and_save newID now (UpdateCommand c) _ tx
                (int_add (version (root p)) 1) _ p w w2 (Wrapf "track update product failed")
                (λ e, mret (Some (Wrapf "track update product failed" e))) (λ r, mret r.1));
        [done|by rewrite Hs1| |done|done| |done| |done].
      * eapply active_still; [|by apply Ht2|done]. by rewrite Hs2.
      * exists snap, v. split; [done|]. by destruct Hfc as [-> _].
      * intros e a w3. unfold wp. simpl. eauto.
    + intros w2 e Hs2 _. apply wp_ret. intros w3 Hs3. apply Hsame. by rewrite Hs1, Hs2.
Qed.
End command_lemmas.

(** ** Theorems *)

(** A stream whose latest snapshot is at its last version (or beyond). *)
Definition frozen (t : tables) (aid : uuid) : Prop :=
  rows_of t aid ≠ [] ∧
  ∃ s, s ∈ snapshots t ∧ sr_aggregate_id s = aid ∧
    (Z.of_nat (length (rows_of t aid)) ≤ sr_aggregate_version s)%Z.

(** Commands in sequence, with their results. *)
Fixpoint run_commands {W C} `{Transactor W C} `{Store W C domain_event ProductAggregate}
    (ctx : C) (cs : list (uuid * time * command)) : M W (list (option error)) :=
  match cs with
  | [] => mret []
  | (newID, now, c) :: cs =>
      r ← command_Handle newID now ctx c;
      rs ← run_commands ctx cs;
      mret (r :: rs)
  end.

Section command_theorems.
Context `{PgxSpec W R} `{!PgCodecSpec} `{SnapshotFrequency}.
Implicit Types (w : W) (t : tables).

Lemma appended_rows newID now c ver p t t' :
  appended snapshotFrequency (command_event newID now c ver) p t t' →
  ∃ row sn, stored_as (command_event newID now c ver) row ∧ t' = save_tables [row] sn t ∧
    er_aggregate_id row = command_id c ∧
    rows_of t' (command_id c) = rows_of t (command_id c) ++ [row] ∧
    (∀ aid, aid ≠ command_id c → rows_of t' aid = rows_of t aid).
Proof.
  destruct (command_event_product newID now c ver) as (Hp & Hty & Ha & _).
  intros (row & sn & Hst & _ & _ & _ & _ & ->).
  pose proof (stored_as_product _ _ Hp Hty Hst) as (_ & Hra & _). rewrite Ha in Hra.
  exists row, sn. split_and!; [done..| |].
  - rewrite rows_of_save. by rewrite decide_True.
  - intros aid Haid. rewrite rows_of_save, decide_False by congruence. by rewrite app_nil_r.
Qed.

(** C10: what a command does, whatever fails on the way.  Either nothing changes and
    an error is returned; or the command was valid and exactly one row, its event
    with the next version of the product's stream, was appended to that stream and
    to the outbox, unpublished, the other streams being untouched (the error return
    is then a lost acknowledgement of the commit).  A create only ever starts a
    stream.  In both cases the stream invariant holds afterwards. *)
Theorem command_appends_one newID now ctx c w w' r :
  products_inv (committed w) →
  command_Handle newID now ctx c w = (w', r) →
  products_inv (committed w') ∧ rest w' = rest w ∧
  ((committed w' = committed w ∧ r ≠ None) ∨
   (Product_Validate (command_product c) = None ∧
    ∃ row, let n := length (rows_of (committed w) (command_id c)) in
      stored_as (command_event newID now c (Z.of_nat n + 1)) row ∧
      rows_of (committed w') (command_id c) = rows_of (committed w) (command_id c) ++ [row] ∧
      (∀ aid, aid ≠ command_id c → rows_of (committed w') aid = rows_of (committed w) aid) ∧
      outbox (committed w') =
        outbox (committed w) ++ [{| or_event := row; or_published := false |}] ∧
      match c with CreateCommand _ => n = 0 | UpdateCommand _ => True end)).
Proof.
  intros Hinv Hrun.
  destruct (command_Handle_post _ _ _ _ _ _ _ Hinv Hrun) as [Hr [[Hc He]|(Hv & Hinv' & Hap)]].
  { rewrite Hc. auto. }
  destruct Hap as (ver & p & Hn & Hap). split_and!; [done..|]. right. split; [done|].
  destruct (appended_rows _ _ _ _ _ _ _ Hap) as (row & sn & Hst & Ht & _ & Hrow & Hoth).
  destruct Hap as (_ & _ & _ & _ & _ & _ & Hver & _).
  destruct (command_event_product newID now c ver) as (_ & _ & Ha & _ & Hv' & _).
  rewrite Hv', Ha in Hver. exists row. simpl. rewrite <- Hver. split_and!; [done..| |].
  - by rewrite Ht.
  - destruct c; [|done]. simpl in *. lia.
Qed.

(** A command on a frozen product changes nothing and fails. *)
Lemma frozen_rejects newID now ctx c w w' r :
  products_inv (committed w) → frozen (committed w) (command_id c) →
  command_Handle newID now ctx c w = (w', r) → committed w' = committed w ∧ r ≠ None.
Proof.
  intros Hinv (Hne & s & Hs & Hsa & Hsv) Hrun.
  destruct (command_Handle_post _ _ _ _ _ _ _ Hinv Hrun) as [Hr [?|(Hv & Hinv' & Hap)]]; [done|].
  exfalso. destruct Hap as (ver & p & Hn & Hap).
  destruct Hap as (_ & _ & _ & _ & _ & _ & Hver & _).
  destruct (command_event_product newID now c ver) as (_ & _ & Ha & _ & Hv' & _).
  rewrite Hv', Ha in Hver.
  assert (0 < length (rows_of (committed w) (command_id c))) by (by destruct (rows_of _ _); simpl; [|lia]).
  assert (ver = 1%Z); [|lia].
  destruct c as [c|c]; simpl in *; [done|]. destruct Hn as (snap & v & Hsn & ->).
  unfold loaded_version. case_match eqn:Hlt; [|done]. exfalso.
  destruct Hsn as [(_ & _ & Hall)|(s' & _ & _ & _ & -> & Hmax)].
  - rewrite Forall_forall in Hall. by apply (Hall s).
  - specialize (Hmax s Hs Hsa). lia.
Qed.

Lemma frozen_step newID now ctx c w w' r aid :
  products_inv (committed w) → frozen (committed w) aid →
  command_Handle newID now ctx c w = (w', r) →
  products_inv (committed w') ∧ frozen (committed w') aid ∧
  rows_of (committed w') aid = rows_of (committed w) aid ∧ (command_id c = aid → r ≠ None).
Proof.
  intros Hinv Hfr Hrun. destruct (decide (command_id c = aid)) as [<-|Hne].
  - destruct (frozen_rejects _ _ _ _ _ _ _ Hinv Hfr Hrun) as [-> ?]. done.
  - destruct (command_Handle_post _ _ _ _ _ _ _ Hinv Hrun) as [Hr [[-> _]|(Hv & Hinv' & Hap)]];
      [done|].
    destruct Hap as (ver & p & Hn & Hap).
    destruct (appended_rows _ _ _ _ _ _ _ Hap) as (row & sn & _ & Ht & _ & _ & Hoth).
    rewrite (Hoth aid) by done. split_and!; [done| |done|done].
    destruct Hfr as (Hf1 & s & Hs & Hsa & Hsv). unfold frozen. rewrite (Hoth aid) by done.
    split; [done|]. exists s. rewrite Ht. split; [|done]. simpl. apply elem_of_app. by left.
Qed.

(** C21: a snapshot at a product's latest version freezes the product for good.  The
    aggregate restored from such a snapshot has version 0, so every later command
    on the product collides with its first event: whatever is run afterwards, with
    or without failures, no command on it succeeds and its stream stays as it is. *)
Theorem product_frozen_forever ctx cs w w' rs aid :
  products_inv (committed w) → frozen (committed w) aid →
  run_commands ctx cs w = (w', rs) →
  rows_of (committed w') aid = rows_of (committed w) aid ∧
  Forall2 (λ '(_, _, c) r, command_id c = aid → r ≠ None) cs rs.
Proof.
  revert w rs. induction cs as [|[[newID now] c] cs IH]; intros w rs Hinv Hfr; simpl.
  - intros [= <- <-]. by split.
  - unfold mbind, M_bind. destruct (command_Handle newID now ctx c w) as [w1 r] eqn:Hc.
    destruct (run_commands ctx cs w1) as [w2 rs'] eqn:Hcs. intros [= <- <-].
    destruct (frozen_step _ _ _ _ _ _ _ _ Hinv Hfr Hc) as (Hinv1 & Hfr1 & <- & Hrej).
    destruct (IH w1 rs' Hinv1 Hfr1 Hcs) as [-> ?]. split; [done|]. by constructor.
Qed.
End command_theorems.

(** ** Theorems: exact outcomes when nothing outside fails *)

(** What PostgreSQL and JSON can hold of a command. *)
Definition storable (now : time) (c : command) : Prop :=
  float_finite (prod_Price (command_product c)) = true ∧ year_ok now = true ∧
  has_nul (to_valid_utf8 (prod_Name (command_product c))) = false.

Section storable_lemmas.
Context `{PgCodec}.

Lemma storable_stored newID now c ver :
  storable now c → int4_ok ver = true → ∃ row, stored_as (command_event newID now c ver) row.
Proof.
  intros (Hf & Hy & Hn) Hv.
  unfold stored_as, event_params, event_columns.
  destruct c as [c|c]; simpl in *; unfold enc_object; simpl; rewrite Hy, Hf; simpl;
    eexists; eexists; (split; [done|]); simpl; rewrite Hv, Hn; done.
Qed.

Lemma snapshot_storable_product freq (p : ProductAggregate) :
  aggType (root p) = ProductAggregateType → int4_ok (version (root p)) = true →
  has_nul (to_valid_utf8 (prod_Name (pa_Product p))) = false →
  snapshot_storable freq p.
Proof.
  intros Hty Hv Hn _ pl. simpl. unfold ProductAggregate_MarshalJSON, Product_Marshal.
  intros Hm. enc_inv. simpl in *. simplify_eq/=.
  unfold snapshot_columns, snapshot_params, AggregateRoot_AggregateType, AggregateRoot_Version, root. simpl. unfold root in Hty, Hv. simpl in Hty, Hv.
  rewrite Hty, Hv. simpl. destruct (float_finite _); simplify_eq/=. rewrite Hn. simpl. eauto.
Qed.
End storable_lemmas.

Section command_outcomes.
Context `{PgxReliable W R} `{!PgCodecSpec} `{SnapshotFrequency}.
Implicit Types (w : W) (t : tables).

(** A row is fresh exactly if its id is new and its version continues the stream,
    for the two versions a handler may choose. *)
Lemma fresh_next_version newID now t c ver r :
  products_inv t → next_version t c ver → stored_as (command_event newID now c ver) r →
  fresh_in (event_store t) r ↔
  Forall (λ x, er_event_id x ≠ newID) (event_store t) ∧
  ver = (Z.of_nat (length (rows_of t (command_id c))) + 1)%Z.
Proof.
  intros Hinv Hn Hst.
  destruct (command_event_product newID now c ver) as (Hp & Hty & Ha & Hid & Hv & _).
  pose proof (stored_as_product _ _ Hp Hty Hst) as (Hri & Hra & Hrv & _).
  rewrite Hid in Hri. rewrite Ha in Hra. rewrite Hv in Hrv. split.
  - intros Hf. split; [|by eapply next_version_fresh].
    eapply Forall_impl; [exact Hf|]. intros x [Hx _] Hi. congruence.
  - intros [Hall Hver]. unfold fresh_in. rewrite Forall_forall in Hall |- *. intros x Hx.
    split; [intros Hi; apply (Hall x Hx); congruence|].
    intros [= Hxa Hxv].
    assert (1 ≤ ver ≤ Z.of_nat (length (rows_of t (command_id c))))%Z; [|lia].
    rewrite <- (contiguous_versions t _ _ (inv_contiguous _ Hinv)). exists x.
    rewrite elem_of_rows_of. split; [split; [congruence|done]|congruence].
Qed.

Lemma wp_Repository_Save_one_reliable ctx tx evt p row t
    (Q : option error * ProductAggregate → W → Prop) w :
  ctx_tx ctx = Some tx → active w tx t → GetUncommittedEvents p = [evt] → stored_as evt row →
  mirrored t → snapshot_storable snapshotFrequency p →
  (∀ w' a sn, still w w' → fresh_in (event_store t) row → snapshot_of snapshotFrequency p sn →
     snapshot_present snapshotFrequency p (save_tables [row] sn t) →
     active w' tx (save_tables [row] sn t) → Q (None, a) w') →
  (∀ w' e a, still w w' → ¬ fresh_in (event_store t) row → errors_as_concurrency e = true →
     Q (Some e, a) w') →
  wp (Repository_Save ctx p) Q w.
Proof.
  intros Hctx Ha Hev Hst Hm Hsn Ho He. unfold Repository_Save. rewrite Hev.
  assert (Forall2 stored_as (GetUncommittedEvents p) [row]) as Hrs.
  { rewrite Hev. by repeat constructor. }
  apply wp_bind, (wp_EventStore_Save_reliable _ _ tx p [row] t); try done; [by rewrite Hev|..].
  - intros w' Hs [Hf _] (t' & Ha' & (rs & sn & Hrs' & _ & Hsn' & ->) & Hpres).
    rewrite (stored_as_fun _ _ _ Hrs' Hrs) in *. apply wp_ret. by eapply Ho.
  - intros w' Hs Hf. apply wp_ret, He; [done| |done]. intros ?. by apply Hf.
Qed.

(** What a command does when the server is reliable. *)
Definition command_result (newID : uuid) (now : time) (c : command) (ver : Z) (w : W)
    (r : option error) (w' : W) : Prop :=
  match Product_Validate (command_product c) with
  | Some e =>
      committed w' = committed w ∧
      ∃ msg, r = Some (Wrapf msg (Wrapf "state validation failed after applying event" e))
  | None =>
      if decide (Forall (λ x, er_event_id x ≠ newID) (event_store (committed w)) ∧
                 ver = (Z.of_nat (length (rows_of (committed w) (command_id c))) + 1)%Z)
      then r = None ∧
           ∃ p, appended snapshotFrequency (command_event newID now c ver) p
                  (committed w) (committed w') ∧
                (shouldSnapshot snapshotFrequency p = true →
                 ∃ s, s ∈ snapshots (committed w') ∧ sr_aggregate_id s = id (root p) ∧
                      sr_aggregate_version s = ver) ∧
                (match c with
                 | CreateCommand _ => True
                 | UpdateCommand c =>
                     Forall (λ s, sr_aggregate_id s ≠ up_ID c) (snapshots (committed w))
                 end →
                 created_stream (committed w') (command_id c) → id (root p) = command_id c)
      else committed w' = committed w ∧ ∃ e, r = Some e ∧ errors_as_concurrency e = true
  end.

Lemma int4_ok_next t c ver :
  products_inv t → next_version t c ver →
  (Z.of_nat (length (rows_of t (command_id c))) + 1 < 2 ^ 31)%Z → int4_ok ver = true.
Proof.
  intros Hinv Hn Hlt. destruct c as [c|c]; simpl in *; [by subst|].
  destruct Hn as (snap & v & _ & ->). unfold loaded_version. case_match; [|done].
  apply int4_ok_range. unfold int_add. rewrite int_wrap_id; unfold int_range; lia.
Qed.

Lemma wp_track_and_save_reliable newID now c ctx tx ver pv (p : ProductAggregate) w w1
    (msg : string) (f : option error * ProductAggregate → M W (option error)) :
  products_inv (committed w) → still w w1 → active w1 tx (committed w) →
  ctx_tx ctx = Some tx → fresh_copy (command_id c) p pv → next_version (committed w) c ver →
  storable now c → int4_ok ver = true →
  match c with
  | CreateCommand _ => True
  | UpdateCommand c =>
      Forall (λ s, sr_aggregate_id s ≠ up_ID c) (snapshots (committed w)) →
      created_stream (committed w) (up_ID c) → id (root p) = up_ID c
  end →
  (∀ e a w', ∃ e', f (Some e, a) w' = (w', Some e') ∧
                   errors_as_concurrency e' = errors_as_concurrency e) →
  (∀ a w', f (None, a) w' = (w', None)) →
  wp (match TrackChange (command_event newID now c ver) p with
      | (_, Some err) => mret (Some (Wrapf msg err))
      | (p, None) => r ← Repository_Save ctx p; f r
      end) (λ r w2,
      match r with
      | Some e => ∀ w3, still w2 w3 → command_result newID now c ver w (Some e) w3
      | None => ∃ t, active w2 tx t ∧
          ∀ w3, committed w3 = t → rest w3 = rest w2 → command_result newID now c ver w None w3
      end) w1.
Proof.
  intros Hinv Hs1 Ha1 Hctx Hfc Hn Hsto Hi Hcid Hf Hf'.
  destruct (command_event_product newID now c ver) as (Hp & Hty & Hai & _ & Hv & _).
  destruct (storable_stored newID now c ver Hsto Hi) as [row Hst].
  pose proof (fresh_next_version _ _ _ _ _ _ Hinv Hn Hst) as Hfresh.
  rewrite <- Hai in Hfc. destruct (TrackChange_carries _ _ _ Hp Hfc) as (p' & -> & Hok).
  rewrite command_event_Validate in Hok |- *.
  unfold command_result.
  destruct (Product_Validate (command_product c)) as [e|] eqn:Hval; simpl.
  { apply wp_ret. intros w3 Hs3. split; [by rewrite Hs1, Hs3|eauto]. }
  destruct (Hok eq_refl) as (He' & Hca & Hpid). pose proof Hca as (Hv' & Hty' & Hname & Hprice & _).
  assert (prod_Name (pa_Product p') = prod_Name (command_product c)) as Hname'.
  { rewrite Hname. by destruct c. }
  apply wp_bind. eapply wp_Repository_Save_one_reliable; [done..| | | |].
  - apply inv_mirrored, Hinv.
  - apply snapshot_storable_product; [congruence|congruence|]. rewrite Hname'. apply Hsto.
  - intros w2 a sn Hs2 Hfr Hsn Hpres Ha2. unfold wp. rewrite Hf'. simpl.
    exists (save_tables [row] sn (committed w)). split; [done|]. intros w3 Hc3 Hr3.
    rewrite decide_True by (by apply Hfresh). split; [done|]. exists p'. rewrite Hc3.
    split; [|split].
    2:{ intros Hsh. assert (∃ pl, MarshalJSON p' = Ok pl) as [pl Hpl].
        { simpl. unfold ProductAggregate_MarshalJSON, Product_Marshal, enc_object. rewrite Hprice.
          simpl. destruct Hsto as (Hfin & _). destruct c; simpl in *; rewrite Hfin; eauto. }
        destruct (Hpres Hsh pl Hpl) as (s & ? & ? & Hsv). exists s. by rewrite Hsv, Hv', Hv. }
    2:{ intros Hno Hcs. etrans; [exact Hpid|]. destruct c as [c|c]; simpl; [done|].
        apply Hcid; [done|]. destruct (stored_as_product _ _ Hp Hty Hst) as (_ & Hra & _ & Hre & _).
        rewrite Hai in Hra. destruct Hcs as (r & l & Hr & Hrt).
        rewrite rows_of_save, decide_True in Hr by done.
        destruct (rows_of (committed w) _) as [|r' l'] eqn:Hrows; simplify_eq/=; [by rewrite Hre in Hrt|].
        by exists r, l'. }
    exists row, sn. split_and!; [done..| |done].
    rewrite Hv, Hai. by apply Hfresh.
  - intros w2 e a Hs2 Hfr Hcc. destruct (Hf e a w2) as (e' & Hfe & Hcc'). unfold wp. rewrite Hfe.
    simpl. intros w3 Hs3. rewrite decide_False by (intros Hx; by apply Hfr, Hfresh).
    split; [by rewrite Hs1, Hs2, Hs3|]. exists e'. by rewrite Hcc'.
Qed.

Lemma command_Handle_result newID now ctx c w w' r :
  products_inv (committed w) → storable now c →
  (Z.of_nat (length (rows_of (committed w) (command_id c))) + 1 < 2 ^ 31)%Z →
  command_Handle newID now ctx c w = (w', r) →
  ∃ ver, next_version (committed w) c ver ∧ command_result newID now c ver w r w'.
Proof.
  intros Hinv Hsto Hlt Hrun. destruct c as [c|c]; unfold command_Handle in Hrun.
  - exists 1%Z. split; [done|]. wp_start Hrun.
    apply wp_bind, wp_mono with (P := λ r w', command_result newID now (CreateCommand c) 1 w r w');
      [|by intros [e|]].
    apply wp_WithTransaction_reliable. intros w1 tx Hs1 Ha1 _.
    apply (wp_track_and_save_reliable newID now (CreateCommand c) _ tx 1 0
             NewProductAggregateEmpty w w1); try done; [apply fresh_copy_empty|eauto].
  - wp_start Hrun. apply wp_WithTransaction_reliable. intros w1 tx Hs1 Ha1 _.
    apply wp_bind, wp_Repository_Load_reliable; [by rewrite <- Hs1|].
    intros w2 snap v p Hs2 Ht2 Hsn Hfc Hid. rewrite (still_committed _ _ Hs1) in Hsn, Hfc, Hid.
    assert (next_version (committed w) (UpdateCommand c) (int_add (version (root p)) 1)) as Hn.
    { exists snap, v. split; [done|]. by destruct Hfc as [-> _]. }
    eapply wp_mono; [eapply (wp_track_and_save_reliable newID now (UpdateCommand c) _ tx
                (int_add (version (root p)) 1) _ p w w2 _ (λ r, mret r.1));
        [done|by rewrite Hs1| |done|done|done|done| | | |done]|].
    + eapply active_still; [|by apply Ht2|done]. by rewrite Hs2.
    + by eapply (int4_ok_next _ (UpdateCommand c)).
    + intros Hno. simpl in *. apply Hid. destruct Hsn as [(_ & -> & _)|(s & Hs & Hsa & _)]; [done|].
      rewrite Forall_forall in Hno. by destruct (Hno s Hs).
    + intros e a w3. simpl. eauto.
    + intros [e|] w3; simpl; [eauto|]. intros (t & Ha & Hall). exists t. eauto.
Qed.

(** C19: the exact outcome of a command when the server is reliable and the command
    can be stored.  An invalid product is rejected with the validation error; a
    valid one is recorded, and nil returned, exactly when the event id is new and
    the version the handler computed is the next one of the stream; otherwise the
    error is an [ErrConcurrency] and nothing changes.  That version is 1 for a
    create; for an update it is one more than the stream's length, or 1 if no event
    was stored after the latest snapshot. *)
Theorem command_outcome newID now ctx c w w' r :
  products_inv (committed w) → storable now c →
  (Z.of_nat (length (rows_of (committed w) (command_id c))) + 1 < 2 ^ 31)%Z →
  command_Handle newID now ctx c w = (w', r) →
  ∃ ver, next_version (committed w) c ver ∧ command_result newID now c ver w r w'.
Proof.
  apply command_Handle_result.
Qed.

(** What the snapshots make of the product streams: snapshot versions are multiples
    of the frequency, and a created stream ends, frozen, at its first one. *)
Definition bounded_inv (t : tables) : Prop :=
  products_inv t ∧
  Forall (λ s, (snapshotFrequency ≤ sr_aggregate_version s)%Z) (snapshots t) ∧
  ∀ aid, created_stream t aid →
    let n := Z.of_nat (length (rows_of t aid)) in
    (n ≤ snapshotFrequency)%Z ∧ (n = snapshotFrequency → frozen t aid).

Lemma appended_snapshots evt p t t' :
  (0 < snapshotFrequency)%Z → appended snapshotFrequency evt p t t' →
  Forall (λ s, (snapshotFrequency ≤ sr_aggregate_version s)%Z) (snapshots t) →
  Forall (λ s, (snapshotFrequency ≤ sr_aggregate_version s)%Z) (snapshots t').
Proof.
  intros Hfreq (r & sn & _ & _ & Hsn & [Hpv _] & Hver & ->) Hall. simpl. apply Forall_app_2; [done|].
  destruct Hsn as [->|(Hsh & q & s & _ & (_ & Hsv & _)%snapshot_columns_Ok & ->)]; [done|].
  apply Forall_singleton. rewrite Hsv.
  change (sr_aggregate_version _) with (version (root p)). rewrite Hpv.
  unfold shouldSnapshot, AggregateRoot_Version in Hsh. destruct (snapshotFrequency <=? 0)%Z eqn:?; [done|].
  apply Z.eqb_eq in Hsh. rewrite Hpv, Hver in *.
  apply Z.rem_divide in Hsh; [|lia]. apply Z.divide_pos_le in Hsh; lia.
Qed.

Lemma frozen_append t aid row sn :
  er_aggregate_id row ≠ aid → frozen t aid → frozen (save_tables [row] sn t) aid.
Proof.
  intros Hne (Hf & s & Hs & Hsa & Hsv). unfold frozen.
  rewrite rows_of_save, decide_False, app_nil_r by done. split; [done|].
  exists s. split; [|done]. simpl. apply elem_of_app. by left.
Qed.

(** An update that appends to a shorter stream loaded the whole of it. *)
Lemma update_without_snapshot newID now c ver row t :
  Forall (λ s, (snapshotFrequency ≤ sr_aggregate_version s)%Z) (snapshots t) →
  next_version t (UpdateCommand c) ver →
  (Z.of_nat (length (rows_of t (up_ID c))) < snapshotFrequency)%Z →
  ver = (Z.of_nat (length (rows_of t (up_ID c))) + 1)%Z →
  stored_as (update_event newID now c ver) row →
  (∃ r l, rows_of t (up_ID c) ++ [row] = r :: l ∧ er_event_type r = ProductCreatedEventType) →
  Forall (λ s, sr_aggregate_id s ≠ up_ID c) (snapshots t).
Proof.
  intros Hsn (snap & v & Hsnap & Hv) Hlt Hver Hst (r0 & l & Hr0 & Hty).
  rewrite Forall_forall in Hsn |- *. intros s Hs Hsa. unfold loaded_version in Hv.
  destruct (v <? _)%Z eqn:Hlt2.
  - destruct Hsnap as [(_ & _ & Hall)|(s' & _ & _ & _ & -> & Hmax)].
    + rewrite Forall_forall in Hall. by apply (Hall s).
    + specialize (Hmax s Hs Hsa). specialize (Hsn s Hs). lia.
  - assert (length (rows_of t (up_ID c)) = 0) as Hnil%nil_length_inv.
    { change (int_add 0 1) with 1%Z in Hv. lia. }
    rewrite Hnil in Hr0. injection Hr0 as <- _.
    destruct (stored_as_product (update_event newID now c ver) _ eq_refl eq_refl Hst)
      as (_ & _ & _ & Hre & _).
    by rewrite Hre in Hty.
Qed.

(** The command that brings a created stream to its first snapshot freezes it. *)
Lemma freezing_step newID now c ver r w w' :
  (0 < snapshotFrequency)%Z →
  Forall (λ s, (snapshotFrequency ≤ sr_aggregate_version s)%Z) (snapshots (committed w)) →
  Product_Validate (command_product c) = None →
  next_version (committed w) c ver → command_result newID now c ver w r w' →
  created_stream (committed w') (command_id c) →
  length (rows_of (committed w') (command_id c)) =
    length (rows_of (committed w) (command_id c)) + 1 →
  (Z.of_nat (length (rows_of (committed w) (command_id c))) + 1 = snapshotFrequency)%Z →
  frozen (committed w') (command_id c).
Proof.
  intros Hfreq Hsn Hval Hn Hres Hcs Hlen Hl. unfold command_result in Hres. rewrite Hval in Hres.
  case_decide as Hd; [|destruct Hres as [Hsame _]; rewrite Hsame in Hlen; lia].
  destruct Hres as (_ & p & Hap & Hpres & Hid). destruct Hd as [_ Hver].
  pose proof Hap as (_ & _ & _ & _ & _ & [Hpv _] & _).
  destruct (appended_rows _ _ _ _ _ _ _ Hap) as (row & sn & Hst & _ & _ & Hrow & _).
  destruct (command_event_product newID now c ver) as (_ & _ & _ & _ & Hv' & _).
  rewrite Hv', Hver in Hpv.
  assert (id (root p) = command_id c) as Hpid.
  { apply Hid; [|done]. destruct c as [c|c]; [done|].
    destruct Hcs as (r0 & l & Hr0 & Hty). rewrite Hrow in Hr0. simpl command_id in *.
    eapply update_without_snapshot; [done..|lia|done|done|eauto]. }
  destruct Hpres as (s & Hs & Hsa & Hsv).
  { unfold shouldSnapshot, AggregateRoot_Version. destruct (snapshotFrequency <=? 0)%Z eqn:?; [lia|].
    rewrite Hpv, Hl. by rewrite Z.rem_same, Z.eqb_refl by lia. }
  split; [intros Hnil; rewrite Hnil in Hlen; simpl in Hlen; lia|].
  exists s. split; [done|]. split; [congruence|lia].
Qed.

Lemma bounded_step newID now ctx c w w' r :
  (0 < snapshotFrequency < 2 ^ 31)%Z → bounded_inv (committed w) → storable now c →
  command_Handle newID now ctx c w = (w', r) → bounded_inv (committed w').
Proof.
  intros Hfreq (Hinv & Hsn & Hb) Hsto Hrun.
  destruct (command_Handle_post _ _ _ _ _ _ _ Hinv Hrun) as [Hr [[-> _]|(Hval & Hinv' & Hap)]];
    [done|]. destruct Hap as (ver & p & Hn & Hap).
  split; [done|]. split; [eapply appended_snapshots; [lia|done..]|].
  destruct (appended_rows _ _ _ _ _ _ _ Hap) as (row & sn & Hst & Ht & Hra & Hrow & Hoth).
  intros aid Hcs. destruct (decide (aid = command_id c)) as [->|Hne].
  2:{ unfold created_stream in Hcs. rewrite (Hoth aid Hne) in *. destruct (Hb aid Hcs) as [? Hfz].
      split; [done|]. intros Hl. rewrite Ht. apply frozen_append; [congruence|auto]. }
  set (n := length (rows_of (committed w) (command_id c))) in *.
  assert (length (rows_of (committed w') (command_id c)) = n + 1) as Hlen.
  { by rewrite Hrow, length_app. }
  assert (Z.of_nat n < snapshotFrequency)%Z as Hlt.
  { destruct (decide (n = 0)) as [->|Hn0]; [lia|].
    assert (created_stream (committed w) (command_id c)) as Hold.
    { destruct Hcs as (r0 & l & Hr0 & Hty). rewrite Hrow in Hr0. unfold n in Hn0.
      destruct (rows_of (committed w) (command_id c)) as [|r1 l1] eqn:Hrs; [done|].
      injection Hr0 as -> _. by exists r0, l1. }
    destruct (Hb _ Hold) as [Hle Hfz]. fold n in Hle, Hfz.
    destruct (decide (Z.of_nat n = snapshotFrequency)) as [Heq|]; [|lia].
    destruct (frozen_rejects _ _ _ _ _ _ _ Hinv (Hfz Heq) Hrun) as [Hsame _].
    rewrite Hsame in Hlen. unfold n in Hlen. lia. }
  rewrite Hlen. split; [lia|]. intros Hl.
  destruct (command_Handle_result _ _ _ _ _ _ _ Hinv Hsto ltac:(unfold n in *; lia) Hrun)
    as (ver2 & Hn2 & Hres).
  eapply freezing_step; [lia|done..|unfold n in *; lia].
Qed.

(** C20: with snapshots every [freq] versions, and a server on which nothing fails,
    no product that was created can ever have more than [freq] versions: starting
    from an empty database, whatever commands that can be stored are run, its stream
    is at most [freq] long, and once it is that long every further command on it fails. *)
Theorem created_product_bounded ctx cs w w' rs aid :
  (0 < snapshotFrequency < 2 ^ 31)%Z → committed w = empty_tables →
  Forall (λ '(_, now, c), storable now c) cs →
  run_commands ctx cs w = (w', rs) → created_stream (committed w') aid →
  let n := Z.of_nat (length (rows_of (committed w') aid)) in
  (n ≤ snapshotFrequency)%Z ∧
  (n = snapshotFrequency → ∀ newID now c w2 r, command_id c = aid →
     command_Handle newID now ctx c w' = (w2, r) → r ≠ None ∧ committed w2 = committed w').
Proof.
  intros Hfreq Hempty Hall Hrun Hcs n.
  assert (bounded_inv (committed w)) as Hb.
  { rewrite Hempty. split; [split|split]; simpl; try by constructor.
    - apply empty_tables_wf.
    - intros ? (? & ? & [=] & _). }
  assert (bounded_inv (committed w')) as (Hinv & Hsn & Hb').
  { clear Hempty Hcs n. revert w rs Hb Hrun Hall.
    induction cs as [|[[newID now] c] cs IH]; intros w rs Hb; simpl.
    - by intros [= <- <-] _.
    - unfold mbind, M_bind. destruct (command_Handle newID now ctx c w) as [w1 r] eqn:Hc.
      destruct (run_commands ctx cs w1) as [w2 rs'] eqn:Hrs. intros [= <- <-] [Hst Hall]%Forall_cons.
      eapply IH; [by eapply bounded_step|done|done]. }
  destruct (Hb' aid Hcs) as [Hle Hfz]. split; [done|]. intros Hl newID now c w2 r <- Hrun2.
  destruct (frozen_rejects _ _ _ _ _ _ _ Hinv (Hfz Hl) Hrun2). done.
Qed.
End command_outcomes.
