(* ===== verification/Loads.v ===== *)
(** * Loads: what the product repository reads back

    [Repository_Load] over the PostgreSQL event store on the streams that commands
    write: the state it returns, with and without a snapshot, and what a load sees
    after a command. *)
From S2P Require Import Prelude GoJson EventSrc Product Sql Pgx PgStores Commands.

(** The product has the name and the price of an event. *)
Definition shows_event (p : ProductAggregate) (e : domain_event) : Prop :=
  prod_Name (pa_Product p) = event_name e ∧ prod_Price (pa_Product p) = event_price e.

(** The reference: the whole stream replayed on an empty aggregate, without snapshots. *)
Definition replay_all (t : tables) (aid : uuid) : res ProductAggregate :=
  match decode_events eventRegistry (row_data <$> rows_of t aid) with
  | Ok evs => Ok (LoadFromHistory evs newEmptyProduct).1
  | Err e => Err e
  end.

(** What replaying the events after version [v] may start from: if there are none, the
    aggregate already shows the last one. *)
Definition restored (t : tables) (aid : uuid) (v : Z) (q : ProductAggregate) : Prop :=
  ∀ r e, last (rows_of t aid) = Some r → decode_row r = Ok e → (er_version r ≤ v)%Z →
    shows_event q e.

Section load_lemmas.
Context `{PgCodecSpec}.
Implicit Types (t : tables) (r : event_row).

Lemma last_row t aid r :
  products_inv t → last (rows_of t aid) = Some r →
  r ∈ event_store t ∧ er_aggregate_id r = aid ∧
  er_version r = Z.of_nat (length (rows_of t aid)) ∧ (0 < er_version r)%Z.
Proof.
  intros Hinv Hl. pose proof (contiguous_last _ _ _ (inv_contiguous _ Hinv) Hl) as Hv.
  pose proof (last_Some_elem_of _ _ Hl) as Hin. apply elem_of_rows_of in Hin as [Ha Hin].
  split_and!; [done..|]. destruct (rows_of t aid); [done|]. rewrite Hv. simpl. lia.
Qed.

Lemma replay_shows_last t aid v rs evs q r e :
  products_inv t → stream t aid v rs → decode_events eventRegistry (row_data <$> rs) = Ok evs →
  restored t aid v q → last (rows_of t aid) = Some r → decode_row r = Ok e →
  shows_event (LoadFromHistory evs q).1 e.
Proof.
  intros Hinv Hst Hd Hq Hl He. destruct (last_row _ _ _ Hinv Hl) as (Hr & Ha & Hv & Hpos).
  destruct (decode_product_rows rs (stream_rows _ _ _ _ Hinv Hst)) as (evs' & Hd' & H2 & Hp).
  rewrite Hd in Hd'. injection Hd' as <-.
  destruct (stream_after t aid v rs (inv_contiguous _ Hinv) Hst) as [[-> Hn]|(Hn & h & l & -> & Hlv)].
  - inversion H2; subst. apply (Hq r e); [done..|lia].
  - apply Forall2_app_inv_l in H2 as (h' & l' & _ & H2 & ->).
    inversion H2 as [|? e' ? ? (_ & _ & _ & He') Hnil]; subst. inversion Hnil; subst.
    assert (l = r) as ->.
    { destruct (proj1 (elem_of_stream _ _ _ _ l Hst)) as (Hin & Hla & _).
      { apply elem_of_app. right. by apply list_elem_of_singleton. }
      apply (wf_same_version t); [apply Hinv|done|done|congruence|congruence]. }
    rewrite He in He'. injection He' as <-.
    destruct (LoadFromHistory_last h' e q Hp) as (p & -> & _ & Hname & Hprice & _). done.
Qed.

(** The latest snapshot, restored, shows the event of its version. *)
Lemma snapshot_restored t aid s (p q : ProductAggregate) :
  products_inv t → aid ≠ uuid_Nil → s ∈ snapshots t → sr_aggregate_id s = aid →
  UnmarshalJSON (sr_payload s) q = (p, None) → restored t aid (sr_aggregate_version s) p.
Proof.
  intros Hinv Hne Hs Hsa Hu r e Hl He Hle.
  destruct (last_row _ _ _ Hinv Hl) as (Hr & Ha & Hv & _).
  pose proof (inv_snapshots _ Hinv) as Hall. rewrite Forall_forall in Hall.
  destruct (Hall s Hs) as (r0 & e0 & q0 & Hr0 & He0 & Hm & Hname & Hprice & Hv0 & Hid).
  assert (er_aggregate_id r0 = aid) as Ha0 by (destruct Hid; congruence).
  assert (er_version r0 ≤ er_version r)%Z.
  { rewrite Hv. apply (contiguous_versions t aid _ (inv_contiguous _ Hinv)). exists r0.
    by rewrite elem_of_rows_of. }
  assert (r0 = r) as -> by (apply (wf_same_version t); [apply Hinv|done|done|congruence|lia]).
  rewrite He in He0. injection He0 as <-.
  destruct (UnmarshalJSON_MarshalJSON q0 q _ Hm) as (p' & Hu' & Hp).
  rewrite Hu in Hu'. injection Hu' as <-. unfold shows_event. by rewrite Hp.
Qed.

(** A product without events has no snapshot of its own. *)
Lemma no_rows_no_snapshot t aid s :
  products_inv t → aid ≠ uuid_Nil → rows_of t aid = [] → s ∈ snapshots t → sr_aggregate_id s ≠ aid.
Proof.
  intros Hinv Hne Hnil Hs Hsa. pose proof (inv_snapshots _ Hinv) as Hall.
  rewrite Forall_forall in Hall. destruct (Hall s Hs) as (r & e & q & Hr & _ & _ & _ & _ & _ & Hid).
  assert (r ∈ rows_of t aid) as Hin by (apply elem_of_rows_of; destruct Hid; naive_solver).
  rewrite Hnil in Hin. by apply not_elem_of_nil in Hin.
Qed.

(** A snapshot of a product is not ahead of its stream. *)
Lemma snapshot_not_ahead t aid s :
  products_inv t → aid ≠ uuid_Nil → s ∈ snapshots t → sr_aggregate_id s = aid →
  (sr_aggregate_version s ≤ Z.of_nat (length (rows_of t aid)))%Z.
Proof.
  intros Hinv Hne Hs Hsa. pose proof (inv_snapshots _ Hinv) as Hall. rewrite Forall_forall in Hall.
  destruct (Hall s Hs) as (r & _ & _ & Hr & _ & _ & _ & _ & Hv & Hid).
  apply (contiguous_versions t aid _ (inv_contiguous _ Hinv)). exists r.
  rewrite elem_of_rows_of. destruct Hid; naive_solver.
Qed.

(** The events after version 0 are the whole stream. *)
Lemma whole_stream t aid : products_inv t → stream t aid 0 (rows_of t aid).
Proof.
  intros Hinv. pose proof (inv_contiguous _ Hinv) as Hc. split.
  - unfold rows_of. rewrite (filter_ext_in _ (events_after aid 0)); [done|].
    apply Forall_forall. intros r Hr. split; [|by intros [? _]]. intros Ha. split; [done|].
    assert (1 ≤ er_version r)%Z; [|lia]. apply (elem_of_seqZ_map _ _ _ (Hc aid)).
    by apply elem_of_rows_of.
  - apply (seqZ_map_sorted er_version _ 1), Hc.
Qed.

(** The whole stream replayed shows the last event and has its version. *)
Lemma replay_all_shows t aid q :
  products_inv t → replay_all t aid = Ok q →
  GetUncommittedEvents q = [] ∧ version (root q) = Z.of_nat (length (rows_of t aid)) ∧
  (∀ r e, last (rows_of t aid) = Some r → decode_row r = Ok e → shows_event q e).
Proof.
  intros Hinv Hq. unfold replay_all in Hq.
  destruct (decode_events _ _) as [evs|] eqn:Hd; [|done]. injection Hq as <-.
  pose proof (whole_stream t aid Hinv) as Hst.
  destruct (rehydrated t aid 0 _ evs newEmptyProduct Hinv Hst Hd eq_refl) as [(Hver & Hev & _) _].
  split; [done|]. split; [rewrite Hver; unfold loaded_version; case_match; lia|].
  intros r e Hl He. eapply replay_shows_last; [done..| |done|done].
  intros r' e' Hl' _ Hle. destruct (last_row _ _ _ Hinv Hl'); lia.
Qed.

Lemma replay_all_Ok t aid : products_inv t → ∃ q, replay_all t aid = Ok q.
Proof.
  intros Hinv. unfold replay_all.
  destruct (decode_product_rows _ (stream_rows _ _ _ _ Hinv (whole_stream t aid Hinv))) as (evs & -> & _).
  by eexists.
Qed.
End load_lemmas.

Section loads.
Context `{PgxReliable W R} `{!PgCodecSpec} `{SnapshotFrequency}.
Implicit Types (w : W) (t : tables).

(** The aggregate a load returns. *)
Definition loaded (t : tables) (aid : uuid) (p : ProductAggregate) : Prop :=
  match last (rows_of t aid) with
  | None => p = newEmptyProduct
  | Some r => ∃ e snap v, decode_row r = Ok e ∧ shows_event p e ∧ GetUncommittedEvents p = [] ∧
      latest_snapshot t aid snap v ∧ (snap = None → replay_all t aid = Ok p) ∧
      version (root p) = if (v <? er_version r)%Z then er_version r else 0%Z
  end.

Lemma load_result ctx aid (Q : res ProductAggregate → W → Prop) w :
  products_inv (committed w) → aid ≠ uuid_Nil →
  (∀ w' p, still w w' → loaded (committed w) aid p → Q (Ok p) w') →
  wp (Repository_Load newEmptyProduct ctx aid) Q w.
Proof.
  intros Hinv Hne HQ. apply wp_bind, wp_EventStore_Load_reliable.
  intros w1 snap v rs Hs _ Hsn Hst.
  destruct (decode_product_rows rs (stream_rows _ _ _ _ Hinv Hst)) as (evs & Hd & Hevs & _).
  rewrite Hd. unfold loaded in HQ. destruct (last (rows_of _ aid)) as [r|] eqn:Hl.
  - destruct (last_row _ _ _ Hinv Hl) as (Hr & _ & Hv & Hpos).
    assert (∃ e, decode_row r = Ok e) as [e He].
    { pose proof (inv_rows _ Hinv) as Hall. rewrite Forall_forall in Hall.
      destruct (Hall r Hr) as (e & He & _). by exists e. }
    assert (∀ q, root q = NewAggregateRoot ProductAggregateType → restored (committed w) aid v q →
      (snap = None → q = newEmptyProduct) → Q (Ok (LoadFromHistory evs q).1) w1) as Hfin.
    { intros q Hroot Hrest Hsnap. apply HQ; [done|]. exists e, snap, v.
      destruct (rehydrated _ aid v rs evs q Hinv Hst Hd Hroot) as [(Hver & Hev & _) _].
      assert (snap = None → replay_all (committed w) aid = Ok (LoadFromHistory evs q).1) as Hrep.
      { intros Hn. rewrite (Hsnap Hn). destruct Hsn as [(_ & -> & _)|(? & _ & _ & ? & _)]; [|by simplify_eq].
        unfold replay_all. by rewrite <- (stream_unique _ aid 0 _ _ (inv_wf _ Hinv) Hst (whole_stream _ aid Hinv)), Hd. }
      split_and!; [done|by eapply replay_shows_last|done|done|done|]. rewrite Hver, Hv.
      unfold loaded_version. by destruct (v <? _)%Z. }
    destruct Hsn as [(-> & -> & _)|(s & Hsin & Hsa & -> & -> & _)].
    + apply wp_ret, Hfin; [done| |done]. intros r' e' Hl' _ Hle. rewrite Hl' in Hl. simplify_eq. lia.
    + pose proof (inv_snapshots _ Hinv) as Hall. rewrite Forall_forall in Hall.
      destruct (Hall s Hsin) as (? & ? & q & _ & _ & Hm & _).
      destruct (UnmarshalJSON_MarshalJSON q newEmptyProduct _ Hm) as (p & Hu & _). rewrite Hu.
      apply wp_ret, Hfin; [by eapply UnmarshalJSON_root|by eapply snapshot_restored|done].
  - apply last_None in Hl.
    destruct Hsn as [(-> & -> & _)|(s & Hsin & Hsa & _)].
    2:{ by destruct (no_rows_no_snapshot _ _ _ Hinv Hne Hl Hsin). }
    assert (rs = []) as ->.
    { apply elem_of_nil_inv. intros r (Hr & Ha & _)%(elem_of_stream _ _ _ _ _ Hst).
      assert (r ∈ rows_of (committed w) aid) as Hin by by apply elem_of_rows_of.
      rewrite Hl in Hin. by apply not_elem_of_nil in Hin. }
    inversion Hevs; subst. by apply wp_ret, HQ.
Qed.

(** What a load returns.  When the server is reliable, loading a product changes
    nothing and returns the name and the price of the last event of its stream,
    whether they come from a snapshot or from a replay, and no uncommitted events; the
    version is that of the last event if it was stored after the latest snapshot, and
    0 otherwise.  A product without events is an empty aggregate, not an error. *)
Theorem product_load ctx aid w w' res :
  products_inv (committed w) → aid ≠ uuid_Nil →
  Repository_Load newEmptyProduct ctx aid w = (w', res) →
  still w w' ∧ ∃ p, res = Ok p ∧ loaded (committed w) aid p.
Proof.
  intros Hinv Hne Hrun. wp_start Hrun. apply load_result; [done..|]. eauto.
Qed.

(** C22: snapshots are an optimisation, as far as the state goes.  When the server is
    reliable, loading a product (whose id is not nil) gives the same name and price, and
    no uncommitted events, as replaying its whole stream on an empty aggregate, and the
    very same aggregate if it has no snapshot.  The versions differ exactly when there is
    a snapshot of the last event, and then the load says 0. *)
Theorem load_equals_replay ctx aid w w' res :
  let t := committed w in
  products_inv t → aid ≠ uuid_Nil →
  Repository_Load newEmptyProduct ctx aid w = (w', res) →
  ∃ p q, res = Ok p ∧ replay_all t aid = Ok q ∧
    prod_Name (pa_Product p) = prod_Name (pa_Product q) ∧
    prod_Price (pa_Product p) = prod_Price (pa_Product q) ∧ GetUncommittedEvents p = [] ∧ GetUncommittedEvents q = [] ∧
    (Forall (λ s, sr_aggregate_id s ≠ aid) (snapshots t) → p = q) ∧
    (version (root p) ≠ version (root q) ↔
      Exists (λ s, sr_aggregate_id s = aid ∧ sr_aggregate_version s = version (root q)) (snapshots t)) ∧
    (version (root p) ≠ version (root q) → version (root p) = 0%Z).
Proof.
  intros t Hinv Hne Hrun. destruct (replay_all_Ok t aid Hinv) as [q Hq].
  destruct (replay_all_shows t aid q Hinv Hq) as (Hev & Hver & Hshow).
  wp_start Hrun. apply load_result; [done..|]. intros w1 p _ Hp. fold t in Hp. unfold loaded in Hp.
  exists p, q. split; [done|]. split; [done|].
  destruct (last (rows_of t aid)) as [r|] eqn:Hl.
  - destruct Hp as (e & snap & v & He & [Hn Hpr] & Hpe & Hsn & Hnone & Hpv).
    destruct (Hshow r e eq_refl He) as [Hqn Hqp].
    destruct (last_row _ _ _ Hinv Hl) as (_ & _ & Hv & Hpos).
    split_and!; [congruence|congruence|done|done| | |].
    + intros Hall. destruct Hsn as [(-> & _)|(s & Hs & Hsa & _)]; [specialize (Hnone eq_refl); congruence|].
      rewrite Forall_forall in Hall. by destruct (Hall s Hs).
    + rewrite Hver, <- Hv, Exists_exists. split.
      * destruct (v <? _)%Z eqn:Hlt; [congruence|]. intros _.
        destruct Hsn as [(-> & -> & _)|(s & Hs & Hsa & -> & -> & _)]; [lia|].
        pose proof (snapshot_not_ahead _ _ _ Hinv Hne Hs Hsa). exists s. split_and!; [done|done|lia].
      * intros (s & Hs & Hsa & Hsv). destruct Hsn as [(_ & _ & Hnos)|(s' & _ & _ & _ & -> & Hmax)].
        -- rewrite Forall_forall in Hnos. by destruct (Hnos s Hs).
        -- specialize (Hmax s Hs Hsa). destruct (_ <? _)%Z eqn:Hlt; lia.
    + rewrite Hver, <- Hv. by destruct (v <? _)%Z.
  - assert (q = newEmptyProduct) as ->.
    { unfold replay_all in Hq. apply last_None in Hl. rewrite Hl in Hq. by injection Hq as <-. }
    subst p. split_and!; try done. rewrite Exists_exists. split; [done|]. intros (s & Hs & Hsa & _).
    apply last_None in Hl. by destruct (no_rows_no_snapshot _ _ _ Hinv Hne Hl Hs).
Qed.

(** A load sees the command before it.  After a command that returned nil, loading
    its product gives the command's price and its name (as valid UTF-8). *)
Theorem load_after_command newID now ctx ctx' c w w1 w2 res :
  products_inv (committed w) → command_id c ≠ uuid_Nil →
  command_Handle newID now ctx c w = (w1, None) →
  Repository_Load newEmptyProduct ctx' (command_id c) w1 = (w2, res) →
  ∃ p, res = Ok p ∧
    prod_Name (pa_Product p) = to_valid_utf8 (prod_Name (command_product c)) ∧
    prod_Price (pa_Product p) = prod_Price (command_product c).
Proof.
  intros Hinv Hne Hcmd Hrun.
  destruct (command_Handle_post _ _ _ _ _ _ _ Hinv Hcmd) as [_ [[_ []]|(_ & Hinv1 & ver & p & _ & Hap)]];
    [done|].
  destruct (appended_rows _ _ _ _ _ _ _ Hap) as (row & sn & Hst & _ & _ & Hrows & _).
  destruct (command_event_product newID now c ver) as (Hp & Hty & _).
  wp_start Hrun. apply load_result; [done..|]. intros w3 q _ Hq. exists q. split; [done|].
  unfold loaded in Hq. rewrite Hrows, last_snoc in Hq. destruct Hq as (e & _ & _ & He & [Hn Hpr] & _).
  rewrite (stored_decode _ _ Hp Hty Hst) in He. injection He as <-. rewrite Hn, Hpr. by destruct c.
Qed.
End loads.
