(* ===== verification/Sourcing.v ===== *)
(** * Sourcing: the repository of an arbitrary aggregate

    The promise of package [eventsrc] on the PostgreSQL event store, for any aggregate
    type and any event type: the store is, for each aggregate, the list of its events;
    loading is replaying that list, saving appends to it, and snapshots do not show.
    What a concrete aggregate owes for this is stated here, event by event and snapshot
    by snapshot. *)
From Stdlib Require Import Sorted.
From stdpp Require Import sorting.
From S2P Require Import Prelude GoJson EventSrc Sql Pgx PgStores Commands.

(** ** The stream of one aggregate *)

Section streams.
Implicit Types (t : tables) (r : event_row) (rs : list event_row).

(** The versions are 1, 2, ... in the order of the rows. *)
Definition numbered rs : Prop := er_version <$> rs = seqZ 1 (Z.of_nat (length rs)).

Lemma numbered_lookup rs i r : numbered rs → rs !! i = Some r → er_version r = (Z.of_nat i + 1)%Z.
Proof.
  intros Hn Hi. pose proof (lookup_lt_Some _ _ _ Hi).
  assert ((er_version <$> rs) !! i = Some (er_version r)) as Hv by (by rewrite list_lookup_fmap, Hi).
  rewrite Hn, lookup_seqZ in Hv. lia.
Qed.

Lemma numbered_after rs k :
  numbered rs → filter (λ r, Z.of_nat k < er_version r)%Z rs = drop k rs.
Proof.
  intros Hn. rewrite <- (take_drop k rs) at 1. rewrite filter_app.
  rewrite (filter_none _ (take k rs)), (filter_all _ (drop k rs)); [done|..].
  - apply Forall_lookup. intros i r Hi. rewrite lookup_drop in Hi.
    rewrite (numbered_lookup _ _ _ Hn Hi). lia.
  - apply Forall_lookup. intros i r [Hi Hlt]%lookup_take_Some.
    rewrite (numbered_lookup _ _ _ Hn Hi). lia.
Qed.

Lemma elem_of_numbered rs r r' :
  numbered rs → r ∈ rs → r' ∈ rs → er_version r = er_version r' → r = r'.
Proof.
  intros Hn [i Hi]%list_elem_of_lookup [j Hj]%list_elem_of_lookup Hv.
  rewrite (numbered_lookup _ _ _ Hn Hi), (numbered_lookup _ _ _ Hn Hj) in Hv.
  assert (i = j) as -> by lia. congruence.
Qed.

(** Reading a numbered stream after version [k] gives the rest of it, and nothing else. *)
Lemma numbered_stream t aid k rs :
  numbered (rows_of t aid) → stream t aid (Z.of_nat k) rs → rs = drop k (rows_of t aid).
Proof.
  intros Hn [Hp Hss].
  assert (filter (events_after aid (Z.of_nat k)) (event_store t) = drop k (rows_of t aid)) as Hf.
  { rewrite <- (numbered_after _ _ Hn). unfold rows_of. rewrite list_filter_filter.
    apply filter_ext_in, Forall_forall. intros r _. unfold events_after. tauto. }
  rewrite Hf in Hp. eapply (StronglySorted_unique_strong version_le); [|done| |done].
  - intros r r' Hr Hr' H1 H2. rewrite Hp in Hr.
    assert (∀ x, x ∈ drop k (rows_of t aid) → x ∈ rows_of t aid) as Hsub.
    { intros x Hx. rewrite <- (take_drop k (rows_of t aid)). apply elem_of_app. by right. }
    apply (elem_of_numbered (rows_of t aid)); [done|by apply Hsub|by apply Hsub|].
    unfold version_le in *. lia.
  - pose proof (seqZ_map_sorted er_version _ _ Hn) as Hs.
    rewrite <- (take_drop k (rows_of t aid)) in Hs. by apply StronglySorted_app_1_r in Hs.
Qed.
End streams.

(** ** What the framework needs of an aggregate *)

Section sourcing.
Context {E T : Type} `{Event E} `{Aggregate E T} `{!EmbedsLaws E T} `{PgCodec}.
Variable eventRegistry : gmap string (EventFactory E).
Variable snapshotFrequency : Z.
Variable newEmptyAggregate : T.
Implicit Types (t : tables) (r : event_row) (evs new : list E) (a : T).

(** The row is read back as the event. *)
Definition reads_as r (evt : E) : Prop :=
  ∃ z, CreateEvent eventRegistry (er_event_type r) = Ok z ∧ event_Unmarshal (er_payload r) z = Ok evt.

(** However it is stored. *)
Definition readable (evt : E) : Prop := ∀ r, stored_as evt r → reads_as r evt.

(** If a snapshot of the aggregate is due, it is one the aggregate is restored from. *)
Definition snapshot_faithful a : Prop :=
  shouldSnapshot snapshotFrequency a = true → ∀ p, MarshalJSON a = Ok p →
    UnmarshalJSON p newEmptyAggregate = (ClearUncommittedEvents a, None).

(** The state of a list of events. *)
Definition state evs : T := (LoadFromHistory evs newEmptyAggregate).1.

(** The abstraction: [evs] is what the store holds of the aggregate [aid]. *)
Record sourced t (aid : uuid) evs : Prop := {
  src_rows : Forall2 reads_as (rows_of t aid) evs;
  src_numbered : numbered (rows_of t aid);
  src_replays : LoadFromHistory evs newEmptyAggregate = (state evs, None);
  src_snapshots : Forall (λ s, sr_aggregate_id s = aid → ∃ k, k ≤ length evs ∧
    sr_aggregate_version s = Z.of_nat k ∧
    UnmarshalJSON (sr_payload s) newEmptyAggregate = (state (take k evs), None)) (snapshots t);
}.

Lemma decode_reads rs evs :
  Forall2 reads_as rs evs → decode_events eventRegistry (row_data <$> rs) = Ok evs.
Proof.
  induction 1 as [|r evt rs evs (z & Hz & Hu) _ IH]; simpl; [done|].
  rewrite Hz, Hu. change (list_fmap _ _ row_data rs) with (row_data <$> rs). by rewrite IH.
Qed.

Lemma src_prefix t aid evs k :
  sourced t aid evs → LoadFromHistory (take k evs) newEmptyAggregate = (state (take k evs), None) ∧
    LoadFromHistory (drop k evs) (state (take k evs)) = (state evs, None).
Proof.
  intros Hs. pose proof (src_replays _ _ _ Hs) as Hr. rewrite <- (take_drop k evs) in Hr at 1.
  rewrite LoadFromHistory_app in Hr. unfold state at 1 2.
  destruct (LoadFromHistory (take k evs) newEmptyAggregate) as [a [e|]]; [done|]. by split.
Qed.

(** ** Loading *)

(** What is read back, from the latest snapshot on, leads to the state. *)
Lemma sourced_read t aid evs snap v rs :
  sourced t aid evs → latest_snapshot t aid snap v → stream t aid v rs →
  ∃ h q, decode_events eventRegistry (row_data <$> rs) = Ok h ∧
    (match snap with
     | None => (newEmptyAggregate, None)
     | Some p => UnmarshalJSON p newEmptyAggregate
     end) = (q, None) ∧ (LoadFromHistory h q).1 = state evs.
Proof.
  intros Hs Hsn Hst. pose proof Hs as [Hr Hn _ Hsnaps].
  assert (∃ k q, v = Z.of_nat k ∧ (match snap with
     | None => (newEmptyAggregate, None)
     | Some p => UnmarshalJSON p newEmptyAggregate
     end) = (q, None) ∧ LoadFromHistory (drop k evs) q = (state evs, None)) as (k & q & -> & Hq & Hl).
  { destruct Hsn as [(-> & -> & _)|(s & Hin & Ha & -> & -> & _)].
    - exists 0, newEmptyAggregate. split_and!; [done|done|]. by apply (src_replays t aid).
    - rewrite Forall_forall in Hsnaps. destruct (Hsnaps s Hin Ha) as (k & _ & Hv & Hu).
      exists k, (state (take k evs)). split_and!; [done|done|]. by apply (src_prefix t aid). }
  exists (drop k evs), q. split_and!; [|done|by rewrite Hl].
  rewrite (numbered_stream _ _ _ _ Hn Hst). apply decode_reads. by apply Forall2_drop.
Qed.

(** ** Saving *)

(** The aggregate [a] is the state of [evs] with the changes [new] tracked: they carry its
    id and the next versions, and so does [a]. *)
Record extends (aid : uuid) evs new a : Prop := {
  ext_tracked : TrackChanges new (state evs) = (a, None);
  ext_some : new ≠ [];
  ext_ids : Forall (λ e, AggregateID e = aid) new;
  ext_versions : Version <$> new = seqZ (Z.of_nat (length evs) + 1) (Z.of_nat (length new));
  ext_id : AggregateRoot_ID a = aid;
  ext_version : AggregateRoot_Version a = Z.of_nat (length (evs ++ new));
}.

Hypothesis empty_uncommitted : GetUncommittedEvents newEmptyAggregate = [].

Lemma state_uncommitted evs : GetUncommittedEvents (state evs) = [].
Proof. unfold state, GetUncommittedEvents. by rewrite LoadFromHistory_events. Qed.

Lemma extends_events aid evs new a : extends aid evs new a → GetUncommittedEvents a = new.
Proof.
  intros [Ht _ _ _ _ _]. destruct (TrackChanges_replay _ _ _ Ht) as [-> _].
  by rewrite state_uncommitted.
Qed.

Lemma extends_state aid t evs new a :
  sourced t aid evs → extends aid evs new a →
  LoadFromHistory (evs ++ new) newEmptyAggregate = (ClearUncommittedEvents a, None).
Proof.
  intros Hs [Ht _ _ _ _ _]. destruct (TrackChanges_replay _ _ _ Ht) as [_ Hl].
  rewrite LoadFromHistory_app, (src_replays _ _ _ Hs). rewrite <- Hl. f_equal.
  unfold ClearUncommittedEvents. rewrite <- (with_own_events (state evs)) at 1.
  f_equal. f_equal. apply state_uncommitted.
Qed.

Lemma stored_columns evt r :
  stored_as evt r → er_aggregate_id r = AggregateID evt ∧ er_version r = Version evt.
Proof.
  intros (p & Hp & Hc). unfold event_params in Hp. destruct (event_Marshal evt); [|done].
  injection Hp as <-. apply event_columns_Ok in Hc as (_ & Ha & Hv & _). done.
Qed.

Lemma stored_stream aid new rs :
  Forall2 stored_as new rs → Forall (λ e, AggregateID e = aid) new →
  Forall (λ r, er_aggregate_id r = aid) rs ∧ er_version <$> rs = Version <$> new.
Proof.
  induction 1 as [|evt r new rs [Ha Hv]%stored_columns _ IH]; [done|].
  intros [He Hall]%Forall_cons. destruct (IH Hall) as [Hrs Hvs]. simpl. rewrite Hv.
  split; [|by f_equal]. constructor; [congruence|done].
Qed.

Lemma readable_rows new rs :
  Forall readable new → Forall2 stored_as new rs → Forall2 reads_as rs new.
Proof.
  intros Hall Hrs. induction Hrs as [|evt r new rs Hst _ IH]; [constructor|].
  apply Forall_cons in Hall as [He Hall]. constructor; [by apply He|by apply IH].
Qed.

Lemma rows_of_save_tables t rs sn aid :
  rows_of (save_tables rs sn t) aid = rows_of t aid ++ filter (λ r, er_aggregate_id r = aid) rs.
Proof. unfold rows_of, save_tables. simpl. by rewrite filter_app. Qed.

(** The snapshot a save adds restores the aggregate that was saved. *)
Lemma new_snapshot aid t evs new a sn :
  sourced t aid evs → extends aid evs new a → snapshot_faithful a →
  snapshot_of snapshotFrequency a sn →
  Forall (λ s, sr_aggregate_id s = aid ∧ sr_aggregate_version s = Z.of_nat (length (evs ++ new)) ∧
    UnmarshalJSON (sr_payload s) newEmptyAggregate = (state (evs ++ new), None)) sn.
Proof.
  intros Hs Hx Hf [->|(Hsh & p & s & Hm & (Ha & Hv & Hp)%snapshot_columns_Ok & ->)]; [constructor|].
  apply Forall_singleton. simpl in Ha, Hv, Hp. rewrite Ha, Hv, Hp.
  split_and!; [apply Hx|by rewrite (ext_version _ _ _ _ Hx)|].
  unfold state. rewrite (extends_state _ _ _ _ _ Hs Hx). by apply Hf.
Qed.

(** A save appends the changes to the list of its aggregate, and to no other. *)
Lemma sourced_save t t' aid evs new a :
  sourced t aid evs → extends aid evs new a → Forall readable new → snapshot_faithful a →
  saved snapshotFrequency a t t' →
  sourced t' aid (evs ++ new) ∧
  ∀ aid' evs', aid' ≠ aid → sourced t aid' evs' → sourced t' aid' evs'.
Proof.
  intros Hs Hx Hread Hf (rs & sn & Hrs & _ & Hsn & ->).
  rewrite (extends_events _ _ _ _ Hx) in Hrs.
  destruct (stored_stream aid new rs Hrs (ext_ids _ _ _ _ Hx)) as [Hids Hvers].
  pose proof (new_snapshot _ _ _ _ _ _ Hs Hx Hf Hsn) as Hnew.
  pose proof Hs as [Hr Hn Hrep Hsnaps]. pose proof (Forall2_length _ _ _ Hr) as Hlen. split; [split|].
  - rewrite rows_of_save_tables, (filter_all _ rs) by done. apply Forall2_app; [done|].
    by apply readable_rows.
  - rewrite rows_of_save_tables, (filter_all _ rs) by done. unfold numbered in *.
    rewrite fmap_app, length_app, Nat2Z.inj_add, seqZ_app by lia. rewrite Hn, Hvers, (ext_versions _ _ _ _ Hx).
    rewrite (Forall2_length _ _ _ Hrs), Hlen. f_equal. f_equal. lia.
  - unfold state. by rewrite (extends_state _ _ _ _ _ Hs Hx).
  - simpl. apply Forall_app_2.
    + eapply Forall_impl; [exact Hsnaps|]. intros s Hk Ha. destruct (Hk Ha) as (k & Hle & Hv & Hu).
      exists k. rewrite length_app, take_app_le by done. split_and!; [lia|done|done].
    + eapply Forall_impl; [exact Hnew|]. intros s (_ & Hv & Hu) _.
      exists (length (evs ++ new)). rewrite take_ge by done. done.
  - intros aid' evs' Hne [Hr' Hn' Hrep' Hsnaps'].
    assert (rows_of (save_tables rs sn t) aid' = rows_of t aid') as Hrows.
    { rewrite rows_of_save_tables, filter_none, app_nil_r; [done|].
      eapply Forall_impl; [exact Hids|]. intros r Ha. simpl in *. congruence. }
    split; [by rewrite Hrows|by rewrite Hrows|done|]. simpl. apply Forall_app_2; [done|].
    eapply Forall_impl; [exact Hnew|]. intros s (Ha & _) Ha'. congruence.
Qed.
End sourcing.

(** ** The repository *)

Section repository.
Context `{PgxReliable W R} {E T : Type} `{Event E} `{Aggregate E T} `{!EmbedsLaws E T}.
Variable eventRegistry : gmap string (EventFactory E).
Variable snapshotFrequency : Z.
Variable newEmptyAggregate : T.
Implicit Types (w : W) (evs new : list E) (a : T).

(** The PostgreSQL store, for this aggregate. *)
#[local] Instance aggregate_EventStore : Store W (context W) E T := {|
  Store_Save := EventStore_Save snapshotFrequency;
  Store_Load := EventStore_Load eventRegistry;
|}.

Hypothesis empty_uncommitted : GetUncommittedEvents newEmptyAggregate = [].

(** A save in a transaction of its own. *)
Definition save_in_tx (ctx : context W) a : M W (option error) :=
  WithTransaction ctx (λ txCtx, r ← Repository_Save txCtx a; mret r.1).

Lemma wp_sourced_load ctx aid evs (Q : res T → W → Prop) w :
  sourced eventRegistry newEmptyAggregate (committed w) aid evs →
  (∀ w', still w w' → Q (Ok (state newEmptyAggregate evs)) w') →
  wp (Repository_Load newEmptyAggregate ctx aid) Q w.
Proof.
  intros Hs HQ. apply wp_bind, wp_EventStore_Load_reliable. intros w1 snap v rs Hst _ Hsn Hrs.
  destruct (sourced_read _ _ _ _ _ _ _ _ Hs Hsn Hrs) as (h & q & Hd & Hq & Hl).
  rewrite Hd, Hq. apply wp_ret. rewrite Hl. by apply HQ.
Qed.

Lemma wp_save_in_tx ctx a (Q : option error → W → Prop) w :
  GetUncommittedEvents a ≠ [] →
  (∀ w' e, still w w' → Q (Some e) w') →
  (∀ w' r, rest w' = rest w → saved snapshotFrequency a (committed w) (committed w') → Q r w') →
  wp (save_in_tx ctx a) Q w.
Proof.
  intros Hne He Ho. apply wp_WithTransaction; [done|]. intros w1 tx Hs1 Ha1 _.
  apply wp_bind. unfold Repository_Save. destruct (GetUncommittedEvents a) as [|e0 es] eqn:Hev; [done|].
  apply wp_bind. eapply (wp_EventStore_Save _ _ tx); [done|by rewrite Hev|..].
  - intros w2 Hs2 Hsv. apply wp_ret, wp_ret. split.
    + intros w3 t Ha2 Hc3 Hr3. destruct (Hsv t Ha2) as (t0 & Ha0 & Hsd).
      rewrite (active_fun _ _ _ _ Ha0 Ha1) in Hsd. rewrite <- Hc3 in Hsd.
      assert (rest w3 = rest w) as Hr by (destruct Hs1, Hs2; congruence).
      split; [|intros e]; by apply Ho.
    + intros w3 e Hs3. apply He. etrans; [done|]. by etrans.
  - intros w2 e Hs2. apply wp_ret, wp_ret. intros w3 Hs3. apply He. etrans; [done|]. by etrans.
Qed.

End repository.
