(* ===== verification/Relay.v ===== *)
(** * Relay: the outbox relay over PostgreSQL and a broker

    The interface [BrokerSpec] states what publishing promises; against it and the
    driver's interface this file proves what a poll of the outbox does, that no
    event is marked as published before the broker has it, whatever fails, and
    that on a server and a broker that work the outbox is drained. *)
From Stdlib Require Import Sorted.
From stdpp Require Import sorting.
From S2P Require Import Prelude GoJson EventSrc Outbox Sql Pgx PgStores.

#[export] Instance OutboxStore_BatchStore `{Pgx W} : BatchStore W (context W) := {|
  Store_ProcessOutboxBatch := ProcessOutboxBatch;
|}.

(** What a broker promises: [message topic evt] is what it makes of an event; an
    accepted message is appended to its log; an error may be reported although the
    message was accepted; what the subscribers have done ([aside]) is left alone. *)
Class BrokerSpec (W R Msg : Type) `{PgxSpec W R} `{Broker W (context W)} := {
  message : string → OutboxEvent → Msg;
  published : R → list Msg;
  Aside : Type;
  aside : R → Aside;
  Publish_spec ctx topic evt w w' r :
    Publish ctx topic evt w = (w', r) →
    committed w' = committed w ∧ (∀ tx, tx_state w' tx = tx_state w tx) ∧
    aside (rest w') = aside (rest w) ∧
    (published (rest w') = published (rest w) ++ [message topic evt] ∨
     (r ≠ None ∧ published (rest w') = published (rest w)));
}.

(** The messages of a list of events with their topics. *)
Definition sent `{BrokerSpec W R Msg} (pubs : list (string * OutboxEvent)) : list Msg :=
  (λ '(topic, evt), message topic evt) <$> pubs.

(** A broker that works accepts the events it can encode. *)
Class BrokerReliable (W R Msg : Type) `{BrokerSpec W R Msg} := {
  sendable : OutboxEvent → Prop;
  Publish_ok ctx topic evt w : sendable evt → ∃ w', Publish ctx topic evt w = (w', None);
}.

(** ** What a batch publishes *)

(** The events of a batch that have a topic, with it. *)
Definition topic_events (evs : list OutboxEvent) : list (string * OutboxEvent) :=
  (λ e, (oe_AggregateType e, e)) <$> filter (λ e, oe_AggregateType e ≠ "") evs.

Lemma topic_events_cons e evs :
  topic_events (e :: evs) =
  (if String.eqb (oe_AggregateType e) "" then [] else [(oe_AggregateType e, e)]) ++ topic_events evs.
Proof.
  unfold topic_events. rewrite filter_cons.
  destruct (String.eqb_spec (oe_AggregateType e) "") as [He|He].
  - rewrite decide_False by (intros ?; done). done.
  - by rewrite decide_True.
Qed.

Lemma topic_events_app evs1 evs2 :
  topic_events (evs1 ++ evs2) = topic_events evs1 ++ topic_events evs2.
Proof. unfold topic_events. by rewrite filter_app, fmap_app. Qed.

Section relay_rules.
Context `{BrokerSpec W R Msg}.
Implicit Types (w : W).

Lemma wp_publish_events ctx evs (Q : option error → W → Prop) w :
  (∀ w' pubs r, committed w' = committed w → (∀ tx, tx_state w' tx = tx_state w tx) →
     aside (rest w') = aside (rest w) →
     published (rest w') = published (rest w) ++ sent pubs →
     pubs `prefix_of` topic_events evs → (r = None → pubs = topic_events evs) → Q r w') →
  wp (publish_events ctx evs) Q w.
Proof.
  revert Q w. induction evs as [|e evs IH]; intros Q w HQ; simpl.
  - apply wp_ret, (HQ w []); [done|done|done|by rewrite app_nil_r|done|done].
  - destruct (String.eqb (oe_AggregateType e) "") eqn:He.
    + apply IH. intros w' pubs r Hc Ht Has Hp Hpre Hr.
      apply (HQ w' pubs); rewrite ?topic_events_cons, ?He; done.
    + apply wp_bind, wp_intro. intros w1 r1 (Hc1 & Ht1 & Has1 & Hp1)%Publish_spec.
      destruct r1 as [e1|].
      * apply wp_ret. destruct Hp1 as [Hp1|[_ Hp1]].
        -- apply (HQ w1 [(oe_AggregateType e, e)]); [done|done|done|done| |done]. rewrite topic_events_cons, He. by exists (topic_events evs).
        -- apply (HQ w1 []); [done|done|done|by rewrite app_nil_r|apply prefix_nil|done].
      * destruct Hp1 as [Hp1|[[] _]]; [|done].
        apply IH. intros w' pubs r Hc Ht Has Hp Hpre Hr.
        apply (HQ w' ((oe_AggregateType e, e) :: pubs)).
        -- congruence.
        -- intros tx. by rewrite Ht.
        -- congruence.
        -- rewrite Hp, Hp1, <- app_assoc. done.
        -- rewrite topic_events_cons, He. simpl. by apply prefix_cons.
        -- intros Hn. rewrite topic_events_cons, He. simpl. by rewrite <- Hr.
Qed.

(** The outcome of a poll: [rows] is what was fetched. *)
Definition batch_outcome (batchSize : Z) (w : W) (r : option error) (w' : W)
    (rows : list event_row) (pubs : list (string * OutboxEvent)) : Prop :=
  published (rest w') = published (rest w) ++ sent pubs ∧
  pubs `prefix_of` topic_events (RowToOutboxEvent <$> rows) ∧
  (rows = [] ∨ ∃ w1 tx,
     answers (SelectUnpublished batchSize) (locked w1 tx) (committed w) rows) ∧
  ((committed w' = committed w ∧ (r = None → rows = [])) ∨
   (rows ≠ [] ∧ pubs = topic_events (RowToOutboxEvent <$> rows) ∧
    update_published (er_event_id <$> rows) (committed w) =
      Ok (committed w', Z.of_nat (length rows)))).

Lemma wp_markAsPublishedInTx tx evs t (Q : option error → W → Prop) w :
  active w tx t →
  (∀ w' t', still w w' → active w' tx t' →
     update_published (oe_EventID <$> evs) t = Ok (t', Z.of_nat (length evs)) → Q None w') →
  (∀ w' e, still w w' → Q (Some e) w') →
  wp (markAsPublishedInTx tx evs) Q w.
Proof.
  intros Ha Ho He. apply wp_bind, wp_Exec; [|intros w' e Hs _ _; by apply wp_ret, He].
  intros w' n t1 t' Hs Ha1 Hx Ha'. rewrite (active_fun _ _ _ _ Ha1 Ha) in Hx.
  case_decide as Hn; apply wp_ret; [|by apply He].
  apply (Ho w' t'); [done..|]. rewrite length_fmap in Hn. by rewrite <- Hn.
Qed.

(** Publishing a fetched batch, marking it and committing. *)
Definition publish_outcome (evs : list OutboxEvent) (w : W) (r : option error) (w' : W)
    (pubs : list (string * OutboxEvent)) : Prop :=
  published (rest w') = published (rest w) ++ sent pubs ∧ pubs `prefix_of` topic_events evs ∧
  aside (rest w') = aside (rest w) ∧
  ((committed w' = committed w ∧ r ≠ None) ∨
   (pubs = topic_events evs ∧
    update_published (oe_EventID <$> evs) (committed w) =
      Ok (committed w', Z.of_nat (length evs)))).

Lemma wp_publish_batch ctx tx evs w :
  active w tx (committed w) →
  wp (e ← publish_events ctx evs;
      match e with
      | Some err => mret (Some (Wrapf "event processing function failed" err))
      | None =>
          e ← markAsPublishedInTx tx evs;
          match e with
          | Some err => mret (Some (Wrapf "failed to mark events as published" err))
          | None => Tx_Commit tx
          end
      end) (λ r w', ∃ pubs, publish_outcome evs w r w' pubs) w.
Proof.
  intros Ha. apply wp_bind, wp_publish_events.
  intros w1 pubs r Hc1 Ht1 Has1 Hp1 Hpre Hall.
  assert (∀ w2 e, still w1 w2 → ∃ pubs, publish_outcome evs w (Some e) w2 pubs) as Hpart.
  { intros w2 e [Hc2 Hr2]. exists pubs. unfold publish_outcome. rewrite Hr2, Hc2.
    split_and!; [done..|]. by left. }
  destruct r as [e|]; [by apply wp_ret, Hpart|]. specialize (Hall eq_refl). subst pubs.
  assert (active w1 tx (committed w)) as Ha1 by (eapply active_still; [done|apply Ht1|done]).
  apply wp_bind. eapply wp_markAsPublishedInTx; [done| |intros; by apply wp_ret, Hpart].
  intros w2 t Hs2 Ha2 Hx. eapply wp_Commit; [done| |].
  - intros w3 r Hr3 Hc3. exists (topic_events evs). unfold publish_outcome.
    destruct Hs2 as [_ Hr2]. rewrite Hr3, Hr2, Hc3. split_and!; [done..|]. by right.
  - intros w3 e Hs3. apply Hpart. by rewrite Hs2.
Qed.

Lemma wp_processBatch batchSize ctx w :
  wp (processBatch batchSize ctx)
    (λ r w', ∃ rows pubs, batch_outcome batchSize w r w' rows pubs ∧
       aside (rest w') = aside (rest w)) w.
Proof.
  assert (∀ w' r, still w w' → ∃ rows pubs, batch_outcome batchSize w r w' rows pubs ∧
    aside (rest w') = aside (rest w)) as Hnone.
  { intros w' r [Hc Hr]. exists [], []. unfold batch_outcome. rewrite app_nil_r, Hr.
    split_and!; [done|done|by left|by left|done]. }
  apply wp_bind, wp_Begin; [intros w1 e Hs; by apply wp_ret, Hnone|].
  intros w1 tx Hs1 Ha1 Hn1. apply wp_bind, wp_bind. unfold fetchAndLockUnpublishedInTx.
  apply wp_bind, wp_Tx_Query.
  2: intros w2 ? e Hs2.
  3: intros w2 e Hs2.
  2-3: apply wp_ret, wp_ret, wp_bind, wp_Rollback;
      intros w3 ? Hs3; apply wp_ret, Hnone; by rewrite Hs1, Hs2.
  intros w2 rows t Hs2 Ha1' Hans Ha2. rewrite (active_fun _ _ _ _ Ha1' Ha1) in *.
  apply wp_ret. destruct (RowToOutboxEvent <$> rows) as [|ev evs] eqn:Hevs.
  { apply wp_ret, wp_bind, wp_Rollback. intros w3 ? Hs3. apply wp_ret, Hnone.
    by rewrite Hs1, Hs2. }
  assert (committed w2 = committed w) as Hc2 by (destruct Hs1, Hs2; congruence).
  assert (rest w2 = rest w) as Hr2 by (destruct Hs1, Hs2; congruence).
  rewrite <- Hc2 in Ha2. eapply wp_mono; [by apply wp_publish_batch|].
  intros r w3 (pubs & Hp & Hpre & Has & Hcase). apply wp_bind, wp_Rollback.
  intros w4 ? [Hc4 Hr4]. apply wp_ret. exists rows, pubs. unfold batch_outcome.
  rewrite Hevs, Hr4, Hc4, <- Hr2. split_and!; [done|done|right; by eexists _, _| |by rewrite Has, Hr2].
  assert (er_event_id <$> rows = oe_EventID <$> ev :: evs) as ->.
  { rewrite <- Hevs. by rewrite <- list_fmap_compose. }
  assert (length rows = length (ev :: evs)) as -> by (by rewrite <- Hevs, length_fmap).
  rewrite <- Hc2. destruct Hcase as [[? ?]|[? ?]]; [by left|right].
  split_and!; [by intros ->|done..].
Qed.
End relay_rules.

(** ** Theorems *)

(** No event is marked before the broker has it. *)
Definition at_least_once `{BrokerSpec W R Msg} (w : W) : Prop :=
  Forall (λ o, or_published o = true → er_aggregate_type (or_event o) ≠ "" →
    message (er_aggregate_type (or_event o)) (RowToOutboxEvent (or_event o)) ∈ published (rest w))
    (outbox (committed w)).

Lemma unpublished_rows limit skip t rows :
  answers (SelectUnpublished limit) skip t rows →
  ∀ r, r ∈ rows → r ∈ or_event <$> outbox t.
Proof.
  intros (_ & rest & Hp & _) r Hr.
  assert (r ∈ rows ++ rest) as Hin by (apply elem_of_app; by left).
  rewrite Hp in Hin. apply list_elem_of_fmap in Hin as (o & -> & Ho).
  apply list_elem_of_filter in Ho as [_ Ho]. by apply list_elem_of_fmap_2.
Qed.

Lemma same_outbox_id t r r' :
  tables_wf t → r ∈ or_event <$> outbox t → r' ∈ or_event <$> outbox t →
  er_event_id r = er_event_id r' → r = r'.
Proof.
  intros Hwf [i Hi]%list_elem_of_lookup [j Hj]%list_elem_of_lookup He.
  rewrite list_lookup_fmap in Hi, Hj.
  destruct (outbox t !! i) as [o|] eqn:Ho; simplify_eq/=.
  destruct (outbox t !! j) as [o'|] eqn:Ho'; simplify_eq/=.
  assert (i = j) as ->; [|congruence].
  eapply (NoDup_lookup _ i j); [apply (wf_outbox_ids _ Hwf)| |]; rewrite list_lookup_fmap.
  - by rewrite Ho.
  - rewrite Ho'. simpl. by rewrite He.
Qed.

Lemma elem_of_topic_events rows r :
  r ∈ rows → er_aggregate_type r ≠ "" →
  (er_aggregate_type r, RowToOutboxEvent r) ∈ topic_events (RowToOutboxEvent <$> rows).
Proof.
  intros Hr Hne. unfold topic_events. apply list_elem_of_fmap.
  exists (RowToOutboxEvent r). split; [done|]. apply list_elem_of_filter.
  split; [done|]. by apply list_elem_of_fmap_2.
Qed.

Lemma relay_loop_Tick `{Broker W C} `{BatchStore W C} batchSize (ctx : C) ready w w1 r :
  processBatch batchSize ctx w = (w1, r) →
  relay_loop batchSize ctx (Tick :: ready) w = relay_loop batchSize ctx ready w1.
Proof. intros Hb. cbn [relay_loop]. unfold mbind, M_bind. by rewrite Hb. Qed.

Section relay_theorems.
Context `{BrokerSpec W R Msg} `{!PgCodecSpec}.
Implicit Types (w : W).

(** One poll of the outbox, whatever fails.  The events fetched are an answer to
    the query for unpublished rows; those with a topic are published in that order
    until the first failure.  Either no row changes, and nil is returned only if
    there was nothing to publish; or every event with a topic was published and
    exactly the fetched rows are marked, among them those without a topic, which
    the broker never sees. *)
Theorem relay_batch batchSize ctx w w' r :
  processBatch batchSize ctx w = (w', r) →
  ∃ rows pubs,
    published (rest w') = published (rest w) ++ sent pubs ∧
    pubs `prefix_of` topic_events (RowToOutboxEvent <$> rows) ∧
    (rows = [] ∨ ∃ w1 tx,
     answers (SelectUnpublished batchSize) (locked w1 tx) (committed w) rows) ∧
    ((committed w' = committed w ∧ (r = None → rows = [])) ∨
     (rows ≠ [] ∧ pubs = topic_events (RowToOutboxEvent <$> rows) ∧
      update_published (er_event_id <$> rows) (committed w) =
        Ok (committed w', Z.of_nat (length rows)))).
Proof.
  intros Hrun. wp_start Hrun. eapply wp_mono; [apply wp_processBatch|].
  intros r1 w1 (rows & pubs & Hout & _). by exists rows, pubs.
Qed.

Lemma batch_outcome_at_least_once batchSize w r w' rows pubs :
  batch_outcome batchSize w r w' rows pubs →
  tables_wf (committed w) → at_least_once w →
  tables_wf (committed w') ∧ at_least_once w' ∧
  published (rest w) `prefix_of` published (rest w') ∧
  committed w' = set_outbox (outbox (committed w')) (committed w).
Proof.
  intros (Hp & _ & Hans & Hcase) Hwf Hal.
  assert (∀ x, x ∈ published (rest w) → x ∈ published (rest w')) as Hmono.
  { intros x Hx. rewrite Hp. apply elem_of_app. by left. }
  destruct Hcase as [[Hc _]|(Hne & -> & Hx)].
  { rewrite Hc. split_and!; [done| |by eexists|by destruct (committed w)].
    unfold at_least_once in *. rewrite Hc. eapply Forall_impl; [done|]. simpl. eauto. }
  split_and!; [by apply (sql_exec_keeps_wf (UpdatePublished _) _ _ _ Hx)| |by eexists|].
  2:{ unfold update_published in Hx. by injection Hx as <- _. }
  unfold update_published in Hx. injection Hx as Hx _. unfold at_least_once in *.
  rewrite <- Hx. simpl. apply Forall_fmap. rewrite Forall_forall in Hal |- *.
  intros o Ho. simpl. destruct (marked _ o) eqn:Hm; [|by eauto]. simpl. intros _ Hty.
  apply bool_decide_eq_true in Hm. apply list_elem_of_fmap in Hm as (row & Hid & Hrow).
  destruct Hans as [->|(w1 & tx & Hans)]; [done|].
  assert (or_event o = row) as Heq.
  { apply (same_outbox_id (committed w)); [done|by apply (list_elem_of_fmap_2 or_event)| |done].
    by eapply unpublished_rows. }
  rewrite Heq in *. rewrite Hp. apply elem_of_app. right. unfold sent. apply list_elem_of_fmap.
  eexists (_, _). split; [done|]. by apply elem_of_topic_events.
Qed.

(** The row holds the event it held, and is published if it was. *)
Definition flag_only (o o' : outbox_row) : Prop :=
  or_event o' = or_event o ∧ (or_published o = true → or_published o' = true).

#[local] Instance flag_only_preorder : PreOrder flag_only.
Proof. split; [done|]. intros o1 o2 o3 [He Hp] [He' Hp']. split; [congruence|auto]. Qed.

Lemma batch_outcome_flags batchSize w r w' rows pubs :
  batch_outcome batchSize w r w' rows pubs →
  Forall2 flag_only (outbox (committed w)) (outbox (committed w')).
Proof.
  intros (_ & _ & _ & [[-> _]|(_ & _ & Hx)]); [reflexivity|].
  unfold update_published in Hx. injection Hx as <- _. simpl.
  generalize (outbox (committed w)). induction l as [|o os IH]; simpl; constructor; [|done].
  by destruct (marked _ o).
Qed.

(** C5: at-least-once delivery.  However often the relay wakes up and whatever fails,
    every outbox row marked as published whose event has a topic has been accepted
    by the broker; messages are only added; no other table changes, and in the outbox
    every row stays in its place with its event, and published if it was. *)
Theorem relay_at_least_once batchSize ctx ready w w' x :
  tables_wf (committed w) → at_least_once w →
  relay_loop batchSize ctx ready w = (w', x) →
  tables_wf (committed w') ∧ at_least_once w' ∧
  published (rest w) `prefix_of` published (rest w') ∧
  committed w' = set_outbox (outbox (committed w')) (committed w) ∧
  Forall2 flag_only (outbox (committed w)) (outbox (committed w')).
Proof.
  revert w. induction ready as [|[| |] ready IH]; intros w Hwf Hal.
  - intros [= <- _]. split_and!; [done..|by destruct (committed w)|reflexivity].
  - destruct (processBatch batchSize ctx w) as [w1 r] eqn:Hb.
    rewrite (relay_loop_Tick _ _ _ _ _ _ Hb). intros Hrun.
    assert (∃ rows pubs, batch_outcome batchSize w r w1 rows pubs) as (rows & pubs & Ho).
    { wp_start Hb. eapply wp_mono; [apply wp_processBatch|].
      intros r1 w2 (rows & pubs & Ho & _). eauto. }
    destruct (batch_outcome_at_least_once _ _ _ _ _ _ Ho Hwf Hal) as (Hwf1 & Hal1 & Hp1 & Hs1).
    destruct (IH w1 Hwf1 Hal1 Hrun) as (? & ? & Hp2 & Hs2 & Hf2).
    split_and!; [done..|by etrans| |etrans; [by eapply batch_outcome_flags|done]].
    rewrite Hs2. by rewrite Hs1.
  - intros [= <- _]. split_and!; [done..|by destruct (committed w)|reflexivity].
  - intros [= <- _]. split_and!; [done..|by destruct (committed w)|reflexivity].
Qed.
End relay_theorems.

(** ** The order of publication *)

Lemma filter_unpublished_nil (os : list outbox_row) :
  filter (unpublished []) os = filter (λ o, or_published o = false) os.
Proof.
  apply list_filter_iff. intros o. unfold unpublished. split; [by intros []|].
  split; [done|apply not_elem_of_nil].
Qed.

(** The timestamps of a stream's waiting rows follow their versions. *)
Definition timely (t : tables) : Prop :=
  ∀ r r', r ∈ or_event <$> outbox t → r' ∈ or_event <$> outbox t →
    er_aggregate_id r = er_aggregate_id r' → (er_version r < er_version r')%Z →
    (unix_ns (er_ts r) < unix_ns (er_ts r'))%Z.

Definition event_le (x y : string * OutboxEvent) : Prop :=
  (unix_ns (oe_Ts x.2) ≤ unix_ns (oe_Ts y.2))%Z.

Lemma topic_events_sorted rows :
  StronglySorted ts_le rows → StronglySorted event_le (topic_events (RowToOutboxEvent <$> rows)).
Proof.
  induction 1 as [|r rows Hss IH Hall]; [constructor|]. rewrite fmap_cons, topic_events_cons.
  destruct (String.eqb _ _); [done|]. simpl. constructor; [done|]. unfold topic_events.
  apply Forall_fmap, Forall_forall. intros e [_ He]%list_elem_of_filter.
  apply list_elem_of_fmap in He as (r' & -> & Hr'). rewrite Forall_forall in Hall.
  by apply Hall.
Qed.

Lemma topic_events_row rows x :
  x ∈ topic_events (RowToOutboxEvent <$> rows) →
  ∃ r, r ∈ rows ∧ x = (er_aggregate_type r, RowToOutboxEvent r).
Proof.
  unfold topic_events. intros (e & -> & [_ He]%list_elem_of_filter)%list_elem_of_fmap.
  apply list_elem_of_fmap in He as (r & -> & Hr). by exists r.
Qed.

Section relay_order.
Context `{BrokerSpec W R Msg}.

(** C26: order.  If the timestamps of each stream follow its versions, and no other
    relay holds rows, a poll publishes the events of a stream in version order and
    leaves no gap: with an event, it publishes every waiting event of the same
    stream with a smaller version (and a topic), even if it fails half-way. *)
Theorem relay_batch_order batchSize ctx w w' r :
  timely (committed w) → (∀ w tx, locked w tx = []) →
  processBatch batchSize ctx w = (w', r) →
  ∃ pubs, published (rest w') = published (rest w) ++ sent pubs ∧
    (∀ i j x y, i < j → pubs !! i = Some x → pubs !! j = Some y →
       oe_AggregateID x.2 = oe_AggregateID y.2 → (oe_Version x.2 ≤ oe_Version y.2)%Z) ∧
    (∀ x o, x ∈ pubs → o ∈ outbox (committed w) → or_published o = false →
       er_aggregate_type (or_event o) ≠ "" →
       er_aggregate_id (or_event o) = oe_AggregateID x.2 →
       (er_version (or_event o) < oe_Version x.2)%Z →
       (er_aggregate_type (or_event o), RowToOutboxEvent (or_event o)) ∈ pubs).
Proof.
  intros Htime Hlock Hrun. wp_start Hrun.
  eapply wp_mono; [apply wp_processBatch; done|]. intros r1 w1 (rows & pubs & (Hp & Hpre & Hans & _) & _).
  exists pubs. split; [done|]. destruct Hans as [->|(w2 & tx & Hans)].
  { apply prefix_nil_inv in Hpre as ->. split; [done|]. by intros x o Hx%not_elem_of_nil. }
  pose proof (unpublished_rows _ _ _ _ Hans) as Hin.
  destruct Hans as (_ & rst & Hperm & Hss%topic_events_sorted & Hrst & _).
  rewrite Hlock, filter_unpublished_nil in Hperm.
  destruct Hpre as [suf Hsuf]. rewrite Hsuf in Hss.
  assert (∀ x, x ∈ pubs → ∃ r, r ∈ rows ∧ x = (er_aggregate_type r, RowToOutboxEvent r)) as Hrow.
  { intros x Hx. apply topic_events_row. rewrite Hsuf. apply elem_of_app. by left. }
  split.
  - intros i j x y Hij Hx Hy Ha.
    destruct (Hrow x) as (rx & Hrx & ->); [by eapply list_elem_of_lookup_2|].
    destruct (Hrow y) as (ry & Hry & ->); [by eapply list_elem_of_lookup_2|].
    destruct (decide (er_version rx ≤ er_version ry)%Z) as [|Hlt]; [done|].
    assert (unix_ns (er_ts ry) < unix_ns (er_ts rx))%Z by (apply Htime; [auto..|done|lia]).
    apply StronglySorted_app_1_l in Hss. rewrite <- (take_drop (S i) pubs) in Hss.
    assert ((er_aggregate_type rx, RowToOutboxEvent rx) ∈ take (S i) pubs) as Hx'.
    { apply (list_elem_of_lookup_2 _ i). by rewrite lookup_take_lt by lia. }
    assert ((er_aggregate_type ry, RowToOutboxEvent ry) ∈ drop (S i) pubs) as Hy'.
    { eapply (list_elem_of_lookup_2 _ (j - S i)). rewrite lookup_drop.
      by replace (S i + (j - S i)) with j by lia. }
    pose proof (StronglySorted_app_1_elem_of event_le _ _ _ _ Hss Hx' Hy') as Hle.
    unfold event_le in Hle. simpl in Hle. lia.
  - intros x o Hx Ho Hpub Hty Ha Hv. destruct (Hrow x Hx) as (rx & Hrx & ->). simpl in *.
    assert (unix_ns (er_ts (or_event o)) < unix_ns (er_ts rx))%Z as Hts.
    { apply Htime; auto. by apply list_elem_of_fmap_2. }
    assert (or_event o ∈ rows ++ rst) as [Hor|Hor]%elem_of_app.
    { rewrite Hperm. apply list_elem_of_fmap_2. by apply list_elem_of_filter. }
    + pose proof (elem_of_topic_events rows (or_event o) Hor Hty) as Hel. rewrite Hsuf in Hel.
      apply elem_of_app in Hel as [Hel|Hel]; [done|].
      eapply StronglySorted_app_1_elem_of in Hss; [|exact Hx|exact Hel].
      unfold event_le in Hss. simpl in Hss. lia.
    + rewrite Forall_forall in Hrst. specialize (Hrst rx Hrx). rewrite Forall_forall in Hrst.
      specialize (Hrst _ Hor). unfold ts_le in Hrst. lia.
Qed.
End relay_order.

(** ** Draining the outbox *)

(** No other relay holds rows locked. *)
Class NoLocks (W R : Type) `{PgxSpec W R} : Prop := {
  no_locked w tx : locked w tx = [];
}.

Definition backlog (t : tables) : list event_row :=
  or_event <$> filter (λ o, or_published o = false) (outbox t).

(** Marking the ids of a fetched batch marks exactly its rows: the rest of the
    backlog stays. *)
Lemma filter_marked (b : bool) rows rest (os : list outbox_row) :
  NoDup ((λ o, er_event_id (or_event o)) <$> os) →
  rows ++ rest ≡ₚ or_event <$> filter (λ o, or_published o = false) os →
  or_event <$> filter (λ o, or_published o = false ∧ marked (er_event_id <$> rows) o = b) os
    ≡ₚ if b then rows else rest.
Proof.
  intros Hnd Hp.
  set (Q := λ r : event_row, bool_decide (er_event_id r ∈ er_event_id <$> rows) = b).
  trans (filter Q (or_event <$> filter (λ o, or_published o = false) os)).
  { rewrite <- filter_and_fmap. done. }
  rewrite <- Hp, filter_app.
  assert (NoDup (er_event_id <$> rows ++ rest)) as Hnd'.
  { rewrite Hp, <- list_fmap_compose. by apply NoDup_fmap_filter. }
  rewrite fmap_app in Hnd'. apply NoDup_app in Hnd' as (_ & Hdisj & _).
  assert (Forall (λ r, bool_decide (er_event_id r ∈ er_event_id <$> rows) = true) rows) as H1.
  { apply Forall_forall. intros r Hr. apply bool_decide_eq_true. by apply list_elem_of_fmap_2. }
  assert (Forall (λ r, bool_decide (er_event_id r ∈ er_event_id <$> rows) = false) rest) as H2.
  { apply Forall_forall. intros r Hr. apply bool_decide_eq_false. intros Hin.
    apply (Hdisj _ Hin). by apply list_elem_of_fmap_2. }
  destruct b.
  - rewrite (filter_all Q) by done. rewrite (filter_none Q), app_nil_r; [done|].
    eapply Forall_impl; [exact H2|]. unfold Q. by intros r ->.
  - rewrite (filter_all Q rest) by done. rewrite (filter_none Q); [done|].
    eapply Forall_impl; [exact H1|]. unfold Q. by intros r ->.
Qed.

Lemma marked_count rows rest t :
  tables_wf t → rows ++ rest ≡ₚ backlog t →
  length (List.filter (marked (er_event_id <$> rows)) (outbox t)) = length rows.
Proof.
  intros Hwf Hp. rewrite List_filter_eq, <- (length_fmap or_event). apply Permutation_length.
  pose proof (wf_outbox_ids _ Hwf) as Hnd.
  assert (NoDup rows) as Hndr.
  { assert (NoDup (er_event_id <$> rows ++ rest)) as Hnd'.
    { rewrite Hp. unfold backlog. rewrite <- list_fmap_compose. by apply NoDup_fmap_filter. }
    rewrite fmap_app in Hnd'. apply NoDup_app in Hnd' as (Hnd' & _).
    by eapply NoDup_fmap_1. }
  assert (∀ r, r ∈ rows → ∃ o, r = or_event o ∧ o ∈ outbox t) as Hin.
  { intros r Hr. assert (r ∈ rows ++ rest) as Hin by (apply elem_of_app; by left).
    rewrite Hp in Hin. apply list_elem_of_fmap in Hin as (o & -> & [_ Ho]%list_elem_of_filter).
    eauto. }
  apply NoDup_Permutation; [|done|].
  - eapply (NoDup_fmap_1 er_event_id). rewrite <- list_fmap_compose. by apply NoDup_fmap_filter.
  - intros r. rewrite list_elem_of_fmap. split.
    + intros (o & -> & [Hm Ho]%list_elem_of_filter). apply bool_decide_eq_true in Hm.
      apply list_elem_of_fmap in Hm as (r & Hid & Hr).
      destruct (Hin r Hr) as (o' & -> & Ho').
      rewrite (same_outbox_id t (or_event o) (or_event o')); [done|done|..|done];
        by apply list_elem_of_fmap_2.
    + intros Hr. destruct (Hin r Hr) as (o & -> & Ho). exists o. split; [done|].
      apply list_elem_of_filter. split; [|done]. apply bool_decide_eq_true.
      by apply list_elem_of_fmap_2.
Qed.

Lemma backlog_marked ids (os : list outbox_row) :
  or_event <$> filter (λ o, or_published o = false)
    ((λ o, if marked ids o then {| or_event := or_event o; or_published := true |} else o) <$> os) =
  or_event <$> filter (λ o, or_published o = false ∧ marked ids o = false) os.
Proof.
  induction os as [|o os IH]; [done|]. rewrite fmap_cons, !filter_cons.
  destruct (marked ids o).
  - rewrite decide_False by done. rewrite decide_False by (by intros [_ ?]). done.
  - destruct (or_published o).
    + rewrite decide_False by done. rewrite decide_False by (by intros [? _]). done.
    + rewrite decide_True by done. rewrite decide_True by done. by rewrite !fmap_cons, IH.
Qed.

Section drain.
Context `{BrokerReliable W R Msg} `{!PgxReliable W R} `{!NoLocks W R} `{!PgCodecSpec}.
Implicit Types (w : W).

Lemma wp_publish_events_reliable ctx evs (Q : option error → W → Prop) w :
  Forall sendable evs →
  (∀ w', committed w' = committed w → (∀ tx, tx_state w' tx = tx_state w tx) →
     published (rest w') = published (rest w) ++ sent (topic_events evs) → Q None w') →
  wp (publish_events ctx evs) Q w.
Proof.
  intros Hsend. revert Q w. induction Hsend as [|e evs Hse _ IH]; intros Q w HQ; simpl.
  - apply wp_ret, HQ; [done|done|by rewrite app_nil_r].
  - destruct (String.eqb (oe_AggregateType e) "") eqn:He.
    + apply IH. intros w' Hc Ht Hp. apply HQ; rewrite ?topic_events_cons, ?He; done.
    + destruct (Publish_ok ctx (oe_AggregateType e) e w Hse) as [w1 Hx].
      apply wp_bind, wp_intro. intros w1' r1 Hx'. rewrite Hx in Hx'. simplify_eq.
      apply Publish_spec in Hx as (Hc1 & Ht1 & _ & Hp1). destruct Hp1 as [Hp1|[[] _]]; [|done].
      apply IH. intros w' Hc Ht Hp. apply HQ; [congruence|intros tx; by rewrite Ht|].
      rewrite Hp, Hp1, <- app_assoc, topic_events_cons, He. done.
Qed.

Definition mark_published (ids : list uuid) (t : tables) : tables :=
  set_outbox
    ((λ o, if marked ids o then {| or_event := or_event o; or_published := true |} else o)
       <$> outbox t) t.

Lemma wp_publish_batch_reliable ctx tx rows rst evs w (Q : option error → W → Prop) :
  tables_wf (committed w) → active w tx (committed w) → rows ++ rst ≡ₚ backlog (committed w) →
  RowToOutboxEvent <$> rows = evs → Forall sendable evs →
  (∀ w', committed w' = mark_published (er_event_id <$> rows) (committed w) →
     published (rest w') = published (rest w) ++ sent (topic_events evs) → Q None w') →
  wp (e ← publish_events ctx evs;
      match e with
      | Some err => mret (Some (Wrapf "event processing function failed" err))
      | None =>
          e ← markAsPublishedInTx tx evs;
          match e with
          | Some err => mret (Some (Wrapf "failed to mark events as published" err))
          | None => Tx_Commit tx
          end
      end) Q w.
Proof.
  intros Hwf Ha Hp Hevs Hsend HQ. apply wp_bind, wp_publish_events_reliable; [done|].
  intros w1 Hc1 Ht1 Hp1.
  assert (active w1 tx (committed w)) as Ha1 by (eapply active_still; [done|apply Ht1|done]).
  apply wp_bind. unfold markAsPublishedInTx. apply wp_bind. eapply wp_Exec_reliable; [done|].
  intros w2 [_ Hr2]. unfold sql_exec, update_published.
  assert (oe_EventID <$> evs = er_event_id <$> rows) as ->.
  { rewrite <- Hevs. by rewrite <- list_fmap_compose. }
  intros Ha2. rewrite (marked_count rows rst) by done. rewrite length_fmap, decide_True by done.
  apply wp_ret. eapply wp_Commit_reliable; [done|]. intros w3 Hr3 Hc3.
  apply HQ; [done|]. by rewrite Hr3, Hr2.
Qed.

(** What a poll does to the backlog when nothing fails. *)
Definition drained (batchSize : Z) (w : W) (r : option error) (w' : W) : Prop :=
  r = None ∧ tables_wf (committed w') ∧
  committed w' = set_outbox (outbox (committed w')) (committed w) ∧
  ∃ rows, rows ++ backlog (committed w') ≡ₚ backlog (committed w) ∧
    StronglySorted ts_le rows ∧
    Forall (λ r, Forall (ts_le r) (backlog (committed w'))) rows ∧
    Z.of_nat (length rows) = Z.min batchSize (Z.of_nat (length (backlog (committed w)))) ∧
    published (rest w') = published (rest w) ++ sent (topic_events (RowToOutboxEvent <$> rows)).

Lemma wp_processBatch_reliable batchSize ctx w :
  (0 ≤ batchSize)%Z → tables_wf (committed w) →
  Forall sendable (RowToOutboxEvent <$> backlog (committed w)) →
  wp (processBatch batchSize ctx) (drained batchSize w) w.
Proof.
  intros Hb Hwf Hsend. apply wp_bind, wp_Begin_reliable. intros w1 tx Hs1 Ha1 _.
  apply wp_bind, wp_bind. unfold fetchAndLockUnpublishedInTx.
  apply wp_bind. eapply wp_Tx_Query_reliable; [by apply Z.leb_le|done|].
  intros w2 rows Hs2 (_ & rst & Hp & Hss & Hall & Hle & Hfull) Ha2. apply wp_ret.
  rewrite no_locked, filter_unpublished_nil in Hp. fold (backlog (committed w)) in Hp.
  assert (Z.of_nat (length rows) = Z.min batchSize (Z.of_nat (length (backlog (committed w)))))
    as Hlen.
  { rewrite <- Hp, length_app. destruct rst; [simpl; lia|]. rewrite Hfull by done.
    rewrite Nat2Z.inj_add, Hfull by done. lia. }
  assert (committed w2 = committed w ∧ rest w2 = rest w) as [Hc2 Hr2]
    by (destruct Hs1, Hs2; split; congruence).
  destruct (RowToOutboxEvent <$> rows) as [|ev evs] eqn:Hevs.
  { apply fmap_nil_inv in Hevs as ->. apply wp_ret, wp_bind, wp_Rollback.
    intros w3 ? [Hc3 Hr3]. apply wp_ret.
    unfold drained. rewrite Hc3, Hc2, Hr3, Hr2. split_and!; [done|done|by destruct (committed w)|].
    exists []. rewrite app_nil_r. split_and!; [done|constructor|constructor|done|done]. }
  assert (Forall sendable (ev :: evs)) as Hsend'.
  { rewrite <- Hp, fmap_app, Hevs in Hsend. by apply Forall_app in Hsend as [? _]. }
  rewrite <- Hc2 in Ha2, Hp, Hwf.
  eapply (wp_publish_batch_reliable _ _ rows rst); [done..|]. intros w3 Hc3 Hp3.
  apply wp_bind, wp_Rollback. intros w4 ? [Hc4 Hr4]. apply wp_ret.
  assert (backlog (committed w4) ≡ₚ rst) as Hback.
  { rewrite Hc4, Hc3. unfold backlog. simpl. rewrite backlog_marked.
    apply (filter_marked false); [apply (wf_outbox_ids _ Hwf)|done]. }
  unfold drained. rewrite <- Hc2. split_and!; [done| |by rewrite Hc4, Hc3|].
  - rewrite Hc4, Hc3. by eapply (sql_exec_keeps_wf (UpdatePublished _)).
  - exists rows. rewrite Hback, Hr4, Hp3, Hr2, <- Hevs. rewrite <- Hc2 in Hlen.
    split_and!; [done|done| |done|done].
    eapply Forall_impl; [exact Hall|]. intros x Hx. by rewrite Hback.
Qed.

(** C6: liveness.  When the server and the broker work, no other relay holds rows and
    the broker can encode what is waiting, enough polls empty the backlog: every
    event that was waiting and has a topic has then been published exactly once, none
    other has, and every outbox row is marked. *)
Theorem relay_drains batchSize ctx n w w' x :
  (0 < batchSize)%Z → tables_wf (committed w) →
  Forall sendable (RowToOutboxEvent <$> backlog (committed w)) →
  (Z.of_nat (length (backlog (committed w))) ≤ Z.of_nat n * batchSize)%Z →
  relay_loop batchSize ctx (replicate n Tick) w = (w', x) →
  Forall (λ o, or_published o = true) (outbox (committed w')) ∧
  ∃ rows, rows ≡ₚ backlog (committed w) ∧
    published (rest w') = published (rest w) ++ sent (topic_events (RowToOutboxEvent <$> rows)).
Proof.
  intros Hb. revert w. induction n as [|n IH]; intros w Hwf Hsend Hn.
  - simpl. intros [= <- <-]. assert (backlog (committed w) = []) as Hnil.
    { apply nil_length_inv. lia. }
    split; [|exists []; by rewrite Hnil, app_nil_r].
    apply fmap_nil_inv in Hnil. apply Forall_forall. intros o Ho.
    destruct (or_published o) eqn:Hpo; [done|].
    by destruct (filter_nil_not_elem_of _ _ _ Hnil Hpo).
  - simpl replicate. destruct (processBatch batchSize ctx w) as [w1 r] eqn:Hx.
    rewrite (relay_loop_Tick _ _ _ _ _ _ Hx).
    assert (drained batchSize w r w1) as (-> & Hwf1 & _ & rows & Hp & _ & _ & Hlen & Hpub).
    { wp_start Hx. apply wp_processBatch_reliable; [lia|done|done]. }
    intros (Hall & rows2 & Hp2 & Hpub2)%IH; [|done| |].
    2:{ rewrite <- Hp, fmap_app in Hsend. by apply Forall_app in Hsend as [_ ?]. }
    2:{ rewrite <- Hp, length_app in Hlen, Hn. lia. }
    split; [done|]. exists (rows ++ rows2). split; [by rewrite Hp2|].
    rewrite fmap_app, topic_events_app. unfold sent in *. by rewrite fmap_app, Hpub2, Hpub, app_assoc.
Qed.
End drain.
