(* ===== verification/ReadModel.v ===== *)
(** * ReadModel: sample/query

    The product view, its repository on the connection pool, the projection handler
    that writes it, the projection wired as in main.go, and the query.  The theorems
    relate the view to the event streams of [Commands]. *)
From Stdlib Require Import Sorted.
From S2P Require Import Prelude GoJson EventSrc Cqrs Product Sql Pgx PgStores Commands.

(** ** sample/query/view/product_view.go *)

Record ProductView := {
  pv_ID : uuid;
  pv_Name : string;
  pv_Price : float64;
  pv_CreatedAt : time;
  pv_UpdatedAt : time;
  pv_Version : Z;
}.

Definition ProductView_zero : ProductView :=
  {| pv_ID := uuid_Nil; pv_Name := ""; pv_Price := float_zero; pv_CreatedAt := time_zero;
     pv_UpdatedAt := time_zero; pv_Version := 0 |}.

(** ** sample/query/repository/repository.go *)

Section view_repository.
Context `{Pgx W}.

Definition view_GetVersion (ctx : context W) (aggregateID : uuid) : M W (res Z) :=
  r ← Pool_QueryRow (SelectViewVersion aggregateID);
  match r with
  | Err err =>
      if errors_is err ErrNoRows then mret (Ok 0%Z)
      else mret (Err (Wrapf "failed to get product view version" err))
  | Ok version => mret (Ok version)
  end.

Definition view_args (v : ProductView) : view_params :=
  {| vp_id := pv_ID v; vp_name := pv_Name v; vp_price := pv_Price v; vp_version := pv_Version v;
     vp_created_at := pv_CreatedAt v; vp_updated_at := pv_UpdatedAt v |}.

Definition SaveProductView (ctx : context W) (view : ProductView) : M W (option error) :=
  r ← Pool_Exec (UpsertView (view_args view));
  match r with
  | Err err => mret (Some (Wrapf "failed to save product view" err))
  | Ok _ => mret None
  end.

Definition UpdateProductView (ctx : context W) (view : ProductView) : M W (option error) :=
  r ← Pool_Exec (UpdateView (view_args view));
  match r with
  | Err err => mret (Some (Wrapf "failed to update product view" err))
  | Ok _ => mret None
  end.

(** A nil pointer is [Ok None]. *)
Definition GetProductViewByID `{PgCodec} (ctx : context W) (aggregateID : uuid) :
    M W (res (option ProductView)) :=
  r ← Pool_QueryRow (SelectView aggregateID);
  match r with
  | Err err =>
      if errors_is err ErrNoRows then mret (Ok None)
      else mret (Err (Wrapf "failed to get product view by ID" err))
  | Ok row =>
      mret (Ok (Some {| pv_ID := aggregateID; pv_Name := vr_name row;
                        pv_Price := scan_float_int4 (vr_price row);
                        pv_CreatedAt := vr_created_at row; pv_UpdatedAt := vr_updated_at row;
                        pv_Version := vr_version row |}))
  end.

(** ** sample/query/projection/projection.go *)

(** A failure to write the view is logged and nil is returned. *)
Definition handleProductCreated (ctx : context W) (evt : OutboxEvent) : M W (option error) :=
  match domain_Unmarshal (oe_Payload evt) ProductCreated_zero with
  | Ok (EvProductCreated e) =>
      _ ← SaveProductView ctx
            {| pv_ID := AggID (pc_BaseEvent e); pv_Name := pc_Name e; pv_Price := pc_Price e;
               pv_CreatedAt := oe_Ts evt; pv_UpdatedAt := oe_Ts evt; pv_Version := oe_Version evt |};
      mret None
  | Ok _ => mret None
  | Err err => mret (Some (Wrapf "failed to unmarshal ProductCreated event" err))
  end.

Definition handleProductUpdated (ctx : context W) (evt : OutboxEvent) : M W (option error) :=
  match domain_Unmarshal (oe_Payload evt) ProductUpdated_zero with
  | Ok (EvProductUpdated e) =>
      _ ← UpdateProductView ctx
            {| pv_ID := AggID (pu_BaseEvent e); pv_Name := pu_Name e; pv_Price := pu_Price e;
               pv_CreatedAt := time_zero; pv_UpdatedAt := oe_Ts evt; pv_Version := oe_Version evt |};
      mret None
  | Ok _ => mret None
  | Err err => mret (Some (Wrapf "failed to unmarshal ProductUpdated event" err))
  end.

Definition ProductProjectionHandler_Handle (ctx : context W) (evt : OutboxEvent) :
    M W (option error) :=
  if String.eqb (oe_EventType evt) ProductCreatedEventType then handleProductCreated ctx evt
  else if String.eqb (oe_EventType evt) ProductUpdatedEventType then handleProductUpdated ctx evt
  else mret None.

(** ** sample/query/query/get_product_by_id.go *)

Record GetProductByID := { q_ID : uuid }.

Definition GetProductByIDHandler_Query `{PgCodec} (ctx : context W) (query : GetProductByID) :
    M W (res ProductView) :=
  r ← GetProductViewByID ctx (q_ID query);
  match r with
  | Err err => mret (Err (Wrapf "get product view by id failed" err))
  | Ok None => mret (Err (Wrapf "product not found" (Sentinel ErrorProductNotFound)))
  | Ok (Some productView) => mret (Ok productView)
  end.

(** ** sample/main.go: the projection and its stores *)

#[export] Instance postgres_IdempotencyStore : IdempotencyStore W (context W) := {|
  idemp_IsProcessed := IsProcessed;
  idemp_MarkAsProcessed := MarkAsProcessed;
|}.

#[export] Instance ProductViewRepository_VersionedStore : VersionedStore W (context W) := {|
  GetVersion := view_GetVersion;
|}.

Definition ProductProjection : string := "ProductProjection".

Definition productProjection : Projection W (context W) :=
  NewProjection ProductProjection ProductProjectionHandler_Handle [].
End view_repository.

(** ** What the handler writes *)

(** The statement the handler sends for a stored event. *)
Definition view_stmt (r : event_row) : option stmt :=
  match decode_row r with
  | Ok (EvProductCreated e) =>
      Some (UpsertView {| vp_id := AggID (pc_BaseEvent e); vp_name := pc_Name e;
                          vp_price := pc_Price e; vp_version := er_version r;
                          vp_created_at := er_ts r; vp_updated_at := er_ts r |})
  | Ok (EvProductUpdated e) =>
      Some (UpdateView {| vp_id := AggID (pu_BaseEvent e); vp_name := pu_Name e;
                          vp_price := pu_Price e; vp_version := er_version r;
                          vp_created_at := time_zero; vp_updated_at := er_ts r |})
  | _ => None
  end.

(** Its effect, a failure being swallowed. *)
Definition handler_effect `{PgCodec} (r : event_row) (t : tables) : tables :=
  match view_stmt r with
  | Some s => match sql_exec s t with Ok (t', _) => t' | Err _ => t end
  | None => t
  end.

Definition view_version (t : tables) (aid : uuid) : Z :=
  match product_views t !! aid with Some v => vr_version v | None => 0%Z end.

(** The view of a row's event: its columns, as PostgreSQL stores them. *)
Definition shows `{PgCodec} (r : event_row) (v : view_row) : Prop :=
  ∃ e, decode_row r = Ok e ∧ varchar 255 (event_name e) = Ok (vr_name v) ∧
    encode_int4_float (event_price e) = Some (vr_price v) ∧ vr_version v = er_version r ∧
    vr_updated_at v = encode_timestamptz (er_ts r).

Section handler_lemmas.
Context `{PgCodecSpec}.
Implicit Types (t : tables) (r : event_row).

Lemma handler_effect_cases r t :
  product_row r →
  handler_effect r t = t ∨
  ∃ v, shows r v ∧
    handler_effect r t = set_product_views (<[er_aggregate_id r := v]> (product_views t)) t.
Proof.
  intros (e & Hd & Hp & Hty & _ & Ha & _). unfold handler_effect, view_stmt. rewrite Hd.
  destruct e as [e|e|]; [| |by left]; simpl in Ha.
  - simpl. destruct (upsert_view _ t) as [[t' n]|] eqn:Hx; [|by left]. right.
    apply upsert_view_Ok in Hx as (row & row' & Hc & -> & Hn & Hpr & Hv & Hu & _).
    apply view_columns_Ok in Hc as (Hc1 & Hc2 & Hc3 & _ & _ & _ & Hc4). simpl in *.
    exists row'. rewrite Ha. split; [|done]. exists (EvProductCreated e). simpl.
    rewrite Hn, Hpr, Hv, Hu. done.
  - simpl. destruct (update_view _ t) as [[t' n]|] eqn:Hx; [|by left].
    apply update_view_Ok in Hx as [(_ & -> & _)|Hx]; [by left|right].
    destruct Hx as (old & row & row' & _ & _ & Hc & -> & Hn & Hpr & Hv & Hu & _).
    apply view_columns_Ok in Hc as (Hc1 & Hc2 & Hc3 & _ & _ & _ & Hc4). simpl in *.
    exists row'. rewrite Ha. split; [|done]. exists (EvProductUpdated e). simpl.
    rewrite Hn, Hpr, Hv, Hu. done.
Qed.

Lemma handler_effect_wf r t : tables_wf t → tables_wf (handler_effect r t).
Proof.
  intros Hwf. unfold handler_effect. destruct (view_stmt r) as [s|]; [|done].
  destruct (sql_exec s t) as [[t' n]|] eqn:Hx; [|done]. by eapply sql_exec_keeps_wf.
Qed.
End handler_lemmas.

Section handler_rules.
Context `{PgxSpec W R}.
Implicit Types (w : W).

(** The handler on the event of a stored row: one statement on the pool, and nil. *)
Lemma handler_sends ctx r :
  product_row r →
  ∃ s, view_stmt r = Some s ∧
    ∀ (Q : option error → W → Prop) w, wp (Pool_Exec s) (λ _, Q None) w →
      wp (ProductProjectionHandler_Handle ctx (RowToOutboxEvent r)) Q w.
Proof.
  intros (e & Hd & Hp & Hty & _ & Ha & _). unfold view_stmt. rewrite Hd.
  unfold decode_row in Hd. rewrite <- Hty, (CreateEvent_product e Hp) in Hd.
  unfold ProductProjectionHandler_Handle. simpl oe_EventType. rewrite <- Hty.
  destruct e as [e|e|]; [..|done]; simpl in Hd |- *; eexists; (split; [done|]); intros Q w Hx.
  - unfold handleProductCreated. simpl. rewrite Hd. apply wp_bind, wp_bind.
    eapply wp_mono; [exact Hx|]. intros [n|err] w' HQ; by repeat apply wp_ret.
  - unfold handleProductUpdated. simpl. rewrite Hd. apply wp_bind, wp_bind.
    eapply wp_mono; [exact Hx|]. intros [n|err] w' HQ; by repeat apply wp_ret.
Qed.

Lemma wp_handler ctx r (Q : option error → W → Prop) w :
  product_row r →
  (∀ w', rest w' = rest w → (∀ tx, tx_state w' tx = tx_state w tx) →
     committed w' = committed w ∨ committed w' = handler_effect r (committed w) → Q None w') →
  wp (ProductProjectionHandler_Handle ctx (RowToOutboxEvent r)) Q w.
Proof.
  intros Hr HQ. destruct (handler_sends ctx r Hr) as (s & Hs & Hw). apply Hw, wp_Pool_Exec.
  - intros w' n Hrest Htx Hx. apply HQ; [done..|]. right. unfold handler_effect. by rewrite Hs, Hx.
  - intros w' e Hrest Htx [Hc|[n Hx]]; apply HQ; try done; [by left|right].
    unfold handler_effect. by rewrite Hs, Hx.
Qed.
End handler_rules.

(** ** The read model's invariant *)

(** Every view shows an event of its aggregate's stream. *)
Definition view_ok `{PgCodec} (t : tables) : Prop :=
  map_Forall (λ aid v, ∃ r, r ∈ rows_of t aid ∧ shows r v) (product_views t).

Definition read_inv `{PgCodec} (t : tables) : Prop := products_inv t ∧ view_ok t.

(** What only ever grows: the events, the marks and the views' versions. *)
Record view_grows (t t' : tables) : Prop := {
  grows_events : event_store t `prefix_of` event_store t';
  grows_processed : processed_events t ⊆ processed_events t';
  grows_views aid : (view_version t aid ≤ view_version t' aid)%Z;
}.

#[export] Instance view_grows_preorder : PreOrder view_grows.
Proof.
  split.
  - intros t. by split; intros.
  - intros t1 t2 t3 [H1 H2 H3] [H4 H5 H6]. split; [by etrans|set_solver|].
    intros aid. specialize (H3 aid). specialize (H6 aid). lia.
Qed.

Definition mark (eid : uuid) (t : tables) : tables :=
  set_processed_events ({[(eid, ProductProjection)]} ∪ processed_events t) t.

Lemma insert_processed_mark eid t t' n :
  insert_processed eid ProductProjection t = Ok (t', n) → t' = mark eid t.
Proof.
  intros (sub & Hs & _ & ->)%insert_processed_Ok.
  change (varchar 255 ProductProjection) with (Ok ProductProjection) in Hs.
  by injection Hs as <-.
Qed.

Section read_lemmas.
Context `{PgCodecSpec}.
Implicit Types (t : tables) (r : event_row).

Lemma view_ok_grows t t' :
  event_store t `prefix_of` event_store t' → product_views t' = product_views t →
  view_ok t → view_ok t'.
Proof.
  intros Hp Hv Hok. unfold view_ok. rewrite Hv. eapply map_Forall_impl; [done|].
  intros aid v (r & [Ha Hr]%elem_of_rows_of & Hsh). exists r. split; [|done].
  apply elem_of_rows_of. split; [done|]. by eapply elem_of_prefix.
Qed.

Lemma products_inv_same t t' :
  products_inv t → tables_wf t' → event_store t' = event_store t → outbox t' = outbox t →
  snapshots t' = snapshots t → products_inv t'.
Proof.
  intros [Hwf Hm Hr Hc Hs] Hwf' He Ho Hsn. split; [done|..].
  - unfold mirrored. by rewrite He, Ho.
  - by rewrite He.
  - intros aid. unfold rows_of. rewrite He. apply Hc.
  - rewrite Hsn. eapply Forall_impl; [done|]. intros s. apply snapshot_shows_grows. by rewrite He.
Qed.

Lemma mark_read_inv eid t : read_inv t → read_inv (mark eid t) ∧ view_grows t (mark eid t).
Proof.
  intros [Hi Hv]. split.
  - split; [|done]. eapply products_inv_same; [done| |done..]. by destruct (inv_wf _ Hi).
  - split; [done|set_solver|done].
Qed.

Lemma handler_effect_same r t :
  product_row r →
  event_store (handler_effect r t) = event_store t ∧ outbox (handler_effect r t) = outbox t ∧
  snapshots (handler_effect r t) = snapshots t ∧
  processed_events (handler_effect r t) = processed_events t ∧
  ∀ aid, aid ≠ er_aggregate_id r →
    product_views (handler_effect r t) !! aid = product_views t !! aid.
Proof.
  intros Hr. destruct (handler_effect_cases r t Hr) as [->|(v & _ & ->)]; [done|].
  split_and!; [done..|]. intros aid Ha. by apply lookup_insert_ne.
Qed.

Lemma handler_effect_keeps r t :
  r ∈ event_store t → read_inv t → read_inv (handler_effect r t).
Proof.
  intros Hin [Hi Hv].
  assert (product_row r) as Hr.
  { pose proof (inv_rows _ Hi) as Hall. rewrite Forall_forall in Hall. by apply Hall. }
  pose proof (handler_effect_wf r t (inv_wf _ Hi)) as Hwf.
  destruct (handler_effect_same r t Hr) as (He & Ho & Hs & Hp & _). split; [by eapply products_inv_same|].
  destruct (handler_effect_cases r t Hr) as [->|(v & Hsh & ->)]; [done|].
  apply map_Forall_insert_2; [|done]. exists r. by rewrite elem_of_rows_of.
Qed.

Lemma handler_effect_read_inv r t :
  r ∈ event_store t → read_inv t → (view_version t (er_aggregate_id r) ≤ er_version r)%Z →
  read_inv (handler_effect r t) ∧ view_grows t (handler_effect r t).
Proof.
  intros Hin Hinv Hle. split; [by apply handler_effect_keeps|]. destruct Hinv as [Hi _].
  assert (product_row r) as Hr.
  { pose proof (inv_rows _ Hi) as Hall. rewrite Forall_forall in Hall. by apply Hall. }
  destruct (handler_effect_same r t Hr) as (He & Ho & Hs & Hp & Hoth).
  split; [by rewrite He|by rewrite Hp|]. intros aid. unfold view_version.
  destruct (handler_effect_cases r t Hr) as [->|(v & (e & _ & _ & _ & Hver & _) & ->)]; [done|].
  simpl. destruct (decide (aid = er_aggregate_id r)) as [->|Hne].
  - rewrite lookup_insert_eq, Hver. exact Hle.
  - by rewrite lookup_insert_ne.
Qed.

(** The version the guard computes for the next event. *)
Lemma view_version_succ t aid :
  tables_wf t → int_add (view_version t aid) 1 = (view_version t aid + 1)%Z.
Proof.
  intros Hwf. apply int4_ok_succ. unfold view_version.
  destruct (product_views t !! aid) as [v|] eqn:Hv; [|done]. by apply (wf_views _ Hwf aid v).
Qed.
End read_lemmas.

Section projection_rules.
Context `{PgxSpec W R}.
Implicit Types (w : W).

Lemma wp_view_GetVersion ctx aid (Q : res Z → W → Prop) w :
  (∀ w', still w w' → Q (Ok (view_version (committed w) aid)) w') →
  (∀ w' e, still w w' → Q (Err e) w') →
  wp (view_GetVersion ctx aid) Q w.
Proof.
  intros Ho He. apply wp_bind, wp_Pool_QueryRow.
  - intros w' v rows Hs _ Ha. simpl in Ha. apply wp_ret. specialize (Ho w' Hs).
    unfold view_version in Ho. destruct (product_views (committed w) !! aid); by simplify_eq.
  - intros w' e Hs _ Ha. destruct (errors_is e ErrNoRows); apply wp_ret; [|by apply He].
    specialize (Ho w' Hs). specialize (Ha eq_refl). simpl in Ha. unfold view_version in Ho.
    by destruct (product_views (committed w) !! aid).
Qed.

(** Marking an event in a transaction that has done nothing else. *)
Lemma wp_mark ctx tx eid (Q : option error → W → Prop) w :
  ctx_tx ctx = Some tx → active w tx (committed w) →
  (∀ w', still w w' → active w' tx (mark eid (committed w)) → Q None w') →
  (∀ w', still w w' → (∀ t, ¬ active w' tx t) → Q None w') →
  (∀ w' e, still w w' → Q (Some e) w') →
  wp (MarkAsProcessed ctx eid ProductProjection) Q w.
Proof.
  intros Hctx Ha Ho Hu He. eapply wp_MarkAsProcessed; [done| | |].
  - intros w' n t t' Hs Ha' Hx%insert_processed_mark Ha2. subst t'.
    rewrite (active_fun _ _ _ _ Ha' Ha) in Ha2. by apply Ho.
  - intros w' e Hs _. by apply He.
  - intros w' t Hs _ _ Hno. by apply Hu.
Qed.

Lemma wp_mark_only ctx eid (Q : option error → W → Prop) w :
  (∀ w' r, rest w' = rest w → committed w' = mark eid (committed w) → Q r w') →
  (∀ w' e, still w w' → Q (Some e) w') →
  wp (WithTransaction ctx (λ txCtx, MarkAsProcessed txCtx eid ProductProjection)) Q w.
Proof.
  intros Ho He. apply wp_WithTransaction; [done|]. intros w1 tx Hs1 Ha1 _.
  rewrite <- (still_committed _ _ Hs1) in Ha1. eapply wp_mark; [done|done|..].
  - intros w2 [Hc2 Hr2] Ha2. destruct Hs1 as [Hc1 Hr1]. split.
    + intros w3 t Ha2' Hc3 Hr3. rewrite (active_fun _ _ _ _ Ha2' Ha2) in Hc3.
      split; [|intros e]; apply Ho; congruence.
    + intros w3 e [Hc3 Hr3]. apply He. split; congruence.
  - intros w2 [Hc2 Hr2] Hno. destruct Hs1 as [Hc1 Hr1].
    split; [by intros w3 t Ha%Hno|]. intros w3 e [Hc3 Hr3]. apply He. split; congruence.
  - intros w2 e [Hc2 Hr2] w3 [Hc3 Hr3]. destruct Hs1 as [Hc1 Hr1]. apply He. split; congruence.
Qed.

(** The handler's write goes through the pool: it stays whatever becomes of the
    transaction that marks the event. *)
Lemma wp_execute ctx r (Q : option error → W → Prop) w :
  product_row r →
  (∀ w' res t1, rest w' = rest w → t1 = committed w ∨ t1 = handler_effect r (committed w) →
     committed w' = mark (er_event_id r) t1 → Q res w') →
  (∀ w' e, rest w' = rest w →
     committed w' = committed w ∨ committed w' = handler_effect r (committed w) →
     Q (Some e) w') →
  wp (WithTransaction ctx (execute productProjection (RowToOutboxEvent r))) Q w.
Proof.
  intros Hr Ho He. apply wp_WithTransaction.
  { intros w1 e [Hc1 Hr1]. apply He; [done|by left]. }
  intros w1 tx [Hc1 Hr1] Ha1 Hn1. apply wp_bind, wp_handler; [done|].
  intros w2 Hr2 Ht2 Hc2. rewrite Hc1 in Hc2.
  assert (active w2 tx (committed w2)) as Ha2.
  { exists []. split; [by rewrite Ht2|done]. }
  assert (∀ w3 w4 e, still w2 w3 → still w3 w4 → Q (Some e) w4) as Herr.
  { intros w3 w4 e [Hc3 Hr3] [Hc4 Hr4]. apply He; [congruence|]. by rewrite Hc4, Hc3. }
  apply wp_bind. eapply wp_mark; [done|done|..].
  - intros w3 Hs3 Ha3. apply wp_ret. split; [|by eauto].
    intros w4 t Ha3' Hc4 Hr4. rewrite (active_fun _ _ _ _ Ha3' Ha3) in Hc4.
    destruct Hs3 as [_ Hr3]. split; [|intros e];
      (eapply (Ho w4 _ (committed w2)); [congruence|exact Hc2|exact Hc4]).
  - intros w3 Hs3 Hno. apply wp_ret. split; [by intros w4 t Ha%Hno|by eauto].
  - intros w3 e Hs3. apply wp_ret. eauto.
Qed.

End projection_rules.

(** ** The projection *)

Section projection_safety.
Context `{PgxSpec W R} `{!PgCodecSpec}.
Context {pause : W → W → Prop} `{BackoffSpec W pause}.
Implicit Types (w : W).

(** What may have happened to the tables since the message was delivered. *)
Definition projected (r : event_row) (w : W) (res : option error) (w' : W) : Prop :=
  rest w' = rest w ∧ outbox (committed w') = outbox (committed w) ∧
  read_inv (committed w') ∧ view_grows (committed w) (committed w') ∧
  (res = None → (er_event_id r, ProductProjection) ∈ processed_events (committed w')).

Lemma projected_same r w w' e :
  read_inv (committed w) → still w w' → projected r w (Some e) w'.
Proof. intros Hinv [Hc Hr]. unfold projected. by rewrite Hc, Hr. Qed.

Lemma projected_mark r w w' res t :
  read_inv t → view_grows (committed w) t → outbox t = outbox (committed w) →
  rest w' = rest w → committed w' = mark (er_event_id r) t → projected r w res w'.
Proof.
  intros Hinv Hg Ho Hr Hc. unfold projected. rewrite Hc, Hr. split; [done|]. split; [done|].
  destruct (mark_read_inv (er_event_id r) t Hinv) as [Hinv' Hg'].
  split; [done|]. split; [by etrans|]. intros _. simpl. set_solver.
Qed.

(** One attempt, whatever fails. *)
Lemma wp_operation ctx r w :
  read_inv (committed w) → r ∈ event_store (committed w) →
  wp (operation productProjection ctx (RowToOutboxEvent r)) (projected r w) w.
Proof.
  intros Hinv Hin. pose proof Hinv as [Hpi _].
  assert (product_row r) as Hr.
  { pose proof (inv_rows _ Hpi) as Hall. rewrite Forall_forall in Hall. by apply Hall. }
  assert (∀ w' res, projected r w res w' → projected r w (Permanent res) w') as Hperm.
  { intros w' [e|] Hp; [|by rewrite (Permanent_nil (pause := pause))].
    rewrite (Permanent_error (pause := pause)). destruct Hp as (? & ? & ? & ? & _). by split_and!. }
  apply wp_bind, wp_view_GetVersion; [|intros; by apply wp_ret, projected_same].
  intros w1 [Hc1 Hr1]. simpl oe_Version. simpl oe_AggregateID.
  destruct (er_version r <=? _)%Z eqn:Hle.
  - apply wp_bind, wp_mark_only.
    + intros w2 res Hr2 Hc2. rewrite Hc1 in Hc2. rewrite Hr1 in Hr2.
      by apply wp_ret, Hperm, (projected_mark _ _ _ _ (committed w)).
    + intros w2 e Hs2. apply wp_ret, Hperm, projected_same; [done|]. split; destruct Hs2; congruence.
  - apply Z.leb_gt in Hle. destruct (negb _) eqn:Heq.
    { apply wp_ret, Hperm, projected_same; done. }
    destruct (handler_effect_read_inv r (committed w) Hin Hinv ltac:(lia)) as [Hinv1 Hg1].
    destruct (handler_effect_same r (committed w) Hr) as (_ & Ho & _).
    assert (∀ w' (res : option error), projected r w res w' →
      wp (match res with
          | Some err => if errors_is err ContextCanceled then mret (Permanent res) else mret res
          | None => mret None
          end) (projected r w) w') as Hend.
    { intros w' [e|] Hp; [|by apply wp_ret].
      destruct (errors_is e ContextCanceled); apply wp_ret; [by apply Hperm|done]. }
    apply wp_bind, wp_execute; [done|..].
    + intros w2 res t1 Hr2 Ht1 Hc2. rewrite Hc1 in Ht1. rewrite Hr1 in Hr2. apply (Hend w2 res).
      destruct Ht1 as [->| ->]; by eapply (projected_mark _ _ _ _ _); try exact Hc2.
    + intros w2 e Hr2 Hc2. rewrite Hc1 in Hc2. rewrite Hr1 in Hr2. apply (Hend w2 (Some e)).
      unfold projected. by destruct Hc2 as [->| ->].
Qed.

(** The handling of a message preserves every property [J] that single attempts and
    what happens between them preserve. *)
Lemma wp_Projection_Handle (J : W → Prop) ctx r w :
  (∀ w1 w2, pause w1 w2 → J w1 → J w2) →
  (∀ w1 w2 res, projected r w1 res w2 → J w1 → J w2) →
  (∀ w1, J w1 → read_inv (committed w1) ∧ r ∈ event_store (committed w1)) →
  J w →
  wp (Projection_Handle productProjection ctx (RowToOutboxEvent r)) (λ res w', J w' ∧
    (res = None → (er_event_id r, ProductProjection) ∈ processed_events (committed w'))) w.
Proof.
  intros Hpause Hstep HJ Hw. destruct (HJ w Hw) as [Hinv Hin].
  assert (∀ w1, still w w1 → J w1) as Hstill.
  { intros w1 Hs. eapply (Hstep w _ (Some (ErrorString ""))); [|done]. by apply projected_same. }
  apply wp_bind, wp_IsProcessed; [|intros w1 e Hs _; apply wp_ret; split; [by apply Hstill|done]].
  intros w1 Hs1 _. case_bool_decide as Hd.
  { apply wp_ret. split; [by apply Hstill|]. intros _. by destruct Hs1 as [-> _]. }
  apply wp_bind. eapply wp_mono with (P := λ res w', J w' ∧
    (res = None → (er_event_id r, ProductProjection) ∈ processed_events (committed w')));
    [|intros [e|] w2 Hp; by apply wp_ret].
  apply (wp_Retry (pause := pause) J); [by apply Hstill|].
  intros w2 Hw2. destruct (HJ w2 Hw2) as [Hinv2 Hin2].
  eapply wp_mono; [by apply wp_operation|]. intros res2 w3 Hp3.
  pose proof (Hstep _ _ _ Hp3 Hw2) as Hw3. destruct Hp3 as (_ & _ & _ & _ & Hm3).
  destruct res2 as [e|]; [|done].
  destruct (errors_as_permanent e); [done|]. split; [done|]. intros w4 Hw4. by eapply Hpause.
Qed.

(** Safety of the projection, whatever fails, and whatever other processes do to
    the database while it waits between attempts as long as they keep the invariant
    and take nothing back.  Every view still shows an event of its own stream, no
    view goes back to an older version, and if nil is returned the event is marked
    as processed. *)
Theorem projection_safe ctx r w w' res :
  (∀ w1 w2, pause w1 w2 → read_inv (committed w1) →
     read_inv (committed w2) ∧ view_grows (committed w1) (committed w2)) →
  read_inv (committed w) → r ∈ event_store (committed w) →
  Projection_Handle productProjection ctx (RowToOutboxEvent r) w = (w', res) →
  read_inv (committed w') ∧ view_grows (committed w) (committed w') ∧
  (res = None → (er_event_id r, ProductProjection) ∈ processed_events (committed w')).
Proof.
  intros Hpause Hinv Hin Hrun. wp_start Hrun.
  eapply wp_mono; [apply (wp_Projection_Handle (λ w2, read_inv (committed w2) ∧
    view_grows (committed w) (committed w2))); [| | |done]|].
  - intros w1 w2 Hp [Hi Hg]. destruct (Hpause _ _ Hp Hi). split; [done|]. by etrans.
  - intros w1 w2 res1 (_ & _ & Hi & Hg & _) [_ Hg1]. split; [done|]. by etrans.
  - intros w1 [Hi [Hpre _ _]]. split; [done|]. by eapply elem_of_prefix.
  - intros res1 w1 [[? ?] ?]. by split_and!.
Qed.
End projection_safety.

(** ** Refinement: what a delivery amounts to *)

Inductive delivery := Acked | OutOfOrder.

(** The abstract projection of one delivered event. *)
Definition deliver `{PgCodec} (r : event_row) (t : tables) : tables * delivery :=
  if decide ((er_event_id r, ProductProjection) ∈ processed_events t) then (t, Acked)
  else
    let v := view_version t (er_aggregate_id r) in
    if (er_version r <=? v)%Z then (mark (er_event_id r) t, Acked)
    else if (er_version r =? v + 1)%Z then (mark (er_event_id r) (handler_effect r t), Acked)
    else (t, OutOfOrder).

Fixpoint deliver_all `{PgCodec} (rs : list event_row) (t : tables) : tables :=
  match rs with
  | [] => t
  | r :: rs => deliver_all rs (deliver r t).1
  end.

Section projection_reliable.
Context `{PgxReliable W R} `{!PgCodecSpec}.
Context {pause : W → W → Prop} `{BackoffSpec W pause}.
Implicit Types (w : W).

Lemma wp_view_GetVersion_reliable ctx aid (Q : res Z → W → Prop) w :
  (∀ w', still w w' → Q (Ok (view_version (committed w) aid)) w') →
  wp (view_GetVersion ctx aid) Q w.
Proof.
  intros HQ. apply wp_bind, wp_Pool_QueryRow_reliable; [done|..].
  - intros w' v rows Hs _ Ha. simpl in Ha. apply wp_ret. specialize (HQ w' Hs).
    unfold view_version in HQ. destruct (product_views (committed w) !! aid); by simplify_eq.
  - intros w' Hs _ Ha. simpl. apply wp_ret. specialize (HQ w' Hs). simpl in Ha.
    unfold view_version in HQ. by destruct (product_views (committed w) !! aid).
Qed.

Lemma wp_mark_reliable ctx tx eid t (Q : option error → W → Prop) w :
  ctx_tx ctx = Some tx → active w tx t → (eid, ProductProjection) ∉ processed_events t →
  (∀ w', still w w' → active w' tx (mark eid t) → Q None w') →
  wp (MarkAsProcessed ctx eid ProductProjection) Q w.
Proof.
  intros Hctx Ha Hn HQ. unfold MarkAsProcessed. rewrite Hctx.
  apply wp_bind. eapply wp_Exec_reliable; [done|]. intros w' Hs.
  unfold sql_exec, insert_processed.
  change (varchar 255 ProductProjection) with (Ok ProductProjection). cbv iota beta.
  rewrite decide_False by done. intros Ha'. by apply wp_ret, HQ.
Qed.

Lemma wp_handler_reliable ctx r (Q : option error → W → Prop) w :
  product_row r →
  (∀ w', rest w' = rest w → (∀ tx, tx_state w' tx = tx_state w tx) →
     committed w' = handler_effect r (committed w) → Q None w') →
  wp (ProductProjectionHandler_Handle ctx (RowToOutboxEvent r)) Q w.
Proof.
  intros Hr HQ. destruct (handler_sends ctx r Hr) as (s & Hs & Hw).
  apply Hw, wp_Pool_Exec_reliable. intros w' Hrest Htx.
  unfold handler_effect in HQ. rewrite Hs in HQ.
  destruct (sql_exec s (committed w)) as [[t n]|e]; intros Hc; by apply HQ.
Qed.

Lemma wp_execute_reliable ctx r (Q : option error → W → Prop) w :
  product_row r → (er_event_id r, ProductProjection) ∉ processed_events (committed w) →
  (∀ w', rest w' = rest w →
     committed w' = mark (er_event_id r) (handler_effect r (committed w)) → Q None w') →
  wp (WithTransaction ctx (execute productProjection (RowToOutboxEvent r))) Q w.
Proof.
  intros Hr Hn HQ. apply wp_WithTransaction_reliable. intros w1 tx [Hc1 Hr1] _ Hn1.
  apply wp_bind, wp_handler_reliable; [done|]. intros w2 Hr2 Ht2 Hc2. rewrite Hc1 in Hc2.
  assert (active w2 tx (committed w2)) as Ha2 by (exists []; split; [by rewrite Ht2|done]).
  apply wp_bind. eapply wp_mark_reliable; [done|done| |].
  { rewrite Hc2. by destruct (handler_effect_same r (committed w) Hr) as (_ & _ & _ & -> & _). }
  intros w3 [Hc3 Hr3] Ha3. apply wp_ret. eexists; split; [done|]. intros w4 Hc4 Hr4.
  apply HQ; [congruence|]. rewrite Hc4, Hc2. done.
Qed.

(** What [Handle] owes the abstract step. *)
Definition delivered (r : event_row) (w : W) (res : option error) (w' : W) : Prop :=
  rest w' = rest w ∧ committed w' = (deliver r (committed w)).1 ∧
  match (deliver r (committed w)).2 with
  | Acked => res = None
  | OutOfOrder => ∃ e, res = Some e ∧ errors_is e ErrOutOfOrderEvent = true
  end.

Lemma wp_operation_reliable ctx r w :
  product_row r → tables_wf (committed w) →
  (er_event_id r, ProductProjection) ∉ processed_events (committed w) →
  wp (operation productProjection ctx (RowToOutboxEvent r)) (λ res w',
    match res with
    | None => delivered r w None w'
    | Some e => ∃ inner, errors_as_permanent e = Some inner ∧
                  delivered r w (Some e) w' ∧ delivered r w (Some inner) w'
    end) w.
Proof.
  intros Hr Hwf Hn. unfold delivered, deliver. rewrite decide_False by done.
  apply wp_bind, wp_view_GetVersion_reliable. intros w1 [Hc1 Hr1].
  simpl oe_Version. simpl oe_AggregateID. rewrite view_version_succ by done.
  destruct (er_version r <=? _)%Z.
  - apply wp_bind. unfold Transactor_WithTransaction, DB_Transactor.
    apply wp_WithTransaction_reliable. intros w2 tx [Hc2 Hr2] Ha2 _.
    eapply wp_mark_reliable; [done|done|simpl; by rewrite Hc1|]. intros w3 [Hc3 Hr3] Ha3.
    eexists; split; [done|]. intros w4 Hc4 Hr4. apply wp_ret.
    rewrite (Permanent_nil (pause := pause)). simpl. rewrite Hc4, Hc1.
    split_and!; [congruence|done|done].
  - destruct (er_version r =? _)%Z; simpl negb; cbv iota.
    + apply wp_bind, wp_execute_reliable; [done|by rewrite Hc1|]. intros w2 Hr2 Hc2.
      apply wp_ret. simpl. rewrite Hc2, Hc1. split_and!; [congruence|done|done].
    + apply wp_ret. rewrite (Permanent_error (pause := pause)). eexists; split; [done|].
      simpl. rewrite Hc1, Hr1. split; (split_and!; [done|done|eauto]).
Qed.

Lemma Projection_Handle_delivered ctx r w w' res :
  product_row r → tables_wf (committed w) →
  Projection_Handle productProjection ctx (RowToOutboxEvent r) w = (w', res) →
  delivered r w res w'.
Proof.
  intros Hr Hwf Hrun. wp_start Hrun.
  apply wp_bind. apply wp_bind, wp_Pool_QueryRow_reliable; [done| |].
  2:{ intros w1 _ _ Ha. done. }
  intros w1 a rows [Hc1 Hr1] _ Ha. simpl in Ha. injection Ha as -> _.
  apply wp_ret. case_bool_decide as Hd.
  { apply wp_ret. unfold delivered, deliver. rewrite decide_True by done. done. }
  assert (∀ res w2, delivered r w1 res w2 → delivered r w res w2) as Hw.
  { intros res2 w2. unfold delivered. by rewrite Hc1, Hr1. }
  apply wp_bind. eapply wp_mono with (P := delivered r w); [|intros [e|] w2 Hp; by apply wp_ret].
  apply (wp_Retry (pause := pause) (λ w2, w2 = w1)); [done|]. intros ? ->.
  eapply wp_mono; [apply wp_operation_reliable; [done|by rewrite Hc1|by rewrite Hc1]|].
  intros [e|] w2; [|by apply Hw]. intros (inner & -> & H1' & H2'). split; by apply Hw.
Qed.

(** C9: refinement.  When nothing outside fails, handling the message of a stored
    event does to the tables exactly what the abstract projection step [deliver]
    does: nothing for a processed event; a mark for an old version; the handler's
    write and the mark for the next version; and for a gap, nothing and an error
    that is [ErrOutOfOrderEvent], nil being returned in the other cases. *)
Theorem projection_refines ctx r w w' res :
  product_row r → tables_wf (committed w) →
  Projection_Handle productProjection ctx (RowToOutboxEvent r) w = (w', res) →
  rest w' = rest w ∧ committed w' = (deliver r (committed w)).1 ∧
  match (deliver r (committed w)).2 with
  | Acked => res = None
  | OutOfOrder => ∃ e, res = Some e ∧ errors_is e ErrOutOfOrderEvent = true
  end.
Proof. apply Projection_Handle_delivered. Qed.
End projection_reliable.

(** ** Convergence *)

(** A view can hold the row's event. *)
Definition can_show `{PgCodec} (r : event_row) : Prop :=
  ∀ e, decode_row r = Ok e →
    (∃ n, varchar 255 (event_name e) = Ok n) ∧ is_Some (encode_int4_float (event_price e)).

(** The version a view moves to when an event of version [x] arrives. *)
Definition advance (v x : Z) : Z := if (x =? v + 1)%Z then x else v.

Definition versions_of (aid : uuid) (rs : list event_row) : list Z :=
  er_version <$> filter (λ r, er_aggregate_id r = aid) rs.

(** A created stream all of whose events can be shown, none of them marked before its
    turn. *)
Record on_track `{PgCodec} (t : tables) (aid : uuid) : Prop := {
  track_inv : read_inv t;
  track_created : created_stream t aid;
  track_show : Forall can_show (rows_of t aid);
  track_marks r : r ∈ rows_of t aid → (er_event_id r, ProductProjection) ∈ processed_events t →
    (er_version r ≤ view_version t aid)%Z;
}.

Section convergence.
Context `{PgCodecSpec}.
Implicit Types (t : tables) (r : event_row).

Lemma view_version_nonneg t aid : read_inv t → (0 ≤ view_version t aid)%Z.
Proof.
  intros [Hp Hv]. unfold view_version. destruct (product_views t !! aid) as [v|] eqn:Hl; [|lia].
  destruct (Hv aid v Hl) as (r & Hr & (e & _ & _ & _ & -> & _)).
  assert (1 ≤ er_version r)%Z; [|lia].
  apply (contiguous_versions t aid _ (inv_contiguous _ Hp)). by exists r.
Qed.

Lemma deliver_tables r t :
  r ∈ event_store t → read_inv t →
  read_inv (deliver r t).1 ∧ view_grows t (deliver r t).1 ∧
  event_store (deliver r t).1 = event_store t.
Proof.
  intros Hin Hinv. unfold deliver. case_decide; [done|].
  destruct (er_version r <=? _)%Z eqn:Hle.
  - destruct (mark_read_inv (er_event_id r) t Hinv). done.
  - destruct (er_version r =? _)%Z; [|done]. apply Z.leb_gt in Hle.
    destruct (handler_effect_read_inv r t Hin Hinv ltac:(lia)) as [Hinv1 Hg1].
    destruct (mark_read_inv (er_event_id r) _ Hinv1) as [Hinv2 Hg2].
    split; [done|]. split; [by etrans|]. simpl.
    assert (product_row r) as Hr.
    { pose proof (inv_rows _ (proj1 Hinv)) as Hall. rewrite Forall_forall in Hall. by apply Hall. }
    apply (handler_effect_same r t Hr).
Qed.

(** The handler writes whatever version the view has: the statement does not look at it. *)
Lemma handler_effect_version r t :
  tables_wf t → r ∈ event_store t → product_row r → can_show r →
  is_Some (product_views t !! er_aggregate_id r) ∨ er_event_type r = ProductCreatedEventType →
  view_version (handler_effect r t) (er_aggregate_id r) = er_version r.
Proof.
  intros Hwf Hin (e & Hd & Hp & Hty & _ & Ha & _) Hshow Hview.
  destruct (Hshow e Hd) as [[n Hn] [z Hz]].
  assert (int4_ok (er_version r) = true) as Hok.
  { pose proof (wf_event_versions _ Hwf) as Hw. rewrite Forall_forall in Hw. by apply Hw. }
  unfold view_version, handler_effect, view_stmt. rewrite Hd.
  destruct e as [e|e|]; [| |done]; simpl in Ha, Hn, Hz |- *.
  - unfold upsert_view, view_columns. simpl. rewrite Hn, Hz, Hok. simpl. rewrite <- Ha, lookup_insert_eq.
    by destruct (product_views t !! AggID (pc_BaseEvent e)).
  - unfold update_view, view_columns. simpl. rewrite Hn, Hz, Hok.
    assert (text_ok (pu_Name e) = true) as ->.
    { unfold varchar in Hn. by destruct (text_ok (pu_Name e)). }
    rewrite bool_decide_eq_true_2 by done. simpl. rewrite Ha.
    destruct Hview as [[v ->]|Hview]; [|by rewrite <- Hty in Hview].
    simpl. by rewrite lookup_insert_eq.
Qed.

(** In its turn, an event that can be shown moves the view to its version. *)
Lemma handler_effect_advances r t :
  on_track t (er_aggregate_id r) → r ∈ event_store t →
  er_version r = (view_version t (er_aggregate_id r) + 1)%Z →
  view_version (handler_effect r t) (er_aggregate_id r) = er_version r.
Proof.
  intros [[Hpi _] (r1 & l & Hrows & Hty1) Hshow _] Hin Hv.
  pose proof (inv_rows _ Hpi) as Hall. rewrite Forall_forall in Hall.
  assert (r ∈ rows_of t (er_aggregate_id r)) as Hr by (by rewrite elem_of_rows_of).
  rewrite Forall_forall in Hshow.
  apply handler_effect_version; [apply Hpi|done|by apply Hall|by apply Hshow|].
  destruct (product_views t !! er_aggregate_id r) as [v|] eqn:Hl; [by left|right].
  assert (r = r1) as ->; [|done]. unfold view_version in Hv. rewrite Hl in Hv.
  assert (r1 ∈ rows_of t (er_aggregate_id r)) as Hr1 by (rewrite Hrows; constructor).
  assert (er_version r1 = 1%Z) as Hv1.
  { pose proof (inv_contiguous _ Hpi (er_aggregate_id r)) as Hc. rewrite Hrows in Hc.
    simpl in Hc. rewrite seqZ_cons in Hc by lia. by injection Hc as -> _. }
  apply elem_of_rows_of in Hr1 as [Ha1 Hin1]. eapply wf_same_version; [apply Hpi|done..|lia].
Qed.

Lemma same_event_id t r r' :
  tables_wf t → r ∈ event_store t → r' ∈ event_store t → er_event_id r = er_event_id r' → r = r'.
Proof.
  intros Hwf [i Hi]%list_elem_of_lookup [j Hj]%list_elem_of_lookup He.
  assert (i = j) as ->; [|congruence].
  eapply (NoDup_lookup _ i j); [apply (wf_event_ids _ Hwf)| |]; rewrite list_lookup_fmap.
  - by rewrite Hi.
  - rewrite Hj. simpl. by rewrite He.
Qed.

Lemma deliver_on_track r t aid :
  on_track t aid → r ∈ event_store t →
  on_track (deliver r t).1 aid ∧
  view_version (deliver r t).1 aid =
    (if decide (er_aggregate_id r = aid) then advance (view_version t aid) (er_version r)
     else view_version t aid).
Proof.
  intros Htr Hin. pose proof Htr as [Hinv Hcr Hshow Hmarks].
  destruct (deliver_tables r t Hin Hinv) as (Hinv' & Hg & Hes).
  assert (rows_of (deliver r t).1 aid = rows_of t aid) as Hrows.
  { unfold rows_of. by rewrite Hes. }
  assert (view_version (deliver r t).1 aid =
    (if decide (er_aggregate_id r = aid) then advance (view_version t aid) (er_version r)
     else view_version t aid)) as Hver.
  { clear Hes Hg Hinv' Hrows. unfold deliver, advance. case_decide as Hd; simpl.
    - case_decide as Ha; [|done]. subst aid.
      assert (er_version r ≤ view_version t (er_aggregate_id r))%Z.
      { apply Hmarks; [by rewrite elem_of_rows_of|done]. }
      by replace (_ =? _)%Z with false by lia.
    - destruct (er_version r <=? _)%Z eqn:Hle; simpl; [|destruct (er_version r =? _)%Z eqn:Heq; simpl].
      + case_decide as Ha; [|done]. subst aid.
        by replace (_ =? _)%Z with false by lia.
      + apply Z.eqb_eq in Heq. case_decide as Ha.
        * subst aid. rewrite Heq, Z.eqb_refl, <- Heq. by apply handler_effect_advances.
        * change (view_version (mark _ ?t') aid) with (view_version t' aid). unfold view_version.
          pose proof (inv_rows _ (proj1 Hinv)) as Hall. rewrite Forall_forall in Hall.
          destruct (handler_effect_same r t (Hall r Hin)) as (_ & _ & _ & _ & Hoth).
          by rewrite Hoth.
      + case_decide as Ha; [|done]. subst aid. by rewrite Heq. }
  split; [|exact Hver]. split; [done| |by rewrite Hrows|].
  - destruct Hcr as (r1 & l & Hl & Hty). exists r1, l. by rewrite Hrows.
  - rewrite Hrows. intros r' Hr' Hm.
    destruct (decide ((er_event_id r', ProductProjection) ∈ processed_events t)) as [Hold|Hnew].
    { specialize (Hmarks r' Hr' Hold). destruct Hg as [_ _ Hv]. specialize (Hv aid). lia. }
    apply elem_of_rows_of in Hr' as [Ha' Hin'].
    assert (r' = r) as ->.
    { apply (same_event_id t); [apply Hinv|done..|]. clear Hver Hes Hrows Hg Hinv'.
      pose proof (inv_rows _ (proj1 Hinv)) as Hall. rewrite Forall_forall in Hall.
      destruct (handler_effect_same r t (Hall r Hin)) as (_ & _ & _ & Hpe & _).
      unfold deliver in Hm. case_decide; [done|].
      destruct (er_version r <=? _)%Z; [|destruct (er_version r =? _)%Z; [|done]];
        simpl in Hm; rewrite ?Hpe in Hm; apply elem_of_union in Hm as [Hm%elem_of_singleton|?];
        congruence. }
    rewrite Hver, decide_True by done. subst aid. unfold advance.
    destruct (er_version r =? _)%Z eqn:Heq; [lia|].
    unfold deliver in Hm. rewrite decide_False in Hm by done.
    destruct (er_version r <=? _)%Z eqn:Hle; [lia|]. by rewrite Heq in Hm.
Qed.

Lemma deliver_all_version rs t aid :
  on_track t aid → Forall (λ r, r ∈ event_store t) rs →
  on_track (deliver_all rs t) aid ∧ event_store (deliver_all rs t) = event_store t ∧
  view_version (deliver_all rs t) aid = foldl advance (view_version t aid) (versions_of aid rs).
Proof.
  revert t. induction rs as [|r rs IH]; intros t Htr; [done|]. intros [Hin Hall]%Forall_cons.
  destruct (deliver_on_track r t aid Htr Hin) as [Htr' Hver]. simpl.
  destruct (deliver_tables r t Hin (track_inv _ _ Htr)) as (_ & _ & Hes).
  destruct (IH _ Htr') as (Htr2 & Hes2 & Hver2).
  { by rewrite Hes. }
  split; [done|]. split; [by rewrite Hes2|]. rewrite Hver2, Hver. unfold versions_of.
  rewrite filter_cons. by case_decide.
Qed.

Lemma advance_reaches n vs v :
  (v ≤ n)%Z → Forall (λ x, (x ≤ n)%Z) vs → seqZ (v + 1) (n - v) `sublist_of` vs →
  foldl advance v vs = n.
Proof.
  revert v. induction vs as [|x vs IH]; intros v Hv Hall Hsub; simpl.
  - apply sublist_nil_r in Hsub. apply (f_equal length) in Hsub.
    rewrite length_seqZ in Hsub. simpl in Hsub. lia.
  - apply Forall_cons in Hall as [Hx Hall]. unfold advance at 2.
    destruct (decide (v = n)) as [->|Hne].
    { replace (x =? n + 1)%Z with false by lia. apply IH; [lia|done|].
      replace (n - n)%Z with 0%Z by lia. apply sublist_nil_l. }
    rewrite seqZ_cons in Hsub by lia. apply sublist_cons_r in Hsub as [Hsub|(l & Heq & Hsub)].
    + destruct (x =? v + 1)%Z eqn:Hxv.
      * apply Z.eqb_eq in Hxv as ->. apply IH; [lia|done|].
        replace (n - (v + 1))%Z with (Z.pred (n - v)) by lia.
        change (v + 1 + 1)%Z with (Z.succ (v + 1)). etrans; [|exact Hsub]. by apply sublist_cons.
      * apply IH; [lia|done|]. rewrite seqZ_cons by lia. done.
    + injection Heq as <- <-. rewrite Z.eqb_refl. apply IH; [lia|done|].
      by replace (n - (v + 1))%Z with (Z.pred (n - v)) by lia.
Qed.

(** A stream whose next event is marked although the view does not show it. *)
Definition stuck (t : tables) (r : event_row) : Prop :=
  read_inv t ∧ r ∈ event_store t ∧
  (er_event_id r, ProductProjection) ∈ processed_events t ∧
  er_version r = (view_version t (er_aggregate_id r) + 1)%Z.

Lemma deliver_stuck t r r' :
  stuck t r → r' ∈ event_store t →
  stuck (deliver r' t).1 r ∧ event_store (deliver r' t).1 = event_store t ∧
  product_views (deliver r' t).1 !! er_aggregate_id r = product_views t !! er_aggregate_id r.
Proof.
  intros (Hinv & Hin & Hm & Hv) Hin'.
  destruct (deliver_tables r' t Hin' Hinv) as (Hinv' & Hg & Hes).
  assert (product_views (deliver r' t).1 !! er_aggregate_id r =
          product_views t !! er_aggregate_id r) as Hpv.
  { clear Hinv' Hg Hes. unfold deliver. case_decide as Hd; [done|].
    destruct (er_version r' <=? _)%Z; [done|]. destruct (er_version r' =? _)%Z eqn:Heq; [|done].
    simpl. pose proof (inv_rows _ (proj1 Hinv)) as Hall. rewrite Forall_forall in Hall.
    destruct (handler_effect_same r' t (Hall r' Hin')) as (_ & _ & _ & _ & Hoth).
    destruct (decide (er_aggregate_id r = er_aggregate_id r')) as [Ha|Ha]; [|by apply Hoth].
    exfalso. apply Hd. apply Z.eqb_eq in Heq. rewrite <- Ha in Heq.
    replace r' with r; [done|]. eapply wf_same_version; [apply Hinv|done..|lia]. }
  split; [|done]. split; [done|]. split; [by rewrite Hes|]. split.
  - destruct Hg as [_ Hp _]. by apply Hp.
  - unfold view_version in *. by rewrite Hpv.
Qed.

Lemma deliver_all_stuck rs t r :
  stuck t r → Forall (λ r, r ∈ event_store t) rs →
  stuck (deliver_all rs t) r ∧ event_store (deliver_all rs t) = event_store t ∧
  product_views (deliver_all rs t) !! er_aggregate_id r = product_views t !! er_aggregate_id r.
Proof.
  revert t. induction rs as [|r' rs IH]; intros t Hst; [done|].
  intros [Hin' Hall]%Forall_cons. destruct (deliver_stuck t r r' Hst Hin') as (Hst2 & Hes & Hpv).
  destruct (IH _ Hst2) as (? & Hes3 & Hpv3); [by rewrite Hes|]. simpl. by rewrite Hes3, Hpv3.
Qed.
End convergence.

(** Messages handled one after the other. *)
Fixpoint handle_all `{Pgx W} `{Backoff W} (ctx : context W) (rs : list event_row) :
    M W (list (option error)) :=
  match rs with
  | [] => mret []
  | r :: rs =>
      x ← Projection_Handle productProjection ctx (RowToOutboxEvent r);
      xs ← handle_all ctx rs;
      mret (x :: xs)
  end.

Section convergence_theorems.
Context `{PgxReliable W R} `{!PgCodecSpec}.
Context {pause : W → W → Prop} `{BackoffSpec W pause}.
Implicit Types (w : W).

Lemma stored_row t r : read_inv t → r ∈ event_store t → product_row r ∧ tables_wf t.
Proof.
  intros [Hp _] Hin. pose proof (inv_rows _ Hp) as Hall. rewrite Forall_forall in Hall.
  split; [by apply Hall|apply Hp].
Qed.

Lemma handle_all_delivered ctx rs w w' xs :
  read_inv (committed w) → Forall (λ r, r ∈ event_store (committed w)) rs →
  handle_all ctx rs w = (w', xs) →
  rest w' = rest w ∧ committed w' = deliver_all rs (committed w).
Proof.
  revert w xs. induction rs as [|r rs IH]; intros w xs Hinv; [by intros _ [= <- _]|].
  intros [Hin Hall]%Forall_cons Hrun. cbn [handle_all] in Hrun. unfold mbind, M_bind in Hrun.
  destruct (Projection_Handle _ _ _ w) as [w1 x] eqn:Hx.
  destruct (handle_all ctx rs w1) as [w2 xs2] eqn:Hxs. injection Hrun as <- _.
  destruct (stored_row _ _ Hinv Hin) as [Hr Hwf].
  destruct (Projection_Handle_delivered (pause := pause) _ _ _ _ _ Hr Hwf Hx) as (Hr1 & Hc1 & _).
  destruct (deliver_tables r (committed w) Hin Hinv) as (Hinv1 & _ & Hes).
  destruct (IH w1 xs2) as [Hr2 Hc2]; [by rewrite Hc1|by rewrite Hc1, Hes|done|].
  split; [congruence|]. simpl. by rewrite Hc2, Hc1.
Qed.

(** C8: convergence.  On a server on which nothing fails, messages of stored events may be delivered
    in any order, repeated, and mixed with those of other products: as soon as the
    deliveries contain, in order, the events of a created stream that its view does
    not show yet, the view shows the stream's last event.  (The stream's events must
    be ones a view can hold, and not marked ahead of their turn.) *)
Theorem projection_converges ctx rs w w' xs aid :
  let t := committed w in
  let n := Z.of_nat (length (rows_of t aid)) in
  on_track t aid → Forall (λ r, r ∈ event_store t) rs →
  seqZ (view_version t aid + 1) (n - view_version t aid) `sublist_of` versions_of aid rs →
  handle_all ctx rs w = (w', xs) →
  ∃ v r, product_views (committed w') !! aid = Some v ∧
    last (rows_of t aid) = Some r ∧ shows r v ∧ vr_version v = n.
Proof.
  intros t n Htr Hall Hsub Hrun. pose proof (track_inv _ _ Htr) as Hinv.
  pose proof (inv_contiguous _ (proj1 Hinv)) as Hc.
  destruct (handle_all_delivered _ _ _ _ _ Hinv Hall Hrun) as [_ Hc'].
  destruct (deliver_all_version rs t aid Htr Hall) as ([[Hpi' Hv'] _ _ _] & Hes & Hver).
  assert (∀ r, r ∈ event_store t → er_aggregate_id r = aid → (1 ≤ er_version r ≤ n)%Z) as Hrng.
  { intros r Hr Ha. apply (contiguous_versions t aid _ Hc). exists r. by rewrite elem_of_rows_of. }
  destruct (track_created _ _ Htr) as (r1 & l1 & Hrows & _).
  rewrite (advance_reaches n) in Hver; [| | |done].
  2:{ unfold view_version. destruct (product_views t !! aid) as [v|] eqn:Hl; [|lia].
      destruct (proj2 Hinv aid v Hl) as (r & [Ha Hr]%elem_of_rows_of & (e & _ & _ & _ & -> & _)).
      by apply Hrng. }
  2:{ apply Forall_fmap, Forall_forall. intros r [Ha Hr]%list_elem_of_filter. simpl.
      rewrite Forall_forall in Hall. apply Hrng; [by apply Hall|done]. }
  assert (0 < n)%Z as Hn by (unfold n; rewrite Hrows; simpl; lia).
  rewrite Hc'. unfold view_version in Hver.
  destruct (product_views (deliver_all rs t) !! aid) as [v|] eqn:Hl; [|lia].
  destruct (Hv' aid v Hl) as (r & [Ha Hr]%elem_of_rows_of & Hsh).
  exists v, r. split_and!; [done| |done|done].
  destruct (last (rows_of t aid)) as [r2|] eqn:Hlast; [|by apply last_None in Hlast; rewrite Hlast in Hrows].
  f_equal. pose proof (contiguous_last _ _ _ Hc Hlast) as Hv2. fold n in Hv2.
  apply last_Some_elem_of in Hlast as [Ha2 Hr2]%elem_of_rows_of.
  rewrite Hes in Hr. destruct Hsh as (e & _ & _ & _ & Hv & _).
  eapply wf_same_version; [apply Hinv|done|done|congruence|lia].
Qed.

(** C24: a view write that PostgreSQL refuses is lost.  Even on a server that works: if the
    next event of a product cannot be written to its view (its name is too long, its price does not fit, or
    it updates a view that does not exist), [Handle] still returns nil and marks the
    event; from then on, whatever is delivered, the view never moves again, and every
    later event of the product is refused as out of order. *)
Theorem lost_view_write ctx r rs w w1 w2 x xs :
  let t := committed w in
  read_inv t → r ∈ event_store t → Forall (λ r, r ∈ event_store t) rs →
  (er_event_id r, ProductProjection) ∉ processed_events t →
  er_version r = (view_version t (er_aggregate_id r) + 1)%Z →
  handler_effect r t = t →
  Projection_Handle productProjection ctx (RowToOutboxEvent r) w = (w1, x) →
  handle_all ctx rs w1 = (w2, xs) →
  x = None ∧ (er_event_id r, ProductProjection) ∈ processed_events (committed w1) ∧
  product_views (committed w2) !! er_aggregate_id r = product_views t !! er_aggregate_id r ∧
  ∀ r' w3 y, r' ∈ event_store t → er_aggregate_id r' = er_aggregate_id r →
    (er_version r < er_version r')%Z →
    (er_event_id r', ProductProjection) ∉ processed_events (committed w2) →
    Projection_Handle productProjection ctx (RowToOutboxEvent r') w2 = (w3, y) →
    committed w3 = committed w2 ∧ ∃ e, y = Some e ∧ errors_is e ErrOutOfOrderEvent = true.
Proof.
  intros t Hinv Hin Hall Hn Hv Heff Hrun Hrs.
  destruct (stored_row _ _ Hinv Hin) as [Hr Hwf].
  destruct (Projection_Handle_delivered (pause := pause) _ _ _ _ _ Hr Hwf Hrun) as (_ & Hc1 & Hx).
  fold t in Hc1, Hx. unfold deliver in Hc1, Hx. rewrite decide_False in Hc1, Hx by done.
  replace (er_version r <=? _)%Z with false in Hc1, Hx by lia.
  replace (er_version r =? _)%Z with true in Hc1, Hx by lia.
  simpl in Hc1, Hx. rewrite Heff in Hc1. split; [done|]. split; [rewrite Hc1; simpl; set_solver|].
  assert (stuck (committed w1) r) as Hst.
  { rewrite Hc1. split; [by apply mark_read_inv|]. split; [done|]. split; [simpl; set_solver|done]. }
  assert (event_store (committed w1) = event_store t ∧
    product_views (committed w1) = product_views t) as [Hes1 Hpv1] by (by rewrite Hc1).
  destruct (handle_all_delivered ctx rs w1 w2 xs) as [_ Hc2]; [apply Hst|by rewrite Hes1|done|].
  destruct (deliver_all_stuck rs _ _ Hst) as (Hst2 & Hes2 & Hpv2); [by rewrite Hes1|]. rewrite <- Hc2 in *.
  split; [by rewrite Hpv2, Hpv1|]. intros r' w3 y Hin' Ha' Hlt Hn' Hrun'.
  destruct (stored_row (committed w2) r') as [Hr' Hwf']; [apply Hst2|by rewrite Hes2, Hes1|].
  destruct (Projection_Handle_delivered (pause := pause) _ _ _ _ _ Hr' Hwf' Hrun') as (_ & Hc3 & Hy).
  unfold deliver in Hc3, Hy. rewrite decide_False in Hc3, Hy by done.
  destruct Hst2 as (_ & _ & _ & Hv2). rewrite Ha' in Hc3, Hy.
  replace (er_version r' <=? _)%Z with false in Hc3, Hy by lia.
  replace (er_version r' =? _)%Z with false in Hc3, Hy by lia. done.
Qed.
(** C23: a write that comes late.  The handler's write is neither part of the transaction
    that marks the event nor conditional on the view's version.  If an attempt writes
    the event [r] after others have brought the view further and marked the event that
    follows it, the view goes back to [r] (the handler returns nil), and from then on,
    whatever is delivered, it stays there: the events it has lost are marked. *)
Theorem late_view_write ctx r r' rs w w1 w2 x xs :
  let t := committed w in
  let aid := er_aggregate_id r in
  read_inv t → r ∈ event_store t → can_show r →
  r' ∈ event_store t → er_aggregate_id r' = aid → er_version r' = (er_version r + 1)%Z →
  (er_event_id r', ProductProjection) ∈ processed_events t →
  (er_version r < view_version t aid)%Z →
  Forall (λ r, r ∈ event_store t) rs →
  ProductProjectionHandler_Handle ctx (RowToOutboxEvent r) w = (w1, x) →
  handle_all ctx rs w1 = (w2, xs) →
  x = None ∧ view_version (committed w1) aid = er_version r ∧
  product_views (committed w2) !! aid = product_views (committed w1) !! aid.
Proof.
  intros t aid Hinv Hin Hshow Hin' Ha' Hv' Hm Hlt Hall Hrun Hrs.
  destruct (stored_row _ _ Hinv Hin) as [Hr Hwf].
  assert (x = None ∧ committed w1 = handler_effect r t) as [-> Hc1].
  { wp_start Hrun. by apply wp_handler_reliable. }
  destruct (handler_effect_same r t Hr) as (Hes & _ & _ & Hp & _).
  assert (view_version (committed w1) aid = er_version r) as Hv.
  { rewrite Hc1. apply handler_effect_version; [done..|]. left. unfold view_version, aid in Hlt.
    destruct (product_views t !! er_aggregate_id r); [done|].
    destruct (contiguous_versions t aid (er_version r) (inv_contiguous _ (proj1 Hinv))) as [Hc _].
    destruct Hc as [Hc _]; [by exists r; rewrite elem_of_rows_of|]. lia. }
  split; [done|]. split; [done|].
  assert (stuck (committed w1) r') as Hst.
  { rewrite Hc1 in *. split; [by apply handler_effect_keeps|]. rewrite Hes, Hp, Ha', Hv. done. }
  destruct (handle_all_delivered ctx rs w1 w2 xs) as [_ ->]; [apply Hst|by rewrite Hc1, Hes|done|].
  destruct (deliver_all_stuck rs _ _ Hst) as (_ & _ & Hpv); [by rewrite Hc1, Hes|]. by rewrite <- Ha'.
Qed.
End convergence_theorems.

Section query_theorems.
Context `{PgxReliable W R} `{!PgCodecSpec}.
Implicit Types (w : W).

(** What the query makes of a row. *)
Definition view_of_row (aid : uuid) (v : view_row) (pv : ProductView) : Prop :=
  pv_ID pv = aid ∧ pv_Name pv = vr_name v ∧ pv_Version pv = vr_version v ∧
  pv_CreatedAt pv = vr_created_at v ∧ pv_UpdatedAt pv = vr_updated_at v ∧
  float_integral (pv_Price pv) = Some (vr_price v).

Lemma wp_query_reliable ctx q (Q : res ProductView → W → Prop) w :
  tables_wf (committed w) →
  (∀ w', still w w' →
     match product_views (committed w) !! q_ID q with
     | None => ∀ e, errors_is e ErrorProductNotFound = true → Q (Err e) w'
     | Some v => ∀ pv, view_of_row (q_ID q) v pv → Q (Ok pv) w'
     end) →
  wp (GetProductByIDHandler_Query ctx q) Q w.
Proof.
  intros Hwf HQ. apply wp_bind. unfold GetProductViewByID.
  apply wp_bind, wp_Pool_QueryRow_reliable; [done|..].
  - intros w1 v rows Hs _ Ha. simpl in Ha. apply wp_ret, wp_ret. specialize (HQ w1 Hs).
    destruct (product_views (committed w) !! q_ID q) as [v'|] eqn:Hl; simplify_eq.
    apply HQ. split_and!; [done..|]. simpl. apply scan_float_int4_integral.
    by apply (wf_views _ Hwf (q_ID q) _ Hl).
  - intros w1 Hs _ Ha. simpl in Ha. apply wp_ret, wp_ret. specialize (HQ w1 Hs).
    destruct (product_views (committed w) !! q_ID q); simplify_eq. by apply HQ.
Qed.

(** C39: the query.  It changes nothing and returns the stored view, or an error that is
    [ErrorProductNotFound] exactly if there is none.  The price it returns is always
    an integer, since the column is one: a fractional price cannot be read back. *)
Theorem query_returns_view ctx q w w' r :
  tables_wf (committed w) →
  GetProductByIDHandler_Query ctx q w = (w', r) →
  still w w' ∧
  match product_views (committed w) !! q_ID q with
  | None => ∃ e, r = Err e ∧ errors_is e ErrorProductNotFound = true
  | Some v => ∃ pv, r = Ok pv ∧ pv_ID pv = q_ID q ∧ pv_Name pv = vr_name v ∧
      pv_Version pv = vr_version v ∧ pv_CreatedAt pv = vr_created_at v ∧
      pv_UpdatedAt pv = vr_updated_at v ∧ float_integral (pv_Price pv) = Some (vr_price v)
  end.
Proof.
  intros Hwf Hrun. wp_start Hrun. apply wp_query_reliable; [done|]. intros w1 Hs.
  destruct (product_views (committed w) !! q_ID q); eauto.
Qed.
End query_theorems.
