(* ===== verification/Nats.v ===== *)
(** * Nats: infra/nats

    The broker over NATS JetStream: the client calls as an interface with what is
    documented about them, [NATSBroker] with its publishing and its subscription
    loop, the JSON form of an [OutboxEvent], and the proof that the broker keeps the
    promise of [BrokerSpec] the relay relies on. *)
From S2P Require Import Prelude GoJson EventSrc Outbox Sql Pgx Relay.

(** ** The JSON form of [eventsrc.OutboxEvent] (no tags: the field names) *)

Definition OutboxEvent_zero : OutboxEvent :=
  {| oe_EventID := uuid_Nil; oe_AggregateID := uuid_Nil; oe_AggregateType := "";
     oe_EventType := ""; oe_Payload := JObject []; oe_Version := 0; oe_Ts := time_zero |}.

Definition OutboxEvent_Marshal (e : OutboxEvent) : res json :=
  enc_object
    [("EventID", enc (oe_EventID e)); ("AggregateID", enc (oe_AggregateID e));
     ("AggregateType", enc (oe_AggregateType e)); ("EventType", enc (oe_EventType e));
     ("Payload", enc (oe_Payload e)); ("Version", enc (oe_Version e)); ("Ts", enc (oe_Ts e))].

Definition OutboxEvent_Unmarshal (data : json) (e : OutboxEvent) : res OutboxEvent :=
  match data with
  | JObject fs =>
      match dec_field "EventID" (oe_EventID e) fs, dec_field "AggregateID" (oe_AggregateID e) fs,
            dec_field "AggregateType" (oe_AggregateType e) fs,
            dec_field "EventType" (oe_EventType e) fs, dec_field "Payload" (oe_Payload e) fs,
            dec_field "Version" (oe_Version e) fs, dec_field "Ts" (oe_Ts e) fs with
      | Ok i, Ok a, Ok aty, Ok ety, Ok p, Ok v, Ok t =>
          Ok {| oe_EventID := i; oe_AggregateID := a; oe_AggregateType := aty;
                oe_EventType := ety; oe_Payload := p; oe_Version := v; oe_Ts := t |}
      | Err err, _, _, _, _, _, _ | _, Err err, _, _, _, _, _ | _, _, Err err, _, _, _, _
      | _, _, _, Err err, _, _, _ | _, _, _, _, Err err, _, _ | _, _, _, _, _, Err err, _
      | _, _, _, _, _, _, Err err => Err err
      end
  | _ => Err (ErrorString "json: cannot unmarshal value")
  end.

(** ** The JetStream client *)

(** The calls of [nats.JetStreamContext] and [nats.Msg] the code makes, and
    [uuid.UUID.String]. *)
Class JetStream (W : Type) := {
  uuid_String : uuid → string;
  Sub : Type;
  Msg : Type;
  StreamInfo : string → M W (option error);
  AddStream : string → list string → M W (option error);
  js_Publish : string → json → M W (option error);
  PullSubscribe : string → string → M W (res Sub);
  Fetch : Sub → Z → M W (res (list Msg));
  Msg_Data : Msg → json;
  Ack : Msg → M W (option error);
  Nak : Msg → M W (option error);
}.

(** ** infra/nats/broker.go; [C] is the type of contexts *)

Section broker.
Context {W C : Type} `{JetStream W}.

Definition ensureTopicExist (ctx : C) (topic : string) : M W (option error) :=
  err ← StreamInfo topic;
  match err with
  | None => mret None
  | Some err =>
      if decide (err = Sentinel ErrStreamNotFound) then
        err ← AddStream topic [(topic ++ ".*")%string];
        match err with
        | Some err => mret (Some (Wrapf "failed to create stream" err))
        | None => mret None
        end
      else mret (Some (Wrapf "failed to get stream info" err))
  end.

Definition subject (topic : string) (evt : OutboxEvent) : string :=
  (topic ++ "." ++ uuid_String (oe_AggregateID evt))%string.

Definition NATSBroker_Publish (ctx : C) (topic : string) (evt : OutboxEvent) :
    M W (option error) :=
  err ← ensureTopicExist ctx topic;
  match err with
  | Some err => mret (Some (Wrapf "failed to ensure the topic exists when publishing" err))
  | None =>
      match OutboxEvent_Marshal evt with
      | Err err => mret (Some (Wrapf "failed to marshal event payload" err))
      | Ok data =>
          err ← js_Publish (subject topic evt) data;
          match err with
          | Some err => mret (Some (Wrapf "failed to publish event to NATS" err))
          | None => mret None
          end
      end
  end.

(** The body of the loop over the fetched messages; what [Ack] and [Nak] return is
    not looked at. *)
Definition handle_msg (ctx : C) (handler : C → OutboxEvent → M W (option error)) (msg : Msg) :
    M W unit :=
  match OutboxEvent_Unmarshal (Msg_Data msg) OutboxEvent_zero with
  | Err _ => _ ← Nak msg; mret tt
  | Ok evt =>
      err ← handler ctx evt;
      match err with
      | Some _ => _ ← Nak msg; mret tt
      | None => _ ← Ack msg; mret tt
      end
  end.

Fixpoint handle_msgs (ctx : C) (handler : C → OutboxEvent → M W (option error))
    (msgs : list Msg) : M W unit :=
  match msgs with
  | [] => mret tt
  | msg :: msgs => _ ← handle_msg ctx handler msg; handle_msgs ctx handler msgs
  end.

(** One iteration of the subscriber's loop when the context is not done. *)
Definition poll (ctx : C) (sub : Sub) (handler : C → OutboxEvent → M W (option error)) :
    M W unit :=
  r ← Fetch sub 10;
  match r with
  | Err _ => mret tt
  | Ok msgs => handle_msgs ctx handler msgs
  end.

(** The goroutine of [Subscribe] over what each select finds: the context done or
    not.  The result tells whether it has returned. *)
Fixpoint subscriber_loop (ctx : C) (sub : Sub) (handler : C → OutboxEvent → M W (option error))
    (done : list bool) : M W bool :=
  match done with
  | [] => mret false
  | true :: _ => mret true
  | false :: done => _ ← poll ctx sub handler; subscriber_loop ctx sub handler done
  end.

(** [Subscribe] up to the start of the goroutine, whose subscription it returns here. *)
Definition NATSBroker_Subscribe (ctx : C) (topic subscriberID : string) : M W (res Sub) :=
  err ← ensureTopicExist ctx topic;
  match err with
  | Some err => mret (Err (Wrapf "failed to ensure the topic exists when subscribing" err))
  | None =>
      r ← PullSubscribe (topic ++ ".*")%string (topic ++ "-" ++ subscriberID)%string;
      match r with
      | Err err => mret (Err (Wrapf "failed to create pull subscription" err))
      | Ok sub => mret (Ok sub)
      end
  end.
End broker.

#[export] Instance NATSBroker_Broker `{JetStream W} (C : Type) : Broker W C := {|
  Publish := NATSBroker_Publish;
|}.

(** ** Theorems: the JSON form *)

Definition OutboxEvent_canon (e : OutboxEvent) : OutboxEvent :=
  {| oe_EventID := oe_EventID e; oe_AggregateID := oe_AggregateID e;
     oe_AggregateType := to_valid_utf8 (oe_AggregateType e);
     oe_EventType := to_valid_utf8 (oe_EventType e); oe_Payload := oe_Payload e;
     oe_Version := oe_Version e; oe_Ts := oe_Ts e |}.

Lemma OutboxEvent_decode e z j :
  int_range (oe_Version e) → OutboxEvent_Marshal e = Ok j →
  OutboxEvent_Unmarshal j z = Ok (OutboxEvent_canon e).
Proof.
  intros Hv%int_in_range_spec Hm. unfold OutboxEvent_Marshal in Hm. enc_inv.
  unfold OutboxEvent_Unmarshal. by dec_enc.
Qed.

(** The wire format.  An outbox event that marshals is read back as itself, its
    strings made valid UTF-8, whatever variable it is read into; marshalling fails
    only for a timestamp whose year JSON cannot hold. *)
Theorem OutboxEvent_roundtrip e z :
  int_range (oe_Version e) →
  (∀ j, OutboxEvent_Marshal e = Ok j → OutboxEvent_Unmarshal j z = Ok (OutboxEvent_canon e)) ∧
  ((∃ err, OutboxEvent_Marshal e = Err err) ↔ year_ok (oe_Ts e) = false) ∧
  (valid_utf8 (oe_AggregateType e) = true → valid_utf8 (oe_EventType e) = true →
   OutboxEvent_canon e = e).
Proof.
  intros Hv. split_and!.
  - intros j. by apply OutboxEvent_decode.
  - unfold OutboxEvent_Marshal, enc_object. simpl.
    destruct (year_ok (oe_Ts e)); (split; [by intros [? [=]]|try done]). intros _. by eexists.
  - unfold valid_utf8. rewrite !bool_decide_eq_true. intros H1 H2. unfold OutboxEvent_canon.
    rewrite H1, H2. by destruct e.
Qed.

(** ** What JetStream promises *)

Class JetStreamSpec (W R : Type) `{PgxSpec W R} `{JetStream W} := {
  (** The messages the streams hold, with their subjects, and the data of those that
      have been acknowledged. *)
  stream_log : R → list (string * json);
  acked : R → list json;
  StreamInfo_spec s w w' r :
    StreamInfo s w = (w', r) →
    committed w' = committed w ∧ (∀ tx, tx_state w' tx = tx_state w tx) ∧
    stream_log (rest w') = stream_log (rest w) ∧ acked (rest w') = acked (rest w);
  AddStream_spec s subs w w' r :
    AddStream s subs w = (w', r) →
    committed w' = committed w ∧ (∀ tx, tx_state w' tx = tx_state w tx) ∧
    stream_log (rest w') = stream_log (rest w) ∧ acked (rest w') = acked (rest w);
  js_Publish_spec s d w w' r :
    js_Publish s d w = (w', r) →
    committed w' = committed w ∧ (∀ tx, tx_state w' tx = tx_state w tx) ∧
    acked (rest w') = acked (rest w) ∧
    (stream_log (rest w') = stream_log (rest w) ++ [(s, d)] ∨
     (r ≠ None ∧ stream_log (rest w') = stream_log (rest w)));
  Fetch_spec sub n w w' r :
    Fetch sub n w = (w', r) →
    committed w' = committed w ∧ stream_log (rest w') = stream_log (rest w) ∧
    acked (rest w') = acked (rest w) ∧
    ∀ msgs, r = Ok msgs → Forall (λ m, Msg_Data m ∈ (stream_log (rest w)).*2) msgs;
  Ack_spec m w w' r :
    Ack m w = (w', r) →
    committed w' = committed w ∧ stream_log (rest w') = stream_log (rest w) ∧
    (acked (rest w') = acked (rest w) ++ [Msg_Data m] ∨
     (r ≠ None ∧ acked (rest w') = acked (rest w)));
  Nak_spec m w w' r :
    Nak m w = (w', r) →
    committed w' = committed w ∧ stream_log (rest w') = stream_log (rest w) ∧
    acked (rest w') = acked (rest w);
}.

Section nats_theorems.
Context `{JetStreamSpec W R}.
Implicit Types (w : W).

(** Nothing but the broker's own bookkeeping changed. *)
Definition quiet (w w' : W) : Prop :=
  committed w' = committed w ∧ (∀ tx, tx_state w' tx = tx_state w tx) ∧
  stream_log (rest w') = stream_log (rest w) ∧ acked (rest w') = acked (rest w).

Lemma wp_ensureTopicExist (ctx : context W) topic (Q : option error → W → Prop) w :
  (∀ w' r, quiet w w' → Q r w') → wp (ensureTopicExist ctx topic) Q w.
Proof.
  intros HQ. apply wp_bind, wp_intro. intros w1 r Hs%StreamInfo_spec.
  destruct r as [e|]; [|by apply wp_ret, HQ]. case_decide; [|by apply wp_ret, HQ].
  apply wp_bind, wp_intro. intros w2 r (Hc & Ht & Hl & Hk)%AddStream_spec.
  destruct Hs as (Hc1 & Ht1 & Hl1 & Hk1).
  assert (quiet w w2) as Hq.
  { split_and!; [congruence| |congruence..]. intros tx. by rewrite Ht. }
  destruct r; by apply wp_ret, HQ.
Qed.

Definition nats_message (topic : string) (evt : OutboxEvent) : string * json :=
  (subject topic evt, match OutboxEvent_Marshal evt with Ok data => data | Err _ => JObject [] end).

Lemma NATSBroker_Publish_law (ctx : context W) topic evt w w' r :
  NATSBroker_Publish ctx topic evt w = (w', r) →
  committed w' = committed w ∧ (∀ tx, tx_state w' tx = tx_state w tx) ∧
  acked (rest w') = acked (rest w) ∧
  ((stream_log (rest w') = stream_log (rest w) ++ [nats_message topic evt] ∧
    ∃ data, OutboxEvent_Marshal evt = Ok data) ∨
   (r ≠ None ∧ stream_log (rest w') = stream_log (rest w))).
Proof.
  intros Hrun. wp_start Hrun. apply wp_bind, wp_ensureTopicExist.
  intros w1 [e|] (Hc1 & Ht1 & Hl1 & Hk1); [apply wp_ret; split_and!; auto|].
  unfold nats_message. destruct (OutboxEvent_Marshal evt) as [data|e];
    [|apply wp_ret; split_and!; auto].
  apply wp_bind, wp_intro. intros w2 r2 (Hc2 & Ht2 & Hk2 & Hl2)%js_Publish_spec.
  assert (∀ tx, tx_state w2 tx = tx_state w tx) as Ht by (intros tx; by rewrite Ht2).
  destruct Hl2 as [Hl2|[Hr Hl2]]; destruct r2 as [e|]; try done; apply wp_ret;
    (split_and!; [congruence|done|congruence|]).
  - left. rewrite Hl2, Hl1. eauto.
  - left. rewrite Hl2, Hl1. eauto.
  - right. split; [done|congruence].
Qed.

(** The NATS broker keeps the promise of [BrokerSpec]. *)
#[export] Program Instance NATSBroker_BrokerSpec : BrokerSpec W R (string * json) := {|
  message := nats_message;
  published := stream_log;
  aside := acked;
|}.
Next Obligation.
  intros ctx topic evt w w' r (Hc & Ht & Hk & Hl)%NATSBroker_Publish_law.
  split_and!; [done..|]. destruct Hl as [[Hl _]|Hl]; auto.
Qed.

(** C36: publishing.  Nil means that exactly one message was added, under the subject
    topic.aggregateID, whose data reads back as the event; an error means that
    nothing was added, or that very message (its acknowledgement being lost). *)
Theorem NATSBroker_Publish_cases (ctx : context W) topic evt w w' r :
  int_range (oe_Version evt) →
  NATSBroker_Publish ctx topic evt w = (w', r) →
  committed w' = committed w ∧
  ((∃ data, stream_log (rest w') =
      stream_log (rest w) ++ [((topic ++ "." ++ uuid_String (oe_AggregateID evt))%string, data)] ∧
    OutboxEvent_Unmarshal data OutboxEvent_zero = Ok (OutboxEvent_canon evt)) ∨
   (r ≠ None ∧ stream_log (rest w') = stream_log (rest w))).
Proof.
  intros Hv (Hc & _ & _ & Hl)%NATSBroker_Publish_law. split; [done|].
  destruct Hl as [[Hl [data Hm]]|Hl]; [left|by right].
  exists data. unfold nats_message in Hl. rewrite Hm in Hl. split; [done|].
  by apply OutboxEvent_decode.
Qed.
End nats_theorems.

(** ** A JetStream that works *)

Class JetStreamReliable (W R : Type) `{JetStreamSpec W R} : Prop := {
  StreamInfo_ok s w : ∃ w' r, StreamInfo s w = (w', r) ∧
    (r = None ∨ r = Some (Sentinel ErrStreamNotFound));
  AddStream_ok s subs w : ∃ w', AddStream s subs w = (w', None);
  js_Publish_ok s d w : ∃ w', js_Publish s d w = (w', None);
}.

Section nats_reliable.
Context `{JetStreamReliable W R}.

(** The broker then accepts every event JSON can hold. *)
#[export] Program Instance NATSBroker_BrokerReliable : BrokerReliable W R (string * json) := {|
  sendable evt := year_ok (oe_Ts evt) = true;
|}.
Next Obligation.
  intros ctx topic evt w Hy. simpl. unfold NATSBroker_Publish, ensureTopicExist.
  assert (∃ data, OutboxEvent_Marshal evt = Ok data) as [data ->].
  { unfold OutboxEvent_Marshal, enc_object. simpl. rewrite Hy. simpl. eauto. }
  unfold mbind, M_bind, mret, M_ret.
  destruct (StreamInfo_ok topic w) as (w1 & r & -> & [-> | ->]).
  - destruct (js_Publish_ok (subject topic evt) data w1) as [w2 ->]. by exists w2.
  - rewrite decide_True by done.
    destruct (AddStream_ok topic [(topic ++ ".*")%string] w1) as [w2 ->].
    destruct (js_Publish_ok (subject topic evt) data w2) as [w3 ->]. by exists w3.
Qed.
End nats_reliable.
