(* ===== verification/System.v ===== *)
(** * System: the sample application as one state machine

    The steps of sample/main.go (commands, relay polls, subscriber polls, queries) over
    one world, and the invariant that ties the tables, the outbox, the broker's log
    and the read model together in every reachable state. *)
From Stdlib Require Import SpecFloat.
From stdpp Require Import relations.
From S2P Require Import Prelude GoJson EventSrc Outbox Cqrs Product.
From S2P Require Import Sql Pgx PgStores Commands Relay ReadModel Nats.

(** ** The story main.go plays *)

(** 199.99 and 200.01 as [float64]. *)
Definition price_created : float64 := S754_finite false 7036522574045512 (-45).
Definition price_updated : float64 := S754_finite false 7037226261487288 (-45).

Definition createCmd (productID : uuid) : CreateProductCommand :=
  {| cp_ID := productID; cp_Name := "CQRS-Powered Widget"; cp_Price := price_created |}.
Definition updateCmd (productID : uuid) : UpdateProduct :=
  {| up_ID := productID; up_Name := "CQRS-Powered Widget (Updated)"; up_Price := price_updated |}.

(** The simulation goroutine: create, query, update, query, returning at the first
    error; [sleep] is what the other goroutines do during the five seconds.  The
    result is the pair of views it prints. *)
Definition simulate `{Pgx W} `{PgCodec} `{SnapshotFrequency} (productID id1 id2 : uuid)
    (now1 now2 : time) (sleep : M W unit) : M W (option (ProductView * ProductView)) :=
  err ← CreateProductHandler_Handle id1 now1 context_Background (createCmd productID);
  match err with
  | Some _ => mret None
  | None =>
      _ ← sleep;
      r ← GetProductByIDHandler_Query context_Background {| q_ID := productID |};
      match r with
      | Err _ => mret None
      | Ok view1 =>
          err ← UpdateProductHandler_Handle id2 now2 context_Background (updateCmd productID);
          match err with
          | Some _ => mret None
          | None =>
              _ ← sleep;
              r ← GetProductByIDHandler_Query context_Background {| q_ID := productID |};
              match r with
              | Err _ => mret None
              | Ok view2 => mret (Some (view1, view2))
              end
          end
      end
  end.

Section system.
Context `{JetStreamSpec W R} `{!PgCodecSpec} `{SnapshotFrequency}.
Context {pause : W → W → Prop} `{BackoffSpec W pause}.
Implicit Types (w : W) (t : tables).

(** One step of one of the goroutines of main.go; what the calls return, errors
    included, is left open. *)
Inductive system_step (ctx : context W) : W → W → Prop :=
  | step_command newID now c w w' r :
      command_Handle newID now ctx c w = (w', r) → system_step ctx w w'
  | step_relay batchSize w w' r :
      processBatch batchSize ctx w = (w', r) → system_step ctx w w'
  | step_subscriber sub w w' u :
      poll ctx sub (Projection_Handle productProjection) w = (w', u) → system_step ctx w w'
  | step_query q w w' r :
      GetProductByIDHandler_Query ctx q w = (w', r) → system_step ctx w w'.

(** A message whose data reads back as the event of a stored row. *)
Definition genuine (t : tables) (m : string * json) : Prop :=
  ∃ r, r ∈ event_store t ∧
    OutboxEvent_Unmarshal m.2 OutboxEvent_zero = Ok (RowToOutboxEvent r).

(** Data of a message whose event the projection has marked as processed. *)
Definition settled (t : tables) (d : json) : Prop :=
  ∃ r, r ∈ event_store t ∧
    OutboxEvent_Unmarshal d OutboxEvent_zero = Ok (RowToOutboxEvent r) ∧
    (er_event_id r, ProductProjection) ∈ processed_events t.

Record sys_inv (w : W) : Prop := {
  sys_read : read_inv (committed w);
  sys_outbox : at_least_once w;
  sys_log : Forall (genuine (committed w)) (stream_log (rest w));
  sys_acked : Forall (settled (committed w)) (acked (rest w));
}.

(** What no step ever takes back. *)
Record evolves (w w' : W) : Prop := {
  evolves_tables : view_grows (committed w) (committed w');
  evolves_log : stream_log (rest w) `prefix_of` stream_log (rest w');
}.

#[export] Instance evolves_preorder : PreOrder evolves.
Proof. split; [intros w; by split|]. intros w1 w2 w3 [] []. split; by etrans. Qed.

Lemma genuine_grows t t' m :
  event_store t `prefix_of` event_store t' → genuine t m → genuine t' m.
Proof. intros Hp (r & Hr & Hd). exists r. split; [by eapply elem_of_prefix|done]. Qed.

Lemma settled_grows t t' d :
  event_store t `prefix_of` event_store t' → processed_events t ⊆ processed_events t' →
  settled t d → settled t' d.
Proof.
  intros Hp Hs (r & Hr & Hd & Hm). exists r. split_and!; [by eapply elem_of_prefix|done|set_solver].
Qed.

(** *** Commands *)

Lemma command_sys_inv newID now ctx c w w' r :
  command_Handle newID now ctx c w = (w', r) → sys_inv w → sys_inv w' ∧ evolves w w'.
Proof.
  intros Hrun [[Hpi Hv] Ho Hl Hk].
  destruct (command_Handle_post _ _ _ _ _ _ _ Hpi Hrun) as [Hr [[Hc _]|(_ & Hpi' & ver & p & _ & Hap)]].
  { split; split; unfold at_least_once; by rewrite ?Hc, ?Hr. }
  destruct (appended_rows _ _ _ _ _ _ _ Hap) as (row & sn & _ & Ht & _).
  assert (event_store (committed w) `prefix_of` event_store (committed w')) as Hpre.
  { rewrite Ht. by eexists. }
  split; split.
  - split; [done|]. eapply view_ok_grows; [done|by rewrite Ht|done].
  - unfold at_least_once in *. rewrite Ht, Hr. simpl. apply Forall_app_2; [done|].
    by apply Forall_singleton.
  - rewrite Hr. eapply Forall_impl; [done|]. intros m. by apply genuine_grows.
  - rewrite Hr. eapply Forall_impl; [done|]. intros d. apply settled_grows; [done|by rewrite Ht].
  - rewrite Ht in *. by split.
  - by rewrite Hr.
Qed.

(** *** The relay *)

(** What is published for a stored row reads back as that row's event. *)
Lemma nats_message_reads t topic r :
  product_row r → tables_wf t → r ∈ event_store t →
  OutboxEvent_Unmarshal (nats_message topic (RowToOutboxEvent r)).2 OutboxEvent_zero =
    Ok (RowToOutboxEvent r).
Proof.
  intros (e & _ & Hp & Hty & _ & _ & _ & _ & Haty & Hy) Hwf Hin.
  assert (int_range (er_version r)) as Hv.
  { apply int4_int_range. pose proof (wf_event_versions _ Hwf) as Hall.
    rewrite Forall_forall in Hall. by apply Hall. }
  unfold nats_message. destruct (OutboxEvent_Marshal (RowToOutboxEvent r)) as [data|err] eqn:Hm.
  - simpl. rewrite (OutboxEvent_decode (RowToOutboxEvent r) OutboxEvent_zero data Hv Hm).
    unfold OutboxEvent_canon, RowToOutboxEvent. simpl. rewrite Haty, <- Hty.
    by destruct e.
  - exfalso. unfold OutboxEvent_Marshal, enc_object in Hm. simpl in Hm. by rewrite Hy in Hm.
Qed.

Lemma nats_message_genuine t topic r :
  product_row r → tables_wf t → r ∈ event_store t →
  genuine t (nats_message topic (RowToOutboxEvent r)).
Proof. intros Hp Hwf Hin. exists r. split; [done|]. by eapply nats_message_reads. Qed.

Lemma relay_sys_inv batchSize ctx w w' r :
  processBatch batchSize ctx w = (w', r) → sys_inv w → sys_inv w' ∧ evolves w w'.
Proof.
  intros Hrun [[Hpi Hv] Ho Hl Hk].
  assert (∃ rows pubs, batch_outcome batchSize w r w' rows pubs ∧
    aside (rest w') = aside (rest w)) as (rows & pubs & Hout & Has).
  { wp_start Hrun. apply wp_processBatch. }
  simpl in Has.
  destruct (batch_outcome_at_least_once _ _ _ _ _ _ Hout (inv_wf _ Hpi) Ho) as (Hwf & Ho' & Hpre & Hc).
  destruct Hout as (Hlog & Hpubs & Hans & Hcase). simpl in Hlog, Hpre.
  assert (event_store (committed w') = event_store (committed w)) as Hes by (by rewrite Hc).
  assert (product_views (committed w') = product_views (committed w)) as Hpv by (by rewrite Hc).
  assert ((or_event <$> outbox (committed w')) = (or_event <$> outbox (committed w))) as Hob.
  { destruct Hcase as [[-> _]|(_ & _ & Hx)]; [done|]. by apply update_published_ids in Hx as [_ ?]. }
  split; split; [split| | | | |]; try done.
  - destruct Hpi as [_ Hm Hr Hct Hs]. split; [done|..].
    + unfold mirrored in *. by rewrite Hob, Hes.
    + by rewrite Hes.
    + intros aid. unfold rows_of. rewrite Hes. apply Hct.
    + rewrite Hc. simpl. eapply Forall_impl; [done|]. intros s. by apply snapshot_shows_grows.
  - apply (view_ok_grows (committed w)); [by rewrite Hes|done|done].
  - rewrite Hlog. apply Forall_app_2.
    { eapply Forall_impl; [done|]. intros m. apply genuine_grows. by rewrite Hes. }
    unfold sent. apply Forall_fmap, Forall_forall. intros [topic evt] Hx.
    destruct Hpubs as [suf Hsuf]. destruct (topic_events_row rows (topic, evt)) as (row & Hrow & [= -> ->]).
    { rewrite Hsuf. apply elem_of_app. by left. }
    destruct Hans as [->|(w1 & tx & Hans)]; [by apply not_elem_of_nil in Hrow|].
    pose proof (unpublished_rows _ _ _ _ Hans row Hrow) as Hin.
    rewrite (inv_mirrored _ Hpi) in Hin.
    pose proof (inv_rows _ Hpi) as Hall. rewrite Forall_forall in Hall.
    apply nats_message_genuine; [by apply Hall|done|by rewrite Hes].
  - rewrite Has. eapply Forall_impl; [done|]. intros d.
    apply settled_grows; [by rewrite Hes|by rewrite Hc].
  - split; [by rewrite Hes|by rewrite Hc|]. intros aid. unfold view_version. by rewrite Hpv.
Qed.

(** *** The subscriber *)

(** What happens while the projection waits between two attempts: steps of others. *)
Hypothesis pause_evolves : ∀ w1 w2, pause w1 w2 → sys_inv w1 → sys_inv w2 ∧ evolves w1 w2.

Lemma projected_sys_inv r w w' res :
  projected r w res w' → sys_inv w → sys_inv w' ∧ evolves w w'.
Proof.
  intros (Hr & Ho & Hinv & Hg & _) [_ Hal Hl Hk]. split; split.
  - done.
  - unfold at_least_once in *. by rewrite Ho, Hr.
  - rewrite Hr. eapply Forall_impl; [done|]. intros m. apply genuine_grows, Hg.
  - rewrite Hr. eapply Forall_impl; [done|]. intros d. by apply settled_grows; apply Hg.
  - done.
  - by rewrite Hr.
Qed.

Lemma quiet_sys_inv w w' :
  committed w' = committed w → stream_log (rest w') = stream_log (rest w) →
  Forall (settled (committed w)) (acked (rest w')) →
  sys_inv w → sys_inv w' ∧ evolves w w'.
Proof.
  intros Hc Hl Hk [Hr Ho Hg _]. split; split.
  - by rewrite Hc.
  - unfold at_least_once in *. simpl in *. by rewrite Hc, Hl.
  - by rewrite Hc, Hl.
  - by rewrite Hc.
  - by rewrite Hc.
  - by rewrite Hl.
Qed.

Lemma wp_handle_msg ctx msg w :
  sys_inv w → Msg_Data msg ∈ (stream_log (rest w)).*2 →
  wp (handle_msg ctx (Projection_Handle productProjection) msg)
    (λ _ w', sys_inv w' ∧ evolves w w') w.
Proof.
  intros Hinv ([s d] & Hd & Hm)%list_elem_of_fmap. simpl in Hd. unfold handle_msg.
  pose proof (sys_log _ Hinv) as Hall. rewrite Forall_forall in Hall.
  destruct (Hall _ Hm) as (r & Hr & Hun). simpl in Hun. rewrite Hd, Hun.
  apply wp_bind. eapply wp_mono; [apply (wp_Projection_Handle (pause := pause)
    (λ w', sys_inv w' ∧ evolves w w')); [| | |done]|].
  - intros w1 w2 Hp [Hi He]. destruct (pause_evolves _ _ Hp Hi). split; [done|]. by etrans.
  - intros w1 w2 res Hp [Hi He]. destruct (projected_sys_inv _ _ _ _ Hp Hi). split; [done|]. by etrans.
  - intros w1 [Hi [[Hpre _ _] _]]. split; [apply Hi|]. by eapply elem_of_prefix.
  - intros res w1 [[Hi He] Hmark].
    assert (∀ w2, committed w2 = committed w1 → stream_log (rest w2) = stream_log (rest w1) →
      Forall (settled (committed w1)) (acked (rest w2)) → sys_inv w2 ∧ evolves w w2) as Hq.
    { intros w2 Hc Hl Hk. destruct (quiet_sys_inv _ _ Hc Hl Hk Hi). split; [done|]. by etrans. }
    pose proof (sys_acked _ Hi) as Hk1.
    destruct res as [e|]; apply wp_bind, wp_intro; intros w2 x.
    + intros (Hc & Hl & Hk)%Nak_spec. apply wp_ret, Hq; [done..|by rewrite Hk].
    + intros (Hc & Hl & Hk)%Ack_spec. apply wp_ret, Hq; [done..|].
      destruct Hk as [-> | [_ ->]]; [|done]. apply Forall_app_2; [done|]. apply Forall_singleton.
      exists r. rewrite Hd. split_and!; [|done|by apply Hmark].
      destruct He as [[Hpre _ _] _]. by eapply elem_of_prefix.
Qed.

Lemma wp_handle_msgs ctx msgs w :
  sys_inv w → Forall (λ m, Msg_Data m ∈ (stream_log (rest w)).*2) msgs →
  wp (handle_msgs ctx (Projection_Handle productProjection) msgs)
    (λ _ w', sys_inv w' ∧ evolves w w') w.
Proof.
  revert w. induction msgs as [|msg msgs IH]; intros w Hinv; [by intros _; apply wp_ret|].
  intros [Hm Hms]%Forall_cons. cbn [handle_msgs]. apply wp_bind.
  eapply wp_mono; [by apply wp_handle_msg|]. intros _ w1 [Hi1 He1].
  eapply wp_mono; [apply IH; [done|]|].
  - eapply Forall_impl; [done|]. intros m Hin. destruct (evolves_log _ _ He1) as [k Hk].
    rewrite Hk, fmap_app. apply elem_of_app. by left.
  - intros _ w2 [Hi2 He2]. split; [done|]. by etrans.
Qed.

Lemma poll_sys_inv ctx sub w w' u :
  poll ctx sub (Projection_Handle productProjection) w = (w', u) →
  sys_inv w → sys_inv w' ∧ evolves w w'.
Proof.
  intros Hrun Hinv. wp_start Hrun. apply wp_bind, wp_intro.
  intros w1 r (Hc & Hl & Hk & Hmsgs)%Fetch_spec.
  destruct (quiet_sys_inv w w1) as [Hi1 He1]; [done|done|rewrite Hk; apply Hinv|done|].
  destruct r as [msgs|e]; [|by apply wp_ret].
  eapply wp_mono; [apply wp_handle_msgs; [done|]|].
  - rewrite Hl. by apply Hmsgs.
  - intros _ w2 [Hi2 He2]. split; [done|]. by etrans.
Qed.

Lemma query_still ctx q w w' r : GetProductByIDHandler_Query ctx q w = (w', r) → still w w'.
Proof.
  intros Hrun. wp_start Hrun. apply wp_bind. unfold GetProductViewByID. apply wp_bind, wp_Pool_QueryRow.
  - intros w1 v rows Hs _ _. by apply wp_ret, wp_ret.
  - intros w1 e Hs _ _. destruct (errors_is e ErrNoRows); by apply wp_ret, wp_ret.
Qed.

Lemma query_sys_inv ctx q w w' r :
  GetProductByIDHandler_Query ctx q w = (w', r) → sys_inv w → sys_inv w' ∧ evolves w w'.
Proof.
  intros [Hc Hr]%query_still Hinv.
  apply quiet_sys_inv; [done|by rewrite Hr|rewrite Hr; apply Hinv|done].
Qed.

Lemma system_step_inv ctx w w' :
  system_step ctx w w' → sys_inv w → sys_inv w' ∧ evolves w w'.
Proof.
  destruct 1.
  - by eapply command_sys_inv.
  - by eapply relay_sys_inv.
  - by eapply poll_sys_inv.
  - by eapply query_sys_inv.
Qed.

Lemma empty_start w :
  committed w = empty_tables → stream_log (rest w) = [] → acked (rest w) = [] → sys_inv w.
Proof.
  intros Hc Hl Hk. split; [split|..].
  - rewrite Hc. split; [apply empty_tables_wf|done|constructor|done|constructor].
  - rewrite Hc. apply map_Forall_empty.
  - unfold at_least_once. rewrite Hc. constructor.
  - rewrite Hl. constructor.
  - rewrite Hk. constructor.
Qed.

(** C1: safety of the whole application.  In every state reachable from an empty
    database and an empty broker by commands, relay polls, subscriber polls and
    queries, whatever fails on the way: each product's stream carries the versions
    1, 2, ... and the outbox mirrors the streams; every outbox row marked as published
    is in the broker's log; every message there is the event of a stored row, and no
    message is acknowledged before the projection has marked its event; and every
    view shows an event of its own stream.  Between two such states nothing stored,
    published or projected is taken back. *)
Theorem system_safe ctx w0 w w' :
  committed w0 = empty_tables → stream_log (rest w0) = [] → acked (rest w0) = [] →
  rtc (system_step ctx) w0 w → rtc (system_step ctx) w w' →
  products_inv (committed w) ∧ view_ok (committed w) ∧ at_least_once w ∧
  Forall (genuine (committed w)) (stream_log (rest w)) ∧
  Forall (settled (committed w)) (acked (rest w)) ∧
  view_grows (committed w) (committed w') ∧
  stream_log (rest w) `prefix_of` stream_log (rest w').
Proof.
  intros Hc Hl Hk Hw Hw'.
  assert (∀ w1 w2, rtc (system_step ctx) w1 w2 → sys_inv w1 → sys_inv w2 ∧ evolves w1 w2) as Hrtc.
  { induction 1 as [|w1 w2 w3 Hs _ IH]; intros Hi; [done|].
    destruct (system_step_inv _ _ _ Hs Hi) as [Hi2 He2].
    destruct (IH Hi2) as [Hi3 He3]. split; [done|]. by etrans. }
  pose proof (empty_start w0 Hc Hl Hk) as Hi0.
  destruct (Hrtc _ _ Hw Hi0) as [Hi _]. destruct (Hrtc _ _ Hw' Hi) as [_ [Hvg Hpre]].
  destruct Hi as [[Hp Hv] Ho Hg Ha]. done.
Qed.
End system.
