(* ===== verification/Main.v ===== *)
(** * Main: how the application starts and ends

    [main] of sample/main.go up to the signal it waits for and what it does after it,
    with [NewDB] and [Close] of infra/postgres/db.go and [NewNATSBroker] and [Close] of
    infra/nats/broker.go: which goroutines are started, and what is left open on every
    way out. *)
From S2P Require Import Prelude GoJson EventSrc Outbox Lifecycle Cqrs Product.
From S2P Require Import Sql Pgx PgStores Commands Relay ReadModel Nats System.

(** ** What the outside offers *)

(** The environment, [pgxpool], and the connection of [nats.go]. *)
Class Env (W : Type) := {
  PgxPool : Type;
  Conn : Type;
  os_Getenv : string → M W string;
  pgxpool_New : string → M W (res PgxPool);
  Ping : PgxPool → M W (option error);
  Pool_Exec_DDL : PgxPool → string → M W (option error);
  Pool_Close : PgxPool → M W unit;
  nats_Connect : string → M W (res Conn);
  Conn_JetStream : Conn → M W (option error);
  Conn_Close : Conn → M W unit;
}.

Inductive resource `{Env W} :=
  | OpenPool (p : PgxPool)
  | OpenConn (c : Conn).

(** What is open; the calls that open and close, and those that do neither. *)
Class EnvSpec (W : Type) `{Env W} := {
  opened : W → list resource;
  Getenv_spec k w w' v : os_Getenv k w = (w', v) → opened w' = opened w;
  New_spec dsn w w' r : pgxpool_New dsn w = (w', r) →
    opened w' = match r with Ok p => OpenPool p :: opened w | Err _ => opened w end;
  Ping_spec p w w' r : Ping p w = (w', r) → opened w' = opened w;
  Exec_DDL_spec p s w w' r : Pool_Exec_DDL p s w = (w', r) → opened w' = opened w;
  Pool_Close_spec p w w' u l :
    Pool_Close p w = (w', u) → opened w = OpenPool p :: l → opened w' = l;
  Connect_spec url w w' r : nats_Connect url w = (w', r) →
    opened w' = match r with Ok c => OpenConn c :: opened w | Err _ => opened w end;
  JetStream_spec c w w' r : Conn_JetStream c w = (w', r) → opened w' = opened w;
  Conn_Close_spec c w w' u l :
    Conn_Close c w = (w', u) → opened w = OpenConn c :: l → opened w' = l;
}.

Section main.
Context `{Env W} `{JetStream W}.

(** ** infra/postgres/db.go *)

Record DB := { db_Pool : PgxPool }.

Definition NewDB (dsn : string) : M W (res DB) :=
  r ← pgxpool_New dsn;
  match r with
  | Err err => mret (Err (Wrapf "unable to create connection pool" err))
  | Ok pool =>
      err ← Ping pool;
      match err with
      | Some err => mret (Err (Wrapf "unable to ping database" err))
      | None => mret (Ok {| db_Pool := pool |})
      end
  end.

Definition DB_Close (db : DB) : M W unit := Pool_Close (db_Pool db).

(** ** infra/nats/broker.go *)

Record NATSBroker := { nb_conn : Conn }.

Definition NewNATSBroker (url : string) : M W (res NATSBroker) :=
  r ← nats_Connect url;
  match r with
  | Err err => mret (Err (Wrapf "failed to connect to NATS" err))
  | Ok nc =>
      err ← Conn_JetStream nc;
      match err with
      | Some err =>
          _ ← Conn_Close nc;
          mret (Err (Wrapf "failed to create JetStream context" err))
      | None => mret (Ok {| nb_conn := nc |})
      end
  end.

(** The connection of a broker [NewNATSBroker] has returned is not nil. *)
Definition NATSBroker_Close (b : NATSBroker) : M W unit := Conn_Close (nb_conn b).

(** ** sample/main.go *)

Definition ProductViewSchema : string :=
  "CREATE TABLE IF NOT EXISTS product_views (id UUID PRIMARY KEY, name VARCHAR(255) NOT NULL, price INT NOT NULL, version INT NOT NULL, created_at TIMESTAMPTZ NOT NULL, updated_at TIMESTAMPTZ NOT NULL);".

Definition createProductViewTable (db : DB) : M W (option error) :=
  err ← Pool_Exec_DDL (db_Pool db) ProductViewSchema;
  match err with
  | Some err => mret (Some err)
  | None => mret None
  end.

(** The goroutines [main] starts: a relay, the subscriber of the projection with its
    subscription, and the simulation of the work. *)
Inductive goroutine :=
  | RelayWorker (p : process)
  | Subscriber (s : Sub)
  | Simulation.

(** How far [main] gets: [os.Exit(1)], which runs no deferred call, with the goroutines
    that are running then; or the signal it waits for, with what it has deferred. *)
Inductive started :=
  | Exited (running : list goroutine)
  | Serving (db : DB) (broker : NATSBroker) (running : list goroutine).

(** [for range 3]: each relay is started once and then forgotten. *)
Definition relays : list goroutine := replicate 3 (RelayWorker (Start (new_process 10))).

Definition main_start (ctx : unit) : M W started :=
  dsn ← os_Getenv "APP_DSN";
  if String.eqb dsn "" then mret (Exited [])
  else
  natsURL ← os_Getenv "APP_NATS_URL";
  if String.eqb natsURL "" then mret (Exited [])
  else
  r ← NewDB dsn;
  match r with
  | Err _ => mret (Exited [])
  | Ok db =>
      err ← createProductViewTable db;
      match err with
      | Some _ => mret (Exited [])
      | None =>
          r ← NewNATSBroker natsURL;
          match r with
          | Err _ => mret (Exited [])
          | Ok broker =>
              r ← NATSBroker_Subscribe ctx "products" ProductProjection;
              match r with
              | Err _ => mret (Exited relays)
              | Ok sub => mret (Serving db broker (relays ++ [Subscriber sub; Simulation]))
              end
          end
      end
  end.

(** After the signal: the deferred calls, the last one first; no goroutine is waited for. *)
Definition main_end (db : DB) (broker : NATSBroker) : M W unit :=
  _ ← NATSBroker_Close broker;
  DB_Close db.
End main.

(** ** Theorems *)

Section main_theorems.
Context `{EnvSpec W} `{JetStream W}.
Implicit Types (w : W).

(** Calls of JetStream open and close no connection. *)
Class JetStreamKeeps : Prop := {
  StreamInfo_keeps s w w' r : StreamInfo s w = (w', r) → opened w' = opened w;
  AddStream_keeps s subs w w' r : AddStream s subs w = (w', r) → opened w' = opened w;
  PullSubscribe_keeps f d w w' r : PullSubscribe f d w = (w', r) → opened w' = opened w;
}.
Context `{!JetStreamKeeps}.

Lemma wp_NewDB dsn (Q : res DB → W → Prop) w :
  (∀ w' db, opened w' = OpenPool (db_Pool db) :: opened w → Q (Ok db) w') →
  (∀ w' e, opened w' = opened w ∨ (∃ pool, opened w' = OpenPool pool :: opened w) → Q (Err e) w') →
  wp (NewDB dsn) Q w.
Proof.
  intros Ho He. apply wp_bind, wp_intro. intros w1 [pool|e] Ho1%New_spec.
  2:{ apply wp_ret, He. by left. }
  apply wp_bind, wp_intro. intros w2 r Ho2%Ping_spec. destruct r as [e|]; apply wp_ret.
  - apply He. right. exists pool. by rewrite Ho2, Ho1.
  - apply Ho. by rewrite Ho2, Ho1.
Qed.

Lemma wp_NewNATSBroker url (Q : res NATSBroker → W → Prop) w :
  (∀ w' b, opened w' = OpenConn (nb_conn b) :: opened w → Q (Ok b) w') →
  (∀ w' e, opened w' = opened w → Q (Err e) w') →
  wp (NewNATSBroker url) Q w.
Proof.
  intros Ho He. apply wp_bind, wp_intro. intros w1 [nc|e] Ho1%Connect_spec; [|by apply wp_ret, He].
  apply wp_bind, wp_intro. intros w2 r Ho2%JetStream_spec. destruct r as [e|].
  - apply wp_bind, wp_intro. intros w3 u Hc. apply wp_ret, He.
    apply (Conn_Close_spec _ _ _ _ _ Hc). by rewrite Ho2.
  - apply wp_ret, Ho. by rewrite Ho2.
Qed.

Lemma wp_Subscribe (ctx : unit) topic subID (Q : res Sub → W → Prop) w :
  (∀ w' r, opened w' = opened w → Q r w') → wp (NATSBroker_Subscribe ctx topic subID) Q w.
Proof.
  intros HQ.
  assert (wp (ensureTopicExist ctx topic) (λ _ w', opened w' = opened w) w) as He.
  { apply wp_bind, wp_intro. intros w1 r Hs%StreamInfo_keeps. destruct r; [|by apply wp_ret].
    case_decide; [|by apply wp_ret]. apply wp_bind, wp_intro. intros w2 r Ha%AddStream_keeps.
    destruct r; apply wp_ret; congruence. }
  apply wp_bind. eapply wp_mono; [done|]. intros [e|] w1 Ho1; [by apply wp_ret, HQ|].
  apply wp_bind, wp_intro. intros w2 r Ho2%PullSubscribe_keeps. destruct r; apply wp_ret, HQ; congruence.
Qed.

(** C40: what [main] leaves behind.  If it gets as far as waiting for the signal, it has
    started exactly three relays, the subscriber and the simulation, and the pool and
    the connection are open; once the signal has come and whatever was opened meanwhile
    is closed, it closes both.  If it exits before, nothing was started but the relays
    (when only subscribing failed); the deferred calls are not run then, and what is
    left open is nothing, the pool, or the pool and the connection. *)
Theorem main_resources w w1 s :
  main_start tt w = (w1, s) →
  match s with
  | Serving db broker running =>
      (∃ sub, running = relays ++ [Subscriber sub; Simulation]) ∧
      opened w1 = OpenConn (nb_conn broker) :: OpenPool (db_Pool db) :: opened w ∧
      ∀ w2 w3 u, opened w2 = opened w1 → main_end db broker w2 = (w3, u) → opened w3 = opened w
  | Exited running =>
      (running = [] ∨ running = relays) ∧
      (opened w1 = opened w ∨ (∃ pool, opened w1 = OpenPool pool :: opened w) ∨
       ∃ pool nc, opened w1 = OpenConn nc :: OpenPool pool :: opened w)
  end.
Proof.
  intros Hrun. wp_start Hrun.
  assert (∀ w', opened w' = opened w ∨ (∃ pool, opened w' = OpenPool pool :: opened w) →
    ([] = @nil goroutine ∨ [] = relays) ∧
    (opened w' = opened w ∨ (∃ pool, opened w' = OpenPool pool :: opened w) ∨
     ∃ pool nc, opened w' = OpenConn nc :: OpenPool pool :: opened w)) as Hexit.
  { intros w' Hl. split; [by left|tauto]. }
  apply wp_bind, wp_intro. intros w2 dsn Ho2%Getenv_spec.
  destruct (String.eqb dsn ""); [apply wp_ret, Hexit; by left|].
  apply wp_bind, wp_intro. intros w3 url Ho3%Getenv_spec.
  destruct (String.eqb url ""); [apply wp_ret, Hexit; left; congruence|].
  assert (opened w3 = opened w) as Hw by congruence.
  apply wp_bind, wp_NewDB; intros w4.
  2:{ intros e Hl. rewrite Hw in Hl. by apply wp_ret, Hexit. }
  intros db Ho4. apply wp_bind. unfold createProductViewTable. apply wp_bind, wp_intro.
  intros w5 r Ho5%Exec_DDL_spec. assert (opened w5 = OpenPool (db_Pool db) :: opened w) as Hw5.
  { by rewrite Ho5, Ho4, Hw. }
  destruct r as [e|]; [apply wp_ret, wp_ret, Hexit; right; by eexists|]. apply wp_ret.
  apply wp_bind, wp_NewNATSBroker; intros w6; [|intros e Ho6; apply wp_ret, Hexit; right; eexists; by rewrite Ho6, Hw5].
  intros broker Ho6. rewrite Hw5 in Ho6. apply wp_bind, wp_Subscribe. intros w7 [sub|e] Ho7; apply wp_ret.
  - split; [by eexists|]. split; [by rewrite Ho7|]. intros w8 w9 u Ho8 Hend. wp_start Hend.
    apply wp_bind, wp_intro. intros w10 ? Ho10.
    apply (Conn_Close_spec _ _ _ _ (OpenPool (db_Pool db) :: opened w)) in Ho10; [|by rewrite Ho8, Ho7, Ho6].
    apply wp_intro. intros w11 ? Ho11. by apply (Pool_Close_spec _ _ _ _ _ Ho11).
  - split; [by right|]. do 2 right. do 2 eexists. by rewrite Ho7, Ho6.
Qed.
End main_theorems.
