(* ===== verification/Live.v ===== *)
(** * Live: what is written is eventually seen

    Infinite runs of the application on a server and a broker that work, commands,
    relay polls, subscriber polls and queries in any order: if the relay keeps polling
    and every message is acknowledged or delivered in the end, every stored event is
    shown by its view, whatever order messages come in and however often. *)
From Stdlib Require Import Sorted.
From stdpp Require Import relations.
From S2P Require Import Prelude GoJson EventSrc Outbox Cqrs Product.
From S2P Require Import Sql Pgx PgStores Commands Relay ReadModel Nats System.

(** ** What the steps do to the tables *)

(** A command appends a row, a relay marks rows as published, the projection handles
    stored events. *)
Inductive changes `{PgCodec} (t t' : tables) : Prop :=
  | changes_row r sn :
      fresh_in (event_store t) r → t' = save_tables [r] sn t → changes t t'
  | changes_flags :
      t' = set_outbox (outbox t') t → backlog t' `sublist_of` backlog t → changes t t'
  | changes_views rs :
      Forall (λ r, r ∈ event_store t) rs → t' = deliver_all rs t → changes t t'.

(** Only stored events are marked, and none before its turn. *)
Record tracked (aid : uuid) (t : tables) : Prop := {
  tracked_stored eid : (eid, ProductProjection) ∈ processed_events t →
    ∃ r, r ∈ event_store t ∧ er_event_id r = eid;
  tracked_turn r : r ∈ rows_of t aid → (er_event_id r, ProductProjection) ∈ processed_events t →
    (er_version r ≤ view_version t aid)%Z;
}.

Section table_lemmas.
Context `{PgCodecSpec}.
Implicit Types (t : tables) (r : event_row).

Lemma changes_same t : changes t t.
Proof. apply changes_flags; [by destruct t|done]. Qed.

Lemma deliver_marks r t p :
  product_row r → p ∈ processed_events (deliver r t).1 →
  p ∈ processed_events t ∨ p = (er_event_id r, ProductProjection).
Proof.
  intros Hr. destruct (handler_effect_same r t Hr) as (_ & _ & _ & Hp & _). unfold deliver.
  repeat case_match; simpl; rewrite ?Hp, ?elem_of_union, ?elem_of_singleton; tauto.
Qed.

Lemma deliver_all_same rs t :
  read_inv t → Forall (λ r, r ∈ event_store t) rs →
  event_store (deliver_all rs t) = event_store t ∧ outbox (deliver_all rs t) = outbox t ∧
  ∀ p, p ∈ processed_events (deliver_all rs t) →
    p ∈ processed_events t ∨ ∃ r, r ∈ event_store t ∧ p = (er_event_id r, ProductProjection).
Proof.
  revert t. induction rs as [|r rs IH]; intros t Hinv; [intros _; split_and!; [done|done|by left]|].
  intros [Hin Hall]%Forall_cons. destruct (deliver_tables r t Hin Hinv) as (Hinv' & _ & Hes).
  destruct (stored_row _ _ Hinv Hin) as [Hr _].
  destruct (IH _ Hinv') as (Hes2 & Hob2 & Hm2); [by rewrite Hes|]. simpl.
  rewrite Hes2, Hob2, Hes. split; [done|]. split.
  - destruct (handler_effect_same r t Hr) as (_ & Ho & _). unfold deliver.
    repeat case_match; simpl; by rewrite ?Ho.
  - intros p [Hp|(r' & Hr' & ->)]%Hm2; [|right; exists r'; by rewrite <- Hes].
    apply deliver_marks in Hp as [Hp| ->]; [by left|right; by exists r|done].
Qed.

(** An event that is stored twice under its own id is the same. *)
Lemma changes_tracked aid t t' :
  read_inv t → (rows_of t aid = [] ∨ created_stream t aid) → Forall can_show (rows_of t aid) →
  changes t t' → tracked aid t → tracked aid t'.
Proof.
  intros Hinv Hcr Hshow [r sn Hf ->|Ht _|rs Hall ->] Htr; pose proof Htr as [Hst Hturn].
  - split; simpl.
    + intros eid (x & Hx & He)%Hst. exists x. split; [|done]. apply elem_of_app. by left.
    + intros x Hx Hm. change (view_version _ aid) with (view_version t aid).
      apply elem_of_rows_of in Hx as [Ha Hx]. simpl in Hx. apply elem_of_app in Hx as [Hx|Hx].
      { apply Hturn; [by apply elem_of_rows_of|done]. }
      apply list_elem_of_singleton in Hx as ->. destruct (Hst _ Hm) as (y & Hy & He).
      unfold fresh_in in Hf. rewrite Forall_forall in Hf. by destruct (Hf y Hy) as [[] _].
  - rewrite Ht. by split.
  - destruct (deliver_all_same rs t Hinv Hall) as (Hes & _ & Hmarks).
    assert (rows_of (deliver_all rs t) aid = rows_of t aid) as Hrows by (unfold rows_of; by rewrite Hes).
    split.
    + rewrite Hes. intros eid [Hm|(r & Hr & [= ->])]%Hmarks; [by apply Hst|by exists r].
    + rewrite Hrows. destruct Hcr as [->|Hcr]; [by intros r ?%not_elem_of_nil|].
      destruct (deliver_all_version rs t aid) as ([_ _ _ Htm] & _ & _); [by split|done|].
      intros r Hr. apply Htm. by rewrite Hrows.
Qed.

(** ** The backlog *)

(** The rows waiting that the relay takes no later than [r]. *)
Definition ahead r t : list event_row := filter (λ x, ts_le x r) (backlog t).

Lemma changes_ahead r t t' :
  read_inv t → (∀ x, x ∈ event_store t' → x ∉ event_store t → ¬ ts_le x r) →
  changes t t' → length (ahead r t') ≤ length (ahead r t).
Proof.
  intros Hinv Hnew [x sn Hf ->|Ht Hsub|rs Hall ->]; unfold ahead.
  - unfold backlog. simpl. rewrite filter_app, fmap_app, filter_app. simpl.
    rewrite filter_cons_False, app_nil_r; [done|]. apply Hnew; simpl.
    { apply elem_of_app. right. by apply list_elem_of_singleton. }
    intros Hx. unfold fresh_in in Hf. rewrite Forall_forall in Hf. by destruct (Hf x Hx).
  - by apply sublist_length, sublist_filter_mono.
  - destruct (deliver_all_same rs t Hinv Hall) as (_ & Hob & _). unfold backlog. by rewrite Hob.
Qed.

Definition published_row r : outbox_row := {| or_event := r; or_published := true |}.

(** A stored event is waiting or marked as published. *)
Lemma waiting_or_published t r :
  mirrored t → r ∈ event_store t → r ∈ backlog t ∨ published_row r ∈ outbox t.
Proof.
  intros Hm Hin. rewrite <- Hm in Hin. apply list_elem_of_fmap in Hin as ([x b] & -> & Ho).
  destruct b; [by right|left]. unfold backlog. apply (list_elem_of_fmap_2 or_event).
  by apply list_elem_of_filter.
Qed.

Lemma update_published_backlog ids t t' n :
  update_published ids t = Ok (t', n) →
  t' = set_outbox (outbox t') t ∧ backlog t' `sublist_of` backlog t.
Proof.
  intros [= <- _]. split; [done|]. unfold backlog. simpl. rewrite backlog_marked.
  apply fmap_sublist. erewrite <- list_filter_filter_l; [apply sublist_filter|]. by intros o [? _].
Qed.

(** ** Events seen in the end *)

Lemma advance_past x vs v : (x - 1 ≤ v)%Z → x ∈ vs → (x ≤ foldl advance v vs)%Z.
Proof.
  revert v. induction vs as [|y vs IH]; intros v Hv; [by intros ?%not_elem_of_nil|].
  assert (∀ v, (v ≤ foldl advance v vs)%Z) as Hmono.
  { clear. induction vs as [|y vs IH]; intros v; simpl; [lia|]. specialize (IH (advance v y)).
    unfold advance in *. case_match; lia. }
  intros [->|Hx]%elem_of_cons; simpl.
  - specialize (Hmono (advance v y)). unfold advance in *. case_match; lia.
  - apply IH; [|done]. unfold advance. case_match; lia.
Qed.
End table_lemmas.

(** ** The steps of the application *)

Section live_steps.
Context `{JetStreamReliable W R} `{!PgxReliable W R} `{!NoLocks W R} `{!PgCodecSpec}.
Context `{SnapshotFrequency} {pause : W → W → Prop} `{BackoffSpec W pause}.
Implicit Types (w : W) (t : tables).

(** The message's data reads as the event of a stored row. *)
Definition reads t (m : Msg) (r : event_row) : Prop :=
  r ∈ event_store t ∧ OutboxEvent_Unmarshal (Msg_Data m) OutboxEvent_zero = Ok (RowToOutboxEvent r).

Lemma wp_handle_msgs_delivered ctx msgs w :
  read_inv (committed w) → Forall (λ m, ∃ r, reads (committed w) m r) msgs →
  wp (handle_msgs ctx (Projection_Handle productProjection) msgs) (λ _ w', ∃ rs,
    Forall2 (reads (committed w)) msgs rs ∧ committed w' = deliver_all rs (committed w)) w.
Proof.
  revert w. induction msgs as [|m msgs IH]; intros w Hinv.
  { intros _. apply wp_ret. by exists []. }
  intros [(r & Hin & Hun) Hall]%Forall_cons. cbn [handle_msgs]. unfold handle_msg. rewrite Hun.
  destruct (stored_row _ _ Hinv Hin) as [Hr Hwf].
  destruct (deliver_tables r (committed w) Hin Hinv) as (Hinv1 & _ & Hes).
  assert (∀ w2, committed w2 = (deliver r (committed w)).1 →
    wp (handle_msgs ctx (Projection_Handle productProjection) msgs) (λ _ w', ∃ rs,
      Forall2 (reads (committed w)) (m :: msgs) rs ∧ committed w' = deliver_all rs (committed w)) w2)
    as Hrest.
  { intros w2 Hc2. eapply wp_mono; [apply IH; [by rewrite Hc2|]|].
    - eapply Forall_impl; [done|]. intros m' [r' Hr']. exists r'. unfold reads. by rewrite Hc2, Hes.
    - intros _ w3 (rs & Hrs & Hc3). exists (r :: rs). rewrite Hc3, Hc2. split; [|done].
      constructor; [done|]. eapply Forall2_impl; [done|]. intros ? ?. unfold reads. by rewrite Hc2, Hes. }
  apply wp_bind, wp_bind, wp_intro. intros w1 res Hx.
  destruct (Projection_Handle_delivered (pause := pause) _ _ _ _ _ Hr Hwf Hx) as (_ & Hc1 & _).
  destruct res; apply wp_bind, wp_intro; [intros w2 x (Hc2 & _)%Nak_spec|intros w2 x (Hc2 & _)%Ack_spec];
    apply wp_ret, Hrest; by rewrite Hc2.
Qed.

(** A poll of the subscriber delivers the messages it has fetched. *)
Lemma poll_delivers ctx sub w w' u :
  sys_inv w → poll ctx sub (Projection_Handle productProjection) w = (w', u) →
  ∃ rs, Forall (λ r, r ∈ event_store (committed w)) rs ∧
    committed w' = deliver_all rs (committed w) ∧
    ∀ w1 msgs, Fetch sub 10 w = (w1, Ok msgs) → Forall2 (reads (committed w)) msgs rs.
Proof.
  intros Hinv Hrun. wp_start Hrun. apply wp_bind, wp_intro. intros w1 r HF.
  pose proof HF as (Hc & _ & _ & Hmsgs)%Fetch_spec.
  destruct r as [msgs|e]; [|apply wp_ret; exists []; rewrite HF; by split_and!].
  rewrite <- Hc. eapply wp_mono; [apply wp_handle_msgs_delivered; [rewrite Hc; apply Hinv|]|].
  - rewrite Hc. eapply Forall_impl; [by apply Hmsgs|]. intros m (x & Hd & Hx)%list_elem_of_fmap.
    pose proof (sys_log _ Hinv) as Hg. rewrite Forall_forall in Hg.
    destruct (Hg x Hx) as (r & Hr & Hun). exists r. split; [done|]. simpl in Hd. by rewrite Hd.
  - intros _ w2 (rs & Hrs & Hc2). exists rs. split; [|split; [done|]].
    + apply Forall_forall. intros r [i Hi]%list_elem_of_lookup.
      by destruct (Forall2_lookup_r _ _ _ _ _ Hrs Hi) as (? & _ & ? & _).
    + intros w1' msgs'. rewrite HF. by intros [= _ <-].
Qed.

Lemma system_step_changes ctx w w' :
  system_step ctx w w' → sys_inv w → changes (committed w) (committed w').
Proof.
  intros Hs Hinv. pose proof Hinv as [[Hpi Hv] _ _ _]. destruct Hs as
    [newID now c w w' r Hrun|bs w w' r Hrun|sub w w' u Hrun|q w w' r Hrun].
  - destruct (command_Handle_post _ _ _ _ _ _ _ Hpi Hrun) as [_ [[-> _]|(_ & _ & ver & p & _ & Hap)]].
    { apply changes_same. }
    destruct Hap as (row & sn & _ & Hf & _ & _ & _ & ->). by eapply changes_row.
  - assert (∃ rows pubs, batch_outcome bs w r w' rows pubs) as (rows & pubs & _ & _ & _ & Hcase).
    { wp_start Hrun. eapply wp_mono; [apply wp_processBatch|]. intros ? ? (? & ? & ? & _). eauto. }
    destruct Hcase as [[-> _]|(_ & _ & Hx)]; [apply changes_same|].
    destruct (update_published_backlog _ _ _ _ Hx). by apply changes_flags.
  - destruct (poll_delivers _ _ _ _ _ Hinv Hrun) as (rs & Hrs & Hc & _). by eapply changes_views.
  - apply query_still in Hrun as [-> _]. apply changes_same.
Qed.

(** A poll of the relay takes a waiting row, or rows that are not later. *)
Lemma relay_gets_ahead batchSize ctx w w' x r :
  (0 < batchSize)%Z → sys_inv w → processBatch batchSize ctx w = (w', x) →
  r ∈ backlog (committed w) → r ∈ backlog (committed w') →
  length (ahead r (committed w')) < length (ahead r (committed w)).
Proof.
  intros Hb [[Hpi _] _ _ _] Hrun Hr Hr'.
  assert (drained batchSize w x w') as (_ & _ & _ & rows & Hp & _ & Hall & Hlen & _).
  { wp_start Hrun. apply wp_processBatch_reliable; [lia|apply Hpi|].
    apply Forall_fmap, Forall_forall. intros y Hy. simpl.
    assert (y ∈ event_store (committed w)) as Hin.
    { rewrite <- (inv_mirrored _ Hpi). apply list_elem_of_fmap in Hy as (o & -> & [_ Ho]%list_elem_of_filter).
      by apply list_elem_of_fmap_2. }
    pose proof (inv_rows _ Hpi) as Hrows. rewrite Forall_forall in Hrows.
    by destruct (Hrows y Hin) as (? & _ & _ & _ & _ & _ & _ & _ & _ & ?). }
  unfold ahead. rewrite <- Hp, filter_app, length_app.
  rewrite (filter_all _ rows).
  2:{ eapply Forall_impl; [done|]. intros y Hy. rewrite Forall_forall in Hy. by apply Hy. }
  destruct (backlog (committed w)); [by apply not_elem_of_nil in Hr|]. simpl in Hlen. lia.
Qed.
End live_steps.

(** ** Runs *)

Section runs.
Context `{JetStreamReliable W R} `{!PgxReliable W R} `{!NoLocks W R} `{!PgCodecSpec}.
Context `{SnapshotFrequency} {pause : W → W → Prop} `{BackoffSpec W pause}.
Implicit Types (w : W) (t : tables) (ws : nat → W).

(** An infinite run from an empty database and an empty broker. *)
Record app_run (ctx : context W) ws : Prop := {
  run_empty : committed (ws 0) = empty_tables;
  run_no_messages : stream_log (rest (ws 0)) = [] ∧ acked (rest (ws 0)) = [];
  run_step i : system_step ctx (ws i) (ws (S i));
}.

(** At step [i] the subscriber fetches a message with the data [d] and handles it. *)
Definition delivered_at (ctx : context W) ws (i : nat) (d : json) : Prop :=
  ∃ sub w1 msgs u, Fetch sub 10 (ws i) = (w1, Ok msgs) ∧ d ∈ Msg_Data <$> msgs ∧
    poll ctx sub (Projection_Handle productProjection) (ws i) = (ws (S i), u).

(** The relay polls again and again; a message is acknowledged some day, or delivered
    again; and the clock gets past every time, as the rows stored from some point on
    show. *)
Record fair_run (ctx : context W) ws : Prop := {
  fair_relay i : ∃ j batchSize x, i ≤ j ∧ (0 < batchSize)%Z ∧
    processBatch batchSize ctx (ws j) = (ws (S j), x);
  fair_delivery i m : m ∈ stream_log (rest (ws i)) →
    ∃ j, i ≤ j ∧ (m.2 ∈ acked (rest (ws j)) ∨ delivered_at ctx ws j m.2);
  fair_clock r : ∃ k, ∀ j x, k ≤ j →
    x ∈ event_store (committed (ws j)) → x ∉ event_store (committed (ws k)) → ¬ ts_le x r;
}.

Hypothesis pause_evolves : ∀ w1 w2, pause w1 w2 → sys_inv w1 → sys_inv w2 ∧ evolves w1 w2.
Variables (ctx : context W) (ws : nat → W).
Hypothesis Hrun : app_run ctx ws.

Lemma run_inv i : sys_inv (ws i) ∧ ∀ k, evolves (ws i) (ws (i + k)).
Proof.
  assert (∀ i, sys_inv (ws i)) as Hi.
  { clear i. intros i. induction i as [|i IH].
    - destruct (run_no_messages _ _ Hrun) as [Hl Hk]. apply empty_start; [by eapply run_empty|done|done].
    - by eapply (system_step_inv (pause := pause)); [|apply Hrun|]. }
  split; [done|]. intros k. induction k as [|k IH]; [by rewrite Nat.add_0_r|].
  etrans; [done|]. rewrite Nat.add_succ_r.
  by eapply (system_step_inv (pause := pause)); [|apply Hrun|].
Qed.

Lemma run_evolves i j : i ≤ j → evolves (ws i) (ws j).
Proof. intros Hle. replace j with (i + (j - i)) by lia. apply run_inv. Qed.

Lemma run_keeps i j r : i ≤ j → r ∈ event_store (committed (ws i)) → r ∈ event_store (committed (ws j)).
Proof. intros [[Hp _ _] _]%run_evolves Hr. by eapply elem_of_prefix. Qed.

Lemma run_view i j aid :
  i ≤ j → (view_version (committed (ws i)) aid ≤ view_version (committed (ws j)) aid)%Z.
Proof. intros [[_ _ Hv] _]%run_evolves. apply Hv. Qed.

Lemma run_changes i : changes (committed (ws i)) (committed (ws (S i))).
Proof. by eapply (system_step_changes (pause := pause)); [apply Hrun|apply run_inv]. Qed.

(** ** The relay gets to every row *)

Hypothesis Hfair : fair_run ctx ws.

Lemma ahead_shrinks r k i j :
  (∀ j x, k ≤ j → x ∈ event_store (committed (ws j)) →
     x ∉ event_store (committed (ws k)) → ¬ ts_le x r) →
  k ≤ i → i ≤ j → length (ahead r (committed (ws j))) ≤ length (ahead r (committed (ws i))).
Proof.
  intros Hclock Hk Hij. induction Hij as [|j Hij IH]; [done|]. etrans; [|exact IH].
  apply changes_ahead; [apply run_inv| |apply run_changes].
  intros x Hx Hn. apply (Hclock (S j)); [lia|done|]. intros Hx'. apply Hn.
  by apply (run_keeps k); [lia|].
Qed.

Lemma row_published r i :
  r ∈ event_store (committed (ws i)) →
  ∃ j, i ≤ j ∧ published_row r ∈ outbox (committed (ws j)).
Proof.
  intros Hr. destruct (fair_clock _ _ Hfair r) as [k Hclock].
  assert (∀ j, i ≤ j → r ∈ backlog (committed (ws j)) ∨ published_row r ∈ outbox (committed (ws j)))
    as Hcase.
  { intros j Hj. apply waiting_or_published; [apply (run_inv j)|by apply (run_keeps i)]. }
  assert (∀ n i', i ≤ i' → k ≤ i' → length (ahead r (committed (ws i'))) ≤ n →
    ∃ j, i ≤ j ∧ published_row r ∈ outbox (committed (ws j))) as Hind.
  { induction n as [|n IH]; intros i' Hi Hk Hn.
    all: destruct (fair_relay _ _ Hfair i') as (j & bs & x & Hij & Hb & Hx).
    all: pose proof (ahead_shrinks r k i' j Hclock Hk Hij) as Hle.
    all: destruct (Hcase j) as [Hj|Hj]; [lia| |exists j; split; [lia|done]].
    all: destruct (Hcase (S j)) as [Hj'|Hj']; [lia| |exists (S j); split; [lia|done]].
    all: pose proof (relay_gets_ahead _ _ _ _ _ _ Hb (proj1 (run_inv j)) Hx Hj Hj') as Hlt.
    - lia.
    - apply (IH (S j)); lia. }
  by apply (Hind (length (ahead r (committed (ws (max i k))))) (max i k)); [lia..|].
Qed.

Lemma row_sent r i :
  r ∈ event_store (committed (ws i)) → ∃ j, i ≤ j ∧
    nats_message (er_aggregate_type r) (RowToOutboxEvent r) ∈ stream_log (rest (ws j)).
Proof.
  intros Hr. destruct (row_published r i Hr) as (j & Hij & Ho). exists j. split; [done|].
  destruct (run_inv j) as [[[Hpi _] Hal _ _] _].
  unfold at_least_once in Hal. rewrite Forall_forall in Hal. apply (Hal _ Ho eq_refl). simpl.
  pose proof (inv_rows _ Hpi) as Hall. rewrite Forall_forall in Hall.
  by destruct (Hall r (run_keeps i j r Hij Hr)) as (e & _ & _ & _ & _ & _ & _ & _ & -> & _).
Qed.

(** ** The projection gets to every message *)

Variable aid : uuid.
Hypothesis Hcreated : ∀ i, rows_of (committed (ws i)) aid = [] ∨ created_stream (committed (ws i)) aid.
Hypothesis Hshow : ∀ i, Forall can_show (rows_of (committed (ws i)) aid).

Lemma run_tracked i : tracked aid (committed (ws i)).
Proof.
  induction i as [|i IH].
  - rewrite (run_empty _ _ Hrun). by split.
  - eapply changes_tracked; [apply run_inv|apply Hcreated|apply Hshow|apply run_changes|done].
Qed.

Lemma run_on_track i r : r ∈ rows_of (committed (ws i)) aid → on_track (committed (ws i)) aid.
Proof.
  intros Hr. split; [apply run_inv| |apply Hshow|apply run_tracked].
  destruct (Hcreated i) as [Hn|]; [|done]. rewrite Hn in Hr. by apply not_elem_of_nil in Hr.
Qed.

(** A marked event is shown, and so is one that is delivered in its turn. *)
Lemma message_shown r i j :
  r ∈ rows_of (committed (ws i)) aid → i ≤ j →
  (er_version r - 1 ≤ view_version (committed (ws i)) aid)%Z →
  let d := (nats_message (er_aggregate_type r) (RowToOutboxEvent r)).2 in
  d ∈ acked (rest (ws j)) ∨ delivered_at ctx ws j d →
  (er_version r ≤ view_version (committed (ws (S j))) aid)%Z.
Proof.
  intros [Ha Hin]%elem_of_rows_of Hij Hv d Hd. pose proof (run_keeps i j r Hij Hin) as Hj.
  destruct (run_inv j) as [Hinv _]. pose proof Hinv as [Hri _ _ Hset].
  destruct (stored_row _ _ Hri Hj) as [Hr Hwf].
  pose proof (nats_message_reads _ (er_aggregate_type r) _ Hr Hwf Hj) as Hread. fold d in Hread.
  assert (∀ r', r' ∈ event_store (committed (ws j)) →
    OutboxEvent_Unmarshal d OutboxEvent_zero = Ok (RowToOutboxEvent r') → r' = r) as Hsame.
  { intros r' Hr'. rewrite Hread. intros [= Hid _ _ _ _ _ _]. by eapply same_event_id. }
  assert (r ∈ rows_of (committed (ws j)) aid) as Hjr by by apply elem_of_rows_of.
  destruct Hd as [Hd|(sub & w1 & msgs & u & HF & Hd & Hp)].
  - rewrite Forall_forall in Hset. destruct (Hset _ Hd) as (r' & Hr' & Hun & Hm).
    rewrite (Hsame r' Hr' Hun) in Hm. etrans; [|apply (run_view j); lia].
    by apply (tracked_turn _ _ (run_tracked j)).
  - destruct (poll_delivers (pause := pause) _ _ _ _ _ Hinv Hp) as (rs & Hall & -> & Hrs).
    destruct (deliver_all_version rs _ aid (run_on_track _ _ Hjr) Hall) as (_ & _ & ->).
    apply advance_past; [etrans; [done|]; by apply run_view|].
    apply list_elem_of_fmap in Hd as (m & Hmd & [n Hn]%list_elem_of_lookup).
    destruct (Forall2_lookup_l _ _ _ _ _ (Hrs _ _ HF) Hn) as (r' & Hr' & Hr's & Hun).
    rewrite <- Hmd in Hun. rewrite (Hsame r' Hr's Hun) in Hr'.
    apply list_elem_of_fmap_2, list_elem_of_filter. split; [done|]. by eapply list_elem_of_lookup_2.
Qed.

Lemma view_catches_up n i r :
  r ∈ rows_of (committed (ws i)) aid → er_version r = Z.of_nat n →
  ∃ j, i ≤ j ∧ (er_version r ≤ view_version (committed (ws j)) aid)%Z.
Proof.
  revert i r. induction n as [|n IH]; intros i r Hr Hn.
  all: destruct (run_inv i) as [[Hri _ _ _] _]; pose proof (view_version_nonneg _ aid Hri) as Hpos.
  { exists i. split; [done|]. lia. }
  assert (∃ i1, i ≤ i1 ∧ (er_version r - 1 ≤ view_version (committed (ws i1)) aid)%Z) as (i1 & Hi1 & Hv).
  { destruct n as [|n']; [exists i; split; [done|lia]|].
    destruct (contiguous_versions _ aid (Z.of_nat (S n')) (inv_contiguous _ (proj1 Hri))) as [_ Hc].
    destruct Hc as (r0 & Hr0 & Hv0).
    { assert (er_version r ≤ Z.of_nat (length (rows_of (committed (ws i)) aid)))%Z; [|lia].
      apply (contiguous_versions _ aid (er_version r) (inv_contiguous _ (proj1 Hri))). by exists r. }
    destruct (IH i r0 Hr0 Hv0) as (j & Hj & Hvj). exists j. split; [done|]. lia. }
  apply elem_of_rows_of in Hr as [Ha Hin].
  destruct (row_sent r i1) as (i2 & Hi2 & Hm); [by apply (run_keeps i)|].
  destruct (fair_delivery _ _ Hfair i2 _ Hm) as (j & Hj & Hd). exists (S j). split; [lia|].
  apply (message_shown r i2 j); [|done| |done].
  - apply elem_of_rows_of. split; [done|]. apply (run_keeps i); [lia|done].
  - etrans; [done|]. by apply run_view.
Qed.

(** C11: liveness of the whole application.  In every fair run on a server and a broker
    that work, with commands, relay polls, subscriber polls and queries in any order
    and messages redelivered and reordered at will: every event that is ever stored
    for a product (one that was created, all of whose events a view can hold) is seen
    in the end: from some point on every query of the product answers with a view of
    that version or a later one. *)
Theorem eventually_seen i r :
  r ∈ rows_of (committed (ws i)) aid →
  ∃ j, i ≤ j ∧ ∀ k w' res, j ≤ k →
    GetProductByIDHandler_Query ctx {| q_ID := aid |} (ws k) = (w', res) →
    ∃ pv, res = Ok pv ∧ (er_version r ≤ pv_Version pv)%Z.
Proof.
  intros Hr. destruct (run_inv i) as [[[Hpi _] _ _ _] _].
  assert (1 ≤ er_version r)%Z as Hpos.
  { apply (elem_of_seqZ_map _ _ _ (inv_contiguous _ Hpi aid)), Hr. }
  destruct (view_catches_up (Z.to_nat (er_version r)) i r Hr) as (j & Hj & Hv); [lia|].
  exists j. split; [done|]. intros k w' res Hk Hq.
  assert (er_version r ≤ view_version (committed (ws k)) aid)%Z as Hvk by (etrans; [done|by apply run_view]).
  destruct (run_inv k) as [[[Hpk _] _ _ _] _]. wp_start Hq.
  apply wp_query_reliable; [apply Hpk|]. intros w2 _. unfold view_version in Hvk. simpl.
  destruct (product_views (committed (ws k)) !! aid) as [v|]; [|lia]. intros pv (_ & _ & Hpv & _).
  exists pv. split; [done|]. by rewrite Hpv.
Qed.
End runs.
