(* ===== verification/PgRef.v ===== *)
(** * PgRef: a reference server

    A concrete instance of [Pgx] that satisfies [PgxSpec]: one database, a table
    of transactions, and a list of faults consumed call by call, so that error
    paths can be run.  With no possible fault it is [PgxReliable].  It shows the
    driver's assumptions can hold and lets theorems be applied to runs. *)
From Stdlib Require Import SpecFloat Sorted.
From stdpp Require Import sorting.
From S2P Require Import Prelude GoJson Sql Pgx.

(** A plain codec: prices are truncated to integers, times to microseconds. *)
Definition float_trunc (f : float64) : option Z :=
  match f with
  | S754_zero _ => Some 0%Z
  | S754_finite s m e =>
      let n := if (0 <=? e)%Z then (Z.pos m * 2 ^ e)%Z else (Z.pos m / 2 ^ (- e))%Z in
      let n := if s then (- n)%Z else n in
      if int4_ok n then Some n else None
  | _ => None
  end.

(** An integer of fewer than 53 bits as a float. *)
Definition float_of_int4 (z : Z) : float64 :=
  match z with
  | Z0 => S754_zero false
  | Zpos p => S754_finite false p 0
  | Zneg p => S754_finite true p 0
  end.

#[export] Instance ref_codec : PgCodec := {|
  encode_int4_float := float_trunc;
  scan_float_int4 := float_of_int4;
  encode_timestamptz t := Unix (unix_ns t / 1000 * 1000);
|}.

#[export] Instance ref_codec_spec : PgCodecSpec.
Proof.
  split.
  - intros f z. simpl. unfold float_trunc. destruct f; try done; [by intros [= <-]|].
    destruct (int4_ok _) eqn:?; [|done]. by intros [= <-].
  - intros [|p|p] _; simpl; [done|..]; by rewrite Z.mul_1_r.
  - intros [ns]. unfold year_ok. simpl. rewrite !andb_true_iff, !Z.leb_le, !Z.ltb_lt.
    pose proof (Z.div_mod ns 1000 ltac:(lia)). pose proof (Z.mod_pos_bound ns 1000 ltac:(lia)). lia.
Qed.

(** The orders of the ORDER BY clauses, as the sort needs them. *)
Definition snapshot_ge (r r' : snapshot_row) : Prop :=
  (sr_aggregate_version r' ≤ sr_aggregate_version r)%Z.

#[export] Instance snapshot_ge_dec : RelDecision snapshot_ge.
Proof. intros r r'. unfold snapshot_ge. apply _. Defined.
#[export] Instance version_le_dec : RelDecision version_le.
Proof. intros r r'. unfold version_le. apply _. Defined.

#[export] Instance snapshot_ge_total : Total snapshot_ge.
Proof. intros r r'. unfold snapshot_ge. lia. Qed.
#[export] Instance version_le_total : Total version_le.
Proof. intros r r'. unfold version_le. lia. Qed.
#[export] Instance ts_le_total : Total ts_le.
Proof. intros r r'. unfold ts_le. lia. Qed.

#[export] Instance snapshot_ge_trans : Transitive snapshot_ge.
Proof. intros r1 r2 r3. unfold snapshot_ge. lia. Qed.
#[export] Instance version_le_trans : Transitive version_le.
Proof. intros r1 r2 r3. unfold version_le. lia. Qed.
#[export] Instance ts_le_trans : Transitive ts_le.
Proof. intros r1 r2 r3. unfold ts_le. lia. Qed.

(** A fault: the error reported, and whether the server did the work anyway. *)
Record fault := { fault_msg : string; fault_applied : bool }.

(** The faults that may be injected: any, or none at all. *)
Class FaultKind (F : Type) := fault_of : F → fault.
#[export] Instance any_fault : FaultKind fault := λ f, f.
#[export] Instance no_fault : FaultKind Empty_set := λ f, match f with end.

(** The outbox rows other relays hold locked. *)
Class LockedRows := locked_rows : list uuid.

Section ref_server.
Context {R F : Type} `{FaultKind F} `{LockedRows}.

Record ref_world := {
  rw_db : tables;
  rw_txs : list txstate;
  rw_faults : list (option F);
  rw_rest : R;
}.

Definition set_db (db : tables) (w : ref_world) : ref_world :=
  {| rw_db := db; rw_txs := rw_txs w;
     rw_faults := rw_faults w; rw_rest := rw_rest w |}.
Definition set_tx (tx : nat) (s : txstate) (w : ref_world) : ref_world :=
  {| rw_db := rw_db w; rw_txs := <[tx := s]> (rw_txs w);
     rw_faults := rw_faults w; rw_rest := rw_rest w |}.
Definition new_tx (w : ref_world) : ref_world :=
  {| rw_db := rw_db w; rw_txs := rw_txs w ++ [TxActive []];
     rw_faults := rw_faults w; rw_rest := rw_rest w |}.

Definition ref_tx_state (w : ref_world) (tx : nat) : txstate := default TxDone (rw_txs w !! tx).

Definition pop_fault (w : ref_world) : ref_world * option fault :=
  match rw_faults w with
  | [] => (w, None)
  | f :: fs =>
      ({| rw_db := rw_db w; rw_txs := rw_txs w;
          rw_faults := fs; rw_rest := rw_rest w |}, fault_of <$> f)
  end.

Definition tx_closed : error := ErrorString "tx is closed".
Definition in_failed_transaction : error := PgError "25P02".

(** The tables a running transaction sees. *)
Definition tx_view (w : ref_world) (tx : nat) : res (list stmt * tables) :=
  match ref_tx_state w tx with
  | TxActive log => match replay log (rw_db w) with
                    | Ok t => Ok (log, t)
                    | Err _ => Err in_failed_transaction
                    end
  | TxAborted => Err in_failed_transaction
  | TxDone => Err tx_closed
  end.

Definition ref_Begin : M ref_world (res nat) := λ w,
  match pop_fault w with
  | (w, Some f) => (w, Err (ErrorString (fault_msg f)))
  | (w, None) => (new_tx w, Ok (length (rw_txs w)))
  end.

Definition ref_Commit (tx : nat) : M ref_world (option error) := λ w,
  let '(w, f) := pop_fault w in
  match tx_view w tx, f with
  | Ok (_, t), None => (set_tx tx TxDone (set_db t w), None)
  | Ok (_, t), Some f =>
      (set_tx tx TxDone (if fault_applied f then set_db t w else w),
       Some (ErrorString (fault_msg f)))
  | Err (ErrorString e), _ => (w, Some (ErrorString e))
  | Err _, _ => (set_tx tx TxDone w, Some (Sentinel ErrTxCommitRollback))
  end.

Definition ref_Rollback (tx : nat) : M ref_world (option error) := λ w,
  (set_tx tx TxDone w, None).

(** A statement the server refuses aborts the transaction; one the client cannot
    encode does not reach it. *)
Definition after_error (tx : nat) (e : error) (w : ref_world) : ref_world :=
  match e with PgError _ => set_tx tx TxAborted w | _ => w end.

Definition ref_Exec (tx : nat) (s : stmt) : M ref_world (res Z) := λ w,
  let '(w, f) := pop_fault w in
  match tx_view w tx, f with
  | Ok (log, t), None =>
      match sql_exec s t with
      | Ok (_, n) => (set_tx tx (TxActive (log ++ [s])) w, Ok n)
      | Err e => (after_error tx e w, Err e)
      end
  | Ok _, Some f => (set_tx tx TxAborted w, Err (ErrorString (fault_msg f)))
  | Err e, _ => (w, Err e)
  end.

Fixpoint run_batch (ss : list stmt) (t : tables) : list (res Z) * option error :=
  match ss with
  | [] => ([], None)
  | s :: ss =>
      match sql_exec s t with
      | Ok (t, n) => let '(rs, e) := run_batch ss t in (Ok n :: rs, e)
      | Err e => ([Err e], Some e)
      end
  end.

Definition ref_SendBatch (tx : nat) (ss : list stmt) : M ref_world batch_results := λ w,
  let '(w, f) := pop_fault w in
  match tx_view w tx, f with
  | Ok (log, t), None =>
      match run_batch ss t with
      | (rs, None) => (set_tx tx (TxActive (log ++ ss)) w, {| br_results := rs; br_close := None |})
      | (rs, Some e) => (set_tx tx TxAborted w, {| br_results := rs; br_close := Some e |})
      end
  | Ok (log, _), Some f =>
      let e := ErrorString (fault_msg f) in
      match ss with
      | [] => (w, {| br_results := []; br_close := Some e |})
      | _ => (set_tx tx TxAborted w, {| br_results := [Err e]; br_close := Some e |})
      end
  | Err e, _ =>
      let e := match ss with [] => None | _ => Some e end in
      (w, {| br_results := from_option (λ e, [Err e]) [] e; br_close := e |})
  end.

Definition eval_query {A} (q : query A) (skip : list uuid) (t : tables) : res (list A) :=
  match q in query A return res (list A) with
  | SelectProcessed eid sub => Ok [bool_decide ((eid, sub) ∈ processed_events t)]
  | SelectSnapshot aid =>
      Ok (take 1 ((λ r, (sr_aggregate_version r, sr_payload r)) <$>
            merge_sort snapshot_ge
              (filter (λ r, sr_aggregate_id r = aid) (snapshots t))))
  | SelectEvents aid v =>
      Ok ((λ r, (er_event_type r, er_payload r)) <$>
            merge_sort version_le
              (filter (events_after aid v) (event_store t)))
  | SelectUnpublished limit =>
      if (0 <=? limit)%Z then
        Ok (take (Z.to_nat limit)
              (merge_sort ts_le
                 (or_event <$> filter (unpublished skip) (outbox t))))
      else Err (PgError "2201W")
  | SelectViewVersion id =>
      Ok (match product_views t !! id with None => [] | Some v => [vr_version v] end)
  | SelectView id => Ok (match product_views t !! id with None => [] | Some v => [v] end)
  end.

Definition ref_Query (tx : nat) {A} (q : query A) : M ref_world (res (list A * option error)) := λ w,
  let '(w, f) := pop_fault w in
  match tx_view w tx, f with
  | Ok (_, t), None =>
      match eval_query q (locked_rows) t with
      | Ok rows => (w, Ok (rows, None))
      | Err e => (set_tx tx TxAborted w, Ok ([], Some e))
      end
  | Ok _, Some f => (set_tx tx TxAborted w, Err (ErrorString (fault_msg f)))
  | Err e, _ => (w, Err e)
  end.

Definition ref_Pool_Exec (s : stmt) : M ref_world (res Z) := λ w,
  let '(w, f) := pop_fault w in
  match sql_exec s (rw_db w), f with
  | Ok (t, n), None => (set_db t w, Ok n)
  | Ok (t, _), Some f =>
      (if fault_applied f then set_db t w else w, Err (ErrorString (fault_msg f)))
  | Err e, None => (w, Err e)
  | Err _, Some f => (w, Err (ErrorString (fault_msg f)))
  end.

Definition ref_Pool_Query {A} (q : query A) : M ref_world (res (list A * option error)) := λ w,
  let '(w, f) := pop_fault w in
  match f with
  | Some f => (w, Err (ErrorString (fault_msg f)))
  | None => (w, match eval_query q [] (rw_db w) with
                | Ok rows => Ok (rows, None) | Err e => Err e
                end)
  end.

Definition ref_Pool_QueryRow {A} (q : query A) : M ref_world (res A) := λ w,
  let '(w, f) := pop_fault w in
  match f with
  | Some f => (w, Err (ErrorString (fault_msg f)))
  | None => (w, match eval_query q [] (rw_db w) with
                | Ok (a :: _) => Ok a
                | Ok [] => Err (Sentinel ErrNoRows)
                | Err e => Err e
                end)
  end.

#[export] Instance ref_Pgx : Pgx ref_world := {|
  Tx := nat;
  Pool_Begin := ref_Begin;
  Tx_Commit := ref_Commit;
  Tx_Rollback := ref_Rollback;
  Tx_Exec := ref_Exec;
  Tx_SendBatch := ref_SendBatch;
  Tx_Query tx A q := ref_Query tx q;
  Pool_Exec := ref_Pool_Exec;
  Pool_Query A q := ref_Pool_Query q;
  Pool_QueryRow A q := ref_Pool_QueryRow q;
|}.
End ref_server.
Arguments ref_world R F : clear implicits.

(** ** The assumptions hold of it *)

Section ref_laws.
Context {R F : Type} `{FaultKind F} `{LockedRows}.
Implicit Types (w : ref_world R F) (tx : nat).

Lemma pop_fault_same w w' f :
  pop_fault w = (w', f) →
  rw_db w' = rw_db w ∧ rw_txs w' = rw_txs w ∧ rw_rest w' = rw_rest w.
Proof. unfold pop_fault. destruct (rw_faults w); by intros [= <- <-]. Qed.

Lemma tx_state_set_tx w tx s log :
  ref_tx_state w tx = TxActive log → ref_tx_state (set_tx tx s w) tx = s.
Proof.
  unfold ref_tx_state. intros Hl. simpl.
  destruct (rw_txs w !! tx) eqn:Htx; [|done]. apply lookup_lt_Some in Htx.
  by rewrite list_lookup_insert_eq.
Qed.

Lemma tx_view_Ok w tx log t :
  tx_view w tx = Ok (log, t) ↔ ref_tx_state w tx = TxActive log ∧ replay log (rw_db w) = Ok t.
Proof.
  unfold tx_view. destruct (ref_tx_state w tx) as [log'| |].
  - destruct (replay log' (rw_db w)) eqn:Hr; split.
    + by intros [= <- <-].
    + intros [[= <-] ?]. congruence.
    + done.
    + intros [[= <-] ?]. congruence.
  - split; [done|by intros []].
  - split; [done|by intros []].
Qed.

Lemma tx_view_Err w tx e : tx_view w tx = Err e → errors_as_pg e ≠ Some unique_violation.
Proof.
  unfold tx_view. destruct (ref_tx_state w tx) as [log'| |]; [|by intros [= <-]..].
  by destruct (replay log' (rw_db w)); intros [= <-].
Qed.

(** The world after the next fault is taken is, for the rest, the same. *)
Ltac pop w :=
  destruct (pop_fault w) as [?w0 ?f] eqn:?Hp;
  match goal with H : pop_fault w = _ |- _ =>
    destruct (pop_fault_same _ _ _ H) as (?Hdb & ?Htxs & ?Hrest); clear H
  end.

Lemma tx_view_same w w' tx :
  rw_db w' = rw_db w → rw_txs w' = rw_txs w → tx_view w' tx = tx_view w tx.
Proof. unfold tx_view, ref_tx_state. by intros -> ->. Qed.

Lemma ref_tx_state_same w w' tx : rw_txs w' = rw_txs w → ref_tx_state w' tx = ref_tx_state w tx.
Proof. unfold ref_tx_state. by intros ->. Qed.

Lemma replay_snoc_Ok log s t t' n db :
  replay log db = Ok t → sql_exec s t = Ok (t', n) → replay (log ++ [s]) db = Ok t'.
Proof. apply replay_snoc. Qed.

Lemma run_batch_Ok ss t rs :
  run_batch ss t = (rs, None) →
  ∃ ns t', rs = Ok <$> ns ∧ length ns = length ss ∧ replay ss t = Ok t'.
Proof.
  revert t rs. induction ss as [|s ss IH]; intros t rs; simpl.
  - intros [= <-]. by exists [], t.
  - destruct (sql_exec s t) as [[t1 n]|e]; [|done].
    destruct (run_batch ss t1) as [rs' e] eqn:Hb. intros [= <- ->].
    destruct (IH _ _ Hb) as (ns & t' & -> & <- & Hr). by exists (n :: ns), t'.
Qed.

Lemma run_batch_Err ss t rs e :
  run_batch ss t = (rs, Some e) →
  ∃ k s t', k < length ss ∧ rs !! k = Some (Err e) ∧ (∀ i, i < k → ∃ n, rs !! i = Some (Ok n)) ∧
    replay (take k ss) t = Ok t' ∧ ss !! k = Some s ∧ sql_exec s t' = Err e.
Proof.
  revert t rs. induction ss as [|s ss IH]; intros t rs; simpl; [done|].
  destruct (sql_exec s t) as [[t1 n]|e1] eqn:Hs.
  - destruct (run_batch ss t1) as [rs' e'] eqn:Hb. intros [= <- ->].
    destruct (IH _ _ Hb) as (k & s' & t' & Hk & Hrs & Hi & Hr & Hks & Hse).
    exists (S k), s', t'. simpl. rewrite Hs. split_and!; [lia|done| |done..].
    intros [|i] Hlt; [by eexists|]. apply Hi. lia.
  - intros [= <- <-]. exists 0, s, t. simpl. split_and!; [lia|done| |done..]. lia.
Qed.

(** Errors a statement produces: a unique violation is reported as such. *)
Lemma varchar_Err n s e : varchar n s = Err e → errors_as_pg e ≠ Some unique_violation.
Proof.
  unfold varchar. destruct (text_ok s); [|by intros [= <-]].
  destruct (split_chars n s) as [p r]. destruct (all_spaces r); [done|]. by intros [= <-].
Qed.

Lemma event_columns_Err r e : event_columns r = Err e → errors_as_pg e ≠ Some unique_violation.
Proof.
  unfold event_columns. destruct (varchar 255 (er_aggregate_type r)) eqn:H1;
    destruct (varchar 255 (er_event_type r)) eqn:H2.
  - destruct (int4_ok _); [|by intros [= <-]]. destruct (jsonb_ok _); [done|by intros [= <-]].
  - intros [= <-]. by eapply varchar_Err.
  - intros [= <-]. by eapply varchar_Err.
  - intros [= <-]. by eapply varchar_Err.
Qed.

Lemma snapshot_columns_Err r e :
  snapshot_columns r = Err e → errors_as_pg e ≠ Some unique_violation.
Proof.
  unfold snapshot_columns. destruct (varchar 255 (sr_aggregate_type r)) eqn:H1.
  - destruct (int4_ok _); [|by intros [= <-]]. destruct (jsonb_ok _); [done|by intros [= <-]].
  - intros [= <-]. by eapply varchar_Err.
Qed.

Lemma view_columns_Err v c e :
  view_columns v c = Err e → errors_as_pg e ≠ Some unique_violation.
Proof.
  unfold view_columns. destruct (varchar 255 (vp_name v)) eqn:H1.
  - destruct (encode_int4_float _); [|by intros [= <-]].
    destruct (int4_ok _); [done|]. by intros [= <-].
  - intros [= <-]. by eapply varchar_Err.
Qed.

Lemma sql_exec_unique s t e :
  sql_exec s t = Err e → errors_as_pg e = Some unique_violation → e = PgError unique_violation.
Proof.
  destruct s; simpl.
  - unfold insert_event. destruct (event_columns r) eqn:Hc.
    + destruct (existsb _ _); [|done]. by intros [= <-].
    + intros [= <-]. by intros ?%(event_columns_Err _ _ Hc).
  - unfold insert_outbox. destruct (event_columns r) eqn:Hc.
    + destruct (existsb _ _); [|done]. by intros [= <-].
    + intros [= <-]. by intros ?%(event_columns_Err _ _ Hc).
  - unfold insert_snapshot. destruct (snapshot_columns r) eqn:Hc.
    + by destruct (existsb _ _).
    + intros [= <-]. by intros ?%(snapshot_columns_Err _ _ Hc).
  - unfold insert_processed. destruct (varchar 255 subscriber_id) eqn:Hc.
    + destruct (decide _); [|done]. by intros [= <-].
    + intros [= <-]. by intros ?%(varchar_Err _ _ _ Hc).
  - done.
  - unfold upsert_view. destruct (view_columns v _) eqn:Hc; [done|].
    intros [= <-]. by intros ?%(view_columns_Err _ _ _ Hc).
  - unfold update_view. destruct (_ && _); [|by intros [= <-]].
    destruct (product_views t !! vp_id v); [|done].
    destruct (view_columns v _) eqn:Hc; [done|].
    intros [= <-]. by intros ?%(view_columns_Err _ _ _ Hc).
Qed.

Ltac pair_inv :=
  match goal with Hq : (_, _) = (_, _) |- _ => injection Hq as <- <- end.

Lemma ref_Begin_law w w' r :
  ref_Begin w = (w', r) →
  rw_db w' = rw_db w ∧ rw_rest w' = rw_rest w ∧
  ∀ tx, r = Ok tx → ref_tx_state w' tx = TxActive [].
Proof.
  unfold ref_Begin. pop w. intros Hq. destruct f; pair_inv; split_and!; try done.
  intros tx [= <-]. unfold ref_tx_state, new_tx. simpl.
  by rewrite Htxs, list_lookup_middle by done.
Qed.

Lemma ref_Commit_law tx w w' r :
  ref_Commit tx w = (w', r) →
  rw_rest w' = rw_rest w ∧
  match r with
  | None => ∃ log, ref_tx_state w tx = TxActive log ∧ replay log (rw_db w) = Ok (rw_db w')
  | Some e =>
      rw_db w' = rw_db w ∨
      (errors_is e ErrTxCommitRollback = false ∧
       ∃ log, ref_tx_state w tx = TxActive log ∧ replay log (rw_db w) = Ok (rw_db w'))
  end.
Proof.
  unfold ref_Commit. pop w. rewrite (tx_view_same w w0) by done.
  destruct (tx_view w tx) as [[log t]|e] eqn:Hv.
  - apply tx_view_Ok in Hv as [Hl Ht]. intros Hq.
    destruct f as [f|]; pair_inv.
    + destruct (fault_applied f); (split; [done|]).
      * right. split; [done|]. by exists log.
      * by left.
    + split; [done|]. by exists log.
  - intros Hq. destruct e; pair_inv; (split; [done|by left]).
Qed.

Lemma ref_Exec_law tx s w w' r :
  ref_Exec tx s w = (w', r) →
  rw_db w' = rw_db w ∧ rw_rest w' = rw_rest w ∧
  match r with
  | Ok n => ∃ log t t', ref_tx_state w tx = TxActive log ∧ replay log (rw_db w) = Ok t ∧
              sql_exec s t = Ok (t', n) ∧ ref_tx_state w' tx = TxActive (log ++ [s])
  | Err e =>
      (ref_tx_state w' tx = TxAborted ∨ ref_tx_state w' tx = ref_tx_state w tx) ∧
      (errors_as_pg e = Some unique_violation →
       ref_tx_state w' tx = TxAborted ∧
       ∃ log t, ref_tx_state w tx = TxActive log ∧ replay log (rw_db w) = Ok t ∧
                sql_exec s t = Err (PgError unique_violation))
  end.
Proof.
  unfold ref_Exec. pop w. rewrite (tx_view_same w w0) by done.
  destruct (tx_view w tx) as [[log t]|e] eqn:Hv.
  - apply tx_view_Ok in Hv as [Hl Ht]. intros Hq.
    assert (ref_tx_state w0 tx = TxActive log) as Hl0 by (by rewrite (ref_tx_state_same w)).
    destruct f as [f|].
    { pair_inv. split_and!; [done..|left; by eapply tx_state_set_tx|done]. }
    destruct (sql_exec s t) as [[t' n]|e] eqn:Hs; pair_inv.
    + split_and!; [done..|]. exists log, t, t'. split_and!; [done..|].
      by eapply tx_state_set_tx.
    + assert (errors_as_pg e = Some unique_violation →
        ref_tx_state (after_error tx e w0) tx = TxAborted ∧
        ∃ log t, ref_tx_state w tx = TxActive log ∧ replay log (rw_db w) = Ok t ∧
                 sql_exec s t = Err (PgError unique_violation)).
      { intros Hu. pose proof (sql_exec_unique _ _ _ Hs Hu) as ->.
        split; [by eapply tx_state_set_tx|by exists log, t]. }
      destruct e; (split; [done|]); (split; [done|]); (split; [|done]);
        first [right; by apply ref_tx_state_same|left; by eapply tx_state_set_tx].
  - intros Hq. pair_inv. split_and!; [done..|right; by apply ref_tx_state_same|].
    by intros ?%(tx_view_Err _ _ _ Hv).
Qed.

Lemma ref_SendBatch_law tx ss w w' br :
  ref_SendBatch tx ss w = (w', br) →
  rw_db w' = rw_db w ∧ rw_rest w' = rw_rest w ∧
  (ss ≠ [] →
   (∃ log t ns, ref_tx_state w tx = TxActive log ∧ replay (log ++ ss) (rw_db w) = Ok t ∧
      br_results br = Ok <$> ns ∧ length ns = length ss ∧
      (ref_tx_state w' tx = TxActive (log ++ ss) ∨
       (br_close br ≠ None ∧ ref_tx_state w' tx = TxAborted))) ∨
   (∃ k e, k < length ss ∧ br_results br !! k = Some (Err e) ∧
      (∀ i, i < k → ∃ n, br_results br !! i = Some (Ok n)) ∧
      (ref_tx_state w' tx = TxAborted ∨ ref_tx_state w' tx = ref_tx_state w tx) ∧
      (errors_as_pg e = Some unique_violation →
       ∃ log t s, ref_tx_state w tx = TxActive log ∧
         replay (log ++ take k ss) (rw_db w) = Ok t ∧ ss !! k = Some s ∧
         sql_exec s t = Err (PgError unique_violation)))).
Proof.
  unfold ref_SendBatch. pop w. rewrite (tx_view_same w w0) by done.
  destruct (tx_view w tx) as [[log t]|e] eqn:Hv.
  - apply tx_view_Ok in Hv as [Hl Ht].
    assert (ref_tx_state w0 tx = TxActive log) as Hl0 by (by rewrite (ref_tx_state_same w)).
    destruct f as [f|].
    + destruct ss as [|s ss]; intros Hq; pair_inv; (split; [done|]); (split; [done|]);
        intros Hne; [done|]. right. exists 0, (ErrorString (fault_msg f)).
      split_and!; [simpl; lia|done|lia|left; by eapply tx_state_set_tx|by intros [=]].
    + destruct (run_batch ss t) as [rs [e|]] eqn:Hb; intros Hq; pair_inv;
        (split; [done|]); (split; [done|]); intros _; simpl.
      * right. destruct (run_batch_Err _ _ _ _ Hb) as (k & s & t' & Hk & Hrs & Hi & Hr & Hks & Hse).
        exists k, e. split_and!; [done..|left; by eapply tx_state_set_tx|].
        intros Hu. pose proof (sql_exec_unique _ _ _ Hse Hu) as ->.
        exists log, t', s. split_and!; [done| |done..]. by rewrite replay_app, Ht.
      * left. destruct (run_batch_Ok _ _ _ Hb) as (ns & t' & -> & Hn & Hr).
        exists log, t', ns. split_and!; [done| |done..|left; by eapply tx_state_set_tx].
        by rewrite replay_app, Ht.
  - destruct ss as [|s ss]; intros Hq; pair_inv; (split; [done|]); (split; [done|]);
      intros Hne; [done|]. right. exists 0, e.
    split_and!; [simpl; lia|done|lia|right; by apply ref_tx_state_same|].
    by intros ?%(tx_view_Err _ _ _ Hv).
Qed.

Lemma eval_query_answers {A} (q : query A) skip t rows :
  eval_query q skip t = Ok rows → answers q skip t rows.
Proof.
  destruct q; simpl; try by intros [= <-].
  - (* the latest snapshot *)
    intros [= <-]. set (l := filter (λ r, sr_aggregate_id r = aggregate_id) (snapshots t)).
    pose proof (merge_sort_Permutation snapshot_ge l) as Hp.
    pose proof (StronglySorted_merge_sort snapshot_ge l) as Hs.
    destruct (merge_sort snapshot_ge l) as [|r rs]; simpl.
    + left. split; [done|]. apply Forall_forall. intros r Hr Ha.
      apply Permutation_nil in Hp. assert (r ∈ l) as Hin by (by apply list_elem_of_filter).
      rewrite Hp in Hin. by apply elem_of_nil in Hin.
    + right. exists r. assert (r ∈ l) as [Hra Hr]%list_elem_of_filter by (rewrite <- Hp; left).
      split_and!; [done..|]. intros r' Hr' Ha'.
      assert (r' ∈ r :: rs) as [->|Hin]%elem_of_cons; [|lia|].
      { rewrite Hp. by apply list_elem_of_filter. }
      apply StronglySorted_inv in Hs as [_ Hs]. rewrite Forall_forall in Hs. by apply Hs.
  - intros [= <-]. eexists; split_and!; [|by apply (StronglySorted_merge_sort _)|done].
    apply merge_sort_Permutation.
  - destruct (0 <=? limit)%Z eqn:Hl; [|done]. apply Z.leb_le in Hl. intros [= <-].
    split; [done|]. set (l := or_event <$> filter (unpublished skip) (outbox t)).
    set (n := Z.to_nat limit). exists (drop n (merge_sort ts_le l)). rewrite take_drop.
    pose proof (StronglySorted_merge_sort ts_le l) as Hs.
    rewrite <- (take_drop n (merge_sort ts_le l)) in Hs.
    apply StronglySorted_app in Hs as (Hx & Hs1 & _). split_and!; [apply merge_sort_Permutation|done| | |].
    + apply Forall_forall. intros r Hr. apply Forall_forall. intros r' Hr'. by apply Hx.
    + rewrite length_take. lia.
    + intros Hd. rewrite length_take.
      destruct (decide (length (merge_sort ts_le l) ≤ n)); [by rewrite drop_ge in Hd|]. lia.
Qed.

Lemma ref_Query_law tx {A} (q : query A) w w' r :
  ref_Query tx q w = (w', r) →
  rw_db w' = rw_db w ∧ rw_rest w' = rw_rest w ∧
  match r with
  | Ok (rows, None) => ∃ log t, ref_tx_state w tx = TxActive log ∧ replay log (rw_db w) = Ok t ∧
                 answers q (locked_rows) t rows ∧ ref_tx_state w' tx = ref_tx_state w tx
  | Ok (_, Some _) | Err _ =>
      ref_tx_state w' tx = TxAborted ∨ ref_tx_state w' tx = ref_tx_state w tx
  end.
Proof.
  unfold ref_Query. pop w. rewrite (tx_view_same w w0) by done.
  destruct (tx_view w tx) as [[log t]|e] eqn:Hv; intros Hq.
  - apply tx_view_Ok in Hv as [Hl Ht].
    assert (ref_tx_state w0 tx = TxActive log) as Hl0 by (by rewrite (ref_tx_state_same w)).
    destruct f as [f|].
    { pair_inv. split_and!; [done..|left; by eapply tx_state_set_tx]. }
    destruct (eval_query q (locked_rows) t) as [rows|e] eqn:He; pair_inv.
    + split_and!; [done..|]. exists log, t.
      split_and!; [done..|by apply eval_query_answers|by apply ref_tx_state_same].
    + split_and!; [done..|left; by eapply tx_state_set_tx].
  - pair_inv. split_and!; [done..|right; by apply ref_tx_state_same].
Qed.

Lemma ref_Pool_Exec_law s w w' r :
  ref_Pool_Exec s w = (w', r) →
  rw_rest w' = rw_rest w ∧ (∀ tx, ref_tx_state w' tx = ref_tx_state w tx) ∧
  match r with
  | Ok n => sql_exec s (rw_db w) = Ok (rw_db w', n)
  | Err e => rw_db w' = rw_db w ∨
             (errors_as_pg e = None ∧ ∃ n, sql_exec s (rw_db w) = Ok (rw_db w', n))
  end.
Proof.
  unfold ref_Pool_Exec. pop w. rewrite Hdb.
  destruct (sql_exec s (rw_db w)) as [[t n]|e] eqn:Hs, f as [f|]; intros Hq; pair_inv.
  - destruct (fault_applied f); (split; [done|]);
      (split; [intros; by apply ref_tx_state_same|]); [right; eauto|by left].
  - split; [done|]. split; [intros; by apply ref_tx_state_same|done].
  - split; [done|]. split; [intros; by apply ref_tx_state_same|by left].
  - split; [done|]. split; [intros; by apply ref_tx_state_same|by left].
Qed.

Lemma ref_Pool_Query_law {A} (q : query A) w w' r :
  ref_Pool_Query q w = (w', r) →
  rw_db w' = rw_db w ∧ rw_rest w' = rw_rest w ∧ (∀ tx, ref_tx_state w' tx = ref_tx_state w tx) ∧
  ∀ rows, r = Ok (rows, None) → answers q [] (rw_db w) rows.
Proof.
  unfold ref_Pool_Query. pop w. intros Hq.
  destruct f as [f|]; pair_inv; split_and!; try done; try (intros; by apply ref_tx_state_same).
  intros rows. rewrite Hdb. destruct (eval_query q [] (rw_db w)) eqn:He; [|done].
  intros [= ->]. by apply eval_query_answers.
Qed.

Lemma ref_Pool_QueryRow_law {A} (q : query A) w w' r :
  ref_Pool_QueryRow q w = (w', r) →
  rw_db w' = rw_db w ∧ rw_rest w' = rw_rest w ∧ (∀ tx, ref_tx_state w' tx = ref_tx_state w tx) ∧
  match r with
  | Ok a => ∃ rows, answers q [] (rw_db w) (a :: rows)
  | Err e => errors_is e ErrNoRows = true → answers q [] (rw_db w) []
  end.
Proof.
  unfold ref_Pool_QueryRow. pop w. intros Hq.
  destruct f as [f|]; pair_inv; split_and!; try done; try (intros; by apply ref_tx_state_same).
  rewrite Hdb. destruct (eval_query q [] (rw_db w)) as [[|a rows]|e] eqn:He.
  - intros _. by apply eval_query_answers.
  - exists rows. by apply eval_query_answers.
  - destruct q; simpl in He; try done. destruct (0 <=? limit)%Z; [done|]. by injection He as <-.
Qed.

#[export] Instance ref_PgxSpec : PgxSpec (ref_world R F) R := {|
  committed := rw_db;
  tx_state := ref_tx_state;
  locked w _ := locked_rows;
  rest := rw_rest;
  Pool_Begin_spec := ref_Begin_law;
  Tx_Commit_spec := ref_Commit_law;
  Tx_Rollback_spec tx w w' r Hq := ltac:(by injection Hq as <- _);
  Tx_Exec_spec := ref_Exec_law;
  Tx_SendBatch_spec := ref_SendBatch_law;
  Tx_Query_spec tx A q := ref_Query_law tx q;
  Pool_Exec_spec := ref_Pool_Exec_law;
  Pool_Query_spec A q := ref_Pool_Query_law q;
  Pool_QueryRow_spec A q := ref_Pool_QueryRow_law q;
|}.
End ref_laws.

Section ref_reliable.
Context {R : Type} `{LockedRows}.
Implicit Types (w : ref_world R Empty_set).

Lemma pop_no_fault w : ∃ w', pop_fault w = (w', None).
Proof. unfold pop_fault. destruct (rw_faults w) as [|[[]|] ?]; by eexists. Qed.

Ltac pop_none w :=
  let w0 := fresh "w0" in let Hp := fresh "Hp" in
  destruct (pop_no_fault w) as [w0 Hp];
  destruct (pop_fault_same _ _ _ Hp) as (?Hdb & ?Htxs & ?Hrest); rewrite Hp; clear Hp.

Lemma run_batch_complete ss t t' :
  replay ss t = Ok t' → ∃ ns, run_batch ss t = (Ok <$> ns, None).
Proof.
  revert t. induction ss as [|s ss IH]; intros t; simpl; [by exists []|].
  destruct (sql_exec s t) as [[t1 n]|]; [|done]. intros [ns Hb]%IH. rewrite Hb.
  by exists (n :: ns).
Qed.

Lemma eval_query_ok {A} (q : query A) skip t :
  query_ok q = true → ∃ rows, eval_query q skip t = Ok rows.
Proof. destruct q; simpl; try by eexists. intros ->. by eexists. Qed.

#[export] Instance ref_PgxReliable : PgxReliable (ref_world R Empty_set) R.
Proof.
  split; simpl.
  - intros w. unfold ref_Begin. pop_none w. by eexists _, _.
  - intros tx log t w Hl Ht. unfold ref_Commit. pop_none w.
    rewrite (tx_view_same w w0), (proj2 (tx_view_Ok w tx log t)) by done. by eexists.
  - intros tx s log t w Hl Ht. unfold ref_Exec. pop_none w.
    rewrite (tx_view_same w w0), (proj2 (tx_view_Ok w tx log t)) by done.
    destruct (sql_exec s t) as [[t' n]|e]; by eexists _, _.
  - intros tx ss log t t' w Hl Ht Hs. unfold ref_SendBatch. pop_none w.
    rewrite (tx_view_same w w0), (proj2 (tx_view_Ok w tx log t)) by done.
    destruct (run_batch_complete _ _ _ Hs) as [ns ->]. by eexists _, _.
  - intros tx ss log t e w Hl Ht Hs. unfold ref_SendBatch. pop_none w.
    rewrite (tx_view_same w w0), (proj2 (tx_view_Ok w tx log t)) by done.
    destruct (run_batch ss t) as [rs [e'|]] eqn:Hb.
    + destruct (run_batch_Err _ _ _ _ Hb) as (k & s & t' & Hk & Hrs & Hi & Hr & Hks & Hse).
      assert (e' = e) as ->.
      { rewrite <- (take_drop_middle ss k s Hks), replay_app, Hr in Hs. simpl in Hs.
        rewrite Hse in Hs. by injection Hs. }
      by eexists _, _, k.
    + destruct (run_batch_Ok _ _ _ Hb) as (ns & t' & _ & _ & Hr). congruence.
  - intros tx A q log t w Hok Hl Ht. unfold ref_Query. pop_none w.
    rewrite (tx_view_same w w0), (proj2 (tx_view_Ok w tx log t)) by done.
    destruct (eval_query_ok q (locked_rows) t Hok) as [rows ->]. by eexists _, _.
  - intros s w. unfold ref_Pool_Exec. pop_none w. rewrite Hdb.
    destruct (sql_exec s (rw_db w)) as [[t n]|e]; by eexists _, _.
  - intros A q w Hok. unfold ref_Pool_Query. pop_none w.
    destruct (eval_query_ok q [] (rw_db w0) Hok) as [rows ->]. by eexists _, _.
  - intros A q w Hok. unfold ref_Pool_QueryRow. pop_none w.
    destruct (eval_query_ok q [] (rw_db w0) Hok) as [[|a rows] ->]; by eexists _, _.
Qed.
End ref_reliable.

(** A world to start from. *)
Definition ref_start {R F} (db : tables) (fs : list (option F)) (r : R) : ref_world R F :=
  {| rw_db := db; rw_txs := [];  rw_faults := fs; rw_rest := r |}.
