(* ===== verification/RefNats.v ===== *)
(** * RefNats: a reference broker and a reference retry

    Concrete instances of [JetStream] and [Backoff] next to the reference server of
    [PgRef]: streams, one log, and acknowledgements per durable consumer, with the
    same injected faults.  They satisfy [JetStreamSpec], without faults
    [JetStreamReliable], and [BackoffSpec], so that whole runs can be evaluated. *)
From stdpp Require Import pretty.
From S2P Require Import Prelude GoJson EventSrc Outbox Cqrs Sql Pgx PgRef Relay Nats.

(** ** The retry: up to three attempts without a pause *)

Definition no_pause {W} (w w' : W) : Prop := w' = w.

Fixpoint attempt {W} (n : nat) (op : M W (option error)) : M W (option error) := λ w,
  match op w with
  | (w, None) => (w, None)
  | (w, Some e) =>
      match errors_as_permanent e, n with
      | Some inner, _ => (w, Some inner)
      | None, O => (w, Some e)
      | None, S n => attempt n op w
      end
  end.

#[export] Instance ref_Backoff {W} : Backoff W := {|
  Permanent e := PermanentError <$> e;
  Retry _ op := attempt 2 op;
|}.

Lemma attempt_run {W} n (op : M W (option error)) w w' r :
  attempt n op w = (w', r) → retry_run no_pause op w w' r.
Proof.
  revert w. induction n as [|n IH]; intros w; simpl; destruct (op w) as [w1 [e|]] eqn:Hop.
  - destruct (errors_as_permanent e) eqn:He; intros [= <- <-].
    + eapply run_permanent; eauto.
    + by eapply run_give_up.
  - intros [= <- <-]. by apply run_success.
  - destruct (errors_as_permanent e) eqn:He.
    + intros [= <- <-]. eapply run_permanent; eauto.
    + intros Hr. by eapply run_again; [..|by apply IH].
  - intros [= <- <-]. by apply run_success.
Qed.

#[export] Instance ref_BackoffSpec {W} : BackoffSpec W no_pause.
Proof. split; [done|done|]. intros ? op w w' r. apply attempt_run. Qed.

(** ** The streams *)

(** A subscription: the subject it filters by and its durable name. *)
Record subscription := { sub_filter : string; sub_durable : string }.
Record delivered_msg := { dm_durable : string; dm_seq : nat; dm_data : json }.

Record nats_state := {
  ns_streams : list string;
  ns_log : list (string * json);
  ns_acked : list delivered_msg;
}.

Definition nats_empty : nats_state := {| ns_streams := []; ns_log := []; ns_acked := [] |}.

(** A filter ends in a wildcard for the last token. *)
Definition subject_matches (filter subject : string) : bool :=
  String.prefix (String.substring 0 (String.length filter - 1) filter) subject.

(** A durable consumer has acknowledged a position of the log. *)
Definition is_acked (durable : string) (i : nat) (m : delivered_msg) : bool :=
  String.eqb (dm_durable m) durable && Nat.eqb (dm_seq m) i.

Definition pending (sub : subscription) (s : nats_state) : list delivered_msg :=
  omap (λ '(i, (subj, data)),
          if subject_matches (sub_filter sub) subj &&
             negb (existsb (is_acked (sub_durable sub) i) (ns_acked s))
          then Some {| dm_durable := sub_durable sub; dm_seq := i; dm_data := data |}
          else None)
    (imap pair (ns_log s)).

Section ref_nats.
Context {F : Type} `{FaultKind F} `{LockedRows}.
#[local] Abbreviation world := (ref_world nats_state F).

Definition set_rest (s : nats_state) (w : world) : world :=
  {| rw_db := rw_db w; rw_txs := rw_txs w; rw_faults := rw_faults w; rw_rest := s |}.

(** A call that changes the state by [f], unless a fault strikes first. *)
Definition nats_call (f : nats_state → nats_state) : M world (option error) := λ w,
  match pop_fault w with
  | (w, Some e) =>
      (if fault_applied e then set_rest (f (rw_rest w)) w else w,
       Some (ErrorString (fault_msg e)))
  | (w, None) => (set_rest (f (rw_rest w)) w, None)
  end.

Definition add_stream (s : string) (n : nats_state) : nats_state :=
  {| ns_streams := s :: ns_streams n; ns_log := ns_log n; ns_acked := ns_acked n |}.
Definition add_message (s : string) (d : json) (n : nats_state) : nats_state :=
  {| ns_streams := ns_streams n; ns_log := ns_log n ++ [(s, d)]; ns_acked := ns_acked n |}.
Definition add_ack (m : delivered_msg) (n : nats_state) : nats_state :=
  {| ns_streams := ns_streams n; ns_log := ns_log n;
     ns_acked := ns_acked n ++ [m] |}.

Definition ref_StreamInfo (s : string) : M world (option error) := λ w,
  match pop_fault w with
  | (w, Some e) => (w, Some (ErrorString (fault_msg e)))
  | (w, None) =>
      (w, if decide (s ∈ ns_streams (rw_rest w)) then None else Some (Sentinel ErrStreamNotFound))
  end.

Definition ref_Fetch (sub : subscription) (n : Z) : M world (res (list delivered_msg)) := λ w,
  match pop_fault w with
  | (w, Some e) => (w, Err (ErrorString (fault_msg e)))
  | (w, None) =>
      match take (Z.to_nat n) (pending sub (rw_rest w)) with
      | [] => (w, Err (Sentinel ErrTimeout))
      | msgs => (w, Ok msgs)
      end
  end.

#[export] Instance ref_JetStream : JetStream world := {|
  uuid_String u := let 'UUID n := u in pretty n;
  Sub := subscription;
  Msg := delivered_msg;
  StreamInfo := ref_StreamInfo;
  AddStream s _ := nats_call (add_stream s);
  js_Publish s d := nats_call (add_message s d);
  PullSubscribe f d := mret (Ok {| sub_filter := f; sub_durable := d |});
  Fetch := ref_Fetch;
  Msg_Data := dm_data;
  Ack m := nats_call (add_ack m);
  Nak m := nats_call (λ s, s);
|}.

(** ** The assumptions hold of it *)

Lemma nats_call_law f w w' r :
  nats_call f w = (w', r) →
  rw_db w' = rw_db w ∧ (∀ tx, ref_tx_state w' tx = ref_tx_state w tx) ∧
  (rw_rest w' = f (rw_rest w) ∨ (r ≠ None ∧ rw_rest w' = rw_rest w)).
Proof.
  unfold nats_call. destruct (pop_fault w) as [w0 e] eqn:Hp.
  destruct (pop_fault_same _ _ _ Hp) as (Hdb & Htxs & Hr).
  destruct e as [e|]; [destruct (fault_applied e)|]; intros [= <- <-]; simpl; rewrite ?Hr;
    (split; [done|]); (split; [intros tx; by apply ref_tx_state_same|]); auto.
Qed.

(** A call that leaves something of the state alone. *)
Lemma nats_call_keeps {A} (g : nats_state → A) f w w' r :
  (∀ s, g (f s) = g s) → nats_call f w = (w', r) → g (rw_rest w') = g (rw_rest w).
Proof. by intros Hf (_ & _ & [-> | [_ ->]])%nats_call_law. Qed.

Definition ns_acked_data (s : nats_state) : list json := dm_data <$> ns_acked s.

Lemma pending_log sub s :
  Forall (λ m, dm_data m ∈ (ns_log s).*2) (pending sub s).
Proof.
  apply Forall_forall. intros m Hm. unfold pending in Hm.
  apply list_elem_of_omap in Hm as ([i [subj data]] & Hin & Hm).
  apply elem_of_lookup_imap in Hin as (j & x & Hj & Hx).
  injection Hj as -> <-.
  destruct (_ && _); [|done]. injection Hm as <-. simpl.
  apply list_elem_of_fmap. exists (subj, data). split; [done|]. by eapply list_elem_of_lookup_2.
Qed.

Lemma ref_StreamInfo_law s w w' r :
  ref_StreamInfo s w = (w', r) →
  rw_db w' = rw_db w ∧ (∀ tx, ref_tx_state w' tx = ref_tx_state w tx) ∧
  rw_rest w' = rw_rest w.
Proof.
  unfold ref_StreamInfo. destruct (pop_fault w) as [w0 e] eqn:Hp.
  destruct (pop_fault_same _ _ _ Hp) as (Hdb & Htxs & Hr).
  destruct e; intros [= <- _]; rewrite Hr;
    (split; [done|]); (split; [intros tx; by apply ref_tx_state_same|done]).
Qed.

Lemma ref_Fetch_law sub n w w' r :
  ref_Fetch sub n w = (w', r) →
  rw_db w' = rw_db w ∧ rw_rest w' = rw_rest w ∧
  ∀ msgs, r = Ok msgs → Forall (λ m, dm_data m ∈ (ns_log (rw_rest w)).*2) msgs.
Proof.
  unfold ref_Fetch. destruct (pop_fault w) as [w0 e] eqn:Hp.
  destruct (pop_fault_same _ _ _ Hp) as (Hdb & Htxs & Hr). rewrite <- Hr.
  destruct e as [e|]; [by intros [= <- <-]|].
  destruct (take _ _) as [|m ms] eqn:Ht; intros [= <- <-]; [done|].
  split; [done|]. split; [done|]. intros msgs [= <-]. rewrite <- Ht.
  apply Forall_take, pending_log.
Qed.

Ltac keeps H g := eapply (nats_call_keeps g); [|exact H]; done.

#[export] Program Instance ref_JetStreamSpec : JetStreamSpec world nats_state := {|
  stream_log := ns_log;
  acked := ns_acked_data;
|}.
Next Obligation. intros s w w' r (Hdb & Ht & Hr)%ref_StreamInfo_law. simpl. by rewrite Hr. Qed.
Next Obligation.
  intros s subs w w' r Hc. destruct (nats_call_law _ _ _ _ Hc) as (Hdb & Ht & _). simpl.
  split_and!; [done|done|keeps Hc ns_log|keeps Hc ns_acked_data].
Qed.
Next Obligation.
  intros s d w w' r Hc. destruct (nats_call_law _ _ _ _ Hc) as (Hdb & Ht & Hr). simpl.
  split_and!; [done|done|keeps Hc ns_acked_data|]. destruct Hr as [-> | [? ->]]; auto.
Qed.
Next Obligation. intros sub n w w' r (Hdb & Hr & Hm)%ref_Fetch_law. simpl. by rewrite Hr. Qed.
Next Obligation.
  intros m w w' r Hc. destruct (nats_call_law _ _ _ _ Hc) as (Hdb & _ & Hr). simpl.
  split_and!; [done|keeps Hc ns_log|]. unfold ns_acked_data.
  destruct Hr as [-> | [? ->]]; [left|by right]. simpl. by rewrite fmap_app.
Qed.
Next Obligation.
  intros m w w' r Hc. destruct (nats_call_law _ _ _ _ Hc) as (Hdb & _ & _). simpl.
  split_and!; [done|keeps Hc ns_log|keeps Hc ns_acked_data].
Qed.
End ref_nats.

Section ref_nats_reliable.
Context `{LockedRows}.
#[local] Abbreviation world := (ref_world nats_state Empty_set).

Lemma nats_call_ok f (w : world) : ∃ w', nats_call f w = (w', None).
Proof. unfold nats_call. destruct (pop_no_fault w) as [w0 ->]. by eexists. Qed.

#[export] Instance ref_JetStreamReliable : JetStreamReliable world nats_state.
Proof.
  split.
  - intros s w. simpl. unfold ref_StreamInfo. destruct (pop_no_fault w) as [w0 ->].
    eexists _, _. split; [done|]. case_decide; auto.
  - intros s subs w. apply nats_call_ok.
  - intros s d w. apply nats_call_ok.
Qed.
End ref_nats_reliable.

(** A single relay: nobody else holds outbox rows locked. *)
#[export] Instance single_relay : LockedRows := [].

#[export] Instance single_relay_NoLocks {R F} `{FaultKind F} : NoLocks (ref_world R F) R.
Proof. by split. Qed.
