(* ===== verification/Scenario.v ===== *)
(** * Scenario: the story main.go tells, as a run

    A product is created and then updated, the relay publishes, the projection follows
    and the query answers, on the reference server and broker; with the snapshot
    frequency 5 and the batch size 10 of sample/main.go.  The states of the run are
    named here, shown to satisfy the system's invariant, and used by Witnesses. *)
From Stdlib Require Import SpecFloat Ascii.
From stdpp Require Import relations.
From S2P Require Import Prelude GoJson EventSrc Outbox Cqrs Product Sql Pgx.
From S2P Require Import PgStores Commands Relay ReadModel Nats System PgRef RefNats.

(** sample/main.go: [const snapshotFrequency = 5]. *)
#[export] Instance main_snapshotFrequency : SnapshotFrequency := 5%Z.

(** A world without faults, and one with a script of them. *)
Definition calm : Type := ref_world nats_state Empty_set.
Definition stormy : Type := ref_world nats_state fault.

Definition bg : context calm := context_Background.
Definition bg' : context stormy := context_Background.

(** ** The inputs *)

Definition pid : uuid := UUID 7.
Definition eid (n : N) : uuid := UUID (100 + n).
Definition at_second (n : Z) : time := Unix (n * 10 ^ 9).

Definition create : command := CreateCommand (createCmd pid).
Definition update : command := UpdateCommand (updateCmd pid).

(** The n-th command of the story: one creation, then updates. *)
Definition story (n : nat) : uuid * time * command :=
  (eid (N.of_nat n), at_second (Z.of_nat n), match n with 0 => create | _ => update end).

Definition sub : subscription :=
  {| sub_filter := "products.*"; sub_durable := "products-ProductProjection" |}.

(** ** The states *)

Definition empty_world : calm := ref_start empty_tables [] nats_empty.

Definition after_commands (n : nat) : calm := (run_commands bg (story <$> seq 0 n) empty_world).1.
Definition relayed (w : calm) : calm := (processBatch 10 bg w).1.
Definition polled (w : calm) : calm :=
  (poll bg sub (Projection_Handle productProjection) w).1.

(** After the creation and one update; published; projected. *)
Definition w_updated : calm := after_commands 2.
Definition w_relayed : calm := relayed w_updated.
Definition w_polled : calm := polled w_relayed.

(** The fifth version has its snapshot. *)
Definition w_frozen : calm := after_commands 5.

(** A product whose name is too long for the view. *)
Fixpoint repeat_char (n : nat) : string :=
  match n with O => EmptyString | S n => String "x"%char (repeat_char n) end.
Definition longCmd : command :=
  CreateCommand {| cp_ID := pid; cp_Name := repeat_char 256; cp_Price := price_created |}.
Definition w_long : calm :=
  (run_commands bg [(eid 0, at_second 0, longCmd); (eid 1, at_second 1, update)] empty_world).1.

(** The rows of a state's event store, by position. *)
Definition row_at (w : calm) (n : nat) : event_row :=
  nth n (event_store (committed w))
    {| er_event_id := uuid_Nil; er_aggregate_id := uuid_Nil; er_aggregate_type := "";
       er_event_type := ""; er_payload := JObject []; er_version := 0; er_ts := time_zero |}.

(** ** The invariant along the run *)

Lemma no_pause_evolves (w1 w2 : calm) :
  no_pause w1 w2 → sys_inv w1 → sys_inv w2 ∧ evolves w1 w2.
Proof. intros ->. by split. Qed.

Lemma empty_sys_inv : sys_inv empty_world.
Proof.
  split; [split; [split|]|..].
  - apply empty_tables_wf.
  - done.
  - constructor.
  - done.
  - constructor.
  - apply map_Forall_empty.
  - constructor.
  - constructor.
  - constructor.
Qed.

Lemma run_commands_sys_inv cs (w : calm) :
  sys_inv w → sys_inv (run_commands bg cs w).1.
Proof.
  revert w. induction cs as [|[[i t] c] cs IH]; intros w Hi; [done|]. simpl.
  unfold mbind, M_bind. destruct (command_Handle i t bg c w) as [w1 r] eqn:Hc.
  destruct (command_sys_inv _ _ _ _ _ _ _ Hc Hi) as [Hi1 _]. specialize (IH w1 Hi1).
  destruct (run_commands bg cs w1) as [w2 rs]. done.
Qed.

Lemma after_commands_sys_inv n : sys_inv (after_commands n).
Proof. apply run_commands_sys_inv, empty_sys_inv. Qed.

Lemma relayed_sys_inv w : sys_inv w → sys_inv (relayed w).
Proof. intros Hi. by eapply relay_sys_inv; [apply surjective_pairing|]. Qed.

Lemma polled_sys_inv w : sys_inv w → sys_inv (polled w).
Proof.
  intros Hi. by eapply (poll_sys_inv (pause := no_pause)); [apply no_pause_evolves|apply surjective_pairing|].
Qed.

Lemma w_relayed_sys_inv : sys_inv w_relayed.
Proof. apply relayed_sys_inv, after_commands_sys_inv. Qed.
Lemma w_polled_sys_inv : sys_inv w_polled.
Proof. apply polled_sys_inv, w_relayed_sys_inv. Qed.
Lemma w_long_sys_inv : sys_inv w_long.
Proof. apply run_commands_sys_inv, empty_sys_inv. Qed.

(** ** What the story shows *)

(** Whenever main.go sleeps, a relay polls and the subscriber fetches. *)
Definition sleep : M calm unit :=
  _ ← processBatch 10 bg; poll bg sub (Projection_Handle productProjection).

(** The first query sees the creation and the second the update; both prices have lost
    their cents, since the column is an integer. *)
Example main_story :
  (simulate pid (eid 0) (eid 1) (at_second 0) (at_second 1) sleep empty_world).2 =
  Some ({| pv_ID := pid; pv_Name := "CQRS-Powered Widget"; pv_Price := S754_finite false 199 0;
           pv_CreatedAt := at_second 0; pv_UpdatedAt := at_second 0; pv_Version := 1 |},
        {| pv_ID := pid; pv_Name := "CQRS-Powered Widget (Updated)";
           pv_Price := S754_finite false 200 0;
           pv_CreatedAt := at_second 0; pv_UpdatedAt := at_second 1; pv_Version := 2 |}).
Proof. vm_compute. done. Qed.

(** Both commands succeed, both events are published under the product's subject, and
    the query answers the second version; the price has lost its cents, since the
    column is an integer. *)
Example story_runs :
  (run_commands bg (story <$> seq 0 2) empty_world).2 = [None; None] ∧
  (ns_log (rest w_relayed)).*1 = ["products.7"; "products.7"]%string ∧
  (GetProductByIDHandler_Query bg {| q_ID := pid |} w_polled).2 =
    Ok {| pv_ID := pid; pv_Name := "CQRS-Powered Widget (Updated)"; pv_Price := S754_finite false 200 0;
          pv_CreatedAt := at_second 0; pv_UpdatedAt := at_second 1; pv_Version := 2 |}.
Proof. vm_compute. done. Qed.

(** The fifth version writes the snapshot, the sixth is refused, and so is every
    later one. *)
Example story_freezes :
  (run_commands bg (story <$> seq 0 7) empty_world).2 =
    [None; None; None; None; None;
     Some (Wrapf "failed to save aggregate" (ErrConcurrency "concurrency error"));
     Some (Wrapf "failed to save aggregate" (ErrConcurrency "concurrency error"))] ∧
  length (event_store (committed (after_commands 7))) = 5.
Proof. vm_compute. done. Qed.
