(* ===== verification/Shared.v ===== *)
(** * Shared: a database and a broker that other sessions use at the same time

    [PgxSpec] describes a server nobody else changes between two calls.  Here the same
    driver calls are described as one of several concurrent sessions sees them, under
    PostgreSQL's default isolation level (READ COMMITTED): before every call other
    sessions may have committed transactions and published messages ([others]); a
    statement sees what is committed when it is executed; rows selected FOR UPDATE stay
    as they are until the transaction ends; and a transaction takes effect, at its
    commit, on the tables as they are then.  The definitions of the program are the
    same; only what is assumed of the calls is weaker. *)
From Stdlib Require Import Sorted.
From stdpp Require Import relations.
From S2P Require Import Prelude GoJson EventSrc Outbox Sql Pgx PgStores.

(** What a session shares with the others, and what it has open: its transactions with
    the statements they have executed, and the outbox rows it holds locked; and the rows
    the others hold. *)
Class Session (W R : Type) `{PgCodec} `{Pgx W} := {
  shared : W → tables * R;
  session_tx : W → Tx → txstate;
  held : W → list uuid;
  others_hold : W → list uuid;
  others : tables * R → tables * R → Prop;
  others_preorder :: PreOrder others;
}.

(** Nobody else touches an outbox row that is held. *)
Definition kept (h : list uuid) (t t' : tables) : Prop :=
  ∀ o, o ∈ outbox t → er_event_id (or_event o) ∈ h → o ∈ outbox t'.

(** The outbox rows a query locks: SELECT ... FOR UPDATE SKIP LOCKED. *)
Definition locks {A} (q : query A) : list A → list uuid :=
  match q in query A return list A → list uuid with
  | SelectUnpublished _ => λ rows, er_event_id <$> rows
  | _ => λ _, []
  end.

(** Statements whose effect is the same at the commit as when they were executed, since
    unique keys protect inserted rows and locks protect updated ones. *)
Definition deferrable (h : list uuid) (s : stmt) : Prop :=
  match s with
  | UpdatePublished ids => ids ⊆ h
  | UpsertView _ | UpdateView _ => False
  | _ => True
  end.

(** From [w] on, only other sessions have done something, and [m] is what they left. *)
Definition meanwhile `{Session W R} (w : W) (m : tables * R) : Prop :=
  others (shared w) m ∧ kept (held w) (shared w).1 m.1.

Definition drift `{Session W R} (w w' : W) : Prop :=
  meanwhile w (shared w') ∧ held w ⊆ held w'.

Class SharedPgx (W R : Type) `{Session W R} : Prop := {
  shared_Begin w w' r :
    Pool_Begin w = (w', r) →
    drift w w' ∧ ∀ tx, r = Ok tx → session_tx w' tx = TxActive [];
  shared_Commit tx w w' r :
    Tx_Commit tx w = (w', r) →
    ∃ t, meanwhile w (t, (shared w').2) ∧
      ((∃ log, session_tx w tx = TxActive log ∧ replay log t = Ok (shared w').1) ∨
       (r ≠ None ∧ (shared w').1 = t));
  shared_Rollback tx w w' r :
    Tx_Rollback tx w = (w', r) → others (shared w) (shared w');
  shared_Exec tx s w w' r :
    Tx_Exec tx s w = (w', r) → deferrable (held w) s →
    drift w w' ∧
    match r with
    | Ok _ => ∃ log, session_tx w tx = TxActive log ∧ session_tx w' tx = TxActive (log ++ [s])
    | Err e => session_tx w' tx = TxAborted ∨
        (errors_as_pg e ≠ Some unique_violation ∧ session_tx w' tx = session_tx w tx)
    end;
  shared_SendBatch tx ss w w' br :
    Tx_SendBatch tx ss w = (w', br) → Forall (deferrable (held w)) ss → ss ≠ [] →
    drift w w' ∧
    ((∃ log ns, session_tx w tx = TxActive log ∧
        br_results br = Ok <$> ns ∧ length ns = length ss ∧
        (session_tx w' tx = TxActive (log ++ ss) ∨ br_close br ≠ None)) ∨
     (∃ k e, k < length ss ∧ br_results br !! k = Some (Err e) ∧
        ∀ i, i < k → ∃ n, br_results br !! i = Some (Ok n)));
  shared_Query tx {A} (q : query A) w w' r :
    Tx_Query tx q w = (w', r) →
    drift w w' ∧
    ∀ rows, r = Ok (rows, None) → ∃ log t,
      session_tx w tx = TxActive log ∧ session_tx w' tx = TxActive log ∧
      replay log (shared w').1 = Ok t ∧ answers q (others_hold w') t rows ∧ locks q rows ⊆ held w';
  shared_Pool_Exec s w w' r :
    Pool_Exec s w = (w', r) →
    ∃ t, meanwhile w (t, (shared w').2) ∧ held w ⊆ held w' ∧
      (∀ tx, session_tx w' tx = session_tx w tx) ∧
      ((∃ n, sql_exec s t = Ok ((shared w').1, n)) ∨
       ((∃ e, r = Err e) ∧ (shared w').1 = t));
  shared_Pool_Query {A} (q : query A) w w' r :
    Pool_Query q w = (w', r) →
    drift w w' ∧ (∀ tx, session_tx w' tx = session_tx w tx) ∧
    ∀ rows, r = Ok (rows, None) → answers q [] (shared w').1 rows;
  shared_Pool_QueryRow {A} (q : query A) w w' r :
    Pool_QueryRow q w = (w', r) →
    drift w w' ∧ (∀ tx, session_tx w' tx = session_tx w tx) ∧
    match r with
    | Ok a => ∃ rows, answers q [] (shared w').1 (a :: rows)
    | Err e => errors_is e ErrNoRows = true → answers q [] (shared w').1 []
    end;
}.

(** ** Rules *)

Section shared_rules.
Context `{SharedPgx W R}.
Implicit Types (w : W).

#[export] Instance drift_preorder : PreOrder drift.
Proof.
  split.
  - intros w. split; [|done]. split; [done|]. by intros o.
  - intros w1 w2 w3 [[Ho1 Hk1] Hh1] [[Ho2 Hk2] Hh2]. split; [|set_solver]. split; [by etrans|].
    intros o Ho Hh. apply Hk2; [by apply Hk1|]. by apply Hh1.
Qed.

Lemma drift_others w w' : drift w w' → others (shared w) (shared w').
Proof. by intros [[? _] _]. Qed.

Lemma drift_meanwhile w w' m : drift w w' → meanwhile w' m → meanwhile w m.
Proof.
  intros [[Ho1 Hk1] Hh1] [Ho2 Hk2]. split; [by etrans|].
  intros o Ho Hh. apply Hk2; [by apply Hk1|]. by apply Hh1.
Qed.

(** How a transaction may end: nothing of it is visible, or its statements took effect
    together on the tables [t] that the others had left. *)
Definition commits (w : W) (tx : Tx) (t t' : tables) (n : R) : Prop :=
  meanwhile w (t, n) ∧ ∃ log, session_tx w tx = TxActive log ∧ replay log t = Ok t'.

(** The end of a transaction whose body returned [r] in state [w2]: [own] holds of what
    the commit does, and nothing happens otherwise. *)
Definition ends (own : tables → tables → R → Prop) (w2 : W) (tx : Tx) (r : option error) : Prop :=
  r = None → ∀ t t' n, commits w2 tx t t' n → own t t' n.

(** [WithTransaction]: after the body, either nothing of the transaction becomes visible
    and there is an error, or its statements take effect together. *)
Lemma shared_WithTransaction ctx fn (Q : option error → W → Prop) w :
  (∀ w1 e, drift w w1 → Q (Some e) w1) →
  (∀ w1 tx, drift w w1 → session_tx w1 tx = TxActive [] →
     wp (fn (context_WithTx ctx tx)) (λ r w2,
       (∀ w3 e, others (shared w2) (shared w3) → Q (Some e) w3) ∧
       (r = None → ∀ t t' n w3 r', commits w2 tx t t' n → others (t', n) (shared w3) →
          Q r' w3)) w1) →
  wp (WithTransaction ctx fn) Q w.
Proof.
  intros He Hf. unfold WithTransaction. apply wp_bind, wp_intro.
  intros w1 [tx|e] [Hd1 Hb]%shared_Begin; [|by apply wp_ret, He].
  apply wp_bind. eapply wp_mono; [by apply Hf; [|apply Hb]|]. intros r w2 [Hfail Hend].
  destruct r as [e|]; apply wp_bind.
  - apply wp_ret, wp_bind, wp_intro. intros w3 ? Hrb%shared_Rollback. by apply wp_ret, Hfail.
  - apply wp_intro. intros w3 r (t & Hm & Hc)%shared_Commit.
    apply wp_bind, wp_intro. intros w4 ? Hrb%shared_Rollback. apply wp_ret.
    destruct (shared w3) as [t' n] eqn:Hs3. simpl in *. destruct Hc as [Hc|[Hr ->]].
    + eapply Hend; [done| |done]. by split.
    + destruct r as [e|]; [|done]. apply Hfail. destruct Hm as [Ho _]. by etrans.
Qed.

(** The same for a body that does nothing outside its transaction. *)
Lemma shared_WithTransaction_only ctx fn (own : W → tables → tables → R → Prop)
    (Q : option error → W → Prop) w :
  (∀ w1 tx, drift w w1 → session_tx w1 tx = TxActive [] →
     wp (fn (context_WithTx ctx tx)) (λ r w2, drift w1 w2 ∧ ends (own w2) w2 tx r) w1) →
  (∀ w' e, others (shared w) (shared w') → Q (Some e) w') →
  (∀ w2 w' r t t' n, drift w w2 → meanwhile w2 (t, n) → own w2 t t' n →
     others (t', n) (shared w') → Q r w') →
  wp (WithTransaction ctx fn) Q w.
Proof.
  intros Hf He Ho. apply shared_WithTransaction; [intros w1 e Hd; by apply He, drift_others|].
  intros w1 tx Hd1 Hl1. eapply wp_mono; [by apply Hf|]. intros r w2 [Hd2 Hend].
  assert (drift w w2) as Hd by (by etrans). split.
  - intros w3 e Ho3. apply He. etrans; [by apply drift_others|done].
  - intros Hr t t' n w3 r' Hc Ho3. eapply Ho; [done|apply Hc| |done]. by apply Hend.
Qed.

Lemma shared_batch tx ss on_error log (Q : option error → W → Prop) w :
  ss ≠ [] → Forall (deferrable (held w)) ss → session_tx w tx = TxActive log →
  (∀ w', drift w w' → session_tx w' tx = TxActive (log ++ ss) → Q None w') →
  (∀ w' e, drift w w' → Q (Some e) w') →
  wp (br ← Tx_SendBatch tx ss;
      mret (batch_exec on_error (length ss) (br_results br) (br_close br))) Q w.
Proof.
  intros Hne Hdef Hl Ho He. apply wp_bind, wp_intro. intros w' br Hx. apply wp_ret.
  destruct (shared_SendBatch _ _ _ _ _ Hx Hdef Hne) as
    [Hd [(log' & ns & Hl' & -> & Hn & Hst)|(k & e & Hk & Hrs & Hi)]].
  - rewrite (batch_exec_all _ _ _ _ Hn). destruct (br_close br) as [e|] eqn:Hc; [by apply He|].
    destruct Hst as [Hst|[]]; [|done]. apply Ho; [done|]. congruence.
  - rewrite (batch_exec_fails _ _ _ _ _ _ Hk Hrs Hi). by apply He.
Qed.

Lemma shared_wp_Exec tx s log (Q : res Z → W → Prop) w :
  deferrable (held w) s → session_tx w tx = TxActive log →
  (∀ w' n, drift w w' → session_tx w' tx = TxActive (log ++ [s]) → Q (Ok n) w') →
  (∀ w' e, drift w w' → session_tx w' tx = TxAborted ∨
     (errors_as_pg e ≠ Some unique_violation ∧ session_tx w' tx = TxActive log) →
     Q (Err e) w') →
  wp (Tx_Exec tx s) Q w.
Proof.
  intros Hdef Hl Ho He. apply wp_intro. intros w' r Hx.
  destruct (shared_Exec _ _ _ _ _ Hx Hdef) as [Hd Hr]. destruct r as [n|e].
  - destruct Hr as (log' & Hl' & Hst). apply Ho; [done|]. congruence.
  - apply He; [done|]. destruct Hr as [?|[? Hr]]; [by left|right]. split; [done|congruence].
Qed.

Lemma shared_wp_QueryRow {A} (q : query A) (Q : res A → W → Prop) w :
  (∀ w' a rows, drift w w' → (∀ tx, session_tx w' tx = session_tx w tx) →
     answers q [] (shared w').1 (a :: rows) → Q (Ok a) w') →
  (∀ w' e, drift w w' → (∀ tx, session_tx w' tx = session_tx w tx) →
     (errors_is e ErrNoRows = true → answers q [] (shared w').1 []) → Q (Err e) w') →
  wp (Pool_QueryRow q) Q w.
Proof.
  intros Ho He. apply wp_intro. intros w' r (Hd & Ht & Hx)%shared_Pool_QueryRow.
  destruct r as [a|e]; [destruct Hx as [rows Hx]; by eapply Ho|by apply He].
Qed.
End shared_rules.

(** ** The broker *)

(** The messages a broker has accepted, and what it makes of an event. *)
Class MessageLog (R Msg : Type) := {
  logged : R → list Msg;
  posted : string → OutboxEvent → Msg;
}.

(** The tables and the messages are as they were. *)
Definition net_quiet `{MessageLog R Msg} (s s' : tables * R) : Prop :=
  s'.1 = s.1 ∧ logged s'.2 = logged s.2.

(** What publishing promises when others publish too: besides what they do, one message
    is added, or none, in which case there is an error. *)
Class BrokerShared (W R Msg : Type) `{SharedPgx W R} `{Broker W (context W)}
    `{MessageLog R Msg} : Prop := {
  Publish_shared ctx topic evt w w' r :
    Publish ctx topic evt w = (w', r) →
    ∃ n, rtc (λ s s', others s s' ∨ net_quiet s s') (shared w) ((shared w').1, n) ∧
      kept (held w) (shared w).1 (shared w').1 ∧ held w ⊆ held w' ∧
      (∀ tx, session_tx w' tx = session_tx w tx) ∧
      (logged (shared w').2 = logged n ++ [posted topic evt] ∨
       (r ≠ None ∧ logged (shared w').2 = logged n));
}.
