(* ===== verification/Steps.v ===== *)
(** * Steps: what the program's sessions do to the shared state, one atomic step each

    The commits, publications and writes of the command handlers, the relays and the
    projection as relations between shared states (tables and broker), and the
    invariant that all of them preserve in whatever order they happen.  They are a
    specification: that the code does these steps and no others is proved in Concurrent
    for each operation and in Sessions for any sequence of them. *)
From Stdlib Require Import Sorted.
From stdpp Require Import relations.
From S2P Require Import Prelude GoJson EventSrc Outbox Product Sql Pgx PgStores Commands Relay ReadModel Shared.

Definition unpublished_row (r : event_row) : outbox_row := {| or_event := r; or_published := false |}.

(** The row waits in the outbox to be published. *)
Definition waiting (t : tables) (r : event_row) : Prop := unpublished_row r ∈ outbox t.

(** The broker has the message of an event, if it has a topic. *)
Definition posted_in `{MessageLog R Msg} (n : R) (r : event_row) : Prop :=
  er_aggregate_type r ≠ "" → posted (er_aggregate_type r) (RowToOutboxEvent r) ∈ logged n.

Section steps.
Context `{PgCodec} `{MessageLog R Msg} `{SnapshotFrequency}.
Implicit Types (t : tables) (r : event_row) (n : R) (s : tables * R).

(** The commit of a command. *)
Inductive command_step : tables * R → tables * R → Prop :=
  | command_commit newID now c ver p log t t' n :
      Product_Validate (command_product c) = None →
      appended snapshotFrequency (command_event newID now c ver) p t t' →
      replay log t = Ok t' →
      command_step (t, n) (t', n).

(** A relay publishes an event that waits, or marks events the broker has; what else it
    does to the broker leaves the messages alone. *)
Inductive relay_step : tables * R → tables * R → Prop :=
  | relay_publish r t n n' :
      waiting t r → er_aggregate_type r ≠ "" →
      logged n' = logged n ++ [posted (er_aggregate_type r) (RowToOutboxEvent r)] →
      relay_step (t, n) (t, n')
  | relay_quiet t n n' :
      logged n' = logged n → relay_step (t, n) (t, n')
  | relay_mark rows t t' k n :
      Forall (λ r, waiting t r ∧ posted_in n r) rows →
      update_published (er_event_id <$> rows) t = Ok (t', k) →
      relay_step (t, n) (t', n).

(** The projection writes the next version of a view, on the pool, and marks an event
    whose version is not beyond the next one. *)
Inductive view_step : tables * R → tables * R → Prop :=
  | view_write r t n :
      r ∈ event_store t → er_version r = (view_version t (er_aggregate_id r) + 1)%Z →
      view_step (t, n) (handler_effect r t, n)
  | view_mark r t n :
      r ∈ event_store t → (er_version r ≤ view_version t (er_aggregate_id r) + 1)%Z →
      view_step (t, n) (mark (er_event_id r) t, n).

(** What commands and relays do, and what the whole application does. *)
Definition write_step s s' : Prop := command_step s s' ∨ relay_step s s'.
Definition app_step s s' : Prop := write_step s s' ∨ view_step s s'.

(** ** The invariant *)

Record sound s : Prop := {
  sound_read : read_inv s.1;
  sound_outbox : Forall (λ o, or_published o = true → posted_in s.2 (or_event o)) (outbox s.1);
}.

(** What is never taken back. *)
Record later s s' : Prop := {
  later_tables : grows s.1 s'.1;
  later_views aid : (view_version s.1 aid ≤ view_version s'.1 aid)%Z;
  later_log : logged s.2 `prefix_of` logged s'.2;
}.

#[export] Instance later_preorder : PreOrder later.
Proof.
  split; [intros s; split; [reflexivity|lia|done]|]. intros s1 s2 s3 [Ht Hv Hl] [Ht' Hv' Hl'].
  split; [by etrans| |by etrans]. intros aid. specialize (Hv aid). specialize (Hv' aid). lia.
Qed.

Lemma posted_in_grows n n' r :
  logged n `prefix_of` logged n' → posted_in n r → posted_in n' r.
Proof. intros Hp Hin Hty. eapply elem_of_prefix; [|done]. by apply Hin. Qed.
End steps.

Section step_lemmas.
Context `{PgCodecSpec} `{MessageLog R Msg} `{SnapshotFrequency}.
Implicit Types (t : tables) (r : event_row) (n : R) (s : tables * R).

(** A row marked as published stays in the outbox. *)
Lemma published_later t t' o :
  grows t t' → o ∈ outbox t → or_published o = true → o ∈ outbox t'.
Proof.
  intros [_ [l Hl] _ Hg] [i Hi]%list_elem_of_lookup Hp. destruct (Hg i o Hi) as (o' & Hi' & Hp').
  assert ((or_event <$> outbox t') !! i = Some (or_event o)) as He.
  { rewrite Hl. apply lookup_app_l_Some. by rewrite list_lookup_fmap, Hi. }
  rewrite list_lookup_fmap, Hi' in He. simpl in He. injection He as He.
  replace o with o'; [by eapply list_elem_of_lookup_2|].
  specialize (Hp' Hp). destruct o, o'. simpl in *. congruence.
Qed.

Lemma command_step_sound s s' : command_step s s' → sound s → sound s' ∧ later s s'.
Proof.
  intros Hs [[Hpi Hv] Ho]. destruct Hs as [newID now c ver p log t t' n Hval Hap Hrep].
  simpl in *. destruct (command_event_product newID now c ver) as (Hp & Hty & _).
  pose proof (replay_wf _ _ _ Hrep (inv_wf _ Hpi)) as Hwf.
  pose proof (appended_inv _ _ _ _ Hp Hty Hpi Hwf Hap) as Hpi'.
  destruct (appended_rows _ _ _ _ _ _ _ Hap) as (row & sn & _ & Ht & _).
  assert (product_views t' = product_views t) as Hpv by (by rewrite Ht).
  split; split; simpl.
  - split; [done|]. eapply view_ok_grows; [|done..]. by apply replay_grows in Hrep as [? _ _ _].
  - rewrite Ht. simpl. apply Forall_app_2; [done|]. by apply Forall_singleton.
  - by eapply replay_grows.
  - intros aid. unfold view_version. by rewrite Hpv.
  - done.
Qed.

Lemma waiting_marked t rows o :
  tables_wf t → Forall (waiting t) rows → o ∈ outbox t →
  marked (er_event_id <$> rows) o = true → or_event o ∈ rows.
Proof.
  intros Hwf Hw Ho Hm. apply bool_decide_eq_true in Hm.
  apply list_elem_of_fmap in Hm as (row & Hid & Hrow). rewrite Forall_forall in Hw.
  replace (or_event o) with row; [done|]. symmetry.
  apply (same_outbox_id t); [done|by apply list_elem_of_fmap_2| |done].
  by apply (list_elem_of_fmap_2 or_event _ (unpublished_row row)), Hw.
Qed.

Lemma relay_step_sound s s' : relay_step s s' → sound s → sound s' ∧ later s s'.
Proof.
  intros Hs [Hr Ho]. destruct Hs as [r t n n' Hw Hty Hl|t n n' Hl|rows t t' k n Hall Hx]; simpl in *.
  - assert (logged n `prefix_of` logged n') as Hp by (rewrite Hl; by eexists).
    split; split; try done. simpl. eapply Forall_impl; [done|]. intros o Hpo Hpub.
    by eapply posted_in_grows, Hpo.
  - assert (logged n `prefix_of` logged n') as Hp by (by rewrite Hl).
    split; split; try done. simpl. eapply Forall_impl; [done|]. intros o Hpo Hpub.
    by eapply posted_in_grows, Hpo.
  - destruct Hr as [Hpi Hv]. pose proof (sql_exec_grows (UpdatePublished _) _ _ _ Hx) as Hg.
    pose proof (sql_exec_keeps_wf (UpdatePublished _) _ _ _ Hx (inv_wf _ Hpi)) as Hwf.
    destruct (update_published_ids _ _ _ _ Hx) as [_ Hev]. injection Hx as <- _.
    split; split; simpl; try done.
    + split; [|done]. destruct Hpi as [Hwf0 Hm Hro Hc Hs]. split; try done.
      unfold mirrored in *. simpl in *. by rewrite Hev.
    + apply Forall_fmap, Forall_forall. intros o Hin. simpl.
      rewrite Forall_forall in Ho. destruct (marked _ o) eqn:Hm; [|by apply Ho].
      simpl. intros _. apply Forall_and in Hall as [Hw Hp]. rewrite Forall_forall in Hp.
      apply Hp. by eapply waiting_marked; [apply Hpi|..].
Qed.

Lemma view_step_sound s s' : view_step s s' → sound s → sound s' ∧ later s s'.
Proof.
  intros Hs [Hr Ho]. destruct Hs as [r t n Hin Hv|r t n Hin Hv]; simpl in *.
  - destruct (stored_row _ _ Hr Hin) as [Hpr _].
    destruct (handler_effect_read_inv r t Hin Hr) as [Hr' Hg]; [lia|].
    destruct (handler_effect_same r t Hpr) as (He & Hob & _ & Hm & _).
    split; split; simpl; [done|by rewrite Hob| |by apply Hg|done].
    split; rewrite ?He, ?Hob, ?Hm; try done. intros i o Hi. by exists o.
  - destruct (mark_read_inv (er_event_id r) t Hr) as [Hr' Hg].
    split; split; simpl; try done. split; simpl; try done; [set_solver|eauto].
Qed.

Lemma app_step_sound s s' : app_step s s' → sound s → sound s' ∧ later s s'.
Proof.
  intros [[Hs|Hs]|Hs]; [by apply command_step_sound|by apply relay_step_sound|by apply view_step_sound].
Qed.

Lemma app_steps_sound s s' : rtc app_step s s' → sound s → sound s' ∧ later s s'.
Proof.
  induction 1 as [|s1 s2 s3 Hs _ IH]; intros Hi; [done|].
  destruct (app_step_sound _ _ Hs Hi) as [Hi2 Hl2]. destruct (IH Hi2) as [Hi3 Hl3].
  split; [done|by etrans].
Qed.

(** Nothing is stored yet. *)
Lemma empty_sound s : s.1 = empty_tables → sound s.
Proof.
  destruct s as [t n]. simpl. intros ->.
  split; [split|]; simpl; [|apply map_Forall_empty|constructor].
  split; [apply empty_tables_wf|done|constructor|done|constructor].
Qed.
End step_lemmas.
