(* ===== verification/Concurrent.v ===== *)
(** * Concurrent: commands, relays and the projection among other sessions

    The program's operations over a shared database ([SharedPgx]): each is, up to what
    other sessions do before, between and after, a few of the atomic steps of [Steps]. *)
From Stdlib Require Import Sorted.
From stdpp Require Import relations sorting.
From S2P Require Import Prelude GoJson EventSrc Outbox Cqrs Product Sql Pgx PgStores Commands Relay ReadModel.
From S2P Require Import Shared Steps.

(** ** Saving an aggregate *)

(** The statement a save adds for the snapshot. *)
Definition snapshot_log {E T} `{Aggregate E T} (freq : Z) (aggregate : T) (ss : list stmt) : Prop :=
  ss = [] ∨
  (shouldSnapshot freq aggregate = true ∧
   ∃ p, MarshalJSON aggregate = Ok p ∧ ss = [InsertSnapshot (snapshot_params aggregate p)]).

(** The statements of a save. *)
Definition save_log {E T} `{Event E} `{Aggregate E T} (freq : Z) (aggregate : T)
    (log : list stmt) : Prop :=
  ∃ b1 b2 ss, queue_events InsertEvent (GetUncommittedEvents aggregate) = Ok b1 ∧
    queue_events InsertOutbox (GetUncommittedEvents aggregate) = Ok b2 ∧
    snapshot_log freq aggregate ss ∧ log = b1 ++ b2 ++ ss.

Lemma queue_events_deferrable {E} `{Event E} ins (evts : list E) b h :
  (∀ r, deferrable h (ins r)) → queue_events ins evts = Ok b → Forall (deferrable h) b.
Proof.
  intros Hins. revert b. induction evts as [|evt evts IH]; intros b; simpl; [by intros [= <-]|].
  destruct (event_params evt); [|done]. destruct (queue_events ins evts); [|done].
  intros [= <-]. constructor; [done|by apply IH].
Qed.

(** Whatever the tables are when it commits, a save does what [saved] says. *)
Lemma save_log_saved `{PgCodecSpec} {E T} `{Event E} `{Aggregate E T} freq (aggregate : T) log t t' :
  save_log freq aggregate log → replay log t = Ok t' → saved freq aggregate t t'.
Proof.
  intros (b1 & b2 & ss & Hq1 & Hq2 & Hss & ->). rewrite replay_app.
  destruct (replay b1 t) as [t1|] eqn:Hr1; [|done]. rewrite replay_app.
  destruct (replay b2 t1) as [t2|] eqn:Hr2; [|done]. intros Hr3.
  destruct (replay_insert_events _ _ _ _ Hq1 Hr1) as (rs & Hrs & -> & Hf).
  destruct (replay_insert_outbox _ _ _ _ Hq2 Hr2) as (rs2 & Hrs2 & ->).
  rewrite (stored_as_fun _ _ _ Hrs2 Hrs) in Hr3. simpl in Hr3.
  assert (∃ sn, snapshot_of freq aggregate sn ∧ t' = save_tables rs sn t) as (sn & Hsn & ->);
    [|by exists rs, sn].
  destruct Hss as [->|(Hsh & p & Hm & ->)]; simpl in Hr3.
  - exists []. split; [by left|]. injection Hr3 as <-. unfold save_tables. by rewrite app_nil_r.
  - destruct (insert_snapshot _ _) as [[t3 k]|] eqn:Hx; [|done]. injection Hr3 as ->.
    destruct (insert_snapshot_Ok _ _ _ _ Hx) as (s & Hc & [[_ ->]|(_ & -> & _)]).
    + exists []. split; [by left|]. unfold save_tables. by rewrite app_nil_r.
    + exists [s]. split; [|done]. right. split; [done|]. by exists p, s.
Qed.

Section shared_save.
Context `{SharedPgx W R} {E T : Type} `{Event E} `{Aggregate E T}.
Variable freq : Z.
Implicit Types (w : W) (aggregate : T).

Lemma shared_queue ins tx (evts : list E) log on_error on_marshal (Q : option error → W → Prop) w :
  (∀ r, deferrable (held w) (ins r)) → evts ≠ [] → session_tx w tx = TxActive log →
  (∀ w' b, drift w w' → queue_events ins evts = Ok b → session_tx w' tx = TxActive (log ++ b) →
     Q None w') →
  (∀ w' e, drift w w' → Q (Some e) w') →
  wp (match queue_events ins evts with
      | Err err => mret (Some (on_marshal err))
      | Ok b =>
          br ← Tx_SendBatch tx b;
          mret (batch_exec on_error (length evts) (br_results br) (br_close br))
      end) Q w.
Proof.
  intros Hins Hne Hl Ho He. destruct (queue_events ins evts) as [b|e] eqn:Hq; [|by apply wp_ret, He].
  destruct (queue_events_nonempty _ _ _ Hne Hq) as [Hb Hlen]. rewrite Hlen.
  eapply shared_batch; [done|by eapply queue_events_deferrable|done| |done].
  intros w' Hd Hl'. by apply (Ho w' b).
Qed.

(** After a save that returned nil, the transaction has failed or the save has added its
    statements to it. *)
Lemma shared_EventStore_Save ctx tx aggregate log0 w :
  ctx_tx ctx = Some tx → GetUncommittedEvents aggregate ≠ [] → session_tx w tx = TxActive log0 →
  wp (EventStore_Save freq ctx aggregate) (λ r w', drift w w' ∧
    (r = None → ∀ log, session_tx w' tx = TxActive log →
       ∃ l, log = log0 ++ l ∧ save_log freq aggregate l)) w.
Proof.
  intros Hctx Hne Hl. unfold EventStore_Save, save_log. rewrite Hctx.
  destruct (GetUncommittedEvents aggregate) as [|e0 es]; [done|].
  apply wp_bind. eapply shared_queue; [done|done|done| |intros w1 e Hd; by apply wp_ret].
  intros w1 b1 Hd1 Hq1 Hl1. apply wp_bind. unfold OutboxStore_SaveEvents. rewrite Hctx.
  eapply shared_queue; [done|done|done| |intros w2 e Hd; apply wp_ret; split; [by etrans|done]].
  intros w2 b2 Hd2 Hq2 Hl2. assert (drift w w2) as Hd by (by etrans).
  rewrite <- app_assoc in Hl2.
  assert (∀ log, log = log0 ++ b1 ++ b2 → ∃ l, log = log0 ++ l ∧
    ∃ b1 b2 ss, queue_events InsertEvent (e0 :: es) = Ok b1 ∧
    queue_events InsertOutbox (e0 :: es) = Ok b2 ∧ snapshot_log freq aggregate ss ∧
    l = b1 ++ b2 ++ ss) as Hnone.
  { intros log ->. eexists. split; [done|]. exists b1, b2, []. rewrite app_nil_r.
    split_and!; [done..|by left|done]. }
  destruct (shouldSnapshot freq aggregate) eqn:Hsh.
  2:{ apply wp_ret. split; [done|]. intros _ log Hlog. apply Hnone. congruence. }
  apply wp_bind. unfold saveSnapshotInTx. destruct (MarshalJSON aggregate) as [p|e] eqn:Hm.
  2:{ apply wp_ret, wp_ret. split; [done|]. intros _ log Hlog. apply Hnone. congruence. }
  apply wp_bind. eapply shared_wp_Exec; [done|done|..].
  - intros w3 n Hd3 Hl3. apply wp_ret, wp_ret. split; [by etrans|]. intros _ log Hlog.
    exists (b1 ++ b2 ++ [InsertSnapshot (snapshot_params aggregate p)]).
    split; [|exists b1, b2, [InsertSnapshot (snapshot_params aggregate p)]; split_and!; [done..| |done]].
    + rewrite Hl3 in Hlog. injection Hlog as <-. by rewrite <- !app_assoc.
    + right. split; [done|]. by exists p.
  - intros w3 e Hd3 Hl3. apply wp_ret, wp_ret. split; [by etrans|]. intros _ log Hlog.
    apply Hnone. destruct Hl3 as [?|[_ ?]]; congruence.
Qed.
End shared_save.

(** ** Loading an aggregate *)

Section shared_load.
Context `{SharedPgx W R} {E T : Type} `{Event E} `{Aggregate E T}.
Variable eventRegistry : gmap string (EventFactory E).
Implicit Types (w : W).

Lemma shared_loadEvents ctx aid v (Q : res (list E) → W → Prop) w :
  (∀ w' rs evs, drift w w' → (∀ tx, session_tx w' tx = session_tx w tx) →
     stream (shared w').1 aid v rs → decode_events eventRegistry (row_data <$> rs) = Ok evs →
     Q (Ok evs) w') →
  (∀ w' e, drift w w' → Q (Err e) w') →
  wp (loadEvents eventRegistry ctx aid v) Q w.
Proof.
  intros Ho He. apply wp_bind, wp_intro. intros w' r (Hd & Ht & Hr)%shared_Pool_Query.
  destruct r as [[rows rerr]|e]; [|by apply wp_ret, He].
  destruct (decode_events eventRegistry rows) as [evs|e] eqn:Hdec; [|by apply wp_ret, He].
  destruct rerr as [e|]; apply wp_ret; [by apply He|].
  destruct (Hr rows eq_refl) as (rs & Hp & Hss & ->). by apply (Ho w' rs).
Qed.

(** The snapshot and the events are read one after the other: the events are all those
    after the snapshot's version that are there at the second reading. *)
Lemma shared_EventStore_Load ctx aid (Q : res (option json * Z * list E) → W → Prop) w :
  (∀ w' snap v rs evs, drift w w' → (∀ tx, session_tx w' tx = session_tx w tx) →
     stream (shared w').1 aid v rs → decode_events eventRegistry (row_data <$> rs) = Ok evs →
     Q (Ok (snap, v, evs)) w') →
  (∀ w' e, drift w w' → Q (Err e) w') →
  wp (EventStore_Load eventRegistry ctx aid) Q w.
Proof.
  intros Ho He.
  assert (∀ w1 (snap : option json) v, drift w w1 → (∀ tx, session_tx w1 tx = session_tx w tx) →
    wp (r ← loadEvents eventRegistry ctx aid v;
        match r with
        | Err err => mret (Err (Wrapf "failed to load events" err))
        | Ok events => mret (Ok (snap, v, events))
        end) Q w1) as Hrest.
  { intros w1 snap v Hd1 Ht1. apply wp_bind, shared_loadEvents.
    - intros w2 rs evs Hd2 Ht2 Hst Hdec. apply wp_ret.
      eapply Ho; [by etrans|intros; by rewrite Ht2|done..].
    - intros w2 e Hd2. apply wp_ret, He. by etrans. }
  apply wp_bind. unfold loadSnapshot. apply wp_bind, shared_wp_QueryRow.
  - intros w1 [v p] rows Hd1 Ht1 _. by apply wp_ret, Hrest.
  - intros w1 e Hd1 Ht1 _. destruct (errors_is e ErrNoRows); apply wp_ret; [by apply Hrest|].
    by apply wp_ret, He.
Qed.
End shared_load.

(** ** Commands *)

(** A row that continues its stream on the tables it is inserted into, although its
    version was computed from an earlier length [k] of the stream (or from 0). *)
Lemma next_version_later `{PgCodecSpec} t r k :
  products_inv t → fresh_in (event_store t) r →
  (0 ≤ k ≤ Z.of_nat (length (rows_of t (er_aggregate_id r))))%Z → er_version r = int_add k 1 →
  er_version r = (Z.of_nat (length (rows_of t (er_aggregate_id r))) + 1)%Z.
Proof.
  intros Hinv Hf Hk Hv. pose proof (inv_contiguous _ Hinv) as Hc.
  set (n := Z.of_nat (length (rows_of t (er_aggregate_id r)))) in *.
  assert (∀ m, (1 ≤ m ≤ n)%Z → int4_ok m = true ∧ er_version r ≠ m) as Hm.
  { intros m (y & [Ha Hy]%elem_of_rows_of & Hyv)%(contiguous_versions t _ m Hc).
    pose proof (wf_event_versions _ (inv_wf _ Hinv)) as Hall.
    unfold fresh_in in Hf. rewrite Forall_forall in Hall, Hf. rewrite <- Hyv. split; [by apply Hall|].
    intros Heq. destruct (Hf y Hy) as [_ []]. congruence. }
  assert (int_add k 1 = k + 1)%Z as Hs.
  { destruct (decide (k = 0)%Z) as [->|Hk0]; [done|]. apply int4_ok_succ, Hm. lia. }
  destruct (decide (k = n)) as [->|Hkn]; [congruence|].
  destruct (Hm (k + 1)%Z) as [_ []]; [lia|congruence].
Qed.

Section shared_commands.
Context `{SharedPgx W R} `{!PgCodecSpec} `{MessageLog R Msg} `{SnapshotFrequency}.
Implicit Types (w : W) (t : tables).

(** The other sessions are sessions of the same program. *)
Hypothesis others_app : ∀ s s', others s s' → rtc app_step s s'.

Lemma others_sound s s' : others s s' → sound s → sound s' ∧ later s s'.
Proof. intros Ho%others_app. by apply app_steps_sound. Qed.

Lemma drift_sound w w' :
  drift w w' → sound (shared w) → sound (shared w') ∧ later (shared w) (shared w').
Proof. intros Hd%drift_others. by apply others_sound. Qed.

Lemma rows_of_grows t t' aid :
  event_store t `prefix_of` event_store t' → length (rows_of t aid) ≤ length (rows_of t' aid).
Proof. intros [l Hl]. unfold rows_of. rewrite Hl, filter_app, length_app. lia. Qed.

(** A load gives the version of the last event there is when the events are read, or 0;
    the snapshot may be older than that. *)
Lemma shared_Repository_Load ctx aid (Q : res ProductAggregate → W → Prop) w :
  sound (shared w) →
  (∀ w' k p, drift w w' → (∀ tx, session_tx w' tx = session_tx w tx) → fresh_copy aid p k →
     (0 ≤ k ≤ Z.of_nat (length (rows_of (shared w').1 aid)))%Z → Q (Ok p) w') →
  (∀ w' e, drift w w' → Q (Err e) w') →
  wp (Repository_Load newEmptyProduct ctx aid) Q w.
Proof.
  intros Hsound Ho He. apply wp_bind, shared_EventStore_Load; [|intros; by apply wp_ret, He].
  intros w' snap v rs evs Hd Ht Hst Hdec.
  destruct (drift_sound _ _ Hd Hsound) as [[[Hinv _] _] _].
  assert (∀ q, root q = NewAggregateRoot ProductAggregateType →
    Q (Ok (LoadFromHistory evs q).1) w') as Hfin.
  { intros q Hq. destruct (rehydrated _ aid v rs evs q Hinv Hst Hdec Hq) as [Hfc _].
    eapply Ho; [done..|]. unfold loaded_version. destruct (v <? _)%Z; lia. }
  destruct snap as [pl|]; [|by apply wp_ret, Hfin].
  destruct (UnmarshalJSON pl newEmptyProduct) as [q [e|]] eqn:Hu; apply wp_ret; [by apply He|].
  apply Hfin. by eapply UnmarshalJSON_root.
Qed.

(** What a commit of the command does to the tables. *)
Definition command_commits newID now (c : command) (t t' : tables) : Prop :=
  Product_Validate (command_product c) = None ∧
  ∃ ver p log, appended snapshotFrequency (command_event newID now c ver) p t t' ∧
    replay log t = Ok t'.

Lemma shared_Repository_Save ctx tx evt p (Q : option error * ProductAggregate → W → Prop) w :
  ctx_tx ctx = Some tx → session_tx w tx = TxActive [] → GetUncommittedEvents p = [evt] →
  (∀ w' a, drift w w' → (∀ log t t', session_tx w' tx = TxActive log → replay log t = Ok t' →
     ∃ r sn, stored_as evt r ∧ fresh_in (event_store t) r ∧
       snapshot_of snapshotFrequency p sn ∧ t' = save_tables [r] sn t) →
   Q (None, a) w') →
  (∀ w' e a, drift w w' → Q (Some e, a) w') →
  wp (Repository_Save ctx p) Q w.
Proof.
  intros Hctx Hl Hev Ho He. unfold Repository_Save. rewrite Hev. apply wp_bind.
  eapply wp_mono; [apply (shared_EventStore_Save _ _ tx); [done|by rewrite Hev|done]|].
  intros [e|] w' [Hd Hlog]; apply wp_ret; [by apply He|]. apply Ho; [done|].
  intros log t t' Hst Hr. destruct (Hlog eq_refl _ Hst) as (l & -> & Hsl).
  destruct (save_log_saved _ _ _ _ _ Hsl Hr) as (rs & sn & Hrs & Hf & Hsn & ->). rewrite Hev in Hrs.
  inversion Hrs as [|? r ? ? Hs Hnil]; subst. inversion Hnil; subst.
  destruct Hf as [Hf _]. by exists r, sn.
Qed.

(** The body of both handlers' transactions once the aggregate is there. *)
Lemma shared_track_and_save newID now c ctx tx k (p : ProductAggregate) w
    (onerr : error → M W (option error))
    (f : option error * ProductAggregate → M W (option error)) :
  sound (shared w) → session_tx w tx = TxActive [] → ctx_tx ctx = Some tx →
  fresh_copy (command_id c) p k →
  (0 ≤ k ≤ Z.of_nat (length (rows_of (shared w).1 (command_id c))))%Z →
  (∀ e w', wp (onerr e) (λ r w2, r ≠ None ∧ w2 = w') w') →
  (∀ e a w', wp (f (Some e, a)) (λ r w2, r ≠ None ∧ w2 = w') w') →
  (∀ a w', wp (f (None, a)) (λ r w2, w2 = w') w') →
  wp (match TrackChange (command_event newID now c (int_add k 1)) p with
      | (_, Some err) => onerr err
      | (p, None) => r ← Repository_Save ctx p; f r
      end) (λ r w2, drift w w2 ∧
        ends (λ t t' _, command_commits newID now c t t') w2 tx r) w.
Proof.
  intros Hsound Hl Hctx Hfc Hk Hon Hf Hf'.
  destruct (command_event_product newID now c (int_add k 1)) as (Hp & Hty & Hai & _ & Hv & _).
  rewrite <- Hai in Hfc. destruct (TrackChange_carries _ _ _ Hp Hfc) as (p' & -> & Hok).
  rewrite command_event_Validate in Hok |- *.
  destruct (Product_Validate (command_product c)) as [e|] eqn:Hval; simpl.
  { eapply wp_mono; [apply Hon|]. intros r w2 [Hr ->]. by split. }
  destruct (Hok eq_refl) as (He' & Hca & _). apply wp_bind.
  eapply shared_Repository_Save; [done..| |].
  - intros w2 a Hd2 Hlog. eapply wp_mono; [apply Hf'|]. intros r w3 ->. split; [done|].
    intros _ t t' n [Hm (log & Hst & Hrep)]. split; [done|].
    exists (int_add k 1), p', log. split; [|done].
    destruct (Hlog _ _ _ Hst Hrep) as (row & sn & Hsr & Hfr & Hsn & ->).
    exists row, sn. split_and!; [done..| |done].
    destruct (drift_meanwhile _ _ _ Hd2 Hm) as [Ho _].
    destruct (others_sound _ _ Ho Hsound) as [[[Hinv _] _] [[Hpre _ _ _] _ _]].
    simpl in Hinv, Hpre. destruct (stored_as_product _ _ Hp Hty Hsr) as (_ & Hra & Hrv & _). rewrite <- Hra, <- Hrv.
    apply (next_version_later t row k); [done|done| |by rewrite Hrv].
    pose proof (rows_of_grows _ _ (command_id c) Hpre) as Hle. replace (er_aggregate_id row) with (command_id c) by congruence. lia.
  - intros w2 e a Hd2. eapply wp_mono; [apply Hf|]. intros r w3 [Hr ->]. by split.
Qed.

(** What a command may come to: at one point nothing happens, or it commits. *)
Definition command_post newID now (c : command) (w : W) (r : option error) (w' : W) : Prop :=
  ∃ s s', others (shared w) s ∧ others s' (shared w') ∧ sound s ∧
    ((s' = s ∧ r ≠ None) ∨ (s'.2 = s.2 ∧ command_commits newID now c s.1 s'.1)).

Lemma shared_command newID now ctx c w :
  sound (shared w) → wp (command_Handle newID now ctx c) (command_post newID now c w) w.
Proof.
  intros Hsound. set (Q := command_post newID now c w).
  assert (∀ w3 e, others (shared w) (shared w3) → Q (Some e) w3) as Hfail.
  { intros w3 e Ho. exists (shared w), (shared w). split_and!; [done..|by left]. }
  assert (∀ w2 w3 r t t' n, drift w w2 → meanwhile w2 (t, n) → command_commits newID now c t t' →
    others (t', n) (shared w3) → Q r w3) as Hdone.
  { intros w2 w3 r0 t t' n Hd Hm Hc Ho. destruct (drift_meanwhile _ _ _ Hd Hm) as [Ho1 _].
    destruct (others_sound _ _ Ho1 Hsound) as [Hs1 _].
    exists (t, n), (t', n). split_and!; [done..|]. by right. }
  destruct c as [c|c]; unfold command_Handle.
  - apply wp_bind, wp_mono with (P := Q); [|by intros [e|]].
    apply (shared_WithTransaction_only _ _ (λ _ t t' _, command_commits newID now (CreateCommand c) t t'));
      [|done|done].
    intros w1 tx Hd1 Hl1. destruct (drift_sound _ _ Hd1 Hsound) as [Hs1 _].
    apply (shared_track_and_save newID now (CreateCommand c) _ tx 0 NewProductAggregateEmpty w1
      (λ err, mret (Some (Wrapf "trace create product failed" err)))
      (λ r, match r with
            | (Some err, _) => mret (Some (Wrapf "failed to save new product" err))
            | (None, _) => mret None
            end)); try done; [apply fresh_copy_empty|lia].
  - apply (shared_WithTransaction_only _ _ (λ _ t t' _, command_commits newID now (UpdateCommand c) t t'));
      [|done|done].
    intros w1 tx Hd1 Hl1. destruct (drift_sound _ _ Hd1 Hsound) as [Hs1 _].
    apply wp_bind, shared_Repository_Load; [done| |intros w2 e Hd2; by apply wp_ret].
    intros w2 k p Hd2 Ht2 Hfc Hk. destruct (drift_sound _ _ Hd2 Hs1) as [Hs2 _].
    pose proof Hfc as (Hver & _). rewrite Hver.
    eapply wp_mono; [apply (shared_track_and_save newID now (UpdateCommand c) _ tx k p w2
      (λ err, mret (Some (Wrapf "track update product failed" err))) (λ r, mret r.1))|];
      try done; [by rewrite Ht2|].
    intros r2 w3 [Hd3 He3]. split; [by etrans|done].
Qed.
(** C12: commands among other sessions.  Whatever commands, relays and projections
    other sessions run between any two calls of a command handler, and whatever fails,
    the handler is atomic: at one point of its run nothing happens, and it returns an
    error, or its one event is appended, with the version that is next in its stream
    at that point even if the stream has grown since it was loaded. *)
Theorem command_linearizable newID now ctx c w w' r :
  sound (shared w) → command_Handle newID now ctx c w = (w', r) →
  ∃ s s', others (shared w) s ∧ others s' (shared w') ∧ sound s ∧
    ((s' = s ∧ r ≠ None) ∨
     (s'.2 = s.2 ∧ Product_Validate (command_product c) = None ∧
      ∃ ver p, appended snapshotFrequency (command_event newID now c ver) p s.1 s'.1)).
Proof.
  intros Hsound Hrun.
  destruct (wp_run _ _ _ _ _ Hrun (shared_command newID now ctx c w Hsound))
    as (s & s' & Hs & Hs' & Hss & [Hn|(Hn & Hval & ver & p & log & Hap & _)]);
    exists s, s'; (split_and!; [done..|]); [by left|right].
  split_and!; [done..|]. by exists ver, p.
Qed.
End shared_commands.

(** ** The relay *)

Section shared_relay.
Context `{BrokerShared W R Msg} `{!PgCodecSpec} `{SnapshotFrequency}.
Implicit Types (w : W) (t : tables).

Hypothesis others_app : ∀ s s', others s s' → rtc app_step s s'.

(** What others do, and what a relay does. *)
Definition relay_or_others (s s' : tables * R) : Prop := others s s' ∨ relay_step s s'.

(** The way from one state of a polling session to another. *)
Definition relay_path (w w' : W) : Prop :=
  rtc relay_or_others (shared w) (shared w') ∧
  kept (held w) (shared w).1 (shared w').1 ∧ held w ⊆ held w'.

Lemma relay_path_app s s' : rtc relay_or_others s s' → rtc app_step s s'.
Proof.
  induction 1 as [|s1 s2 s3 [Ho|Hs] _ IH]; [done|..].
  - etrans; [by apply others_app|done].
  - eapply rtc_l; [|done]. left. by right.
Qed.

Lemma relay_path_sound s s' : rtc relay_or_others s s' → sound s → sound s' ∧ later s s'.
Proof. intros Hp%relay_path_app. by apply app_steps_sound. Qed.

#[local] Instance relay_path_preorder : PreOrder relay_path.
Proof.
  split; [by intros w; split_and!; [|intros o|]|].
  intros w1 w2 w3 (Hp1 & Hk1 & Hh1) (Hp2 & Hk2 & Hh2). split; [by etrans|]. split; [|by etrans].
  intros o Ho Hh. apply Hk2; [by apply Hk1|]. by apply Hh1.
Qed.

Lemma drift_relay_path w w' : drift w w' → relay_path w w'.
Proof. intros [[Ho Hk] Hh]. split; [|done]. apply rtc_once. by left. Qed.

(** The rows a session has fetched: they wait, and nobody else may mark them. *)
Definition fetched (w : W) (rows : list event_row) : Prop :=
  Forall (waiting (shared w).1) rows ∧ er_event_id <$> rows ⊆ held w.

Lemma fetched_path w w' rows : relay_path w w' → fetched w rows → fetched w' rows.
Proof.
  intros (_ & Hk & Hh) [Hw Hi]. split; [|by etrans].
  rewrite Forall_forall in Hw |- *. intros r Hr. apply Hk; [by apply Hw|].
  apply Hi. by apply (list_elem_of_fmap_2 er_event_id).
Qed.

Lemma quiet_relay_path s s' :
  rtc (λ s s', others s s' ∨ net_quiet s s') s s' → rtc relay_or_others s s'.
Proof.
  induction 1 as [|s1 s2 s3 Hs _ IH]; [done|]. eapply rtc_l; [|done].
  destruct Hs as [Ho|[Ht Hl]]; [by left|right]. destruct s1 as [t1 n1], s2 as [t2 n2].
  simpl in *. subst t2. by apply relay_quiet.
Qed.

Lemma shared_publish_events ctx rows w :
  sound (shared w) → fetched w rows →
  wp (publish_events ctx (RowToOutboxEvent <$> rows)) (λ r w', relay_path w w' ∧
    (∀ tx, session_tx w' tx = session_tx w tx) ∧
    (r = None → Forall (posted_in (shared w').2) rows)) w.
Proof.
  revert w. induction rows as [|row rows IH]; intros w Hsound Hf; cbn [fmap list_fmap publish_events].
  { apply wp_ret. split; [done|]. split; [done|]. by constructor. }
  assert (fetched w rows) as Hfs.
  { destruct Hf as [Hw Hi]. apply Forall_cons in Hw as [_ Hw]. split; [done|]. intros x Hx. apply Hi. by right. }
  destruct (String.eqb_spec (oe_AggregateType (RowToOutboxEvent row)) "") as [Hty|Hty].
  - eapply wp_mono; [by apply IH|]. intros r w' (Hp & Ht & Hr). split; [done|]. split; [done|].
    intros Hn. constructor; [by intros Hne|by apply Hr].
  - apply wp_bind, wp_intro. intros w1 e (n & Ho & Hk & Hh & Ht & Hl)%Publish_shared.
    assert (relay_path w w1 ∧ (e = None → posted_in (shared w1).2 row)) as [Hp1 Hr1].
    { apply quiet_relay_path in Ho. destruct Hf as [Hwr Hi]. apply Forall_cons in Hwr as [Hwr _].
      assert (waiting (shared w1).1 row) as Hw1 by (apply Hk; [done|apply Hi; by left]).
      split; [split; [|done]|].
      - etrans; [done|]. apply rtc_once. right. destruct (shared w1) as [t1 n1]. simpl in *.
        destruct Hl as [Hl|[_ Hl]]; [by eapply relay_publish|by apply relay_quiet].
      - intros -> _. destruct Hl as [-> |[[] _]]; [|done]. apply elem_of_app. right.
        by apply list_elem_of_singleton. }
    destruct e as [e|]; [apply wp_ret; by split_and!|].
    destruct (relay_path_sound _ _ (proj1 Hp1) Hsound) as [Hs1 _].
    eapply wp_mono; [apply IH; [done|by eapply fetched_path]|].
    intros r w' (Hp & Ht' & Hr). split; [by etrans|]. split; [intros tx; by rewrite Ht'|].
    intros Hn. constructor; [|by apply Hr].
    destruct (relay_path_sound _ _ (proj1 Hp) Hs1) as [_ [_ _ Hpre]].
    eapply posted_in_grows; [exact Hpre|]. by apply Hr1.
Qed.

Lemma unpublished_waiting limit skip t rows :
  answers (SelectUnpublished limit) skip t rows → Forall (waiting t) rows.
Proof.
  intros (_ & rest & Hp & _). apply Forall_forall. intros r Hr.
  assert (r ∈ rows ++ rest) as Hin by (apply elem_of_app; by left).
  rewrite Hp in Hin. apply list_elem_of_fmap in Hin as (o & -> & Ho).
  apply list_elem_of_filter in Ho as [[Hpub _] Ho]. unfold waiting, unpublished_row.
  destruct o as [e b]. simpl in *. by subst b.
Qed.

(** The row is in the outbox, marked, and the broker has its message. *)
Definition relayed_row (s : tables * R) (r : event_row) : Prop :=
  {| or_event := r; or_published := true |} ∈ outbox s.1 ∧ posted_in s.2 r.

Lemma relayed_row_later s s' r : later s s' → relayed_row s r → relayed_row s' r.
Proof.
  intros [Hg _ Hl] [Hr Hp]. split; [by eapply published_later|by eapply posted_in_grows].
Qed.

Lemma waiting_relayed t t' rows k r :
  update_published (er_event_id <$> rows) t = Ok (t', k) → waiting t r → r ∈ rows →
  {| or_event := r; or_published := true |} ∈ outbox t'.
Proof.
  intros [= <- _] Hw Hr. simpl. apply list_elem_of_fmap. exists (unpublished_row r).
  split; [|done]. unfold marked. simpl. rewrite bool_decide_true; [done|].
  by apply list_elem_of_fmap_2.
Qed.

(** What a poll leaves behind, in a transaction it has begun; [w2] is the session after
    its query, and [rows] what the query returned. *)
Definition relay_post (batchSize : Z) (tx : Tx) (w : W) (r : option error) (w' : W) : Prop :=
  rtc relay_or_others (shared w) (shared w') ∧
  (r = None → ∃ w2 rows, Tx_Query tx (SelectUnpublished batchSize) w = (w2, Ok (rows, None)) ∧
     answers (SelectUnpublished batchSize) (others_hold w2) (shared w2).1 rows ∧
     Forall (relayed_row (shared w')) rows).

(** The commit of a batch that was published. *)
Lemma relay_commit rows w w' (r : option error) t :
  sound (shared w) → fetched w rows → Forall (posted_in (shared w).2) rows →
  meanwhile w (t, (shared w').2) →
  (replay [UpdatePublished (er_event_id <$> rows)] t = Ok (shared w').1 ∨
   (r ≠ None ∧ (shared w').1 = t)) →
  rtc relay_or_others (shared w) (shared w') ∧ (r = None → Forall (relayed_row (shared w')) rows).
Proof.
  intros Hsound [Hw Hi] Hpost [Ho Hk] Hc.
  destruct (others_sound others_app _ _ Ho Hsound) as [_ [_ _ Hl]]. simpl in Hk, Hl.
  destruct (shared w') as [t' n]. simpl in *.
  assert (Forall (λ r, waiting t r ∧ posted_in n r) rows) as Hall.
  { rewrite Forall_forall in Hw, Hpost |- *. intros r0 Hr. split.
    - apply Hk; [by apply Hw|]. apply Hi. by apply (list_elem_of_fmap_2 er_event_id).
    - by eapply posted_in_grows, Hpost. }
  destruct Hc as [[= Ht]|[Hr ->]].
  - assert (update_published (er_event_id <$> rows) t = Ok (t', Z.of_nat (length
      (List.filter (marked (er_event_id <$> rows)) (outbox t))))) as Hx by (by rewrite <- Ht).
    split.
    + eapply rtc_l; [by left|]. apply rtc_once. right. by eapply relay_mark.
    + intros _. rewrite Forall_forall in Hall |- *. intros r0 Hr.
      destruct (Hall r0 Hr) as [Hwr Hpr]. split; [by eapply waiting_relayed|done].
  - split; [|done]. apply rtc_once. by left.
Qed.

Lemma shared_batch_body batchSize ctx tx w :
  sound (shared w) → session_tx w tx = TxActive [] →
  wp (r ← fetchAndLockUnpublishedInTx tx batchSize;
      match r with
      | Err err => mret (Some (Wrapf "failed to fetch and lock events" err))
      | Ok [] => mret None
      | Ok events =>
          e ← processor ctx events;
          match e with
          | Some err => mret (Some (Wrapf "event processing function failed" err))
          | None =>
              e ← markAsPublishedInTx tx events;
              match e with
              | Some err => mret (Some (Wrapf "failed to mark events as published" err))
              | None => Tx_Commit tx
              end
          end
      end) (relay_post batchSize tx w) w.
Proof.
  intros Hsound Hl.
  apply wp_bind, wp_bind, wp_intro. intros w1 q Hrun. pose proof Hrun as [Hd1 Hq]%shared_Query.
  assert (∀ w2 e, relay_path w1 w2 → relay_post batchSize tx w (Some e) w2) as Hfail.
  { intros w2 e (Hp2 & _). split; [|done].
    etrans; [apply rtc_once; left; by apply drift_others|done]. }
  destruct q as [[rows [e|]]|e]; [by apply wp_ret, wp_ret, Hfail| |by apply wp_ret, wp_ret, Hfail].
  destruct (Hq rows eq_refl) as (log & t & Hl' & Hl1 & Hrep & Hans & Hlk).
  rewrite Hl in Hl'. injection Hl' as <-. simpl in Hrep. injection Hrep as <-.
  assert (∀ r w2, rtc relay_or_others (shared w1) (shared w2) →
    (r = None → Forall (relayed_row (shared w2)) rows) → relay_post batchSize tx w r w2) as Hdone.
  { intros r w2 Hp2 Hr2. split.
    - etrans; [apply rtc_once; left; by apply drift_others|done].
    - intros Hn. exists w1, rows. split_and!; [done..|by apply Hr2]. }
  apply wp_ret. destruct rows as [|row rows]; [apply wp_ret, Hdone; [done|by constructor]|].
  destruct (drift_sound others_app _ _ Hd1 Hsound) as [Hs1 _].
  assert (fetched w1 (row :: rows)) as Hf1 by (split; [by eapply unpublished_waiting|done]).
  cbn [fmap list_fmap]. apply wp_bind.
  eapply wp_mono; [by apply (shared_publish_events ctx (row :: rows))|].
  intros [e|] w2 (Hp2 & Ht2 & Hr2); [by apply wp_ret, Hfail|].
  destruct (relay_path_sound _ _ (proj1 Hp2) Hs1) as [Hs2 _].
  pose proof (fetched_path _ _ _ Hp2 Hf1) as Hf2. specialize (Hr2 eq_refl).
  apply wp_bind. unfold markAsPublishedInTx. apply wp_bind.
  eapply shared_wp_Exec; [|by rewrite Ht2| |].
  - simpl. rewrite <- list_fmap_compose. apply Hf2.
  - intros w3 n Hd3 Hl3. assert (relay_path w1 w3) as Hp3.
    { etrans; [done|]. by apply drift_relay_path. }
    case_decide; apply wp_ret; [|by apply wp_ret, Hfail].
    apply wp_intro. intros w4 r4 (t & Hm & Hc)%shared_Commit.
    destruct (relay_path_sound _ _ (proj1 Hp3) Hs1) as [Hs3 _].
    destruct (relay_commit (row :: rows) w3 w4 r4 t) as [Hp4 Hr4].
    + done.
    + by eapply fetched_path.
    + destruct (drift_sound others_app _ _ Hd3 Hs2) as [_ [_ _ Hpre]].
      eapply Forall_impl; [done|]. intros r. by apply posted_in_grows.
    + done.
    + destruct Hc as [(log & Hl4 & Hrep)|Hc]; [left|by right]. rewrite Hl3 in Hl4.
      injection Hl4 as <-. simpl in Hrep |- *. by rewrite <- list_fmap_compose in Hrep.
    + apply Hdone; [|done]. etrans; [apply Hp3|done].
  - intros w3 e Hd3 _. apply wp_ret, wp_ret, Hfail. etrans; [done|]. by apply drift_relay_path.
Qed.

(** What a poll may come to. *)
Definition poll_post (batchSize : Z) (w : W) (r : option error) (w' : W) : Prop :=
  rtc relay_or_others (shared w) (shared w') ∧
  (r = None → ∃ tx w1 w2 rows, Pool_Begin w = (w1, Ok tx) ∧
     Tx_Query tx (SelectUnpublished batchSize) w1 = (w2, Ok (rows, None)) ∧
     answers (SelectUnpublished batchSize) (others_hold w2) (shared w2).1 rows ∧
     Forall (relayed_row (shared w')) rows).

Lemma shared_processBatch batchSize ctx w :
  sound (shared w) → wp (processBatch batchSize ctx) (poll_post batchSize w) w.
Proof.
  intros Hsound. unfold poll_post.
  apply wp_bind, wp_intro. intros w1 [tx|e] Hbegin; pose proof Hbegin as [Hd1 Hb]%shared_Begin.
  2:{ apply wp_ret. split; [apply rtc_once; left; by apply drift_others|done]. }
  destruct (drift_sound others_app _ _ Hd1 Hsound) as [Hs1 _].
  apply wp_bind. eapply wp_mono; [apply shared_batch_body; [done|by apply Hb]|].
  intros r1 w2 [Hp2 Hr2]. apply wp_bind, wp_intro. intros w3 ? Hrb%shared_Rollback. apply wp_ret.
  destruct (relay_path_sound _ _ Hp2 Hs1) as [Hs2 _].
  destruct (others_sound others_app _ _ Hrb Hs2) as [_ Hl3]. split.
  - etrans; [apply rtc_once; left; by apply drift_others|]. etrans; [done|].
    apply rtc_once. by left.
  - intros (w4 & rows & Hq & Hans & Hall)%Hr2. exists tx, w1, w4, rows. split_and!; [done..|].
    eapply Forall_impl; [done|]. intros row. by apply relayed_row_later.
Qed.
(** C13: relays among other sessions.  However many relays poll the same outbox while
    commands and projections run, and whatever fails, all a poll does is to publish
    events that are waiting at that very moment, never one that another relay has
    marked, and to mark, at once, waiting events that the broker has.  If it returns nil,
    its transaction was begun and its query answered, with the oldest waiting events that
    no other session held then, up to the batch size; and every one of them is marked and
    with the broker. *)
Theorem relay_concurrent batchSize ctx w w' r :
  sound (shared w) → processBatch batchSize ctx w = (w', r) →
  rtc (λ s s', others s s' ∨ relay_step s s') (shared w) (shared w') ∧
  (r = None → ∃ tx w1 w2 rows, Pool_Begin w = (w1, Ok tx) ∧
     Tx_Query tx (SelectUnpublished batchSize) w1 = (w2, Ok (rows, None)) ∧
     answers (SelectUnpublished batchSize) (others_hold w2) (shared w2).1 rows ∧
     Forall (λ row, {| or_event := row; or_published := true |} ∈ outbox (shared w').1 ∧
                    posted_in (shared w').2 row) rows).
Proof.
  intros Hsound Hrun. exact (wp_run _ _ _ _ _ Hrun (shared_processBatch batchSize ctx w Hsound)).
Qed.
End shared_relay.

(** ** The projection *)

Section shared_projection.
Context `{SharedPgx W R} `{!PgCodecSpec} `{MessageLog R Msg} `{SnapshotFrequency}.
Context {pause : W → W → Prop} `{BackoffSpec W pause}.
Implicit Types (w : W) (t : tables) (r : event_row).

(** The other sessions are commands and relays: there is one projection. *)
Hypothesis others_write : ∀ s s', others s s' → rtc write_step s s'.
Hypothesis pause_others : ∀ w w', pause w w' → others (shared w) (shared w').

Definition view_or_others (s s' : tables * R) : Prop := others s s' ∨ view_step s s'.

Lemma write_steps_views (s s' : tables * R) :
  rtc write_step s s' → product_views s'.1 = product_views s.1.
Proof.
  induction 1 as [|s1 s2 s3 Hs _ IH]; [done|]. rewrite IH. destruct Hs as [Hs|Hs].
  - destruct Hs as [newID now c ver p log t t' n _ Hap _].
    by destruct (appended_rows _ _ _ _ _ _ _ Hap) as (row & sn & _ & -> & _).
  - destruct Hs as [| |rows t t' k n _ Hx]; [done..|]. by injection Hx as <- _.
Qed.

Lemma others_views s s' aid : others s s' → view_version s'.1 aid = view_version s.1 aid.
Proof. intros Ho%others_write%write_steps_views. unfold view_version. by rewrite Ho. Qed.

Lemma view_path_sound s s' : rtc view_or_others s s' → sound s → sound s' ∧ later s s'.
Proof.
  intros Hp. apply app_steps_sound. induction Hp as [|s1 s2 s3 [Ho|Hs] _ IH]; [done|..].
  - etrans; [|done]. apply others_write in Ho. clear -Ho.
    induction Ho as [|a b c Hs _ IH]; [done|]. eapply rtc_l; [by left|done].
  - eapply rtc_l; [by right|done].
Qed.

Lemma others_path s s' : others s s' → rtc view_or_others s s'.
Proof. intros Ho. apply rtc_once. by left. Qed.

Lemma shared_view_GetVersion ctx aid (Q : res Z → W → Prop) w :
  (∀ w', others (shared w) (shared w') → Q (Ok (view_version (shared w').1 aid)) w') →
  (∀ w' e, others (shared w) (shared w') → Q (Err e) w') →
  wp (view_GetVersion ctx aid) Q w.
Proof.
  intros Ho He. apply wp_bind, shared_wp_QueryRow.
  - intros w' v rows Hd%drift_others _ Ha. simpl in Ha. apply wp_ret. specialize (Ho w' Hd).
    unfold view_version in Ho. destruct (product_views (shared w').1 !! aid); by simplify_eq.
  - intros w' e Hd%drift_others _ Ha. destruct (errors_is e ErrNoRows); apply wp_ret; [|by apply He].
    specialize (Ho w' Hd). specialize (Ha eq_refl). simpl in Ha. unfold view_version in Ho.
    by destruct (product_views (shared w').1 !! aid).
Qed.

(** The state of the transaction after [MarkAsProcessed] returned nil: the mark is made
    at the commit, or there will be no commit. *)
Definition will_mark (w : W) (tx : Tx) (eid : uuid) : Prop :=
  session_tx w tx = TxAborted ∨ session_tx w tx = TxActive [InsertProcessed eid ProductProjection].

Lemma shared_MarkAsProcessed ctx tx eid w :
  ctx_tx ctx = Some tx → session_tx w tx = TxActive [] →
  wp (MarkAsProcessed ctx eid ProductProjection) (λ res w', drift w w' ∧
    (res = None → will_mark w' tx eid)) w.
Proof.
  intros Hctx Hl. unfold MarkAsProcessed. rewrite Hctx. apply wp_bind.
  eapply shared_wp_Exec; [done|done|..].
  - intros w' n Hd Hl'. apply wp_ret. split; [done|]. intros _. by right.
  - intros w' e Hd Hl'. case_decide as Hu; apply wp_ret; (split; [done|]); [|done].
    intros _. left. by destruct Hl' as [?|[[] _]].
Qed.

(** What an attempt may leave behind. *)
Definition view_post r (w : W) (res : option error) (w' : W) : Prop :=
  rtc view_or_others (shared w) (shared w') ∧
  (res = None → (er_event_id r, ProductProjection) ∈ processed_events (shared w').1).

Lemma mark_commits r w w2 w3 tx t t' n res :
  sound (shared w) → r ∈ event_store (shared w).1 →
  (er_version r ≤ view_version (shared w).1 (er_aggregate_id r) + 1)%Z →
  rtc view_or_others (shared w) (shared w2) → will_mark w2 tx (er_event_id r) →
  commits w2 tx t t' n → others (t', n) (shared w3) → view_post r w res w3.
Proof.
  intros Hsound Hin Hv Hp Hm [[Ho _] (log & Hl & Hrep)] Ho3.
  destruct Hm as [Hm|Hm]; rewrite Hl in Hm; [done|]. injection Hm as ->. simpl in Hrep.
  destruct (insert_processed _ _ t) as [[t1 k]|] eqn:Hx; [|done]. injection Hrep as ->.
  apply insert_processed_mark in Hx as ->.
  assert (rtc view_or_others (shared w) (t, n)) as Hp2 by (etrans; [done|by apply others_path]).
  destruct (view_path_sound _ _ Hp2 Hsound) as [Hs2 [Hg Hvv _]]. simpl in Hg, Hvv.
  assert (view_step (t, n) (mark (er_event_id r) t, n)) as Hstep.
  { apply view_mark; [by eapply elem_of_prefix; [|apply Hg]|].
    specialize (Hvv (er_aggregate_id r)). lia. }
  split.
  - etrans; [done|]. eapply rtc_l; [by right|]. by apply others_path.
  - intros _. destruct (view_step_sound _ _ Hstep Hs2) as [Hs3 _].
    destruct (view_path_sound _ _ (others_path _ _ Ho3) Hs3) as [_ [[_ _ Hmarks _] _ _]].
    apply Hmarks. simpl. set_solver.
Qed.

(** The handler's write, on the pool, to a view whose next version it is. *)
Lemma shared_handler ctx r (Q : option error → W → Prop) w :
  product_row r → r ∈ event_store (shared w).1 → sound (shared w) →
  er_version r = (view_version (shared w).1 (er_aggregate_id r) + 1)%Z →
  (∀ w', rtc view_or_others (shared w) (shared w') → (∀ tx, session_tx w' tx = session_tx w tx) →
     Q None w') →
  wp (ProductProjectionHandler_Handle ctx (RowToOutboxEvent r)) Q w.
Proof.
  intros Hr Hin Hsound Hv HQ. destruct (handler_sends ctx r Hr) as (s & Hs & Hw).
  apply Hw, wp_intro. intros w' res (t & [Ho _] & _ & Ht & Hx)%shared_Pool_Exec. apply HQ; [|done].
  destruct (view_path_sound _ _ (others_path _ _ Ho) Hsound) as [_ [Hg _ _]]. simpl in Hg.
  assert (view_step (t, (shared w').2) (handler_effect r t, (shared w').2)) as Hstep.
  { apply view_write; [by eapply elem_of_prefix; [|apply Hg]|].
    by rewrite (others_views _ _ _ Ho : view_version t _ = _). }
  etrans; [by apply others_path|]. unfold handler_effect in Hstep. rewrite Hs in Hstep.
  destruct (shared w') as [t' n]. simpl in *. destruct Hx as [[k Hx]|[_ ->]]; [|done].
  rewrite Hx in Hstep. apply rtc_once. by right.
Qed.

(** A transaction that marks the event last, whatever it did before on the pool. *)
Lemma shared_marking ctx r body (Q : option error → W → Prop) w :
  sound (shared w) → r ∈ event_store (shared w).1 →
  (er_version r ≤ view_version (shared w).1 (er_aggregate_id r) + 1)%Z →
  (∀ w1 tx, drift w w1 → session_tx w1 tx = TxActive [] →
     wp (body (context_WithTx ctx tx)) (λ res w2, rtc view_or_others (shared w) (shared w2) ∧
       (res = None → will_mark w2 tx (er_event_id r))) w1) →
  (∀ w' res, view_post r w res w' → Q res w') →
  wp (WithTransaction ctx body) Q w.
Proof.
  intros Hsound Hin Hv Hbody HQ. apply shared_WithTransaction.
  - intros w1 e Hd. apply HQ. split; [|done]. by apply others_path, drift_others.
  - intros w1 tx Hd1 Hl1. eapply wp_mono; [by apply Hbody|]. intros res w2 [Hp Hm]. split.
    + intros w3 e Ho3. apply HQ. split; [|done]. etrans; [done|by apply others_path].
    + intros Hn t t' n w3 res' Hc Ho3. apply HQ. by eapply mark_commits; [..|apply Hm|done|done].
Qed.

Lemma shared_operation ctx r w :
  sound (shared w) → r ∈ event_store (shared w).1 →
  wp (operation productProjection ctx (RowToOutboxEvent r)) (view_post r w) w.
Proof.
  intros Hsound Hin. destruct (stored_row _ _ (sound_read _ Hsound) Hin) as [Hr _].
  assert (∀ w' res, view_post r w res w' → view_post r w (Permanent res) w') as Hperm.
  { intros w' [e|] Hp; [|by rewrite (Permanent_nil (pause := pause))].
    rewrite (Permanent_error (pause := pause)). by destruct Hp as [? _]. }
  apply wp_bind, shared_view_GetVersion; [|intros; apply wp_ret; split; [by apply others_path|done]].
  intros w1 Ho1. pose proof (others_path _ _ Ho1) as Hp1.
  destruct (view_path_sound _ _ Hp1 Hsound) as [Hs1 [Hg1 _ _]].
  assert (r ∈ event_store (shared w1).1) as Hin1 by (by eapply elem_of_prefix; [|apply Hg1]).
  destruct Hs1 as [[Hpi1 Hv1] Hob1] eqn:Heq. clear Heq. pose proof (inv_wf _ Hpi1) as Hwf1.
  assert (∀ w' res, view_post r w1 res w' → view_post r w res w') as Hfrom.
  { intros w' res [Hp Hm]. split; [by etrans|done]. }
  simpl oe_Version. simpl oe_AggregateID. rewrite view_version_succ by done.
  destruct (er_version r <=? _)%Z eqn:Hle.
  - apply Z.leb_le in Hle. apply wp_bind, (shared_marking ctx r); [done|done|lia| |].
    + intros w2 tx Hd2 Hl2. eapply wp_mono; [by apply shared_MarkAsProcessed|].
      intros res w3 [Hd3 Hm]. split; [|done]. apply others_path, drift_others. by etrans.
    + intros w2 res Hp2. by apply wp_ret, Hperm, Hfrom.
  - apply Z.leb_gt in Hle. destruct (er_version r =? _)%Z eqn:Heq; simpl negb; cbv iota.
    2:{ apply wp_ret, Hperm. by split. }
    apply Z.eqb_eq in Heq. apply wp_bind, (shared_marking ctx r); [done|done|lia| |].
    + intros w2 tx Hd2 Hl2. apply drift_others in Hd2 as Ho2.
      destruct (view_path_sound _ _ (others_path _ _ Ho2) Hs1) as [Hs2 [Hg2 _ _]].
      apply wp_bind, shared_handler; [done|by eapply elem_of_prefix; [|apply Hg2]|done| |].
      { by rewrite (others_views _ _ _ Ho2). }
      intros w3 Hp3 Ht3. apply wp_bind.
      eapply wp_mono; [apply shared_MarkAsProcessed; [done|by rewrite Ht3]|].
      intros res w4 [Hd4 Hm].
      assert (rtc view_or_others (shared w1) (shared w4)) as Hp4.
      { etrans; [by apply others_path|]. etrans; [done|]. by apply others_path, drift_others. }
      destruct res as [e|]; apply wp_ret; by split.
    + intros w2 res Hp2%Hfrom. destruct res as [e|]; [|by apply wp_ret].
      destruct (errors_is e ContextCanceled); apply wp_ret; [by apply Hperm|done].
Qed.

Lemma shared_product_Handle ctx r w :
  sound (shared w) → r ∈ event_store (shared w).1 →
  wp (Projection_Handle productProjection ctx (RowToOutboxEvent r)) (view_post r w) w.
Proof.
  intros Hsound Hin.
  apply wp_bind, wp_bind, shared_wp_QueryRow.
  2:{ intros w1 e Hd%drift_others _ _. apply wp_ret, wp_ret. split; [by apply others_path|done]. }
  intros w1 a rows Hd%drift_others _ Ha. simpl in Ha. injection Ha as -> _. apply wp_ret.
  case_bool_decide as Hm.
  { apply wp_ret. split; [by apply others_path|done]. }
  apply wp_bind, wp_mono with (P := view_post r w); [|by intros [e|]].
  apply (wp_Retry (pause := pause) (λ w2, rtc view_or_others (shared w) (shared w2)));
    [by apply others_path|].
  intros w2 Hp2. destruct (view_path_sound _ _ Hp2 Hsound) as [Hs2 [Hg2 _ _]].
  eapply wp_mono; [apply shared_operation; [done|by eapply elem_of_prefix; [|apply Hg2]]|].
  intros [e|] w3 [Hp3 Hm3].
  - assert (rtc view_or_others (shared w) (shared w3)) as Hp by (by etrans).
    destruct (errors_as_permanent e); (split; [by split|]).
    + by split.
    + intros w4 Hpa. etrans; [done|]. by apply others_path, pause_others.
  - split; [by etrans|done].
Qed.
(** C14: the projection among other sessions.  While commands and relays run, and
    whatever fails, all that handling the event of a stored row does is to write a view
    whose next version the event is, and to mark events that are at most one version
    ahead of their view; and if it returns nil the event is marked. *)
Theorem projection_concurrent ctx r w w' res :
  sound (shared w) → r ∈ event_store (shared w).1 →
  Projection_Handle productProjection ctx (RowToOutboxEvent r) w = (w', res) →
  rtc (λ s s', others s s' ∨ view_step s s') (shared w) (shared w') ∧
  (res = None → (er_event_id r, ProductProjection) ∈ processed_events (shared w').1).
Proof.
  intros Hsound Hin Hrun.
  exact (wp_run _ _ _ _ _ Hrun (shared_product_Handle ctx r w Hsound Hin)).
Qed.
End shared_projection.
