(* ===== verification/Sessions.v ===== *)
(** * Sessions: the program's operations in sequence, among other sessions

    [Concurrent] treats one call at a time.  Here a session makes any number of them:
    commands, polls of the outbox, deliveries to the product projection and queries, one
    after the other, while other sessions do the same.  The argument is rely-guarantee:
    the session relies on the others to do nothing but steps of [Steps], and is proved to
    do nothing else itself; so the invariant of [Steps] holds of what all of them do to
    an empty database and broker. *)
From stdpp Require Import relations.
From S2P Require Import Prelude GoJson EventSrc Outbox Cqrs Product Sql Pgx PgStores Commands Relay ReadModel.
From S2P Require Import Shared Steps Concurrent.

(** What the goroutines of sample/main.go call; [delivers] says whether this session is
    the one of the projection.  A delivery is of the event of a row stored by then. *)
Inductive session_step `{BrokerShared W R Msg} `{!SnapshotFrequency} `{!Backoff W}
    (delivers : bool) (ctx : context W) : W → W → Prop :=
  | session_command newID now c w w' r :
      command_Handle newID now ctx c w = (w', r) → session_step delivers ctx w w'
  | session_poll batchSize w w' r :
      processBatch batchSize ctx w = (w', r) → session_step delivers ctx w w'
  | session_delivery row w w' r :
      delivers = true → row ∈ event_store (shared w).1 →
      Projection_Handle productProjection ctx (RowToOutboxEvent row) w = (w', r) →
      session_step delivers ctx w w'
  | session_query q w w' r :
      GetProductByIDHandler_Query ctx q w = (w', r) → session_step delivers ctx w w'.

(** The broker has messages of stored events only. *)
Definition stored_messages `{PgCodec} `{MessageLog R Msg} (s : tables * R) : Prop :=
  Forall (λ m, ∃ r, r ∈ event_store s.1 ∧ m = posted (er_aggregate_type r) (RowToOutboxEvent r))
    (logged s.2).

Section message_steps.
Context `{PgCodecSpec} `{MessageLog R Msg} `{SnapshotFrequency}.
Implicit Types (s : tables * R).

Lemma stored_messages_grow s s' :
  event_store s.1 `prefix_of` event_store s'.1 → logged s'.2 = logged s.2 →
  stored_messages s → stored_messages s'.
Proof.
  unfold stored_messages. intros Hp -> Hm. eapply Forall_impl; [done|]. intros m (r & Hr & ->).
  exists r. split; [by eapply elem_of_prefix|done].
Qed.

Lemma waiting_stored t r : products_inv t → waiting t r → r ∈ event_store t.
Proof.
  intros Hinv Hw. pose proof (inv_mirrored _ Hinv) as Hm. unfold mirrored in Hm.
  rewrite <- Hm. by apply (list_elem_of_fmap_2 or_event _ (unpublished_row r)).
Qed.

Lemma app_step_messages s s' : app_step s s' → sound s → stored_messages s → stored_messages s'.
Proof.
  intros Hs Hi. destruct (app_step_sound _ _ Hs Hi) as [_ [[Hpre _ _ _] _ _]].
  destruct Hs as [[Hs|Hs]|Hs]; [destruct Hs|destruct Hs as [r t n n' Hw Hty Hl| |]|destruct Hs];
    try (by apply stored_messages_grow).
  unfold stored_messages. simpl. rewrite Hl. intros Hm. apply Forall_app_2; [done|].
  apply Forall_singleton. exists r. split; [|done]. by apply waiting_stored; [apply Hi|].
Qed.

Lemma app_steps_messages s s' :
  rtc app_step s s' → sound s → stored_messages s → stored_messages s'.
Proof.
  induction 1 as [|s1 s2 s3 Hs _ IH]; intros Hi Hm; [done|]. apply IH.
  - by apply (app_step_sound _ _ Hs Hi).
  - by eapply app_step_messages.
Qed.
End message_steps.

Section sessions.
Context `{BrokerShared W R Msg} `{!PgCodecSpec} `{SnapshotFrequency}.
Context {pause : W → W → Prop} `{BackoffSpec W pause}.
Variable delivers : bool.
Implicit Types (w : W) (ctx : context W).

(** The other sessions are sessions of the same program, and there is one projection:
    if it is this session, the others are commands and relays. *)
Hypothesis others_app : ∀ s s', others s s' → rtc app_step s s'.
Hypothesis one_projection : delivers = true → ∀ s s', others s s' → rtc write_step s s'.
Hypothesis pause_others : ∀ w w', pause w w' → others (shared w) (shared w').

(** What the others do and what a call does itself are steps. *)
Lemma rtc_app_steps (step : tables * R → tables * R → Prop) s s' :
  (∀ a b, step a b → app_step a b) → rtc (λ a b, others a b ∨ step a b) s s' → rtc app_step s s'.
Proof.
  intros Hstep. induction 1 as [|s1 s2 s3 Hs _ IH]; [done|]. etrans; [|done].
  destruct Hs as [Ho|Hs]; [by apply others_app|by apply rtc_once, Hstep].
Qed.

Lemma session_query_steps ctx q w w' r :
  GetProductByIDHandler_Query ctx q w = (w', r) → rtc app_step (shared w) (shared w').
Proof.
  intros Hrun.
  apply (wp_run _ (λ _ w2, rtc app_step (shared w) (shared w2)) _ _ _ Hrun).
  apply wp_bind. unfold GetProductViewByID. apply wp_bind, shared_wp_QueryRow.
  - intros w1 v rows Hd%drift_others%others_app _ _. by repeat (case_match; apply wp_ret).
  - intros w1 e Hd%drift_others%others_app _ _. by repeat (case_match; apply wp_ret).
Qed.

(** The guarantee: whatever its calls return, a session does steps only. *)
Lemma session_step_steps ctx w w' :
  session_step delivers ctx w w' → sound (shared w) → rtc app_step (shared w) (shared w').
Proof.
  intros Hs Hi. destruct Hs as [newID now c w w' r Hrun|n w w' r Hrun|row w w' r Hdel Hin Hrun|q w w' r Hrun].
  - destruct (wp_run _ _ _ _ _ Hrun (shared_command others_app newID now ctx c w Hi))
      as (s & s' & Hs & Hs' & Hss & Hc).
    etrans; [by apply others_app|]. etrans; [|by apply others_app].
    destruct Hc as [[-> _]|(Hn & Hval & ver & p & log & Hap & Hrep)]; [done|].
    destruct s as [t m], s' as [t' m']. simpl in *. subst m'.
    apply rtc_once. left. left. by eapply command_commit.
  - destruct (wp_run _ _ _ _ _ Hrun (shared_processBatch others_app n ctx w Hi)) as [Hp _].
    eapply (rtc_app_steps relay_step); [|done]. intros a b Hab. left. by right.
  - destruct (wp_run _ _ _ _ _ Hrun (shared_product_Handle (pause := pause)
      (one_projection Hdel) pause_others ctx row w Hi Hin)) as [Hp _].
    eapply (rtc_app_steps view_step); [|done]. intros a b Hab. by right.
  - by eapply session_query_steps.
Qed.

Lemma session_steps ctx w w' :
  rtc (session_step delivers ctx) w w' → sound (shared w) → rtc app_step (shared w) (shared w').
Proof.
  induction 1 as [|w1 w2 w3 Hs _ IH]; intros Hi; [done|].
  pose proof (session_step_steps _ _ _ Hs Hi) as Hp. etrans; [done|]. apply IH.
  by apply (app_steps_sound _ _ Hp Hi).
Qed.

(** C16: a session of the application among others.  A session calls the command
    handlers, the relay's poll, the query handler and, if it is the one that runs the
    product projection, the projection, in any order and any number of times, whatever
    fails, while other sessions of the application do the same (commands and relays only,
    if this session has the projection), on a database and a broker that were empty.  Then the session, too, does nothing but the atomic steps of
    commands, relays and the projection; in every state between two calls the streams
    are contiguous and mirrored in the outbox, every view shows an event of its stream,
    the broker has every row marked as published and messages of stored events only; and
    no event, message, mark or published flag is taken back by the calls after, and no
    view moves to an older version. *)
Theorem session_safe ctx w0 w w' :
  (shared w0).1 = empty_tables → logged (shared w0).2 = [] →
  rtc (session_step delivers ctx) w0 w → rtc (session_step delivers ctx) w w' →
  rtc app_step (shared w) (shared w') ∧
  products_inv (shared w).1 ∧ view_ok (shared w).1 ∧
  Forall (λ o, or_published o = true → posted_in (shared w).2 (or_event o)) (outbox (shared w).1) ∧
  Forall (λ m, ∃ r, r ∈ event_store (shared w).1 ∧
                    m = posted (er_aggregate_type r) (RowToOutboxEvent r)) (logged (shared w).2) ∧
  grows (shared w).1 (shared w').1 ∧
  (∀ aid, (view_version (shared w).1 aid ≤ view_version (shared w').1 aid)%Z) ∧
  logged (shared w).2 `prefix_of` logged (shared w').2.
Proof.
  intros Ht Hn Hs Hs'. pose proof (empty_sound (shared w0) Ht) as Hi0.
  assert (stored_messages (shared w0)) as Hm0 by (unfold stored_messages; rewrite Hn; constructor).
  pose proof (session_steps _ _ _ Hs Hi0) as Hp. destruct (app_steps_sound _ _ Hp Hi0) as [Hi _].
  pose proof (app_steps_messages _ _ Hp Hi0 Hm0) as Hm. pose proof (session_steps _ _ _ Hs' Hi) as Hp'.
  destruct (app_steps_sound _ _ Hp' Hi) as [_ [Hg Hv Hl]].
  destruct Hi as [[Hpi Hvo] Ho]. done.
Qed.
End sessions.
