(* ===== verification/Once.v ===== *)
(** * Once: exactly-once processing

    The promise of package [cqrs]: a [Projection] whose handler works in the transaction
    of the context it is given takes effect exactly once for every event, whatever is
    delivered again, retried, fails, or is done by other instances at the same time.
    The handlers are arbitrary; the product's, which writes outside the transaction, is
    not one of them (see ReadModel and Instances for what holds of it). *)
From stdpp Require Import relations.
From S2P Require Import Prelude GoJson EventSrc Outbox Cqrs Sql Pgx PgStores Commands ReadModel.
From S2P Require Import Shared Concurrent.

(** ** The marks statements make *)

Definition mark_of (s : stmt) : option (uuid * string) :=
  match s with
  | InsertProcessed eid sub =>
      match varchar 255 sub with Ok sub => Some (eid, sub) | Err _ => None end
  | _ => None
  end.

Definition marks (log : list stmt) : list (uuid * string) := omap mark_of log.

Section marks.
Context `{PgCodecSpec}.
Implicit Types (t : tables) (log : list stmt).

Lemma marks_app log log' : marks (log ++ log') = marks log ++ marks log'.
Proof. apply omap_app. Qed.

Lemma sql_exec_marks s t t' n :
  sql_exec s t = Ok (t', n) →
  match mark_of s with
  | Some k => (k ∉ processed_events t) ∧ processed_events t' = {[k]} ∪ processed_events t
  | None => processed_events t' = processed_events t
  end.
Proof.
  destruct s as [r|r|r|eid sub|ids|v|v]; simpl; intros Hx.
  - by apply insert_event_Ok in Hx as (? & _ & _ & -> & _).
  - by apply insert_outbox_Ok in Hx as (? & _ & _ & -> & _).
  - by apply insert_snapshot_Ok in Hx as (? & _ & [[_ ->]|(_ & -> & _)]).
  - apply insert_processed_Ok in Hx as (sub' & -> & Hn & ->). done.
  - by injection Hx as <- _.
  - by apply upsert_view_Ok in Hx as (? & ? & _ & -> & _).
  - apply update_view_Ok in Hx as [(_ & -> & _)|(? & ? & ? & _ & _ & _ & -> & _)]; done.
Qed.

(** A transaction that commits marks no event twice and none that is marked. *)
Lemma replay_marks log t t' :
  replay log t = Ok t' →
  NoDup (marks log) ∧ (∀ k, k ∈ marks log → k ∉ processed_events t) ∧
  (∀ k, k ∈ processed_events t' ↔ k ∈ marks log ∨ k ∈ processed_events t).
Proof.
  revert t. induction log as [|s log IH]; intros t; simpl.
  { intros [= <-]. split_and!; [constructor|set_solver|set_solver]. }
  destruct (sql_exec s t) as [[t1 n]|] eqn:Hx; [|done]. intros (Hnd & Hnew & Hend)%IH.
  apply sql_exec_marks in Hx. unfold marks in *. simpl. destruct (mark_of s) as [k|].
  - destruct Hx as [Hk Ht1]. rewrite Ht1 in Hnew, Hend. split_and!.
    + constructor; [|done]. intros Hin. apply (Hnew k Hin). set_solver.
    + intros k' [->|Hk']%elem_of_cons; [done|].
      by apply Hnew, not_elem_of_union in Hk' as [_ ?].
    + intros k'. rewrite Hend, elem_of_cons, elem_of_union, elem_of_singleton. tauto.
  - by rewrite Hx in Hnew, Hend.
Qed.

End marks.

(** ** Handlers that work in their transaction *)

(** What a handler promises: it does nothing but add statements to the transaction of its
    context, and if it returns nil and the transaction has not failed, those it added are
    the ones it [queues] for the event. *)
Class TxHandler {W R} `{Session W R} (handler : context W → OutboxEvent → M W (option error))
    (queues : OutboxEvent → list stmt → Prop) : Prop :=
  tx_handler ctx tx evt log w :
    ctx_tx ctx = Some tx → session_tx w tx = TxActive log →
    wp (handler ctx evt) (λ r w', drift w w' ∧
      (r = None → ∀ log', session_tx w' tx = TxActive log' →
         ∃ l, log' = log ++ l ∧ queues evt l)) w.

(** What a projection needs from the store of its views' versions: to read them. *)
Class ReadsVersions (W R : Type) `{Session W R} `{VersionedStore W (context W)} : Prop :=
  reads_versions ctx aid w w' r : GetVersion ctx aid w = (w', r) → drift w w'.

Section once.
Context `{SharedPgx W R} `{!PgCodecSpec} `{!VersionedStore W (context W)} `{!ReadsVersions W R}.
Context {pause : W → W → Prop} `{BackoffSpec W pause}.
Implicit Types (w : W) (s : tables * R) (t : tables).

(** Nobody takes a mark back, and pauses are for others. *)
Hypothesis others_keep : ∀ s s', others s s' → processed_events s.1 ⊆ processed_events s'.1.
Hypothesis pause_others : ∀ w w', pause w w' → others (shared w) (shared w').

(** [MarkAsProcessed] returned nil: the mark is the last statement, or the transaction has
    failed. *)
Lemma shared_mark_last ctx tx eid sub w :
  ctx_tx ctx = Some tx →
  wp (MarkAsProcessed ctx eid sub) (λ r w', drift w w' ∧
    (r = None → ∀ log', session_tx w' tx = TxActive log' →
       ∃ log, session_tx w tx = TxActive log ∧ log' = log ++ [InsertProcessed eid sub])) w.
Proof.
  intros Hctx. unfold MarkAsProcessed. rewrite Hctx. apply wp_bind, wp_intro.
  intros w' r Hx. apply shared_Exec in Hx as [Hd Hr]; [|done]. destruct r as [n|e].
  - apply wp_ret. split; [done|]. intros _ log' Hl'. destruct Hr as (log & Hl & Hl2).
    exists log. split; [done|congruence].
  - case_decide as Hu; apply wp_ret; (split; [done|]); [|done]. intros _ log' Hl'.
    destruct Hr as [Hr|[[] _]]; [congruence|done].
Qed.

(** Up to what others do, nothing happens or, at once, what [own] allows to happen after
    [s]. *)
Definition at_most (own : tables * R → tables * R → tables → Prop) s s' : Prop :=
  ∃ a b, others s a ∧ (b = a ∨ (b.2 = a.2 ∧ own s a b.1)) ∧ others b s'.

Lemma at_most_others own s s' : others s s' → at_most own s s'.
Proof. intros Ho. exists s, s. split_and!; [done|by left|done]. Qed.

Lemma at_most_trans own s1 s2 s3 :
  (∀ s s' a b, others s s' → own s' a b → own s a b) →
  (∀ s a b s' c d, own s a b → processed_events b ⊆ processed_events c.1 → ¬ own s' c d) →
  at_most own s1 s2 → at_most own s2 s3 → at_most own s1 s3.
Proof.
  intros Hback Hone (a & b & Ha & Hab & Hb) (c & d & Hc & Hcd & Hd).
  destruct Hab as [->|[Hn Hown]].
  - assert (others s1 s2) as Ho by (by etrans).
    exists c, d. split_and!; [by etrans| |done].
    destruct Hcd as [->|[? ?]]; [by left|right; split; [done|by eapply Hback]].
  - exists a, b. split_and!; [done|by right|].
    destruct Hcd as [->|[_ Hown2]]; [by do 2 (etrans; [done|])|].
    exfalso. eapply (Hone _ _ _ _ _ _ Hown); [|exact Hown2]. apply others_keep. by etrans.
Qed.

Section delivery.
Variables (h : Projection W (context W)) (queues : OutboxEvent → list stmt → Prop).
Context `{!TxHandler (handler h) queues}.
Hypothesis fits : varchar 255 (subscriberID h) = Ok (subscriberID h).

Definition event_key (evt : OutboxEvent) : uuid * string := (oe_EventID evt, subscriberID h).
Definition event_mark (evt : OutboxEvent) : stmt := InsertProcessed (oe_EventID evt) (subscriberID h).

(** The commit that is due when the view is at version [v]: the mark alone for an old
    event, the mark after what the handler queued for the next one. *)
Definition due (evt : OutboxEvent) (v : Z) (log : list stmt) : Prop :=
  ((oe_Version evt ≤ v)%Z ∧ log = [event_mark evt]) ∨
  ((v < oe_Version evt)%Z ∧ oe_Version evt = int_add v 1 ∧
   ∃ l, queues evt l ∧ log = l ++ [event_mark evt]).

(** The version is read between [s] and [a]. *)
Definition read_before (ctx : context W) (evt : OutboxEvent) (v : Z) s a : Prop :=
  ∃ w1 w2, others s (shared w1) ∧ GetVersion ctx (oe_AggregateID evt) w1 = (w2, Ok v) ∧
    others (shared w2) a.

Definition delivers ctx evt s a t : Prop :=
  ∃ v log, read_before ctx evt v s a ∧ due evt v log ∧ replay log a.1 = Ok t.

Lemma due_in_marks evt v log : due evt v log → event_key evt ∈ marks log.
Proof.
  assert (event_key evt ∈ marks [event_mark evt]) as Hin.
  { unfold marks. simpl. rewrite fits. by apply list_elem_of_singleton. }
  intros [[_ ->]|(_ & _ & l & _ & ->)]; [done|].
  rewrite marks_app. apply elem_of_app. by right.
Qed.

Lemma due_marks evt v log t t' :
  due evt v log → replay log t = Ok t' →
  (event_key evt ∉ processed_events t) ∧ event_key evt ∈ processed_events t'.
Proof.
  intros Hin%due_in_marks (_ & Hnew & Hend)%replay_marks. split; [by apply Hnew|].
  apply Hend. by left.
Qed.

Lemma delivers_back ctx evt s s' a t :
  others s s' → delivers ctx evt s' a t → delivers ctx evt s a t.
Proof.
  intros Ho (v & log & (w1 & w2 & Ho1 & Hv & Ho2) & Hdue & Hrep). exists v, log.
  split_and!; [|done..]. exists w1, w2. split_and!; [by etrans|done..].
Qed.

Lemma delivers_once ctx evt s a b s' c d :
  delivers ctx evt s a b → processed_events b ⊆ processed_events c.1 → ¬ delivers ctx evt s' c d.
Proof.
  intros (v & log & _ & Hdue & Hrep) Hsub (v' & log' & _ & Hdue' & Hrep').
  destruct (due_marks _ _ _ _ _ Hdue Hrep) as [_ Hin].
  destruct (due_marks _ _ _ _ _ Hdue' Hrep') as [Hn _]. by apply Hn, Hsub.
Qed.

Lemma delivers_trans ctx evt s1 s2 s3 :
  at_most (delivers ctx evt) s1 s2 → at_most (delivers ctx evt) s2 s3 →
  at_most (delivers ctx evt) s1 s3.
Proof. apply at_most_trans; [apply delivers_back|apply delivers_once]. Qed.

(** What a delivery may come to. *)
Definition once_post ctx evt w (r : option error) w' : Prop :=
  at_most (delivers ctx evt) (shared w) (shared w') ∧
  (r = None → event_key evt ∈ processed_events (shared w').1).

Lemma once_post_fail ctx evt w w' e :
  others (shared w) (shared w') → once_post ctx evt w (Some e) w'.
Proof. intros Ho. split; [by apply at_most_others|done]. Qed.

(** A transaction after the version was read: if it commits it is the one that is due. *)
Lemma shared_delivery_tx ctx body evt v (Q : option error → W → Prop) w1 w :
  GetVersion ctx (oe_AggregateID evt) w1 = (w, Ok v) →
  (∀ w2 tx, drift w w2 → session_tx w2 tx = TxActive [] →
     wp (body (context_WithTx ctx tx)) (λ r w3, drift w2 w3 ∧
       (r = None → ∀ log, session_tx w3 tx = TxActive log → due evt v log)) w2) →
  (∀ w' r, once_post ctx evt w1 r w' → Q r w') →
  wp (WithTransaction ctx body) Q w.
Proof.
  intros Hv Hbody HQ. pose proof (drift_others _ _ (reads_versions _ _ _ _ _ Hv)) as Ho1.
  apply (shared_WithTransaction_only _ _ (λ _ t t' _, ∃ log, due evt v log ∧ replay log t = Ok t')).
  - intros w2 tx Hd2 Hl2. eapply wp_mono; [by apply Hbody|]. intros r w3 [Hd3 Hlog].
    split; [done|]. intros Hr t t' n [_ (log & Hl & Hrep)]. exists log.
    split; [by apply Hlog|done].
  - intros w' e Ho. apply HQ, once_post_fail. by etrans.
  - intros w2 w' r t t' n Hd Hm (log & Hdue & Hrep) Ho.
    destruct (drift_meanwhile _ _ _ Hd Hm) as [Ho2 _]. apply HQ. split.
    + exists (t, n), (t', n). split_and!; [by etrans| |done]. right. split; [done|].
      exists v, log. split_and!; [|done..]. by exists w1, w.
    + intros _. apply others_keep in Ho. apply Ho, (due_marks _ _ _ _ _ Hdue Hrep).
Qed.

Lemma shared_mark_only ctx evt v (Q : option error → W → Prop) w1 w :
  GetVersion ctx (oe_AggregateID evt) w1 = (w, Ok v) → (oe_Version evt ≤ v)%Z →
  (∀ w' r, once_post ctx evt w1 r w' → Q r w') →
  wp (WithTransaction ctx (λ txCtx, MarkAsProcessed txCtx (oe_EventID evt) (subscriberID h))) Q w.
Proof.
  intros Hv Hle HQ. eapply (shared_delivery_tx ctx _ evt); [done| |done]. intros w2 tx _ Hl2.
  eapply wp_mono; [by apply (shared_mark_last _ tx)|]. intros r w3 [Hd3 Hm]. split; [done|].
  intros Hr log Hl. destruct (Hm Hr log Hl) as (log0 & Hl0 & ->).
  rewrite Hl2 in Hl0. injection Hl0 as <-. by left.
Qed.

Lemma shared_execute ctx evt v (Q : option error → W → Prop) w1 w :
  GetVersion ctx (oe_AggregateID evt) w1 = (w, Ok v) →
  (v < oe_Version evt)%Z → oe_Version evt = int_add v 1 →
  (∀ w' r, once_post ctx evt w1 r w' → Q r w') →
  wp (WithTransaction ctx (execute h evt)) Q w.
Proof.
  intros Hv Hlt Hnext HQ. eapply (shared_delivery_tx ctx _ evt); [done| |done]. intros w2 tx _ Hl2.
  apply wp_bind. eapply wp_mono; [by apply tx_handler|].
  intros [e|] w3 [Hd3 Hq]; [by apply wp_ret|]. apply wp_bind.
  eapply wp_mono; [by apply (shared_mark_last _ tx)|]. intros r w4 [Hd4 Hm].
  assert (drift w2 w4) as Hd by (by etrans). destruct r as [e|]; apply wp_ret; (split; [done|]); [done|].
  intros _ log Hl. destruct (Hm eq_refl log Hl) as (log0 & Hl0 & ->).
  destruct (Hq eq_refl log0 Hl0) as (l & -> & Hl'). right. split_and!; [done..|]. by exists l.
Qed.

Lemma shared_attempt ctx evt w : wp (operation h ctx evt) (once_post ctx evt w) w.
Proof.
  assert (∀ w' r, once_post ctx evt w r w' → once_post ctx evt w (Permanent r) w') as Hperm.
  { intros w' [e|] Hp; [|by rewrite (Permanent_nil (pause := pause))].
    rewrite (Permanent_error (pause := pause)). split; [apply Hp|done]. }
  apply wp_bind, wp_intro. intros w1 [v|e] Hv.
  2:{ apply reads_versions, drift_others in Hv. by apply wp_ret, once_post_fail. }
  destruct (oe_Version evt <=? v)%Z eqn:Hle.
  - apply Z.leb_le in Hle. eapply wp_bind, shared_mark_only; [done..|].
    intros w2 r Hp. by apply wp_ret, Hperm.
  - apply Z.leb_gt in Hle. destruct (oe_Version evt =? _)%Z eqn:Heq; simpl negb; cbv iota.
    2:{ apply reads_versions, drift_others in Hv. by apply wp_ret, Hperm, once_post_fail. }
    apply Z.eqb_eq in Heq. eapply wp_bind, shared_execute; [done..|].
    intros w2 [e|] Hp; [|by apply wp_ret].
    destruct (errors_is e ContextCanceled); apply wp_ret; [by apply Hperm|done].
Qed.

Lemma shared_Projection_Handle ctx evt w :
  wp (Projection_Handle h ctx evt) (once_post ctx evt w) w.
Proof.
  apply wp_bind, wp_bind, shared_wp_QueryRow.
  2:{ intros w1 e Hd%drift_others _ _. by apply wp_ret, wp_ret, once_post_fail. }
  intros w1 a rows Hd%drift_others _ Ha. simpl in Ha. injection Ha as -> _. apply wp_ret.
  case_bool_decide as Hm.
  { apply wp_ret. split; [by apply at_most_others|done]. }
  apply wp_bind, wp_mono with (P := once_post ctx evt w); [|by intros [e|]].
  apply (wp_Retry (pause := pause) (λ w2, at_most (delivers ctx evt) (shared w) (shared w2)));
    [by apply at_most_others|].
  intros w2 Hp2. eapply wp_mono; [apply shared_attempt|]. intros r w3 [Hp3 Hm3].
  assert (at_most (delivers ctx evt) (shared w) (shared w3)) as Hp by (by eapply delivers_trans).
  destruct r as [e|]; [|by split].
  destruct (errors_as_permanent e); (split; [by split|]); [by split|].
  intros w4 Hpa%pause_others. eapply delivers_trans; [done|by apply at_most_others].
Qed.

(** C17: the contract of a projection.  Whatever fails, is retried, or is done by other
    sessions meanwhile (other instances with the same subscriber included), [Handle]
    commits at most one transaction, at one instant: it marks the event, which nobody has
    marked then, and with the mark it makes what the handler queued for the event, if the
    event was the next version of its view when the version was read, or nothing else,
    if it was old.  If [Handle] returns nil the event is marked. *)
Theorem Projection_Handle_once ctx evt w w' r :
  Projection_Handle h ctx evt w = (w', r) →
  (∃ s s', others (shared w) s ∧ others s' (shared w') ∧
     (s' = s ∨ (s'.2 = s.2 ∧ (event_key evt ∉ processed_events s.1) ∧
        ∃ v log, read_before ctx evt v (shared w) s ∧ due evt v log ∧ replay log s.1 = Ok s'.1))) ∧
  (r = None → event_key evt ∈ processed_events (shared w').1).
Proof.
  intros Hrun. destruct (wp_run _ _ _ _ _ Hrun (shared_Projection_Handle ctx evt w))
    as [(s & s' & Hs & Hss & Hs') Hm]. split; [|done]. exists s, s'. split_and!; [done..|].
  destruct Hss as [->|[Hn (v & log & Hv & Hdue & Hrep)]]; [by left|right].
  split_and!; [done| |by exists v, log]. by destruct (due_marks _ _ _ _ _ Hdue Hrep).
Qed.
End delivery.
End once.

(** ** Any number of deliveries *)

(** Messages handled one after the other, each by the projection it is for. *)
Fixpoint handle_each `{Pgx W} `{VersionedStore W (context W)} `{Backoff W} (ctx : context W)
    (ms : list (Projection W (context W) * OutboxEvent)) : M W (list (option error)) :=
  match ms with
  | [] => mret []
  | (h, evt) :: ms =>
      r ← Projection_Handle h ctx evt;
      rs ← handle_each ctx ms;
      mret (r :: rs)
  end.

Section deliveries.
Context `{SharedPgx W R} `{!PgCodecSpec} `{!VersionedStore W (context W)} `{!ReadsVersions W R}.
Context {pause : W → W → Prop} `{BackoffSpec W pause}.
Implicit Types (w : W) (s : tables * R) (t : tables) (c : option (list stmt)).
#[local] Abbreviation message := (Projection W (context W) * OutboxEvent)%type.

(** What each subscriber's handler queues for an event. *)
Variable queues : string → OutboxEvent → list stmt → Prop.

(** A projection that is one of the subscribers. *)
Definition subscriber (h : Projection W (context W)) : Prop :=
  TxHandler (handler h) (queues (subscriberID h)) ∧
  varchar 255 (subscriberID h) = Ok (subscriberID h).

(** Nobody takes a mark back, and pauses are for others. *)
Hypothesis others_keep : ∀ s s', others s s' → processed_events s.1 ⊆ processed_events s'.1.
Hypothesis pause_others : ∀ w w', pause w w' → others (shared w) (shared w').

(** What a delivery itself does to the shared state at one instant, others having brought
    it from [s0] to [s]: nothing, or the commit of the statements that are due for the
    event, which nobody has marked. *)
Definition own_commit (ctx : context W) (m : message) s0 s c s' : Prop :=
  match c with
  | None => s' = s
  | Some log => s'.2 = s.2 ∧ (event_key m.1 m.2 ∉ processed_events s.1) ∧
      replay log s.1 = Ok s'.1 ∧
      ∃ v, read_before ctx m.2 v s0 s ∧ due m.1 (queues (subscriberID m.1)) m.2 v log
  end.

(** Deliveries one after the other: nothing happens to the shared state but what others do
    and, for each delivery, at most its own commit. *)
Inductive delivered (ctx : context W) :
    tables * R → list message → list (option (list stmt)) → tables * R → Prop :=
  | delivered_none s s' : others s s' → delivered ctx s [] [] s'
  | delivered_next s s1 s2 s3 s' m ms c cs :
      others s s1 → own_commit ctx m s s1 c s2 → others s2 s3 →
      delivered ctx s3 ms cs s' → delivered ctx s (m :: ms) (c :: cs) s'.

(** The marks of a commit. *)
Definition commit_marks c : list (uuid * string) := default [] (marks <$> c).

(** A commit marks its event, and only keys nobody has marked; afterwards they are. *)
Lemma own_commit_marks ctx m s0 s c s' :
  varchar 255 (subscriberID m.1) = Ok (subscriberID m.1) → own_commit ctx m s0 s c s' →
  (is_Some c → event_key m.1 m.2 ∈ commit_marks c) ∧
  (∀ k, k ∈ commit_marks c → k ∉ processed_events s.1) ∧
  (∀ k, k ∈ processed_events s'.1 ↔ k ∈ commit_marks c ∨ k ∈ processed_events s.1).
Proof.
  intros Hfit. destruct c as [log|]; simpl.
  - intros (_ & _ & Hrep & v & _ & Hdue).
    destruct (replay_marks _ _ _ Hrep) as (_ & Hnew & Hend). split_and!; [|done..].
    intros _. by eapply due_in_marks.
  - intros ->. split_and!; [by intros [? ?]|by intros k ?%elem_of_nil|].
    intros k. rewrite elem_of_nil. tauto.
Qed.

Lemma delivered_marks ctx s ms cs s' :
  Forall (λ m, varchar 255 (subscriberID m.1) = Ok (subscriberID m.1)) ms →
  delivered ctx s ms cs s' →
  processed_events s.1 ⊆ processed_events s'.1 ∧
  (∀ i c k, cs !! i = Some c → k ∈ commit_marks c →
     (k ∉ processed_events s.1) ∧ k ∈ processed_events s'.1) ∧
  (∀ i j c d k, cs !! i = Some c → cs !! j = Some d → k ∈ commit_marks c → k ∈ commit_marks d →
     i = j).
Proof.
  intros Hfit Hd. induction Hd as [s s' Ho|s s1 s2 s3 s' m ms c cs Ho1 Hown Ho3 _ IH].
  { split_and!; [by apply others_keep|done|done]. }
  apply Forall_cons in Hfit as [Hm Hfit]. destruct (IH Hfit) as (Hk & Hone & Huniq).
  destruct (own_commit_marks _ _ _ _ _ _ Hm Hown) as (_ & Hnew & Hend).
  apply others_keep in Ho1, Ho3.
  assert (∀ k, k ∈ processed_events s2.1 → k ∈ processed_events s3.1) as H23 by set_solver.
  assert (∀ k, k ∈ processed_events s.1 → k ∈ processed_events s2.1) as H02.
  { intros k Hs. apply Hend. right. by apply Ho1. }
  assert (∀ k, k ∈ commit_marks c → k ∈ processed_events s3.1) as Hc.
  { intros k Hkc. apply H23, Hend. by left. }
  split_and!.
  - intros k Hs. by apply Hk, H23, H02.
  - intros [|i] d k Hi Hkd; simplify_eq/=.
    + split; [|by apply Hk, Hc]. intros Hs. apply (Hnew k Hkd). by apply Ho1.
    + destruct (Hone i d k Hi Hkd) as [Hn Hs']. split; [|done]. intros Hs. by apply Hn, H23, H02.
  - intros [|i] [|j] d e k Hi Hj Hkd Hke; simplify_eq/=; [done|..].
    + destruct (Hone j e k Hj Hke) as [Hn _]. by destruct (Hn (Hc _ Hkd)).
    + destruct (Hone i d k Hi Hkd) as [Hn _]. by destruct (Hn (Hc _ Hke)).
    + f_equal. by eapply Huniq.
Qed.

Lemma delivered_keys ctx s ms cs s' :
  Forall (λ m, varchar 255 (subscriberID m.1) = Ok (subscriberID m.1)) ms →
  delivered ctx s ms cs s' →
  ∀ i m log, ms !! i = Some m → cs !! i = Some (Some log) → event_key m.1 m.2 ∈ marks log.
Proof.
  intros Hfit Hd. induction Hd as [s s' Ho|s s1 s2 s3 s' m ms c cs _ Hown _ _ IH]; [done|].
  apply Forall_cons in Hfit as [Hm Hfit].
  destruct (own_commit_marks _ _ _ _ _ _ Hm Hown) as (Hkey & _).
  intros [|i] m' log Hi Hc; simplify_eq/=; [by apply Hkey|]. by eapply IH.
Qed.

(** All the statements that were committed, in their order. *)
Definition committed_log (cs : list (option (list stmt))) : list stmt := mjoin (default [] <$> cs).

(** When there is nobody else, they are all that happens. *)
Lemma delivered_alone ctx s ms cs s' :
  (∀ a b, others a b → b = a) → delivered ctx s ms cs s' →
  s'.2 = s.2 ∧ replay (committed_log cs) s.1 = Ok s'.1.
Proof.
  intros Halone Hd. induction Hd as [s s' ->%Halone|s s1 s2 s3 s' m ms c cs Ho1 Hown Ho3 _ IH]; [done|].
  apply Halone in Ho1 as ->. apply Halone in Ho3 as ->. destruct IH as [IH2 IH].
  unfold committed_log. simpl. rewrite replay_app. destruct c as [log|]; simpl in *.
  - destruct Hown as (Hn & _ & -> & _). split; [congruence|done].
  - by subst s2.
Qed.

(** A key that others leave alone is marked by one of the commits. *)
Lemma delivered_marked ctx s ms cs s' k :
  Forall (λ m, varchar 255 (subscriberID m.1) = Ok (subscriberID m.1)) ms →
  delivered ctx s ms cs s' →
  (∀ a b, others a b → k ∈ processed_events b.1 → k ∈ processed_events a.1) →
  k ∈ processed_events s'.1 → k ∈ processed_events s.1 ∨ ∃ i c, cs !! i = Some c ∧ k ∈ commit_marks c.
Proof.
  intros Hfit Hd Hleft. induction Hd as [s s' Ho|s s1 s2 s3 s' m ms c cs Ho1 Hown Ho3 _ IH].
  { intros Hk. left. by eapply Hleft. }
  apply Forall_cons in Hfit as [Hm Hfit].
  destruct (own_commit_marks _ _ _ _ _ _ Hm Hown) as (_ & _ & Hend).
  intros [Hk|(i & d & Hi & Hkd)]%IH; [|by right; exists (S i), d|done].
  apply (Hleft _ _ Ho3), Hend in Hk as [Hk|Hk]; [right; by exists 0, c|left].
  by eapply Hleft.
Qed.

Lemma handle_each_delivered ms ctx w w' rs :
  Forall (λ m, subscriber m.1) ms → handle_each ctx ms w = (w', rs) →
  ∃ cs, length cs = length ms ∧ delivered ctx (shared w) ms cs (shared w') ∧
    Forall2 (λ m r, r = None → event_key m.1 m.2 ∈ processed_events (shared w').1) ms rs.
Proof.
  revert w rs. induction ms as [|[h evt] ms IH]; intros w rs Hall; simpl.
  { intros [= <- <-]. exists []. split_and!; [done|by constructor|constructor]. }
  apply Forall_cons in Hall as [[Hh Hfit] Hall]. unfold mbind, M_bind.
  destruct (Projection_Handle h ctx evt w) as [w1 r] eqn:Hr.
  destruct (handle_each ctx ms w1) as [w2 rs'] eqn:Hrs. intros [= <- <-].
  destruct (wp_run _ _ _ _ _ Hr
    (shared_Projection_Handle others_keep pause_others h _ Hfit ctx evt w))
    as [(s & s' & Ho & Hss & Ho') Hm].
  destruct (IH w1 rs' Hall Hrs) as (cs & Hlen & Hd & Hrs2).
  assert (∃ c, own_commit ctx (h, evt) (shared w) s c s') as [c Hc].
  { destruct Hss as [->|[Hn (v & log & Hv & Hdue & Hrep)]]; [by exists None|].
    exists (Some log). split_and!; [done| |done|by exists v].
    by destruct (due_marks h _ Hfit _ _ _ _ _ Hdue Hrep). }
  exists (c :: cs). split_and!; [simpl; by rewrite Hlen|by eapply delivered_next|].
  constructor; [|done]. intros Hn. simpl.
  assert (Forall (λ m : message, varchar 255 (subscriberID m.1) = Ok (subscriberID m.1)) ms) as Hf.
  { eapply Forall_impl; [exact Hall|]. by intros ? [_ ?]. }
  destruct (delivered_marks _ _ _ _ _ Hf Hd) as [Hk _]. by apply Hk, Hm.
Qed.

(** C4: exactly once.  Let messages be delivered to subscribers in any order and any number
    of times, while others do what they like as long as they take no mark back, and let
    anything fail.  Then nothing happens to the database but what the others do and, for
    each delivery, at most one commit at one instant: of what the handler queued for the
    event and the mark, if the event was the next one at the version read before, or of
    the mark alone, if it was old; so when there is nobody else, the tables are exactly
    what these commits, one after the other, make of them.  No two of these commits mark
    the same event for the same subscriber, and none marks what was marked at the start;
    a mark that is there at the end, that was not there at the start and that others do
    not make, was made by one of them; and each delivery that returned nil has its event
    marked. *)
Theorem deliveries_exactly_once ctx ms w w' rs :
  Forall (λ m, subscriber m.1) ms → handle_each ctx ms w = (w', rs) →
  ∃ cs, length cs = length ms ∧ delivered ctx (shared w) ms cs (shared w') ∧
    ((∀ s s', others s s' → s' = s) →
       (shared w').2 = (shared w).2 ∧ replay (committed_log cs) (shared w).1 = Ok (shared w').1) ∧
    (∀ i m log, ms !! i = Some m → cs !! i = Some (Some log) → event_key m.1 m.2 ∈ marks log) ∧
    (∀ i j log log' k, cs !! i = Some (Some log) → cs !! j = Some (Some log') →
       k ∈ marks log → k ∈ marks log' → i = j) ∧
    (∀ i log k, cs !! i = Some (Some log) → k ∈ marks log → k ∉ processed_events (shared w).1) ∧
    (∀ k, (∀ s s', others s s' → k ∈ processed_events s'.1 → k ∈ processed_events s.1) →
       k ∉ processed_events (shared w).1 → k ∈ processed_events (shared w').1 →
       ∃ i log, cs !! i = Some (Some log) ∧ k ∈ marks log) ∧
    Forall2 (λ m r, r = None → event_key m.1 m.2 ∈ processed_events (shared w').1) ms rs.
Proof.
  intros Hall Hrun. destruct (handle_each_delivered _ _ _ _ _ Hall Hrun) as (cs & Hlen & Hd & Hrs).
  assert (Forall (λ m : message, varchar 255 (subscriberID m.1) = Ok (subscriberID m.1)) ms) as Hf.
  { eapply Forall_impl; [exact Hall|]. by intros ? [_ ?]. }
  destruct (delivered_marks _ _ _ _ _ Hf Hd) as (_ & Hone & Huniq).
  exists cs. split_and!;
    [done|done|intros Halone; by eapply delivered_alone|by eapply delivered_keys|..|done].
  - intros i j log log' k Hi Hj Hk Hk'. by eapply (Huniq i j (Some log) (Some log')).
  - intros i log k Hi Hk. by eapply (Hone i (Some log)).
  - intros k Hleft Hn Hend.
    destruct (delivered_marked _ _ _ _ _ _ Hf Hd Hleft Hend) as [?|(i & [log|] & Hi & Hk)]; [done| |].
    + by exists i, log.
    + by apply elem_of_nil in Hk.
Qed.
End deliveries.

(** ** When nothing fails *)

(** The tables with one more mark. *)
Definition with_mark (k : uuid * string) (t : tables) : tables :=
  set_processed_events ({[k]} ∪ processed_events t) t.

Section progress.
Context `{PgxReliable W R} `{!PgCodecSpec} `{!VersionedStore W (context W)}.
Context {pause : W → W → Prop} `{BackoffSpec W pause}.
Implicit Types (w : W) (t : tables).
Variable h : Projection W (context W).
Hypothesis fits : varchar 255 (subscriberID h) = Ok (subscriberID h).

Lemma wp_mark_fits ctx tx eid t (Q : option error → W → Prop) w :
  ctx_tx ctx = Some tx → active w tx t → (eid, subscriberID h) ∉ processed_events t →
  (∀ w', still w w' → active w' tx (with_mark (eid, subscriberID h) t) → Q None w') →
  wp (MarkAsProcessed ctx eid (subscriberID h)) Q w.
Proof.
  intros Hctx Ha Hn HQ. unfold MarkAsProcessed. rewrite Hctx.
  apply wp_bind. eapply wp_Exec_reliable; [done|]. intros w' Hs.
  unfold sql_exec, insert_processed. rewrite fits. cbv iota beta.
  rewrite decide_False by done. intros Ha'. by apply wp_ret, HQ.
Qed.

Lemma wp_IsProcessed_fresh ctx eid (Q : res bool → W → Prop) w :
  (eid, subscriberID h) ∉ processed_events (committed w) →
  (∀ w', still w w' → Q (Ok false) w') → wp (IsProcessed ctx eid (subscriberID h)) Q w.
Proof.
  intros Hn HQ. apply wp_bind, wp_Pool_QueryRow_reliable; [done| |by intros w1 _ _ Ha].
  intros w1 a rows Hs _ Ha. simpl in Ha. injection Ha as -> _.
  apply wp_ret. rewrite bool_decide_false by done. by apply HQ.
Qed.

(** C18: at least once.  When nothing fails, a new event that is the next version of its view
    is processed at its first delivery: [Handle] returns nil, and the tables are those
    the handler has led to in its transaction, with the event marked. *)
Theorem Projection_Handle_applies ctx evt v t w w' r :
  let k := (oe_EventID evt, subscriberID h) in
  (k ∉ processed_events (committed w)) → (k ∉ processed_events t) →
  (v < oe_Version evt)%Z → oe_Version evt = int_add v 1 →
  (∀ w1, still w w1 →
     wp (GetVersion ctx (oe_AggregateID evt)) (λ r w2, r = Ok v ∧ still w1 w2) w1) →
  (∀ w1 tx, still w w1 → active w1 tx (committed w) →
     wp (handler h (context_WithTx ctx tx) evt)
       (λ r w2, r = None ∧ still w1 w2 ∧ active w2 tx t) w1) →
  Projection_Handle h ctx evt w = (w', r) →
  r = None ∧ rest w' = rest w ∧ committed w' = with_mark k t.
Proof.
  intros k Hn Hnt Hlt Hnext Hver Hh Hrun. wp_start Hrun.
  apply wp_bind, wp_IsProcessed_fresh; [done|]. intros w1 Hs1. apply wp_bind.
  eapply wp_mono with (P := λ r w', r = None ∧ rest w' = rest w ∧ committed w' = with_mark k t);
    [|intros r0 w0 (-> & Hr0 & Hc0); by apply wp_ret].
  apply (wp_Retry (pause := pause) (λ w2, w2 = w1)); [done|]. intros ? ->.
  apply wp_bind. eapply wp_mono; [by apply Hver|]. intros r2 w2 [-> Hs2].
  replace (oe_Version evt <=? v)%Z with false by lia.
  replace (oe_Version evt =? int_add v 1)%Z with true by lia. simpl negb. cbv iota.
  apply wp_bind. unfold Transactor_WithTransaction, DB_Transactor.
  assert (still w w2) as Hs by (by etrans).
  apply wp_WithTransaction_reliable. intros w3 tx Hs3 Ha3 _.
  rewrite (still_committed _ _ Hs) in Ha3.
  apply wp_bind. eapply wp_mono; [apply Hh; [by etrans|done]|]. intros r4 w4 (-> & Hs4 & Ha4).
  apply wp_bind. eapply wp_mark_fits; [done..|]. intros w5 Hs5 Ha5. apply wp_ret.
  exists (with_mark k t). split; [done|]. intros w6 Hc6 Hr6. apply wp_ret. split_and!; [done| |done].
  destruct Hs, Hs3, Hs4, Hs5. congruence.
Qed.
End progress.

(** ** A handler that saves an aggregate *)

(** A process manager: it answers an event by saving an aggregate, in the transaction. *)
Section reaction.
Context `{SharedPgx W R} {E T : Type} `{Event E} `{Aggregate E T}.
Variables (freq : Z) (react : OutboxEvent → T).
Hypothesis reacts : ∀ evt, GetUncommittedEvents (react evt) ≠ [].

Definition save_reaction (ctx : context W) (evt : OutboxEvent) : M W (option error) :=
  EventStore_Save freq ctx (react evt).

#[export] Instance save_reaction_TxHandler :
  TxHandler save_reaction (λ evt, save_log freq (react evt)).
Proof.
  intros ctx tx evt log w Hctx Hl. apply (shared_EventStore_Save freq ctx tx); auto.
Qed.
End reaction.

(** The product views' versions are read with one statement. *)
#[export] Instance ProductViewRepository_ReadsVersions `{SharedPgx W R} : ReadsVersions W R.
Proof.
  intros ctx aid w w' r Hrun. change (drift w w'). wp_start Hrun. unfold GetVersion. simpl.
  apply wp_bind, shared_wp_QueryRow.
  - intros w1 v rows Hd _ _. by apply wp_ret.
  - intros w1 e Hd _ _. destruct (errors_is e ErrNoRows); by apply wp_ret.
Qed.
