(* ===== verification/Instances.v ===== *)
(** * Instances: several instances of the projection on one read model

    The projection's write of a view is neither part of its transaction nor conditional
    on the view's version, so that with several instances an older version can overwrite
    a newer one ([late_view_write] in ReadModel).  This file proves what is kept all the
    same, whatever number of instances, relays and commands run at the same time. *)
From stdpp Require Import relations.
From S2P Require Import Prelude GoJson EventSrc Outbox Cqrs Product Sql Pgx PgStores Commands Relay ReadModel.
From S2P Require Import Shared Steps Concurrent.

Section any_steps.
Context `{PgCodec} `{MessageLog R Msg} `{SnapshotFrequency}.
Implicit Types (t : tables) (r : event_row) (n : R) (s : tables * R).

(** What instances of the projection do, whatever they have read before: they write the
    view of a stored event, and mark one. *)
Inductive instance_step : tables * R → tables * R → Prop :=
  | instance_write r t n :
      r ∈ event_store t → instance_step (t, n) (handler_effect r t, n)
  | instance_mark r t n :
      r ∈ event_store t → instance_step (t, n) (mark (er_event_id r) t, n).

Definition any_step s s' : Prop := write_step s s' ∨ instance_step s s'.

(** What is never taken back, even so: everything but the views' versions. *)
Record held_on s s' : Prop := {
  held_tables : grows s.1 s'.1;
  held_log : logged s.2 `prefix_of` logged s'.2;
}.

#[export] Instance held_on_preorder : PreOrder held_on.
Proof.
  split; [intros s; split; [reflexivity|done]|].
  intros s1 s2 s3 [Ht Hl] [Ht' Hl']. split; by etrans.
Qed.
End any_steps.

Section any_step_lemmas.
Context `{PgCodecSpec} `{MessageLog R Msg} `{SnapshotFrequency}.
Implicit Types (t : tables) (r : event_row) (n : R) (s : tables * R).

Lemma instance_step_sound s s' : instance_step s s' → sound s → sound s' ∧ held_on s s'.
Proof.
  intros Hs [Hr Ho]. destruct Hs as [r t n Hin|r t n Hin]; simpl in *.
  - destruct (stored_row _ _ Hr Hin) as [Hpr _].
    destruct (handler_effect_same r t Hpr) as (He & Hob & _ & Hm & _).
    split; split; simpl; [by apply handler_effect_keeps|by rewrite Hob| |done].
    split; rewrite ?He, ?Hob, ?Hm; try done. intros i o Hi. by exists o.
  - destruct (mark_read_inv (er_event_id r) t Hr) as [Hr' Hg].
    split; split; simpl; try done. split; simpl; try done; [set_solver|eauto].
Qed.

Lemma any_step_sound s s' : any_step s s' → sound s → sound s' ∧ held_on s s'.
Proof.
  intros [[Hs|Hs]|Hs] Hi; [..|by apply instance_step_sound].
  - destruct (command_step_sound _ _ Hs Hi) as [? [? _ ?]]. split; [done|by split].
  - destruct (relay_step_sound _ _ Hs Hi) as [? [? _ ?]]. split; [done|by split].
Qed.

Lemma any_steps_sound s s' : rtc any_step s s' → sound s → sound s' ∧ held_on s s'.
Proof.
  induction 1 as [|s1 s2 s3 Hs _ IH]; intros Hi; [done|].
  destruct (any_step_sound _ _ Hs Hi) as [Hi2 Hl2]. destruct (IH Hi2) as [Hi3 Hl3].
  split; [done|by etrans].
Qed.
End any_step_lemmas.

Section instances.
Context `{SharedPgx W R} `{!PgCodecSpec} `{MessageLog R Msg} `{SnapshotFrequency}.
Context {pause : W → W → Prop} `{BackoffSpec W pause}.
Implicit Types (w : W) (t : tables) (r : event_row).

(** The other sessions are commands, relays and instances of the projection. *)
Hypothesis others_any : ∀ s s', others s s' → rtc any_step s s'.
Hypothesis pause_others : ∀ w w', pause w w' → others (shared w) (shared w').

Definition instance_or_others (s s' : tables * R) : Prop := others s s' ∨ instance_step s s'.

Lemma instance_path_sound s s' : rtc instance_or_others s s' → sound s → sound s' ∧ held_on s s'.
Proof.
  intros Hp. apply any_steps_sound. induction Hp as [|s1 s2 s3 [Ho|Hs] _ IH]; [done|..].
  - etrans; [by apply others_any|done].
  - eapply rtc_l; [by right|done].
Qed.

Lemma others_instance_path s s' : others s s' → rtc instance_or_others s s'.
Proof. intros Ho. apply rtc_once. by left. Qed.

(** A stored event, on the way. *)
Definition at_event w r : Prop := sound (shared w) ∧ r ∈ event_store (shared w).1.

Lemma at_event_path w r s :
  at_event w r → rtc instance_or_others (shared w) s → sound s ∧ r ∈ event_store s.1.
Proof.
  intros [Hs Hin] Hp. destruct (instance_path_sound _ _ Hp Hs) as [Hs' [[Hg _ _ _] _]].
  split; [done|by eapply elem_of_prefix].
Qed.

(** What an attempt may leave behind. *)
Definition instance_post r w (res : option error) w' : Prop :=
  rtc instance_or_others (shared w) (shared w') ∧
  (res = None → (er_event_id r, ProductProjection) ∈ processed_events (shared w').1).

Lemma instance_mark_commits r w w2 w3 tx t t' n res :
  at_event w r → rtc instance_or_others (shared w) (shared w2) →
  will_mark w2 tx (er_event_id r) → commits w2 tx t t' n → others (t', n) (shared w3) →
  instance_post r w res w3.
Proof.
  intros Hat Hp Hm [[Ho _] (log & Hl & Hrep)] Ho3.
  destruct Hm as [Hm|Hm]; rewrite Hl in Hm; [done|]. injection Hm as ->. simpl in Hrep.
  destruct (insert_processed _ _ t) as [[t1 k]|] eqn:Hx; [|done]. injection Hrep as ->.
  apply insert_processed_mark in Hx as ->.
  assert (rtc instance_or_others (shared w) (t, n)) as Hp2.
  { etrans; [done|by apply others_instance_path]. }
  destruct (at_event_path _ _ _ Hat Hp2) as [Hs2 Hin2].
  assert (instance_step (t, n) (mark (er_event_id r) t, n)) as Hstep by by apply instance_mark.
  split.
  - etrans; [done|]. eapply rtc_l; [by right|]. by apply others_instance_path.
  - intros _. destruct (instance_step_sound _ _ Hstep Hs2) as [Hs3 _].
    destruct (instance_path_sound _ _ (others_instance_path _ _ Ho3) Hs3) as [_ [[_ _ Hmarks _] _]].
    apply Hmarks. simpl. set_solver.
Qed.

(** The handler's write, on the pool, whatever the view has become. *)
Lemma instance_handler ctx r (Q : option error → W → Prop) w :
  at_event w r →
  (∀ w', rtc instance_or_others (shared w) (shared w') →
     (∀ tx, session_tx w' tx = session_tx w tx) → Q None w') →
  wp (ProductProjectionHandler_Handle ctx (RowToOutboxEvent r)) Q w.
Proof.
  intros Hat HQ. pose proof Hat as [Hsound Hin].
  destruct (stored_row _ _ (sound_read _ Hsound) Hin) as [Hr _].
  destruct (handler_sends ctx r Hr) as (s & Hs & Hw).
  apply Hw, wp_intro. intros w' res (t & [Ho _] & _ & Ht & Hx)%shared_Pool_Exec. apply HQ; [|done].
  apply others_instance_path in Ho as Hp. destruct (at_event_path _ _ _ Hat Hp) as [_ Hin2].
  assert (instance_step (t, (shared w').2) (handler_effect r t, (shared w').2)) as Hstep.
  { by apply instance_write. }
  etrans; [done|]. unfold handler_effect in Hstep. rewrite Hs in Hstep.
  destruct (shared w') as [t' n]. simpl in *. destruct Hx as [[k Hx]|[_ ->]]; [|done].
  rewrite Hx in Hstep. apply rtc_once. by right.
Qed.

(** A transaction that marks the event last. *)
Lemma instance_marking ctx r body (Q : option error → W → Prop) w :
  at_event w r →
  (∀ w1 tx, drift w w1 → session_tx w1 tx = TxActive [] →
     wp (body (context_WithTx ctx tx)) (λ res w2, rtc instance_or_others (shared w) (shared w2) ∧
       (res = None → will_mark w2 tx (er_event_id r))) w1) →
  (∀ w' res, instance_post r w res w' → Q res w') →
  wp (WithTransaction ctx body) Q w.
Proof.
  intros Hat Hbody HQ. apply shared_WithTransaction.
  - intros w1 e Hd. apply HQ. split; [|done]. by apply others_instance_path, drift_others.
  - intros w1 tx Hd1 Hl1. eapply wp_mono; [by apply Hbody|]. intros res w2 [Hp Hm]. split.
    + intros w3 e Ho3. apply HQ. split; [|done]. etrans; [done|by apply others_instance_path].
    + intros Hn t t' n w3 res' Hc Ho3. apply HQ. by eapply instance_mark_commits; [..|apply Hm|done|done].
Qed.

Lemma instance_operation ctx r w :
  at_event w r → wp (operation productProjection ctx (RowToOutboxEvent r)) (instance_post r w) w.
Proof.
  intros Hat.
  assert (∀ w' res, instance_post r w res w' → instance_post r w (Permanent res) w') as Hperm.
  { intros w' [e|] Hp; [|by rewrite (Permanent_nil (pause := pause))].
    rewrite (Permanent_error (pause := pause)). by destruct Hp as [? _]. }
  apply wp_bind, shared_view_GetVersion;
    [|intros; apply wp_ret; split; [by apply others_instance_path|done]].
  intros w1 Ho1. pose proof (others_instance_path _ _ Ho1) as Hp1.
  pose proof (at_event_path _ _ _ Hat Hp1) as Hat1.
  assert (∀ w' res, instance_post r w1 res w' → instance_post r w res w') as Hfrom.
  { intros w' res [Hp Hm]. split; [by etrans|done]. }
  destruct (oe_Version _ <=? _)%Z.
  - apply wp_bind, (instance_marking ctx r); [done| |].
    + intros w2 tx Hd2 Hl2. eapply wp_mono; [by apply shared_MarkAsProcessed|].
      intros res w3 [Hd3 Hm]. split; [|done]. apply others_instance_path, drift_others. by etrans.
    + intros w2 res Hp2. by apply wp_ret, Hperm, Hfrom.
  - destruct (negb _); [by apply wp_ret, Hperm|].
    apply wp_bind, (instance_marking ctx r); [done| |].
    + intros w2 tx Hd2 Hl2. apply drift_others, others_instance_path in Hd2 as Hp2.
      apply wp_bind, instance_handler; [by apply (at_event_path w1)|].
      intros w3 Hp3 Ht3. apply wp_bind.
      eapply wp_mono; [apply shared_MarkAsProcessed; [done|by rewrite Ht3]|].
      intros res w4 [Hd4 Hm].
      assert (rtc instance_or_others (shared w1) (shared w4)) as Hp4.
      { etrans; [done|]. etrans; [done|]. by apply others_instance_path, drift_others. }
      destruct res as [e|]; apply wp_ret; by split.
    + intros w2 res Hp2%Hfrom. destruct res as [e|]; [|by apply wp_ret].
      destruct (errors_is e ContextCanceled); apply wp_ret; [by apply Hperm|done].
Qed.

(** C15: several instances.  While other instances of the projection, relays and commands run,
    and whatever fails, handling the event of a stored row leaves every view on an event
    of its own stream, the streams contiguous and mirrored in the outbox, and the broker
    with every row marked as published; no event, mark or message is taken back; and if
    it returns nil the event is marked.  Only that views do not go back is lost. *)
Theorem projection_instances ctx r w w' res :
  sound (shared w) → r ∈ event_store (shared w).1 →
  Projection_Handle productProjection ctx (RowToOutboxEvent r) w = (w', res) →
  read_inv (shared w').1 ∧
  Forall (λ o, or_published o = true → posted_in (shared w').2 (or_event o)) (outbox (shared w').1) ∧
  grows (shared w).1 (shared w').1 ∧ logged (shared w).2 `prefix_of` logged (shared w').2 ∧
  (res = None → (er_event_id r, ProductProjection) ∈ processed_events (shared w').1).
Proof.
  intros Hsound Hin Hrun. assert (at_event w r) as Hat by done.
  assert (instance_post r w res w') as [Hp Hm].
  { wp_start Hrun. apply wp_bind, wp_bind, shared_wp_QueryRow.
    2:{ intros w1 e Hd%drift_others _ _. apply wp_ret, wp_ret. split; [by apply others_instance_path|done]. }
    intros w1 a rows Hd%drift_others _ Ha. simpl in Ha. injection Ha as -> _. apply wp_ret.
    case_bool_decide as Hm; [apply wp_ret; split; [by apply others_instance_path|done]|].
    apply wp_bind, wp_mono with (P := instance_post r w); [|by intros [e|]].
    apply (wp_Retry (pause := pause) (λ w2, rtc instance_or_others (shared w) (shared w2)));
      [by apply others_instance_path|].
    intros w2 Hp2. eapply wp_mono; [by apply instance_operation, (at_event_path w)|].
    intros res2 w3 [Hp3 Hm3]. assert (rtc instance_or_others (shared w) (shared w3)) as Hp by (by etrans).
    destruct res2 as [e|]; [|by split].
    destruct (errors_as_permanent e); (split; [by split|]); [by split|].
    intros w4 Hpa. etrans; [done|]. by apply others_instance_path, pause_others. }
  destruct (instance_path_sound _ _ Hp Hsound) as [[Hr Ho] [Hg Hl]]. done.
Qed.
End instances.
