(* ===== verification/TestUtil.v ===== *)
(** * TestUtil: package [testutil]

    The [VersionedRepository] the integration tests use as the store of view versions,
    the event they put into the outbox, and the helper that empties tables.  The table
    [versioned_views] is not in the schema: the repository creates it; its two statements
    and TRUNCATE are calls of their own here.  The suite starts a container and opens a
    pool; testcontainers is a class of calls. *)
From S2P Require Import Prelude GoJson EventSrc Cqrs Main.

(** ** testutil/versioned_store.go *)

(** [pool.Exec] of CREATE TABLE IF NOT EXISTS versioned_views, and [pool.QueryRow] of
    SELECT version FROM versioned_views WHERE id = $1. *)
Class VersionedViews (W : Type) := {
  Exec_CreateVersionedViews : M W (option error);
  QueryRow_VersionedView : uuid → M W (res Z);
}.

Section versioned_repository.
Context {W : Type} `{VersionedViews W}.

Definition CreateTable : M W (option error) :=
  err ← Exec_CreateVersionedViews;
  match err with
  | Some err => mret (Some err)
  | None => mret None
  end.

Definition versioned_GetVersion {C} (ctx : C) (aggregateID : uuid) : M W (res Z) :=
  r ← QueryRow_VersionedView aggregateID;
  match r with
  | Err err =>
      if errors_is err ErrNoRows then mret (Ok 0%Z)
      else mret (Err (Wrapf "failed to get versioned view version" err))
  | Ok version => mret (Ok version)
  end.
End versioned_repository.

(** It is a [VersionedStore] (named where it is used: main.go has another one). *)
Definition VersionedRepository {W C} `{VersionedViews W} : VersionedStore W C :=
  {| GetVersion := versioned_GetVersion |}.

(** What PostgreSQL promises of the two statements; the table may not exist yet. *)
Class VersionedViewsSpec (W : Type) `{VersionedViews W} := {
  versioned_views : W → option (gmap uuid Z);
  Exec_CreateVersionedViews_spec w w' r :
    Exec_CreateVersionedViews w = (w', r) →
    versioned_views w' = Some (default ∅ (versioned_views w)) ∨
    (r ≠ None ∧ versioned_views w' = versioned_views w);
  QueryRow_VersionedView_spec aid w w' r :
    QueryRow_VersionedView aid w = (w', r) →
    versioned_views w' = versioned_views w ∧
    match r with
    | Ok v => ∃ m, versioned_views w = Some m ∧ m !! aid = Some v
    | Err e => errors_is e ErrNoRows = true → ∃ m, versioned_views w = Some m ∧ m !! aid = None
    end;
}.

Section versioned_theorems.
Context `{VersionedViewsSpec W}.
Implicit Types (w : W).

(** The version of a view, 0 if it does not exist. *)
Lemma versioned_GetVersion_reads {C} (ctx : C) aid w w' v :
  versioned_GetVersion ctx aid w = (w', Ok v) →
  versioned_views w' = versioned_views w ∧
  ∃ m, versioned_views w = Some m ∧ v = default 0%Z (m !! aid).
Proof.
  intros Hrun. unfold versioned_GetVersion, mbind, M_bind, mret, M_ret in Hrun.
  destruct (QueryRow_VersionedView aid w) as [w1 r] eqn:Hq.
  apply QueryRow_VersionedView_spec in Hq as [Hv Hr]. destruct r as [v'|e].
  - injection Hrun as <- <-. destruct Hr as (m & Hm & Hl). split; [done|]. exists m. by rewrite Hl.
  - destruct (errors_is e ErrNoRows); simplify_eq/=. destruct (Hr eq_refl) as (m & Hm & Hl).
    split; [done|]. exists m. by rewrite Hl.
Qed.

(** Creating the table again changes nothing. *)
Lemma CreateTable_idempotent w w1 w2 r :
  CreateTable w = (w1, None) → CreateTable w1 = (w2, r) → versioned_views w2 = versioned_views w1.
Proof.
  unfold CreateTable, mbind, M_bind, mret, M_ret. intros H1 H2.
  destruct (Exec_CreateVersionedViews w) as [w1' r1] eqn:Hx1. destruct r1; simplify_eq/=.
  destruct (Exec_CreateVersionedViews w1) as [w2' r2] eqn:Hx2.
  apply Exec_CreateVersionedViews_spec in Hx1 as [Hx1|[[] _]]; [|done].
  apply Exec_CreateVersionedViews_spec in Hx2.
  assert (w2' = w2) as <- by (destruct r2; congruence).
  destruct Hx2 as [Hx2|[_ Hx2]]; rewrite Hx2, ?Hx1; done.
Qed.
End versioned_theorems.

(** ** testutil/event.go *)

Record ProductCreated := {
  pc_BaseEvent : BaseEvent;
  pc_Name : string;
  pc_Price : float64;
}.

Definition ProductCreated_EventType (e : ProductCreated) : string := "ProductCreated".

Definition ProductCreated_Marshal (e : ProductCreated) : res json :=
  enc_object (BaseEvent_fields (pc_BaseEvent e) ++
              [("name", enc (pc_Name e)); ("price", enc (pc_Price e))]).

Definition ProductCreated_Unmarshal (j : json) (e : ProductCreated) : res ProductCreated :=
  match j with
  | JObject fs =>
      match BaseEvent_read fs (pc_BaseEvent e), dec_field "name" (pc_Name e) fs,
            dec_field "price" (pc_Price e) fs with
      | Ok b, Ok n, Ok p => Ok {| pc_BaseEvent := b; pc_Name := n; pc_Price := p |}
      | Err err, _, _ | _, Err err, _ | _, _, Err err => Err err
      end
  | _ => Err (ErrorString "json: cannot unmarshal value")
  end.

#[export] Instance ProductCreated_Event : Event ProductCreated := {|
  EventID e := ID (pc_BaseEvent e);
  AggregateID e := AggID (pc_BaseEvent e);
  AggregateType e := AggType (pc_BaseEvent e);
  EventType := ProductCreated_EventType;
  Version e := Ver (pc_BaseEvent e);
  Timestamp e := Ts (pc_BaseEvent e);
  event_Marshal := ProductCreated_Marshal;
  event_Unmarshal := ProductCreated_Unmarshal;
|}.

(** ** testutil/db_util.go *)

(** [pool.Exec] of TRUNCATE TABLE name RESTART IDENTITY. *)
Class Truncates (W : Type) := Exec_Truncate : string → M W (option error).

(** The loop stops the test at the first table that cannot be emptied. *)
Fixpoint TruncateTables {W} `{Truncates W} (tables : list string) : M W (outcome unit) :=
  match tables with
  | [] => mret (Returned tt)
  | table :: tables =>
      err ← Exec_Truncate table;
      match err with
      | Some _ => mret (Panicked "failed to truncate table")
      | None => TruncateTables tables
      end
  end.

(** What the suite asks for, and testcontainers. *)
Record container_request := {
  cr_image : string;
  cr_database : string;
  cr_username : string;
  cr_password : string;
  cr_init_script : string;
}.

Class Testcontainers (W : Type) := {
  PostgresContainer : Type;
  postgres_Run : container_request → M W (res PostgresContainer);
  Container_ConnectionString : PostgresContainer → string → M W (res string);
  Container_Terminate : PostgresContainer → M W (option error);
}.

(** [log.Fatalf] ends the process and runs nothing that was deferred. *)
Inductive or_exit (A : Type) :=
  | Continues (a : A)
  | Fatalf (msg : string).
Arguments Continues {A} _.
Arguments Fatalf {A} _.

Section suite.
Context {W : Type} `{Env W} `{Testcontainers W}.

Record DBIntegrationSuite := {
  Pool : option PgxPool;
  pgContainer : option PostgresContainer;
  ConnectionString : string;
}.

(** The path of schema.sql comes from the runtime. *)
Definition SetupSuite (schema : string) (s : DBIntegrationSuite) : M W (or_exit DBIntegrationSuite) :=
  r ← postgres_Run {| cr_image := "postgres:16-alpine"; cr_database := "testdb";
                      cr_username := "testuser"; cr_password := "testpassword";
                      cr_init_script := schema |};
  match r with
  | Err _ => mret (Fatalf "could not start postgres container")
  | Ok container =>
      r ← Container_ConnectionString container "sslmode=disable";
      match r with
      | Err _ => mret (Fatalf "could not get connection string")
      | Ok connStr =>
          r ← pgxpool_New connStr;
          match r with
          | Err _ => mret (Fatalf "could not connect to test database")
          | Ok pool => mret (Continues {| Pool := Some pool; pgContainer := Some container;
                                          ConnectionString := connStr |})
          end
      end
  end.

Definition TearDownSuite (s : DBIntegrationSuite) : M W (or_exit unit) :=
  match pgContainer s with
  | None => mret (Continues tt)
  | Some container =>
      err ← Container_Terminate container;
      match err with
      | Some _ => mret (Fatalf "failed to terminate postgres container")
      | None => mret (Continues tt)
      end
  end.
End suite.

(** The containers that run; a pool is not touched by what is done to them. *)
Class TestcontainersSpec (W : Type) `{EnvSpec W, Testcontainers W} := {
  running : W → list PostgresContainer;
  Run_spec q w w' r : postgres_Run q w = (w', r) → opened w' = opened w ∧
    running w' = match r with Ok c => c :: running w | Err _ => running w end;
  ConnectionString_spec c o w w' r : Container_ConnectionString c o w = (w', r) →
    opened w' = opened w ∧ running w' = running w;
  Terminate_spec c w w' r l : Container_Terminate c w = (w', r) → running w = c :: l →
    opened w' = opened w ∧ running w' = match r with None => l | Some _ => running w end;
  New_keeps dsn w w' r : pgxpool_New dsn w = (w', r) → running w' = running w;
}.

Section suite_theorems.
Context `{TestcontainersSpec W}.

(** A suite that is set up has a container and a pool of its own; one that is not may
    leave a container behind. *)
Lemma SetupSuite_resources schema s w w' r :
  SetupSuite schema s w = (w', r) →
  match r with
  | Continues s' => ∃ c p, pgContainer s' = Some c ∧ Pool s' = Some p ∧
      running w' = c :: running w ∧ opened w' = OpenPool p :: opened w
  | Fatalf _ => opened w' = opened w ∧ (running w' = running w ∨ ∃ c, running w' = c :: running w)
  end.
Proof.
  intros Hrun. wp_start Hrun. apply wp_bind, wp_intro. intros w1 r1 [Ho1 Hr1]%Run_spec.
  destruct r1 as [c|e]; [|by apply wp_ret; auto].
  apply wp_bind, wp_intro. intros w2 r2 [Ho2 Hr2]%ConnectionString_spec.
  destruct r2 as [conn|e]; [|apply wp_ret; rewrite Ho2, Hr2; eauto].
  apply wp_bind, wp_intro. intros w3 r3 Hn. pose proof (New_spec _ _ _ _ Hn) as Ho3.
  apply New_keeps in Hn. destruct r3 as [p|e]; apply wp_ret.
  - exists c, p. rewrite Hn, Hr2, Ho3, Ho2, Ho1. done.
  - rewrite Hn, Hr2, Ho3, Ho2. eauto.
Qed.

(** Tearing it down stops the container, and leaves the pool open. *)
Lemma suite_leaves_pool schema s s' w w1 w2 :
  SetupSuite schema s w = (w1, Continues s') → TearDownSuite s' w1 = (w2, Continues tt) →
  running w2 = running w ∧ ∃ p, Pool s' = Some p ∧ opened w2 = OpenPool p :: opened w.
Proof.
  intros (c & p & Hc & Hp & Hr & Ho)%SetupSuite_resources.
  unfold TearDownSuite. rewrite Hc. unfold mbind, M_bind, mret, M_ret.
  destruct (Container_Terminate c w1) as [w3 [e|]] eqn:Ht; [done|]. intros [= <-].
  destruct (Terminate_spec _ _ _ _ _ Ht Hr) as [Ho' Hr']. split; [done|].
  exists p. by rewrite Ho', Ho.
Qed.
End suite_theorems.
