(* ===== verification/SharedNats.v ===== *)
(** * SharedNats: the NATS broker among other sessions

    What JetStream's calls promise when other clients use it too, and the proof that
    [NATSBroker] keeps the promise of [BrokerShared]. *)
From stdpp Require Import relations.
From S2P Require Import Prelude GoJson EventSrc Outbox Sql Pgx Relay Nats Shared.

(** The messages of the streams. *)
Class JetStreamLog (R : Type) := js_log : R → list (string * json).

#[export] Instance nats_MessageLog `{JetStream W} `{JetStreamLog R} : MessageLog R (string * json) := {|
  logged := js_log;
  posted := nats_message;
|}.

Section js_calls.
Context `{Session W R} `{JetStreamLog R}.

(** A call that finds the broker as others left it and adds [msgs] to it. *)
Definition js_call (w w' : W) (msgs : list (string * json)) : Prop :=
  ∃ n, meanwhile w ((shared w').1, n) ∧ held w ⊆ held w' ∧
    (∀ tx, session_tx w' tx = session_tx w tx) ∧ js_log (shared w').2 = js_log n ++ msgs.
End js_calls.

Class JetStreamShared (W R : Type) `{SharedPgx W R} `{JetStream W} `{JetStreamLog R} : Prop := {
  StreamInfo_shared s w w' r : StreamInfo s w = (w', r) → js_call w w' [];
  AddStream_shared s subs w w' r : AddStream s subs w = (w', r) → js_call w w' [];
  js_Publish_shared s d w w' r :
    js_Publish s d w = (w', r) → js_call w w' [(s, d)] ∨ (r ≠ None ∧ js_call w w' []);
}.

Section shared_nats.
Context `{JetStreamShared W R}.
Implicit Types (w : W).

(** Calls that add no message. *)
Definition js_quiet w w' : Prop :=
  rtc (λ s s', others s s' ∨ net_quiet s s') (shared w) (shared w') ∧
  kept (held w) (shared w).1 (shared w').1 ∧ held w ⊆ held w' ∧
  (∀ tx, session_tx w' tx = session_tx w tx).

Lemma js_call_quiet w w' : js_call w w' [] → js_quiet w w'.
Proof.
  intros (n & [Ho Hk] & Hh & Ht & Hl). rewrite app_nil_r in Hl. split_and!; [|done..].
  eapply rtc_l; [by left|]. apply rtc_once. right. by split.
Qed.

Lemma js_quiet_trans w1 w2 w3 : js_quiet w1 w2 → js_quiet w2 w3 → js_quiet w1 w3.
Proof.
  intros (Hp1 & Hk1 & Hh1 & Ht1) (Hp2 & Hk2 & Hh2 & Ht2).
  split_and!; [by etrans| |by etrans|intros tx; by rewrite Ht2].
  intros o Ho Hh. apply Hk2; [by apply Hk1|]. by apply Hh1.
Qed.

Lemma shared_ensureTopicExist (ctx : context W) topic (Q : option error → W → Prop) w :
  (∀ w' r, js_quiet w w' → Q r w') → wp (ensureTopicExist ctx topic) Q w.
Proof.
  intros HQ. apply wp_bind, wp_intro. intros w1 r Hs%StreamInfo_shared%js_call_quiet.
  destruct r as [e|]; [|by apply wp_ret, HQ]. case_decide; [|by apply wp_ret, HQ].
  apply wp_bind, wp_intro. intros w2 r Ha%AddStream_shared%js_call_quiet.
  destruct r; by apply wp_ret, HQ, (js_quiet_trans w w1).
Qed.

(** A message published after quiet calls. *)
Lemma js_published w w1 w2 msgs :
  js_quiet w w1 → js_call w1 w2 msgs →
  ∃ n, rtc (λ s s', others s s' ∨ net_quiet s s') (shared w) ((shared w2).1, n) ∧
    kept (held w) (shared w).1 (shared w2).1 ∧ held w ⊆ held w2 ∧
    (∀ tx, session_tx w2 tx = session_tx w tx) ∧ js_log (shared w2).2 = js_log n ++ msgs.
Proof.
  intros (Hp & Hk & Hh & Ht) (n & [Ho Hk2] & Hh2 & Ht2 & Hl). exists n. split_and!.
  - eapply rtc_r; [done|by left].
  - intros o Hin Hid. apply Hk2; [by apply Hk|]. by apply Hh.
  - by etrans.
  - intros tx. by rewrite Ht2.
  - done.
Qed.

#[export] Instance NATSBroker_BrokerShared : BrokerShared W R (string * json).
Proof.
  split. intros ctx topic evt w w' r Hrun. wp_start Hrun.
  assert (∀ w1 (e : error), js_quiet w w1 →
    ∃ n, rtc (λ s s', others s s' ∨ net_quiet s s') (shared w) ((shared w1).1, n) ∧
      kept (held w) (shared w).1 (shared w1).1 ∧ held w ⊆ held w1 ∧
      (∀ tx, session_tx w1 tx = session_tx w tx) ∧
      (logged (shared w1).2 = logged n ++ [posted topic evt] ∨
       (Some e ≠ None ∧ logged (shared w1).2 = logged n))) as Hfail.
  { intros w1 e (Hp & Hk & Hh & Ht). exists (shared w1).2. split_and!; [|done..|by right].
    by destruct (shared w1). }
  apply wp_bind, shared_ensureTopicExist. intros w1 [e|] Hq; [by apply wp_ret, Hfail|].
  destruct (OutboxEvent_Marshal evt) as [data|e] eqn:Hm; [|by apply wp_ret, Hfail].
  apply wp_bind, wp_intro. intros w2 r2 Hpub%js_Publish_shared.
  assert (posted topic evt = (subject topic evt, data)) as ->.
  { simpl. unfold nats_message. by rewrite Hm. }
  destruct Hpub as [Hc|[Hne Hc]];
    destruct (js_published _ _ _ _ Hq Hc) as (n & Hp & Hk & Hh & Ht & Hl); rewrite ?app_nil_r in Hl;
    destruct r2 as [e|]; try done; apply wp_ret; exists n; split_and!; try done; auto.
Qed.
End shared_nats.
