(* ===== verification/RefShared.v ===== *)
(** * RefShared: the reference server with other sessions

    The server of [PgRef] and the broker of [RefNats] together with a script of what
    other sessions do before each call: it satisfies [SharedPgx] and
    [JetStreamShared], so that runs among other sessions can be evaluated. *)
From stdpp Require Import relations.
From S2P Require Import Prelude GoJson EventSrc Outbox Cqrs Product Sql Pgx PgStores Commands Relay ReadModel Nats.
From S2P Require Import PgRef RefNats Shared Steps SharedNats.

(** What another session may do at once; it is given the rows it must not touch, and
    may find that it cannot do it now. *)
Class Act (R E : Type) := act : E → list uuid → tables * R → option (tables * R).

Class ActLaws (R E : Type) `{Act R E} : Prop := {
  act_kept e h s s' : act e h s = Some s' → kept h s.1 s'.1;
}.

Section crowd.
Context {R F E : Type} `{FaultKind F} `{LockedRows} `{Act R E}.

(** The server, what others will do before the next calls, and the rows this session
    holds locked. *)
Record crowd := {
  cw_base : ref_world R F;
  cw_script : list (list E);
  cw_held : list uuid;
}.

Definition cw_shared (w : crowd) : tables * R := (rw_db (cw_base w), rw_rest (cw_base w)).

(** Another session waits if what it wants to commit collides with what an open
    transaction of this one has inserted. *)
Definition txs_ok (t : tables) (txs : list txstate) : bool :=
  forallb (λ x, match x with
                | TxActive log => match replay log t with Ok _ => true | Err _ => false end
                | _ => true
                end) txs.

Definition interfere_with (e : E) (h : list uuid) (b : ref_world R F) : ref_world R F :=
  match act e h (rw_db b, rw_rest b) with
  | Some (t, n) =>
      if txs_ok t (rw_txs b) then
        {| rw_db := t; rw_txs := rw_txs b; rw_faults := rw_faults b; rw_rest := n |}
      else b
  | None => b
  end.

Definition interfere (w : crowd) : ref_world R F :=
  foldl (λ b e, interfere_with e (cw_held w) b) (cw_base w) (hd [] (cw_script w)).

(** A call of the server after the others' turn; [upd] says which rows are held then. *)
Definition lift {A} (upd : A → list uuid → list uuid) (m : M (ref_world R F) A) : M crowd A := λ w,
  let '(b, a) := m (interfere w) in
  ({| cw_base := b; cw_script := tl (cw_script w); cw_held := upd a (cw_held w) |}, a).

Definition holding {A} (_ : A) (h : list uuid) : list uuid := h.
Definition releasing {A} (_ : A) (_ : list uuid) : list uuid := [].
Definition locking {A} (q : query A) (r : res (list A * option error)) (h : list uuid) : list uuid :=
  match r with Ok (rows, None) => locks q rows ++ h | _ => h end.

#[export] Instance crowd_Pgx : Pgx crowd := {|
  Tx := nat;
  Pool_Begin := lift holding ref_Begin;
  Tx_Commit tx := lift releasing (ref_Commit tx);
  Tx_Rollback tx := lift releasing (ref_Rollback tx);
  Tx_Exec tx s := lift holding (ref_Exec tx s);
  Tx_SendBatch tx ss := lift holding (ref_SendBatch tx ss);
  Tx_Query tx A q := lift (locking q) (ref_Query tx q);
  Pool_Exec s := lift holding (ref_Pool_Exec s);
  Pool_Query A q := lift holding (ref_Pool_Query q);
  Pool_QueryRow A q := lift holding (ref_Pool_QueryRow q);
|}.

(** One act of another session. *)
Definition acts (s s' : tables * R) : Prop := ∃ e h, act e h s = Some s'.

#[export] Instance crowd_Session : Session crowd R := {|
  shared := cw_shared;
  session_tx w tx := ref_tx_state (cw_base w) tx;
  held := cw_held;
  others_hold _ := locked_rows;
  others := rtc acts;
|}.
End crowd.
Arguments crowd R F E : clear implicits.

Section crowd_laws.
Context {R F E : Type} `{FaultKind F} `{LockedRows} `{ActLaws R E}.
Implicit Types (w : crowd R F E) (b : ref_world R F) (tx : nat).

Lemma interfere_with_spec e h b :
  rtc acts (rw_db b, rw_rest b)
    (rw_db (interfere_with e h b), rw_rest (interfere_with e h b)) ∧
  kept h (rw_db b) (rw_db (interfere_with e h b)) ∧
  rw_txs (interfere_with e h b) = rw_txs b.
Proof.
  unfold interfere_with. destruct (act e h _) as [[t n]|] eqn:Ha; [|split_and!; [done|by intros o|done]].
  destruct (txs_ok t (rw_txs b)); [|split_and!; [done|by intros o|done]].
  split_and!; [|by apply act_kept in Ha|done]. apply rtc_once. by exists e, h.
Qed.

Lemma interfere_spec w :
  meanwhile w (rw_db (interfere w), rw_rest (interfere w)) ∧
  ∀ tx, ref_tx_state (interfere w) tx = session_tx w tx.
Proof.
  unfold interfere, meanwhile. simpl. unfold cw_shared, ref_tx_state. simpl.
  generalize (cw_base w). induction (hd [] (cw_script w)) as [|e es IH]; intros b; simpl.
  { split; [split; [done|by intros o]|done]. }
  destruct (interfere_with_spec e (cw_held w) b) as (Ho & Hk & Ht).
  destruct (IH (interfere_with e (cw_held w) b)) as [[Ho' Hk'] Ht'].
  split; [split; [by etrans|]|].
  - intros o Hin Hh. apply Hk'; [by apply Hk|done].
  - intros tx. by rewrite Ht', Ht.
Qed.

(** A call of the server seen from the session. *)
Lemma lift_inv {A} upd (m : M (ref_world R F) A) w w' a :
  lift upd m w = (w', a) →
  m (interfere w) = (cw_base w', a) ∧ cw_held w' = upd a (cw_held w).
Proof. unfold lift. destruct (m (interfere w)) as [b x]. by intros [= <- <-]. Qed.

(** A call that leaves tables and broker as it found them. *)
Lemma lift_drift w w' :
  rw_db (cw_base w') = rw_db (interfere w) → rw_rest (cw_base w') = rw_rest (interfere w) →
  cw_held w ⊆ cw_held w' → drift w w'.
Proof.
  intros Hdb Hr Hh. split; [|done]. simpl. unfold cw_shared. rewrite Hdb, Hr. apply interfere_spec.
Qed.

#[export] Program Instance crowd_SharedPgx : SharedPgx (crowd R F E) R.
Next Obligation.
  intros w w' r [(Hdb & Hr & Ht)%ref_Begin_law Hh]%lift_inv. split; [|done].
  apply lift_drift; [done..|by rewrite Hh].
Qed.
Next Obligation.
  intros tx w w' r [[Hr Hc]%ref_Commit_law _]%lift_inv. simpl. unfold cw_shared. simpl. rewrite Hr.
  destruct (interfere_spec w) as [Hm Ht]. eexists; split; [exact Hm|].
  rewrite <- (Ht tx : ref_tx_state _ _ = ref_tx_state _ _).
  destruct r as [e|]; [|by left]. destruct Hc as [Hc|[_ Hc]]; [by right|by left].
Qed.
Next Obligation.
  intros tx w w' r [Hq _]%lift_inv. injection Hq as Hb _. simpl. unfold cw_shared. rewrite <- Hb.
  apply interfere_spec.
Qed.
Next Obligation.
  intros tx s w w' r [(Hdb & Hr & Hx)%ref_Exec_law Hh]%lift_inv _.
  destruct (interfere_spec w) as [_ Ht]. specialize (Ht tx). simpl in *.
  split; [apply lift_drift; [done..|by rewrite Hh]|]. destruct r as [n|e].
  - destruct Hx as (log & t & t' & Hl & _ & _ & Hl'). exists log. by rewrite <- Ht.
  - destruct Hx as [Hst Hu]. destruct (decide (errors_as_pg e = Some unique_violation)) as [Hd|Hd].
    + left. by apply Hu.
    + destruct Hst as [?|Hst]; [by left|right]. by rewrite <- Ht.
Qed.
Next Obligation.
  intros tx ss w w' br [(Hdb & Hr & Hx)%ref_SendBatch_law Hh]%lift_inv _ Hne.
  destruct (interfere_spec w) as [_ Ht]. specialize (Ht tx). simpl in *.
  split; [apply lift_drift; [done..|by rewrite Hh]|].
  destruct (Hx Hne) as [(log & t & ns & Hl & _ & Hrs & Hn & Hst)|(k & e & Hk & He & Hi & _)].
  - left. exists log, ns. rewrite <- Ht. split_and!; [done..|]. destruct Hst as [?|[? _]]; auto.
  - right. by exists k, e.
Qed.
Next Obligation.
  intros tx A q w w' r [(Hdb & Hr & Hx)%ref_Query_law Hh]%lift_inv.
  destruct (interfere_spec w) as [_ Ht]. specialize (Ht tx). simpl in *. split.
  - apply lift_drift; [done..|]. rewrite Hh. unfold locking.
    destruct r as [[rows [e|]]|e]; [done| |done]. apply list_subseteq_app_r. done.
  - intros rows ->. destruct Hx as (log & t & Hl & Hrep & Hans & Hst).
    exists log, t. rewrite <- Ht, Hst, Hdb. split_and!; [done..|].
    rewrite Hh. simpl. by apply list_subseteq_app_l.
Qed.
Next Obligation.
  intros s w w' r [(Hr & Ht & Hx)%ref_Pool_Exec_law Hh]%lift_inv.
  destruct (interfere_spec w) as [Hm Ht']. simpl in *. unfold cw_shared. simpl. rewrite Hr.
  eexists; split; [exact Hm|]. split; [by rewrite Hh|]. split; [intros tx; by rewrite Ht, Ht'|].
  destruct r as [n|e]; [left; by exists n|]. destruct Hx as [Hx|[_ Hx]]; [right|by left].
  split; [by eexists|done].
Qed.
Next Obligation.
  intros A q w w' r [(Hdb & Hr & Ht & Hx)%ref_Pool_Query_law Hh]%lift_inv.
  destruct (interfere_spec w) as [_ Ht']. simpl in *.
  split; [apply lift_drift; [done..|by rewrite Hh]|]. split; [intros tx; by rewrite Ht, Ht'|].
  intros rows Hq. rewrite Hdb. by apply Hx.
Qed.
Next Obligation.
  intros A q w w' r [(Hdb & Hr & Ht & Hx)%ref_Pool_QueryRow_law Hh]%lift_inv.
  destruct (interfere_spec w) as [_ Ht']. simpl in *.
  split; [apply lift_drift; [done..|by rewrite Hh]|]. split; [intros tx; by rewrite Ht, Ht'|].
  by rewrite Hdb.
Qed.
End crowd_laws.

(** ** The broker *)

Section crowd_nats.
Context {F E : Type} `{FaultKind F} `{LockedRows} `{ActLaws nats_state E}.
#[local] Abbreviation world := (crowd nats_state F E).

#[export] Instance crowd_JetStream : JetStream world := {|
  uuid_String := uuid_String (W := ref_world nats_state F);
  Sub := subscription;
  Msg := delivered_msg;
  StreamInfo s := lift holding (StreamInfo s);
  AddStream s subs := lift holding (AddStream s subs);
  js_Publish s d := lift holding (js_Publish s d);
  PullSubscribe f d := lift holding (PullSubscribe f d);
  Fetch sub n := lift holding (ref_Fetch sub n);
  Msg_Data := dm_data;
  Ack m := lift holding (nats_call (add_ack m));
  Nak m := lift holding (nats_call (λ s, s));
|}.

#[export] Instance ref_JetStreamLog : JetStreamLog nats_state := ns_log.

(** A call of the broker that leaves the database alone. *)
Lemma lift_js_call {A} (m : M (ref_world nats_state F) A) w w' a :
  lift holding m w = (w', a) →
  (∀ b b', m b = (b', a) → rw_db b' = rw_db b ∧ ∀ tx, ref_tx_state b' tx = ref_tx_state b tx) →
  m (interfere w) = (cw_base w', a) ∧
  ∀ msgs, ns_log (rw_rest (cw_base w')) = ns_log (rw_rest (interfere w)) ++ msgs → js_call w w' msgs.
Proof.
  intros [Hq Hh]%lift_inv Hm. split; [done|]. intros msgs Hl. destruct (Hm _ _ Hq) as [Hdb Ht].
  destruct (interfere_spec w) as [Hmw Ht']. exists (rw_rest (interfere w)). simpl.
  unfold cw_shared. simpl. rewrite Hdb. split_and!; [done|by rewrite Hh| |done].
  intros tx. rewrite Ht. apply Ht'.
Qed.

#[export] Instance crowd_JetStreamShared : JetStreamShared world nats_state.
Proof.
  split.
  - intros s w w' r Hq. destruct (lift_js_call _ _ _ _ Hq) as [Hc Hcall].
    { by intros b b' (Hdb & Ht & _)%ref_StreamInfo_law. }
    apply Hcall. apply ref_StreamInfo_law in Hc as (_ & _ & ->). by rewrite app_nil_r.
  - intros s subs w w' r Hq. destruct (lift_js_call _ _ _ _ Hq) as [Hc Hcall].
    { by intros b b' (Hdb & Ht & _)%nats_call_law. }
    apply Hcall. rewrite app_nil_r. by eapply (nats_call_keeps ns_log (add_stream s)).
  - intros s d w w' r Hq. destruct (lift_js_call _ _ _ _ Hq) as [Hc Hcall].
    { by intros b b' (Hdb & Ht & _)%nats_call_law. }
    apply nats_call_law in Hc as (_ & _ & [Hr|[Hne Hr]]); [left|right; split; [done|]];
      apply Hcall; rewrite Hr; [done|by rewrite app_nil_r].
Qed.
End crowd_nats.

(** ** Other sessions that run commands *)

(** A command another session runs: the id of its event, its time, the command. *)
Record foreign_command := { fc_id : uuid; fc_now : time; fc_command : command }.

Section foreign.
Context `{SnapshotFrequency} {R Msg : Type} `{MessageLog R Msg}.
Implicit Types (t : tables).

(** The event it would append now. *)
Definition foreign_event (e : foreign_command) t : domain_event :=
  command_event (fc_id e) (fc_now e) (fc_command e)
    (Z.of_nat (length (rows_of t (command_id (fc_command e)))) + 1).

#[export] Instance foreign_act : Act R foreign_command := λ e _ '(t, n),
  match Product_Validate (command_product (fc_command e)), event_params (foreign_event e t) with
  | None, Ok r =>
      match replay [InsertEvent r; InsertOutbox r] t with Ok t' => Some (t', n) | Err _ => None end
  | _, _ => None
  end.

Lemma foreign_act_step e h s s' : act e h s = Some s' → command_step s s'.
Proof.
  destruct s as [t n]. unfold act, foreign_act.
  destruct (Product_Validate _) eqn:Hval; [done|].
  destruct (event_params (foreign_event e t)) as [r|] eqn:Hp; [|done].
  destruct (replay _ t) as [t'|] eqn:Hrep; [|done]. intros [= <-].
  set (evt := foreign_event e t) in *.
  destruct (command_event_product (fc_id e) (fc_now e) (fc_command e)
    (Z.of_nat (length (rows_of t (command_id (fc_command e)))) + 1)) as (Hpe & _ & Ha & _ & Hv & _).
  fold (foreign_event e t) in Hpe, Ha, Hv. fold evt in Hpe, Ha, Hv.
  assert (queue_events InsertEvent [evt] = Ok [InsertEvent r]) as Hq1 by (simpl; by rewrite Hp).
  assert (queue_events InsertOutbox [evt] = Ok [InsertOutbox r]) as Hq2 by (simpl; by rewrite Hp).
  pose proof Hrep as Hrep'. change [InsertEvent r; InsertOutbox r] with ([InsertEvent r] ++ [InsertOutbox r]) in Hrep'.
  rewrite replay_app in Hrep'. destruct (replay [InsertEvent r] t) as [t1|] eqn:Hr1; [|done].
  destruct (replay_insert_events _ _ _ _ Hq1 Hr1) as (rs & Hrs & -> & Hf).
  destruct (replay_insert_outbox _ _ _ _ Hq2 Hrep') as (rs2 & Hrs2 & ->).
  rewrite (stored_as_fun _ _ _ Hrs2 Hrs) in *. simpl outbox. simpl event_store.
  inversion Hrs as [|? row ? ? Hst Hnil]; subst. inversion Hnil; subst. destruct Hf as [Hf _].
  destruct (TrackChange_carries evt NewProductAggregateEmpty 0 Hpe (fresh_copy_empty _)) as (p & _ & Hok).
  unfold evt, foreign_event in Hok. rewrite command_event_Validate in Hok.
  destruct (Hok Hval) as (_ & Hca & _).
  eapply (command_commit (fc_id e) (fc_now e) (fc_command e) _ p); [done| |exact Hrep].
  exists row, []. split_and!; [exact Hst|done|by left|exact Hca| |].
  - fold (foreign_event e t). fold evt. by rewrite Hv, Ha.
  - unfold save_tables. simpl. by rewrite app_nil_r.
Qed.

#[export] Instance foreign_ActLaws : ActLaws R foreign_command.
Proof.
  split. intros e h s s' Ha. apply foreign_act_step in Ha as [newID now c ver p log t t' n _ Hap _].
  destruct (appended_rows _ _ _ _ _ _ _ Hap) as (row & sn & _ & -> & _). intros o Ho _.
  simpl. apply elem_of_app. by left.
Qed.

Lemma foreign_acts s s' : rtc acts s s' → rtc write_step s s'.
Proof.
  intros Hs. apply (rtc_subrel acts); [|done]. intros a b (e & h & Ha). left.
  by eapply foreign_act_step.
Qed.
End foreign.

(** ** Another instance of the projection *)

(** It handles the message of the event at a position of the event store. *)
Record foreign_delivery := { fd_position : nat }.

#[local] Instance delivery_act {R} : Act R foreign_delivery := λ e _ '(t, n),
  (λ r, ((deliver r t).1, n)) <$> event_store t !! fd_position e.

(** The handler writes views only. *)
Lemma handler_effect_views r t : ∃ vs, handler_effect r t = set_product_views vs t.
Proof.
  assert (∃ vs, t = set_product_views vs t) as Hid by (exists (product_views t); by destruct t).
  unfold handler_effect, view_stmt. destruct (decode_row r) as [[e|e|]|]; try done; simpl.
  - destruct (upsert_view _ t) as [[t' n]|] eqn:Hx; [|done].
    apply upsert_view_Ok in Hx as (? & ? & _ & -> & _). by eexists.
  - destruct (update_view _ t) as [[t' n]|] eqn:Hx; [|done].
    apply update_view_Ok in Hx as [(_ & -> & _)|(? & ? & ? & _ & _ & _ & -> & _)]; [done|by eexists].
Qed.

Lemma handler_effect_outbox r t : outbox (handler_effect r t) = outbox t.
Proof. by destruct (handler_effect_views r t) as [vs ->]. Qed.

Lemma handler_effect_events r t : event_store (handler_effect r t) = event_store t.
Proof. by destruct (handler_effect_views r t) as [vs ->]. Qed.

#[local] Instance delivery_ActLaws {R} : ActLaws R foreign_delivery.
Proof.
  split. intros e h [t n] [t' n'] Ha. unfold act, delivery_act in Ha.
  destruct (event_store t !! fd_position e) as [r|]; [|done]. injection Ha as <- _.
  intros o Ho _. simpl. unfold deliver. case_decide; [done|].
  repeat case_match; simpl; by rewrite ?handler_effect_outbox.
Qed.
