(* ===== verification/Witnesses.v ===== *)
(** * Witnesses: the theorems at concrete inputs

    For each theorem with hypotheses a closed instance of it: an input, mostly a state
    of the run of Scenario, at which every hypothesis holds. *)
From Stdlib Require Import SpecFloat Sorted.
From stdpp Require Import relations sorting.
From S2P Require Import Prelude GoJson EventSrc Outbox Cqrs Product Sql Pgx.
From S2P Require Import PgStores Commands Loads Relay ReadModel Nats System PgRef RefNats Scenario.

(** ** Events and aggregates *)

Definition ev_created : domain_event := command_event (eid 0) (at_second 0) create 1.
Definition ev_updated : domain_event := command_event (eid 1) (at_second 1) update 2.

(** The product after both events were tracked. *)
Definition tracked : ProductAggregate := (TrackChanges [ev_created; ev_updated] newEmptyProduct).1.

Lemma tracked_changes_replay_witness :
  GetUncommittedEvents tracked = GetUncommittedEvents newEmptyProduct ++ [ev_created; ev_updated] ∧
  LoadFromHistory [ev_created; ev_updated] (ClearUncommittedEvents newEmptyProduct) =
    (ClearUncommittedEvents tracked, None).
Proof. apply (tracked_changes_replay [ev_created; ev_updated] newEmptyProduct tracked). done. Defined.

(** Registering a type twice. *)
Lemma RegisterEvent_cases_witness :
  (∃ e, CreateEvent eventRegistry ProductCreatedEventType = Ok e) ∧ eventRegistry = eventRegistry.
Proof.
  apply (RegisterEvent_cases eventRegistry eventRegistry ProductCreatedEventType
           (λ _, ProductUpdated_zero) (Panicked "event type is already registered")).
  vm_compute. done.
Defined.

(** An update that empties the name is refused by [Validate]. *)
Definition ev_nameless : domain_event :=
  command_event (eid 1) (at_second 1) (UpdateCommand {| up_ID := pid; up_Name := ""; up_Price := price_updated |}) 3.
Definition dirty : ProductAggregate := (TrackChange ev_nameless tracked).1.

Lemma TrackChange_cases_witness :
  GetUncommittedEvents dirty = GetUncommittedEvents tracked ∧
  dirty = (applyMethod ev_nameless tracked).1 ∧
  ((applyMethod ev_nameless tracked).2 = None → validateState dirty ≠ None).
Proof.
  apply (TrackChange_cases ev_nameless tracked dirty (Some
    (Wrapf "state validation failed after applying event" (ErrorString "product name cannot be empty")))).
  done.
Defined.

(** Saving outside a transaction fails. *)
Lemma Repository_Save_cases_witness :
  let run := Repository_Save bg tracked empty_world in
  (GetUncommittedEvents tracked = [] ∧ run.1 = empty_world ∧ run.2.1 = None ∧ run.2.2 = tracked) ∨
  (GetUncommittedEvents tracked ≠ [] ∧ ∃ rs, Store_Save bg tracked empty_world = (run.1, rs) ∧
     match rs with
     | None => run.2.1 = None ∧ GetUncommittedEvents run.2.2 = [] ∧
               run.2.2 = with_root (set_events []) tracked
     | Some e => run.2.1 = Some (Wrapf "failed to save aggregate" e) ∧ run.2.2 = tracked
     end).
Proof. apply (Repository_Save_cases bg tracked _ empty_world). vm_compute. done. Defined.

Definition ev_created_json : json :=
  match event_Marshal ev_created with Ok j => j | Err _ => JObject [] end.

Lemma product_event_roundtrip_witness :
  event_Unmarshal ev_created_json ProductCreated_zero = Ok (event_canon ev_created) ∧
  (to_valid_utf8 (AggregateType ev_created) = AggregateType ev_created →
   to_valid_utf8 (event_name ev_created) = event_name ev_created →
   event_canon ev_created = ev_created).
Proof.
  apply (product_event_roundtrip ev_created ProductCreated_zero ev_created_json);
    [done|split; vm_compute; done|vm_compute; done|vm_compute; done].
Defined.

(** A product whose price is not a number is created, and cannot be written. *)
Definition ev_nan : domain_event :=
  command_event (eid 0) (at_second 0)
    (CreateCommand {| cp_ID := pid; cp_Name := "free"; cp_Price := S754_nan |}) 1.

Lemma product_event_marshal_fails_witness :
  ((∃ err, event_Marshal ev_nan = Err err) ↔
   float_finite (event_price ev_nan) = false ∨ year_ok (Timestamp ev_nan) = false) ∧
  (∀ p, prod_Name p ≠ "" → prod_Price p = S754_nan ∨ prod_Price p = S754_infinity false →
        Product_Validate p = None).
Proof. apply (product_event_marshal_fails ev_nan). done. Defined.

Definition tracked_json : json :=
  match MarshalJSON tracked with Ok j => j | Err _ => JObject [] end.

Lemma snapshot_roundtrip_witness :
  ∃ p', UnmarshalJSON tracked_json newEmptyProduct = (p', None) ∧
    pa_Product p' = {| prod_ID := prod_ID (pa_Product tracked);
                       prod_Name := to_valid_utf8 (prod_Name (pa_Product tracked));
                       prod_Price := prod_Price (pa_Product tracked) |} ∧
    version (root p') = 0%Z ∧ id (root p') = uuid_Nil ∧ GetUncommittedEvents p' = [].
Proof. apply (snapshot_roundtrip tracked newEmptyProduct). vm_compute. done. Defined.

Lemma product_rehydration_witness :
  ∃ p', LoadFromHistory ([ev_created] ++ [ev_updated]) newEmptyProduct = (p', None) ∧
    version (root p') = Version ev_updated ∧
    prod_Name (pa_Product p') = event_name ev_updated ∧
    prod_Price (pa_Product p') = event_price ev_updated ∧
    id (root p') = history_id ([ev_created] ++ [ev_updated]) (id (root newEmptyProduct)) ∧
    prod_ID (pa_Product p') = prod_ID (pa_Product newEmptyProduct) ∧
    GetUncommittedEvents p' = GetUncommittedEvents newEmptyProduct.
Proof.
  apply (product_rehydration [ev_created] ev_updated newEmptyProduct). repeat constructor.
Defined.

(** ** The tables and the stores *)

Definition mark_stmt : stmt := InsertProcessed (eid 0) ProductProjection.

Definition w_updated_tables : tables := committed w_updated.
Definition marked_tables : tables :=
  match sql_exec mark_stmt w_updated_tables with Ok (t, _) => t | Err _ => w_updated_tables end.

(** The statements of the first command's commit and of the projection's, from the start. *)
Definition first_log : list stmt :=
  match event_params ev_created with
  | Ok r => [InsertEvent r; InsertOutbox r; mark_stmt]
  | Err _ => []
  end.
Definition first_tables : tables :=
  match replay first_log empty_tables with Ok t => t | Err _ => empty_tables end.

Lemma schema_invariant_witness :
  length (event_store first_tables) = 1 ∧ tables_wf first_tables ∧ columns_wf first_tables.
Proof.
  split; [vm_compute; done|].
  destruct (schema_invariant first_log empty_tables first_tables) as [Hw Hc]; [vm_compute; done|].
  split; [apply Hw, empty_tables_wf|apply Hc, empty_columns_wf].
Defined.

Definition published_tables : tables :=
  match sql_exec (UpdatePublished [eid 0]) w_updated_tables with
  | Ok (t, _) => t | Err _ => w_updated_tables
  end.

Lemma sql_exec_append_only_witness :
  event_store w_updated_tables `prefix_of` event_store published_tables ∧
  (or_event <$> outbox w_updated_tables) `prefix_of` (or_event <$> outbox published_tables) ∧
  processed_events w_updated_tables ⊆ processed_events published_tables ∧
  (∀ i o, outbox w_updated_tables !! i = Some o →
     ∃ o', outbox published_tables !! i = Some o' ∧ (or_published o = true → or_published o' = true)).
Proof.
  apply (sql_exec_append_only [UpdatePublished [eid 0]] w_updated_tables published_tables).
  vm_compute. done.
Defined.

(** Two deliveries of one event: both saw it unprocessed, this is the second. *)
Definition w_marked : calm := ref_start marked_tables [] nats_empty.

Lemma MarkAsProcessed_duplicate_rolls_back_witness :
  let run := WithTransaction bg
    (λ txCtx, e ← mret None;
              match e with
              | Some err => mret (Some err)
              | None => MarkAsProcessed txCtx (eid 0) ProductProjection
              end) w_marked in
  run.2 = Some (Sentinel ErrTxCommitRollback) ∧
  run.2 ≠ None ∧ committed run.1 = committed w_marked.
Proof.
  split; [vm_compute; done|].
  eapply (MarkAsProcessed_duplicate_rolls_back bg (eid 0) ProductProjection (λ _, mret None));
    [vm_compute; done|eapply (bool_decide_unpack _); vm_compute; done| |apply surjective_pairing].
  by intros txCtx w1 w2 e [= <- <-].
Defined.

(** A connection that breaks at the commit, after the server has committed. *)
Definition lost_commit : list (option fault) :=
  [None; None; None; Some {| fault_msg := "conn closed"; fault_applied := true |}].
Definition w_lost : stormy := ref_start empty_tables lost_commit nats_empty.

Lemma EventStore_Save_atomic_witness :
  let run := WithTransaction bg' (λ txCtx, EventStore_Save 5 txCtx tracked) w_lost in
  run.2 = Some (ErrorString "conn closed") ∧
  length (event_store (committed run.1)) = 2 ∧
  rest run.1 = rest w_lost ∧
  match run.2 with
  | None => saved 5 tracked (committed w_lost) (committed run.1)
  | Some _ => committed run.1 = committed w_lost ∨
              saved 5 tracked (committed w_lost) (committed run.1)
  end.
Proof.
  split; [vm_compute; done|]. split; [vm_compute; done|].
  apply (EventStore_Save_atomic 5 bg' tracked w_lost); [vm_compute; done|apply surjective_pairing].
Defined.

(** [stored_as] by evaluation. *)
Lemma stored_by (evt : domain_event) r :
  match event_params evt with Ok p => event_columns p | Err e => Err e end = Ok r →
  stored_as evt r.
Proof.
  intros Hr. unfold stored_as. destruct (event_params evt); [eauto|done].
Qed.

Lemma tracked_events : GetUncommittedEvents tracked = [ev_created; ev_updated].
Proof. vm_compute. done. Qed.

Lemma EventStore_Save_concurrency_witness :
  let rs := [row_at w_updated 0; row_at w_updated 1] in
  let run := WithTransaction bg (λ txCtx, EventStore_Save 5 txCtx tracked) w_updated in
  run.2 = Some (ErrConcurrency "concurrency error") ∧
  ((all_fresh (event_store (committed w_updated)) rs ∧ run.2 = None ∧
    saved 5 tracked (committed w_updated) (committed run.1)) ∨
   (¬ all_fresh (event_store (committed w_updated)) rs ∧
    run.2 = Some (ErrConcurrency "concurrency error") ∧ committed run.1 = committed w_updated)).
Proof.
  split; [vm_compute; done|].
  apply (EventStore_Save_concurrency 5 bg tracked _ w_updated).
  - vm_compute. done.
  - rewrite tracked_events. apply Forall2_cons_2; [|apply Forall2_cons_2; [|apply Forall2_nil_2]].
    + apply stored_by. vm_compute. reflexivity.
    + apply stored_by. vm_compute. reflexivity.
  - vm_compute. done.
  - intros Hsh. vm_compute in Hsh. discriminate Hsh.
  - apply surjective_pairing.
Defined.

Lemma EventStore_Load_reads_witness :
  let run := EventStore_Load eventRegistry bg pid w_frozen in
  still w_frozen run.1 ∧
  ∀ snap v evs, run.2 = Ok (snap, v, evs) →
    latest_snapshot (committed w_frozen) pid snap v ∧
    ∃ rs, stream (committed w_frozen) pid v rs ∧
          decode_events eventRegistry (row_data <$> rs) = Ok evs ∧
          (tables_wf (committed w_frozen) → ∀ rs', stream (committed w_frozen) pid v rs' → rs' = rs).
Proof. apply (EventStore_Load_reads eventRegistry bg pid w_frozen). apply surjective_pairing. Defined.

(** ** Commands *)

Lemma products_inv_of {w : calm} : sys_inv w → products_inv (committed w).
Proof. intros Hi. apply (proj1 (sys_read _ Hi)). Qed.

Definition update_run (w : calm) : calm * option error :=
  command_Handle (eid 9) (at_second 9) bg update w.

Lemma command_appends_one_witness :
  let w' := (update_run w_updated).1 in
  (update_run w_updated).2 = None ∧
  products_inv (committed w') ∧ rest w' = rest w_updated ∧
  ((committed w' = committed w_updated ∧ (update_run w_updated).2 ≠ None) ∨
   (Product_Validate (command_product update) = None ∧
    ∃ row, let n := length (rows_of (committed w_updated) (command_id update)) in
      stored_as (command_event (eid 9) (at_second 9) update (Z.of_nat n + 1)) row ∧
      rows_of (committed w') (command_id update) =
        rows_of (committed w_updated) (command_id update) ++ [row] ∧
      (∀ aid, aid ≠ command_id update →
         rows_of (committed w') aid = rows_of (committed w_updated) aid) ∧
      outbox (committed w') =
        outbox (committed w_updated) ++ [{| or_event := row; or_published := false |}] ∧
      match update with CreateCommand _ => n = 0 | UpdateCommand _ => True end)).
Proof.
  split; [vm_compute; done|].
  apply (command_appends_one (eid 9) (at_second 9) bg update w_updated).
  - apply products_inv_of, (after_commands_sys_inv 2).
  - apply surjective_pairing.
Defined.

Lemma product_frozen_forever_witness :
  let cs := story <$> seq 5 3 in
  let run := run_commands bg cs w_frozen in
  rows_of (committed run.1) pid = rows_of (committed w_frozen) pid ∧
  Forall2 (λ '(_, _, c) r, command_id c = pid → r ≠ None) cs run.2.
Proof.
  apply (product_frozen_forever bg (story <$> seq 5 3) w_frozen).
  - apply products_inv_of, (after_commands_sys_inv 5).
  - split; [vm_compute; done|]. eexists. split; [vm_compute; left|]. split; vm_compute; done.
  - apply surjective_pairing.
Defined.

Lemma command_outcome_witness :
  ∃ ver, next_version (committed w_updated) update ver ∧
    command_result (eid 9) (at_second 9) update ver w_updated
      (update_run w_updated).2 (update_run w_updated).1.
Proof.
  apply (command_outcome (eid 9) (at_second 9) bg update w_updated).
  - apply products_inv_of, (after_commands_sys_inv 2).
  - split_and!; vm_compute; done.
  - vm_compute. done.
  - apply surjective_pairing.
Defined.

Lemma created_product_bounded_witness :
  let n := Z.of_nat (length (rows_of (committed w_frozen) pid)) in
  (n ≤ 5)%Z ∧
  (n = 5%Z → ∀ newID now c w2 r, command_id c = pid →
     command_Handle newID now bg c w_frozen = (w2, r) →
     r ≠ None ∧ committed w2 = committed w_frozen).
Proof.
  apply (created_product_bounded bg (story <$> seq 0 5) empty_world w_frozen
           (run_commands bg (story <$> seq 0 5) empty_world).2).
  - vm_compute. done.
  - done.
  - repeat (apply Forall_cons; split; [split_and!; vm_compute; done|]). apply Forall_nil_2.
  - apply surjective_pairing.
  - vm_compute. by eexists _, _.
Defined.

(** A product with a snapshot of its latest version has lost that version. *)
Lemma product_load_witness :
  let run := Repository_Load newEmptyProduct bg pid w_frozen in
  still w_frozen run.1 ∧ ∃ p, run.2 = Ok p ∧ loaded (committed w_frozen) pid p.
Proof.
  apply (product_load bg pid w_frozen).
  - apply products_inv_of, (after_commands_sys_inv 5).
  - done.
  - apply surjective_pairing.
Defined.

Lemma load_after_command_witness :
  ∃ p, (Repository_Load newEmptyProduct bg pid (update_run w_updated).1).2 = Ok p ∧
    prod_Name (pa_Product p) = to_valid_utf8 "CQRS-Powered Widget (Updated)" ∧
    prod_Price (pa_Product p) = price_updated.
Proof.
  apply (load_after_command (eid 9) (at_second 9) bg bg update w_updated (update_run w_updated).1
           (Repository_Load newEmptyProduct bg pid (update_run w_updated).1).1).
  - apply products_inv_of, (after_commands_sys_inv 2).
  - done.
  - vm_compute. done.
  - apply surjective_pairing.
Defined.

(** ** The relay *)

(** The relay publishes both events, and then the connection breaks at the commit. *)
Definition relay_faults : list (option fault) :=
  replicate 8 None ++ [Some {| fault_msg := "conn closed"; fault_applied := false |}].
Definition w_stormy : stormy := ref_start (committed w_updated) relay_faults nats_empty.
Definition relay_run : stormy * option error := processBatch 10 bg' w_stormy.

Lemma relay_batch_witness :
  let w' := relay_run.1 in
  relay_run.2 = Some (ErrorString "conn closed") ∧ length (published (W := stormy) (rest w')) = 2 ∧
  ∃ rows pubs,
    published (W := stormy) (rest w') = published (W := stormy) (rest w_stormy) ++ sent (W := stormy) pubs ∧
    pubs `prefix_of` topic_events (RowToOutboxEvent <$> rows) ∧
    (rows = [] ∨ ∃ w1 tx,
     answers (SelectUnpublished 10) (locked (R := nats_state) (w1 : stormy) tx) (committed w_stormy) rows) ∧
    ((committed w' = committed w_stormy ∧ (relay_run.2 = None → rows = [])) ∨
     (rows ≠ [] ∧ pubs = topic_events (RowToOutboxEvent <$> rows) ∧
      update_published (er_event_id <$> rows) (committed w_stormy) =
        Ok (committed w', Z.of_nat (length rows)))).
Proof.
  split; [vm_compute; done|]. split; [vm_compute; done|].
  apply (relay_batch 10 bg' w_stormy). apply surjective_pairing.
Defined.

Definition relay_loop_run : stormy * relay_exit :=
  relay_loop 10 bg' [Tick; Tick; QuitClosed] w_stormy.

(** The failed poll is repeated: the events are published twice, and marked. *)
Lemma relay_at_least_once_witness :
  let w' := relay_loop_run.1 in
  relay_loop_run.2 = ShutDown ∧ length (published (W := stormy) (rest w')) = 4 ∧
  tables_wf (committed w') ∧ at_least_once w' ∧
  published (W := stormy) (rest w_stormy) `prefix_of` published (W := stormy) (rest w') ∧
  committed w' = set_outbox (outbox (committed w')) (committed w_stormy) ∧
  Forall2 flag_only (outbox (committed w_stormy)) (outbox (committed w')).
Proof.
  split; [vm_compute; done|]. split; [vm_compute; done|].
  apply (relay_at_least_once 10 bg' [Tick; Tick; QuitClosed] w_stormy relay_loop_run.1 relay_loop_run.2).
  - apply inv_wf, products_inv_of, (after_commands_sys_inv 2).
  - repeat (apply Forall_cons; split; [vm_compute; done|]). apply Forall_nil_2.
  - apply surjective_pairing.
Defined.

Definition drain_run : calm * relay_exit := relay_loop 1 bg (replicate 2 Tick) w_updated.

Lemma relay_drains_witness :
  Forall (λ o, or_published o = true) (outbox (committed drain_run.1)) ∧
  ∃ rows, rows ≡ₚ backlog (committed w_updated) ∧
    published (W := calm) (rest drain_run.1) =
      published (W := calm) (rest w_updated) ++ sent (W := calm) (topic_events (RowToOutboxEvent <$> rows)).
Proof.
  apply (relay_drains 1 bg 2 w_updated drain_run.1 drain_run.2).
  - done.
  - apply inv_wf, products_inv_of, (after_commands_sys_inv 2).
  - repeat (apply Forall_cons; split; [vm_compute; done|]). apply Forall_nil_2.
  - vm_compute. done.
  - apply surjective_pairing.
Defined.

Lemma w_updated_timely : timely (committed w_updated).
Proof.
  assert (Forall (λ r, Forall (λ r', (er_version r < er_version r')%Z →
    (unix_ns (er_ts r) < unix_ns (er_ts r'))%Z) (or_event <$> outbox (committed w_updated)))
    (or_event <$> outbox (committed w_updated))) as Hall.
  { apply (bool_decide_unpack _). vm_compute. done. }
  rewrite Forall_forall in Hall. intros r r' Hr Hr' _ Hv.
  pose proof (Hall r Hr) as Hall'. rewrite Forall_forall in Hall'. by apply Hall'.
Qed.

Lemma relay_batch_order_witness :
  let w' := w_relayed in
  ∃ pubs, published (W := calm) (rest w') = published (W := calm) (rest w_updated) ++ sent (W := calm) pubs ∧
    (∀ i j x y, i < j → pubs !! i = Some x → pubs !! j = Some y →
       oe_AggregateID x.2 = oe_AggregateID y.2 → (oe_Version x.2 ≤ oe_Version y.2)%Z) ∧
    (∀ x o, x ∈ pubs → o ∈ outbox (committed w_updated) → or_published o = false →
       er_aggregate_type (or_event o) ≠ "" →
       er_aggregate_id (or_event o) = oe_AggregateID x.2 →
       (er_version (or_event o) < oe_Version x.2)%Z →
       (er_aggregate_type (or_event o), RowToOutboxEvent (or_event o)) ∈ pubs).
Proof.
  apply (relay_batch_order 10 bg w_updated w_relayed (processBatch 10 bg w_updated).2).
  - apply w_updated_timely.
  - done.
  - apply surjective_pairing.
Defined.

(** ** The projection and the query *)

Definition oe (w : calm) (n : nat) : OutboxEvent := RowToOutboxEvent (row_at w n).
Definition handle (w : calm) (n : nat) : calm * option error :=
  Projection_Handle productProjection bg (oe w n) w.

(** The update is delivered before the creation. *)
Lemma Projection_Handle_guards_witness :
  let evt := oe w_relayed 1 in
  let '(w', r) := handle w_relayed 1 in
  let w1 := (idemp_IsProcessed bg (oe_EventID evt) ProductProjection w_relayed).1 in
  r = Some (Sentinel ErrOutOfOrderEvent) ∧
  ∀ w2 v, GetVersion bg (oe_AggregateID evt) w1 = (w2, Ok v) →
    ((oe_Version evt ≤ v)%Z →
       ∃ rm, mark_only productProjection bg evt w2 = (w', rm) ∧ (r = None ↔ rm = None)) ∧
    ((v < oe_Version evt)%Z → oe_Version evt ≠ int_add v 1 →
       w' = w2 ∧ ∃ e, r = Some e ∧ errors_is e ErrOutOfOrderEvent = true).
Proof.
  destruct (handle w_relayed 1) as [w' r] eqn:Hrun. split.
  - change r with (w', r).2. rewrite <- Hrun. vm_compute. done.
  - apply (Projection_Handle_guards (pause := no_pause) productProjection bg (oe w_relayed 1)
             w_relayed _ w' r false); [vm_compute; done|exact Hrun].
Defined.

Lemma Projection_Handle_nil_witness :
  let evt := oe w_relayed 0 in
  let w' := (handle w_relayed 0).1 in
  idemp_IsProcessed bg (oe_EventID evt) (subscriberID (W := calm) productProjection) w_relayed =
    (w', Ok true) ∨
  ∃ w1 w2 v, GetVersion bg (oe_AggregateID evt) w1 = (w2, Ok v) ∧
    (((oe_Version evt ≤ v)%Z ∧ mark_only productProjection bg evt w2 = (w', None)) ∨
     ((v < oe_Version evt)%Z ∧ oe_Version evt = int_add v 1 ∧
      Transactor_WithTransaction bg (execute productProjection evt) w2 = (w', None))).
Proof.
  apply (Projection_Handle_nil (pause := no_pause) productProjection bg (oe w_relayed 0) w_relayed).
  vm_compute. done.
Defined.

Lemma projection_safe_witness :
  let r := row_at w_relayed 0 in
  let '(w', res) := handle w_relayed 0 in
  read_inv (committed w') ∧ view_grows (committed w_relayed) (committed w') ∧
  (res = None → (er_event_id r, ProductProjection) ∈ processed_events (committed w')).
Proof.
  destruct (handle w_relayed 0) as [w' res] eqn:Hrun.
  apply (projection_safe (pause := no_pause) bg (row_at w_relayed 0) w_relayed).
  - intros w1 w2 ->. by split.
  - apply sys_read, w_relayed_sys_inv.
  - vm_compute. left.
  - exact Hrun.
Defined.

Lemma row_at_product (w : calm) n :
  sys_inv w → n < length (event_store (committed w)) → product_row (row_at w n).
Proof.
  intros Hi Hn. apply (stored_row (committed w)); [apply sys_read, Hi|].
  unfold row_at. by apply list_elem_of_In, nth_In.
Qed.

Lemma projection_refines_witness :
  let r := row_at w_relayed 0 in
  let '(w', res) := handle w_relayed 0 in
  rest w' = rest w_relayed ∧ committed w' = (deliver r (committed w_relayed)).1 ∧
  match (deliver r (committed w_relayed)).2 with
  | Acked => res = None
  | OutOfOrder => ∃ e, res = Some e ∧ errors_is e ErrOutOfOrderEvent = true
  end.
Proof.
  destruct (handle w_relayed 0) as [w' res] eqn:Hrun.
  apply (projection_refines (pause := no_pause) bg (row_at w_relayed 0) w_relayed).
  - apply row_at_product; [apply w_relayed_sys_inv|vm_compute; lia].
  - apply inv_wf, products_inv_of, w_relayed_sys_inv.
  - exact Hrun.
Defined.

(** Redeliveries and an update that comes too early. *)
Definition deliveries : list event_row :=
  [row_at w_relayed 1; row_at w_relayed 0; row_at w_relayed 0; row_at w_relayed 1].

Lemma nothing_processed t x : processed_events t = ∅ → x ∉ processed_events t.
Proof. intros ->. apply not_elem_of_empty. Qed.

Lemma w_relayed_on_track : on_track (committed w_relayed) pid.
Proof.
  split.
  - apply sys_read, w_relayed_sys_inv.
  - vm_compute. by eexists _, _.
  - assert (Forall (λ r, match decode_row r with
      | Ok e => match varchar 255 (event_name e), encode_int4_float (event_price e) with
                | Ok _, Some _ => true | _, _ => false end
      | Err _ => true end = true) (rows_of (committed w_relayed) pid)) as Hall.
    { apply (bool_decide_unpack _). vm_compute. done. }
    eapply Forall_impl; [exact Hall|]. intros r Hr e He. cbv beta in Hr. rewrite He in Hr.
    destruct (varchar _ _); [|done]. destruct (encode_int4_float _); [|done].
    split; by eexists.
  - intros r _ Hin. exfalso. revert Hin. apply nothing_processed. vm_compute. done.
Qed.

Lemma projection_converges_witness :
  let run := handle_all bg deliveries w_relayed in
  let t := committed w_relayed in
  let n := Z.of_nat (length (rows_of t pid)) in
  ∃ v r, product_views (committed run.1) !! pid = Some v ∧
    last (rows_of t pid) = Some r ∧ shows r v ∧ vr_version v = n.
Proof.
  apply (projection_converges (pause := no_pause) bg deliveries w_relayed
           (handle_all bg deliveries w_relayed).1 (handle_all bg deliveries w_relayed).2 pid).
  - apply w_relayed_on_track.
  - repeat (apply Forall_cons; split;
      [apply list_elem_of_In, nth_In; vm_compute; lia|]). apply Forall_nil_2.
  - vm_compute. apply sublist_cons, sublist_skip, sublist_cons, sublist_skip. constructor.
  - apply surjective_pairing.
Defined.

(** A name the view cannot hold: the creation is acknowledged without a view, and the
    update is out of order forever. *)
Definition long_deliveries : list event_row := [row_at w_long 0; row_at w_long 1].

Lemma lost_view_write_witness :
  let r := row_at w_long 0 in
  let t := committed w_long in
  let '(w1, x) := handle w_long 0 in
  let '(w2, xs) := handle_all bg long_deliveries w1 in
  x = None ∧ (er_event_id r, ProductProjection) ∈ processed_events (committed w1) ∧
  product_views (committed w2) !! er_aggregate_id r = product_views t !! er_aggregate_id r ∧
  ∀ r' w3 y, r' ∈ event_store t → er_aggregate_id r' = er_aggregate_id r →
    (er_version r < er_version r')%Z →
    (er_event_id r', ProductProjection) ∉ processed_events (committed w2) →
    Projection_Handle productProjection bg (RowToOutboxEvent r') w2 = (w3, y) →
    committed w3 = committed w2 ∧ ∃ e, y = Some e ∧ errors_is e ErrOutOfOrderEvent = true.
Proof.
  destruct (handle w_long 0) as [w1 x] eqn:Hx.
  destruct (handle_all bg long_deliveries w1) as [w2 xs] eqn:Hxs.
  apply (lost_view_write (pause := no_pause) bg (row_at w_long 0) long_deliveries w_long w1 w2 x xs).
  - apply sys_read, w_long_sys_inv.
  - apply list_elem_of_In, nth_In. vm_compute. lia.
  - repeat (apply Forall_cons; split;
      [apply list_elem_of_In, nth_In; vm_compute; lia|]). apply Forall_nil_2.
  - apply nothing_processed. vm_compute. done.
  - vm_compute. done.
  - vm_compute. done.
  - exact Hx.
  - exact Hxs.
Defined.

Lemma query_returns_view_witness :
  let run := GetProductByIDHandler_Query bg {| q_ID := pid |} w_polled in
  still w_polled run.1 ∧
  match product_views (committed w_polled) !! pid with
  | None => ∃ e, run.2 = Err e ∧ errors_is e ErrorProductNotFound = true
  | Some v => ∃ pv, run.2 = Ok pv ∧ pv_ID pv = pid ∧ pv_Name pv = vr_name v ∧
      pv_Version pv = vr_version v ∧ pv_CreatedAt pv = vr_created_at v ∧
      pv_UpdatedAt pv = vr_updated_at v ∧ float_integral (pv_Price pv) = Some (vr_price v)
  end.
Proof.
  apply (query_returns_view bg {| q_ID := pid |} w_polled).
  - apply inv_wf, products_inv_of, w_polled_sys_inv.
  - apply surjective_pairing.
Defined.

(** ** The broker and the system *)

Definition oe_json : json :=
  match OutboxEvent_Marshal (oe w_updated 0) with Ok j => j | Err _ => JObject [] end.

Lemma OutboxEvent_roundtrip_witness :
  let e := oe w_updated 0 in
  (∀ j, OutboxEvent_Marshal e = Ok j → OutboxEvent_Unmarshal j OutboxEvent_zero = Ok (OutboxEvent_canon e)) ∧
  ((∃ err, OutboxEvent_Marshal e = Err err) ↔ year_ok (oe_Ts e) = false) ∧
  (valid_utf8 (oe_AggregateType e) = true → valid_utf8 (oe_EventType e) = true →
   OutboxEvent_canon e = e).
Proof. apply (OutboxEvent_roundtrip (oe w_updated 0) OutboxEvent_zero). split; vm_compute; done. Defined.

(** The acknowledgement of the publication is lost. *)
Definition w_noack : stormy :=
  ref_start empty_tables
    [None; None; Some {| fault_msg := "nats: timeout"; fault_applied := true |}] nats_empty.

Lemma NATSBroker_Publish_cases_witness :
  let evt := oe w_updated 0 in
  let '(w', r) := NATSBroker_Publish bg' "products" evt w_noack in
  committed w' = committed w_noack ∧
  ((∃ data, stream_log (W := stormy) (rest w') = stream_log (W := stormy) (rest w_noack) ++
      [(("products" ++ "." ++ uuid_String (W := stormy) (oe_AggregateID evt))%string, data)] ∧
    OutboxEvent_Unmarshal data OutboxEvent_zero = Ok (OutboxEvent_canon evt)) ∨
   (r ≠ None ∧ stream_log (W := stormy) (rest w') = stream_log (W := stormy) (rest w_noack))).
Proof.
  cbv zeta. destruct (NATSBroker_Publish bg' "products" (oe w_updated 0) w_noack) as [w' r] eqn:Hrun.
  apply (NATSBroker_Publish_cases bg' "products" (oe w_updated 0) w_noack w' r).
  - split; vm_compute; done.
  - exact Hrun.
Defined.

Lemma story_reaches : rtc (system_step bg) empty_world w_polled.
Proof.
  eapply rtc_l; [eapply (step_command _ (eid 0) (at_second 0) create), surjective_pairing|].
  eapply rtc_l; [apply (step_command _ (eid 1) (at_second 1) update _ w_updated None); vm_compute; done|].
  eapply rtc_l; [eapply (step_relay bg 10), surjective_pairing|].
  eapply rtc_once, step_subscriber, surjective_pairing.
Qed.

(** Both messages have been acknowledged; then another update. *)
Definition w_again : calm := (update_run w_polled).1.

Lemma system_safe_witness :
  length (acked (W := calm) (rest w_polled)) = 2 ∧
  products_inv (committed w_polled) ∧ view_ok (committed w_polled) ∧ at_least_once w_polled ∧
  Forall (genuine (committed w_polled)) (stream_log (W := calm) (rest w_polled)) ∧
  Forall (settled (committed w_polled)) (acked (W := calm) (rest w_polled)) ∧
  view_grows (committed w_polled) (committed w_again) ∧
  stream_log (W := calm) (rest w_polled) `prefix_of` stream_log (W := calm) (rest w_again).
Proof.
  split; [vm_compute; done|].
  apply (system_safe (pause := no_pause) no_pause_evolves bg empty_world w_polled w_again).
  - done.
  - done.
  - done.
  - apply story_reaches.
  - eapply rtc_once, (step_command _ (eid 9) (at_second 9) update), surjective_pairing.
Defined.
