(* ===== verification/RegistryWitnesses.v ===== *)
(** * RegistryWitnesses: four goroutines on the registry

    Schedules one can compute of the steps of Registry, and instances of its theorems at
    one of them: two registrations of one type at the same time, and two creations. *)
From S2P Require Import Prelude GoJson EventSrc Product Registry.

(** ** Schedules *)

Section schedules.
Context {E : Type}.
Implicit Types (s : globals E * list (pc E)).

(** The i-th goroutine calls, goes on, or returns. *)
Inductive action :=
  | Calls (i : nat) (c : call E)
  | Goes (i : nat)
  | Returns (i : nat).

Definition perform (a : action) s : option (list (nat * event E) * (globals E * list (pc E))) :=
  let '(g, ps) := s in
  match a with
  | Calls i c =>
      match ps !! i with
      | Some Outside => Some ([(i, Called c)], (g, <[i := enter c]> ps))
      | _ => None
      end
  | Goes i =>
      p ← ps !! i;
      match turn g p with Next g' p' => Some ([], (g', <[i := p']> ps)) | _ => None end
  | Returns i =>
      p ← ps !! i; r ← result_of p; Some ([(i, Came r)], (g, <[i := Outside]> ps))
  end.

Fixpoint play (l : list action) s : option (list (nat * event E) * (globals E * list (pc E))) :=
  match l with
  | [] => Some ([], s)
  | a :: l =>
      '(tr, s1) ← perform a s; '(tr', s2) ← play l s1; Some (tr ++ tr', s2)
  end.

Lemma perform_step a s tr s' : perform a s = Some (tr, s') → registry_step s tr s'.
Proof.
  destruct s as [g ps], a as [i c|i|i]; simpl.
  - destruct (ps !! i) as [[]|] eqn:Hi; try done. intros [= <- <-]. by apply step_call.
  - destruct (ps !! i) as [p|] eqn:Hi; simpl; [|done].
    destruct (turn g p) eqn:Ht; try done. intros [= <- <-]. by eapply step_turn.
  - destruct (ps !! i) as [p|] eqn:Hi; simpl; [|done].
    destruct (result_of p) eqn:Hr; simpl; [|done]. intros [= <- <-]. by eapply step_return.
Qed.

Lemma play_run l s tr s' : play l s = Some (tr, s') → run registry_step s tr s'.
Proof.
  revert s tr. induction l as [|a l IH]; intros s tr; simpl; [intros [= <- <-]; constructor|].
  destruct (perform a s) as [[tr1 s1]|] eqn:Hp; simpl; [|done].
  destruct (play l s1) as [[tr2 s2]|] eqn:Hl; simpl; [|done]. intros [= <- <-].
  eapply run_cons; [by eapply perform_step|by apply IH].
Qed.
End schedules.
Arguments action E : clear implicits.

(** ** A schedule *)

Definition created : call domain_event :=
  CallRegister ProductCreatedEventType (λ _, ProductCreated_zero).
Definition make : call domain_event := CallCreate ProductCreatedEventType.

(** Goroutine 2 looks before anything is registered; 0 and 1 register the same type, 0
    first; 3 is kept out by 0 and looks when 0 has stored its factory, while 1 waits. *)
Definition schedule : list (action domain_event) :=
  [Calls 0 created; Calls 1 created; Calls 2 make; Calls 3 make;
   Goes 2; Goes 2; Goes 0; Goes 2; Returns 2; Goes 0; Goes 1; Goes 0; Goes 0; Goes 0;
   Goes 3; Goes 3; Goes 3; Goes 3; Goes 1].

Definition played := play schedule (start ∅ 4).
Definition played_trace : list (nat * event domain_event) := default [] (fst <$> played).
Definition played_state := default (start ∅ 4) (snd <$> played).

Lemma played_run : run registry_step (start ∅ 4) played_trace (played_state.1, played_state.2).
Proof. apply (play_run schedule). vm_compute. done. Qed.

(** What is seen: 2 got an error and has returned, and the others are still at work. *)
Example played_events :
  played_trace = [(0, Called created); (1, Called created); (2, Called make); (3, Called make);
                  (2, Came (CreateResult (Err (ErrorString "event type is not registered"))))] ∧
  played_state.2 = [RegReturn (Returned tt);
                    RegLookup ProductCreatedEventType (λ _, ProductCreated_zero);
                    Outside; CreateReturn (Ok ProductCreated_zero)].
Proof. vm_compute. done. Qed.

Lemma registry_linearizable_witness :
  (∃ cs, run atomic_step (∅, replicate 4 Away) played_trace (eventRegistry played_state.1, cs)) ∧
  ¬ data_race played_state.2 ∧
  ∀ i p, played_state.2 !! i = Some p → turn played_state.1 p ≠ Fatal.
Proof. apply (registry_linearizable ∅ 4 played_trace), played_run. Defined.

Lemma registry_calls_return_witness :
  (∀ k s, nsteps own_step k (played_state.1, played_state.2) s → k ≤ 6) ∧
  ∃ j q, played_state.2 !! j = Some q ∧ goes_on played_state.1 q.
Proof.
  destruct (registry_calls_return ∅ 4 played_trace played_state.1 played_state.2 played_run)
    as [Hk Hgo].
  split; [exact Hk|]. by apply (Hgo 1 (RegLookup ProductCreatedEventType (λ _, ProductCreated_zero))).
Defined.
