(* ===== verification/SharedWitnesses.v ===== *)
(** * SharedWitnesses: runs among other sessions

    Concrete runs on the reference server with a script of what others do between the
    calls: instances of the theorems of Concurrent and Sessions, and a run of two
    projections on the same read model that loses a view. *)
From stdpp Require Import relations.
From S2P Require Import Prelude GoJson EventSrc Outbox Cqrs Product Sql Pgx PgStores Commands Relay.
From S2P Require Import ReadModel Nats System PgRef RefNats Scenario.
From S2P Require Import Shared Steps Concurrent Sessions Instances SharedNats RefShared.

(** A session among others that run commands. *)
Definition busy : Type := crowd nats_state Empty_set foreign_command.
Definition bgb : context busy := context_Background.

(** The messages are those this broker would send. *)
#[local] Instance busy_log : MessageLog nats_state (string * json) | 0 := nats_MessageLog (W := busy).
#[local] Instance busy_broker : BrokerShared busy nats_state (string * json) := NATSBroker_BrokerShared.

Definition among (w : calm) (script : list (list foreign_command)) : busy :=
  {| cw_base := w; cw_script := script; cw_held := [] |}.

Lemma busy_others (s s' : tables * nats_state) : others (W := busy) s s' → rtc write_step s s'.
Proof. apply foreign_acts. Qed.

Lemma busy_others_app (s s' : tables * nats_state) : others (W := busy) s s' → rtc app_step s s'.
Proof. intros Ho%busy_others. apply (rtc_subrel write_step); [|done]. by left. Qed.

Lemma sound_among w script : sys_inv w → sound (shared (among w script)).
Proof. intros [Hr Ho _ _]. split; [done|]. exact Ho. Qed.

(** What others do: an update of the product, and a creation of another. *)
Definition other_update : foreign_command :=
  {| fc_id := eid 50; fc_now := at_second 50; fc_command := update |}.
Definition other_create : foreign_command :=
  {| fc_id := eid 51; fc_now := at_second 51; fc_command := CreateCommand (createCmd (UUID 8)) |}.

(** The update's calls: begin, snapshot, events, two batches, commit, rollback. *)
Definition w_between : busy := among (after_commands 1) [[]; []; [other_update; other_create]].
Definition w_overtaken : busy := among (after_commands 1) [[]; []; []; [other_update]].

(** The stream grows between the two readings of the load: the update continues it; if
    it grows after the load, the update is refused. *)
Example update_between :
  (command_Handle (eid 1) (at_second 1) bgb update w_between).2 = None ∧
  (er_version <$> rows_of (shared (command_Handle (eid 1) (at_second 1) bgb update w_between).1).1 pid)
    = [1; 2; 3]%Z ∧
  (command_Handle (eid 1) (at_second 1) bgb update w_overtaken).2 =
    Some (Wrapf "failed to save aggregate" (ErrConcurrency "concurrency error")).
Proof. vm_compute. done. Qed.

(** ** The theorems at these runs *)

Lemma command_linearizable_witness :
  ∃ s s', others (shared w_between) s ∧
    others s' (shared (command_Handle (eid 1) (at_second 1) bgb update w_between).1) ∧ sound s ∧
    ((s' = s ∧ (command_Handle (eid 1) (at_second 1) bgb update w_between).2 ≠ None) ∨
     (s'.2 = s.2 ∧ Product_Validate (command_product update) = None ∧
      ∃ ver p, appended snapshotFrequency (command_event (eid 1) (at_second 1) update ver) p s.1 s'.1)).
Proof.
  apply (command_linearizable busy_others_app (eid 1) (at_second 1) bgb update w_between).
  - apply sound_among, after_commands_sys_inv.
  - apply surjective_pairing.
Defined.

(** A poll during which another session appends an event. *)
Definition w_polling : busy := among w_updated [[]; [other_create]; [other_update]].
Definition poll_run := processBatch 10 bgb w_polling.

Example polling_publishes :
  poll_run.2 = None ∧ length (outbox (shared poll_run.1).1) = 4 ∧
  length (backlog (shared poll_run.1).1) = 1 ∧ length (ns_log (shared poll_run.1).2) = 3.
Proof. vm_compute. done. Qed.

Lemma relay_concurrent_witness :
  rtc (λ s s', others s s' ∨ relay_step s s') (shared w_polling) (shared poll_run.1) ∧
  (poll_run.2 = None → ∃ tx w1 w2 rows, Pool_Begin w_polling = (w1, Ok tx) ∧
     Tx_Query tx (SelectUnpublished 10) w1 = (w2, Ok (rows, None)) ∧
     answers (SelectUnpublished 10) (others_hold w2) (shared w2).1 rows ∧
     Forall (λ row, {| or_event := row; or_published := true |} ∈ outbox (shared poll_run.1).1 ∧
                    posted_in (shared poll_run.1).2 row) rows).
Proof.
  apply (relay_concurrent busy_others_app 10 bgb w_polling).
  - apply sound_among, after_commands_sys_inv.
  - apply surjective_pairing.
Defined.

(** The projection of the creation, while the product is updated. *)
Definition w_projecting : busy := among w_relayed [[]; [other_update]; [other_create]].
Definition project_run :=
  Projection_Handle productProjection bgb (RowToOutboxEvent (row_at w_relayed 0)) w_projecting.

Lemma projection_concurrent_witness :
  project_run.2 = None ∧
  rtc (λ s s', others s s' ∨ view_step s s') (shared w_projecting) (shared project_run.1) ∧
  (project_run.2 = None → (er_event_id (row_at w_relayed 0), ProductProjection) ∈
     processed_events (shared project_run.1).1).
Proof.
  split; [vm_compute; done|].
  apply (projection_concurrent (pause := no_pause) busy_others) with (ctx := bgb).
  - by intros w1 w2 ->.
  - apply sound_among, w_relayed_sys_inv.
  - vm_compute. left.
  - apply surjective_pairing.
Defined.

(** A session on an empty server: it creates the product, which another session then
    updates, publishes both events, and projects the first; then it answers a query. *)
Definition w_empty : busy := among empty_world (replicate 5 [] ++ [[other_update]; []; []; [other_create]]).
Definition session_created : busy := (command_Handle (eid 0) (at_second 0) bgb create w_empty).1.
Definition session_polled : busy := (processBatch 10 bgb session_created).1.
Definition row_stored (n : nat) (w : busy) : event_row :=
  nth n (event_store (shared w).1) (row_at w_updated n).
Definition session_projected : busy :=
  (Projection_Handle productProjection bgb (RowToOutboxEvent (row_stored 0 session_polled)) session_polled).1.
Definition session_queried := GetProductByIDHandler_Query bgb {| q_ID := pid |} session_projected.

Example session_story :
  (er_version <$> event_store (shared session_projected).1) = [1; 2; 1]%Z ∧
  length (ns_log (shared session_projected).2) = 2 ∧
  view_version (shared session_projected).1 pid = 1%Z ∧
  (∃ v, session_queried.2 = Ok v ∧ pv_Version v = 1%Z).
Proof. vm_compute. split_and!; [done..|]. by eexists. Qed.

Lemma session_safe_witness :
  length (event_store (shared session_projected).1) = 3 ∧
  products_inv (shared session_projected).1 ∧ view_ok (shared session_projected).1 ∧
  logged (shared session_projected).2 `prefix_of` logged (shared session_queried.1).2.
Proof.
  split; [vm_compute; done|].
  destruct (session_safe (pause := no_pause) true busy_others_app) with (ctx := bgb)
    (w0 := w_empty) (w := session_projected) (w' := session_queried.1)
    as (_ & Hp & Hv & _ & _ & _ & _ & Hl); [..|done].
  - intros _. exact busy_others.
  - by intros w1 w2 ->.
  - done.
  - done.
  - apply (rtc_l _ _ session_created);
      [exact (session_command true bgb (eid 0) (at_second 0) create _ _ _ (surjective_pairing _))|].
    apply (rtc_l _ _ session_polled);
      [exact (session_poll true bgb 10 _ _ _ (surjective_pairing _))|].
    apply rtc_once.
    refine (session_delivery true bgb (row_stored 0 session_polled) _ _ _ eq_refl _ (surjective_pairing _)).
    apply list_elem_of_lookup. exists 0. vm_compute. done.
  - apply rtc_once.
    exact (session_query true bgb {| q_ID := pid |} _ _ _ (surjective_pairing _)).
Defined.

(** ** Two instances of the projection *)

(** The product has three versions; its view shows the first. *)
Definition w_first : calm := polled (relayed (after_commands 1)).
Definition w_three : calm := (run_commands bg [story 1; story 2] w_first).1.

(** One instance handles the second event; between its reading of the view's version and
    its write another one handles the second and the third. *)
#[local] Existing Instance delivery_act.
#[local] Existing Instance delivery_ActLaws.
Definition rivals : Type := crowd nats_state Empty_set foreign_delivery.
Definition w_rivals : rivals :=
  {| cw_base := w_three; cw_held := [];
     cw_script := [[]; []; []; [{| fd_position := 1 |}; {| fd_position := 2 |}]] |}.
Definition rivals_run :=
  Projection_Handle productProjection (context_Background (W := rivals))
    (RowToOutboxEvent (row_at w_three 1)) w_rivals.

(** Both have handled their events, the third event is marked, and the view shows the
    second: it will never move again. *)
Example two_instances :
  (er_version <$> event_store (committed w_three)) = [1; 2; 3]%Z ∧
  view_version (committed w_three) pid = 1%Z ∧
  view_version (shared rivals_run.1).1 pid = 2%Z ∧
  (er_event_id (row_at w_three 2), ProductProjection) ∈ processed_events (shared rivals_run.1).1.
Proof. split_and!; [vm_compute; done..|]. by apply (bool_decide_unpack _); vm_compute. Qed.

(** What the other instance does are steps of an instance. *)
#[local] Instance rivals_log : MessageLog nats_state (string * json) | 0 := nats_MessageLog (W := rivals).

Lemma deliver_steps r t (n : nats_state) :
  r ∈ event_store t → rtc any_step (t, n) ((deliver r t).1, n).
Proof.
  intros Hin. unfold deliver. case_decide; [done|].
  assert (∀ t, r ∈ event_store t → any_step (t, n) (mark (er_event_id r) t, n)) as Hmark.
  { intros t' Hin'. right. by apply instance_mark. }
  destruct (_ <=? _)%Z; [by apply rtc_once, Hmark|]. destruct (_ =? _)%Z; [|done].
  eapply rtc_l; [right; by apply instance_write|]. apply rtc_once, Hmark.
  by rewrite handler_effect_events.
Qed.

Lemma rivals_others (s s' : tables * nats_state) : others (W := rivals) s s' → rtc any_step s s'.
Proof.
  induction 1 as [|s1 s2 s3 (e & h & Ha) _ IH]; [done|]. etrans; [|done].
  destruct s1 as [t n]. unfold act, delivery_act in Ha.
  destruct (event_store t !! fd_position e) as [r|] eqn:Hr; [|done]. injection Ha as <-.
  by eapply deliver_steps, list_elem_of_lookup_2.
Qed.

Lemma projection_instances_witness :
  let s := shared rivals_run.1 in
  view_version s.1 pid = 2%Z ∧ read_inv s.1 ∧ Forall (λ o, or_published o = true → posted_in s.2 (or_event o)) (outbox s.1) ∧
  grows (shared w_rivals).1 s.1 ∧ logged (shared w_rivals).2 `prefix_of` logged s.2 ∧
  (rivals_run.2 = None → (er_event_id (row_at w_three 1), ProductProjection) ∈ processed_events s.1).
Proof.
  intros s. split; [vm_compute; done|].
  apply (projection_instances (pause := no_pause) rivals_others) with (ctx := context_Background).
  - by intros w1 w2 ->.
  - assert (sys_inv w_three) as [Hr Ho _ _]; [|by split].
    apply run_commands_sys_inv, polled_sys_inv, relayed_sys_inv, after_commands_sys_inv.
  - apply list_elem_of_lookup. exists 1. vm_compute. done.
  - vm_compute. reflexivity.
Defined.

(** The late write alone, and what every delivery after it does. *)
Definition w_third : calm := polled (relayed w_three).
Definition late_run := ProductProjectionHandler_Handle bg (RowToOutboxEvent (row_at w_three 1)) w_third.
Definition late_deliveries := handle_all bg [row_at w_three 2; row_at w_three 1] late_run.1.

Lemma late_view_write_witness :
  late_run.2 = None ∧ view_version (committed late_run.1) pid = 2%Z ∧
  product_views (committed late_deliveries.1) !! pid = product_views (committed late_run.1) !! pid.
Proof.
  apply (late_view_write (pause := no_pause) bg (row_at w_three 1) (row_at w_three 2)
    [row_at w_three 2; row_at w_three 1] w_third late_run.1 late_deliveries.1 _ late_deliveries.2).
  - apply sys_read, polled_sys_inv, relayed_sys_inv, run_commands_sys_inv, polled_sys_inv,
      relayed_sys_inv, after_commands_sys_inv.
  - apply list_elem_of_lookup. exists 1. vm_compute. done.
  - intros e He. vm_compute in He. injection He as <-. split; eexists; vm_compute; done.
  - apply list_elem_of_lookup. exists 2. vm_compute. done.
  - vm_compute. done.
  - vm_compute. done.
  - apply (bool_decide_unpack _). vm_compute. done.
  - vm_compute. done.
  - apply Forall_cons. split; [|apply Forall_singleton]; apply list_elem_of_lookup;
      [exists 2|exists 1]; vm_compute; done.
  - vm_compute. reflexivity.
  - vm_compute. reflexivity.
Defined.
