(* ===== verification/OnceWitnesses.v ===== *)
(** * OnceWitnesses: a process manager, delivered to twice and by two instances

    A subscriber that answers the creation of a product by creating another one, in the
    transaction that marks the event, on the reference server with another instance of
    the same subscriber: instances of the theorems of Once. *)
From stdpp Require Import relations.
From S2P Require Import Prelude GoJson EventSrc Outbox Cqrs Product Sql Pgx PgStores Commands Relay.
From S2P Require Import ReadModel Nats System PgRef RefNats Scenario.
From S2P Require Import Shared Concurrent Once RefShared.

(** ** The subscriber *)

Definition stockist : string := "Stockist".

(** The product it creates for an event, and the aggregate that records its creation. *)
Definition stock_event (evt : OutboxEvent) : domain_event :=
  let '(UUID n) := oe_EventID evt in
  command_event (UUID (n + 1000)) (oe_Ts evt) (CreateCommand (createCmd (UUID (n + 2000)))) 1.
Definition stock (evt : OutboxEvent) : ProductAggregate :=
  (TrackChange (stock_event evt) NewProductAggregateEmpty).1.

Lemma stock_events evt : GetUncommittedEvents (stock evt) = [stock_event evt].
Proof. unfold stock, stock_event. by destruct (oe_EventID evt). Qed.

(** What it queues: the rows of the event for both tables. *)
Definition stock_log (evt : OutboxEvent) : list stmt → Prop := save_log 5 (stock evt).

(** ** Another instance of it *)

(** It handles the message of the event at a position of the event store, at once. *)
Record foreign_stock := { fs_position : nat }.

Definition stock_commit (evt : OutboxEvent) : res (list stmt) :=
  match queue_events InsertEvent (GetUncommittedEvents (stock evt)),
        queue_events InsertOutbox (GetUncommittedEvents (stock evt)) with
  | Ok b1, Ok b2 => Ok ((b1 ++ b2) ++ [InsertProcessed (oe_EventID evt) stockist])
  | Err e, _ | _, Err e => Err e
  end.

#[local] Instance stock_act {R} : Act R foreign_stock := λ e _ '(t, n),
  match event_store t !! fs_position e with
  | Some r =>
      match stock_commit (RowToOutboxEvent r) with
      | Ok log => match replay log t with Ok t' => Some (t', n) | Err _ => None end
      | Err _ => None
      end
  | None => None
  end.

Lemma stock_commit_log evt log :
  stock_commit evt = Ok log →
  ∃ l, stock_log evt l ∧ log = l ++ [InsertProcessed (oe_EventID evt) stockist].
Proof.
  unfold stock_commit. destruct (queue_events InsertEvent _) as [b1|] eqn:Hq1; [|done].
  destruct (queue_events InsertOutbox _) as [b2|] eqn:Hq2; [|done]. intros [= <-].
  exists (b1 ++ b2). split; [|done]. exists b1, b2, []. rewrite app_nil_r.
  split_and!; [done|done|by left|done].
Qed.

Lemma stock_act_commit {R} e h (s s' : tables * R) :
  act e h s = Some s' →
  ∃ evt log, stock_commit evt = Ok log ∧ replay log s.1 = Ok s'.1.
Proof.
  destruct s as [t n]. unfold act, stock_act. destruct (event_store t !! _) as [r|]; [|done].
  destruct (stock_commit _) as [log|] eqn:Hc; [|done].
  destruct (replay log t) as [t'|] eqn:Hr; [|done]. intros [= <-].
  by exists (RowToOutboxEvent r), log.
Qed.

#[local] Instance stock_ActLaws {R} : ActLaws R foreign_stock.
Proof.
  split. intros e h s s' (evt & log & (l & Hl & ->)%stock_commit_log & Hrep)%stock_act_commit.
  rewrite replay_app in Hrep. destruct (replay l s.1) as [t1|] eqn:Hr1; [|done].
  destruct (save_log_saved _ _ _ _ _ Hl Hr1) as (rs & sn & _ & _ & _ & ->). simpl in Hrep.
  destruct (insert_processed _ _ _) as [[t2 n]|] eqn:Hx; [|done]. injection Hrep as <-.
  apply insert_processed_Ok in Hx as (sub' & _ & _ & ->). intros o Ho _. simpl.
  apply elem_of_app. by left.
Qed.

Definition stock_queues (_ : string) : OutboxEvent → list stmt → Prop := stock_log.

(** The other instance takes no mark back. *)
Lemma stock_acts_keep {R} (s s' : tables * R) :
  rtc acts s s' → processed_events s.1 ⊆ processed_events s'.1.
Proof.
  induction 1 as [|a b c (e & h & (evt & log & _ & Hrep)%stock_act_commit) _ IH]; [done|].
  etrans; [|exact IH]. intros k Hk. destruct (replay_marks _ _ _ Hrep) as (_ & _ & Hend).
  apply Hend. by right.
Qed.

(** ** The runs *)

Definition instances : Type := crowd nats_state Empty_set foreign_stock.
Definition bgi : context instances := context_Background.

Definition stockProjection : Projection instances (context instances) :=
  NewProjection stockist (save_reaction 5 stock) [].

Definition created : OutboxEvent := RowToOutboxEvent (row_at w_relayed 0).

(** Undisturbed; and with the other instance handling the message after this one has read
    the version and before it begins its transaction. *)
Definition w_alone : instances := {| cw_base := w_relayed; cw_script := []; cw_held := [] |}.
Definition w_raced : instances :=
  {| cw_base := w_relayed; cw_script := [[]; []; [{| fs_position := 0 |}]]; cw_held := [] |}.

Definition twice := [(stockProjection, created); (stockProjection, created)].

(** Alone, both deliveries are acknowledged; in the race the first one reports an error
    and the second is acknowledged; in both cases there is one reaction. *)
Example one_reaction :
  (handle_each bgi twice w_alone).2 = [None; None] ∧
  length (event_store (shared (handle_each bgi twice w_alone).1).1) = 3 ∧
  match (handle_each bgi twice w_raced).2 with [Some _; None] => true | _ => false end = true ∧
  length (event_store (shared (handle_each bgi twice w_raced).1).1) = 3.
Proof. vm_compute. done. Qed.

#[local] Instance stock_TxHandler : TxHandler (W := instances) (handler stockProjection) stock_log.
Proof. apply save_reaction_TxHandler. intros evt. by rewrite stock_events. Qed.

Lemma stock_subscriber : subscriber (W := instances) stock_queues stockProjection.
Proof. split; [exact stock_TxHandler|vm_compute; done]. Qed.

Definition raced := Projection_Handle stockProjection bgi created w_raced.

Lemma Projection_Handle_once_witness :
  (∃ s s', others (shared w_raced) s ∧ others s' (shared raced.1) ∧
     (s' = s ∨ (s'.2 = s.2 ∧ (event_key stockProjection created ∉ processed_events s.1) ∧
        ∃ v log, read_before bgi created v (shared w_raced) s ∧
          due stockProjection stock_log created v log ∧ replay log s.1 = Ok s'.1))) ∧
  (raced.2 = None → event_key stockProjection created ∈ processed_events (shared raced.1).1).
Proof.
  apply (Projection_Handle_once (pause := no_pause)).
  - apply stock_acts_keep.
  - by intros w1 w2 ->.
  - apply _.
  - vm_compute. done.
  - apply surjective_pairing.
Defined.

Definition raced_twice := handle_each bgi twice w_raced.

Lemma deliveries_exactly_once_witness :
  ∃ cs, length cs = length twice ∧
    delivered stock_queues bgi (shared w_raced) twice cs (shared raced_twice.1) ∧
    ((∀ s s', others (W := instances) s s' → s' = s) →
       (shared raced_twice.1).2 = (shared w_raced).2 ∧
       replay (committed_log cs) (shared w_raced).1 = Ok (shared raced_twice.1).1) ∧
    (∀ i m log, twice !! i = Some m → cs !! i = Some (Some log) → event_key m.1 m.2 ∈ marks log) ∧
    (∀ i j log log' k, cs !! i = Some (Some log) → cs !! j = Some (Some log') →
       k ∈ marks log → k ∈ marks log' → i = j) ∧
    (∀ i log k, cs !! i = Some (Some log) → k ∈ marks log → k ∉ processed_events (shared w_raced).1) ∧
    (∀ k, (∀ s s', others (W := instances) s s' → k ∈ processed_events s'.1 → k ∈ processed_events s.1) →
       k ∉ processed_events (shared w_raced).1 → k ∈ processed_events (shared raced_twice.1).1 →
       ∃ i log, cs !! i = Some (Some log) ∧ k ∈ marks log) ∧
    Forall2 (λ m r, r = None → event_key m.1 m.2 ∈ processed_events (shared raced_twice.1).1)
      twice raced_twice.2.
Proof.
  apply (deliveries_exactly_once (pause := no_pause) stock_queues) with (ctx := bgi).
  - apply stock_acts_keep.
  - by intros w1 w2 ->.
  - apply Forall_cons. split; [apply stock_subscriber|]. apply Forall_singleton, stock_subscriber.
  - apply surjective_pairing.
Defined.

(** ** Without failures: a subscriber that keeps an audit trail in its transaction *)

Definition audit : Projection calm (context calm) := NewProjection "Audit" (λ _ _, mret None) [].
Definition auditor : Projection calm (context calm) :=
  NewProjection "Auditor" (λ txCtx evt, MarkAsProcessed txCtx (oe_EventID evt) "Audit") [].

Definition audit_run := Projection_Handle auditor bg created w_relayed.

Lemma Projection_Handle_applies_witness :
  audit_run.2 = None ∧ rest audit_run.1 = rest w_relayed ∧
  committed audit_run.1 =
    with_mark (oe_EventID created, "Auditor"%string)
      (with_mark (oe_EventID created, "Audit"%string) (committed w_relayed)).
Proof.
  apply (Projection_Handle_applies (pause := no_pause) auditor) with (ctx := bg) (evt := created) (v := 0%Z).
  - vm_compute. done.
  - apply (bool_decide_unpack _). vm_compute. done.
  - apply (bool_decide_unpack _). vm_compute. done.
  - vm_compute. done.
  - vm_compute. done.
  - intros w1 Hs. apply wp_view_GetVersion_reliable. intros w2 Hs2. split; [|done].
    rewrite (still_committed _ _ Hs). vm_compute. done.
  - intros w1 tx Hs Ha. apply (wp_mark_fits audit) with (tx := tx) (t := committed w_relayed).
    + vm_compute. done.
    + done.
    + done.
    + apply (bool_decide_unpack _). vm_compute. done.
    + done.
  - apply surjective_pairing.
Defined.
