(* ===== verification/LiveWitnesses.v ===== *)
(** * LiveWitnesses: an infinite run, and other instances

    A fair infinite run of the application on the reference server, to which the
    liveness theorem of Live applies, a relay that is started and stopped, a start of
    main, and instances of the theorems of Loads. *)
From Stdlib Require Import SpecFloat.
From stdpp Require Import relations.
From S2P Require Import Prelude GoJson EventSrc Outbox Cqrs Product Sql Pgx PgStores Commands Loads Sourcing Relay.
From S2P Require Import ReadModel Nats System Live Lifecycle Main PgRef RefNats Scenario.

(** ** Loads *)

Definition load_frozen := Repository_Load newEmptyProduct bg pid w_frozen.

Lemma load_equals_replay_witness :
  ∃ p q, load_frozen.2 = Ok p ∧ replay_all (committed w_frozen) pid = Ok q ∧
    prod_Name (pa_Product p) = prod_Name (pa_Product q) ∧
    prod_Price (pa_Product p) = prod_Price (pa_Product q) ∧
    GetUncommittedEvents p = [] ∧ GetUncommittedEvents q = [] ∧
    (Forall (λ s, sr_aggregate_id s ≠ pid) (snapshots (committed w_frozen)) → p = q) ∧
    (version (root p) ≠ version (root q) ↔
      Exists (λ s, sr_aggregate_id s = pid ∧ sr_aggregate_version s = version (root q))
        (snapshots (committed w_frozen))) ∧
    (version (root p) ≠ version (root q) → version (root p) = 0%Z).
Proof.
  apply (load_equals_replay bg pid w_frozen load_frozen.1).
  - apply sys_read, (after_commands_sys_inv 5).
  - done.
  - vm_compute. done.
Defined.

(** ** The repository's contract, for the product *)

Definition two_events : list domain_event :=
  [command_event (eid 0) (at_second 0) create 1; command_event (eid 1) (at_second 1) update 2].
Definition two_changes : ProductAggregate := (TrackChanges two_events newEmptyProduct).1.
Definition save_two := save_in_tx eventRegistry 5 bg two_changes empty_world.
Definition load_two := Repository_Load newEmptyProduct bg pid save_two.1.

Lemma command_event_readable newID now c ver :
  event_canon (command_event newID now c ver) = command_event newID now c ver →
  readable eventRegistry (command_event newID now c ver).
Proof.
  intros Hc r Hst. destruct (command_event_product newID now c ver) as (Hp & Hty & _).
  pose proof (stored_decode _ _ Hp Hty Hst) as Hd. rewrite Hc in Hd. unfold decode_row in Hd.
  destruct (CreateEvent _ _) as [z|] eqn:Hz; [|done]. by exists z.
Qed.


(** What the product does not owe: the snapshot of its fifth version does not restore it,
    since neither the id nor the version is in it. *)
Definition five_changes : ProductAggregate :=
  (TrackChanges (two_events ++ [command_event (eid 2) (at_second 2) update 3;
     command_event (eid 3) (at_second 3) update 4; command_event (eid 4) (at_second 4) update 5])
     newEmptyProduct).1.

Example product_snapshot_unfaithful : ¬ snapshot_faithful 5 newEmptyProduct five_changes.
Proof.
  intros Hf. destruct (MarshalJSON five_changes) as [p|] eqn:Hm; vm_compute in Hm; [|done].
  injection Hm as <-. specialize (Hf eq_refl _ eq_refl). vm_compute in Hf. done.
Qed.

(** ** A fair run: a creation, a relay poll, a subscriber poll, then relay polls forever *)

Fixpoint live_run (n : nat) : calm :=
  match n with
  | 0 => empty_world
  | S i =>
      match i with
      | 0 => (command_Handle (eid 0) (at_second 0) bg create (live_run i)).1
      | 2 => polled (live_run i)
      | _ => relayed (live_run i)
      end
  end.

(** A poll of an empty outbox does nothing. *)
Lemma idle_poll (w w' : calm) bs r :
  backlog (committed w) = [] → processBatch bs bg w = (w', r) →
  committed w' = committed w ∧ stream_log (W := calm) (rest w') = stream_log (W := calm) (rest w) ∧
  acked (W := calm) (rest w') = acked (W := calm) (rest w).
Proof.
  intros Hb Hrun.
  assert (∃ rows pubs, batch_outcome bs w r w' rows pubs ∧ aside (rest w') = aside (rest w))
    as (rows & pubs & (Hp & Hpre & Hans & Hcase) & Has) by (wp_start Hrun; apply wp_processBatch).
  assert (rows = []) as ->.
  { destruct Hans as [?|(w1 & tx & _ & rst & Hperm & _)]; [done|].
    rewrite no_locked, filter_unpublished_nil in Hperm. unfold backlog in Hb. rewrite Hb in Hperm.
    apply Permutation_nil_r, app_eq_nil in Hperm. by destruct Hperm. }
  apply prefix_nil_inv in Hpre as ->. simpl in Hp. rewrite app_nil_r in Hp.
  split_and!; [|done|done]. by destruct Hcase as [[? _]|[? _]].
Qed.

Lemma live_tail n :
  committed (live_run (3 + n)) = committed (live_run 3) ∧
  stream_log (W := calm) (rest (live_run (3 + n))) = stream_log (W := calm) (rest (live_run 3)) ∧
  acked (W := calm) (rest (live_run (3 + n))) = acked (W := calm) (rest (live_run 3)).
Proof.
  induction n as [|n (Hc & Hl & Hk)]; [exact (conj eq_refl (conj eq_refl eq_refl))|].
  destruct (idle_poll (live_run (3 + n)) (live_run (3 + S n)) 10 (processBatch 10 bg (live_run (3 + n))).2)
    as (Hc' & Hl' & Hk').
  - rewrite Hc. vm_compute. done.
  - apply surjective_pairing.
  - rewrite Hc', Hl', Hk'. exact (conj Hc (conj Hl Hk)).
Qed.

(** Something that holds of the first three tables and of the last holds of all. *)
Lemma live_cases (P : tables → Prop) :
  P (committed (live_run 0)) → P (committed (live_run 1)) → P (committed (live_run 2)) →
  P (committed (live_run 3)) → ∀ i, P (committed (live_run i)).
Proof.
  intros H0 H1 H2 H3 [|[|[|i]]]; [exact H0|exact H1|exact H2|].
  destruct (live_tail i) as (Hc & _ & _). change (S (S (S i))) with (3 + i). rewrite Hc. exact H3.
Qed.

Lemma live_app_run : app_run bg live_run.
Proof.
  split; [exact eq_refl|exact (conj eq_refl eq_refl)|].
  intros [|[|[|i]]].
  - eapply step_command, surjective_pairing.
  - eapply step_relay, surjective_pairing.
  - eapply step_subscriber, surjective_pairing.
  - eapply step_relay, surjective_pairing.
Qed.

Lemma live_fair_run : fair_run bg live_run.
Proof.
  split.
  - intros i. exists (3 + i), 10%Z, (processBatch 10 bg (live_run (3 + i))).2.
    split; [lia|]. split; [done|]. apply surjective_pairing.
  - intros i m Hm. exists (3 + i). split; [lia|]. left. destruct (live_tail i) as (_ & Hl & Hk).
    assert (m ∈ stream_log (W := calm) (rest (live_run 3))) as Hm3.
    { rewrite <- Hl. eapply elem_of_prefix; [exact Hm|].
      apply (run_evolves (pause := no_pause) no_pause_evolves bg live_run live_app_run). lia. }
    rewrite Hk. clear -Hm3.
    assert (Forall (λ m, m.2 ∈ acked (W := calm) (rest (live_run 3))) (stream_log (W := calm) (rest (live_run 3)))) as Hall.
    { vm_compute. repeat constructor. }
    rewrite Forall_forall in Hall. by apply Hall.
  - intros r. exists 3. intros j x Hj Hx Hn. destruct Hn. destruct (live_tail (j - 3)) as (Hc & _).
    replace (3 + (j - 3)) with j in Hc by lia. rewrite Hc in Hx. exact Hx.
Qed.

(** The one event of the run can be shown. *)
Lemma one_row_shown r t :
  rows_of t pid = [r] → r = row_at (live_run 1) 0 → Forall can_show (rows_of t pid).
Proof.
  intros -> ->. apply Forall_singleton. intros e He. vm_compute in He. injection He as <-.
  split; eexists; vm_compute; done.
Qed.

Lemma eventually_seen_witness :
  row_at (live_run 1) 0 ∈ rows_of (committed (live_run 1)) pid ∧
  ∃ j, 1 ≤ j ∧ ∀ k w' res, j ≤ k →
    GetProductByIDHandler_Query bg {| q_ID := pid |} (live_run k) = (w', res) →
    ∃ pv, res = Ok pv ∧ (er_version (row_at (live_run 1) 0) ≤ pv_Version pv)%Z.
Proof.
  assert (row_at (live_run 1) 0 ∈ rows_of (committed (live_run 1)) pid) as Hr.
  { apply list_elem_of_lookup. exists 0. vm_compute. done. }
  split; [exact Hr|].
  apply (eventually_seen (pause := no_pause) no_pause_evolves bg live_run live_app_run live_fair_run
    pid) with (i := 1).
  - apply (live_cases (λ t, rows_of t pid = [] ∨ created_stream t pid)).
    + left. vm_compute. done.
    + right. eexists _, _. vm_compute. done.
    + right. eexists _, _. vm_compute. done.
    + right. eexists _, _. vm_compute. done.
  - apply (live_cases (λ t, Forall can_show (rows_of t pid))); [exact (Forall_nil_2 _)|..];
      apply (one_row_shown (row_at (live_run 1) 0)); vm_compute; reflexivity.
  - exact Hr.
Defined.

(** ** A relay is started, polls, and is stopped *)

Definition nothing_else (w w' : calm) : Prop := w' = w.

Definition p_started : process := Start (new_process 10).
Definition p_stopping : process := Stop p_started.
Definition p_left : process := leave 0 ShutDown p_stopping.
Definition p_stopped : process := stopped p_left.

Definition life_run (n : nat) : process * calm :=
  match n with
  | 0 => (new_process 10, w_updated)
  | 1 => (p_started, w_updated)
  | 2 => (p_started, w_relayed)
  | 3 => (p_stopping, w_relayed)
  | 4 => (p_left, w_relayed)
  | _ => (p_stopped, w_relayed)
  end.

(** The poll's result, an error or nil, is only logged. *)
Lemma life_poll : worker_turn 10 bg Tick w_updated = (w_relayed, None).
Proof. vm_compute. reflexivity. Qed.

Lemma life_run_step i : i < 5 → life_step nothing_else bg (life_run i) (life_run (S i)).
Proof.
  destruct i as [|[|[|[|[|i]]]]]; intros Hi; [..|lia].
  - by apply life_start.
  - apply (life_turn nothing_else bg 0 Tick p_started w_updated w_relayed None); [done|done|].
    exact life_poll.
  - by apply life_stop.
  - by apply (life_turn nothing_else bg 0 QuitClosed p_stopping w_relayed w_relayed (Some ShutDown)).
  - by apply life_stopped.
Qed.

Lemma life_run_steps i :
  life_step nothing_else bg (life_run i) (life_run (S i)) ∨ life_run (S i) = life_run i.
Proof.
  destruct (decide (i < 5)) as [Hi|Hi]; [left; by apply life_run_step|right].
  by destruct i as [|[|[|[|[|i]]]]]; try lia.
Qed.

Lemma stop_waits_witness :
  all_returned p_stopped ∧
  ∀ p w, rtc (life_step nothing_else bg) (p_stopped, w_relayed) (p, w) →
    length (workers p) = 1 → all_returned p ∧ rtc nothing_else w_relayed w.
Proof.
  apply (stop_waits nothing_else bg 10 w_updated p_left w_relayed p_stopped w_relayed).
  - apply (rtc_l _ _ (life_run 1)); [apply (life_run_step 0); lia|].
    apply (rtc_l _ _ (life_run 2)); [apply (life_run_step 1); lia|].
    apply (rtc_l _ _ (life_run 3)); [apply (life_run_step 2); lia|].
    apply rtc_once, (life_run_step 3). lia.
  - by apply life_stopped.
  - done.
  - done.
Defined.

Lemma stop_returns_witness :
  relay_owner (life_run 3).1 = Waiting ∧ ∃ j, 3 ≤ j ∧ finished (life_run j).1.
Proof.
  split; [done|].
  apply (stop_returns nothing_else bg 10 life_run); [done|apply life_run_steps|..].
  - intros i m. exists (5 + m). split; [lia|]. intros Hi. by destruct i as [|[|i]].
  - intros m. exists (5 + m). split; [lia|done].
  - done.
Defined.

(** ** A start of main on a desk where every call succeeds *)

(** What is open: [true] the pool, [false] the connection. *)
Definition desk : Type := list bool.

#[local] Instance desk_Env : Env desk := {|
  PgxPool := unit;
  Conn := unit;
  os_Getenv _ := mret "set"%string;
  pgxpool_New _ d := (true :: d, Ok tt);
  Ping _ := mret None;
  Pool_Exec_DDL _ _ := mret None;
  Pool_Close _ d := (tl d, tt);
  nats_Connect _ d := (false :: d, Ok tt);
  Conn_JetStream _ := mret None;
  Conn_Close _ d := (tl d, tt);
|}.

Definition desk_open (d : desk) : list resource :=
  (λ b : bool, if b then OpenPool tt else OpenConn tt) <$> d.

#[local] Program Instance desk_EnvSpec : EnvSpec desk := {| opened := desk_open |}.
Next Obligation. by intros k w w' v [= <- _]. Qed.
Next Obligation. by intros dsn w w' r [= <- <-]. Qed.
Next Obligation. by intros p w w' r [= <- _]. Qed.
Next Obligation. by intros p s w w' r [= <- _]. Qed.
Next Obligation. intros p [|b w] w' u l [= <- _] Hl; [done|]. by injection Hl. Qed.
Next Obligation. by intros url w w' r [= <- <-]. Qed.
Next Obligation. by intros c w w' r [= <- _]. Qed.
Next Obligation. intros p [|b w] w' u l [= <- _] Hl; [done|]. by injection Hl. Qed.

#[local] Instance desk_JetStream : JetStream desk := {|
  uuid_String _ := ""%string;
  Sub := unit;
  Msg := unit;
  StreamInfo _ := mret None;
  AddStream _ _ := mret None;
  js_Publish _ _ := mret None;
  PullSubscribe _ _ := mret (Ok tt);
  Fetch _ _ := mret (Ok []);
  Msg_Data _ := JObject [];
  Ack _ := mret None;
  Nak _ := mret None;
|}.

#[local] Instance desk_keeps : JetStreamKeeps.
Proof.
  split; [by intros s w w' r [= <- _]|by intros s subs w w' r [= <- _]|by intros f d w w' r [= <- _]].
Qed.

Definition start_run : desk * started := main_start tt ([] : desk).

Lemma main_resources_witness :
  start_run.2 = Serving {| db_Pool := tt |} {| nb_conn := tt |}
    (relays ++ [Subscriber tt; Simulation]) ∧
  (∃ sub, relays ++ [Subscriber tt; Simulation] = relays ++ [Subscriber sub; Simulation]) ∧
  opened start_run.1 = [OpenConn tt; OpenPool tt] ∧
  ∀ w2 w3 u, opened w2 = opened start_run.1 →
    main_end {| db_Pool := tt |} {| nb_conn := tt |} w2 = (w3, u) → opened w3 = [].
Proof.
  split; [done|].
  exact (main_resources [] start_run.1 _ (eq_refl : main_start tt ([] : desk) = (start_run.1, _))).
Defined.
