(* ===== verification/TestSuites.v ===== *)
(** * TestSuites: the repository's own tests, run on the model

    cqrs/projection_test.go and outbox/relay_test.go as runs of the definitions on the
    reference server, with the mocks of the tests: what the tests assert of the program
    is computed here of the model. *)
From S2P Require Import Prelude GoJson EventSrc Outbox Cqrs Sql Pgx PgStores Commands Relay ReadModel.
From S2P Require Import PgRef RefNats TestUtil.

(** ** The bench *)

(** What the tests have besides the database of the program: the channel and the error of
    the [MockBroker], the table of the [VersionedRepository], and the count of the
    handler's calls. *)
Record bench := {
  PublishedEvents : list OutboxEvent;
  PublishError : option error;
  bench_views : option (gmap uuid Z);
  handlerCallCount : nat;
}.

Definition fresh_bench : bench :=
  {| PublishedEvents := []; PublishError := None; bench_views := None; handlerCallCount := 0 |}.

Definition world : Type := ref_world bench Empty_set.
Definition bgt : context world := context_Background.

Definition on_bench {A} (f : bench → bench * A) : M world A := λ w,
  let '(b, a) := f (rw_rest w) in
  ({| rw_db := rw_db w; rw_txs := rw_txs w; rw_faults := rw_faults w; rw_rest := b |}, a).

Definition called (b : bench) : bench :=
  {| PublishedEvents := PublishedEvents b; PublishError := PublishError b;
     bench_views := bench_views b; handlerCallCount := S (handlerCallCount b) |}.

#[local] Instance bench_VersionedViews : VersionedViews world := {|
  Exec_CreateVersionedViews := on_bench (λ b,
    ({| PublishedEvents := PublishedEvents b; PublishError := PublishError b;
        bench_views := Some (default ∅ (bench_views b));
        handlerCallCount := handlerCallCount b |}, None));
  QueryRow_VersionedView aid := on_bench (λ b,
    (b, match bench_views b with
        | None => Err (PgError "42P01")
        | Some m => match m !! aid with Some v => Ok v | None => Err (Sentinel ErrNoRows) end
        end));
|}.

#[local] Program Instance bench_VersionedViewsSpec : VersionedViewsSpec world := {|
  versioned_views w := bench_views (rw_rest w);
|}.
Next Obligation. intros w w' r [= <- _]. by left. Qed.
Next Obligation.
  intros aid w w' r [= <- <-]. split; [done|]. destruct (bench_views (rw_rest w)) as [m|]; [|done].
  destruct (m !! aid) eqn:Hl; [|intros _]; by exists m.
Qed.

#[local] Instance bench_versions : VersionedStore world (context world) := VersionedRepository.

#[local] Instance bench_Truncates : Truncates world := λ name w,
  let t := rw_db w in
  let set t := {| rw_db := t; rw_txs := rw_txs w; rw_faults := rw_faults w; rw_rest := rw_rest w |} in
  if String.eqb name "processed_events" then (set (set_processed_events ∅ t), None)
  else if String.eqb name "outbox" then (set (set_outbox [] t), None)
  else (w, Some (PgError "42P01")).

(** The mock of the broker: the channel has room for every event of the tests. *)
#[local] Instance MockBroker : Broker world (context world) := {|
  Publish _ _ evt := on_bench (λ b,
    match PublishError b with
    | Some err => (b, Some err)
    | None =>
        ({| PublishedEvents := PublishedEvents b ++ [evt]; PublishError := None;
            bench_views := bench_views b; handlerCallCount := handlerCallCount b |}, None)
    end);
|}.

Definition start : world := ref_start empty_tables [] fresh_bench.

(** ** cqrs/projection_test.go *)

Definition SetupTest : M world (outcome unit) :=
  _ ← CreateTable; TruncateTables ["processed_events"].

Definition mockHandler (_ : context world) (_ : OutboxEvent) : M world (option error) :=
  on_bench (λ b, (called b, None)).
Definition failingHandler (_ : context world) (_ : OutboxEvent) : M world (option error) :=
  on_bench (λ b, (called b, Some (ErrorString "business logic failed"))).
Definition transientlyFailingHandler (_ : context world) (_ : OutboxEvent) : M world (option error) :=
  on_bench (λ b, (called b,
    if decide (handlerCallCount (called b) < 2) then Some (ErrorString "transient database error")
    else None)).

(** The tests' events have an id, an aggregate and a version, and nothing else. *)
Definition test_event (n : N) (ver : Z) : OutboxEvent :=
  {| oe_EventID := UUID n; oe_AggregateID := UUID (n + 50); oe_AggregateType := "";
     oe_EventType := ""; oe_Payload := JObject []; oe_Version := ver; oe_Ts := time_zero |}.

(** Messages to a projection with a handler, on a fresh database: what each call
    returned, how often the handler was called, and whether the event is processed. *)
Definition handler_test (sub : string) (h : context world → OutboxEvent → M world (option error))
    (evts : list OutboxEvent) : world * list (option error) :=
  let projection := NewProjection sub h [WithMaxElapsedTime (5 * 10 ^ 9)] in
  (fix go evts w :=
     match evts with
     | [] => (w, [])
     | evt :: evts =>
         let '(w, r) := Projection_Handle projection bgt evt w in
         let '(w, rs) := go evts w in (w, r :: rs)
     end) evts (SetupTest start).1.

Definition calls (x : world * list (option error)) : nat := handlerCallCount (rw_rest x.1).
Definition processed (sub : string) (evt : OutboxEvent) (x : world * list (option error)) : res bool :=
  (IsProcessed bgt (oe_EventID evt) sub x.1).2.

Example TestProjection_HappyPath :
  let evt := test_event 1 1 in
  let x := handler_test "test-subscriber-1" mockHandler [evt] in
  x.2 = [None] ∧ calls x = 1 ∧ processed "test-subscriber-1" evt x = Ok true.
Proof. vm_compute. done. Qed.

Example TestProjection_SkipsDuplicateEvent :
  let evt := test_event 2 1 in
  let x := handler_test "test-subscriber-2" mockHandler [evt; evt] in
  x.2 = [None; None] ∧ calls x = 1.
Proof. vm_compute. done. Qed.

Example TestProjection_RollsBackOnHandlerFailure :
  let evt := test_event 3 1 in
  let x := handler_test "test-subscriber-3" failingHandler [evt] in
  x.2 ≠ [None] ∧ 0 < calls x ∧ processed "test-subscriber-3" evt x = Ok false.
Proof. vm_compute. split_and!; [done|lia|done]. Qed.

Example TestProjection_RetriesOnTransientFailure :
  let evt := test_event 4 1 in
  let x := handler_test "test-subscriber-4" transientlyFailingHandler [evt] in
  x.2 = [None] ∧ calls x = 2 ∧ processed "test-subscriber-4" evt x = Ok true.
Proof. vm_compute. done. Qed.

Example TestProjection_RejectsOutOfOrderEvent :
  let evt := test_event 5 2 in
  let sub := "test-subscriber-5-ordering"%string in
  let x := handler_test sub mockHandler [evt] in
  match x.2 with [Some e] => errors_is e ErrOutOfOrderEvent | _ => false end = true ∧
  calls x = 0 ∧ processed sub evt x = Ok false ∧
  (GetVersion bgt (oe_AggregateID evt) x.1).2 = Ok 0%Z.
Proof. vm_compute. done. Qed.

(** ** outbox/relay_test.go *)

Definition relay_event (i : nat) : ProductCreated :=
  {| pc_BaseEvent := {| ID := UUID (100 + N.of_nat i); AggID := UUID 7; AggType := "products";
                        Ver := Z.of_nat i + 1; Ts := time_zero |};
     pc_Name := "test"; pc_Price := SpecFloat.S754_finite false 1 0 |}.

(** Each event is first refused outside a transaction, then saved in one. *)
Fixpoint insertTestEvents (ns : list nat) : M world bool :=
  match ns with
  | [] => mret true
  | i :: ns =>
      refused ← OutboxStore_SaveEvents bgt [relay_event i];
      r ← WithTransaction bgt (λ txCtx, OutboxStore_SaveEvents txCtx [relay_event i]);
      ok ← insertTestEvents ns;
      mret (bool_decide (is_Some refused) && bool_decide (r = None) && ok)
  end.

(** SELECT COUNT( * ) FROM outbox WHERE published = TRUE. *)
Definition count_published (w : world) : nat := length (List.filter or_published (outbox (rw_db w))).

(** A relay with batches of two, through two ticks. *)
Example TestRelay_ProcessesAndPublishesEvents :
  let '(w, ok) := insertTestEvents (seq 0 3) start in
  let '(w, _) := relay_loop 2 bgt [Tick; Tick] w in
  ok = true ∧ length (PublishedEvents (rw_rest w)) = 3 ∧ count_published w = 3.
Proof. vm_compute. done. Qed.

(** Three relays with batches of five, one tick each, and another round: every event is
    published, and none twice. *)
Example TestRelay_ConcurrentWorkersDoNotProcessSameEvent :
  let '(w, ok) := insertTestEvents (seq 0 15) start in
  let tick w := (relay_loop 5 bgt [Tick] w).1 in
  let w := tick (tick (tick (tick (tick (tick w))))) in
  ok = true ∧ length (PublishedEvents (rw_rest w)) = 15 ∧
  bool_decide (NoDup (oe_EventID <$> PublishedEvents (rw_rest w))) = true ∧ count_published w = 15.
Proof. vm_compute. done. Qed.
